(* ===== verification/_CoqProject ===== *)
-Q . S2P
Prelude.v
Errors.v
Retry.v
GoStrings.v
Keys.v
Digest.v
Metadata.v
ProtoExample.v
TreeWalk.v
TreeResolve.v
TreeCollect.v
TreeBuild.v
TreeHash.v
Store.v
Client.v
ObjectStorage.v
Crypto.v
Upload.v
UploadExample.v
Backup.v
Pool.v
Workers.v
BackupPool.v
BackupSpec.v
BackupExample.v
BackupProps.v
ZipDir.v
Paths.v
DiskSpace.v
Restore.v
Tracked.v
RestoreSpec.v
RestoreRun.v
RestoreExample.v
RestoreWorkers.v
RestorePool.v
RestoreProps.v
EndToEnd.v
Facade.v
Local.v
LocalLaws.v
LocalExample.v
LocalProps.v
Url.v
Attempts.v
Retried.v
Parts.v
Http.v
HttpLaws.v
HttpWrites.v
HttpExample.v
HttpProps.v
Sdk.v
SdkLaws.v
S3.v
S3Laws.v
Oci.v
OciLaws.v
SdkExample.v
SdkProps.v
Auth.v
AuthProps.v
Transport.v
Providers.v
Source.v
SourceProps.v
Timeouts.v
