(* ===== verification/Prelude.v ===== *)
(** * T-Sync SDK: a verification library

    This library models the Go SDK under [src/]: versioned backups of files
    into an object store, one zip part per content, with a directory tree per
    version that is addressed by its hash.  A program calls [RunBackup] to add
    a version, [RunRestore] to read one back, and the [Client] to list versions,
    delete them and collect garbage; all of them work on a [Storage], which is a
    local directory or a multipart object store behind a retrying client.

    ** Parts

    - Prelude.v: outcomes ([Ok], [Err], [Panic], [OutOfFuel]) and their
      notation, 32 and 64 bit arithmetic, lists, tactics and hints.
    - Errors.v: [storage_clients/errors.go], [tsync/errors.go]: errors as trees,
      [errors.Is], [errors.As], [IsRetryable].
    - Retry.v: [storage_clients/retry.go]: the loop of [Do] over a world with a
      clock, back-off, Retry-After.
    - GoStrings.v, Digest.v: the functions of Go's library that the program uses
      on strings, and SHA-256, CRC-32 as executable definitions.
    - Keys.v: names, content keys, part keys, version numbers ([backup.go],
      [client.go]).
    - Metadata.v, ProtoExample.v: the protobuf messages and their serialisation
      as the interface [Proto], with a concrete instance in wire format.
    - TreeWalk.v: [ResolveVersionTree], [walkTree] ([restore.go]) and [walkCollect]
      ([client.go]); TreeResolve.v and TreeCollect.v prove them correct.
    - TreeBuild.v: [tempDirNode], [buildAndHash] ([backup.go]); proofs in TreeHash.v.
    - Store.v: the [Storage] interface ([storage.go]) as operations
      ([Storage]) and laws ([StorageLaws]), and an in-memory instance with faults.
    - ObjectStorage.v: [ObjectStorage], [objectStorageWriter], [StorageReaderAt]
      ([storage.go]) over the provider interface of [registry.go].
    - Client.v: [loadMetadata], [DeleteVersion], [GC] ([client.go]); Facade.v: the
      rest of its interface.
    - Crypto.v: [crypto.go]; the NaCl box is the interface [Box].
    - Upload.v: one entry of a backup ([uploadPart], [processFile] of
      [backup.go]); the zip writer is the interface [ZipParts].
    - Backup.v: [RunBackup] from the options to the saved metadata, with one
      entry after the other.
    - Pool.v: goroutines that take tasks from a channel and send a result each,
      the loop that receives the results, and the caller, as a step relation; with
      the ledger of all tasks, by which invariants are stated.  What a goroutine
      does with a task is a parameter ([routine]).
    - Workers.v: what the goroutines of a backup do ([backup.go], lines 312 to 388
      and 718 to 780): the calls for keys and parts, the shared uploads, the
      cancellation.  BackupPool.v: [RunBackup_run], the program with its
      goroutines; BackupSpec.v has its specification, BackupProps.v its theorems,
      BackupExample.v a run that evaluates (with the zip writer of
      UploadExample.v).
    - ZipDir.v: end records, cached reader and part ranges ([zip_utils.go]).
    - Paths.v: [safeJoin] ([restore.go]) with the functions of [path/filepath].
    - DiskSpace.v: [syncDir], [osGetFreeSpace] ([disk_space_unix.go], and their
      counterparts of [disk_space_windows.go]).
    - Restore.v: [RunRestore], [restoreToDir], [extractOne], [restoreToZip]
      ([restore.go]); the disk, the stream of a part, the zip library's reader and
      its archive writer are the interfaces [Disk], [PartReader], [ZipReading],
      [ZipWriting].  RestoreSpec.v specifies one file, RestoreRun.v what follows
      the workers, RestoreProps.v has the theorems, RestoreExample.v an example
      that restores what BackupExample.v has stored.
    - Tracked.v: [trackedReader], [trackedWriter] ([restore.go]) read by read, and
      that Restore.v's whole streams agree with them.
    - RestoreWorkers.v: what the goroutines of a restore do: the progress counter,
      the callback and the caller's context ([restore.go], lines 399 to 616), in a
      pool of Pool.v, with [restoreToDir_run] and [RunRestore_run], the program
      with its workers; RestorePool.v has their properties.
    - EndToEnd.v: a backup from a source followed by a restore to a disk.
    - Source.v, SourceProps.v: [FolderSource], [ZipFileSource] and the verified
      stream of an archive's entry ([source.go]).
    - Local.v: [LocalStorage] and [localAtomicWriter] ([storage.go]) over the
      operating system's calls ([OS], with laws [OSLaws] in LocalLaws.v);
      LocalExample.v has a file system with faults, LocalProps.v the theorems.
    - Url.v: the functions of [net/url], [strings] and [strconv] that the
      clients use, [appendEscapedPath], [buildURL] ([http.go]).
    - Attempts.v: [Retry.Do] around a request, under the caller's context, over a
      network ([Surroundings]); Retried.v: what holds of a retried request if it
      holds of one attempt.
    - Parts.v: the list of parts that completes an upload.
    - Http.v: [HTTPStorageClient] ([http.go]) over [Net] and [Xml]; the server's
      contract and the proofs are in HttpLaws.v and HttpWrites.v, a server that
      evaluates in HttpExample.v, the theorems in HttpProps.v.
    - Sdk.v: what [s3.go] and [oci.go] have in common, over the SDK's calls
      ([Sdk]); S3.v and Oci.v: their error classification, listings and
      operations; SdkLaws.v, S3Laws.v, OciLaws.v, SdkExample.v and SdkProps.v as
      for the HTTP client.
    - Auth.v, AuthProps.v: [auth.go], [registry.go], and how [NewS3Client] and
      [NewOCIClient] choose credentials.
    - Transport.v: [transport.go]; the SDK clients that [S3Client] and [OCIClient]
      hold, their settings, and [SetRegion].  Providers.v: the [init] functions of
      the clients' packages and what [GetClient] then returns.
    - Timeouts.v: [ParseRetryAfter] ([retry.go]); [OpenWithHeaderTimeout] and
      [cancelOnClose] ([headertimeout.go]) as a step relation of the caller, the
      timer if there is one, and the contexts.

    ** How the parts correspond to the code

    A Go function is a definition of the same name.  Calls with effects are
    functions of type [M S A], from a state to an outcome and a state: [S] is
    the state of the storage ([store]) for the client, [net] for a storage client,
    [os] for the local storage, [bstate] (storage, sources, shared uploads,
    cancellation cause) for a backup, [rstate] (storage, disk, cancellation,
    touched directories) for a restore.  [let*] is sequencing with an early
    return of errors, [wrap_err] is [fmt.Errorf] with one wrapped error,
    [handle] and [ignore] are the other uses of an error.  A Go map whose
    order can be seen is iterated with the interface [MapRange], of which only
    the contents are known.  A program that starts goroutines is a relation
    between a state, an outcome and a state ([runs]), sequenced by [then_run].

    ** What the theorems show

    - A backup of plain files followed by a restore of its version, with overwriting
      allowed and no error skipped, puts every selected file of
      the source back, with the length and checksum of its content, and
      touches no other file (backup_restore).
    - A backup run, in any interleaving of its goroutines, leaves every stored
      version readable, whether it succeeds or fails at any call, and what it
      commits is complete also if it fails afterwards (RunBackup_safe,
      RunBackup_sound, uploadPart_atomic); a version that is returned resolves to
      exactly the listing of the source (RunBackup_resolves), and is ordered after
      its predecessors (RunBackup_version); single-version mode deletes only what
      the new version does not use (RunBackup_single_version).
    - A part that was uploaded and later extracted has the bytes of the source
      (upload_extract_roundtrip).
    - A restore, in any interleaving of its workers, writes only verified
      content, only below its directory, and leaves a file out only where there was
      one that must be kept (RunRestore_dir, safeJoin_contained); an
      archive with a central directory lacks only parts that cannot be restored and
      may be skipped (RunRestore_zip); restore_skips says which errors may be
      skipped.
    - The workers of a restore have no deadlock and end after a bounded number of
      steps (restore_workers_terminate); the error they report is one that a task
      has met before the others were cancelled, and progress is reported once for
      every finished file (restore_workers_report). Taking one task after the other
      is one of their schedules ([RunRestore_is_run]), on which the examples are
      evaluated.
    - Deleting a version and collecting garbage keep everything that other
      listed versions reach, also when a call fails (DeleteVersion_safe,
      DeleteVersion_complete, GC_safe).
    - The worker pool of a backup has no deadlock, ends after a bounded number of
      steps, gives one result for every entry and uploads no content twice
      (pool_terminates, pool_results). Taking one entry after the other is one
      of its schedules ([RunBackup_is_run]).
    - The tree of a version: building and resolving are inverse
      (buildTree_roundtrip), the hash does not depend on map order, colliding
      paths are reported, and the walks end with the expected result.
    - An object store with multipart uploads implements [Storage]
      (ObjectStorage_refines_Storage); a writer publishes all of its bytes or
      nothing (objectStorageWriter_atomic).
    - So does a local directory (LocalStorage_refines_Storage): files are
      published by a rename, and those in progress are not listed.
    - The HTTP, S3 and OCI clients, each under [ObjectStorage], implement
      [Storage] too (HTTP_storage, S3_storage, OCI_storage): against a server that
      keeps its contract, whatever requests get lost before or after they take
      effect, are repeated, or answered in part.  Errors are classified as
      documented (s3_classifyError_spec); URLs and auth strings are read back
      (buildURL_roundtrip, ParseAuthString_roundtrip).  Transports bound every
      phase of a request that can stall (TuneTransport_spec), and a change of the
      region keeps everything else (set_regions, open_OCIClient_ready).
    - An entry of an archive that is read to its end has the recorded
      size and checksum (openZipEntryStream_sound) and is read back as archived
      (openZipEntryStream_roundtrip); a backup files what the sources list under
      the key of its content (ListEntries_keys); the ranges of an archive's entries
      cover it without overlap (GetZipPartRanges_spec).
    - A body that outlives its header timeout is cancelled by the end of the
      caller's context only, in any interleaving, and its context is released when
      it is closed (OpenWithHeaderTimeout_safe).
    - Zip directories, content keys and passwords round trip; the retry loop is
      bounded and gives up only for the documented reasons.

    ** Bounds and fuel

    [resolve_fuel] and [collect_fuel] are one more than the number of stored
    nodes: a longer walk passes a node twice on one path, which the theorems show
    to need a cycle of hashes.  [Retry.Do] takes the number of attempts that its
    policy allows.  [getExistingAncestor] takes two more than the number of path
    elements (getExistingAncestor_returns).  A listing takes as many pages as the
    server holds at most ([list_fuel] and its laws), so that it returns if the
    server's tokens advance.  [z_drain] takes one step for every read that the
    reader below answers, [ae2_fields] one for every byte of the extra fields.  The
    remaining loops are structural.
    Integers that Go keeps in 32 or 64 bits are [Z] with [u32], [u64] or [i64]
    at every operation that may wrap.

    ** Interfaces and their laws

    [StorageLaws]: an operation that fails has taken effect completely or not at
    all, a writer publishes at [Close], and it can be aborted (the interface asks
    for that with a SHOULD; [unabortable_truncates] of BackupExample.v shows what
    happens otherwise).  [ProtoLaws]: serialisation is a
    partial injection.  [ContextLaws]: a context that has ended stays ended.
    [ZipPartsLaws], [ZipRoundtrip]: headers describe what was
    written, and reading a complete part gives it back.  [BoxLaws]: opening
    inverts sealing.  [DiskLaws], [OSLaws]: files appear by renaming only.
    [NetLaws], [SdkLaws], [S3ListLaws], [OciListLaws]: a request that is answered
    has been carried out, one that fails has been carried out or not; pages add up
    to the objects.  [CalmLaws]: waiting changes nothing.  The laws are the
    documented behaviour of code outside [src/]; every theorem that uses them
    comes with an instance for which it is evaluated.

    ** Not modelled

    - What the fields of [net/http]'s transports and the options of the vendors'
      SDKs do: Transport.v says which are set, and to what.
    - Crashes of the machine: [fsync] is a call that may fail, its effect on
      a power loss is not stated.
    - Log output, and the interleaving of the single I/O calls of two workers:
      reading a source for its key, uploading a part and extracting a file are one
      step each, and every interleaving of such steps with the other steps of
      the workers is a run.
    - That [RunBackup] closes its source when it returns.
    - Windows paths, permissions, symbolic links and names that differ in case
      only: a path of the disk is its cleaned name.
    - [gen/]: generated code, present as the messages of Metadata.v.

    ** This file

    The outcome monad, machine-width arithmetic, byte-string helpers and generic
    lemmas on lists and maps. *)

From Stdlib Require Export ZArith Ascii.
From Stdlib Require Import Strings.Byte.
From stdpp Require Export base tactics list strings gmap fin_maps pretty sorting.

(** ** Outcomes

    A Go call returns a value, returns a non-nil error, panics, or does not
    return.  [OutOfFuel] is the last case for functions whose recursion is
    bounded by fuel; the theorems about such functions show that the fuel
    they are given suffices. *)
Inductive outcome (E A : Type) : Type :=
| Ok (a : A)
| Err (e : E)
| Panic
| OutOfFuel.
Arguments Ok {E A} a.
Arguments Err {E A} e.
Arguments Panic {E A}.
Arguments OutOfFuel {E A}.

Definition obind {E A B} (m : outcome E A) (k : A → outcome E B) : outcome E B :=
  match m with
  | Ok a => k a
  | Err e => Err e
  | Panic => Panic
  | OutOfFuel => OutOfFuel
  end.

Declare Scope outcome_scope.
Delimit Scope outcome_scope with outcome.
Notation "'let!' x := c 'in' k" := (obind c (λ x, k))
  (at level 10, x binder, c at level 100, k at level 200) : outcome_scope.
Open Scope outcome_scope.

Definition is_ok {E A} (m : outcome E A) : bool :=
  match m with Ok _ => true | _ => false end.

Definition ok_or {E A} (d : A) (m : outcome E A) : A :=
  match m with Ok a => a | _ => d end.

Lemma ok_or_spec {E A} (d : A) (m : outcome E A) : is_ok m = true → m = Ok (ok_or d m).
Proof. by destruct m. Qed.

(** Proves a decidable fact about closed terms by evaluation. *)
Ltac by_eval :=
  match goal with |- ?P => refine (@bool_decide_unpack P _ _); vm_compute; exact I end.

#[export] Instance outcome_eq_dec {E A} `{EqDecision E, EqDecision A} :
  EqDecision (outcome E A).
Proof. solve_decision. Defined.

Lemma obind_Ok {E A B} (m : outcome E A) (k : A → outcome E B) (b : B) :
  obind m k = Ok b ↔ ∃ a, m = Ok a ∧ k a = Ok b.
Proof. destruct m; naive_solver. Qed.

(** A guard: [if b { return err }]. *)
Lemma guard_Ok {E A} (b : bool) (e : E) (k : outcome E A) (a : A) :
  (if b then Err e else k) = Ok a ↔ b = false ∧ k = Ok a.
Proof. destruct b; naive_solver. Qed.

Lemma obind_assoc {E A B C} (m : outcome E A) (f : A → outcome E B) (g : B → outcome E C) :
  obind (obind m f) g = obind m (λ a, obind (f a) g).
Proof. by destruct m. Qed.

(** Inverts every successful sequencing in the context. *)
Ltac inv_ok :=
  repeat match goal with
  | H : obind _ _ = Ok _ |- _ => apply obind_Ok in H as (?&?&?)
  | H : Ok _ = Ok _ |- _ => injection H as H; try subst
  | H : Err _ = Ok _ |- _ => discriminate H
  | H : Panic = Ok _ |- _ => discriminate H
  | H : OutOfFuel = Ok _ |- _ => discriminate H
  end.

(** ** Machine integers

    Go's [int64], [uint64], [uint32] and [uint16] are integers of [Z]
    reduced to their width. *)
Definition u16 (z : Z) : Z := (z mod 2 ^ 16)%Z.
Definition u32 (z : Z) : Z := (z mod 2 ^ 32)%Z.
Definition u64 (z : Z) : Z := (z mod 2 ^ 64)%Z.
Definition i64 (z : Z) : Z := ((z + 2 ^ 63) mod 2 ^ 64 - 2 ^ 63)%Z.
Definition i32 (z : Z) : Z := ((z + 2 ^ 31) mod 2 ^ 32 - 2 ^ 31)%Z.
Definition max_int64 : Z := (2 ^ 63 - 1)%Z.
Definition min_int64 : Z := (- 2 ^ 63)%Z.

Definition is_i64 (z : Z) : Prop := (min_int64 ≤ z ≤ max_int64)%Z.
Definition is_u64 (z : Z) : Prop := (0 ≤ z < 2 ^ 64)%Z.
Definition is_u32 (z : Z) : Prop := (0 ≤ z < 2 ^ 32)%Z.

Lemma i64_id z : is_i64 z → i64 z = z.
Proof.
  unfold is_i64, i64, min_int64, max_int64. intros.
  rewrite Z.mod_small; lia.
Qed.

Lemma i32_id z : (- 2 ^ 31 ≤ z < 2 ^ 31)%Z → i32 z = z.
Proof. unfold i32. intros. rewrite Z.mod_small; lia. Qed.

(** One wrap past [math.MaxInt64]. *)
Lemma i64_wrap z : (max_int64 < z ≤ max_int64 + 2 ^ 64)%Z → i64 z = (z - 2 ^ 64)%Z.
Proof.
  unfold i64, max_int64. intros.
  rewrite <- (Z.mod_unique (z + 2 ^ 63) (2 ^ 64) 1 (z + 2 ^ 63 - 2 ^ 64)); lia.
Qed.

Lemma i64_bounds z : is_i64 (i64 z).
Proof.
  unfold is_i64, i64, min_int64, max_int64.
  pose proof (Z.mod_pos_bound (z + 2 ^ 63) (2 ^ 64)). lia.
Qed.

Lemma u64_bounds z : is_u64 (u64 z).
Proof. unfold is_u64, u64. apply Z.mod_pos_bound. lia. Qed.

Lemma u64_id z : is_u64 z → u64 z = z.
Proof. unfold is_u64, u64. intros. by apply Z.mod_small. Qed.

(** ** Go strings

    A Go string is a byte sequence; an [ascii] is one byte. *)
Definition str_len (s : string) : Z := Z.of_nat (String.length s).
Definition chars (s : string) : list ascii := String.list_ascii_of_string s.
Definition of_chars (l : list ascii) : string := String.string_of_list_ascii l.

Lemma of_chars_chars s : of_chars (chars s) = s.
Proof. apply String.string_of_list_ascii_of_string. Qed.
Lemma chars_of_chars l : chars (of_chars l) = l.
Proof. apply String.list_ascii_of_string_of_list_ascii. Qed.

Lemma chars_inj s t : chars s = chars t → s = t.
Proof. intros H. by rewrite <- (of_chars_chars s), H, of_chars_chars. Qed.

Lemma chars_app s t : chars (s +:+ t) = chars s ++ chars t.
Proof. induction s as [|a s IH]; simpl; [done|]. by rewrite IH. Qed.

Lemma of_chars_app l k : of_chars (l ++ k) = of_chars l +:+ of_chars k.
Proof. apply chars_inj. by rewrite chars_app, !chars_of_chars. Qed.

Lemma length_chars s : length (chars s) = String.length s.
Proof. induction s as [|a s IH]; simpl; [done|]. by rewrite IH. Qed.

Lemma app_str_length s t : String.length (s +:+ t) = String.length s + String.length t.
Proof. by rewrite <- !length_chars, chars_app, length_app. Qed.

(** The byte value of a character. *)
Definition byte_of (c : ascii) : Z := Z.of_N (N_of_ascii c).

Lemma byte_of_bound c : (0 ≤ byte_of c < 256)%Z.
Proof. unfold byte_of. pose proof (N_ascii_bounded c). lia. Qed.

(** Go's [<] on strings is the lexicographic order of their bytes. *)
Definition str_ltb (s t : string) : bool := String.ltb s t.
Definition str_leb (s t : string) : bool := String.leb s t.
Definition str_lt (s t : string) : Prop := str_ltb s t = true.

(** Conversions between Go strings and byte slices. *)
Definition bytes_of_string (s : string) : list Byte.byte := String.list_byte_of_string s.
Definition string_of_bytes (l : list Byte.byte) : string := String.string_of_list_byte l.
Definition byte_val (b : Byte.byte) : Z := Z.of_N (Byte.to_N b).

(** ** String order *)

Lemma str_compare_refl s : String.compare s s = Eq.
Proof.
  induction s as [|a s IH]; simpl; [done|].
  unfold Ascii.compare. by rewrite N.compare_refl.
Qed.

Lemma str_ltb_irrefl s : str_ltb s s = false.
Proof. unfold str_ltb, String.ltb. by rewrite str_compare_refl. Qed.

Lemma str_leb_spec s t : str_leb s t = true ↔ s = t ∨ str_ltb s t = true.
Proof.
  unfold str_leb, String.leb, str_ltb, String.ltb.
  destruct (String.compare s t) eqn:E; split; try naive_solver.
  - intros _. left. by apply String.compare_eq_iff.
  - intros [->|?]; [|done]. by rewrite str_compare_refl in E.
Qed.

Lemma str_leb_false s t : str_leb s t = false ↔ str_ltb t s = true.
Proof.
  unfold str_leb, String.leb, str_ltb, String.ltb.
  rewrite (String.compare_antisym s t). by destruct (String.compare t s).
Qed.

Lemma str_leb_le s t : str_leb s t = true ↔ String.le s t.
Proof. unfold str_leb, String.le. by rewrite Is_true_true. Qed.

#[export] Instance str_lt_dec s t : Decision (str_lt s t).
Proof. unfold str_lt. apply _. Defined.

#[export] Instance str_lt_irrefl : Irreflexive str_lt.
Proof. intros s. unfold complement, str_lt. by rewrite str_ltb_irrefl. Qed.

#[export] Instance str_lt_trans : Transitive str_lt.
Proof.
  intros s t u Hst Htu. unfold str_lt in *.
  assert (String.le s u) as Hle%str_leb_le%str_leb_spec.
  { trans t; apply str_leb_le, str_leb_spec; by right. }
  destruct Hle as [->|?]; [|done].
  assert (t = u) as ->; [|by rewrite str_ltb_irrefl in Hst].
  apply (anti_symm String.le); apply str_leb_le, str_leb_spec; by right.
Qed.

(** ** Lists *)

Lemma existsb_false_Forall {A} (f : A → bool) l :
  existsb f l = false ↔ Forall (λ x, f x = false) l.
Proof.
  induction l as [|x l IH]; simpl.
  - split; intros; [constructor|done].
  - rewrite orb_false_iff, Forall_cons, IH. done.
Qed.

Lemma existsb_elem_of {A} (f : A → bool) l :
  existsb f l = true ↔ ∃ x, x ∈ l ∧ f x = true.
Proof.
  rewrite existsb_exists. split; intros (x & H & ?); exists x;
    (split; [by apply list_elem_of_In|done]).
Qed.

Lemma NoDup_fst_elem {A B} (l : list (A * B)) k v w :
  NoDup l.*1 → (k, v) ∈ l → (k, w) ∈ l → v = w.
Proof.
  induction l as [|[k' v'] l IH]; simpl; [by intros _ []%elem_of_nil|].
  rewrite NoDup_cons. intros [Hni Hnd] Hv Hw.
  apply elem_of_cons in Hv as [Ev|Hv], Hw as [Ew|Hw]; simplify_eq; auto.
  - destruct Hni. apply list_elem_of_fmap. by exists (k', w).
  - destruct Hni. apply list_elem_of_fmap. by exists (k', v).
Qed.

(** ** Lists of goroutines, one of which moves *)

Lemma bind_insert {A B} (f : A → list B) ws i w :
  ws !! i = Some w → ∃ rest, ws ≫= f ≡ₚ f w ++ rest ∧ ∀ w', <[i := w']> ws ≫= f ≡ₚ f w' ++ rest.
Proof.
  intros Hi. exists ((take i ws ≫= f) ++ (drop (S i) ws ≫= f)).
  assert (∀ x, (take i ws ++ x :: drop (S i) ws) ≫= f ≡ₚ f x ++ (take i ws ≫= f) ++ (drop (S i) ws ≫= f)) as H.
  { intros x. rewrite bind_app, bind_cons. apply Permutation_app_swap_app. }
  split; [by rewrite <- H, take_drop_middle|]. intros w'.
  rewrite <- H, insert_take_drop by (by eapply lookup_lt_Some). done.
Qed.

Lemma bind_insert_same {A B} (f : A → list B) ws i w w' :
  ws !! i = Some w → f w' = f w → <[i := w']> ws ≫= f ≡ₚ ws ≫= f.
Proof. intros (rest & -> & Hw)%(bind_insert f) E. by rewrite Hw, E. Qed.

Lemma bind_replicate_nil {A B} (f : A → list B) n x : f x = [] → replicate n x ≫= f = [].
Proof. intros E. induction n as [|n IH]; [done|]. cbn [replicate]. by rewrite bind_cons, E, IH. Qed.

Lemma sum_list_with_insert {A} (f : A → nat) ws i w w' :
  ws !! i = Some w → sum_list_with f (<[i := w']> ws) + f w = sum_list_with f ws + f w'.
Proof.
  revert i. induction ws as [|x ws IH]; intros [|i]; simpl; [done|done| |].
  - intros [= ->]. lia.
  - intros Hi. specialize (IH _ Hi). lia.
Qed.
