(* ===== verification/Errors.v ===== *)
(** Go error values of the program: the sentinels of
    [storage_clients/errors.go] and [tsync/errors.go], the error types the
    program declares, wrapping with [fmt.Errorf("%w")] and [errors.Join], and
    the classification functions built on [errors.Is] and [errors.As].

    Message texts are kept only as far as they name the failing operation:
    no code branches on them. *)

From S2P Require Import Prelude.

Set Warnings "-register-all".

(** Values made with [errors.New] (identity is what [==] compares), and the
    standard-library and zip-library sentinels the program tests for. *)
Inductive sentinel :=
(* storage_clients/errors.go *)
| ErrNotFound | ErrUploadNotFound | ErrUnsupportedProvider | ErrInvalidConfig
| ErrInvalidRange | ErrInvalidResponse | ErrAttemptTimeout
(* tsync/errors.go *)
| ErrTimestampEqualsLatest | ErrTimestampBeforeLatest | ErrTimestampInFuture
| ErrVersionIDExists | ErrVersionNotFound
| ErrStoreNotInitialized | ErrCorruptMetadata | ErrUnsupportedSchema
| ErrInvalidOptions | ErrKeyNotFound | ErrInvalidName | ErrPathCollision | ErrUnsafePath
| ErrPrivateKeyRequired | ErrDecryptionFailed | ErrCorruptPart | ErrSourceChanged
| ErrNotZip | ErrCorruptZip | ErrUnsupportedEncryption
| ErrInsufficientDiskSpace | ErrWriterClosed | ErrIncompleteRun
(* restore.go *)
| ErrUnsupportedMethod
(* context, io, io/fs, syscall and the zip library *)
| CtxCanceled | CtxDeadlineExceeded | IoEOF | IoErrUnexpectedEOF | FsErrNotExist | SysEINVAL | SysENOTSUP
| ZipErrPassword | ZipErrChecksum.

#[export] Instance sentinel_eq_dec : EqDecision sentinel.
Proof. solve_decision. Defined.

(** Error values.  [ELeaf m isdl] is any other leaf error; [isdl] says
    whether its [Is] method matches [context.DeadlineExceeded] (transport
    timeouts do).  [EWrap m es] is [fmt.Errorf] with the [%w] operands [es],
    or [errors.Join es]. *)
Inductive error :=
| ESentinel (s : sentinel)
| ELeaf (m : string) (isdl : bool)
| EWrap (m : string) (es : list error)
| EStatus (op : string) (StatusCode : Z) (under : option error) (RetryAfter : Z)
| EPermanent (e : error)
| EUnsupportedSchema (version : Z).

(** [res A]: the outcome of a Go call with result type [(A, error)]. *)
Abbreviation res := (outcome error).

(** Induction over an error and all the errors it wraps. *)
Section error_ind.
  Context (P : error → Prop).
  Context (Hs : ∀ s, P (ESentinel s)).
  Context (Hl : ∀ m d, P (ELeaf m d)).
  Context (Hw : ∀ m es, Forall P es → P (EWrap m es)).
  Context (Hst : ∀ op c u r, from_option P True u → P (EStatus op c u r)).
  Context (Hp : ∀ e, P e → P (EPermanent e)).
  Context (Hu : ∀ v, P (EUnsupportedSchema v)).
Fixpoint error_ind' (e : error) : P e :=
    match e with
    | ESentinel s => Hs s
    | ELeaf m d => Hl m d
    | EWrap m es =>
        Hw m es ((fix go es : Forall P es := match es with
                  | [] => Forall_nil_2 _
                  | e :: es => Forall_cons_2 _ _ _ (error_ind' e) (go es)
                  end) es)
    | EStatus op c u r =>
        Hst op c u r (match u return from_option P True u with
                      | Some e => error_ind' e | None => I end)
    | EPermanent e => Hp e (error_ind' e)
    | EUnsupportedSchema v => Hu v
    end.
End error_ind.

(** [http.StatusNotFound], [http.StatusRequestTimeout],
    [http.StatusTooManyRequests]. *)
Definition StatusNotFound : Z := 404%Z.
Definition StatusRequestTimeout : Z := 408%Z.
Definition StatusTooManyRequests : Z := 429%Z.

(** [StatusError.Is]. *)
Definition status_is (StatusCode : Z) (target : sentinel) : bool :=
  bool_decide (target = ErrNotFound) && Z.eqb StatusCode StatusNotFound.

(** [UnsupportedSchemaError.Is]. *)
Definition schema_is (target : sentinel) : bool := bool_decide (target = ErrUnsupportedSchema).

(** [errors.Is] (standard library): the error itself, its [Is] method, then
    what it unwraps to. *)
Fixpoint errors_Is (err : error) (target : sentinel) : bool :=
  match err with
  | ESentinel s => bool_decide (s = target)
  | ELeaf _ isdl => isdl && bool_decide (target = CtxDeadlineExceeded)
  | EWrap _ es => existsb (λ e, errors_Is e target) es
  | EStatus _ code under _ =>
      status_is code target ||
      match under with Some e => errors_Is e target | None => false end
  | EPermanent e => errors_Is e target
  | EUnsupportedSchema _ => schema_is target
  end.

(** [errors.As(err, *StatusError)]: the first status error met in the same
    depth-first order, as its code and its Retry-After hint. *)
Fixpoint as_status (err : error) : option (Z * Z) :=
  match err with
  | EStatus _ code _ ra => Some (code, ra)
  | EWrap _ es =>
      (fix go es := match es with
       | [] => None
       | e :: es => match as_status e with Some s => Some s | None => go es end
       end) es
  | EPermanent e => as_status e
  | _ => None
  end.

(** [isPermanent]: [errors.As(err, *permanentError)]. *)
Fixpoint isPermanent (err : error) : bool :=
  match err with
  | EPermanent _ => true
  | EWrap _ es => existsb isPermanent es
  | EStatus _ _ (Some e) _ => isPermanent e
  | _ => false
  end.

(** [StatusError.Retryable]. *)
Definition Retryable (StatusCode : Z) : bool :=
  (StatusCode =? StatusRequestTimeout)%Z || (StatusCode =? StatusTooManyRequests)%Z
  || (StatusCode >=? 500)%Z.

(** [chainHasContextSentinel]: identity comparison only, no [Is] methods. *)
Fixpoint chainHasContextSentinel (err : error) : bool :=
  match err with
  | ESentinel s => bool_decide (s = CtxCanceled) || bool_decide (s = CtxDeadlineExceeded)
  | EWrap _ es => existsb chainHasContextSentinel es
  | EStatus _ _ (Some e) _ => chainHasContextSentinel e
  | EPermanent e => chainHasContextSentinel e
  | _ => false
  end.

(** [IsRetryable] of a non-nil error. *)
Definition IsRetryable (err : error) : bool :=
  if chainHasContextSentinel err then false
  else if errors_Is err ErrNotFound || errors_Is err ErrUploadNotFound
          || errors_Is err ErrInvalidRange || errors_Is err ErrInvalidConfig then false
  else match as_status err with
       | Some (code, _) => Retryable code
       | None => true
       end.

(** [Permanent] of a possibly nil error. *)
Definition Permanent (err : option error) : option error := EPermanent <$> err.

(** [errors.Join]: nil operands are dropped, all nil gives nil. *)
Definition errors_Join (es : list (option error)) : option error :=
  match omap id es with
  | [] => None
  | es => Some (EWrap "join" es)
  end.

(** [fmt.Errorf("...%w...", es...)]. *)
Definition Errorf (m : string) (es : list error) : error := EWrap m es.
Definition wrap1 (s : sentinel) (m : string) : error := EWrap m [ESentinel s].

(** ** Lemmas *)

Lemma errors_Is_wrap m es t :
  errors_Is (EWrap m es) t = true ↔ ∃ e, e ∈ es ∧ errors_Is e t = true.
Proof. apply existsb_elem_of. Qed.

Lemma errors_Is_wrap1 s m t : errors_Is (wrap1 s m) t = bool_decide (s = t).
Proof. unfold wrap1; simpl. by rewrite orb_false_r. Qed.

(** Looking for a context sentinel by identity finds only errors that
    [errors.Is] reports as cancelled or past the deadline. *)
Lemma chain_sentinel_is err :
  chainHasContextSentinel err = true →
  errors_Is err CtxCanceled = true ∨ errors_Is err CtxDeadlineExceeded = true.
Proof.
  induction err as [s|m d|m es IH|op c u r IH|e IH|v] using error_ind'; simpl; try done.
  - rewrite orb_true_iff, !bool_decide_eq_true. naive_solver.
  - rewrite existsb_elem_of. intros (e & He & Hc).
    rewrite Forall_forall in IH. rewrite !existsb_elem_of.
    destruct (IH e He Hc); [left|right]; eauto.
  - destruct u as [e|]; [|done]. intros [H|H]%IH; rewrite H, ?orb_true_r; auto.
Qed.

Lemma as_status_wrap m es :
  as_status (EWrap m es) = head (omap as_status es).
Proof.
  simpl. induction es as [|e es IH]; csimpl; [done|].
  destruct (as_status e); [done|]. apply IH.
Qed.

(** [IsRetryable], branch by branch. *)
Lemma IsRetryable_true err :
  IsRetryable err = true ↔
    chainHasContextSentinel err = false ∧
    errors_Is err ErrNotFound = false ∧ errors_Is err ErrUploadNotFound = false ∧
    errors_Is err ErrInvalidRange = false ∧ errors_Is err ErrInvalidConfig = false ∧
    (∀ code ra, as_status err = Some (code, ra) → Retryable code = true).
Proof.
  unfold IsRetryable.
  destruct (chainHasContextSentinel err); [naive_solver|].
  destruct (errors_Is err ErrNotFound), (errors_Is err ErrUploadNotFound),
    (errors_Is err ErrInvalidRange), (errors_Is err ErrInvalidConfig); simpl;
    try naive_solver.
  destruct (as_status err) as [[code ra]|]; naive_solver.
Qed.

Lemma Retryable_spec c : Retryable c = true ↔ (c = 408 ∨ c = 429 ∨ 500 ≤ c)%Z.
Proof.
  unfold Retryable, StatusRequestTimeout, StatusTooManyRequests.
  rewrite !orb_true_iff, !Z.eqb_eq, Z.geb_le. naive_solver.
Qed.

Create Rewrite HintDb errors.
#[export] Hint Rewrite errors_Is_wrap1 Retryable_spec : errors.
