(* ===== verification/Retry.v ===== *)
(** The retry layer of the storage clients: [RetryPolicy] and its [Do] loop
    ([storage_clients/retry.go]).

    The request, the caller's context, the clock and the random source live
    in a world [W] that the loop threads through. *)

From S2P Require Import Prelude Errors.
#[local] Open Scope Z_scope.

(** Durations are [time.Duration]s: nanoseconds in an [int64]. *)
Definition Second : Z := 1000000000.
Definition Millisecond : Z := 1000000.
Definition Minute : Z := 60 * Second.

Definition MetadataAttemptTimeout : Z := 2 * Minute.
Definition CompleteAttemptTimeout : Z := 10 * Minute.
Definition uploadBaseTimeout : Z := 60 * Second.
Definition uploadMinThroughput : Z := 256 * 1024.

(** [UploadAttemptTimeout], with the [int64] multiplication wrapping and the
    division truncating as in Go. *)
Definition UploadAttemptTimeout (n : Z) : Z :=
  i64 (uploadBaseTimeout + Z.quot (i64 (n * Second)) uploadMinThroughput).

Record RetryPolicy := {
  MaxAttempts : Z;
  MaxStatusAttempts : Z;
  BaseDelay : Z;
  MaxDelay : Z;
  MaxRetryAfter : Z;
}.

Definition DefaultRetryPolicy : RetryPolicy := {|
  MaxAttempts := 4;
  MaxStatusAttempts := 8;
  BaseDelay := 500 * Millisecond;
  MaxDelay := 20 * Second;
  MaxRetryAfter := 60 * Second;
|}.

(** The delay of [backoff] before jitter: the doubled base, unless the
    shifted value is out of range or above the cap. *)
Definition backoff_delay (p : RetryPolicy) (retry : Z) : Z :=
  let shift := retry - 1 in
  let v := i64 (BaseDelay p * 2 ^ shift) in
  if (shift <? 32) && ((0 <? v) && ((MaxDelay p <=? 0) || (v <? MaxDelay p)))
  then v else MaxDelay p.

(** [RetryPolicy.backoff]; [rand n] is the draw of [rand.N(n)]. *)
Definition backoff (p : RetryPolicy) (rand : Z → Z) (retry : Z) : Z :=
  if BaseDelay p <=? 0 then 0
  else
    let d := backoff_delay p retry in
    if d <=? 0 then 0 else d / 2 + rand (d / 2 + 1).

(** [RetryPolicy.attemptLimit]. *)
Definition attemptLimit (p : RetryPolicy) (err : error) : Z :=
  let limit :=
    if 0 <? MaxStatusAttempts p then
      match as_status err with
      | Some (code, _) => if Retryable code then MaxStatusAttempts p else MaxAttempts p
      | None => MaxAttempts p
      end
    else MaxAttempts p in
  Z.max limit 1.

(** The server's hint as [wait] uses it: capped, 0 when absent or ignored. *)
Definition retry_hint (p : RetryPolicy) (err : error) : Z :=
  if 0 <? MaxRetryAfter p then
    match as_status err with
    | Some (_, ra) => if 0 <? ra then Z.min ra (MaxRetryAfter p) else 0
    | None => 0
    end
  else 0.

(** [RetryPolicy.wait]. *)
Definition wait (p : RetryPolicy) (rand : Z → Z) (retry : Z) (err : error) : Z :=
  let d := backoff p rand retry in
  if 0 <? MaxRetryAfter p then
    match as_status err with
    | Some (_, ra) => if 0 <? ra then Z.max d (Z.min ra (MaxRetryAfter p)) else d
    | None => d
    end
  else d.

(** What the loop asks of its surroundings.
    - [call]: the request [fn]; [None] is a nil error.
    - [ctx_err]: [ctx.Err()] of the caller's context.
    - [expired t w w']: the context of an attempt with timeout [t] that
      started in [w] is past its own deadline in [w'].
    - [draw]: [rand.N]; [sleep d]: the [select] on the timer and
      [ctx.Done()], with the context error when the context won. *)
Class RetryEnv (W : Type) := {
  call : W → W * option error;
  ctx_err : W → option sentinel;
  expired : Z → W → W → bool;
  draw : W → Z → Z;
  sleep : Z → W → W * option sentinel;
}.

Section Do.
  Context {W : Type} `{!RetryEnv W} (p : RetryPolicy).

  (** [runAttempt]. *)
Definition runAttempt (attemptTimeout : Z) (w : W) : W * option error :=
    if attemptTimeout <=? 0 then call w
    else
      match call w with
      | (w', Some err) =>
          if bool_decide (ctx_err w' = None) && expired attemptTimeout w w'
          then (w', Some (Errorf "attempt timed out" [ESentinel ErrAttemptTimeout; err]))
          else (w', Some err)
      | (w', None) => (w', None)
      end.

  (** [isPermanent(err) || (!errors.Is(err, ErrAttemptTimeout) && !IsRetryable(err))]. *)
Definition final_error (err : error) : bool :=
    isPermanent err || (negb (errors_Is err ErrAttemptTimeout) && negb (IsRetryable err)).

  (** The body of the [for] loop of [Do] from the given attempt on. *)
Fixpoint do_loop (fuel : nat) (op : string) (attemptTimeout attempt : Z) (w : W)
      : W * res unit :=
    match fuel with
    | O => (w, OutOfFuel)
    | S fuel =>
        match runAttempt attemptTimeout w with
        | (w, None) => (w, Ok tt)
        | (w, Some err) =>
            match ctx_err w with
            | Some c =>
                (w, Err (if errors_Is err c then Errorf op [err]
                         else Errorf op [ESentinel c; err]))
            | None =>
                if final_error err then (w, Err (Errorf op [err]))
                else if attemptLimit p err <=? attempt then (w, Err (Errorf op [err]))
                else
                  match sleep (wait p (draw w) attempt err) w with
                  | (w, Some c) => (w, Err (Errorf op [ESentinel c; err]))
                  | (w, None) => do_loop fuel op attemptTimeout (attempt + 1) w
                  end
            end
        end
    end.

  (** No error class allows more attempts than this. *)
Definition max_attempts : nat :=
    Z.to_nat (Z.max 1 (Z.max (MaxAttempts p) (MaxStatusAttempts p))).

  (** [RetryPolicy.Do]. *)
Definition Do (op : string) (attemptTimeout : Z) (w : W) : W * res unit :=
    do_loop max_attempts op attemptTimeout 1 w.
End Do.

(** ** Delays *)

(** The jittered backoff stays between half the delay and the delay. *)
Lemma backoff_range p rand retry :
  (∀ n, 0 < n → 0 ≤ rand n < n) →
  let d := backoff_delay p retry in
  0 < BaseDelay p → 0 < d → d / 2 ≤ backoff p rand retry ≤ d.
Proof.
  intros Hr d Hb Hd. unfold backoff. fold d.
  destruct (Z.leb_spec (BaseDelay p) 0); [lia|].
  destruct (Z.leb_spec d 0); [lia|].
  assert (0 ≤ d / 2) by (apply Z.div_pos; lia).
  specialize (Hr (d / 2 + 1)).
  pose proof (Z.mul_div_le d 2). lia.
Qed.

Lemma backoff_delay_cap p retry :
  0 < MaxDelay p → 0 < backoff_delay p retry ≤ MaxDelay p.
Proof.
  intros. unfold backoff_delay.
  set (v := i64 _). destruct (Z.ltb_spec (retry - 1) 32); simpl; [|lia].
  destruct (Z.ltb_spec 0 v); simpl; [|lia].
  destruct (Z.leb_spec (MaxDelay p) 0); simpl; [lia|].
  destruct (Z.ltb_spec v (MaxDelay p)); lia.
Qed.

(** The longest sleep [wait] can ask for before attempt [retry + 1]. *)
Definition wait_cap (p : RetryPolicy) (hint retry : Z) : Z :=
  Z.max (Z.max 0 (if BaseDelay p <=? 0 then 0 else backoff_delay p retry)) hint.

Lemma wait_bound p rand retry err hint :
  (∀ n, 0 < n → 0 ≤ rand n < n) → retry_hint p err ≤ hint →
  0 ≤ wait p rand retry err ≤ wait_cap p hint retry.
Proof.
  intros Hr Hh.
  assert (0 ≤ backoff p rand retry ≤
          Z.max 0 (if BaseDelay p <=? 0 then 0 else backoff_delay p retry)).
  { unfold backoff. destruct (Z.leb_spec (BaseDelay p) 0); [lia|].
    destruct (Z.leb_spec (backoff_delay p retry) 0); [lia|].
    pose proof (backoff_range p rand retry Hr) as Hb. unfold backoff in Hb.
    destruct (Z.leb_spec (BaseDelay p) 0); [lia|].
    destruct (Z.leb_spec (backoff_delay p retry) 0); [lia|].
    assert (0 ≤ backoff_delay p retry / 2) by (apply Z.div_pos; lia). lia. }
  unfold wait, wait_cap, retry_hint in *.
  destruct (0 <? MaxRetryAfter p) eqn:E; [|lia].
  apply Z.ltb_lt in E.
  destruct (as_status err) as [[c ra]|]; [|lia].
  destruct (Z.ltb_spec 0 ra); lia.
Qed.

(** ** The loop *)

Section Do_lemmas.
  Context {W : Type} `{!RetryEnv W} (p : RetryPolicy).

Lemma attemptLimit_max err : attemptLimit p err ≤ Z.of_nat (max_attempts p).
  Proof.
    unfold attemptLimit, max_attempts. rewrite Z2Nat.id by lia.
    destruct (0 <? MaxStatusAttempts p); [|lia].
    destruct (as_status err) as [[c ra]|]; [|lia]. destruct (Retryable c); lia.
  Qed.

  (** A run of the loop as the sequence of its attempts: [do_run a w w' r]
      when attempt number [a] starts in [w] and the loop ends in [w'] with
      [r].  Each constructor is one way through the loop body. *)
Inductive do_run (op : string) (t : Z) : Z → W → W → res unit → Prop :=
  | run_success a w w' :
      runAttempt t w = (w', None) → do_run op t a w w' (Ok tt)
  | run_cancelled a w w' err c e :
      runAttempt t w = (w', Some err) → ctx_err w' = Some c →
      e = (if errors_Is err c then Errorf op [err] else Errorf op [ESentinel c; err]) →
      do_run op t a w w' (Err e)
  | run_final a w w' err :
      runAttempt t w = (w', Some err) → ctx_err w' = None → final_error err = true →
      do_run op t a w w' (Err (Errorf op [err]))
  | run_exhausted a w w' err :
      runAttempt t w = (w', Some err) → ctx_err w' = None → final_error err = false →
      attemptLimit p err ≤ a →
      do_run op t a w w' (Err (Errorf op [err]))
  | run_interrupted a w w1 w2 err c :
      runAttempt t w = (w1, Some err) → ctx_err w1 = None → final_error err = false →
      a < attemptLimit p err →
      sleep (wait p (draw w1) a err) w1 = (w2, Some c) →
      do_run op t a w w2 (Err (Errorf op [ESentinel c; err]))
  | run_again a w w1 w2 w' err r :
      runAttempt t w = (w1, Some err) → ctx_err w1 = None → final_error err = false →
      a < attemptLimit p err →
      sleep (wait p (draw w1) a err) w1 = (w2, None) →
      do_run op t (a + 1) w2 w' r →
      do_run op t a w w' r.

  (** Enough fuel for the attempts left gives a run. *)
Lemma do_loop_run op t fuel a w :
    Z.of_nat (max_attempts p) < a + Z.of_nat fuel → (0 < fuel)%nat →
    ∃ w' r, do_loop p fuel op t a w = (w', r) ∧ do_run op t a w w' r.
  Proof.
    revert a w. induction fuel as [|fuel IH]; intros a w Hf Hpos; [lia|].
    simpl. destruct (runAttempt t w) as [w1 [err|]] eqn:Ha; [|eauto using run_success].
    destruct (ctx_err w1) as [c|] eqn:Hc; [eauto using run_cancelled|].
    destruct (final_error err) eqn:Hfin; [eauto using run_final|].
    destruct (Z.leb_spec (attemptLimit p err) a); [eauto using run_exhausted|].
    destruct (sleep _ w1) as [w2 [c|]] eqn:Hs; [eauto using run_interrupted|].
    pose proof (attemptLimit_max err).
    destruct (IH (a + 1) w2) as (w' & r & -> & ?); [lia|lia|].
    eauto using run_again.
  Qed.

Lemma Do_run op t w :
    ∃ w' r, Do p op t w = (w', r) ∧ do_run op t 1 w w' r.
  Proof. apply do_loop_run; unfold max_attempts; lia. Qed.
End Do_lemmas.

(** ** A metered environment

    The laws the theorems below rely on: what the context's [select] and
    the random source promise, and counters of the requests made and of the
    time slept. *)
Class RetryMeter (W : Type) `{!RetryEnv W} := {
  calls : W → Z;
  slept : W → Z;
  call_counted : ∀ w, calls (call w).1 = calls w + 1;
  call_no_sleep : ∀ w, slept (call w).1 = slept w;
  sleep_no_call : ∀ d w, calls (sleep d w).1 = calls w;
  sleep_at_most : ∀ d w, 0 ≤ d → slept (sleep d w).1 ≤ slept w + d;
  sleep_cancelled : ∀ d w w' c, sleep d w = (w', Some c) → ctx_err w' = Some c;
  draw_range : ∀ w n, 0 < n → 0 ≤ draw w n < n;
}.

Section Metered.
  Context {W : Type} `{!RetryEnv W, !RetryMeter W} (p : RetryPolicy).

Lemma runAttempt_calls t w : calls (runAttempt t w).1 = calls w + 1.
  Proof.
    unfold runAttempt. rewrite <- call_counted. destruct (t <=? 0); [done|].
    destruct (call w) as [w' [err|]]; [|done]. by case_match.
  Qed.

Lemma runAttempt_slept t w : slept (runAttempt t w).1 = slept w.
  Proof.
    unfold runAttempt. rewrite <- (call_no_sleep w). destruct (t <=? 0); [done|].
    destruct (call w) as [w' [err|]]; [|done]. by case_match.
  Qed.

Lemma runAttempt_calls_eq t w w' o :
    runAttempt t w = (w', o) → calls w' = calls w + 1 ∧ slept w' = slept w.
  Proof.
    intros E. pose proof (runAttempt_calls t w) as H1.
    pose proof (runAttempt_slept t w) as H2. by rewrite E in H1, H2.
  Qed.

Lemma sleep_eq d w w' o :
    sleep d w = (w', o) → calls w' = calls w ∧ (0 ≤ d → slept w' ≤ slept w + d).
  Proof.
    intros E. pose proof (sleep_no_call d w) as H1.
    pose proof (sleep_at_most d w) as H2. by rewrite E in H1, H2.
  Qed.

  (** A hint seen by [wait] is one a request returned. *)
Lemma runAttempt_hint t w w' err hint :
    (∀ w w' e, call w = (w', Some e) → retry_hint p e ≤ hint) →
    runAttempt t w = (w', Some err) → retry_hint p err ≤ hint.
  Proof.
    intros Hh. unfold runAttempt. destruct (t <=? 0); [apply Hh|].
    destruct (call w) as [w1 [e|]] eqn:Hc; [|done]. specialize (Hh _ _ _ Hc).
    case_match; intros [= <- <-]; [|done].
    unfold retry_hint in *. simpl. by destruct (as_status e) as [[??]|].
  Qed.

  (** Requests made by a run that starts at attempt [a]. *)
Lemma run_calls op t a w w' r :
    do_run p op t a w w' r → a ≤ Z.of_nat (max_attempts p) →
    1 ≤ calls w' - calls w ≤ Z.of_nat (max_attempts p) - a + 1.
  Proof.
    induction 1 as [a w w' Ha|a w w' err c e Ha|a w w' err Ha|a w w' err Ha
      |a w w1 w2 err c Ha Hc Hf Hl Hs|a w w1 w2 w' err r Ha Hc Hf Hl Hs Hrun IH];
      intros Hle; apply runAttempt_calls_eq in Ha as [Ha _]; try lia.
    - apply sleep_eq in Hs as [Hs _]. lia.
    - apply sleep_eq in Hs as [Hs _]. pose proof (attemptLimit_max p err). lia.
  Qed.

  (** When the loop fails although the context is still live, the last
      error was final or its class had used up its attempts. *)
Lemma run_failed op t a w w' r e :
    do_run p op t a w w' r → r = Err e → ctx_err w' = None →
    ∃ err, e = Errorf op [err] ∧
      (final_error err = true ∨ attemptLimit p err ≤ a + (calls w' - calls w) - 1).
  Proof.
    induction 1 as [a w w' Ha|a w w' err c e' Ha Hc|a w w' err Ha Hc Hf|a w w' err Ha Hc Hf Hl
      |a w w1 w2 err c Ha Hc Hf Hl Hs|a w w1 w2 w' err r Ha Hc Hf Hl Hs Hrun IH];
      intros Hr Hlive; simplify_eq.
    - exists err. eauto.
    - exists err. apply runAttempt_calls_eq in Ha as [Ha _]. split; [done|]. right. lia.
    - apply sleep_cancelled in Hs. congruence.
    - destruct (IH eq_refl Hlive) as (err' & -> & H'). exists err'. split; [done|].
      apply runAttempt_calls_eq in Ha as [Ha _]. apply sleep_eq in Hs as [Hs _].
      destruct H'; [by left|right; lia].
  Qed.

  (** Sum of the longest sleeps before attempts [a + 1 .. a + n]. *)
Fixpoint sleep_budget (hint a : Z) (n : nat) : Z :=
    match n with
    | O => 0
    | S n => wait_cap p hint a + sleep_budget hint (a + 1) n
    end.

Lemma sleep_budget_nonneg hint a n : 0 ≤ sleep_budget hint a n.
  Proof. revert a. induction n as [|n IH]; intros; simpl; [lia|]. unfold wait_cap. specialize (IH (a+1)). lia. Qed.

Lemma run_slept op t hint a w w' r n :
    (∀ w w' e, call w = (w', Some e) → retry_hint p e ≤ hint) →
    do_run p op t a w w' r → Z.of_nat (max_attempts p) = a + Z.of_nat n →
    slept w' - slept w ≤ sleep_budget hint a n.
  Proof.
    intros Hh Hrun. revert n.
    induction Hrun as [a w w' Ha|a w w' err c e Ha|a w w' err Ha|a w w' err Ha
      |a w w1 w2 err c Ha Hc Hf Hl Hs|a w w1 w2 w' err r Ha Hc Hf Hl Hs Hrun IH];
      intros n Hn; pose proof (runAttempt_calls_eq _ _ _ _ Ha) as [_ Hsl];
      try (pose proof (sleep_budget_nonneg hint a n); lia).
    all: pose proof (attemptLimit_max p err) as Hmax; destruct n as [|n]; [lia|].
    all: pose proof (wait_bound p (draw w1) a err hint (draw_range w1)
                       (runAttempt_hint _ _ _ _ _ Hh Ha)) as Hw.
    all: apply sleep_eq in Hs as [_ Hs]; specialize (Hs ltac:(lia)); cbn [sleep_budget].
    - pose proof (sleep_budget_nonneg hint (a + 1) n). lia.
    - specialize (IH n ltac:(lia)). lia.
  Qed.
End Metered.

(** ** A scripted environment

    Answers are consumed one per request; the caller cancels at a fixed
    time; sleeping advances the clock. *)
Record script := {
  answers : list (option error);
  clock : Z;
  cancel_at : option Z;
  made : Z;
  jitter : Z;
}.

Definition script_ctx (w : script) : option sentinel :=
  match cancel_at w with
  | Some t => if t <=? clock w then Some CtxCanceled else None
  | None => None
  end.

#[export] Instance script_env : RetryEnv script := {|
  call w := ({| answers := tail (answers w); clock := clock w; cancel_at := cancel_at w;
                made := made w + 1; jitter := jitter w |},
             default None (head (answers w)));
  ctx_err := script_ctx;
  expired t w w' := false;
  draw w n := jitter w mod n;
  sleep d w :=
    let at_time t := {| answers := answers w; clock := t; cancel_at := cancel_at w;
                        made := made w; jitter := jitter w |} in
    let stop := match cancel_at w with
                | Some t => Z.min (Z.max t (clock w)) (clock w + Z.max 0 d)
                | None => clock w + Z.max 0 d
                end in
    (at_time stop, script_ctx (at_time stop));
|}.

#[export] Program Instance script_meter : RetryMeter script := {|
  calls := made;
  slept := clock;
|}.
Next Obligation. done. Qed.
Next Obligation. done. Qed.
Next Obligation. done. Qed.
Next Obligation. intros d w Hd. simpl. destruct (cancel_at w); lia. Qed.
Next Obligation. simpl. intros d w w' c [= <- Hc]. by rewrite Hc. Qed.
Next Obligation. simpl. intros w n Hn. by apply Z.mod_pos_bound. Qed.

(** ** Properties *)

(** C36. [RetryPolicy.Do] always returns, after at least one and at most
    [max 1 (max MaxAttempts MaxStatusAttempts)] requests, whatever the
    request, the context and the clock do. *)
Theorem Do_bounded {W} `{!RetryEnv W, !RetryMeter W} (p : RetryPolicy) op t (w : W) :
  let '(w', r) := Do p op t w in
  r ≠ OutOfFuel ∧ r ≠ Panic ∧ 1 ≤ calls w' - calls w ≤ Z.of_nat (max_attempts p).
Proof.
  destruct (Do_run p op t w) as (w' & r & -> & Hrun).
  apply run_calls in Hrun as Hc; [|unfold max_attempts; lia].
  split_and!; try lia; clear Hc; intros ->; remember (1) as a eqn:Ea; clear Ea;
    remember (_ : res unit) as r eqn:Er in Hrun; induction Hrun; naive_solver.
Qed.

(** When [Do] fails while the caller's context is still live, its error
    wraps the error of the last attempt, and that error is permanent or not
    retryable, or the attempt limit of its class was used up: the loop never
    gives up early. *)
Theorem Do_gives_up {W} `{!RetryEnv W, !RetryMeter W} (p : RetryPolicy) op t (w w' : W) e :
  Do p op t w = (w', Err e) → ctx_err w' = None →
  ∃ err, e = Errorf op [err] ∧
    (isPermanent err = true ∨
     errors_Is err ErrAttemptTimeout = false ∧ IsRetryable err = false ∨
     attemptLimit p err ≤ calls w' - calls w).
Proof.
  intros HD Hlive. destruct (Do_run p op t w) as (w1 & r & E & Hrun).
  rewrite HD in E. simplify_eq.
  destruct (run_failed p op t 1 w w1 _ e Hrun eq_refl Hlive) as (err & -> & H).
  exists err. split; [done|]. destruct H as [H|H]; [|right; right; lia].
  unfold final_error in H. rewrite orb_true_iff, andb_true_iff, !negb_true_iff in H. tauto.
Qed.

(** Under [DefaultRetryPolicy] one [Do] sleeps at most 51.5 seconds in
    total when no response carries a Retry-After hint, and at most seven
    minutes whatever hints the server sends. *)
Theorem Do_default_sleep {W} `{!RetryEnv W, !RetryMeter W} op t (w : W) :
  let '(w', r) := Do DefaultRetryPolicy op t w in
  slept w' - slept w ≤ 7 * 60 * Second ∧
  ((∀ w w' e, call w = (w', Some e) → retry_hint DefaultRetryPolicy e = 0) →
   slept w' - slept w ≤ 51500 * Millisecond).
Proof.
  destruct (Do_run DefaultRetryPolicy op t w) as (w' & r & -> & Hrun). split.
  - change (7 * 60 * Second) with (sleep_budget DefaultRetryPolicy (60 * Second) 1 7).
    eapply run_slept; [|exact Hrun|done].
    intros w1 w2 e _. unfold retry_hint. simpl.
    destruct (as_status e) as [[c ra]|]; [|done].
    destruct (0 <? ra); [apply Z.le_min_r|done].
  - intros Hno. change (51500 * Millisecond) with (sleep_budget DefaultRetryPolicy 0 1 7).
    eapply run_slept; [|exact Hrun|done].
    intros w1 w2 e Hc. by rewrite (Hno _ _ _ Hc).
Qed.

Lemma Do_gives_up_witness :
  let e := EStatus "get" 404 None 0 in
  let w := {| answers := [Some (EStatus "get" 503 None 0); Some e]; clock := 0;
              cancel_at := None; made := 0; jitter := 7 |} in
  let w' := (Do DefaultRetryPolicy "op" 0 w).1 in
  made w' = 2 ∧
  ∃ err, Errorf "op" [e] = Errorf "op" [err] ∧
    (isPermanent err = true ∨
     errors_Is err ErrAttemptTimeout = false ∧ IsRetryable err = false ∨
     attemptLimit DefaultRetryPolicy err ≤ calls w' - calls w).
Proof.
  intros e w w'. split; [vm_compute; reflexivity|].
  apply (Do_gives_up DefaultRetryPolicy "op" 0 w w' (Errorf "op" [e])); vm_compute; reflexivity.
Defined.

Lemma Do_default_sleep_witness :
  let w := {| answers := repeat (Some (EStatus "put" 503 None 0)) 7; clock := 0;
              cancel_at := None; made := 0; jitter := 10 ^ 12 |} in
  let w' := (Do DefaultRetryPolicy "op" 0 w).1 in
  made w' = 8 ∧ 0 < slept w' - slept w ≤ 7 * 60 * Second.
Proof.
  intros w w'. split; [vm_compute; reflexivity|]. split; [vm_compute; reflexivity|].
  pose proof (Do_default_sleep "op" 0 w) as H. unfold w'.
  destruct (Do DefaultRetryPolicy "op" 0 w) as [w1 r]. exact (proj1 H).
Defined.

(** For a capped policy the delay before retry [n] is the base delay
    doubled [n - 1] times and capped at [MaxDelay], and the jittered
    [backoff] lies between half of it and all of it, as long as the doubled
    delay fits an [int64]. *)
Theorem backoff_doubles (p : RetryPolicy) (rand : Z → Z) (retry : Z) :
  0 < BaseDelay p → 0 < MaxDelay p → 1 ≤ retry →
  (retry ≤ 32 → BaseDelay p * 2 ^ (retry - 1) ≤ max_int64) →
  (32 < retry → MaxDelay p ≤ BaseDelay p * 2 ^ 31) →
  (∀ n, 0 < n → 0 ≤ rand n < n) →
  let d := Z.min (BaseDelay p * 2 ^ (retry - 1)) (MaxDelay p) in
  d / 2 ≤ backoff p rand retry ≤ d.
Proof.
  intros Hb Hm H1 Hfit Hbig Hr d.
  assert (backoff_delay p retry = d) as Hd.
  { unfold backoff_delay, d. destruct (Z.ltb_spec (retry - 1) 32); cbn [andb].
    - rewrite i64_id.
      2:{ split; [|apply Hfit; lia]. unfold min_int64.
          pose proof (Z.pow_nonneg 2 (retry - 1)). nia. }
      assert (0 < 2 ^ (retry - 1)) by (apply Z.pow_pos_nonneg; lia).
      destruct (Z.ltb_spec 0 (BaseDelay p * 2 ^ (retry - 1))); [|nia].
      destruct (Z.leb_spec (MaxDelay p) 0); [lia|]. cbn [andb orb].
      destruct (Z.ltb_spec (BaseDelay p * 2 ^ (retry - 1)) (MaxDelay p)); lia.
    - assert (2 ^ 31 ≤ 2 ^ (retry - 1)) by (apply Z.pow_le_mono_r; lia).
      specialize (Hbig ltac:(lia)). nia. }
  rewrite <- Hd. apply backoff_range; [done..|].
  assert (0 < 2 ^ (retry - 1)) by (apply Z.pow_pos_nonneg; lia). unfold d in Hd. nia.
Qed.

Lemma backoff_doubles_witness :
  4 * Second / 2 ≤ backoff DefaultRetryPolicy (λ n, n / 3) 4 ≤ 4 * Second.
Proof.
  apply (backoff_doubles DefaultRetryPolicy (λ n, n / 3) 4); try (vm_compute; congruence).
  intros n Hn. split; [apply Z.div_pos; lia|apply Z.div_lt; lia].
Defined.

(** With [MaxDelay = 0], which the policy documents as "uncapped", the
    delay does not keep doubling: from retry 33 on [backoff] returns 0, so
    the loop retries without waiting. *)
Theorem backoff_uncapped_drops (p : RetryPolicy) (rand : Z → Z) (retry : Z) :
  MaxDelay p = 0 → 33 ≤ retry → backoff p rand retry = 0.
Proof.
  intros Hm Hr. unfold backoff, backoff_delay.
  destruct (Z.ltb_spec (retry - 1) 32); [lia|]. cbn [andb]. rewrite Hm.
  by destruct (BaseDelay p <=? 0).
Qed.

Lemma backoff_uncapped_drops_witness :
  let p := {| MaxAttempts := 40; MaxStatusAttempts := 0; BaseDelay := Millisecond;
              MaxDelay := 0; MaxRetryAfter := 0 |} in
  (∀ rand, backoff p rand 33 = 0) ∧ 2 ^ 30 * Millisecond ≤ backoff p (λ _, 0) 32.
Proof.
  intros p. split; [|vm_compute; congruence].
  intros rand. apply (backoff_uncapped_drops p rand 33); [reflexivity|lia].
Defined.

(** The per-attempt upload deadline: for every payload up to the 5 GiB
    part limit the [int64] arithmetic does not overflow, the deadline is 60 s
    plus the payload's time at 256 KiB/s, and it grows with the payload. *)
Theorem UploadAttemptTimeout_spec (n m : Z) :
  0 ≤ n ≤ m → m ≤ 5 * 2 ^ 30 →
  UploadAttemptTimeout n = 60 * Second + n * Second / (256 * 1024) ∧
  UploadAttemptTimeout n ≤ UploadAttemptTimeout m.
Proof.
  intros Hn Hm.
  assert (H : ∀ k, 0 ≤ k ≤ 5 * 2 ^ 30 →
    UploadAttemptTimeout k = 60 * Second + k * Second / (256 * 1024)).
  { intros k Hk. unfold UploadAttemptTimeout, uploadBaseTimeout, uploadMinThroughput, Second.
    rewrite (i64_id (k * _)) by (unfold is_i64, min_int64, max_int64; lia).
    rewrite Z.quot_div_nonneg by lia. apply i64_id.
    set (q := k * 1000000000 / (256 * 1024)).
    assert (0 ≤ q ≤ 20480000000000) as Hq.
    { split; [apply Z.div_pos; lia|].
      change 20480000000000 with (5 * 2 ^ 30 * 1000000000 / (256 * 1024)).
      apply Z.div_le_mono; lia. }
    clearbody q. unfold is_i64, min_int64, max_int64. lia. }
  rewrite !H by lia. split; [done|].
  apply Z.add_le_mono_l, Z.div_le_mono; [lia|]. unfold Second. lia.
Qed.

Lemma UploadAttemptTimeout_spec_witness :
  UploadAttemptTimeout (8 * 2 ^ 20) = 92 * Second ∧
  UploadAttemptTimeout (8 * 2 ^ 20) ≤ UploadAttemptTimeout (5 * 2 ^ 30).
Proof.
  destruct (UploadAttemptTimeout_spec (8 * 2 ^ 20) (5 * 2 ^ 30)) as [H1 H2]; [lia|lia|].
  split; [rewrite H1; reflexivity|exact H2].
Defined.
