(* ===== verification/GoStrings.v ===== *)
(** The functions of Go's [strings], [path], [fmt], [strconv] and [regexp]
    packages that the program uses on names and keys, over byte strings. *)

From S2P Require Import Prelude.

(** ** strings *)

Fixpoint is_prefix (p l : list ascii) : bool :=
  match p, l with
  | [], _ => true
  | a :: p, b :: l => bool_decide (a = b) && is_prefix p l
  | _ :: _, [] => false
  end.

Definition HasPrefix (s p : string) : bool := is_prefix (chars p) (chars s).
Definition HasSuffix (s p : string) : bool :=
  is_prefix (reverse (chars p)) (reverse (chars s)).
Definition TrimPrefix (s p : string) : string :=
  if HasPrefix s p then of_chars (drop (String.length p) (chars s)) else s.
Definition TrimSuffix (s p : string) : string :=
  if HasSuffix s p then of_chars (take (String.length s - String.length p) (chars s)) else s.

(** [strings.Split(s, sep)] for a one-byte separator: always at least one
    element. *)
Fixpoint split_chars (sep : ascii) (l : list ascii) : list (list ascii) :=
  match l with
  | [] => [[]]
  | c :: l =>
      if bool_decide (c = sep) then [] :: split_chars sep l
      else match split_chars sep l with
           | w :: ws => (c :: w) :: ws
           | [] => [[c]]
           end
  end.
Definition Split (s : string) (sep : ascii) : list string :=
  of_chars <$> split_chars sep (chars s).

(** [strings.Join(parts, "/")]. *)
Fixpoint join_slash (parts : list string) : string :=
  match parts with
  | [] => ""
  | [p] => p
  | p :: ps => p +:+ "/" +:+ join_slash ps
  end.

Definition slash : ascii := "/"%char.
Definition has_char (c : ascii) (s : string) : bool :=
  existsb (λ a, bool_decide (a = c)) (chars s).

(** ** path *)

Fixpoint drop_slashes (l : list ascii) : list ascii :=
  match l with
  | c :: l' => if bool_decide (c = slash) then drop_slashes l' else l
  | [] => []
  end.

(** [path.Base]: the part after the last slash, trailing slashes removed
    first; "." for the empty path and "/" for a path of slashes only. *)
Definition path_Base (p : string) : string :=
  if bool_decide (p = "") then "."
  else match drop_slashes (reverse (chars p)) with
       | [] => "/"
       | r => of_chars (default [] (last (split_chars slash (reverse r))))
       end.

(** ** fmt and strconv *)

Definition hex_digit (n : Z) : ascii := ascii_of_N (Z.to_N (if (n <? 10)%Z then 48 + n else 87 + n)).

(** The low [n] hexadecimal digits of [z], most significant first. *)
Fixpoint hex_digits (n : nat) (z : Z) : list ascii :=
  match n with
  | O => []
  | S n => hex_digits n (Z.shiftr z 4) ++ [hex_digit (Z.land z 15)]
  end.

(** ["%08x"] of a [uint32] (eight digits always suffice). *)
Definition fmt_08x (z : Z) : string := of_chars (hex_digits 8 z).
(** ["%d"], [strconv.FormatInt(z, 10)] and [strconv.FormatUint(z, 10)]. *)
Definition fmt_d (z : Z) : string := pretty z.
Definition FormatUint (z : Z) : string := fmt_d z.

(** [hex.EncodeToString]. *)
Definition hex_EncodeToString (l : list Z) : string :=
  of_chars (l ≫= λ b, hex_digits 2 b).

Definition is_digit (c : ascii) : bool := ((48 <=? byte_of c) && (byte_of c <=? 57))%Z.
Definition is_lower_hex (c : ascii) : bool :=
  is_digit c || ((97 <=? byte_of c) && (byte_of c <=? 102))%Z.

(** ** regexp

    The regular expressions of the program are sequences of byte classes
    with counted and [+] repetition, anchored at both ends. *)
Inductive regex :=
| REmpty
| REps
| RClass (p : ascii → bool)
| RCat (r s : regex)
| RAlt (r s : regex)
| RStar (r : regex).

Fixpoint nullable (r : regex) : bool :=
  match r with
  | REmpty | RClass _ => false
  | REps | RStar _ => true
  | RCat r s => nullable r && nullable s
  | RAlt r s => nullable r || nullable s
  end.

Fixpoint deriv (c : ascii) (r : regex) : regex :=
  match r with
  | REmpty | REps => REmpty
  | RClass p => if p c then REps else REmpty
  | RCat r s =>
      if nullable r then RAlt (RCat (deriv c r) s) (deriv c s) else RCat (deriv c r) s
  | RAlt r s => RAlt (deriv c r) (deriv c s)
  | RStar r => RCat (deriv c r) (RStar r)
  end.

(** [MatchString] of [^r$]. *)
Definition MatchString (r : regex) (s : string) : bool :=
  nullable (fold_left (λ r c, deriv c r) (chars s) r).

Fixpoint RRepeat (n : nat) (r : regex) : regex :=
  match n with O => REps | S n => RCat r (RRepeat n r) end.
Definition RPlus (r : regex) : regex := RCat r (RStar r).
Definition RChar (a : ascii) : regex := RClass (λ c, bool_decide (c = a)).

(** The words of a regular expression. *)
Inductive lang : regex → list ascii → Prop :=
| lang_eps : lang REps []
| lang_class p c : p c = true → lang (RClass p) [c]
| lang_cat r s l k : lang r l → lang s k → lang (RCat r s) (l ++ k)
| lang_alt_l r s l : lang r l → lang (RAlt r s) l
| lang_alt_r r s l : lang s l → lang (RAlt r s) l
| lang_star_nil r : lang (RStar r) []
| lang_star_app r c l k : lang r (c :: l) → lang (RStar r) k → lang (RStar r) (c :: l ++ k).

(** ** Lemmas on regular expressions *)

Lemma lang_nullable r : lang r [] ↔ nullable r = true.
Proof.
  split.
  - remember [] as l eqn:E. induction 1 as [|p c Hp|r s l k Hr IHr Hs IHs|r s l Hr IHr|r s l Hs IHs| |];
      simpl; try done; simplify_eq.
    + apply app_eq_nil in E as [-> ->]. rewrite IHr, IHs; done.
    + by rewrite IHr.
    + by rewrite IHs, orb_true_r.
  - induction r as [| |p|r IHr s IHs|r IHr s IHs|r IHr]; simpl; try done.
    + constructor.
    + rewrite andb_true_iff. intros [Hr Hs]. apply (lang_cat r s [] []); auto.
    + rewrite orb_true_iff. intros [H|H]; [apply lang_alt_l|apply lang_alt_r]; auto.
    + constructor.
Qed.

Lemma lang_deriv r c l : lang r (c :: l) ↔ lang (deriv c r) l.
Proof.
  split.
  - intros H. remember (c :: l) as w eqn:E. revert l E.
    induction H as [|p a Hp|r s l k Hr IHr Hs IHs|r s l Hr IHr|r s l Hs IHs|
      |r a l k Hr IHr Hs IHs]; simpl; intros l' E; simplify_eq/=.
    + rewrite Hp. constructor.
    + destruct l as [|a l]; simplify_eq/=.
      * rewrite (proj1 (lang_nullable r) Hr). apply lang_alt_r; auto.
      * specialize (IHr _ eq_refl). destruct (nullable r); [apply lang_alt_l|]; by constructor.
    + apply lang_alt_l; auto.
    + apply lang_alt_r; auto.
    + constructor; [auto|done].
  - revert l. induction r as [| |p|r IHr s IHs|r IHr s IHs|r IHr]; simpl; intros l H.
    + inversion H.
    + inversion H.
    + destruct (p c) eqn:Hp; inversion H; subst. by constructor.
    + destruct (nullable r) eqn:Hn.
      * inversion H as [| | |? ? ? H'|? ? ? H'| |]; subst.
        { inversion H'; subst. apply (lang_cat r s (c :: _)); auto. }
        { apply (lang_cat r s [] (c :: l)); [by apply lang_nullable|auto]. }
      * inversion H; subst. apply (lang_cat r s (c :: _)); auto.
    + inversion H; subst; [apply lang_alt_l|apply lang_alt_r]; auto.
    + inversion H; subst. apply lang_star_app; auto.
Qed.

(** The matcher accepts exactly the language. *)
Lemma MatchString_lang r s : MatchString r s = true ↔ lang r (chars s).
Proof.
  unfold MatchString. generalize (chars s) as l. clear s. intros l. revert r.
  induction l as [|c l IH]; intros r; simpl; [by rewrite lang_nullable|].
  by rewrite IH, lang_deriv.
Qed.

Lemma lang_cat_iff r s l :
  lang (RCat r s) l ↔ ∃ l1 l2, l = l1 ++ l2 ∧ lang r l1 ∧ lang s l2.
Proof.
  split; [inversion 1; subst; eauto|]. intros (l1 & l2 & -> & ? & ?). by constructor.
Qed.

Lemma lang_class_iff p l : lang (RClass p) l ↔ ∃ c, l = [c] ∧ p c = true.
Proof. split; [inversion 1; subst; eauto|]. intros (c & -> & ?). by constructor. Qed.

Lemma lang_repeat_class n p l :
  lang (RRepeat n (RClass p)) l ↔ length l = n ∧ forallb p l = true.
Proof.
  revert l. induction n as [|n IH]; intros l; simpl.
  - split; [inversion 1; by subst|]. destruct l; [constructor|]. simpl. by intros [? _].
  - rewrite lang_cat_iff. setoid_rewrite lang_class_iff. setoid_rewrite IH. split.
    + intros (? & l2 & -> & (c & -> & Hp) & <- & Hf). simpl. by rewrite Hp, Hf.
    + destruct l as [|c l]; simpl; [naive_solver|].
      rewrite andb_true_iff. intros [[= Hl] [Hp Hf]]. exists [c], l. naive_solver.
Qed.

Lemma lang_star_class p l : lang (RStar (RClass p)) l ↔ forallb p l = true.
Proof.
  split.
  - remember (RStar (RClass p)) as r eqn:E. induction 1; simplify_eq/=; [done|].
    rename select (lang (RClass p) _) into Hc. apply lang_class_iff in Hc as (a & [= -> ->] & Ha).
    rewrite Ha. simpl. auto.
  - induction l as [|a l IH]; simpl; [intros _; constructor|].
    rewrite andb_true_iff. intros [Ha Hl].
    apply (lang_star_app (RClass p) a [] l); [by constructor|auto].
Qed.

Lemma lang_plus_class p l : lang (RPlus (RClass p)) l ↔ l ≠ [] ∧ forallb p l = true.
Proof.
  unfold RPlus. rewrite lang_cat_iff. setoid_rewrite lang_class_iff.
  setoid_rewrite lang_star_class. split.
  - intros (? & l2 & -> & (c & -> & Hp) & Hf). simpl. by rewrite Hp, Hf.
  - destruct l as [|c l]; simpl; [naive_solver|].
    rewrite andb_true_iff. intros [_ [Hp Hf]]. exists [c], l. naive_solver.
Qed.

Lemma lang_char a l : lang (RChar a) l ↔ l = [a].
Proof.
  unfold RChar. rewrite lang_class_iff. setoid_rewrite bool_decide_eq_true. naive_solver.
Qed.

(** ** Lemmas on prefixes *)

Lemma is_prefix_app p l k : is_prefix (p ++ l) (p ++ k) = is_prefix l k.
Proof. induction p as [|a p IH]; simpl; [done|]. by rewrite bool_decide_true, IH. Qed.

Lemma is_prefix_spec p l : is_prefix p l = true ↔ ∃ k, l = p ++ k.
Proof.
  revert l. induction p as [|a p IH]; intros l; simpl; [split; eauto|].
  destruct l as [|b l]; [split; [done|by intros []]|].
  rewrite andb_true_iff, bool_decide_eq_true, IH. split.
  - intros [-> [k ->]]. eauto.
  - intros [k [= -> ->]]. eauto.
Qed.

Lemma HasPrefix_app p s t : HasPrefix (p +:+ s) (p +:+ t) = HasPrefix s t.
Proof. unfold HasPrefix. by rewrite !chars_app, is_prefix_app. Qed.

Lemma HasPrefix_spec s p : HasPrefix s p = true ↔ ∃ t, s = p +:+ t.
Proof.
  unfold HasPrefix. rewrite is_prefix_spec. split.
  - intros [k E]. exists (of_chars k). apply chars_inj. by rewrite chars_app, chars_of_chars.
  - intros [t ->]. exists (chars t). by rewrite chars_app.
Qed.

Lemma TrimPrefix_app p s : TrimPrefix (p +:+ s) p = s.
Proof.
  unfold TrimPrefix. rewrite (proj2 (HasPrefix_spec _ _)) by eauto.
  rewrite chars_app, <- length_chars, drop_app_length. apply of_chars_chars.
Qed.

Lemma TrimPrefix_none p s : HasPrefix s p = false → TrimPrefix s p = s.
Proof. unfold TrimPrefix. by intros ->. Qed.

(** ** Lemmas on paths *)

Lemma has_char_false c s : has_char c s = false ↔ c ∉ chars s.
Proof.
  unfold has_char. rewrite existsb_false_Forall, Forall_forall.
  setoid_rewrite bool_decide_eq_false. naive_solver.
Qed.

Lemma split_chars_nosep sep l : sep ∉ l → split_chars sep l = [l].
Proof.
  induction l as [|c l IH]; [done|]. rewrite not_elem_of_cons. intros [Hc Hl]. simpl.
  rewrite bool_decide_false by done. by rewrite IH.
Qed.

Lemma split_chars_app sep l k :
  sep ∉ l → split_chars sep (l ++ sep :: k) = l :: split_chars sep k.
Proof.
  induction l as [|c l IH]; simpl.
  - intros _. by rewrite bool_decide_true.
  - rewrite not_elem_of_cons. intros [Hc Hl]. rewrite bool_decide_false by done. by rewrite IH.
Qed.

(** Splitting a joined path gives its parts back. *)
Lemma Split_join parts :
  parts ≠ [] → Forall (λ p, has_char slash p = false) parts →
  Split (join_slash parts) slash = parts.
Proof.
  intros Hne Hall. induction Hall as [|p ps Hp Hps IH]; [done|].
  apply has_char_false in Hp. unfold Split in *. destruct ps as [|q ps].
  - simpl. rewrite split_chars_nosep by done. csimpl. by rewrite of_chars_chars.
  - change (join_slash (p :: q :: ps)) with (p +:+ "/" +:+ join_slash (q :: ps)).
    rewrite !chars_app. change (chars "/" ++ ?l) with (slash :: l).
    rewrite split_chars_app by done. rewrite fmap_cons, of_chars_chars. by rewrite IH.
Qed.

Lemma join_slash_snoc ps p :
  ps ≠ [] → join_slash (ps ++ [p]) = join_slash ps +:+ "/" +:+ p.
Proof.
  induction ps as [|a ps IH]; [done|]. intros _. destruct ps as [|b ps]; [done|].
  change (join_slash ((a :: b :: ps) ++ [p])) with (a +:+ "/" +:+ join_slash ((b :: ps) ++ [p])).
  rewrite IH by done.
  change (join_slash (a :: b :: ps)) with (a +:+ "/" +:+ join_slash (b :: ps)).
  apply chars_inj. rewrite !chars_app. by rewrite <- !app_assoc.
Qed.

Lemma split_chars_nonempty sep l : split_chars sep l ≠ [].
Proof. destruct l as [|c l]; simpl; [done|]. case_bool_decide; [done|]. by destruct (split_chars sep l). Qed.

Lemma Split_nonempty s sep : Split s sep ≠ [].
Proof. unfold Split. intros H%fmap_nil_inv. by apply split_chars_nonempty in H. Qed.

(** Joining the parts of a path gives the path back. *)
Lemma join_Split s : join_slash (Split s slash) = s.
Proof.
  unfold Split. rewrite <- (of_chars_chars s) at 2. generalize (chars s). intros l.
  induction l as [|c l IH]; [done|]. cbn [split_chars].
  pose proof (split_chars_nonempty slash l) as Hne.
  destruct (split_chars slash l) as [|w ws]; [done|]. clear Hne. case_bool_decide as E.
  - subst c. csimpl. csimpl in IH. rewrite IH. done.
  - rewrite fmap_cons in *.
    assert (∀ v vs, join_slash (of_chars (c :: v) :: vs) = String c (join_slash (of_chars v :: vs))) as ->
      by by intros v [|]. by rewrite IH.
Qed.

Lemma Split_inj s t : Split s slash = Split t slash → s = t.
Proof. intros H. by rewrite <- (join_Split s), H, join_Split. Qed.

(** ** Lemmas on digits *)

Lemma hex_digit_lower n : (0 ≤ n < 16)%Z → is_lower_hex (hex_digit n) = true.
Proof.
  intros Hn. assert (n = 0 ∨ n = 1 ∨ n = 2 ∨ n = 3 ∨ n = 4 ∨ n = 5 ∨ n = 6 ∨ n = 7 ∨ n = 8 ∨
    n = 9 ∨ n = 10 ∨ n = 11 ∨ n = 12 ∨ n = 13 ∨ n = 14 ∨ n = 15)%Z as H by lia.
  destruct_or! H; subst; vm_compute; reflexivity.
Qed.

Lemma hex_digit_inj n m :
  (0 ≤ n < 16)%Z → (0 ≤ m < 16)%Z → hex_digit n = hex_digit m → n = m.
Proof.
  unfold hex_digit. intros Hn Hm H%(f_equal N_of_ascii).
  rewrite !N_ascii_embedding in H by (repeat case_match; lia).
  destruct (Z.ltb_spec n 10), (Z.ltb_spec m 10); lia.
Qed.

Lemma land15_range z : (0 ≤ Z.land z 15 < 16)%Z.
Proof. change 15%Z with (Z.ones 4). rewrite Z.land_ones by lia. by apply Z.mod_pos_bound. Qed.

Lemma hex_digits_lower n z : forallb is_lower_hex (hex_digits n z) = true.
Proof.
  revert z. induction n as [|n IH]; intros z; simpl; [done|].
  rewrite forallb_app, IH. simpl. by rewrite hex_digit_lower by apply land15_range.
Qed.

Lemma length_hex_digits n z : length (hex_digits n z) = n.
Proof. revert z. induction n as [|n IH]; intros z; simpl; [done|]. rewrite length_app, IH. simpl. lia. Qed.

Lemma hex_digits_inj n z w :
  (0 ≤ z < 16 ^ Z.of_nat n)%Z → (0 ≤ w < 16 ^ Z.of_nat n)%Z →
  hex_digits n z = hex_digits n w → z = w.
Proof.
  revert z w. induction n as [|n IH]; intros z w Hz Hw; simpl; [simpl in *; lia|].
  intros [H1 H2]%app_inj_2; [|done]. injection H2 as H2.
  assert (Z.shiftr z 4 = Z.shiftr w 4) as Hs.
  { rewrite Nat2Z.inj_succ, Z.pow_succ_r in Hz, Hw by lia.
    apply IH; [..|done]; rewrite Z.shiftr_div_pow2 by lia; change (2 ^ 4)%Z with 16%Z;
      (split; [apply Z.div_pos; lia|apply Z.div_lt_upper_bound; lia]). }
  apply hex_digit_inj in H2; [|apply land15_range..].
  change 15%Z with (Z.ones 4) in H2. rewrite !Z.land_ones in H2 by lia.
  rewrite !Z.shiftr_div_pow2 in Hs by lia.
  rewrite (Z.div_mod z (2 ^ 4)), (Z.div_mod w (2 ^ 4)) by lia. by rewrite Hs, H2.
Qed.

Lemma fmt_08x_inj z w : is_u32 z → is_u32 w → fmt_08x z = fmt_08x w → z = w.
Proof.
  unfold is_u32, fmt_08x. intros Hz Hw H%(f_equal chars). rewrite !chars_of_chars in H.
  apply (hex_digits_inj 8); [change (16 ^ Z.of_nat 8)%Z with (2 ^ 32)%Z; lia..|done].
Qed.

Lemma fmt_d_inj z w : fmt_d z = fmt_d w → z = w.
Proof. apply (inj pretty). Qed.

(** Decimal digits of a non-negative number. *)
Lemma pretty_N_go_digits n s :
  forallb is_digit (chars s) = true → forallb is_digit (chars (pretty_N_go n s)) = true.
Proof.
  revert s. induction (N.lt_wf_0 n) as [n _ IH]; intros s Hs.
  destruct (decide (n = 0%N)) as [->|]; [by rewrite pretty_N_go_0|].
  rewrite pretty_N_go_step by lia. apply IH; [apply N.div_lt; lia|].
  change (chars (String ?a ?t)) with (a :: chars t). simpl. rewrite Hs, andb_true_r.
  unfold pretty_N_char. by repeat case_match.
Qed.

Lemma pretty_N_go_nonempty n s : s ≠ "" → pretty_N_go n s ≠ "".
Proof.
  revert s. induction (N.lt_wf_0 n) as [n _ IH]; intros s Hs.
  destruct (decide (n = 0%N)) as [->|]; [by rewrite pretty_N_go_0|].
  rewrite pretty_N_go_step by lia. apply IH; [apply N.div_lt; lia|done].
Qed.

Lemma pretty_N_digits (n : N) : pretty n ≠ "" ∧ forallb is_digit (chars (pretty n)) = true.
Proof.
  unfold pretty, pretty_N. case_decide; [done|]. split.
  - rewrite pretty_N_go_step by lia. by apply pretty_N_go_nonempty.
  - by apply pretty_N_go_digits.
Qed.

Lemma fmt_d_digits z :
  (0 ≤ z)%Z → fmt_d z ≠ "" ∧ forallb is_digit (chars (fmt_d z)) = true.
Proof.
  unfold fmt_d. destruct z as [|z|z]; [done|intros _|lia].
  change (pretty (Z.pos z)) with (pretty (N.pos z)). apply pretty_N_digits.
Qed.

Lemma fmt_d_neg z : (z < 0)%Z → ∃ s, fmt_d z = String "-" s.
Proof. destruct z as [|z|z]; try lia. intros _. by eexists. Qed.
