(* ===== verification/Keys.v ===== *)
(** Names, content keys and small option values of [tsync/backup.go] and
    [tsync/client.go]: [validateName], [fileKeyFor], [isValidFileKey],
    [partKeyFor], [resolveCompression], [hashStringToUint64],
    [generateVersionID]. *)

From S2P Require Import Prelude Errors GoStrings.
#[local] Open Scope Z_scope.

(** ** Names *)

(** The first offending byte of a name, as the loop of [validateName] meets
    it: 47 is ['/'], 0 is the null byte. *)
Fixpoint bad_byte (l : list ascii) : option error :=
  match l with
  | [] => None
  | c :: l =>
      if byte_of c =? 47 then Some (wrap1 ErrInvalidName "name contains path separator")
      else if byte_of c =? 0 then Some (wrap1 ErrInvalidName "name contains null byte")
      else bad_byte l
  end.

(** [validateName]; [None] is a nil error. *)
Definition validateName (name : string) : option error :=
  if str_len name =? 0 then Some (wrap1 ErrInvalidName "name cannot be empty")
  else if 255 <? str_len name then Some (wrap1 ErrInvalidName "name exceeds maximum length")
  else match bad_byte (chars name) with
       | Some e => Some e
       | None =>
           if bool_decide (name = ".") || bool_decide (name = "..")
           then Some (wrap1 ErrInvalidName "name cannot be directory traversal sentinel")
           else None
       end.

(** What [validateName] is meant to accept (spec.md, section 3). *)
Definition valid_name (name : string) : Prop :=
  (name ≠ "") ∧ (str_len name ≤ 255) ∧ (slash ∉ chars name) ∧ ("000"%char ∉ chars name) ∧
  (name ≠ ".") ∧ (name ≠ "..").

(** ** Content keys *)

(** [fileKeyFor]. *)
Definition fileKeyFor (crc size : Z) : string :=
  fmt_08x crc +:+ "_" +:+ fmt_d size.

(** [isValidFileKey], byte by byte. *)
Definition isValidFileKey (k : string) : bool :=
  if (str_len k <? 10) || negb (bool_decide (chars k !! 8%nat = Some "_"%char)) then false
  else forallb is_lower_hex (take 8 (chars k)) && forallb is_digit (drop 9 (chars k)).

(** [partKeyFor]; slicing a key of fewer than two bytes panics. *)
Definition partKeyFor (fileKey : string) : res string :=
  if str_len fileKey <? 2 then Panic
  else Ok (of_chars (take 2 (chars fileKey)) +:+ "/" +:+ fileKey).

(** [fileKeyRegex] and [partKeyRegex]. *)
Definition fileKeyRegex : regex :=
  RCat (RRepeat 8 (RClass is_lower_hex)) (RCat (RChar "_") (RPlus (RClass is_digit))).
Definition partKeyRegex : regex :=
  RCat (RRepeat 2 (RClass is_lower_hex)) (RCat (RChar "/") fileKeyRegex).

(** ** Compression levels *)

(** [zip.Store] and [zip.Deflate]. *)
Definition zip_Store : Z := 0.
Definition zip_Deflate : Z := 8.

(** [resolveCompression]. *)
Definition resolveCompression (lvl : Z) : res (Z * Z) :=
  if lvl =? 0 then Ok (zip_Store, 0)
  else if (-1 <=? lvl) && (lvl <=? 9) then Ok (zip_Deflate, lvl)
  else Err (wrap1 ErrInvalidOptions "invalid compression level").

(** ** Version identifiers *)

(** [hashStringToUint64]: FNV-1a on [uint64]. *)
Definition hashStringToUint64 (s : string) : Z :=
  fold_left (λ h c, u64 (Z.lxor h (byte_of c) * 1099511628211)) (chars s) 14695981039346656037.

(** [id &^ (1 << 63)]. *)
Definition mask63 (id : Z) : Z := Z.ldiff id (2 ^ 63).

(** [generateVersionID]: [now i] is the [i]-th reading of
    [time.Now().UnixNano()] and [seq] the value of [globalVersionSeq]; the
    loop ends at the first acceptable candidate. Returns the new counter. *)
Definition candidate (now : nat → Z) (seq : Z) (i : nat) : Z :=
  match i with
  | O => mask63 (hashStringToUint64 (fmt_d (now O)))
  | S _ => mask63 (hashStringToUint64 (fmt_d (now i) +:+ "-" +:+ fmt_d (u64 (seq + Z.of_nat i))))
  end.

Fixpoint generate_loop (fuel : nat) (used : string → bool) (now : nat → Z) (seq : Z) (i : nat)
    : res (Z * Z) :=
  let id := candidate now seq i in
  if (id =? 0) || used (FormatUint id) then
    match fuel with
    | O => OutOfFuel
    | S fuel => generate_loop fuel used now seq (S i)
    end
  else Ok (id, u64 (seq + Z.of_nat i)).

Definition generateVersionID (fuel : nat) (used : string → bool) (now : nat → Z) (seq : Z) : res (Z * Z) :=
  generate_loop fuel used now seq 0.

(** ** Lemmas *)

Lemma bad_byte_None l : bad_byte l = None ↔ (slash ∉ l) ∧ ("000"%char ∉ l).
Proof.
  assert (∀ c n, byte_of c = Z.of_N n → c = ascii_of_N n) as Hb.
  { unfold byte_of. intros c n H. apply (f_equal Z.to_N) in H. rewrite !N2Z.id in H.
    by rewrite <- H, ascii_N_embedding. }
  induction l as [|c l IH]; simpl; [by rewrite !elem_of_nil; naive_solver|].
  rewrite !not_elem_of_cons. destruct (Z.eqb_spec (byte_of c) 47) as [E|E].
  { apply (Hb c 47%N) in E. split; [done|]. intros [[H _] _]. by destruct H. }
  destruct (Z.eqb_spec (byte_of c) 0) as [E'|E'].
  { apply (Hb c 0%N) in E'. split; [done|]. intros [_ [H _]]. by destruct H. }
  rewrite IH. assert (slash ≠ c ∧ "000"%char ≠ c) by (split; intros <-; by vm_compute in E, E').
  naive_solver.
Qed.

Lemma validateName_valid name : validateName name = None ↔ valid_name name.
Proof.
  unfold validateName, valid_name. destruct (Z.eqb_spec (str_len name) 0) as [E|E].
  { destruct name as [|a s]; [naive_solver|]. unfold str_len in E. simpl in E. lia. }
  destruct (Z.ltb_spec 255 (str_len name)); [naive_solver lia|].
  assert (name ≠ "") by (intros ->; done).
  destruct (bad_byte (chars name)) eqn:Hb.
  { split; [done|]. intros (_ & _ & H1 & H2 & _).
    by rewrite (proj2 (bad_byte_None _) (conj H1 H2)) in Hb. }
  apply bad_byte_None in Hb as [??].
  case_bool_decide; simpl; [naive_solver|]. case_bool_decide; naive_solver.
Qed.

Lemma validateName_error name e : validateName name = Some e → errors_Is e ErrInvalidName = true.
Proof.
  unfold validateName. repeat case_match; intros; simplify_eq; try done.
  match goal with H : bad_byte ?l = Some _ |- _ => revert H; induction l; simpl end; [done|].
  repeat case_match; naive_solver.
Qed.

Lemma chars_fileKeyFor crc size :
  chars (fileKeyFor crc size) = hex_digits 8 crc ++ "_"%char :: chars (fmt_d size).
Proof. unfold fileKeyFor, fmt_08x. by rewrite !chars_app, chars_of_chars. Qed.

Lemma take_fileKeyFor crc size : take 8 (chars (fileKeyFor crc size)) = hex_digits 8 crc.
Proof. rewrite chars_fileKeyFor. by rewrite take_app_length' by (by rewrite length_hex_digits). Qed.

Lemma drop_fileKeyFor crc size : drop 9 (chars (fileKeyFor crc size)) = chars (fmt_d size).
Proof.
  rewrite chars_fileKeyFor. change 9%nat with (8 + 1)%nat.
  rewrite <- drop_drop, drop_app_length' by (by rewrite length_hex_digits). done.
Qed.

Lemma str_len_chars s : str_len s = Z.of_nat (length (chars s)).
Proof. unfold str_len. by rewrite length_chars. Qed.

Lemma fileKeyFor_len crc size : 10 ≤ str_len (fileKeyFor crc size).
Proof.
  rewrite str_len_chars, chars_fileKeyFor, length_app, length_hex_digits. simpl.
  assert (fmt_d size ≠ "").
  { destruct (decide (0 ≤ size)); [by apply fmt_d_digits|].
    destruct (fmt_d_neg size) as [s ->]; [lia|done]. }
  destruct (fmt_d size) as [|a s]; [done|]. simpl. lia.
Qed.

(** The regular language of file keys. *)
Lemma fileKeyRegex_lang l :
  lang fileKeyRegex l ↔ ∃ h d, l = h ++ "_"%char :: d ∧ length h = 8%nat ∧
    forallb is_lower_hex h = true ∧ d ≠ [] ∧ forallb is_digit d = true.
Proof.
  unfold fileKeyRegex. rewrite lang_cat_iff. setoid_rewrite lang_repeat_class. split.
  - intros (h & k & -> & [Hl Hh] & Hk). apply lang_cat_iff in Hk as (u & d & -> & Hu & Hd).
    apply lang_char in Hu as ->. apply lang_plus_class in Hd as [??]. eauto 10.
  - intros (h & d & -> & Hl & Hh & Hne & Hd). exists h, ("_"%char :: d). split_and!; [done..|].
    apply lang_cat_iff. exists ["_"%char], d. split_and!; [done|by apply lang_char|by apply lang_plus_class].
Qed.

Lemma isValidFileKey_regex k : isValidFileKey k = MatchString fileKeyRegex k.
Proof.
  apply eq_true_iff_eq. rewrite MatchString_lang, fileKeyRegex_lang.
  unfold isValidFileKey. rewrite str_len_chars. split.
  - destruct (Z.ltb_spec (Z.of_nat (length (chars k))) 10); [done|].
    case_bool_decide as Hu; simpl; [|done]. rewrite andb_true_iff. intros [Hh Hd].
    exists (take 8 (chars k)), (drop 9 (chars k)).
    rewrite <- (take_drop_middle _ _ _ Hu) at 1. split_and!; [done| |done| |done].
    + rewrite length_take. lia.
    + intros H0%(f_equal length). rewrite length_drop in H0. simpl in H0. lia.
  - intros (h & d & E & Hl & Hh & Hne & Hd). rewrite E.
    destruct (Z.ltb_spec (Z.of_nat (length (h ++ "_"%char :: d))) 10) as [Hlt|].
    { rewrite length_app in Hlt. simpl in Hlt. destruct d; simpl in *; [done|lia]. }
    rewrite bool_decide_true by (by rewrite lookup_app_r, Hl by lia). simpl.
    rewrite take_app_length' by done. change 9%nat with (8 + 1)%nat.
    rewrite <- drop_drop, drop_app_length' by done. simpl. by rewrite drop_0, Hh, Hd.
Qed.

Lemma isValidFileKey_fileKeyFor crc size : isValidFileKey (fileKeyFor crc size) = true ↔ 0 ≤ size.
Proof.
  unfold isValidFileKey. pose proof (fileKeyFor_len crc size) as Hlen.
  destruct (Z.ltb_spec (str_len (fileKeyFor crc size)) 10); [lia|].
  rewrite bool_decide_true.
  2:{ rewrite chars_fileKeyFor, lookup_app_r; rewrite length_hex_digits; done. }
  simpl negb. cbn [orb]. rewrite take_fileKeyFor, drop_fileKeyFor, hex_digits_lower. cbn [andb].
  split; [|intros; by apply fmt_d_digits].
  intros Hd. destruct (decide (0 ≤ size)); [done|].
  destruct (fmt_d_neg size) as [s E]; [lia|]. by rewrite E in Hd.
Qed.

Lemma partKeyFor_fileKeyFor crc size :
  partKeyFor (fileKeyFor crc size) =
    Ok (of_chars (take 2 (hex_digits 8 crc)) +:+ "/" +:+ fileKeyFor crc size).
Proof.
  unfold partKeyFor. pose proof (fileKeyFor_len crc size).
  destruct (Z.ltb_spec (str_len (fileKeyFor crc size)) 2); [lia|].
  rewrite <- (take_fileKeyFor crc size), take_take. by rewrite Nat.min_l by lia.
Qed.

Lemma candidate_range now seq i : 0 ≤ candidate now seq i ≤ max_int64.
Proof.
  assert (∀ z, 0 ≤ z → 0 ≤ mask63 z) as Hnn by (intros; by apply Z.ldiff_nonneg; left).
  assert (∀ s, is_u64 (hashStringToUint64 s)) as Hh.
  { intros s. unfold hashStringToUint64. generalize (chars s). intros l.
    assert (is_u64 14695981039346656037) as H0 by (unfold is_u64; lia).
    revert H0. generalize 14695981039346656037. induction l as [|c l IH]; simpl; [done|].
    intros h Hh. apply IH, u64_bounds. }
  assert (∀ z, is_u64 z → 0 ≤ mask63 z ≤ max_int64) as Hm.
  { intros z [H0 H1]. split; [by apply Hnn|]. unfold mask63, max_int64.
    destruct (Z.eq_dec (Z.ldiff z (2 ^ 63)) 0) as [->|Hz]; [lia|].
    assert (Z.ldiff z (2 ^ 63) < 2 ^ 63); [|lia].
    pose proof (Hnn z H0) as Hz0. unfold mask63 in Hz0.
    apply Z.log2_lt_pow2; [lia|]. apply Z.nle_gt. intros Hl.
    pose proof (Z.bit_log2 (Z.ldiff z (2 ^ 63)) ltac:(lia)) as Hb.
    rewrite Z.ldiff_spec, andb_true_iff in Hb. destruct Hb as [Hb1 Hb2].
    assert (Z.log2 (Z.ldiff z (2 ^ 63)) < 64).
    { destruct (Z.eq_dec z 0) as [->|]; [by rewrite Z.ldiff_0_l in Hz|].
      apply Z.nle_gt. intros Hge. rewrite Z.bits_above_log2 in Hb1; [done|lia|].
      assert (Z.log2 z < 64) by (apply Z.log2_lt_pow2; lia). lia. }
    replace (Z.log2 (Z.ldiff z (2 ^ 63))) with 63 in Hb2 by lia. done. }
  destruct i; apply Hm, Hh.
Qed.

(** The loop stops at the first acceptable candidate. *)
Lemma generate_loop_Ok fuel used now seq i x :
  generate_loop fuel used now seq i = Ok x → 0 < x.1 ≤ max_int64 ∧ used (FormatUint x.1) = false.
Proof.
  revert i. induction fuel as [|fuel IH]; intros i; cbn [generate_loop]; destruct (_ || _) eqn:E; try done; try apply IH;
    intros [= <-]; apply orb_false_iff in E as [?%Z.eqb_neq ?]; cbn [fst]; pose proof (candidate_range now seq i); (split; [lia|done]).
Qed.

Lemma generate_loop_first fuel used now seq i n :
  (i ≤ n)%nat → (n - i ≤ fuel)%nat →
  candidate now seq n ≠ 0 → used (FormatUint (candidate now seq n)) = false →
  ∃ m, (i ≤ m ≤ n)%nat ∧ candidate now seq m ≠ 0 ∧
    used (FormatUint (candidate now seq m)) = false ∧
    generate_loop fuel used now seq i = Ok (candidate now seq m, u64 (seq + Z.of_nat m)).
Proof.
  revert i. induction fuel as [|fuel IH]; intros i Hi Hf Hc Hu; cbn [generate_loop].
  - assert (i = n) as -> by lia. destruct (Z.eqb_spec (candidate now seq n) 0); [done|].
    rewrite Hu. simpl. exists n. auto.
  - destruct (Z.eqb_spec (candidate now seq i) 0); cbn [orb].
    + destruct (decide (i = n)) as [->|]; [done|].
      destruct (IH (S i)) as (m & ? & ? & ? & ?); [lia..|done|done|]. exists m. split_and!; [lia..|done|done|done].
    + destruct (used (FormatUint (candidate now seq i))) eqn:Eu; [|exists i; split_and!; [lia..|done|done|done]].
      destruct (decide (i = n)) as [->|]; [congruence|].
      destruct (IH (S i)) as (m & ? & ? & ? & ?); [lia..|done|done|]. exists m. split_and!; [lia..|done|done|done].
Qed.

(** ** Properties *)

(** [validateName] accepts exactly the names of the specification: not
    empty, at most 255 bytes, no [/] and no null byte, neither [.] nor [..]
    (a backslash is an ordinary byte); any rejection is [ErrInvalidName]. *)
Theorem validateName_spec (name : string) :
  (validateName name = None ↔ valid_name name) ∧
  (∀ e, validateName name = Some e → errors_Is e ErrInvalidName = true).
Proof. split; [apply validateName_valid|apply validateName_error]. Qed.

(** Content keys identify their contents: two files get the same key
    exactly when CRC32 and size agree. *)
Theorem fileKeyFor_inj (c1 c2 s1 s2 : Z) :
  is_u32 c1 → is_u32 c2 → fileKeyFor c1 s1 = fileKeyFor c2 s2 → c1 = c2 ∧ s1 = s2.
Proof.
  intros H1 H2 H. split.
  - apply fmt_08x_inj; [done..|]. unfold fmt_08x. by rewrite <- !take_fileKeyFor with (size := s1), H, !take_fileKeyFor.
  - apply fmt_d_inj, chars_inj. by rewrite <- !drop_fileKeyFor with (crc := c1), H, !drop_fileKeyFor.
Qed.

Lemma fileKeyFor_inj_witness :
  fileKeyFor 443 12 = fileKeyFor (440 + 3) 12 ∧ 443 = 440 + 3 ∧ 12 = 12.
Proof.
  split; [reflexivity|].
  apply (fileKeyFor_inj 443 (440 + 3) 12 12); unfold is_u32; [lia|lia|reflexivity].
Defined.

(** The hand-written key check agrees with the regular expression of
    [client.go] on every string, and accepts a key made by [fileKeyFor]
    exactly when its size is not negative. *)
Theorem isValidFileKey_spec (k : string) (crc size : Z) :
  isValidFileKey k = MatchString fileKeyRegex k ∧
  (isValidFileKey (fileKeyFor crc size) = true ↔ 0 ≤ size).
Proof. split; [apply isValidFileKey_regex|apply isValidFileKey_fileKeyFor]. Qed.

(** [path.Base] of a two-component path. *)
Lemma path_Base_snoc d k :
  slash ∉ chars k → k ≠ "" → slash ∉ chars d → path_Base (d +:+ "/" +:+ k) = k.
Proof.
  intros Hk Hne Hd. unfold path_Base.
  assert (chars (d +:+ "/" +:+ k) = chars d ++ slash :: chars k) as Hc by by rewrite !chars_app.
  rewrite bool_decide_false by (intros E; rewrite E in Hc; by destruct (chars d)).
  rewrite Hc, reverse_app, reverse_cons.
  destruct (reverse (chars k)) as [|a r] eqn:Er.
  { apply (f_equal reverse) in Er. rewrite reverse_involutive in Er. by destruct k. }
  assert (a ≠ slash) as Ha.
  { intros ->. apply Hk. rewrite <- (reverse_involutive (chars k)), Er. set_solver. }
  rewrite <- app_assoc. simpl. rewrite bool_decide_false by done.
  change (a :: r ++ slash :: reverse (chars d)) with ((a :: r) ++ slash :: reverse (chars d)).
  rewrite <- Er, reverse_app, reverse_cons, !reverse_involutive, <- app_assoc. simpl.
  rewrite split_chars_app, split_chars_nosep by done. simpl. apply of_chars_chars.
Qed.

(** The storage path of a well-formed key: slicing never panics, garbage
    collection recognises the path as a part, and [path.Base] gives the key
    back. *)
Theorem partKeyFor_roundtrip (crc size : Z) :
  0 ≤ size →
  ∃ p, partKeyFor (fileKeyFor crc size) = Ok p ∧
       MatchString partKeyRegex p = true ∧ path_Base p = fileKeyFor crc size.
Proof.
  intros Hs. rewrite partKeyFor_fileKeyFor. eexists. split; [done|].
  set (h := take 2 (hex_digits 8 crc)). set (k := fileKeyFor crc size).
  assert (lang fileKeyRegex (chars k)) as Hk.
  { apply MatchString_lang. rewrite <- isValidFileKey_regex.
    by apply isValidFileKey_fileKeyFor. }
  assert (slash ∉ chars k) as Hns.
  { apply fileKeyRegex_lang in Hk as (a & d & -> & _ & Ha & _ & Hd).
    rewrite not_elem_of_app, not_elem_of_cons. rewrite forallb_forall in Ha, Hd.
    split_and!; [intros H%list_elem_of_In%Ha; done|done|intros H%list_elem_of_In%Hd; done]. }
  assert (chars (of_chars h +:+ "/" +:+ k) = h ++ slash :: chars k) as Hc
    by by rewrite !chars_app, chars_of_chars.
  split.
  - apply MatchString_lang. rewrite Hc. unfold partKeyRegex. apply lang_cat_iff.
    exists h, (slash :: chars k). split_and!; [done| |].
    + apply lang_repeat_class. unfold h. split; [rewrite length_take, length_hex_digits; done|].
      pose proof (hex_digits_lower 8 crc) as H. rewrite <- (take_drop 2 (hex_digits 8 crc)), forallb_app in H.
      by apply andb_true_iff in H as [? _].
    + apply lang_cat_iff. exists [slash], (chars k). split_and!; [done|by apply lang_char|done].
  - apply path_Base_snoc; [done| |].
    + intros E. pose proof (fileKeyFor_len crc size) as Hl. fold k in Hl. by rewrite E in Hl.
    + intros H%list_elem_of_In. rewrite chars_of_chars in H.
      pose proof (hex_digits_lower 8 crc) as Hx. rewrite forallb_forall in Hx.
      assert (is_lower_hex slash = true) as [=]. apply Hx, list_elem_of_In.
      apply list_elem_of_In in H. unfold h in H.
      by apply elem_of_take in H as (j & ?%list_elem_of_lookup_2 & _).
Qed.

Lemma partKeyFor_roundtrip_witness :
  partKeyFor (fileKeyFor 2712847316 102400) = Ok "a1/a1b2c3d4_102400" ∧
  ∃ p, partKeyFor (fileKeyFor 2712847316 102400) = Ok p ∧
       MatchString partKeyRegex p = true ∧ path_Base p = fileKeyFor 2712847316 102400.
Proof. split; [vm_compute; reflexivity|]. apply (partKeyFor_roundtrip 2712847316 102400). lia. Defined.

(** [generateVersionID] returns as soon as some clock reading gives an
    acceptable candidate; the identifier is then positive, at most
    [math.MaxInt64], and not used by any existing version. *)
Theorem generateVersionID_fresh fuel used now seq n :
  (n ≤ fuel)%nat → candidate now seq n ≠ 0 → used (FormatUint (candidate now seq n)) = false →
  ∃ id seq', generateVersionID fuel used now seq = Ok (id, seq') ∧
    0 < id ≤ max_int64 ∧ used (FormatUint id) = false.
Proof.
  intros Hf Hc Hu. unfold generateVersionID.
  destruct (generate_loop_first fuel used now seq 0 n) as (m & _ & Hm & Hum & ->); [lia|lia|done|done|].
  eexists _, _. split; [done|]. pose proof (candidate_range now seq m). split; [lia|done].
Qed.

Lemma generateVersionID_fresh_witness :
  ∃ id seq', generateVersionID 0 (λ _, false) (λ i, 1700000000000000000 + Z.of_nat i) 5 = Ok (id, seq') ∧
    0 < id ≤ max_int64 ∧ (λ _ : string, false) (FormatUint id) = false.
Proof.
  apply (generateVersionID_fresh 0 (λ _, false) (λ i, 1700000000000000000 + Z.of_nat i) 5 0);
    [lia|vm_compute; congruence|reflexivity].
Defined.
