(* ===== verification/Digest.v ===== *)
(** The checksums of Go's standard library that the program calls:
    [crypto/sha256] and [hash/crc32] (IEEE), over byte slices. *)

From Stdlib Require Import Strings.Byte.
From S2P Require Import Prelude GoStrings.
#[local] Open Scope Z_scope.

(** A Go [[]byte]. *)
Abbreviation bytes := (list Byte.byte).
Definition blen (b : bytes) : Z := Z.of_nat (length b).
Lemma blen_nonpos b : blen b ≤ 0 ↔ b = [].
Proof. unfold blen. destruct b; simpl; [done|]. split; [lia|done]. Qed.
Lemma blen_app a b : blen (a ++ b) = blen a + blen b.
Proof. unfold blen. rewrite length_app. lia. Qed.
Lemma blen_nonneg a : 0 ≤ blen a.
Proof. unfold blen. lia. Qed.
Lemma blen_nil a : blen a = 0 → a = [].
Proof. unfold blen. destruct a; simpl; [done|lia]. Qed.
#[export] Instance Byte_eq_dec : EqDecision Byte.byte := Byte.byte_eq_dec.

Module SHA256.

(** The first [n] primes at least [p], in order. *)
Fixpoint primes (fuel n : nat) (found : list Z) (p : Z) : list Z :=
  match fuel, n with
  | S fuel, S n' =>
      if existsb (λ q, p mod q =? 0) found then primes fuel n found (p + 1)
      else p :: primes fuel n' (found ++ [p]) (p + 1)
  | _, _ => []
  end.

(** [⌊z^(1/3)⌋], bit by bit from [2 ^ n]. *)
Fixpoint cbrt (n : nat) (z r : Z) : Z :=
  let r' := r + 2 ^ Z.of_nat n in
  let r := if r' ^ 3 <=? z then r' else r in
  match n with O => r | S n => cbrt n z r end.

(** The constants of FIPS 180-4: the fractions of the cube roots of the
    first 64 primes, and of the square roots of the first eight. *)
Definition K : list Z :=
  Eval vm_compute in (λ p, cbrt 36 (p * 2 ^ 96) 0 mod 2 ^ 32) <$> primes 400 64 [] 2.
Definition H0 : list Z :=
  Eval vm_compute in (λ p, Z.sqrt (p * 2 ^ 64) mod 2 ^ 32) <$> primes 400 8 [] 2.

(** Reduction to 32 bits. *)
Definition w32 (z : Z) : Z := Z.land z 0xffffffff.

Definition rotr (n x : Z) : Z := Z.lor (Z.shiftr x n) (w32 (Z.shiftl x (32 - n))).
Definition ch (x y z : Z) : Z := Z.lxor (Z.land x y) (Z.land (0xffffffff - x) z).
Definition maj (x y z : Z) : Z := Z.lxor (Z.lxor (Z.land x y) (Z.land x z)) (Z.land y z).
Definition bsig0 (x : Z) : Z := Z.lxor (Z.lxor (rotr 2 x) (rotr 13 x)) (rotr 22 x).
Definition bsig1 (x : Z) : Z := Z.lxor (Z.lxor (rotr 6 x) (rotr 11 x)) (rotr 25 x).
Definition ssig0 (x : Z) : Z := Z.lxor (Z.lxor (rotr 7 x) (rotr 18 x)) (Z.shiftr x 3).
Definition ssig1 (x : Z) : Z := Z.lxor (Z.lxor (rotr 17 x) (rotr 19 x)) (Z.shiftr x 10).

(** Big-endian words and their bytes. *)
Fixpoint words (l : list Z) : list Z :=
  match l with
  | a :: b :: c :: d :: l => (((a * 256 + b) * 256 + c) * 256 + d) :: words l
  | _ => []
  end.
Definition word_bytes (w : Z) : list Z :=
  [Z.shiftr w 24; Z.land (Z.shiftr w 16) 255; Z.land (Z.shiftr w 8) 255; Z.land w 255].

(** Padding: 0x80, zeroes, and the bit length in eight bytes. *)
Definition pad (l : list Z) : list Z :=
  let n := Z.of_nat (length l) in
  let zeroes := Z.to_nat ((55 - n) mod 64) in
  l ++ 0x80 :: replicate zeroes 0 ++
  word_bytes (Z.shiftr (Z.land (n * 8) (Z.ones 64)) 32) ++ word_bytes (w32 (n * 8)).

(** The schedule: the last sixteen words, newest first. *)
Definition next_word (w : list Z) : Z :=
  w32 (ssig1 (nth 1 w 0) + nth 6 w 0 + ssig0 (nth 14 w 0) + nth 15 w 0).

Definition round (st : list Z) (k w : Z) : list Z :=
  match st with
  | [a; b; c; d; e; f; g; h] =>
      let t1 := h + bsig1 e + ch e f g + k + w in
      let t2 := bsig0 a + maj a b c in
      [w32 (t1 + t2); a; b; c; w32 (d + t1); e; f; g]
  | _ => st
  end.

Fixpoint rounds (ks : list Z) (todo prev : list Z) (st : list Z) : list Z :=
  match ks with
  | [] => st
  | k :: ks =>
      let '(w, todo) := match todo with
                        | w :: todo => (w, todo)
                        | [] => (next_word prev, [])
                        end in
      rounds ks todo (w :: take 15 prev) (round st k w)
  end.

Fixpoint blocks (n : nat) (ws : list Z) (st : list Z) : list Z :=
  match n with
  | O => st
  | S n =>
      let st' := rounds K (take 16 ws) [] st in
      blocks n (drop 16 ws) (zip_with (λ a b, w32 (a + b)) st st')
  end.

(** [sha256.New(); h.Write(l); h.Sum(nil)]. *)
Definition sum (l : bytes) : list Z :=
  let ws := words (pad (byte_val <$> l)) in
  blocks (length ws / 16) ws H0 ≫= word_bytes.

(** Thirty-two bytes, whatever the input. *)
Lemma round_length st k w : length st = 8%nat → length (round st k w) = 8%nat.
Proof. by do 9 (destruct st as [|? st]; try done). Qed.

Lemma rounds_length ks todo prev st : length st = 8%nat → length (rounds ks todo prev st) = 8%nat.
Proof.
  revert todo prev st. induction ks as [|k ks IH]; intros todo prev st Hst; cbn [rounds]; [done|].
  destruct todo; apply IH; by apply round_length.
Qed.

Lemma blocks_length n ws st : length st = 8%nat → length (blocks n ws st) = 8%nat.
Proof.
  revert ws st. induction n as [|n IH]; intros ws st Hst; cbn [blocks]; [done|].
  apply IH. rewrite length_zip_with, rounds_length by done. lia.
Qed.

Lemma sum_length l : length (sum l) = 32%nat.
Proof.
  unfold sum. set (st := blocks _ _ _). assert (length st = 8%nat) as Hst by by apply blocks_length.
  clearbody st. do 9 (destruct st as [|? st]; try done).
Qed.

End SHA256.

(** [hex.EncodeToString(sha256(l))]. *)
Definition sha256_hex (l : bytes) : string := hex_EncodeToString (SHA256.sum l).

Module CRC32.

Definition poly : Z := 0xedb88320.

Fixpoint shift8 (n : nat) (c : Z) : Z :=
  match n with
  | O => c
  | S n => shift8 n (if Z.odd c then Z.lxor (Z.shiftr c 1) poly else Z.shiftr c 1)
  end.

Definition update (crc : Z) (b : Byte.byte) : Z := shift8 8 (Z.lxor crc (byte_val b)).

(** [crc32.NewIEEE(); h.Write(l); h.Sum32()]. *)
Definition Sum32 (l : bytes) : Z := Z.lxor (fold_left update l 0xffffffff) 0xffffffff.

Lemma log2_u32 z : is_u32 z → Z.log2 z < 32.
Proof.
  intros [? ?]. destruct (Z.eq_dec z 0) as [->|]; [reflexivity|]. apply Z.log2_lt_pow2; lia.
Qed.

Lemma lxor_u32 a b : is_u32 a → is_u32 b → is_u32 (Z.lxor a b).
Proof.
  intros Ha Hb. pose proof (log2_u32 _ Ha). pose proof (log2_u32 _ Hb). destruct Ha, Hb.
  assert (0 ≤ Z.lxor a b) by (apply Z.lxor_nonneg; lia). split; [done|].
  destruct (Z.eq_dec (Z.lxor a b) 0) as [->|]; [done|]. apply Z.log2_lt_pow2; [lia|].
  pose proof (Z.log2_lxor a b). lia.
Qed.

Lemma shift8_u32 n c : is_u32 c → is_u32 (shift8 n c).
Proof.
  revert c. induction n as [|n IH]; intros c Hc; cbn [shift8]; [done|]. apply IH.
  assert (is_u32 (Z.shiftr c 1)) as Hs.
  { destruct Hc. rewrite Z.shiftr_div_pow2 by lia. split; [apply Z.div_pos; lia|].
    apply Z.div_lt_upper_bound; lia. }
  destruct (Z.odd c); [|done]. apply lxor_u32; [done|]. unfold is_u32, poly. lia.
Qed.

Lemma Sum32_u32 l : is_u32 (Sum32 l).
Proof.
  unfold Sum32. assert (∀ c, is_u32 c → is_u32 (fold_left update l c)) as H.
  { induction l as [|b l IH]; intros c Hc; cbn [fold_left]; [done|]. apply IH, shift8_u32, lxor_u32; [done|].
    pose proof (Byte.to_N_bounded b). unfold byte_val, is_u32. lia. }
  apply lxor_u32; [apply H|]; unfold is_u32; lia.
Qed.

End CRC32.

(** Known answers: the digest of the empty input, which is the empty
    directory sentinel of spec.md section 4, and published test vectors. *)
Example sha256_empty :
  sha256_hex [] = "e3b0c44298fc1c149afbf4c8996fb92427ae41e4649b934ca495991b7852b855".
Proof. vm_compute. reflexivity. Qed.

Example sha256_abc :
  sha256_hex (bytes_of_string "abc") =
    "ba7816bf8f01cfea414140de5dae2223b00361a396177a9cb410ff61f20015ad".
Proof. vm_compute. reflexivity. Qed.

Example sha256_two_blocks :
  sha256_hex (bytes_of_string "abcdbcdecdefdefgefghfghighijhijkijkljklmklmnlmnomnopnopq") =
    "248d6a61d20638b8e5c026930c3e6039a33ce45964ff2167f6ecedd419db06c1".
Proof. vm_compute. reflexivity. Qed.

Example crc32_check : CRC32.Sum32 (bytes_of_string "123456789") = 0xcbf43926.
Proof. vm_compute. reflexivity. Qed.

Arguments sha256_hex : simpl never.
