(* ===== verification/Metadata.v ===== *)
(** The metadata messages of the backup store (the generated structs of
    [gen/go/.../v2]), their serialisation as an interface, and the queries
    over versions of [backup.go] and [client.go]. *)

From S2P Require Import Prelude Errors GoStrings Digest.
#[local] Open Scope Z_scope.

(** ** Messages *)

(** [timestamppb.Timestamp], and [time.Time] as nanoseconds since 1970. *)
Record Timestamp := { Seconds : Z; Nanos : Z }.

(** [AsTime]: a nil message reads as the epoch. *)
Definition AsTime (t : option Timestamp) : Z :=
  match t with Some t => Seconds t * 10 ^ 9 + Nanos t | None => 0 end.
(** [timestamppb.New]. *)
Definition timestamppb_New (t : Z) : Timestamp :=
  {| Seconds := t / 10 ^ 9; Nanos := t mod 10 ^ 9 |}.

Record Version := {
  SnowflakeId : Z;
  BackupTimestamp : option Timestamp;
  RootTreeHash : string;
  PrecedingVersionId : Z;
  Label : string;
}.

Record FileLeaf := {
  leaf_Crc32 : Z;
  leaf_UncompressedSize : Z;
}.

(** The [node] oneof of a tree entry; unset is [TreeEntry_None], and a set
    [file] member may hold a nil message. *)
Inductive TreeEntry_Node :=
| TreeEntry_File (File : option FileLeaf)
| TreeEntry_SubtreeHash (SubtreeHash : string)
| TreeEntry_None.

Record TreeEntry := {
  Name : string;
  Node : TreeEntry_Node;
}.

Record TreeNode := { Entries : list TreeEntry }.

Record FileRecord := {
  EphemeralPublicKey : bytes;
  EncryptedZipPassword : bytes;
  KeyId : option string;
  Crc32 : Z;
  CompressedSize : Z;
  UncompressedSize : Z;
  LastModified : option Timestamp;
}.

Record BackupMetadata := {
  Versions : gmap string Version;
  Trees : gmap string TreeNode;
  Files : gmap string FileRecord;
  PublicKeys : gmap string bytes;
  SchemaVersion : Z;
  StoreLabel : option string;
  LastUpdated : option Timestamp;
}.

#[export] Instance Timestamp_eq_dec : EqDecision Timestamp.
Proof. solve_decision. Defined.
#[export] Instance Version_eq_dec : EqDecision Version.
Proof. solve_decision. Defined.
#[export] Instance FileLeaf_eq_dec : EqDecision FileLeaf.
Proof. solve_decision. Defined.
#[export] Instance TreeEntry_Node_eq_dec : EqDecision TreeEntry_Node.
Proof. solve_decision. Defined.
#[export] Instance TreeEntry_eq_dec : EqDecision TreeEntry.
Proof. solve_decision. Defined.
#[export] Instance TreeNode_eq_dec : EqDecision TreeNode.
Proof. solve_decision. Defined.
#[export] Instance FileRecord_eq_dec : EqDecision FileRecord.
Proof. solve_decision. Defined.
#[export] Instance BackupMetadata_eq_dec : EqDecision BackupMetadata.
Proof. solve_decision. Defined.

(** ** Serialisation

    [google.golang.org/protobuf] is not part of the program: the encoders
    and the decoder are an interface ([None] is an error).  The law is the
    one the program relies on: what was written can be read back, for
    messages that have the shape and widths of the wire format. *)
Class Proto := {
  marshal_tree : TreeNode → option bytes;
  marshal_metadata : BackupMetadata → option bytes;
  unmarshal_metadata : bytes → option BackupMetadata;
}.

Definition entry_canonical (e : TreeEntry) : Prop :=
  match Node e with
  | TreeEntry_File (Some l) => is_u32 (leaf_Crc32 l) ∧ is_i64 (leaf_UncompressedSize l)
  | TreeEntry_File None => False
  | TreeEntry_SubtreeHash _ | TreeEntry_None => True
  end.
Definition tree_canonical (n : TreeNode) : Prop := Forall entry_canonical (Entries n).
Definition record_canonical (r : FileRecord) : Prop :=
  is_u32 (Crc32 r) ∧ is_i64 (CompressedSize r) ∧ is_i64 (UncompressedSize r).
Definition version_canonical (v : Version) : Prop :=
  is_u64 (SnowflakeId v) ∧ is_u64 (PrecedingVersionId v).
Definition md_canonical (m : BackupMetadata) : Prop :=
  map_Forall (λ _, version_canonical) (Versions m) ∧
  map_Forall (λ _, tree_canonical) (Trees m) ∧
  map_Forall (λ _, record_canonical) (Files m) ∧
  is_u32 (SchemaVersion m).

Class ProtoLaws `{!Proto} := {
  unmarshal_marshal : ∀ m b,
    md_canonical m → marshal_metadata m = Some b → unmarshal_metadata b = Some m;
  unmarshal_canonical : ∀ m b, unmarshal_metadata b = Some m → md_canonical m;
}.

(** ** Map iteration

    [for k, v := range m] visits the entries of a Go map in an unspecified
    order; the program's results are stated for every such order. *)
Class MapRange := {
  range : ∀ {A}, gmap string A → list (string * A);
  range_perm : ∀ {A} (m : gmap string A), range m ≡ₚ map_to_list m;
}.

Lemma elem_of_range `{!MapRange} {A} (m : gmap string A) k v :
  (k, v) ∈ range m ↔ m !! k = Some v.
Proof. by rewrite range_perm, elem_of_map_to_list. Qed.

Lemma NoDup_range `{!MapRange} {A} (m : gmap string A) : NoDup (range m).*1.
Proof. rewrite range_perm. apply NoDup_fst_map_to_list. Qed.

(** One such order, for evaluating the model. *)
Program Definition some_range : MapRange := {| range A m := map_to_list m |}.
Next Obligation. done. Qed.

(** And the opposite one. *)
Program Definition other_range : MapRange := {| range A m := reverse (map_to_list m) |}.
Next Obligation. intros. simpl. apply reverse_Permutation. Qed.

(** ** Queries over versions *)

Section queries.
Context {MR : MapRange}.

(** [v] replaces [latest] in the loop of [latestVersion]. *)
Definition newer (v latest : Version) : bool :=
  (AsTime (BackupTimestamp latest) <? AsTime (BackupTimestamp v)) ||
  ((AsTime (BackupTimestamp v) =? AsTime (BackupTimestamp latest)) &&
   (SnowflakeId latest <? SnowflakeId v)).

(** [latestVersion] of [backup.go]. *)
Definition latestVersion (md : BackupMetadata) : option Version :=
  fold_left (λ latest kv,
    match latest with
    | None => Some kv.2
    | Some l => if newer kv.2 l then Some kv.2 else latest
    end) (range (Versions md)) None.

(** [StoreMetadata.LatestVersion] of [client.go]: timestamps only. *)
Definition StoreMetadata_LatestVersion (md : BackupMetadata) : option Version :=
  if Nat.eqb (size (Versions md)) 0 then None
  else
    fold_left (λ latest kv,
      match latest with
      | None => Some kv.2
      | Some l =>
          if AsTime (BackupTimestamp l) <? AsTime (BackupTimestamp kv.2) then Some kv.2
          else latest
      end) (range (Versions md)) None.

(** The order of [StoreMetadata.Versions]: later timestamps first. *)
Definition version_before (v w : Version) : Prop :=
  AsTime (BackupTimestamp w) ≤ AsTime (BackupTimestamp v).
#[export] Instance version_before_dec v w : Decision (version_before v w).
Proof. unfold version_before. apply _. Defined.
#[export] Instance version_before_total : Total version_before.
Proof. intros v w. unfold version_before. lia. Qed.
#[export] Instance version_before_trans : Transitive version_before.
Proof. intros u v w. unfold version_before. lia. Qed.

(** [StoreMetadata.Versions]; [sort.Slice] is some sort by that order. *)
Definition StoreMetadata_Versions (md : BackupMetadata) : list Version :=
  merge_sort version_before (range (Versions md)).*2.

(** [StoreMetadata.HasVersion]. *)
Definition StoreMetadata_HasVersion (md : BackupMetadata) (versionID : Z) : bool :=
  bool_decide (is_Some (Versions md !! FormatUint versionID)).

(** [StoreMetadata.GetFileRecord], [Files], [PublicKeys], [SchemaVersion],
    [LastUpdated] (the zero [time.Time] is [None]). *)
Definition StoreMetadata_GetFileRecord (md : BackupMetadata) (fileKey : string) : option FileRecord :=
  Files md !! fileKey.
Definition StoreMetadata_LastUpdated (md : BackupMetadata) : option Z :=
  match LastUpdated md with None => None | Some t => Some (AsTime (Some t)) end.

(** Some version of [l] is kept by a fold that starts from [acc], and none
    of [l] or [acc] replaces it. *)
Lemma fold_best (better : Version → Version → bool) (l : list (string * Version)) acc :
  (∀ u v w, better u v = true → better v w = true → better u w = true) →
  (∀ u v w, better v u = false → better w v = false → better w u = false) →
  (∀ v, better v v = false) →
  let step := λ latest (kv : string * Version),
    match latest with
    | None => Some kv.2
    | Some b => if better kv.2 b then Some kv.2 else latest
    end in
  match fold_left step l acc with
  | None => l = [] ∧ acc = None
  | Some b =>
      (acc = Some b ∨ ∃ k, (k, b) ∈ l) ∧
      (∀ k v, (k, v) ∈ l → better v b = false) ∧
      (∀ a, acc = Some a → better a b = false)
  end.
Proof.
  intros Htr Hntr Hirr step. revert acc. induction l as [|[k v] l IH]; intros acc; simpl.
  { destruct acc as [b|]; [|done]. split_and!; [by left|by intros ?? []%elem_of_nil|].
    by intros ? [= ->]. }
  specialize (IH (step acc (k, v))). destruct (fold_left step l (step acc (k, v))) as [b|] eqn:E.
  - destruct IH as (Hin & Hl & Hacc). unfold step in Hin, Hacc; simpl in Hin, Hacc.
    split_and!.
    + destruct acc as [a|]; [destruct (better v a)|];
        destruct Hin as [[= <-]|[k' Hk]]; try (right; exists k; by left);
        try (right; exists k'; by right); by left.
    + intros k' v' [[= -> ->]|Hk]%elem_of_cons; [|by eapply Hl].
      destruct acc as [a|]; [|by apply Hacc]. destruct (better v a) eqn:Eb; [by apply Hacc|].
      eapply Hntr; [by apply Hacc|done].
    + intros a ->. destruct (better v a) eqn:Eb; [|by apply Hacc].
      specialize (Hacc _ eq_refl). destruct (better a b) eqn:Eab; [|done].
      by rewrite (Htr _ _ _ Eb Eab) in Hacc.
  - destruct IH as [_ IH]. unfold step in IH; simpl in IH.
    destruct acc as [a|]; [destruct (better v a)|]; done.
Qed.

Lemma newer_trans u v w : newer u v = true → newer v w = true → newer u w = true.
Proof. unfold newer. rewrite !orb_true_iff, !andb_true_iff, !Z.ltb_lt, !Z.eqb_eq. lia. Qed.
Lemma newer_ntrans u v w : newer v u = false → newer w v = false → newer w u = false.
Proof.
  unfold newer. rewrite !orb_false_iff, !andb_false_iff, !Z.ltb_ge, !Z.eqb_neq. lia.
Qed.
Lemma newer_irrefl v : newer v v = false.
Proof. unfold newer. rewrite Z.eqb_refl, !Z.ltb_irrefl. done. Qed.

Lemma latestVersion_in md v : latestVersion md = Some v → ∃ k, Versions md !! k = Some v.
Proof.
  pose proof (fold_best newer (range (Versions md)) None newer_trans newer_ntrans newer_irrefl) as Hf.
  simpl in Hf. unfold latestVersion. intros E. rewrite E in Hf.
  destruct Hf as ([[=]|[k Hk]] & _). exists k. by apply elem_of_range.
Qed.

(** [latestVersion] returns nil only for a store without versions;
    otherwise a stored version that no other one exceeds in timestamp, ties
    broken by identifier, whatever order the map is visited in. *)
Theorem latestVersion_spec (md : BackupMetadata) :
  match latestVersion md with
  | None => Versions md = ∅
  | Some b => (∃ k, Versions md !! k = Some b) ∧
              ∀ k v, Versions md !! k = Some v → newer v b = false
  end.
Proof.
  pose proof (fold_best newer (range (Versions md)) None newer_trans newer_ntrans newer_irrefl) as Hf.
  simpl in Hf. unfold latestVersion.
  destruct (fold_left _ _ _) as [b|].
  - destruct Hf as ([[=]|[k Hk]] & Hl & _). split.
    + exists k. by apply elem_of_range.
    + intros k' v Hv%elem_of_range. by eapply Hl.
  - destruct Hf as [Hr _]. apply map_to_list_empty_iff, Permutation_nil_r. by rewrite <- range_perm, Hr.
Qed.

End queries.
