(* ===== verification/ProtoExample.v ===== *)
(** A concrete instance of the serialisation interface, for evaluating the
    model: directory nodes in the real proto3 wire format of
    [temp_for_context/v2/metadata.proto], whole metadata messages by their
    position in a table. *)

From Stdlib Require Import Strings.Byte.
From S2P Require Import Prelude Errors GoStrings Digest Metadata.
#[local] Open Scope Z_scope.

Definition to_byte (z : Z) : Byte.byte := default x00 (Byte.of_N (Z.to_N (Z.land z 255))).

(** Base-128 varint of an unsigned 64-bit value. *)
Fixpoint varint (fuel : nat) (z : Z) : bytes :=
  match fuel with
  | O => []
  | S fuel =>
      if z <? 128 then [to_byte z]
      else to_byte (Z.lor 128 (Z.land z 127)) :: varint fuel (Z.shiftr z 7)
  end.

Definition le32 (z : Z) : bytes := (λ i, to_byte (Z.shiftr z (8 * i))) <$> [0; 1; 2; 3].

Definition len_field (tag : Z) (payload : bytes) : bytes :=
  to_byte tag :: varint 10 (Z.of_nat (length payload)) ++ payload.

Definition wire_leaf (l : FileLeaf) : bytes :=
  (if leaf_Crc32 l =? 0 then [] else to_byte 13 :: le32 (leaf_Crc32 l)) ++
  (if leaf_UncompressedSize l =? 0 then [] else to_byte 16 :: varint 10 (u64 (leaf_UncompressedSize l))).

Definition wire_entry (e : TreeEntry) : bytes :=
  (if bool_decide (Name e = "") then [] else len_field 10 (bytes_of_string (Name e))) ++
  match Node e with
  | TreeEntry_File (Some l) => len_field 18 (wire_leaf l)
  | TreeEntry_File None => len_field 18 []
  | TreeEntry_SubtreeHash h => len_field 26 (bytes_of_string h)
  | TreeEntry_None => []
  end.

Definition wire_tree (n : TreeNode) : bytes := Entries n ≫= λ e, len_field 10 (wire_entry e).

Definition table_proto (table : list BackupMetadata) : Proto := {|
  marshal_tree n := Some (wire_tree n);
  marshal_metadata m := (λ im, replicate im.1 x00) <$> list_find (m =.) table;
  unmarshal_metadata b := table !! length b;
|}.

Lemma table_proto_laws table :
  Forall md_canonical table → @ProtoLaws (table_proto table).
Proof.
  intros Hc. split.
  - intros m b _. simpl. destruct (list_find (m =.) table) as [[i x]|] eqn:E; [|done].
    intros [= <-]. apply list_find_Some in E as (E & -> & _). by rewrite length_replicate.
  - intros m b Hm. simpl in Hm. rewrite Forall_forall in Hc. apply list_elem_of_lookup_2 in Hm. by apply Hc.
Qed.

(** Decides [md_canonical] on concrete metadata. *)
Definition in_range (lo hi z : Z) : bool := (lo <=? z) && (z <=? hi).
Definition entry_canonical_b (e : TreeEntry) : bool :=
  match Node e with
  | TreeEntry_File (Some l) =>
      in_range 0 (2 ^ 32 - 1) (leaf_Crc32 l) && in_range min_int64 max_int64 (leaf_UncompressedSize l)
  | TreeEntry_File None => false
  | _ => true
  end.
Definition md_canonical_b (m : BackupMetadata) : bool :=
  forallb (λ kv, in_range 0 (2 ^ 64 - 1) (SnowflakeId kv.2) &&
                 in_range 0 (2 ^ 64 - 1) (PrecedingVersionId kv.2)) (map_to_list (Versions m)) &&
  forallb (λ kv, forallb entry_canonical_b (Entries kv.2)) (map_to_list (Trees m)) &&
  forallb (λ kv, in_range 0 (2 ^ 32 - 1) (Crc32 kv.2) &&
                 in_range min_int64 max_int64 (CompressedSize kv.2) &&
                 in_range min_int64 max_int64 (UncompressedSize kv.2)) (map_to_list (Files m)) &&
  in_range 0 (2 ^ 32 - 1) (SchemaVersion m).

Lemma in_range_spec lo hi z : in_range lo hi z = true ↔ lo ≤ z ≤ hi.
Proof. unfold in_range. rewrite andb_true_iff, !Z.leb_le. done. Qed.

Lemma forallb_map_Forall {A} (f : A → bool) (P : A → Prop) (m : gmap string A) :
  (∀ a, f a = true → P a) → forallb (λ kv, f kv.2) (map_to_list m) = true → map_Forall (λ _, P) m.
Proof.
  intros Hf H k a Hk. rewrite forallb_forall in H. apply Hf, (H (k, a)), list_elem_of_In.
  by apply elem_of_map_to_list.
Qed.

Lemma md_canonical_b_sound m : md_canonical_b m = true → md_canonical m.
Proof.
  unfold md_canonical_b. rewrite !andb_true_iff. intros [[[Hv Ht] Hf] Hs]. split_and!.
  - revert Hv. apply (forallb_map_Forall (λ v, in_range _ _ (SnowflakeId v) && in_range _ _ (PrecedingVersionId v))).
    intros v. unfold version_canonical, is_u64. rewrite andb_true_iff, !in_range_spec. lia.
  - revert Ht. apply (forallb_map_Forall (λ n, forallb entry_canonical_b (Entries n))).
    intros n Hn. rewrite forallb_forall in Hn. apply Forall_forall. intros e He%list_elem_of_In%Hn.
    unfold entry_canonical_b in He. unfold entry_canonical, is_u32, is_i64.
    destruct (Node e) as [[l|]| |]; try done. rewrite andb_true_iff, !in_range_spec in He. lia.
  - revert Hf. apply (forallb_map_Forall (λ r, in_range _ _ (Crc32 r) && in_range _ _ (CompressedSize r) && in_range _ _ (UncompressedSize r))).
    intros r. unfold record_canonical, is_u32, is_i64. rewrite !andb_true_iff, !in_range_spec. lia.
  - apply in_range_spec in Hs. unfold is_u32. lia.
Qed.
