(* ===== verification/TreeWalk.v ===== *)
(** Reading the content-addressed version tree: [walkTree] and
    [ResolveVersionTree] of [tsync/restore.go], [walkCollect] of
    [tsync/client.go].

    Directory nodes are stored in a map under the hex SHA-256 of their
    serialisation.  Both walks recurse through that map, so their model takes
    fuel; [resolve_fuel] and [collect_fuel] are what the callers pass. *)

From S2P Require Import Prelude Errors GoStrings Keys Digest Metadata.

(** [filesResult] and [dirsResult]. *)
Abbreviation walk_acc := (gmap string string * list string)%type.

(** [liveTreeHashes] and [liveFileKeys]. *)
Abbreviation live_acc := (gset string * gset string)%type.

Section Walk.
Context {PR : Proto}.

(** The key under which a node is stored; [None] when it cannot be
    marshalled. *)
Definition tree_hash (node : TreeNode) : option string :=
  sha256_hex <$> marshal_tree node.

(** The key of a leaf: [fmt.Sprintf("%08x_%d", Crc32, UncompressedSize)]. *)
Definition leaf_key (l : FileLeaf) : string :=
  fileKeyFor (leaf_Crc32 l) (leaf_UncompressedSize l).

(** The order check of both walks: every name after the first must be
    greater than the one before. *)
Fixpoint names_sorted (prev : option string) (entries : list TreeEntry) : bool :=
  match entries with
  | [] => true
  | e :: es =>
      match prev with
      | Some p => if str_leb (Name e) p then false else names_sorted (Some (Name e)) es
      | None => names_sorted (Some (Name e)) es
      end
  end.

Definition full_path (prefix name : string) : string :=
  if bool_decide (prefix = "") then name else prefix +:+ "/" +:+ name.

(** An inconsistency: skipped with a warning, or an error. *)
Definition corrupt {A} (skip : bool) (m : string) (k : res A) : res A :=
  if skip then k else Err (wrap1 ErrCorruptMetadata m).

(** The entry loop of [walkTree]; [rec] is the recursive call. *)
Fixpoint walk_entries (rec : string → string → walk_acc → res walk_acc) (skip : bool)
    (prefix : string) (entries : list TreeEntry) (acc : walk_acc) : res walk_acc :=
  match entries with
  | [] => Ok acc
  | entry :: rest =>
      match validateName (Name entry) with
      | Some e =>
          if skip then walk_entries rec skip prefix rest acc
          else Err (Errorf "invalid name in tree entry" [ESentinel ErrCorruptMetadata; e])
      | None =>
          let fullPath := full_path prefix (Name entry) in
          match Node entry with
          | TreeEntry_File None =>
              corrupt skip "file leaf is nil" (walk_entries rec skip prefix rest acc)
          | TreeEntry_File (Some f) =>
              walk_entries rec skip prefix rest (<[fullPath := leaf_key f]> acc.1, acc.2)
          | TreeEntry_SubtreeHash h =>
              if bool_decide (h = "") then
                corrupt skip "subtree hash is empty" (walk_entries rec skip prefix rest acc)
              else
                let! acc := rec h fullPath acc in
                walk_entries rec skip prefix rest acc
          | TreeEntry_None =>
              corrupt skip "no node type set" (walk_entries rec skip prefix rest acc)
          end
      end
  end.

(** [walkTree]. *)
Fixpoint walkTree (fuel : nat) (trees : gmap string TreeNode) (skip : bool)
    (treeHash prefix : string) (acc : walk_acc) : res walk_acc :=
  match fuel with
  | O => OutOfFuel
  | S fuel =>
      match trees !! treeHash with
      | None => corrupt skip "tree node not found" (Ok acc)
      | Some node =>
          match tree_hash node with
          | None => corrupt skip "failed to marshal tree node" (Ok acc)
          | Some computedHash =>
              if negb (bool_decide (computedHash = treeHash)) then
                corrupt skip "tree node hash mismatch" (Ok acc)
              else if negb skip && negb (names_sorted None (Entries node)) then
                Err (wrap1 ErrCorruptMetadata "tree node is not sorted")
              else
                match Entries node with
                | [] => if negb (bool_decide (prefix = "")) then Ok (acc.1, acc.2 ++ [prefix])
                        else Ok acc
                | entries => walk_entries (walkTree fuel trees skip) skip prefix entries acc
                end
          end
      end
  end.

Definition resolve_fuel (trees : gmap string TreeNode) : nat := S (size trees).

(** [ResolveVersionTree]. *)
Definition ResolveVersionTree (md : BackupMetadata) (versionID : Z) (skip : bool) : res walk_acc :=
  match Versions md !! FormatUint versionID with
  | None => Err (wrap1 ErrVersionNotFound "version not found in backup metadata")
  | Some version =>
      walkTree (resolve_fuel (Trees md)) (Trees md) skip (RootTreeHash version) "" (∅, [])
  end.

(** The entry loop of [walkCollect]. *)
Fixpoint collect_entries (rec : string → live_acc → res live_acc)
    (entries : list TreeEntry) (live : live_acc) : res live_acc :=
  match entries with
  | [] => Ok live
  | entry :: rest =>
      match validateName (Name entry) with
      | Some e => Err (Errorf "invalid name in tree entry" [ESentinel ErrCorruptMetadata; e])
      | None =>
          match Node entry with
          | TreeEntry_File None => Err (wrap1 ErrCorruptMetadata "file leaf is nil")
          | TreeEntry_File (Some f) => collect_entries rec rest (live.1, {[leaf_key f]} ∪ live.2)
          | TreeEntry_SubtreeHash h =>
              if bool_decide (h = "") then Err (wrap1 ErrCorruptMetadata "subtree hash is empty")
              else let! live := rec h live in collect_entries rec rest live
          | TreeEntry_None => Err (wrap1 ErrCorruptMetadata "no node type set")
          end
      end
  end.

(** [walkCollect]. *)
Fixpoint walkCollect (fuel : nat) (trees : gmap string TreeNode) (treeHash : string)
    (live : live_acc) : res live_acc :=
  match fuel with
  | O => OutOfFuel
  | S fuel =>
      if bool_decide (treeHash ∈ live.1) then Ok live
      else
        let live := ({[treeHash]} ∪ live.1, live.2) in
        match trees !! treeHash with
        | None => Err (wrap1 ErrCorruptMetadata "tree node not found")
        | Some node =>
            match tree_hash node with
            | None => Err (wrap1 ErrCorruptMetadata "failed to marshal tree node")
            | Some computedHash =>
                if negb (bool_decide (computedHash = treeHash)) then
                  Err (wrap1 ErrCorruptMetadata "tree node hash mismatch")
                else if negb (names_sorted None (Entries node)) then
                  Err (wrap1 ErrCorruptMetadata "tree node is not sorted")
                else collect_entries (walkCollect fuel trees) (Entries node) live
            end
        end
  end.

Definition collect_fuel (trees : gmap string TreeNode) : nat := S (size trees).

(** The loop over [metadata.Versions] of [DeleteVersion] and [GC]. *)
Fixpoint collect_roots (trees : gmap string TreeNode) (roots : list string) (live : live_acc)
    : res live_acc :=
  match roots with
  | [] => Ok live
  | h :: roots =>
      let! live := walkCollect (collect_fuel trees) trees h live in
      collect_roots trees roots live
  end.

(** ** Abstract reading of the tree (spec.md, section 5) *)

(** [h'] is a subdirectory of the stored directory [h]. *)
Definition child (trees : gmap string TreeNode) (h h' : string) : Prop :=
  ∃ node e, trees !! h = Some node ∧ e ∈ Entries node ∧ Node e = TreeEntry_SubtreeHash h'.

(** Below directory [h], [path] leads to a file with key [k]. *)
Inductive file_at (trees : gmap string TreeNode) : string → list string → string → Prop :=
| file_at_here h node name leaf :
    trees !! h = Some node →
    {| Name := name; Node := TreeEntry_File (Some leaf) |} ∈ Entries node →
    file_at trees h [name] (leaf_key leaf)
| file_at_sub h node name h' path k :
    trees !! h = Some node →
    {| Name := name; Node := TreeEntry_SubtreeHash h' |} ∈ Entries node →
    file_at trees h' path k →
    file_at trees h (name :: path) k.

(** Below directory [h], [path] leads to the directory [d]. *)
Inductive dir_at (trees : gmap string TreeNode) : string → list string → string → Prop :=
| dir_at_here h : dir_at trees h [] h
| dir_at_sub h node name h' path d :
    trees !! h = Some node →
    {| Name := name; Node := TreeEntry_SubtreeHash h' |} ∈ Entries node →
    dir_at trees h' path d →
    dir_at trees h (name :: path) d.

(** The keys of the files below [h]. *)
Definition live_key (trees : gmap string TreeNode) (h k : string) : Prop :=
  ∃ d node e leaf, rtc (child trees) h d ∧ trees !! d = Some node ∧ e ∈ Entries node ∧
    Node e = TreeEntry_File (Some leaf) ∧ k = leaf_key leaf.

End Walk.

