(* ===== verification/TreeResolve.v ===== *)
(** Correctness of version resolution: [walkTree] and [ResolveVersionTree]
    compute the listing that the abstract reading of the tree defines; they
    return unless the stored nodes contain a cycle; skipping validation
    errors changes nothing on valid stores. *)

From S2P Require Import Prelude Errors GoStrings Keys Digest Metadata ProtoExample TreeWalk.

(** ** Sequences of steps in a finite graph *)

Section Cycle.
Context {A : Type} `{Countable A} (R : relation A).

(** [chain l x y]: the steps from [x] to [y] leave from the elements of [l]. *)
Inductive chain : list A → A → A → Prop :=
| chain_nil x : chain [] x x
| chain_cons x y z l : R x y → chain l y z → chain (x :: l) x z.

Lemma chain_app_inv l1 l2 x z :
  chain (l1 ++ l2) x z → ∃ y, chain l1 x y ∧ chain l2 y z.
Proof.
  revert x. induction l1 as [|a l1 IH]; simpl; intros x Hc; [by exists x; split; [constructor|]|].
  inversion Hc as [|? y ? ? Hxy Hyz]; subst. destruct (IH _ Hyz) as (w & ? & ?).
  exists w. split; [by econstructor|done].
Qed.

Lemma chain_rtc l x z : chain l x z → rtc R x z.
Proof. induction 1; [done|]. by econstructor. Qed.

Lemma chain_tc a l x z : chain (a :: l) x z → tc R x z ∧ a = x.
Proof.
  inversion 1 as [|? y ? ? Hxy Hyz]; subst. split; [|done].
  apply chain_rtc in Hyz. by eapply tc_rtc_r; [apply tc_once|].
Qed.

Lemma not_NoDup_split (l : list A) :
  ¬ NoDup l → ∃ a l1 l2 l3, l = l1 ++ a :: l2 ++ a :: l3.
Proof.
  induction l as [|a l IH]; intros Hn; [by destruct Hn; constructor|].
  destruct (decide (a ∈ l)) as [(l2 & l3 & ->)%list_elem_of_split|Ha]; [by exists a, [], l2, l3|].
  destruct IH as (b & l1 & l2 & l3 & ->); [intros ?; apply Hn; by constructor|].
  by exists b, (a :: l1), l2, l3.
Qed.

(** A chain with more steps than there are nodes to leave from goes round a
    cycle. *)
Lemma long_chain_cycle (X : gset A) l x y :
  chain l x y → (∀ a b, R a b → a ∈ X) → size X < length l → ∃ a, rtc R x a ∧ tc R a a.
Proof.
  intros Hc HX Hlen. destruct (decide (NoDup l)) as [Hnd|Hnd].
  - exfalso. assert (list_to_set l ⊆ X) as Hsub.
    { intros a Ha%elem_of_list_to_set. clear Hnd Hlen.
      induction Hc as [|x y z l Hxy Hc IH]; [by apply elem_of_nil in Ha|].
      apply elem_of_cons in Ha as [->|Ha]; eauto. }
    apply subseteq_size in Hsub. rewrite size_list_to_set in Hsub by done. lia.
  - apply not_NoDup_split in Hnd as (a & l1 & l2 & l3 & ->).
    apply chain_app_inv in Hc as (u & Hu%chain_rtc & Hc).
    change (a :: l2 ++ a :: l3) with ((a :: l2) ++ a :: l3) in Hc.
    apply chain_app_inv in Hc as (v & Hc1 & Hc2).
    apply chain_tc in Hc1 as [Ht ->]. apply chain_tc in Hc2 as [_ ->]. eauto.
Qed.
End Cycle.

Section Resolve.
Context {PR : Proto}.
Implicit Types (trees : gmap string TreeNode) (acc : walk_acc).

(** ** Skip mode *)

Lemma walk_entries_skip rec prefix es acc :
  (∀ h p a, (∃ r, rec h p a = Ok r) ∨ rec h p a = OutOfFuel) →
  (∃ r, walk_entries rec true prefix es acc = Ok r) ∨
  walk_entries rec true prefix es acc = OutOfFuel.
Proof.
  intros Hrec. revert acc. induction es as [|e es IH]; intros acc; simpl; [eauto|].
  destruct (validateName (Name e)); [apply IH|].
  destruct (Node e) as [[f|]|h|]; simpl; try apply IH.
  case_bool_decide; [apply IH|]. destruct (Hrec h (full_path prefix (Name e)) acc) as [[r ->]| ->];
    simpl; [apply IH|by right].
Qed.

Lemma walkTree_skip n trees h prefix acc :
  (∃ r, walkTree n trees true h prefix acc = Ok r) ∨
  walkTree n trees true h prefix acc = OutOfFuel.
Proof.
  revert h prefix acc. induction n as [|n IH]; intros h prefix acc; cbn [walkTree]; [by right|].
  destruct (trees !! h) as [node|]; simpl; [|eauto].
  destruct (tree_hash node); simpl; [|eauto]. case_bool_decide; simpl; [|eauto].
  destruct (Entries node) as [|t l]; [case_bool_decide; simpl; eauto|].
  apply (walk_entries_skip _ prefix (t :: l)), IH.
Qed.

Lemma walk_entries_strict_skip rec rec' prefix es acc r :
  (∀ h p a b, rec h p a = Ok b → rec' h p a = Ok b) →
  walk_entries rec false prefix es acc = Ok r → walk_entries rec' true prefix es acc = Ok r.
Proof.
  intros Hrec. revert acc. induction es as [|e es IH]; intros acc; simpl; [done|].
  destruct (validateName (Name e)); [done|].
  destruct (Node e) as [[f|]|h|]; simpl; try done; [apply IH|].
  case_bool_decide; [done|]. intros (a & Ha & Hr)%obind_Ok. rewrite (Hrec _ _ _ _ Ha). simpl. by apply IH.
Qed.

Lemma walkTree_strict_skip n trees h prefix acc r :
  walkTree n trees false h prefix acc = Ok r → walkTree n trees true h prefix acc = Ok r.
Proof.
  revert h prefix acc r. induction n as [|n IH]; intros h prefix acc r; cbn [walkTree]; [done|].
  destruct (trees !! h) as [node|]; simpl; [|done].
  destruct (tree_hash node); simpl; [|done]. case_bool_decide; simpl; [|done].
  destruct (names_sorted None (Entries node)); simpl; [|done].
  destruct (Entries node) as [|t l]; [done|]. apply (walk_entries_strict_skip _ _ prefix (t :: l)), IH.
Qed.

(** ** Fuel *)

Lemma walk_entries_mono rec rec' skip prefix es acc :
  (∀ h p a, rec h p a ≠ OutOfFuel → rec' h p a = rec h p a) →
  walk_entries rec skip prefix es acc ≠ OutOfFuel →
  walk_entries rec' skip prefix es acc = walk_entries rec skip prefix es acc.
Proof.
  intros Hrec. revert acc. induction es as [|e es IH]; intros acc; simpl; [done|].
  destruct (validateName (Name e)); [destruct skip; [apply IH|done]|].
  destruct (Node e) as [[f|]|h|]; simpl; try (destruct skip; simpl; [apply IH|done]); try apply IH.
  case_bool_decide; [destruct skip; simpl; [apply IH|done]|].
  destruct (rec h (full_path prefix (Name e)) acc) eqn:E; simpl; intros Hne; try done;
    rewrite Hrec, E by (by rewrite E); [by apply IH|done|done].
Qed.

Lemma walkTree_mono n m trees skip h prefix acc :
  n ≤ m → walkTree n trees skip h prefix acc ≠ OutOfFuel →
  walkTree m trees skip h prefix acc = walkTree n trees skip h prefix acc.
Proof.
  revert m h prefix acc. induction n as [|n IH]; intros m h prefix acc Hm; [done|].
  destruct m as [|m]; [lia|]. cbn [walkTree].
  destruct (trees !! h) as [node|]; [|done]. destruct (tree_hash node); [|done].
  case_bool_decide; simpl; [|done]. destruct (negb skip && _); [done|].
  destruct (Entries node) as [|t l]; [done|]. apply (walk_entries_mono _ _ skip prefix (t :: l)).
  intros h' p a. apply IH. lia.
Qed.

(** Running out of fuel means that many directories below each other. *)
Lemma walk_entries_fuel rec skip prefix es acc :
  walk_entries rec skip prefix es acc = OutOfFuel →
  ∃ e h p a, e ∈ es ∧ Node e = TreeEntry_SubtreeHash h ∧ rec h p a = OutOfFuel.
Proof.
  revert acc. induction es as [|e es IH]; intros acc; simpl; [done|].
  assert (∀ acc', walk_entries rec skip prefix es acc' = OutOfFuel →
    ∃ e' h p a, e' ∈ e :: es ∧ Node e' = TreeEntry_SubtreeHash h ∧ rec h p a = OutOfFuel) as Hrest.
  { intros acc' Hf. destruct (IH _ Hf) as (e' & h & p & a & ? & ? & ?). exists e', h, p, a. set_solver. }
  destruct (validateName (Name e)); [destruct skip; [apply Hrest|done]|].
  destruct (Node e) as [[f|]|h|] eqn:En; simpl; try (destruct skip; simpl; [apply Hrest|done]);
    try apply Hrest.
  case_bool_decide; [destruct skip; simpl; [apply Hrest|done]|].
  destruct (rec h _ acc) eqn:E; simpl; try done; [apply Hrest|].
  intros _. exists e, h, (full_path prefix (Name e)), acc. set_solver.
Qed.

Lemma walkTree_fuel n trees skip h prefix acc :
  walkTree n trees skip h prefix acc = OutOfFuel →
  ∃ l h', chain (child trees) l h h' ∧ length l = n.
Proof.
  revert h prefix acc. induction n as [|n IH]; intros h prefix acc; cbn [walkTree];
    [intros _; exists [], h; split; [constructor|done]|].
  destruct (trees !! h) as [node|] eqn:Eh; [|by destruct skip].
  destruct (tree_hash node); [|by destruct skip].
  case_bool_decide; simpl; [|by destruct skip]. destruct (negb skip && _); [done|].
  destruct (Entries node) as [|t es] eqn:Ee; [by case_bool_decide|].
  intros (e & h' & p & a & He & Hn & Hr)%(walk_entries_fuel _ _ _ (t :: es)).
  destruct (IH _ _ _ Hr) as (l & h'' & Hl & <-).
  exists (h :: l), h''. split; [|done]. econstructor; [|done]. exists node, e. by rewrite Ee.
Qed.

Lemma walkTree_total trees skip h prefix acc :
  walkTree (resolve_fuel trees) trees skip h prefix acc = OutOfFuel →
  ∃ d, rtc (child trees) h d ∧ tc (child trees) d d.
Proof.
  intros (l & h' & Hl & Hlen)%walkTree_fuel.
  eapply (long_chain_cycle _ (dom trees)); [done| |].
  - intros a b (node & e & Ha & _). by apply elem_of_dom_2 in Ha.
  - rewrite size_dom. unfold resolve_fuel in Hlen. lia.
Qed.

(** ** Paths *)

Lemma valid_no_slash name : valid_name name → has_char slash name = false.
Proof. intros (_ & _ & H & _). by apply has_char_false. Qed.

Lemma join_slash_inj ps qs :
  Forall valid_name ps → Forall valid_name qs → ps ≠ [] → qs ≠ [] →
  join_slash ps = join_slash qs → ps = qs.
Proof.
  intros Hp Hq Hnp Hnq E.
  rewrite <- (Split_join ps), <- (Split_join qs), E; try done;
    (eapply Forall_impl; [done|apply valid_no_slash]).
Qed.

Lemma join_slash_empty ps : Forall valid_name ps → join_slash ps = "" → ps = [].
Proof.
  intros Hp. destruct ps as [|p ps]; [done|]. apply Forall_cons in Hp as [(Hne & _) _].
  destruct ps; simpl; [done|]. destruct p; done.
Qed.

Lemma full_path_join ps name :
  Forall valid_name ps → full_path (join_slash ps) name = join_slash (ps ++ [name]).
Proof.
  intros Hp. unfold full_path. case_bool_decide as E.
  - apply join_slash_empty in E as ->; done.
  - rewrite join_slash_snoc; [done|]. by intros ->.
Qed.

(** ** The listing of a directory *)

(** [path] leads to a file with key [k] through one of the entries [es]. *)
Definition file_in trees (es : list TreeEntry) (path : list string) (k : string) : Prop :=
  ∃ name path' node, path = name :: path' ∧ {| Name := name; Node := node |} ∈ es ∧
  match node with
  | TreeEntry_File (Some leaf) => path' = [] ∧ k = leaf_key leaf
  | TreeEntry_SubtreeHash h => file_at trees h path' k
  | _ => False
  end.

(** [path] leads to an empty directory from [h], or through [es]. *)
Definition empty_at trees (h : string) (path : list string) : Prop :=
  ∃ d node, dir_at trees h path d ∧ trees !! d = Some node ∧ Entries node = [].
Definition empty_in trees (es : list TreeEntry) (path : list string) : Prop :=
  ∃ name path' h, path = name :: path' ∧
    {| Name := name; Node := TreeEntry_SubtreeHash h |} ∈ es ∧ empty_at trees h path'.

Lemma file_at_in trees h path k :
  file_at trees h path k ↔ ∃ node, trees !! h = Some node ∧ file_in trees (Entries node) path k.
Proof.
  split.
  - inversion 1; subst; eexists; (split; [done|]); by eexists _, _, _.
  - intros (node & Hn & name & path' & nd & -> & He & Hk).
    destruct nd as [[leaf|]|h'|]; try done; [|by econstructor].
    destruct Hk as [-> ->]. by econstructor.
Qed.

Lemma empty_at_in trees h path :
  empty_at trees h path ↔
    ∃ node, trees !! h = Some node ∧ (path = [] ∧ Entries node = [] ∨ empty_in trees (Entries node) path).
Proof.
  split.
  - intros (d & nd & Hd & Hnd & He). inversion Hd; subst; [by exists nd; auto|].
    eexists. split; [done|]. right. eexists _, _, _. split_and!; [done|done|]. by exists d, nd.
  - intros (node & Hn & [[-> He]|(name & path' & h' & -> & He & d & nd & Hd & Hnd & Hem)]).
    + exists h, node. split_and!; [constructor|done|done].
    + exists d, nd. split_and!; [by econstructor|done|done].
Qed.

(** What a walk adds to its accumulators: the files and empty directories
    below the prefix [ps], every name on the way being valid. *)
Definition listing (ps : list string) (files : list string → string → Prop)
    (empties : list string → Prop) (acc r : walk_acc) : Prop :=
  ∃ (m : gmap string string) (ds : list string),
    r = (m ∪ acc.1, acc.2 ++ ds) ∧
    (∀ p k, m !! p = Some k ↔ ∃ path, p = join_slash (ps ++ path) ∧ files path k) ∧
    (∀ p, p ∈ ds ↔ ∃ path, p = join_slash (ps ++ path) ∧ empties path) ∧
    (∀ path, (∃ k, files path k) ∨ empties path → Forall valid_name path).

(** The first entry of a list, and the rest of it. *)
Lemma file_in_cons trees e es path k :
  file_in trees (e :: es) path k ↔ file_in trees [e] path k ∨ file_in trees es path k.
Proof. unfold file_in. setoid_rewrite elem_of_cons. setoid_rewrite elem_of_nil. naive_solver. Qed.

Lemma empty_in_cons trees e es path :
  empty_in trees (e :: es) path ↔ empty_in trees [e] path ∨ empty_in trees es path.
Proof. unfold empty_in. setoid_rewrite elem_of_cons. setoid_rewrite elem_of_nil. naive_solver. Qed.

Lemma file_in_head trees es path k :
  file_in trees es path k → ∃ name path', path = name :: path' ∧ name ∈ Name <$> es.
Proof.
  intros (name & path' & nd & -> & He & _). exists name, path'. split; [done|].
  apply list_elem_of_fmap. by exists {| Name := name; Node := nd |}.
Qed.

Lemma listing_nil ps acc :
  listing ps (λ _ _, False) (λ _, False) acc acc.
Proof.
  exists ∅, []. rewrite map_empty_union, app_nil_r. destruct acc. split_and!; [done| | |].
  - intros p k. rewrite lookup_empty. naive_solver.
  - intros p. rewrite elem_of_nil. naive_solver.
  - naive_solver.
Qed.

Lemma listing_ext ps f f' g g' acc r :
  (∀ path k, f path k ↔ f' path k) → (∀ path, g path ↔ g' path) →
  listing ps f g acc r → listing ps f' g' acc r.
Proof.
  intros Hf Hg (m & ds & -> & Hm & Hd & Hv). exists m, ds. split_and!; [done| | |].
  - intros p k. rewrite Hm. by setoid_rewrite Hf.
  - intros p. rewrite Hd. by setoid_rewrite Hg.
  - intros path. rewrite <- Hg. setoid_rewrite <- Hf. apply Hv.
Qed.

(** Listings of entries with different names add up. *)
Lemma listing_app ps f1 g1 f2 g2 acc r1 r2 :
  Forall valid_name ps →
  (∀ p1 k1 p2 k2, f1 p1 k1 → f2 p2 k2 → p1 ≠ [] ∧ p2 ≠ [] ∧ p1 ≠ p2) →
  listing ps f1 g1 acc r1 → listing ps f2 g2 r1 r2 →
  listing ps (λ p k, f1 p k ∨ f2 p k) (λ p, g1 p ∨ g2 p) acc r2.
Proof.
  intros Hps Hdis (m1 & ds1 & -> & Hm1 & Hd1 & Hv1) (m2 & ds2 & -> & Hm2 & Hd2 & Hv2).
  exists (m2 ∪ m1), (ds1 ++ ds2). simpl. split_and!.
  - by rewrite map_union_assoc, app_assoc.
  - intros p k. rewrite lookup_union_Some_raw. split.
    + intros [H|[_ H]]; [apply Hm2 in H|apply Hm1 in H]; naive_solver.
    + intros (path & -> & [H|H]); [|left; apply Hm2; eauto].
      assert (m1 !! join_slash (ps ++ path) = Some k) as H1 by (apply Hm1; eauto).
      destruct (m2 !! join_slash (ps ++ path)) as [k'|] eqn:E; [|auto]. exfalso.
      apply Hm2 in E as (path' & E & H').
      destruct (Hdis _ _ _ _ H H') as (Hn & Hn' & Hne). apply Hne.
      apply (app_inv_head ps), join_slash_inj; [| | | |done];
        try (apply Forall_app; split; [done|]); try (by destruct ps);
        [apply Hv1|apply Hv2]; eauto.
  - intros p. rewrite elem_of_app, Hd1, Hd2. naive_solver.
  - intros path [[k [H|H]]|[H|H]]; [apply Hv1|apply Hv2|apply Hv1|apply Hv2]; eauto.
Qed.

(** One file entry. *)
Lemma listing_file trees ps name leaf acc :
  Forall valid_name ps → valid_name name →
  let e := {| Name := name; Node := TreeEntry_File (Some leaf) |} in
  listing ps (file_in trees [e]) (empty_in trees [e]) acc
    (<[full_path (join_slash ps) name := leaf_key leaf]> acc.1, acc.2).
Proof.
  intros Hps Hname e. exists {[full_path (join_slash ps) name := leaf_key leaf]}, [].
  assert (∀ path k, file_in trees [e] path k ↔ path = [name] ∧ k = leaf_key leaf) as Hf.
  { intros path k. unfold file_in, e. setoid_rewrite list_elem_of_singleton. naive_solver. }
  assert (∀ path, empty_in trees [e] path ↔ False) as Hg.
  { intros path. unfold empty_in, e. setoid_rewrite list_elem_of_singleton. naive_solver. }
  rewrite insert_union_singleton_l, app_nil_r, full_path_join by done.
  split_and!; [done| | |].
  - intros p k. rewrite lookup_singleton_Some. setoid_rewrite Hf. naive_solver.
  - intros p. rewrite elem_of_nil. setoid_rewrite Hg. naive_solver.
  - intros path. rewrite Hg. setoid_rewrite Hf. intros [(k & -> & _)|[]]. by constructor.
Qed.

(** One directory entry, from the listing of the directory. *)
Lemma listing_sub trees ps name h acc r :
  valid_name name →
  listing (ps ++ [name]) (file_at trees h) (empty_at trees h) acc r →
  let e := {| Name := name; Node := TreeEntry_SubtreeHash h |} in
  listing ps (file_in trees [e]) (empty_in trees [e]) acc r.
Proof.
  intros Hname (m & ds & -> & Hm & Hd & Hv) e.
  assert (∀ path k, file_in trees [e] path k ↔ ∃ path', path = name :: path' ∧ file_at trees h path' k) as Hf.
  { intros path k. unfold file_in, e. setoid_rewrite list_elem_of_singleton. naive_solver. }
  assert (∀ path, empty_in trees [e] path ↔ ∃ path', path = name :: path' ∧ empty_at trees h path') as Hg.
  { intros path. unfold empty_in, e. setoid_rewrite list_elem_of_singleton. naive_solver. }
  exists m, ds. split_and!; [done| | |].
  - intros p k. rewrite Hm. setoid_rewrite Hf. setoid_rewrite <- app_assoc. naive_solver.
  - intros p. rewrite Hd. setoid_rewrite Hg. setoid_rewrite <- app_assoc. naive_solver.
  - intros path. rewrite Hg. setoid_rewrite Hf.
    intros [(k & path' & -> & H)|(path' & -> & H)]; (constructor; [done|]); apply Hv; eauto.
Qed.

(** ** Strict mode computes the listing *)

Lemma names_sorted_spec prev es :
  names_sorted prev es = true ↔ Sorted str_lt (option_list prev ++ (Name <$> es)).
Proof.
  revert prev. induction es as [|e es IH]; intros prev; simpl.
  { split; [|done]. destruct prev; simpl; repeat constructor. }
  destruct prev as [p|]; simpl; [|by rewrite IH].
  destruct (str_leb (Name e) p) eqn:El.
  - split; [done|]. intros Hs. inversion Hs as [|? ? _ Hh]; subst. inversion Hh as [|? ? Hlt]; subst.
    apply str_leb_false in Hlt. congruence.
  - apply str_leb_false in El. rewrite IH. simpl. split; [|by inversion 1].
    intros Hs. constructor; [done|by constructor].
Qed.

Lemma names_sorted_NoDup es : names_sorted None es = true → NoDup (Name <$> es).
Proof.
  rewrite names_sorted_spec. simpl. intros Hs%(Sorted_StronglySorted str_lt).
  induction Hs as [|x l Hs IH Hx]; constructor; [|done].
  rewrite Forall_forall in Hx. intros Hin%Hx. by apply str_lt_irrefl in Hin.
Qed.

Lemma walk_entries_listing trees rec ps es acc r :
  Forall valid_name ps → NoDup (Name <$> es) →
  (∀ h qs acc r, Forall valid_name qs → qs ≠ [] → rec h (join_slash qs) acc = Ok r →
     listing qs (file_at trees h) (empty_at trees h) acc r) →
  walk_entries rec false (join_slash ps) es acc = Ok r →
  listing ps (file_in trees es) (empty_in trees es) acc r.
Proof.
  intros Hps Hnd Hrec. revert acc. induction es as [|e es IH]; intros acc; simpl.
  { intros [= <-]. eapply listing_ext; [| |apply listing_nil]; intros; split; try done.
    - intros (? & ? & ? & _ & []%elem_of_nil & _).
    - intros (? & ? & ? & _ & []%elem_of_nil & _). }
  destruct (validateName (Name e)) eqn:Hv; [done|]. apply validateName_valid in Hv.
  apply NoDup_cons in Hnd as [Hni Hnd].
  assert (∀ r1, listing ps (file_in trees [e]) (empty_in trees [e]) acc r1 →
    walk_entries rec false (join_slash ps) es r1 = Ok r →
    listing ps (file_in trees (e :: es)) (empty_in trees (e :: es)) acc r) as Hcons.
  { intros r1 H1 H2%IH; [|done]. eapply listing_ext; [| |eapply listing_app; [exact Hps| |exact H1|exact H2]].
    - intros. by rewrite file_in_cons.
    - intros. by rewrite empty_in_cons.
    - intros p1 k1 p2 k2 (n1 & q1 & -> & Hn1)%file_in_head (n2 & q2 & -> & Hn2)%file_in_head.
      split_and!; [done|done|]. intros [= -> ->]. apply list_elem_of_singleton in Hn1 as ->. done. }
  destruct e as [name nd]; simpl in *. destruct nd as [[f|]|h|]; try done.
  - intros Hr. eapply Hcons; [|done]. by apply listing_file.
  - case_bool_decide; [done|]. intros (r1 & H1 & Hr)%obind_Ok.
    rewrite full_path_join in H1 by done. eapply Hcons; [|done].
    apply listing_sub; [done|]. apply Hrec; [|by destruct ps|done].
    apply Forall_app; split; [done|]. by constructor.
Qed.

Lemma walkTree_listing n trees h ps acc r :
  Forall valid_name ps →
  walkTree n trees false h (join_slash ps) acc = Ok r →
  listing ps (file_at trees h) (λ p, ps ++ p ≠ [] ∧ empty_at trees h p) acc r.
Proof.
  revert h ps acc r. induction n as [|n IH]; intros h ps acc r Hps; cbn [walkTree]; [done|].
  destruct (trees !! h) as [node|] eqn:Eh; [|done].
  destruct (tree_hash node) as [c|] eqn:Ec; [|done]. case_bool_decide; [|done].
  destruct (names_sorted None (Entries node)) eqn:Hs; cbn [andb negb]; [|done].
  apply names_sorted_NoDup in Hs.
  assert (∀ path k, file_at trees h path k ↔ file_in trees (Entries node) path k) as Hf.
  { intros. rewrite file_at_in. rewrite Eh. naive_solver. }
  assert (∀ path, empty_at trees h path ↔ path = [] ∧ Entries node = [] ∨ empty_in trees (Entries node) path) as Hg.
  { intros. rewrite empty_at_in. rewrite Eh. naive_solver. }
  intros Hr. apply (listing_ext ps (file_in trees (Entries node)) _
    (λ p, ps ++ p ≠ [] ∧ (p = [] ∧ Entries node = [] ∨ empty_in trees (Entries node) p)));
    [intros; symmetry; apply Hf|intros; by rewrite Hg|].
  destruct (Entries node) as [|e es] eqn:Ee.
  - assert (∀ path k, ¬ file_in trees [] path k) as Hnf.
    { by intros ? ? (? & ? & ? & _ & []%elem_of_nil & _). }
    assert (∀ path, ¬ empty_in trees [] path) as Hne.
    { by intros ? (? & ? & ? & _ & []%elem_of_nil & _). }
    assert (∃ ds, r = (∅ ∪ acc.1, acc.2 ++ ds) ∧ ∀ p, p ∈ ds ↔ p = join_slash ps ∧ ps ≠ []) as (ds & -> & Hds).
    { case_bool_decide as E; simplify_eq/=; rewrite map_empty_union.
      - exists []. rewrite app_nil_r. split; [apply surjective_pairing|]. intros p. rewrite elem_of_nil.
        apply join_slash_empty in E; [|done]. naive_solver.
      - exists [join_slash ps]. split; [done|]. intros p. rewrite list_elem_of_singleton.
        split; [|naive_solver]. intros ->. split; [done|]. by intros ->. }
    exists ∅, ds. split_and!; [done| | |].
    + intros p k. rewrite lookup_empty. naive_solver.
    + intros p. rewrite Hds. split.
      * intros [-> Hnil]. exists []. rewrite app_nil_r. auto.
      * intros (path & -> & Hnil & [[-> _]|[]%Hne]). by rewrite app_nil_r in *.
    + intros path [[k []%Hnf]|[_ [[-> _]|[]%Hne]]]. constructor.
  - apply (listing_ext ps (file_in trees (e :: es)) _ (empty_in trees (e :: es))); [done| |
      apply (walk_entries_listing _ (walkTree n trees false)); [done|done| |done]].
    + intros path. split; [|naive_solver]. intros He. split; [|by right].
      destruct He as (name & path' & h' & -> & _). by destruct ps.
    + intros h' qs acc' r' Hqs Hne Hw%IH; [|done].
      apply (listing_ext qs (file_at trees h') _ (λ p, qs ++ p ≠ [] ∧ empty_at trees h' p));
        [done| |done]. intros path. destruct qs; naive_solver.
Qed.

(** ** Acyclic stores *)

(** A store whose directories never contain themselves. *)
Definition acyclic trees : Prop := ∀ d, ¬ tc (child trees) d d.

Lemma walkTree_returns trees skip h prefix acc :
  acyclic trees → walkTree (resolve_fuel trees) trees skip h prefix acc ≠ OutOfFuel.
Proof. intros Hac E. destruct (walkTree_total _ _ _ _ _ E) as (d & _ & Hd). by destruct (Hac d). Qed.

(** A decreasing rank shows a store acyclic; on concrete stores it is checked
    by evaluation. *)
Definition rank_ok trees (rank : string → nat) : bool :=
  forallb (λ kv, forallb (λ e,
    match Node e with
    | TreeEntry_SubtreeHash h => Nat.ltb (rank h) (rank kv.1)
    | _ => true
    end) (Entries kv.2)) (map_to_list trees).

Lemma acyclic_rank trees rank : rank_ok trees rank = true → acyclic trees.
Proof.
  unfold rank_ok. rewrite forallb_forall. intros Hr.
  assert (∀ a b, tc (child trees) a b → rank b < rank a) as Htc; [|intros d Hd%Htc; lia].
  assert (∀ a b, child trees a b → rank b < rank a) as Hc.
  { intros a b (node & e & Ha & He & Hn). specialize (Hr (a, node)).
    rewrite forallb_forall in Hr. specialize (Hr ltac:(by apply list_elem_of_In, elem_of_map_to_list) e).
    rewrite Hn in Hr. apply Nat.ltb_lt, Hr. by apply list_elem_of_In. }
  induction 1 as [a b Hab|a b c Hab Hbc IH]; [by apply Hc|]. apply Hc in Hab. lia.
Qed.

End Resolve.

(** ** An example store

    A root with one file, one empty directory and one directory with a
    file, in the real wire format. *)
Module Example.

Definition leaf1 : FileLeaf := {| leaf_Crc32 := 3421780262; leaf_UncompressedSize := 9 |}.
Definition leaf2 : FileLeaf := {| leaf_Crc32 := 0; leaf_UncompressedSize := 0 |}.
Definition node_empty : TreeNode := {| Entries := [] |}.
Definition node_sub : TreeNode :=
  {| Entries := [{| Name := "c.bin"; Node := TreeEntry_File (Some leaf2) |}] |}.
Definition hash_of (n : TreeNode) : string := sha256_hex (ProtoExample.wire_tree n).
Definition hash_empty : string := "e3b0c44298fc1c149afbf4c8996fb92427ae41e4649b934ca495991b7852b855".
Definition hash_sub : string := "3421d0602873990522815c4a4473b58ece3a2222a447b30932a0ec5b83d56db6".
Definition hash_root : string := "f58aeb16992c3ed71424e92cdcb581b6be1f6309a2436b23a29f9e2ec74c61ff".
Definition node_root : TreeNode :=
  {| Entries := [{| Name := "a.txt"; Node := TreeEntry_File (Some leaf1) |};
                 {| Name := "empty"; Node := TreeEntry_SubtreeHash hash_empty |};
                 {| Name := "sub"; Node := TreeEntry_SubtreeHash hash_sub |}] |}.
Definition trees : gmap string TreeNode :=
  list_to_map [(hash_empty, node_empty); (hash_sub, node_sub); (hash_root, node_root)].
Definition version1 : Version :=
  {| SnowflakeId := 77; BackupTimestamp := Some {| Seconds := 1700000000; Nanos := 0 |};
     RootTreeHash := hash_root; PrecedingVersionId := 0; Label := "v1" |}.
Definition md : BackupMetadata :=
  {| Versions := {[FormatUint 77 := version1]}; Trees := trees; Files := ∅; PublicKeys := ∅;
     SchemaVersion := 2; StoreLabel := None; LastUpdated := None |}.
Definition proto : Proto := ProtoExample.table_proto [md].

Example hashes_ok : (hash_of node_empty, hash_of node_sub, hash_of node_root) = (hash_empty, hash_sub, hash_root).
Proof. vm_compute. reflexivity. Qed.

End Example.

(** ** Properties *)

(** C28. A strict resolution that succeeds computes exactly the listing that
    spec.md section 5 defines: the files of the version's tree under their
    joined paths, and its empty directories; every path component is a valid
    name, so no listed path can escape its directory. *)
Theorem ResolveVersionTree_spec {PR : Proto} (md : BackupMetadata) (versionID : Z) files dirs :
  ResolveVersionTree md versionID false = Ok (files, dirs) →
  ∃ v, Versions md !! FormatUint versionID = Some v ∧
    (∀ p k, files !! p = Some k ↔
       ∃ path, p = join_slash path ∧ file_at (Trees md) (RootTreeHash v) path k) ∧
    (∀ p, p ∈ dirs ↔
       ∃ path, path ≠ [] ∧ p = join_slash path ∧ empty_at (Trees md) (RootTreeHash v) path) ∧
    (∀ path k, file_at (Trees md) (RootTreeHash v) path k → Forall valid_name path).
Proof.
  unfold ResolveVersionTree. destruct (Versions md !! FormatUint versionID) as [v|]; [|done].
  intros Hw. exists v. split; [done|].
  apply (walkTree_listing _ _ _ [] _ _ ltac:(constructor)) in Hw as (m & ds & E & Hm & Hd & Hv).
  simpl in E. rewrite map_union_empty in E. simplify_eq. split_and!; [apply Hm| |eauto].
  intros p. rewrite Hd. simpl. naive_solver.
Qed.

Lemma ResolveVersionTree_spec_witness :
  let PR := Example.proto in
  ∃ v, Versions Example.md !! FormatUint 77 = Some v ∧
    (∀ p k, (list_to_map [("a.txt", "cbf43926_9"); ("sub/c.bin", "00000000_0")] : gmap string string) !! p = Some k ↔
       ∃ path, p = join_slash path ∧ file_at (Trees Example.md) (RootTreeHash v) path k) ∧
    (∀ p, p ∈ ["empty"] ↔
       ∃ path, path ≠ [] ∧ p = join_slash path ∧ empty_at (Trees Example.md) (RootTreeHash v) path) ∧
    (∀ path k, file_at (Trees Example.md) (RootTreeHash v) path k → Forall valid_name path).
Proof.
  intros PR. apply (ResolveVersionTree_spec Example.md 77). vm_compute. reflexivity.
Defined.

(** [SkipValidationErrors] never turns a resolution into a failure: the
    only error left is an unknown version, and whenever strict resolution
    succeeds, skipping mode returns the same listing. *)
Theorem ResolveVersionTree_skip {PR : Proto} (md : BackupMetadata) (versionID : Z) v :
  Versions md !! FormatUint versionID = Some v →
  (∀ e, ResolveVersionTree md versionID true ≠ Err e) ∧
  (∀ r, ResolveVersionTree md versionID false = Ok r → ResolveVersionTree md versionID true = Ok r).
Proof.
  unfold ResolveVersionTree. intros ->. split; [|apply walkTree_strict_skip].
  intros e. by destruct (walkTree_skip (resolve_fuel (Trees md)) (Trees md) (RootTreeHash v) "" (∅, []))
    as [[r ->]| ->].
Qed.

Lemma ResolveVersionTree_skip_witness :
  let PR := Example.proto in
  (∀ e, ResolveVersionTree Example.md 77 true ≠ Err e) ∧
  (∀ r, ResolveVersionTree Example.md 77 false = Ok r → ResolveVersionTree Example.md 77 true = Ok r).
Proof.
  intros PR. apply (ResolveVersionTree_skip Example.md 77 Example.version1). vm_compute. reflexivity.
Defined.

(** C29. Resolution recurses at most once per stored directory on any path:
    it returns a listing or an error for every store in which no directory
    contains itself (a cycle would need a SHA-256 fixed point). *)
Theorem ResolveVersionTree_total {PR : Proto} (md : BackupMetadata) (versionID : Z) (skip : bool) :
  acyclic (Trees md) → ResolveVersionTree md versionID skip ≠ OutOfFuel.
Proof.
  intros Hac. unfold ResolveVersionTree.
  destruct (Versions md !! FormatUint versionID) as [v|]; [|done]. by apply walkTree_returns.
Qed.

Lemma ResolveVersionTree_total_witness :
  let PR := Example.proto in ResolveVersionTree Example.md 77 true ≠ OutOfFuel.
Proof.
  intros PR. apply (ResolveVersionTree_total Example.md 77 true).
  apply (acyclic_rank _ (λ h, if bool_decide (h = Example.hash_root) then 1 else 0)).
  vm_compute. reflexivity.
Defined.
