(* ===== verification/TreeCollect.v ===== *)
(** Correctness of the marking traversal [walkCollect] that garbage
    collection is built on: it always returns, and on success it has marked
    exactly what the given roots reach. *)

From S2P Require Import Prelude Errors GoStrings Keys Digest Metadata TreeWalk TreeResolve.

Section Collect.
Context {PR : Proto}.
Implicit Types (trees : gmap string TreeNode) (live : live_acc).

Definition live_le live live' : Prop := live.1 ⊆ live'.1 ∧ live.2 ⊆ live'.2.

#[local] Instance live_le_preorder : PreOrder live_le.
Proof. split; [by intros l|]. intros l1 l2 l3 [??] [??]. split; set_solver. Qed.

(** An entry whose target is marked. *)
Definition entry_marked (e : TreeEntry) live : Prop :=
  valid_name (Name e) ∧
  match Node e with
  | TreeEntry_File (Some f) => leaf_key f ∈ live.2
  | TreeEntry_SubtreeHash h => h ≠ "" ∧ h ∈ live.1
  | _ => False
  end.

(** A stored directory that the traversal accepts. *)
Definition entry_ok (e : TreeEntry) : Prop :=
  valid_name (Name e) ∧
  match Node e with
  | TreeEntry_File (Some f) => True
  | TreeEntry_SubtreeHash h => h ≠ ""
  | _ => False
  end.
Definition node_ok trees (d : string) : Prop :=
  ∃ node, trees !! d = Some node ∧ tree_hash node = Some d ∧
    names_sorted None (Entries node) = true ∧ Forall entry_ok (Entries node).

(** A stored directory that passed the checks of the traversal and whose
    entries are all marked. *)
Definition node_marked trees (d : string) live : Prop :=
  ∃ node, trees !! d = Some node ∧ tree_hash node = Some d ∧
    names_sorted None (Entries node) = true ∧ Forall (λ e, entry_marked e live) (Entries node).

Lemma entry_marked_mono e live live' : live_le live live' → entry_marked e live → entry_marked e live'.
Proof.
  intros [H1 H2] [Hv H]. split; [done|]. destruct (Node e) as [[f|]|h|]; try done; [by apply H2|].
  destruct H. split; [done|by apply H1].
Qed.

Lemma node_marked_mono trees d live live' :
  live_le live live' → node_marked trees d live → node_marked trees d live'.
Proof.
  intros Hle (node & Hn & Hh & Hs & Hf). exists node. split_and!; [done..|].
  eapply Forall_impl; [done|]. intros e. by apply entry_marked_mono.
Qed.

(** The hashes and keys that a list of entries refers to. *)
Definition reach_in trees (es : list TreeEntry) (d : string) : Prop :=
  ∃ e h, e ∈ es ∧ Node e = TreeEntry_SubtreeHash h ∧ rtc (child trees) h d.
Definition key_in trees (es : list TreeEntry) (k : string) : Prop :=
  (∃ e f, e ∈ es ∧ Node e = TreeEntry_File (Some f) ∧ k = leaf_key f) ∨
  (∃ e h, e ∈ es ∧ Node e = TreeEntry_SubtreeHash h ∧ live_key trees h k).

(** What one traversal step achieves. *)
Definition marks trees (reached keys : string → Prop) live live' : Prop :=
  live_le live live' ∧
  (∀ d, d ∈ live'.1 → d ∈ live.1 ∨ node_marked trees d live' ∧ reached d) ∧
  (∀ k, k ∈ live'.2 → k ∈ live.2 ∨ keys k).

Lemma marks_refl trees R K live : marks trees R K live live.
Proof. split_and!; [done|by left|by left]. Qed.

Lemma marks_trans trees R K live1 live2 live3 :
  marks trees R K live1 live2 → marks trees R K live2 live3 → marks trees R K live1 live3.
Proof.
  intros (H12 & Hd12 & Hk12) (H23 & Hd23 & Hk23). split_and!; [by etrans| |].
  - intros d [Hd|]%Hd23; [|by right]. apply Hd12 in Hd as [|[Hd ?]]; [by left|].
    right. split; [|done]. by eapply node_marked_mono.
  - intros k [Hk|]%Hk23; [|by right]. apply Hk12 in Hk as [|]; auto.
Qed.

Lemma marks_impl trees (R R' K K' : string → Prop) live live' :
  (∀ d, R d → R' d) → (∀ k, K k → K' k) → marks trees R K live live' → marks trees R' K' live live'.
Proof. intros HR HK (H & Hd & Hk). split_and!; [done| |]; intros x Hx; naive_solver. Qed.

Lemma collect_entries_marks trees rec es live live' :
  (∀ h l l', rec h l = Ok l' →
     marks trees (rtc (child trees) h) (live_key trees h) l l' ∧ h ∈ l'.1) →
  collect_entries rec es live = Ok live' →
  marks trees (reach_in trees es) (key_in trees es) live live' ∧
  Forall (λ e, entry_marked e live') es.
Proof.
  intros Hrec. revert live. induction es as [|e es IH]; intros live; simpl.
  { intros [= ->]. split; [apply marks_refl|constructor]. }
  destruct (validateName (Name e)) eqn:Hv; [done|]. apply validateName_valid in Hv.
  assert (∀ l, marks trees (reach_in trees (e :: es)) (key_in trees (e :: es)) live l →
    (∀ l', live_le l l' → entry_marked e l') →
    collect_entries rec es l = Ok live' →
    marks trees (reach_in trees (e :: es)) (key_in trees (e :: es)) live live' ∧
    Forall (λ e, entry_marked e live') (e :: es)) as Hrest.
  { intros l Hl He [Hm Hf]%IH. split.
    - eapply marks_trans; [exact Hl|]. eapply marks_impl; [| |exact Hm].
      + intros d (e' & h & ? & ? & ?). exists e', h. set_solver.
      + intros k [(e' & f & ? & ? & ?)|(e' & h & ? & ? & ?)]; [left; exists e', f|right; exists e', h]; set_solver.
    - constructor; [|done]. apply He. apply Hm. }
  destruct (Node e) as [[f|]|h|] eqn:En; try done.
  - apply Hrest.
    + split_and!; simpl; [split; set_solver|by left|].
      intros k [->%elem_of_singleton|]%elem_of_union; [right; left|by left]. exists e, f. set_solver.
    + intros l' [_ Hk]. split; [done|]. rewrite En. simpl in Hk. set_solver.
  - case_bool_decide as Hh; [done|]. intros (l & [Hm Hin]%Hrec & Hr)%obind_Ok. revert Hr. apply Hrest.
    + eapply marks_impl; [| |exact Hm].
      * intros d Hd. exists e, h. set_solver.
      * intros k Hk. right. exists e, h. set_solver.
    + intros l' [Ht _]. split; [done|]. rewrite En. split; [done|]. set_solver.
Qed.

(** On success every newly marked directory is stored, verified and fully
    marked, and only what the start reaches gets marked. *)
Lemma walkCollect_marks n trees h live live' :
  walkCollect n trees h live = Ok live' →
  marks trees (rtc (child trees) h) (live_key trees h) live live' ∧ h ∈ live'.1.
Proof.
  revert h live live'. induction n as [|n IH]; intros h live live'; cbn [walkCollect]; [done|].
  case_bool_decide as Hin; [intros [= ->]; split; [apply marks_refl|done]|].
  destruct (trees !! h) as [node|] eqn:Eh; [|done].
  destruct (tree_hash node) as [c|] eqn:Ec; [|done]. case_bool_decide; cbn [negb]; [subst c|done].
  destruct (names_sorted None (Entries node)) eqn:Es; cbn [negb]; [|done].
  intros [Hm Hf]%(collect_entries_marks trees); [|by intros; apply IH].
  assert (∀ d, reach_in trees (Entries node) d → rtc (child trees) h d) as Hr.
  { intros d (e & h' & He & Hn & Hd). econstructor; [|done]. by exists node, e. }
  assert (∀ k, key_in trees (Entries node) k → live_key trees h k) as Hk.
  { intros k [(e & f & He & Hn & ->)|(e & h' & He & Hn & d & nd & e' & l & Hd & Hkey)].
    - exists h, node, e, f. split_and!; [done..|]. done.
    - exists d, nd, e', l. split; [|done]. econstructor; [|done]. by exists node, e. }
  destruct Hm as (Hle & Hd & Hks). simpl in Hle, Hd, Hks. split.
  - split_and!.
    + destruct Hle. split; simpl in *; set_solver.
    + intros d Hx. apply Hd in Hx as [[->%elem_of_singleton|?]%elem_of_union|[??]];
        [right|by left|right; auto]. split; [|done]. exists node. split_and!; done.
    + intros k Hx. apply Hks in Hx as [?|?]; [by left|right; auto].
  - destruct Hle as [Hle _]. simpl in Hle. set_solver.
Qed.

(** ** Termination *)

Definition unmarked trees live : nat := size (dom trees ∖ live.1).

Lemma unmarked_mono trees live live' : live.1 ⊆ live'.1 → unmarked trees live' ≤ unmarked trees live.
Proof. intros. apply subseteq_size. set_solver. Qed.

Lemma unmarked_lt trees h live keys :
  h ∈ dom trees → h ∉ live.1 → unmarked trees ({[h]} ∪ live.1, keys) < unmarked trees live.
Proof. intros. apply subset_size. simpl. set_solver. Qed.

Lemma collect_entries_returns trees rec es live b :
  (∀ h l l', rec h l = Ok l' → live_le l l') →
  (∀ h l, unmarked trees l ≤ b → rec h l ≠ OutOfFuel) →
  unmarked trees live ≤ b → collect_entries rec es live ≠ OutOfFuel.
Proof.
  intros Hmono Hrec. revert live. induction es as [|e es IH]; intros live Hb; simpl; [done|].
  destruct (validateName (Name e)); [done|]. destruct (Node e) as [[f|]|h|]; try done; [by apply IH|].
  case_bool_decide; [done|]. specialize (Hrec h live Hb).
  destruct (rec h live) as [l| | |] eqn:E; simpl; try done. apply IH.
  apply Hmono in E as [E _]. apply (unmarked_mono trees) in E. lia.
Qed.

Lemma walkCollect_returns n trees h live :
  unmarked trees live < n → walkCollect n trees h live ≠ OutOfFuel.
Proof.
  revert h live. induction n as [|n IH]; intros h live Hn; [lia|]. cbn [walkCollect].
  case_bool_decide as Hin; [done|]. destruct (trees !! h) as [node|] eqn:Eh; [|done].
  destruct (tree_hash node); [|done]. case_bool_decide; [|done]. cbn [negb].
  destruct (names_sorted None (Entries node)); [|done]. cbn [negb].
  apply elem_of_dom_2 in Eh. pose proof (unmarked_lt trees h live live.2 Eh Hin).
  apply (collect_entries_returns trees _ _ _ (unmarked trees ({[h]} ∪ live.1, live.2))); [| |done].
  - intros h' l l' Hl%walkCollect_marks. apply Hl.
  - intros h' l Hl. apply IH. lia.
Qed.

Lemma collect_roots_returns trees roots live : collect_roots trees roots live ≠ OutOfFuel.
Proof.
  revert live. induction roots as [|h roots IH]; intros live; cbn [collect_roots]; [done|].
  assert (walkCollect (collect_fuel trees) trees h live ≠ OutOfFuel) as Hr.
  { apply walkCollect_returns. unfold unmarked, collect_fuel.
    assert (size (dom trees ∖ live.1) ≤ size (dom trees)) by (apply subseteq_size; set_solver).
    rewrite size_dom in *. lia. }
  destruct (walkCollect _ trees h live); cbn [obind]; [apply IH|done|done|done].
Qed.

(** Marking never panics. *)
Lemma collect_entries_no_panic rec es live :
  (∀ h l, rec h l ≠ Panic) → collect_entries rec es live ≠ Panic.
Proof.
  intros Hrec. revert live. induction es as [|e es IH]; intros live; simpl; [done|].
  destruct (validateName (Name e)); [done|]. destruct (Node e) as [[f|]|h|]; try done.
  case_bool_decide; [done|]. specialize (Hrec h live). by destruct (rec h live); simpl.
Qed.

Lemma walkCollect_no_panic n trees h live : walkCollect n trees h live ≠ Panic.
Proof.
  revert h live. induction n as [|n IH]; intros h live; cbn [walkCollect]; [done|].
  case_bool_decide; [done|]. destruct (trees !! h) as [node|]; [|done].
  destruct (tree_hash node); [|done]. case_bool_decide; [|done]. cbn [negb].
  destruct (names_sorted None (Entries node)); [|done]. by apply collect_entries_no_panic.
Qed.

Lemma collect_roots_no_panic trees roots live : collect_roots trees roots live ≠ Panic.
Proof.
  revert live. induction roots as [|h roots IH]; intros live; cbn [collect_roots]; [done|].
  pose proof (walkCollect_no_panic (collect_fuel trees) trees h live).
  by destruct (walkCollect _ trees h live); cbn [obind].
Qed.

(** ** Exactness *)

Lemma collect_roots_marks trees roots live live' :
  collect_roots trees roots live = Ok live' →
  marks trees (λ d, ∃ r, r ∈ roots ∧ rtc (child trees) r d)
              (λ k, ∃ r, r ∈ roots ∧ live_key trees r k) live live' ∧
  (∀ r, r ∈ roots → r ∈ live'.1).
Proof.
  revert live. induction roots as [|h roots IH]; intros live; cbn [collect_roots].
  { intros [= ->]. split; [apply marks_refl|by intros ? []%elem_of_nil]. }
  intros (l & [Hm Hin]%walkCollect_marks & [Hms Hins]%IH)%obind_Ok. split.
  - eapply marks_trans; (eapply marks_impl; [| |done]); set_solver.
  - intros r [->|]%elem_of_cons; [|auto]. destruct Hms as [[Ht _] _]. set_solver.
Qed.

(** What the traversal of all versions has established. *)
Record collected trees (roots : list string) live : Prop := {
  collected_trees : ∀ d, d ∈ live.1 ↔ ∃ r, r ∈ roots ∧ rtc (child trees) r d;
  collected_keys : ∀ k, k ∈ live.2 ↔ ∃ r, r ∈ roots ∧ live_key trees r k;
  collected_marked : ∀ d, d ∈ live.1 → node_marked trees d live;
}.

Lemma collect_roots_collected trees roots live :
  collect_roots trees roots (∅, ∅) = Ok live → collected trees roots live.
Proof.
  intros [(_ & Hd & Hk) Hr]%collect_roots_marks. simpl in *.
  assert (∀ d, d ∈ live.1 → node_marked trees d live) as Hm.
  { intros d [[]%not_elem_of_empty|[? _]]%Hd. done. }
  assert (∀ r d, rtc (child trees) r d → r ∈ live.1 → d ∈ live.1) as Hclosed.
  { induction 1 as [|x y z (node & e & Hx & He & Hn) _ IH]; [done|]. intros Hxl. apply IH.
    destruct (Hm _ Hxl) as (node' & Hx' & _ & _ & Hf). simplify_eq.
    rewrite Forall_forall in Hf. apply Hf in He as [_ He]. rewrite Hn in He. apply He. }
  split; [| |done].
  - intros d. split; [intros [[]%not_elem_of_empty|[_ ?]]%Hd; done|].
    intros (r & Hin & Hrd). eapply Hclosed; [done|auto].
  - intros k. split; [intros [[]%not_elem_of_empty|?]%Hk; done|].
    intros (r & Hin & d & node & e & l & Hrd & Hnd & He & Hn & ->).
    apply Hr in Hin. apply (Hclosed _ _ Hrd) in Hin. destruct (Hm _ Hin) as (node' & Hx' & _ & _ & Hf).
    simplify_eq. rewrite Forall_forall in Hf. apply Hf in He as [_ He]. by rewrite Hn in He.
Qed.

(** ** Completeness *)

Lemma collect_entries_ok rec es live :
  Forall entry_ok es →
  (∀ e h l, e ∈ es → Node e = TreeEntry_SubtreeHash h → (∃ r, rec h l = Ok r) ∨ rec h l = OutOfFuel) →
  (∃ r, collect_entries rec es live = Ok r) ∨ collect_entries rec es live = OutOfFuel.
Proof.
  revert live. induction es as [|e es IH]; intros live Hok Hrec; simpl; [eauto|].
  apply Forall_cons in Hok as [[Hv He] Hok]. rewrite (proj2 (validateName_valid _) Hv).
  assert (∀ l, (∃ r, collect_entries rec es l = Ok r) ∨ collect_entries rec es l = OutOfFuel) as Hrest.
  { intros l. apply IH; [done|]. intros e' h l' Hin. apply Hrec. by right. }
  destruct (Node e) as [[f|]|h|] eqn:En; try done.
  rewrite bool_decide_false by done.
  destruct (Hrec e h live ltac:(by left) En) as [[r ->]| ->]; simpl; [done|by right].
Qed.

Lemma walkCollect_ok n trees h live :
  (∀ d, rtc (child trees) h d → node_ok trees d) →
  (∃ r, walkCollect n trees h live = Ok r) ∨ walkCollect n trees h live = OutOfFuel.
Proof.
  revert h live. induction n as [|n IH]; intros h live Hok; cbn [walkCollect]; [by right|].
  case_bool_decide; [eauto|].
  destruct (Hok h ltac:(done)) as (node & Hn & Hh & Hs & Hf). rewrite Hn, Hh, Hs, bool_decide_true by done.
  cbn [negb]. apply collect_entries_ok; [done|]. intros e h' l He Hne. apply IH. intros d Hd.
  apply Hok. econstructor; [|done]. by exists node, e.
Qed.

Lemma collect_roots_ok trees roots live :
  (∀ r d, r ∈ roots → rtc (child trees) r d → node_ok trees d) →
  ∃ r, collect_roots trees roots live = Ok r.
Proof.
  intros Hok. destruct (collect_roots trees roots live) eqn:E; [eauto| | |by apply collect_roots_returns in E];
  revert live E; induction roots as [|h roots IH]; intros live; cbn [collect_roots]; try done;
    (destruct (walkCollect_ok (collect_fuel trees) trees h live) as [[r ->]| ->];
      [intros d; apply Hok; by left| |done]); cbn [obind];
    apply IH; intros r' d' Hr'; apply Hok; by right.
Qed.

Lemma node_marked_ok trees d live : node_marked trees d live → node_ok trees d.
Proof.
  intros (node & ? & ? & ? & Hf). exists node. split_and!; [done..|].
  eapply Forall_impl; [done|]. intros e [Hv He]. split; [done|]. destruct (Node e) as [[]| |]; naive_solver.
Qed.

(** ** Resolution reads only what is reachable *)

Lemma walk_entries_ext rec rec' skip skip' prefix es acc :
  skip = skip' ∨ Forall entry_ok es →
  (∀ e h p a, e ∈ es → Node e = TreeEntry_SubtreeHash h → rec h p a = rec' h p a) →
  walk_entries rec skip prefix es acc = walk_entries rec' skip' prefix es acc.
Proof.
  revert acc. induction es as [|e es IH]; intros acc Hok Hrec; simpl; [done|].
  assert (∀ acc, walk_entries rec skip prefix es acc = walk_entries rec' skip' prefix es acc) as Hrest.
  { intros a. apply IH; [|intros; eapply Hrec; [by right|done]].
    destruct Hok as [|[_ ?]%Forall_cons]; auto. }
  assert (skip = skip' ∨ entry_ok e) as [->|[Hv Hn]] by (destruct Hok as [|[? _]%Forall_cons]; auto).
  - destruct (validateName (Name e)); [by rewrite Hrest|].
    destruct (Node e) as [[f|]|h|] eqn:En; unfold corrupt; rewrite ?Hrest; try done.
    case_bool_decide; [done|]. rewrite (Hrec e) by (done || by left).
    destruct (rec' h _ acc); simpl; auto.
  - rewrite (proj2 (validateName_valid _) Hv). destruct (Node e) as [[f|]|h|] eqn:En; try done.
    rewrite bool_decide_false by done. rewrite (Hrec e) by (done || by left).
    destruct (rec' h _ acc); simpl; auto.
Qed.

Lemma walkTree_agree n trees trees' skip h prefix acc :
  (∀ d, rtc (child trees) h d → trees' !! d = trees !! d) →
  walkTree n trees' skip h prefix acc = walkTree n trees skip h prefix acc.
Proof.
  revert h prefix acc. induction n as [|n IH]; intros h prefix acc Hag; cbn [walkTree]; [done|].
  rewrite (Hag h) by done. destruct (trees !! h) as [node|] eqn:Eh; [|done].
  destruct (tree_hash node); [|done]. case_bool_decide; cbn [negb]; [|done].
  destruct (negb skip && _); [done|]. destruct (Entries node) as [|e0 es] eqn:Ee; [done|].
  apply walk_entries_ext; [by left|]. intros e h' p a He Hn. apply IH. intros d Hd. apply Hag.
  econstructor; [|done]. exists node, e. by rewrite Ee.
Qed.

Lemma walkTree_skip_eq n trees h prefix acc :
  (∀ d, rtc (child trees) h d → node_ok trees d) →
  walkTree n trees true h prefix acc = walkTree n trees false h prefix acc.
Proof.
  revert h prefix acc. induction n as [|n IH]; intros h prefix acc Hok; cbn [walkTree]; [done|].
  destruct (Hok h ltac:(done)) as (node & Eh & Hh & Hs & Hf). rewrite Eh, Hh, Hs, bool_decide_true by done.
  cbn [negb andb]. destruct (Entries node) as [|e0 es] eqn:Ee; [done|].
  apply walk_entries_ext; [by right|]. intros e h' p a He Hn. apply IH. intros d Hd. apply Hok.
  econstructor; [|done]. exists node, e. by rewrite Ee.
Qed.

Lemma walk_entries_visits rec prefix es acc r e h :
  walk_entries rec false prefix es acc = Ok r → e ∈ es → Node e = TreeEntry_SubtreeHash h →
  ∃ p a b, rec h p a = Ok b.
Proof.
  revert acc. induction es as [|e' es IH]; intros acc; simpl; [by intros _ []%elem_of_nil|].
  destruct (validateName (Name e')); [done|]. intros Hr [->|He]%elem_of_cons Hn.
  - rewrite Hn in Hr. case_bool_decide; [done|]. apply obind_Ok in Hr as (? & ? & _). eauto.
  - destruct (Node e') as [[f|]|h'|]; try done; [by eapply IH|]. case_bool_decide; [done|].
    apply obind_Ok in Hr as (? & _ & ?). by eapply IH.
Qed.

Lemma walkTree_chain n trees h prefix acc r l h' :
  walkTree n trees false h prefix acc = Ok r → chain (child trees) l h h' → length l < S n.
Proof.
  revert h prefix acc r l. induction n as [|n IH]; intros h prefix acc r l; cbn [walkTree]; [done|].
  intros Hw Hc. inversion Hc as [|? y ? ? (node & e & Hn & He & Hne) Hc']; subst; simpl; [lia|].
  rewrite Hn in Hw. destruct (tree_hash node); [|done]. case_bool_decide; [|done]. cbn [negb andb] in Hw.
  destruct (negb (names_sorted None (Entries node))); [done|].
  destruct (Entries node) as [|e0 es] eqn:Ee; [by apply elem_of_nil in He|].
  destruct (walk_entries_visits _ _ _ _ _ _ _ Hw He Hne) as (p & a & b & Hr).
  apply (IH _ _ _ _ _ Hr) in Hc'. lia.
Qed.

(** A strict walk has checked the hash of everything it reached. *)
Lemma walkTree_hashed n trees h prefix acc r d :
  walkTree n trees false h prefix acc = Ok r → rtc (child trees) h d →
  ∃ node, trees !! d = Some node ∧ tree_hash node = Some d.
Proof.
  revert h prefix acc r. induction n as [|n IH]; intros h prefix acc r; cbn [walkTree]; [done|].
  destruct (trees !! h) as [node|] eqn:Eh; [|done]. destruct (tree_hash node) as [h'|] eqn:Et; [|done].
  case_bool_decide; [subst h'|done]. cbn [negb andb]. destruct (negb (names_sorted None (Entries node))); [done|].
  intros Hw [->|(y & (node' & e & Hn & He & Hne) & Hr)]%rtc_inv; [eauto|]. simplify_eq.
  destruct (Entries node) as [|e0 es] eqn:Ee; [by apply elem_of_nil in He|].
  destruct (walk_entries_visits _ _ _ _ _ _ _ Hw He Hne) as (p & a & b & Hb). by eapply IH.
Qed.

Lemma rtc_chain (R : relation string) x y : rtc R x y → ∃ l, chain R l x y.
Proof. induction 1 as [|x y z ? _ [l ?]]; [by exists []; constructor|]. exists (x :: l). by econstructor. Qed.

Lemma chain_app (R : relation string) l1 l2 x y z :
  chain R l1 x y → chain R l2 y z → chain R (l1 ++ l2) x z.
Proof. induction 1; simpl; [done|]. intros. econstructor; eauto. Qed.

Lemma cycle_chain (R : relation string) x d n :
  rtc R x d → tc R d d → ∃ l, chain R l x d ∧ n ≤ length l.
Proof.
  intros [l0 Hl0]%rtc_chain Hc. assert (∃ lc, chain R lc d d ∧ 0 < length lc) as (lc & Hlc & Hpos).
  { inversion Hc as [? ? ?|? y ? ? Hyd]; subst.
    - exists [d]. split; [econstructor; [done|constructor]|simpl; lia].
    - apply tc_rtc, rtc_chain in Hyd as [l ?]. exists (d :: l). split; [by econstructor|simpl; lia]. }
  induction n as [|n (l & Hl & Hn)]; [exists l0; split; [done|lia]|].
  exists (l ++ lc). split; [by eapply chain_app|]. rewrite length_app. lia.
Qed.

(** Two stores that agree on what [h] reaches resolve it alike, each with its
    own fuel. *)
Lemma walkTree_transfer trees trees' skip h r :
  (∀ d, rtc (child trees) h d → trees' !! d = trees !! d) →
  (skip = true → ∀ d, rtc (child trees) h d → node_ok trees d) →
  walkTree (resolve_fuel trees) trees skip h "" (∅, []) = Ok r →
  walkTree (resolve_fuel trees') trees' skip h "" (∅, []) = Ok r.
Proof.
  intros Hag Hok Hw.
  assert (walkTree (resolve_fuel trees') trees' skip h "" (∅, []) ≠ OutOfFuel) as Hne.
  { intros (d & Hd & Hc)%walkTree_total.
    assert (∀ a b, rtc (child trees') a b → rtc (child trees) h a → rtc (child trees) h b) as Hr.
    { induction 1 as [|a b c (node & e & Ha & He & Hn) _ IH]; [done|]. intros Hha. apply IH.
      eapply rtc_r; [done|]. exists node, e. by rewrite <- Hag. }
    assert (∀ a b, tc (child trees') a b → rtc (child trees) h a → tc (child trees) a b) as Ht.
    { induction 1 as [a b (node & e & Ha & He & Hn)|a b c (node & e & Ha & He & Hn) _ IH]; intros Hha.
      - apply tc_once. exists node, e. by rewrite <- Hag.
      - assert (child trees a b) by (exists node, e; by rewrite <- Hag).
        eapply tc_l; [done|]. apply IH. by eapply rtc_r. }
    pose proof (Hr _ _ Hd ltac:(done)) as Hd'. apply Ht in Hc; [|done].
    destruct (cycle_chain _ h d (S (resolve_fuel trees)) Hd' Hc) as (l & Hl & Hlen).
    assert (walkTree (resolve_fuel trees) trees false h "" (∅, []) = Ok r) as Hwf.
    { destruct skip; [|done]. by rewrite <- walkTree_skip_eq by auto. }
    apply (walkTree_chain _ _ _ _ _ _ _ _ Hwf) in Hl. lia. }
  rewrite (walkTree_agree _ trees) in Hne |- * by done.
  set (n := resolve_fuel trees) in *. set (n' := resolve_fuel trees') in *.
  rewrite <- (walkTree_mono n' (n `max` n')) by (done || lia).
  rewrite (walkTree_mono n (n `max` n')); [done|lia|by rewrite Hw].
Qed.

End Collect.

(** ** Properties *)

(** The marking phase of [DeleteVersion] and [GC] returns on every store,
    cyclic ones included: a visited directory is not entered again. *)
Theorem walkCollect_total {PR : Proto} (trees : gmap string TreeNode) (roots : list string) live :
  collect_roots trees roots live ≠ OutOfFuel.
Proof. apply collect_roots_returns. Qed.

(** Marking succeeds exactly when everything reachable from the versions'
    roots is stored, hashes to its key, is sorted and has valid entries; it
    then marks exactly the reachable directories and the keys of their
    files, no more (nothing orphaned survives) and no less (nothing live is
    collected). *)
Theorem walkCollect_exact {PR : Proto} (trees : gmap string TreeNode) (roots : list string) :
  ((∃ live, collect_roots trees roots (∅, ∅) = Ok live) ↔
     ∀ r d, r ∈ roots → rtc (child trees) r d → node_ok trees d) ∧
  (∀ live, collect_roots trees roots (∅, ∅) = Ok live →
     (∀ d, d ∈ live.1 ↔ ∃ r, r ∈ roots ∧ rtc (child trees) r d) ∧
     (∀ k, k ∈ live.2 ↔ ∃ r, r ∈ roots ∧ live_key trees r k)).
Proof.
  split; [split; [|apply collect_roots_ok]|].
  - intros [live [Ht _ Hm]%collect_roots_collected] r d Hr Hd.
    eapply node_marked_ok, Hm, Ht. eauto.
  - by intros live [Ht Hk _]%collect_roots_collected.
Qed.
