(* ===== verification/TreeBuild.v ===== *)
(** Building the content-addressed tree of a new version: [tempDirNode],
    [buildAndHash] and the tree-construction phase of [RunBackup]
    ([tsync/backup.go]).

    The Go maps of a [tempDirNode] are association lists here, in the order
    a [range] over them happens to visit; the theorems show that no result
    depends on that order. *)

From S2P Require Import Prelude Errors GoStrings Keys Digest Metadata TreeWalk.

Set Warnings "-register-all".

(** ** Association lists *)

Fixpoint assoc {A} (k : string) (l : list (string * A)) : option A :=
  match l with
  | [] => None
  | (k', a) :: l => if bool_decide (k = k') then Some a else assoc k l
  end.

Fixpoint assoc_set {A} (k : string) (a : A) (l : list (string * A)) : list (string * A) :=
  match l with
  | [] => [(k, a)]
  | (k', a') :: l => if bool_decide (k = k') then (k, a) :: l else (k', a') :: assoc_set k a l
  end.

(** ** Definitions *)

(** [tempDirNode]. *)
Inductive tempDirNode := TempDir {
  files : list (string * FileLeaf);
  subdirs : list (string * tempDirNode);
}.

(** [newTempDirNode]. *)
Definition newTempDirNode : tempDirNode := TempDir [] [].

Definition file_entry (f : string * FileLeaf) : TreeEntry :=
  {| Name := f.1; Node := TreeEntry_File (Some f.2) |}.
Definition subtree_entry (name hash : string) : TreeEntry :=
  {| Name := name; Node := TreeEntry_SubtreeHash hash |}.

(** The order of [sort.Slice]: raw bytes of the names. *)
Definition entry_le (e1 e2 : TreeEntry) : Prop := str_leb (Name e1) (Name e2) = true.
#[export] Instance entry_le_dec e1 e2 : Decision (entry_le e1 e2).
Proof. unfold entry_le. apply _. Defined.

Section Build.
Context {PR : Proto}.

(** [buildAndHash]: the hash of the directory, and [trees] extended with it
    and everything below it. *)
Fixpoint buildAndHash (n : tempDirNode) (trees : gmap string TreeNode)
    : res (string * gmap string TreeNode) :=
  let! subs :=
    (fix go (l : list (string * tempDirNode)) trees : res (list TreeEntry * gmap string TreeNode) :=
      match l with
      | [] => Ok ([], trees)
      | (name, subdirNode) :: l =>
          let! sub := buildAndHash subdirNode trees in
          let! rest := go l sub.2 in
          Ok (subtree_entry name sub.1 :: rest.1, rest.2)
      end) (subdirs n) trees in
  let treeNode := {| Entries := merge_sort entry_le ((file_entry <$> files n) ++ subs.1) |} in
  match marshal_tree treeNode with
  | None => Err (ELeaf "failed to marshal tree node" false)
  | Some marshaled =>
      let hashHex := sha256_hex marshaled in
      Ok (hashHex, <[hashHex := treeNode]> subs.2)
  end.

(** Adding one directory path: missing directories are created on the way. *)
Fixpoint add_dir (parts : list string) (curr : tempDirNode) : tempDirNode :=
  match parts with
  | [] => curr
  | part :: parts =>
      let subdir := default newTempDirNode (assoc part (subdirs curr)) in
      TempDir (files curr) (assoc_set part (add_dir parts subdir) (subdirs curr))
  end.

(** Adding one file. *)
Fixpoint add_file (parts : list string) (leaf : FileLeaf) (curr : tempDirNode) : res tempDirNode :=
  match parts with
  | [] => Ok curr
  | [part] =>
      match assoc part (subdirs curr) with
      | Some _ => Err (wrap1 ErrPathCollision part)
      | None => Ok (TempDir (assoc_set part leaf (files curr)) (subdirs curr))
      end
  | part :: parts =>
      match assoc part (files curr) with
      | Some _ => Err (wrap1 ErrPathCollision part)
      | None =>
          let subdir := default newTempDirNode (assoc part (subdirs curr)) in
          let! subdir := add_file parts leaf subdir in
          Ok (TempDir (files curr) (assoc_set part subdir (subdirs curr)))
      end
  end.

(** The loop over [dirPaths]. *)
Definition add_dirs (dirPaths : list (string * bool)) (root : tempDirNode) : tempDirNode :=
  fold_left (λ root kv, if bool_decide (kv.1 = "") then root
                        else add_dir (Split kv.1 slash) root) dirPaths root.

Definition leaf_of (rec : FileRecord) : FileLeaf :=
  {| leaf_Crc32 := Crc32 rec; leaf_UncompressedSize := UncompressedSize rec |}.

(** The loop over [newPathToFileKey]; a key without a record is a nil
    dereference. *)
Fixpoint add_files (newPathToFileKey : list (string * string)) (newFilesPool : gmap string FileRecord)
    (root : tempDirNode) : res tempDirNode :=
  match newPathToFileKey with
  | [] => Ok root
  | (p, fileKey) :: rest =>
      match newFilesPool !! fileKey with
      | None => Panic
      | Some rec =>
          let! root := add_file (Split p slash) (leaf_of rec) root in
          add_files rest newFilesPool root
      end
  end.

(** Tree construction of [RunBackup]: [rootNode] after both loops, then the
    root hash and [newTreesMap]. *)
Definition tempTree {MR : MapRange} (dirPaths : gmap string bool)
    (newPathToFileKey : gmap string string) (newFilesPool : gmap string FileRecord)
    : res tempDirNode :=
  add_files (range newPathToFileKey) newFilesPool (add_dirs (range dirPaths) newTempDirNode).

Definition buildTree {MR : MapRange} (dirPaths : gmap string bool)
    (newPathToFileKey : gmap string string) (newFilesPool : gmap string FileRecord)
    : res (string * gmap string TreeNode) :=
  let! rootNode := tempTree dirPaths newPathToFileKey newFilesPool in
  buildAndHash rootNode ∅.

End Build.

(** What lies at a path of a temporary tree. *)
Fixpoint find_dir (path : list string) (n : tempDirNode) : option tempDirNode :=
  match path with
  | [] => Some n
  | p :: path => match assoc p (subdirs n) with Some s => find_dir path s | None => None end
  end.
Fixpoint find_file (path : list string) (n : tempDirNode) : option FileLeaf :=
  match path with
  | [] => None
  | [p] => assoc p (files n)
  | p :: path => match assoc p (subdirs n) with Some s => find_file path s | None => None end
  end.

(** ** Association lists: lemmas *)

Lemma assoc_set_lookup {A} k k' (a : A) l :
  assoc k (assoc_set k' a l) = if bool_decide (k = k') then Some a else assoc k l.
Proof.
  induction l as [|[j b] l IH]; simpl; [done|].
  destruct (decide (k' = j)) as [->|Hj].
  - rewrite bool_decide_true by done. simpl. by case_bool_decide.
  - rewrite (bool_decide_false (k' = j)) by done. simpl. rewrite IH.
    repeat case_bool_decide; congruence.
Qed.

Lemma assoc_Some {A} k (l : list (string * A)) : is_Some (assoc k l) ↔ k ∈ l.*1.
Proof.
  induction l as [|[j b] l IH]; simpl; [rewrite elem_of_nil; split; [by intros []|done]|].
  rewrite elem_of_cons, <- IH. case_bool_decide; naive_solver.
Qed.

Lemma assoc_elem {A} k (a : A) l : NoDup l.*1 → assoc k l = Some a ↔ (k, a) ∈ l.
Proof.
  induction l as [|[j b] l IH]; simpl; [by rewrite elem_of_nil|].
  rewrite NoDup_cons. intros [Hj Hnd]. rewrite elem_of_cons. case_bool_decide as E.
  - subst j. split; [intros [= ->]; by left|]. intros [[= ->]|Hin]; [done|].
    destruct Hj. apply list_elem_of_fmap. by exists (k, a).
  - rewrite IH by done. naive_solver.
Qed.

Lemma assoc_in {A} k (a : A) l : assoc k l = Some a → (k, a) ∈ l.
Proof. induction l as [|[j b] l IH]; simpl; [done|]. case_bool_decide; intros; simplify_eq; set_solver. Qed.

Lemma assoc_set_keys {A} k (a : A) l j : j ∈ (assoc_set k a l).*1 ↔ j = k ∨ j ∈ l.*1.
Proof. rewrite <- !assoc_Some, assoc_set_lookup. case_bool_decide; naive_solver. Qed.

Lemma assoc_set_NoDup {A} k (a : A) l : NoDup l.*1 → NoDup (assoc_set k a l).*1.
Proof.
  induction l as [|[j b] l IH]; simpl; intros Hnd; [constructor; [set_solver|done]|].
  case_bool_decide as E; simpl; [by subst|].
  apply NoDup_cons in Hnd as [Hj Hnd]. constructor; [|auto]. rewrite assoc_set_keys. naive_solver.
Qed.

(** Two duplicate-free lists with the same lookups are permutations. *)
Lemma assoc_perm {A} (l k : list (string * A)) :
  NoDup l.*1 → NoDup k.*1 → (∀ x, assoc x l = assoc x k) → l ≡ₚ k.
Proof.
  intros Hl Hk H. apply NoDup_Permutation; [by eapply NoDup_fmap_1|by eapply NoDup_fmap_1|].
  intros [x a]. by rewrite <- !assoc_elem, H.
Qed.

(** ** Lookups after insertions *)

Lemma find_dir_app ps qs n :
  find_dir (ps ++ qs) n = match find_dir ps n with Some s => find_dir qs s | None => None end.
Proof. revert n. induction ps as [|p ps IH]; intros n; simpl; [done|]. by destruct (assoc p (subdirs n)). Qed.

Lemma find_file_empty path : find_file path newTempDirNode = None.
Proof. by destruct path as [|p [|]]. Qed.

Lemma find_dir_empty path : is_Some (find_dir path newTempDirNode) ↔ path = [].
Proof. destruct path as [|p ps]; simpl; [naive_solver|]. split; [by intros []|done]. Qed.

Lemma find_file_cons p path n :
  path ≠ [] → find_file (p :: path) n =
    match assoc p (subdirs n) with Some s => find_file path s | None => None end.
Proof. by destruct path. Qed.

(** Replacing one subdirectory. *)
Lemma find_file_set p s n q :
  (∀ q, q ≠ [] → find_file q s = find_file q (default newTempDirNode (assoc p (subdirs n)))) →
  find_file q (TempDir (files n) (assoc_set p s (subdirs n))) = find_file q n.
Proof.
  intros Hs. destruct q as [|x [|y q]]; [done..|]. rewrite !find_file_cons by done. simpl subdirs.
  rewrite assoc_set_lookup. case_bool_decide; [|done]. subst x. rewrite Hs by done.
  destruct (assoc p (subdirs n)); [done|]. apply find_file_empty.
Qed.

Lemma find_dir_default p ps n :
  is_Some (find_dir (p :: ps) n) ↔
    is_Some (assoc p (subdirs n)) ∧ is_Some (find_dir ps (default newTempDirNode (assoc p (subdirs n)))).
Proof. simpl. destruct (assoc p (subdirs n)); simpl; split; naive_solver. Qed.

Lemma add_dir_find_file path n q : find_file q (add_dir path n) = find_file q n.
Proof.
  revert n q. induction path as [|p path IH]; intros n q; simpl; [done|].
  apply find_file_set. intros; apply IH.
Qed.

Lemma add_dir_find_dir path n q :
  is_Some (find_dir q (add_dir path n)) ↔ is_Some (find_dir q n) ∨ q `prefix_of` path.
Proof.
  revert n q. induction path as [|p path IH]; intros n q; cbn [add_dir].
  { split; [by left|]. intros [|Hq%prefix_nil_inv]; [done|]. by subst. }
  destruct q as [|x q]; [simpl; split; [by left|eauto]|].
  cbn [find_dir subdirs]. rewrite assoc_set_lookup. case_bool_decide as E.
  - subst x. rewrite IH. split.
    + intros [Hd|Hq]; [|by right; apply prefix_cons].
      destruct (assoc p (subdirs n)) as [s|] eqn:Es; simpl in Hd; [by left|].
      apply find_dir_empty in Hd as ->. right. apply prefix_cons, prefix_nil.
    + intros [Hd|Hq%prefix_cons_inv_2]; [left|by right].
      destruct (assoc p (subdirs n)); simpl; [done|by destruct Hd].
  - split; [by left|]. intros [|Hq%prefix_cons_inv_1]; [done|]. by subst.
Qed.

(** [path] collides: a directory has its name, or it runs through a file. *)
Definition collides (path : list string) (n : tempDirNode) : Prop :=
  is_Some (find_dir path n) ∨ ∃ q, q `prefix_of` path ∧ q ≠ path ∧ is_Some (find_file q n).

(** What adding a file at [path] does to the tree. *)
Definition added_file (path : list string) (leaf : FileLeaf) (n n' : tempDirNode) : Prop :=
  (∀ q, find_file q n' = if bool_decide (q = path) then Some leaf else find_file q n) ∧
  (∀ q, is_Some (find_dir q n') ↔ is_Some (find_dir q n) ∨ q `prefix_of` path ∧ q ≠ path).

(** A file beside the others of a directory. *)
Lemma add_leaf_spec p leaf n :
  match add_file [p] leaf n with
  | Ok n' => ¬ collides [p] n ∧ added_file [p] leaf n n'
  | Err e => errors_Is e ErrPathCollision = true ∧ collides [p] n
  | _ => False
  end.
Proof.
  assert (∀ x q, x :: q `prefix_of` [p] → x = p ∧ q = []) as Hone.
  { intros x q H. pose proof (prefix_cons_inv_1 _ _ _ _ H) as ->. by apply prefix_cons_inv_2, prefix_nil_inv in H as ->. }
  cbn [add_file]. destruct (assoc p (subdirs n)) as [s|] eqn:Es.
  { split; [by rewrite errors_Is_wrap1|]. left. simpl. by rewrite Es. }
  split; [|split].
  - intros [Hd|(q & Hq & Hne & Hf)]; [simpl in Hd; rewrite Es in Hd; by destruct Hd|].
    destruct q as [|x q]; [by destruct Hf|]. by apply Hone in Hq as [-> ->].
  - intros q. destruct q as [|x [|y q]]; [done| |].
    + simpl. rewrite assoc_set_lookup. repeat case_bool_decide; congruence.
    + rewrite bool_decide_false by done. by rewrite !find_file_cons.
  - intros q. destruct q as [|x q]; [simpl; split; [eauto|done]|]. simpl. split; [by left|].
    intros [|[Hq Hne]]; [done|]. by apply Hone in Hq as [-> ->].
Qed.

(** Below a directory that may be missing. *)
Section Below.
Context (p : string) (n : tempDirNode) (Ef : assoc p (files n) = None).
Abbreviation below := (default newTempDirNode (assoc p (subdirs n))).

Lemma find_file_below q : q ≠ [] → find_file (p :: q) n = find_file q below.
Proof.
  intros Hq. rewrite find_file_cons by done. destruct (assoc p (subdirs n)); [done|]. symmetry. apply find_file_empty.
Qed.

Lemma collides_below path : path ≠ [] → collides (p :: path) n ↔ collides path below.
Proof using Ef.
  intros Hnil. split.
  - intros [Hd|(q & Hq & Hne & Hf)]; [left; by apply find_dir_default in Hd as [_ ?]|].
    destruct q as [|x q]; [by destruct Hf|]. pose proof (prefix_cons_inv_1 _ _ _ _ Hq) as ->. apply prefix_cons_inv_2 in Hq.
    destruct (decide (q = [])) as [->|Hqn]; [simpl in Hf; rewrite Ef in Hf; by destruct Hf|].
    right. exists q. rewrite find_file_below in Hf by done. split_and!; [done|congruence|done].
  - intros [Hd|(q & Hq & Hne & Hf)].
    + left. apply find_dir_default. split; [|done]. destruct (assoc p (subdirs n)); [done|]. by apply find_dir_empty in Hd.
    + right. exists (p :: q). split_and!; [by apply prefix_cons|congruence|]. rewrite find_file_below; [done|]. intros ->. by destruct Hf.
Qed.

Lemma added_below path leaf s' : added_file path leaf below s' →
  added_file (p :: path) leaf n (TempDir (files n) (assoc_set p s' (subdirs n))).
Proof.
  intros [Hf Hd]. split.
  - intros q. destruct q as [|x q]; [done|]. destruct (decide (q = [])) as [->|Hq].
    { simpl. destruct path as [|y path]; [|by rewrite bool_decide_false]. specialize (Hf []). done. }
    rewrite find_file_cons by done. cbn [subdirs]. rewrite assoc_set_lookup. case_bool_decide as E.
    + subst x. rewrite Hf, find_file_below by done. repeat case_bool_decide; congruence.
    + rewrite (bool_decide_false (x :: q = _)) by congruence. by rewrite find_file_cons.
  - intros q. destruct q as [|x q]; [simpl; split; [eauto|eauto]|].
    cbn [find_dir subdirs]. rewrite assoc_set_lookup. case_bool_decide as E.
    + subst x. rewrite Hd. split.
      * intros [Hs|[Hq Hne]]; [|right; split; [by apply prefix_cons|congruence]].
        destruct (assoc p (subdirs n)); simpl in Hs; [by left|].
        apply find_dir_empty in Hs as ->. right. split; [apply prefix_cons, prefix_nil|].
        intros [= <-]. specialize (Hf []). by rewrite bool_decide_true in Hf.
      * intros [Hs|[Hq%prefix_cons_inv_2 Hne]]; [left|right; split; [done|congruence]].
        destruct (assoc p (subdirs n)); simpl; [done|by destruct Hs].
    + split; [by left|]. intros [|[Hq%prefix_cons_inv_1 _]]; [done|congruence].
Qed.

End Below.

Lemma add_file_spec path leaf n :
  path ≠ [] →
  match add_file path leaf n with
  | Ok n' => ¬ collides path n ∧ added_file path leaf n n'
  | Err e => errors_Is e ErrPathCollision = true ∧ collides path n
  | _ => False
  end.
Proof.
  revert n. induction path as [|p path IH]; intros n; [done|]. intros _.
  destruct path as [|p' path]; [apply add_leaf_spec|].
  change (add_file (p :: p' :: path) leaf n) with
    (match assoc p (files n) with
     | Some _ => Err (wrap1 ErrPathCollision p)
     | None => let! subdir := add_file (p' :: path) leaf (default newTempDirNode (assoc p (subdirs n))) in
               Ok (TempDir (files n) (assoc_set p subdir (subdirs n)))
     end).
  set (path' := p' :: path) in *. assert (path' ≠ []) as Hnil by done. clearbody path'.
  destruct (assoc p (files n)) as [f|] eqn:Ef.
  { split; [by rewrite errors_Is_wrap1|]. right. exists [p]. split_and!; [by apply prefix_cons, prefix_nil| |].
    - intros [= ?]. congruence.
    - simpl. by rewrite Ef. }
  specialize (IH (default newTempDirNode (assoc p (subdirs n))) Hnil).
  destruct (add_file path' leaf _) as [s'|e| |]; cbn [obind]; try done; rewrite collides_below by done; [|done].
  destruct IH as [Hc Ha]. split; [done|by apply added_below].
Qed.

(** ** The tree of a set of paths *)

Definition strict (q p : list string) : Prop := q `prefix_of` p ∧ q ≠ p.

Lemma strict_prefix_l p q r : strict p q → q `prefix_of` r → strict p r.
Proof.
  intros [Hpq Hne] Hqr. split; [by etrans|]. intros ->.
  apply Hne, (anti_symm prefix); done.
Qed.

(** [collides] in a tree that has just received the file [path]. *)
Lemma collides_added path leaf n n' q :
  path ≠ [] → add_file path leaf n = Ok n' →
  collides q n' ↔ collides q n ∨ strict q path ∨ strict path q.
Proof.
  intros Hne Hadd. pose proof (add_file_spec path leaf n Hne) as Hs. rewrite Hadd in Hs.
  destruct Hs as (_ & Hf & Hd). unfold collides. rewrite Hd. setoid_rewrite Hf. split.
  - intros [[?|Hq]|(r & Hr & Hrq & Hs)]; [naive_solver|by right; left|].
    case_bool_decide as E; [subst r; right; right; done|]. left. right. eauto.
  - intros [[?|(r & Hr & Hrq & Hs)]|[Hq|[Hq Hn]]]; [naive_solver| |by left; right|].
    + right. exists r. case_bool_decide; eauto.
    + right. exists path. rewrite bool_decide_true by done. eauto.
Qed.

(** Some two paths of [ps] conflict, or one collides with [n]. *)
Definition conflict (n : tempDirNode) (ps : list (list string)) : Prop :=
  (∃ p, p ∈ ps ∧ collides p n) ∨ ∃ p q, p ∈ ps ∧ q ∈ ps ∧ strict p q.

Lemma conflict_cons path leaf n n' ps :
  path ≠ [] → add_file path leaf n = Ok n' →
  conflict n (path :: ps) ↔ conflict n' ps.
Proof.
  intros Hne Hadd. unfold conflict.
  assert (¬ collides path n) as Hnc.
  { pose proof (add_file_spec path leaf n Hne) as Hs. rewrite Hadd in Hs. apply Hs. }
  setoid_rewrite (collides_added _ _ _ _ _ Hne Hadd). setoid_rewrite elem_of_cons.
  assert (¬ strict path path) as Hirr by (by intros [_ ?]). split.
  - intros [(p & [->|Hp] & Hc)|(p & q & [->|Hp] & [->|Hq] & Hpq)]; try done; [left; eauto..|right; eauto].
  - intros [(p & Hp & [Hc|[Hc|Hc]])|(p & q & Hp & Hq & Hpq)]; [left; eauto|right; eauto 10..].
Qed.

(** The paths and leaves a list of results contributes. *)
Definition contributes (pool : gmap string FileRecord) (l : list (string * string))
    (q : list string) (leaf : FileLeaf) : Prop :=
  ∃ p k rec, (p, k) ∈ l ∧ q = Split p slash ∧ pool !! k = Some rec ∧ leaf = leaf_of rec.

Lemma add_files_spec pool l n :
  NoDup l.*1 → (∀ p k, (p, k) ∈ l → is_Some (pool !! k)) →
  match add_files l pool n with
  | Ok n' => ¬ conflict n ((λ kv, Split kv.1 slash) <$> l) ∧
      (∀ q leaf, find_file q n' = Some leaf ↔ contributes pool l q leaf ∨
         find_file q n = Some leaf ∧ q ∉ (λ kv, Split kv.1 slash) <$> l) ∧
      (∀ q, is_Some (find_dir q n') ↔ is_Some (find_dir q n) ∨
         ∃ p k, (p, k) ∈ l ∧ strict q (Split p slash))
  | Err e => errors_Is e ErrPathCollision = true ∧ conflict n ((λ kv, Split kv.1 slash) <$> l)
  | _ => False
  end.
Proof.
  revert n. induction l as [|[p k] l IH]; intros n Hnd Hpool; cbn [add_files].
  { unfold conflict, contributes. split_and!; [set_solver|set_solver|set_solver]. }
  csimpl in Hnd. apply NoDup_cons in Hnd as [Hp Hnd].
  destruct (Hpool p k ltac:(by left)) as [rec Hrec]. rewrite Hrec.
  pose proof (Split_nonempty p slash) as Hne.
  pose proof (add_file_spec (Split p slash) (leaf_of rec) n Hne) as Hadd.
  destruct (add_file (Split p slash) (leaf_of rec) n) as [n1|e| |] eqn:En; cbn [obind]; try done.
  2:{ destruct Hadd as [? Hc]. split; [done|]. left. eexists. split; [by left|done]. }
  destruct Hadd as (Hnc & Hf & Hd).
  specialize (IH n1 Hnd ltac:(intros; eapply Hpool; by right)). csimpl.
  pose proof (conflict_cons _ _ _ _ ((λ kv, Split kv.1 slash) <$> l) Hne En) as Hcc. csimpl in Hcc.
  destruct (add_files l pool n1) as [n2|e| |]; try done; [|by rewrite Hcc].
  destruct IH as (Hnc2 & Hf2 & Hd2). split_and!; [by rewrite Hcc| |].
  - assert (Split p slash ∉ (λ kv, Split kv.1 slash) <$> l) as Hpl.
    { intros ([p' k'] & E%Split_inj & Hin)%list_elem_of_fmap. simpl in E. subst p'.
      apply Hp, list_elem_of_fmap. by exists (p, k'). }
    intros q leaf. rewrite Hf2, Hf. unfold contributes. case_bool_decide as E.
    + subst q. split; [|].
      * intros [(p' & k' & r & ? & ? & ? & ?)|[[= <-] _]]; left; [exists p', k', r|exists p, k, rec]; set_solver.
      * intros [(p' & k' & r & [[= -> ->]|Hin]%elem_of_cons & E & Hr & ->)|[_ Hn]]; [|left|by destruct Hn; left].
        -- right. rewrite Hrec in Hr. naive_solver.
        -- exists p', k', r. naive_solver.
    + split.
      * intros [(p' & k' & r & ? & ? & ? & ?)|[? ?]]; [left; exists p', k', r; set_solver|right; set_solver].
      * intros [(p' & k' & r & [[= -> ->]|Hin]%elem_of_cons & E' & Hr & ->)|[? Hn]]; [done|left|right; set_solver].
        exists p', k', r. naive_solver.
  - intros q. rewrite Hd2, Hd. setoid_rewrite elem_of_cons. unfold strict. naive_solver.
Qed.

Lemma add_dirs_spec l n :
  (∀ q, find_file q (add_dirs l n) = find_file q n) ∧
  (∀ q, is_Some (find_dir q (add_dirs l n)) ↔ is_Some (find_dir q n) ∨
     ∃ d b, (d, b) ∈ l ∧ d ≠ "" ∧ q `prefix_of` Split d slash).
Proof.
  unfold add_dirs. revert n. induction l as [|[d b] l IH]; intros n; cbn [fold_left].
  { split; [done|]. set_solver. }
  destruct (IH (if bool_decide ((d, b).1 = "") then n else add_dir (Split (d, b).1 slash) n)) as [Hf Hd].
  simpl in *. case_bool_decide as E.
  - split; [done|]. intros q. rewrite Hd. setoid_rewrite elem_of_cons. naive_solver.
  - split; [intros q; by rewrite Hf, add_dir_find_file|].
    intros q. rewrite Hd, add_dir_find_dir. setoid_rewrite elem_of_cons. naive_solver.
Qed.

(** ** Keys of the maps *)

Definition keys_ok (n : tempDirNode) : Prop :=
  ∀ q s, find_dir q n = Some s → NoDup (files s).*1 ∧ NoDup (subdirs s).*1.

Lemma keys_ok_unfold n :
  keys_ok n ↔ NoDup (files n).*1 ∧ NoDup (subdirs n).*1 ∧ ∀ p s, assoc p (subdirs n) = Some s → keys_ok s.
Proof.
  split.
  - intros H. destruct (H [] n eq_refl). split_and!; [done..|]. intros p s Hs q d Hd.
    apply (H (p :: q)). simpl. by rewrite Hs.
  - intros (Hf & Hs & H) [|p q] d; simpl; [by intros [= <-]|].
    destruct (assoc p (subdirs n)) as [s|] eqn:E; [|done]. by apply H in E; apply E.
Qed.

Lemma keys_ok_empty : keys_ok newTempDirNode.
Proof. intros [|p q] s; simpl; [|done]. intros [= <-]. by split; constructor. Qed.

Lemma keys_ok_default n p : keys_ok n → keys_ok (default newTempDirNode (assoc p (subdirs n))).
Proof.
  intros (_ & _ & H)%keys_ok_unfold. destruct (assoc p (subdirs n)) eqn:E; [by eapply H|apply keys_ok_empty].
Qed.

Lemma keys_ok_set n p s :
  keys_ok n → keys_ok s → keys_ok (TempDir (files n) (assoc_set p s (subdirs n))).
Proof.
  intros (Hf & Hs & H)%keys_ok_unfold Hk. apply keys_ok_unfold. split_and!; [done|by apply assoc_set_NoDup|].
  intros p' s'. simpl. rewrite assoc_set_lookup. case_bool_decide; [by intros [= <-]|apply H].
Qed.

Lemma keys_ok_add_dir path n : keys_ok n → keys_ok (add_dir path n).
Proof.
  revert n. induction path as [|p path IH]; intros n H; cbn [add_dir]; [done|].
  apply keys_ok_set; [done|]. by apply IH, keys_ok_default.
Qed.

Lemma keys_ok_add_file path leaf n n' : keys_ok n → add_file path leaf n = Ok n' → keys_ok n'.
Proof.
  revert n n'. induction path as [|p path IH]; intros n n' H; cbn [add_file]; [by intros [= <-]|].
  destruct path as [|p' path].
  - destruct (assoc p (subdirs n)); [done|]. intros [= <-]. apply keys_ok_unfold in H as (Hf & Hs & H).
    apply keys_ok_unfold. split_and!; [by apply assoc_set_NoDup|done..].
  - destruct (assoc p (files n)); [done|]. intros (s & Hs & [= <-])%obind_Ok.
    apply keys_ok_set; [done|]. eapply IH; [|done]. by apply keys_ok_default.
Qed.

Lemma keys_ok_add_dirs l n : keys_ok n → keys_ok (add_dirs l n).
Proof.
  unfold add_dirs. revert n. induction l as [|[d b] l IH]; intros n H; simpl; [done|].
  apply IH. case_bool_decide; [done|by apply keys_ok_add_dir].
Qed.

Lemma keys_ok_add_files l pool n n' : keys_ok n → add_files l pool n = Ok n' → keys_ok n'.
Proof.
  revert n. induction l as [|[p k] l IH]; intros n H; cbn [add_files]; [by intros [= <-]|].
  destruct (pool !! k); [|done]. intros (n1 & Hn1 & Hr)%obind_Ok.
  eapply IH; [|done]. by eapply keys_ok_add_file.
Qed.

Lemma find_file_snoc q x n :
  find_file (q ++ [x]) n = match find_dir q n with Some s => assoc x (files s) | None => None end.
Proof.
  revert n. induction q as [|p q IH]; intros n; [done|].
  rewrite <- app_comm_cons, find_file_cons by (by destruct q). simpl.
  destruct (assoc p (subdirs n)); [apply IH|done].
Qed.

(** ** The tree of a run *)

Section TempTree.
Context {MR : MapRange}.
Context (dirPaths : gmap string bool) (newPathToFileKey : gmap string string).
Context (newFilesPool : gmap string FileRecord).

(** A file path is also a directory, or runs through another file. *)
Definition path_collision : Prop :=
  ∃ p, p ∈ dom newPathToFileKey ∧
    ((∃ d, d ∈ dom dirPaths ∧ d ≠ "" ∧ Split p slash `prefix_of` Split d slash) ∨
     (∃ p', p' ∈ dom newPathToFileKey ∧ strict (Split p slash) (Split p' slash))).

(** The directories a run mentions, explicitly or as parents. *)
Definition run_dir (q : list string) : Prop :=
  q = [] ∨ (∃ d, d ∈ dom dirPaths ∧ d ≠ "" ∧ q `prefix_of` Split d slash) ∨
  (∃ p, p ∈ dom newPathToFileKey ∧ strict q (Split p slash)).

(** The files of a run, with the leaf their record gives them. *)
Definition run_file (q : list string) (leaf : FileLeaf) : Prop :=
  ∃ p k rec, newPathToFileKey !! p = Some k ∧ q = Split p slash ∧
    newFilesPool !! k = Some rec ∧ leaf = leaf_of rec.

(** What the gathering loop and the up-front validation of paths provide. *)
Record run_ok : Prop := {
  run_records : ∀ p k, newPathToFileKey !! p = Some k → is_Some (newFilesPool !! k);
  run_files_valid : ∀ p, p ∈ dom newPathToFileKey → Forall valid_name (Split p slash);
  run_dirs_valid : ∀ d, d ∈ dom dirPaths → d ≠ "" → Forall valid_name (Split d slash);
}.

Lemma tempTree_spec :
  (∀ p k, newPathToFileKey !! p = Some k → is_Some (newFilesPool !! k)) →
  match tempTree dirPaths newPathToFileKey newFilesPool with
  | Ok n => ¬ path_collision ∧ keys_ok n ∧
      (∀ q leaf, find_file q n = Some leaf ↔ run_file q leaf) ∧
      (∀ q, is_Some (find_dir q n) ↔ run_dir q)
  | Err e => errors_Is e ErrPathCollision = true ∧ path_collision
  | _ => False
  end.
Proof.
  intros Hrec. unfold tempTree.
  destruct (add_dirs_spec (range dirPaths) newTempDirNode) as [Hf0 Hd0].
  pose proof (keys_ok_add_dirs (range dirPaths) _ keys_ok_empty) as Hk0.
  set (n0 := add_dirs (range dirPaths) newTempDirNode) in *.
  pose proof (add_files_spec newFilesPool (range newPathToFileKey) n0 (NoDup_range _)) as Hs.
  setoid_rewrite elem_of_range in Hs. specialize (Hs Hrec).
  assert (∀ q, is_Some (find_dir q n0) ↔ q = [] ∨ ∃ d, d ∈ dom dirPaths ∧ d ≠ "" ∧ q `prefix_of` Split d slash) as Hd.
  { intros q. rewrite Hd0, find_dir_empty. setoid_rewrite elem_of_range. setoid_rewrite elem_of_dom. unfold is_Some. naive_solver. }
  assert (∀ q, q ∈ (λ kv : string * string, Split kv.1 slash) <$> range newPathToFileKey ↔
     ∃ p, p ∈ dom newPathToFileKey ∧ q = Split p slash) as Hin.
  { intros q. rewrite list_elem_of_fmap. setoid_rewrite elem_of_dom. split.
    - intros ([p k] & -> & Hk%elem_of_range). eauto.
    - intros (p & [k Hk] & ->). exists (p, k). by rewrite elem_of_range. }
  assert (conflict n0 ((λ kv, Split kv.1 slash) <$> range newPathToFileKey) ↔ path_collision) as Hc.
  { unfold conflict, path_collision, collides. setoid_rewrite Hin. setoid_rewrite Hd. setoid_rewrite Hf0.
    setoid_rewrite find_file_empty. split.
    - intros [(q & (p & Hp & ->) & [[Hnil|?]|(? & _ & _ & [])])|(? & ? & (p & ? & ->) & (p' & ? & ->) & ?)]; try done.
      + by apply Split_nonempty in Hnil.
      + eauto.
      + eauto 10.
    - intros (p & Hp & [?|(p' & ? & ?)]); [left|right]; eauto 15. }
  destruct (add_files (range newPathToFileKey) newFilesPool n0) as [n|e| |] eqn:En; try done;
    rewrite Hc in Hs; [|done].
  destruct Hs as (Hnc & Hf & Hdn). split_and!; [done|by eapply keys_ok_add_files| |].
  - intros q leaf. rewrite Hf, Hf0, find_file_empty. unfold contributes, run_file.
    setoid_rewrite elem_of_range. split; [by intros [?|[[=] _]]|by left].
  - intros q. rewrite Hdn, Hd. unfold run_dir. setoid_rewrite elem_of_dom. split.
    + intros [[?|?]|(p & k & Hk & ?)]; [by left|by right; left|].
      right; right. exists p. apply elem_of_range in Hk. eauto.
    + intros [?|[?|(p & [k Hk] & ?)]]; [by left; left|by left; right|].
      right. exists p, k. by rewrite elem_of_range.
Qed.

End TempTree.
