(* ===== verification/TreeHash.v ===== *)
(** Correctness of tree construction: the root hash depends on the paths and
    contents only, path collisions are exactly the reported ones, and the
    tree that is built resolves back to the listing it was built from. *)

From S2P Require Import Prelude Errors GoStrings Keys Digest Metadata ProtoExample.
From S2P Require Import TreeWalk TreeResolve TreeBuild.

(** Induction over a temporary tree and all its subtrees. *)
Section tempDirNode_ind.
  Context (P : tempDirNode → Prop).
  Context (HP : ∀ fs ss, Forall (λ x, P x.2) ss → P (TempDir fs ss)).
Fixpoint tempDirNode_ind' (n : tempDirNode) : P n :=
    match n with
    | TempDir fs ss =>
        HP fs ss ((fix go (l : list (string * tempDirNode)) : Forall (λ x, P x.2) l :=
          match l with
          | [] => Forall_nil_2 _
          | x :: l => Forall_cons_2 _ x l (tempDirNode_ind' x.2) (go l)
          end) ss)
    end.
End tempDirNode_ind.

Lemma merge_sort_entry_perm l k :
  NoDup (Name <$> l) → l ≡ₚ k → merge_sort entry_le l = merge_sort entry_le k.
Proof.
  intros Hnd Hp.
  assert (Transitive entry_le) as Htr.
  { intros a b c. unfold entry_le. rewrite !str_leb_le. apply (transitivity (R := String.le)). }
  assert (Total entry_le) as Htot.
  { intros a b. unfold entry_le. destruct (str_leb (Name a) (Name b)) eqn:E; [by left|right].
    apply str_leb_spec. right. by apply str_leb_false. }
  apply (Sorted_unique_strong entry_le); try apply Sorted_merge_sort; try apply _.
  - intros a b Ha Hb Hab Hba. unfold entry_le in *. rewrite !str_leb_le in *.
    assert (Name a = Name b) as Hn by by apply (anti_symm String.le).
    rewrite merge_sort_Permutation in Ha. rewrite merge_sort_Permutation, <- Hp in Hb.
    apply list_elem_of_lookup in Ha as [i Hi], Hb as [j Hj].
    assert (i = j) as ->; [|congruence].
    eapply (NoDup_lookup (Name <$> l)); [done|rewrite list_lookup_fmap, Hi; done|].
    by rewrite list_lookup_fmap, Hj; simpl; rewrite Hn.
  - by rewrite !merge_sort_Permutation.
Qed.

Lemma merge_sort_names_sorted l :
  NoDup (Name <$> l) → names_sorted None (merge_sort entry_le l) = true.
Proof.
  intros Hnd. apply names_sorted_spec. simpl.
  assert (Total entry_le) as Htot.
  { intros a b. unfold entry_le. destruct (str_leb (Name a) (Name b)) eqn:E; [by left|right].
    apply str_leb_spec. right. by apply str_leb_false. }
  pose proof (Sorted_merge_sort entry_le l) as Hs.
  rewrite <- (merge_sort_Permutation entry_le l) in Hnd. revert Hs Hnd.
  induction 1 as [|a k Hs IH Hh]; [constructor|]. csimpl. rewrite NoDup_cons. intros [Ha Hnd].
  constructor; [auto|]. destruct Hh as [|b k Hab]; constructor.
  unfold entry_le in Hab. apply str_leb_spec in Hab as [Hab|]; [|done].
  destruct Ha. csimpl. rewrite Hab. by left.
Qed.

Lemma mapM_fmap_comp {A B C} (f : B → option C) (g : A → B) l : mapM f (g <$> l) = mapM (λ x, f (g x)) l.
Proof.
  induction l as [|x l IH]; [done|].
  change (mapM f (g <$> x :: l)) with (y ← f (g x); ys ← mapM f (g <$> l); mret (y :: ys)).
  by rewrite IH.
Qed.

Lemma mapM_perm {A B} (f : A → option B) l k :
  l ≡ₚ k →
  match mapM f l, mapM f k with
  | Some l', Some k' => l' ≡ₚ k'
  | None, None => True
  | _, _ => False
  end.
Proof.
  induction 1 as [|x l k _ IH|x y l|l1 l2 l3 _ IH1 _ IH2]; simpl; [done| | |].
  - destruct (f x); simpl; [|done]. destruct (mapM f l), (mapM f k); simpl; try done. by constructor.
  - destruct (f x), (f y); simpl; try done; destruct (mapM f l); simpl; try done. constructor.
  - destruct (mapM f l1), (mapM f l2), (mapM f l3); try done. by etrans.
Qed.

Section Hash.
Context {PR : Proto}.

(** ** What [buildAndHash] computes *)

(** The node of a directory, without the store. *)
Fixpoint dir_node (n : tempDirNode) : option TreeNode :=
  subs ← mapM (λ s, (λ h, subtree_entry s.1 h) <$> (dir_node s.2 ≫= tree_hash)) (subdirs n);
  Some {| Entries := merge_sort entry_le ((file_entry <$> files n) ++ subs) |}.
Definition dir_hash (n : tempDirNode) : option string := dir_node n ≫= tree_hash.

Inductive subtree : tempDirNode → tempDirNode → Prop :=
| subtree_refl n : subtree n n
| subtree_sub s name s' n : (name, s') ∈ subdirs n → subtree s s' → subtree s n.

(** Every directory of [n] is stored under its hash. *)
Definition stored (trees : gmap string TreeNode) (n : tempDirNode) : Prop :=
  ∀ s, subtree s n → ∃ node h, dir_node s = Some node ∧ tree_hash node = Some h ∧ trees !! h = Some node.

(** What a build step adds: [S] are the subtrees below it. *)
Definition extends (S : tempDirNode → Prop) (trees trees' : gmap string TreeNode) : Prop :=
  dom trees ⊆ dom trees' ∧
  (∀ k node, trees' !! k = Some node → trees !! k = Some node ∨
     ∃ s, S s ∧ dir_node s = Some node ∧ tree_hash node = Some k) ∧
  (∀ s, S s → ∃ h, dir_hash s = Some h ∧ h ∈ dom trees').

Lemma extends_trans S1 S2 t1 t2 t3 :
  extends S1 t1 t2 → extends S2 t2 t3 → extends (λ s, S1 s ∨ S2 s) t1 t3.
Proof.
  intros (Hd1 & Ho1 & Hn1) (Hd2 & Ho2 & Hn2). split_and!; [set_solver| |].
  - intros k node Hk. apply Ho2 in Hk as [Hk|]; [apply Ho1 in Hk|]; naive_solver.
  - intros s [Hs|Hs]; [|by apply Hn2]. apply Hn1 in Hs as (h & ? & ?). set_solver.
Qed.

Lemma extends_ext (S S' : tempDirNode → Prop) t t' :
  (∀ s, S s ↔ S' s) → extends S t t' → extends S' t t'.
Proof.
  intros HS (Hd & Ho & Hn). split_and!; [done| |].
  - intros k node Hk. setoid_rewrite <- HS. auto.
  - intros s. rewrite <- HS. auto.
Qed.

Lemma subtree_inv s n : subtree s n ↔ s = n ∨ ∃ name s', (name, s') ∈ subdirs n ∧ subtree s s'.
Proof. split; [inversion 1; subst; eauto|]. intros [->|(? & ? & ? & ?)]; econstructor; eauto. Qed.

(** [buildAndHash] fails only when a node cannot be marshalled; otherwise it
    returns the directory's hash and stores the directory and everything
    below it. *)
Lemma buildAndHash_spec n trees :
  match buildAndHash n trees with
  | Ok (h, trees') => dir_hash n = Some h ∧ extends (λ s, subtree s n) trees trees'
  | Err _ => dir_hash n = None
  | _ => False
  end.
Proof.
  revert trees. induction n as [fs ss IH] using tempDirNode_ind'. intros trees.
  cbn [buildAndHash subdirs files].
  match goal with |- context [obind (?go ss trees) _] => set (loop := go) end.
  assert (match loop ss trees with
    | Ok (es, trees') =>
        mapM (λ s, (λ h, subtree_entry s.1 h) <$> (dir_node s.2 ≫= tree_hash)) ss = Some es ∧
        extends (λ s, ∃ name s', (name, s') ∈ ss ∧ subtree s s') trees trees'
    | Err _ => mapM (λ s, (λ h, subtree_entry s.1 h) <$> (dir_node s.2 ≫= tree_hash)) ss = None
    | _ => False
    end) as Hloop.
  { revert trees. induction IH as [|[name s] l Hs Hl IHl]; intros trees; simpl.
    { split; [done|]. split_and!; [done|by left|set_solver]. }
    simpl in Hs. specialize (Hs trees). destruct (buildAndHash s trees) as [[h t1]|e| |]; simpl; try done.
    2:{ unfold dir_hash in Hs. by rewrite Hs. }
    destruct Hs as [Hh He]. unfold dir_hash in Hh. rewrite Hh. simpl.
    specialize (IHl t1). destruct (loop l t1) as [[es t2]|e| |]; simpl; try done.
    2:{ by rewrite IHl. }
    destruct IHl as [Hes Hel]. rewrite Hes. split; [done|].
    eapply extends_ext; [|eapply extends_trans; [exact He|exact Hel]].
    intros s0. simpl. setoid_rewrite elem_of_cons. naive_solver. }
  destruct (loop ss trees) as [[es t1]|e| |]; cbn [obind]; try done.
  2:{ unfold dir_hash. simpl. by rewrite Hloop. }
  destruct Hloop as [Hes He]. cbn [fst snd].
  set (node := {| Entries := _ |}).
  assert (dir_node (TempDir fs ss) = Some node) as Hnode by (cbn [dir_node subdirs files]; by rewrite Hes).
  unfold dir_hash. rewrite Hnode. cbn [mbind option_bind]. unfold tree_hash at 1 2.
  destruct (marshal_tree node) as [b|] eqn:Eb; [|done]. split; [done|].
  assert (tree_hash node = Some (sha256_hex b)) as Hth by (unfold tree_hash; by rewrite Eb).
  eapply extends_ext; [intros s; symmetry; apply subtree_inv|].
  destruct He as (Hd & Ho & Hn). split_and!.
  - set_solver.
  - intros k nd. rewrite lookup_insert_Some. intros [[<- <-]|[_ Hk]]; [right; exists (TempDir fs ss); auto|].
    apply Ho in Hk as [|(s & ? & ? & ?)]; [by left|right; exists s; auto].
  - intros s [->|Hs]; [exists (sha256_hex b); unfold dir_hash; rewrite Hnode; set_solver|].
    apply Hn in Hs as (h & ? & ?). exists h. set_solver.
Qed.

Lemma buildAndHash_cases n trees :
  (∃ x, buildAndHash n trees = Ok x) ∨
  buildAndHash n trees = Err (ELeaf "failed to marshal tree node" false).
Proof.
  revert trees. induction n as [fs ss IH] using tempDirNode_ind'. intros trees.
  cbn [buildAndHash subdirs files].
  match goal with |- context [obind (?go ss trees) _] => set (loop := go) end.
  assert (∀ trees, (∃ x, loop ss trees = Ok x) ∨
    loop ss trees = Err (ELeaf "failed to marshal tree node" false)) as Hloop.
  { clear trees. induction IH as [|[name s] l Hs Hl IHl]; intros trees; simpl; [eauto|].
    destruct (Hs trees) as [[[h t1] E]|E]; simpl in E; rewrite E; simpl; [|by right].
    destruct (IHl t1) as [[[es t2] ->]| ->]; simpl; eauto. }
  destruct (Hloop trees) as [[[es t] ->]| ->]; cbn [obind]; [|by right].
  destruct (marshal_tree _); eauto.
Qed.

(** No two different directories of [n] have the same hash. *)
Definition no_collision (n : tempDirNode) : Prop :=
  ∀ s1 s2, subtree s1 n → subtree s2 n → dir_hash s1 = dir_hash s2 → dir_node s1 = dir_node s2.

Lemma dir_hash_node s h : dir_hash s = Some h ↔ ∃ node, dir_node s = Some node ∧ tree_hash node = Some h.
Proof. unfold dir_hash. rewrite bind_Some. naive_solver. Qed.

Lemma build_stored n h trees old :
  no_collision n → buildAndHash n ∅ = Ok (h, trees) → dir_hash n = Some h ∧ stored (trees ∪ old) n.
Proof.
  intros Hnc Hb. pose proof (buildAndHash_spec n ∅) as Hs. rewrite Hb in Hs.
  destruct Hs as (Hh & _ & Ho & Hn). split; [done|]. intros s Hsub.
  destruct (Hn s Hsub) as (k & Hk & [node Hnode]%elem_of_dom).
  destruct (Ho _ _ Hnode) as [|(s' & Hs' & Hn' & Hh')]; [done|].
  assert (dir_hash s' = Some k) as Hk' by (apply dir_hash_node; eauto).
  exists node, k. rewrite (Hnc s s') by congruence. split_and!; [done..|].
  by apply lookup_union_Some_l.
Qed.

(** ** Well-formed trees *)

(** Names are valid, and no two entries of a directory share one. *)
Definition names (n : tempDirNode) : list string := (files n).*1 ++ (subdirs n).*1.
Definition wf (n : tempDirNode) : Prop :=
  ∀ q s, find_dir q n = Some s → NoDup (names s) ∧ Forall valid_name (names s).

Lemma wf_here n : wf n → NoDup (files n).*1 ∧ NoDup (subdirs n).*1 ∧ NoDup (names n) ∧ Forall valid_name (names n).
Proof. intros H. destruct (H [] n eq_refl) as [Hnd Hv]. pose proof Hnd as Hnd'. apply NoDup_app in Hnd' as (? & _ & ?). done. Qed.

Lemma wf_sub n p s : wf n → (p, s) ∈ subdirs n → wf s.
Proof.
  intros H Hin q d Hq. apply (H (p :: q)). apply wf_here in H as (_ & Hnd & _).
  simpl. by rewrite (proj2 (assoc_elem p s _ Hnd) Hin).
Qed.

Lemma find_dir_subtree q n s : find_dir q n = Some s → subtree s n.
Proof.
  revert n. induction q as [|p q IH]; intros n; simpl; [intros [= ->]; constructor|].
  destruct (assoc p (subdirs n)) as [s'|] eqn:E; [|done]. intros Hf. econstructor; [by apply assoc_in|auto].
Qed.

Lemma subtree_find_dir s n : wf n → subtree s n → ∃ q, find_dir q n = Some s.
Proof.
  intros Hwf Hs. induction Hs as [|s name s' n Hin Hs IH]; [by exists []|].
  destruct IH as [q Hq]; [by eapply wf_sub|]. exists (name :: q). simpl.
  apply wf_here in Hwf as (_ & Hnd & _). by rewrite (proj2 (assoc_elem name s' _ Hnd) Hin).
Qed.

(** ** Extensional equality of trees determines the hash *)

Definition tdn_equiv (n m : tempDirNode) : Prop :=
  (∀ q, find_file q n = find_file q m) ∧ (∀ q, is_Some (find_dir q n) ↔ is_Some (find_dir q m)).
#[export] Instance tdn_equiv_equivalence : Equivalence tdn_equiv.
Proof.
  split; [done| |].
  - intros n m [Hf Hd]. split; intros q; [by rewrite Hf|by rewrite Hd].
  - intros n m k [Hf Hd] [Hf' Hd']. split; intros q; [by rewrite Hf, Hf'|by rewrite Hd, Hd'].
Qed.

Lemma tdn_equiv_sub n m p s t :
  tdn_equiv n m → assoc p (subdirs n) = Some s → assoc p (subdirs m) = Some t → tdn_equiv s t.
Proof.
  intros [Hf Hd] Hs Ht. split; intros q.
  - destruct (decide (q = [])) as [->|Hq]; [done|]. specialize (Hf (p :: q)).
    by rewrite !find_file_cons, Hs, Ht in Hf.
  - specialize (Hd (p :: q)). simpl in Hd. by rewrite Hs, Ht in Hd.
Qed.

Lemma NoDup_entries fs ss : NoDup (fs.*1 ++ ss.*1) →
  ∀ subs, mapM (λ s, (λ h, subtree_entry s.1 h) <$> dir_hash s.2) ss = Some subs →
  NoDup (Name <$> (file_entry <$> fs) ++ subs).
Proof.
  intros Hnd subs Hm%mapM_Some. rewrite fmap_app, <- list_fmap_compose.
  assert (Name <$> subs = ss.*1) as ->; [|done].
  clear Hnd. induction Hm as [|[p s] e l k He _ IH]; [done|]. csimpl. rewrite IH. simpl in He.
  destruct (dir_hash s); simpl in He; by simplify_eq/=.
Qed.

Lemma dir_node_equiv n m : wf n → wf m → tdn_equiv n m → dir_node n = dir_node m.
Proof.
  revert m. induction n as [fs ss IH] using tempDirNode_ind'. intros [fs' ss'] Hn Hm Heq.
  destruct (wf_here _ Hn) as (Hf1 & Hs1 & Hnd & _), (wf_here _ Hm) as (Hf2 & Hs2 & _).
  unfold names in Hnd. cbn [files subdirs dir_node] in *.
  change (dir_node ?s ≫= tree_hash) with (dir_hash s).
  assert (fs ≡ₚ fs') as Hfs.
  { apply assoc_perm; [done..|]. intros x. apply (proj1 Heq [x]). }
  set (g (x : string * tempDirNode) := (x.1, dir_hash x.2)).
  assert (g <$> ss ≡ₚ g <$> ss') as Hss.
  { apply NoDup_Permutation.
    - apply (NoDup_fmap_1 fst). by rewrite <- list_fmap_compose.
    - apply (NoDup_fmap_1 fst). by rewrite <- list_fmap_compose.
    - rewrite Forall_forall in IH.
      assert (∀ p s, assoc p ss = Some s → ∃ t, assoc p ss' = Some t ∧ dir_hash s = dir_hash t) as H12.
      { intros p s Hs. destruct (proj1 (proj2 Heq [p])) as [d Hd]; [simpl; by rewrite Hs|].
        simpl in Hd. destruct (assoc p ss') as [t|] eqn:Et; [|done]. exists t. split; [done|].
        unfold dir_hash. f_equal. apply (IH (p, s) (assoc_in _ _ _ Hs) t).
        - eapply wf_sub; [exact Hn|by apply assoc_in].
        - eapply wf_sub; [exact Hm|by apply assoc_in].
        - by eapply tdn_equiv_sub. }
      intros [p o]. rewrite !list_elem_of_fmap. split.
      + intros ([p' s] & [= -> ->] & Hin). apply (assoc_elem p' s) in Hin; [|done].
        destruct (H12 _ _ Hin) as (t & Ht & E). exists (p', t). unfold g; simpl. rewrite E.
        split; [done|by apply assoc_in].
      + intros ([p' t] & [= -> ->] & Hin). apply (assoc_elem p' t) in Hin; [|done].
        destruct (proj2 (proj2 Heq [p'])) as [d Hd]; [simpl; by rewrite Hin|].
        simpl in Hd. destruct (assoc p' ss) as [s|] eqn:Es; [|done].
        destruct (H12 _ _ Es) as (t' & Ht & E). exists (p', s). unfold g; simpl.
        split; [congruence|by apply assoc_in]. }
  assert (∀ l, mapM (λ s, (λ h, subtree_entry s.1 h) <$> dir_hash s.2) l =
               mapM (λ s, (λ h, subtree_entry s.1 h) <$> s.2) (g <$> l)) as Hg.
  { intros l. symmetry. apply (mapM_fmap_comp (λ s : string * option string, (λ h, subtree_entry s.1 h) <$> s.2) g). }
  pose proof (mapM_perm (λ s : string * option string, (λ h, subtree_entry s.1 h) <$> s.2) _ _ Hss) as Hp.
  rewrite <- !Hg in Hp.
  destruct (mapM _ ss) as [subs|] eqn:E1, (mapM _ ss') as [subs'|] eqn:E2; try done.
  simpl. f_equal. f_equal. apply merge_sort_entry_perm; [by eapply NoDup_entries|].
  by rewrite Hp, Hfs.
Qed.

(** ** Reading a stored tree back *)

Lemma elem_of_entries n node e :
  dir_node n = Some node →
  e ∈ Entries node ↔ (∃ p leaf, (p, leaf) ∈ files n ∧ e = file_entry (p, leaf)) ∨
                     (∃ p s h, (p, s) ∈ subdirs n ∧ dir_hash s = Some h ∧ e = subtree_entry p h).
Proof.
  destruct n as [fs ss]. cbn [dir_node files subdirs]. change (dir_node ?s ≫= tree_hash) with (dir_hash s).
  destruct (mapM _ ss) as [subs|] eqn:E; [|done]. intros [= <-]. cbn [Entries].
  rewrite merge_sort_Permutation, elem_of_app, list_elem_of_fmap.
  assert (e ∈ subs ↔ ∃ p s h, (p, s) ∈ ss ∧ dir_hash s = Some h ∧ e = subtree_entry p h) as Hs.
  { apply mapM_Some in E. clear fs. induction E as [|[p s] e' l k He _ IH].
    - split; [by intros []%elem_of_nil|]. intros (? & ? & ? & []%elem_of_nil & _).
    - rewrite elem_of_cons, IH. setoid_rewrite elem_of_cons. simpl in He.
      destruct (dir_hash s) as [h|] eqn:Eh; simpl in He; simplify_eq. split.
      + intros [->|(p' & s' & h' & ? & ? & ?)]; [exists p, s, h; auto|exists p', s', h'; auto].
      + intros (p' & s' & h' & [[= -> ->]|?] & ? & ->); [left; congruence|right; eauto 10]. }
  rewrite Hs. f_equiv. split; [intros ([p leaf] & ? & ?); eauto|intros (p & leaf & ? & ?); exists (p, leaf); eauto].
Qed.

Lemma entries_nil n node : dir_node n = Some node → Entries node = [] → files n = [] ∧ subdirs n = [].
Proof.
  destruct n as [fs ss]. cbn [dir_node files subdirs]. change (dir_node ?s ≫= tree_hash) with (dir_hash s).
  destruct (mapM _ ss) as [subs|] eqn:E; [|done]. intros [= <-]. cbn [Entries]. intros Hl.
  pose proof (merge_sort_Permutation entry_le ((file_entry <$> fs) ++ subs)) as Hp.
  rewrite Hl in Hp. apply Permutation_nil_l in Hp. symmetry in Hp.
  apply app_nil in Hp as [Hf Hs]. apply fmap_nil_inv in Hf. apply length_mapM in E. rewrite Hs in E.
  by destruct ss.
Qed.

Lemma stored_sub trees n p s : stored trees n → (p, s) ∈ subdirs n → stored trees s.
Proof. intros H Hin d Hd. apply H. by econstructor. Qed.

Lemma stored_here trees n h :
  stored trees n → dir_hash n = Some h → ∃ node, dir_node n = Some node ∧ tree_hash node = Some h ∧ trees !! h = Some node.
Proof.
  intros Hst (node & Hn & Hh)%dir_hash_node. destruct (Hst n ltac:(constructor)) as (node' & h' & ? & ? & ?).
  simplify_eq. eauto.
Qed.

Lemma file_at_find trees n h path k :
  wf n → stored trees n → dir_hash n = Some h →
  file_at trees h path k ↔ ∃ leaf, find_file path n = Some leaf ∧ k = leaf_key leaf.
Proof.
  intros Hwf Hst Hh. revert n h Hwf Hst Hh. induction path as [|p path IH]; intros n h Hwf Hst Hh.
  { split; [inversion 1|naive_solver]. }
  destruct (stored_here _ _ _ Hst Hh) as (node & Hn & _ & Hl).
  destruct (wf_here _ Hwf) as (Hf1 & Hs1 & Hnd & _). split.
  - inversion 1 as [? node' name leaf Hl' He|? node' name h' path' ? Hl' He Hfa]; subst; simplify_eq.
    + apply (elem_of_entries _ _ _ Hn) in He as [(q & leaf' & Hin & [= -> ->])|(? & ? & ? & _ & _ & [=])].
      exists leaf'. simpl. by rewrite (proj2 (assoc_elem _ _ _ Hf1) Hin).
    + apply (elem_of_entries _ _ _ Hn) in He as [(? & ? & _ & [=])|(q & s & hs & Hin & Hs & [= -> ->])].
      apply (IH s) in Hfa as (leaf & Hfa & ->); [|by eapply wf_sub|by eapply stored_sub|done].
      exists leaf. rewrite find_file_cons by (by intros ->).
      by rewrite (proj2 (assoc_elem _ _ _ Hs1) Hin).
  - intros (leaf & Hf & ->). destruct (decide (path = [])) as [->|Hp].
    + simpl in Hf. eapply file_at_here; [done|]. apply (elem_of_entries _ _ _ Hn). left.
      apply assoc_in in Hf. eauto.
    + rewrite find_file_cons in Hf by done. destruct (assoc p (subdirs n)) as [s|] eqn:Es; [|done].
      apply assoc_in in Es. destruct (Hst s) as (nd & hs & Hnd' & Hhs & _); [econstructor; [done|constructor]|].
      assert (dir_hash s = Some hs) as Hds by (apply dir_hash_node; eauto).
      eapply file_at_sub; [done| |apply (IH s); [by eapply wf_sub|by eapply stored_sub|done|eauto]].
      apply (elem_of_entries _ _ _ Hn). right. eauto 10.
Qed.

Lemma dir_at_find trees n h path d :
  wf n → stored trees n → dir_hash n = Some h →
  dir_at trees h path d ↔ ∃ s, find_dir path n = Some s ∧ dir_hash s = Some d.
Proof.
  intros Hwf Hst Hh. revert n h Hwf Hst Hh. induction path as [|p path IH]; intros n h Hwf Hst Hh.
  { split; [inversion 1; subst; simpl; eauto|]. intros (s & [= ->] & ?).
    assert (h = d) as -> by congruence. constructor. }
  destruct (stored_here _ _ _ Hst Hh) as (node & Hn & _ & Hl).
  destruct (wf_here _ Hwf) as (_ & Hs1 & _). split.
  - inversion 1 as [|? node' name h' path' ? Hl' He Hda]; subst; simplify_eq.
    apply (elem_of_entries _ _ _ Hn) in He as [(? & ? & _ & [=])|(q & s & hs & Hin & Hs & [= -> ->])].
    apply (IH s) in Hda as (s' & Hd & ?); [|by eapply wf_sub|by eapply stored_sub|done].
    exists s'. simpl. by rewrite (proj2 (assoc_elem _ _ _ Hs1) Hin).
  - intros (s' & Hd & Hh'). simpl in Hd. destruct (assoc p (subdirs n)) as [s|] eqn:Es; [|done].
    apply assoc_in in Es. destruct (Hst s) as (nd & hs & Hnd' & Hhs & _); [econstructor; [done|constructor]|].
    assert (dir_hash s = Some hs) as Hds by (apply dir_hash_node; eauto).
    eapply dir_at_sub; [done| |apply (IH s); [by eapply wf_sub|by eapply stored_sub|done|eauto]].
    apply (elem_of_entries _ _ _ Hn). right. eauto 10.
Qed.

(** ** Strict resolution of a stored tree succeeds *)

Lemma walk_entries_strict_ok rec prefix es acc :
  Forall (λ e, valid_name (Name e) ∧
    match Node e with
    | TreeEntry_File (Some _) => True
    | TreeEntry_SubtreeHash h => h ≠ "" ∧ ∀ p a, (∃ r, rec h p a = Ok r) ∨ rec h p a = OutOfFuel
    | _ => False
    end) es →
  (∃ r, walk_entries rec false prefix es acc = Ok r) ∨ walk_entries rec false prefix es acc = OutOfFuel.
Proof.
  intros Hes. revert acc. induction Hes as [|e es [Hv He] _ IH]; intros acc; simpl; [eauto|].
  rewrite (proj2 (validateName_valid _) Hv). destruct (Node e) as [[f|]|h|]; try done.
  destruct He as [Hh Hr]. rewrite bool_decide_false by done.
  destruct (Hr (full_path prefix (Name e)) acc) as [[r ->]| ->]; simpl; [done|by right].
Qed.

Lemma sha256_hex_nonempty b : sha256_hex b ≠ "".
Proof.
  unfold sha256_hex, hex_EncodeToString. intros H%(f_equal chars). rewrite chars_of_chars in H.
  destruct (SHA256.sum b) as [|z l] eqn:E; [|done].
  apply (f_equal length) in E. revert E. by rewrite SHA256.sum_length.
Qed.

Lemma tree_hash_nonempty node h : tree_hash node = Some h → h ≠ "".
Proof. unfold tree_hash. destruct (marshal_tree node); [|done]. intros [= <-]. apply sha256_hex_nonempty. Qed.

Lemma entries_wf n node : wf n → dir_node n = Some node →
  names_sorted None (Entries node) = true ∧ Forall (λ e, valid_name (Name e)) (Entries node).
Proof.
  intros Hwf Hn. destruct (wf_here _ Hwf) as (_ & _ & Hnd & Hv). split.
  - destruct n as [fs ss]. unfold names in Hnd. cbn [dir_node files subdirs] in *.
    change (dir_node ?s ≫= tree_hash) with (dir_hash s) in Hn.
    destruct (mapM _ ss) as [subs|] eqn:E; [|done]. injection Hn as <-.
    apply merge_sort_names_sorted. by eapply NoDup_entries.
  - apply Forall_forall. intros e He. apply (elem_of_entries _ _ _ Hn) in He.
    rewrite Forall_forall in Hv. apply Hv. unfold names. rewrite elem_of_app, !list_elem_of_fmap.
    destruct He as [(p & leaf & ? & ->)|(p & s & h & ? & _ & ->)]; [left|right]; eexists; (split; [|done]); done.
Qed.

Lemma walkTree_stored fuel trees n h prefix acc :
  wf n → stored trees n → dir_hash n = Some h →
  (∃ r, walkTree fuel trees false h prefix acc = Ok r) ∨
  walkTree fuel trees false h prefix acc = OutOfFuel.
Proof.
  revert n h prefix acc. induction fuel as [|fuel IH]; intros n h prefix acc Hwf Hst Hh; cbn [walkTree]; [by right|].
  destruct (stored_here _ _ _ Hst Hh) as (node & Hn & Ht & Hl). rewrite Hl, Ht.
  destruct (entries_wf _ _ Hwf Hn) as [Hs Hv]. rewrite Hs, bool_decide_true by done. cbn [negb andb].
  destruct (Entries node) as [|e es] eqn:Ee; [case_bool_decide; simpl; eauto|].
  apply (walk_entries_strict_ok _ prefix (e :: es)). apply Forall_forall. intros e' He'.
  rewrite Forall_forall in Hv. split; [by apply Hv|]. rewrite <- Ee in He'.
  apply (elem_of_entries _ _ _ Hn) in He' as [(p & leaf & ? & ->)|(p & s & hs & Hin & Hhs & ->)]; [done|].
  simpl. split; [|intros; eapply IH; [by eapply wf_sub|by eapply stored_sub|done]].
  apply dir_hash_node in Hhs as (? & _ & ?). by eapply tree_hash_nonempty.
Qed.

(** A directory never contains itself. *)
Fixpoint height (n : tempDirNode) : nat := S (max_list (map (λ s, height s.2) (subdirs n))).

Lemma height_sub n p s : (p, s) ∈ subdirs n → height s < height n.
Proof.
  destruct n as [fs ss]. simpl. intros Hin. apply Nat.lt_succ_r, max_list_elem_of_le.
  apply list_elem_of_In. apply list_elem_of_In in Hin. by apply (in_map (λ s, height s.2) _ _ Hin).
Qed.

Lemma child_sub trees n h h' :
  wf n → stored trees n → dir_hash n = Some h → child trees h h' →
  ∃ p s, (p, s) ∈ subdirs n ∧ dir_hash s = Some h'.
Proof.
  intros Hwf Hst Hh (node & e & Hl & He & Hne).
  destruct (stored_here _ _ _ Hst Hh) as (node' & Hn & _ & Hl'). simplify_eq.
  apply (elem_of_entries _ _ _ Hn) in He as [(? & ? & ? & ->)|(p & s & hs & Hin & Hs & ->)]; [done|].
  exists p, s. simpl in Hne. split; [done|congruence].
Qed.

Lemma stored_rtc trees n h h' :
  wf n → stored trees n → dir_hash n = Some h → rtc (child trees) h h' →
  ∃ s, subtree s n ∧ wf s ∧ stored trees s ∧ dir_hash s = Some h' ∧ (s = n ∨ height s < height n).
Proof.
  intros Hwf Hst Hh Hr. revert n Hwf Hst Hh. induction Hr as [h|h h1 h2 Hc _ IH]; intros n Hwf Hst Hh.
  { exists n. split_and!; [constructor|done..|by left]. }
  destruct (child_sub _ _ _ _ Hwf Hst Hh Hc) as (p & s & Hin & Hs).
  destruct (IH s) as (s' & ? & ? & ? & ? & Hlt); [by eapply wf_sub|by eapply stored_sub|done|].
  pose proof (height_sub _ _ _ Hin). exists s'. split_and!; [by econstructor|done..|].
  right. destruct Hlt as [->|]; lia.
Qed.

Lemma stored_acyclic trees n h :
  wf n → stored trees n → dir_hash n = Some h → ¬ tc (child trees) h h.
Proof.
  intros Hwf Hst Hh Hc. remember (height n) as k eqn:Hk.
  revert n Hwf Hst Hh Hk. induction k as [k IH] using lt_wf_ind. intros n Hwf Hst Hh ->.
  assert (∃ h1, child trees h h1 ∧ rtc (child trees) h1 h) as (h1 & Hc1 & Hr).
  { inversion Hc as [|? h1]; subst; [by exists h|exists h1; split; [done|by apply tc_rtc]]. }
  destruct (child_sub _ _ _ _ Hwf Hst Hh Hc1) as (p & s & Hin & Hs).
  pose proof (height_sub _ _ _ Hin).
  destruct (stored_rtc trees s h1 h) as (s' & _ & ? & ? & ? & Hlt); [by eapply wf_sub|by eapply stored_sub|done..|].
  eapply (IH (height s')); [|done..]. destruct Hlt as [->|]; lia.
Qed.

Lemma walkTree_stored_ok trees n h prefix acc :
  wf n → stored trees n → dir_hash n = Some h →
  ∃ r, walkTree (resolve_fuel trees) trees false h prefix acc = Ok r.
Proof.
  intros Hwf Hst Hh.
  destruct (walkTree_stored (resolve_fuel trees) trees n h prefix acc) as [?|Hf]; [done..|].
  exfalso. apply walkTree_total in Hf as (d & Hr & Hc).
  destruct (stored_rtc _ _ _ _ Hwf Hst Hh Hr) as (s & _ & ? & ? & ? & _).
  by eapply stored_acyclic.
Qed.

End Hash.

(** ** The tree of a run *)

Section Run.
Context {PR : Proto} {MR : MapRange}.
Context (dirPaths : gmap string bool) (newPathToFileKey : gmap string string).
Context (newFilesPool : gmap string FileRecord).

Lemma run_path_prefix q p :
  Forall valid_name (Split p slash) → q `prefix_of` Split p slash → Forall valid_name q.
Proof. intros H [k E]. rewrite E in H. by apply Forall_app in H as [? _]. Qed.

Lemma run_file_dir q leaf :
  ¬ path_collision dirPaths newPathToFileKey →
  run_file newPathToFileKey newFilesPool q leaf → ¬ run_dir dirPaths newPathToFileKey q.
Proof.
  intros Hnc (p & k & rec & Hp & -> & _) Hd. apply elem_of_dom_2 in Hp.
  destruct Hd as [Hnil|[(d & ? & ? & ?)|(p' & ? & ?)]].
  - by apply Split_nonempty in Hnil.
  - apply Hnc. exists p. split; [done|]. left. eauto.
  - apply Hnc. exists p. split; [done|]. right. eauto.
Qed.

Lemma tempTree_wf n :
  run_ok dirPaths newPathToFileKey newFilesPool →
  tempTree dirPaths newPathToFileKey newFilesPool = Ok n → wf n.
Proof.
  intros [Hrec Hfv Hdv] Hn. pose proof (tempTree_spec dirPaths newPathToFileKey newFilesPool Hrec) as Hs.
  rewrite Hn in Hs. destruct Hs as (Hnc & Hk & Hf & Hd). intros q s Hs.
  assert (∀ x, x ∈ (files s).*1 → ∃ leaf, run_file newPathToFileKey newFilesPool (q ++ [x]) leaf) as Hxf.
  { intros x [leaf Hx]%assoc_Some. exists leaf. apply Hf. by rewrite find_file_snoc, Hs. }
  assert (∀ x, x ∈ (subdirs s).*1 → run_dir dirPaths newPathToFileKey (q ++ [x])) as Hxd.
  { intros x [d Hx]%assoc_Some. apply Hd. rewrite find_dir_app, Hs. simpl. by rewrite Hx. }
  destruct (Hk _ _ Hs) as [H1 H2]. split.
  - apply NoDup_app. split_and!; [done| |done]. intros x [leaf Hx]%Hxf Hx'%Hxd.
    by eapply run_file_dir.
  - apply Forall_forall. intros x Hx. unfold names in Hx.
    assert (Forall valid_name (q ++ [x])) as [_ Hv]%Forall_app; [|by apply Forall_cons in Hv as [? _]].
    apply elem_of_app in Hx as [[leaf (p & k & rec & Hp & -> & _)]%Hxf|Hx%Hxd].
    + apply Hfv. by eapply elem_of_dom_2.
    + destruct Hx as [Hnil|[(d & ? & ? & ?)|(p & ? & ? & _)]]; [by destruct q|..]; eapply run_path_prefix; eauto.
Qed.

(** The directories of a run that have nothing below them. *)
Definition run_empty_dir (p : string) : Prop :=
  p ∈ dom dirPaths ∧ p ≠ "" ∧
  (∀ d, d ∈ dom dirPaths → ¬ strict (Split p slash) (Split d slash)) ∧
  (∀ f, f ∈ dom newPathToFileKey → ¬ strict (Split p slash) (Split f slash)).

Lemma strict_extend (q p : list string) : strict q p → ∃ x, q ++ [x] `prefix_of` p.
Proof.
  intros [[k ->] Hne]. destruct k as [|x k]; [by rewrite app_nil_r in Hne|].
  exists x. exists k. by rewrite <- app_assoc.
Qed.

Lemma prefix_snoc_strict (q : list string) x p : q ++ [x] `prefix_of` p → strict q p.
Proof.
  intros [k ->]. split; [exists ([x] ++ k); by rewrite app_assoc|].
  intros E%(f_equal length). rewrite !length_app in E. simpl in E. lia.
Qed.

Lemma find_dir_leaf n q s :
  run_ok dirPaths newPathToFileKey newFilesPool →
  tempTree dirPaths newPathToFileKey newFilesPool = Ok n →
  find_dir q n = Some s → q ≠ [] →
  files s = [] ∧ subdirs s = [] ↔ ∃ p, q = Split p slash ∧ run_empty_dir p.
Proof.
  intros Hok Hn Hq Hnil. pose proof Hok as [Hrec _ _].
  pose proof (tempTree_spec dirPaths newPathToFileKey newFilesPool Hrec) as Hs.
  rewrite Hn in Hs. destruct Hs as (Hnc & _ & Hf & Hd).
  assert (∀ x, is_Some (assoc x (files s)) ↔ ∃ leaf, run_file newPathToFileKey newFilesPool (q ++ [x]) leaf) as Hxf.
  { intros x. setoid_rewrite <- Hf. by rewrite find_file_snoc, Hq. }
  assert (∀ x, is_Some (assoc x (subdirs s)) ↔ run_dir dirPaths newPathToFileKey (q ++ [x])) as Hxd.
  { intros x. rewrite <- Hd, find_dir_app, Hq. simpl. by destruct (assoc x (subdirs s)). }
  split.
  - intros [Ef Es]. rewrite Ef in Hxf. rewrite Es in Hxd. simpl in Hxf, Hxd.
    assert (∀ x, ¬ run_dir dirPaths newPathToFileKey (q ++ [x])) as Hnd by (by intros x []%Hxd).
    assert (∀ d, d ∈ dom dirPaths → d ≠ "" → ¬ strict q (Split d slash)) as Hnd1.
    { intros d ? ? (x & ?)%strict_extend. apply (Hnd x). right; left. eauto. }
    assert (∀ f, f ∈ dom newPathToFileKey → ¬ strict q (Split f slash)) as Hnf.
    { intros f Hin (x & Hx)%strict_extend. destruct (decide (q ++ [x] = Split f slash)) as [E|].
      - apply elem_of_dom in Hin as [k Hk]. destruct (Hrec _ _ Hk) as [rec Hr].
        assert (is_Some (None : option FileLeaf)) as []; [|done].
        apply (Hxf x). exists (leaf_of rec), f, k, rec. done.
      - apply (Hnd x). right; right. exists f. by split. }
    assert (run_dir dirPaths newPathToFileKey q) as [?|[(d & Hdd & Hde & Hdp)|(p & Hp & Hs)]]; [by apply Hd; eauto|done| |].
    + destruct (decide (q = Split d slash)) as [->|Hne]; [|by destruct (Hnd1 d Hdd Hde)].
      exists d. split; [done|]. split_and!; [done..| |done]. intros d' Hd' Hs. apply (Hnd1 d'); [done| |done].
      intros ->. destruct Hs as [Hs _]. pose proof (prefix_length _ _ Hs) as Hl.
      assert (length (Split "" slash) = 1) as E1 by done. destruct (Split d slash) as [|a l] eqn:Ed; [by apply Split_nonempty in Ed|].
      destruct Hs as [k Hk]. simpl in Hk, E1. unfold Split in Hk. simpl in Hk. simplify_eq/=.
      destruct l; [|done]. apply Hde. apply (Split_inj d ""). by rewrite Ed.
    + by destruct (Hnf p).
  - intros (p & -> & Hpd & Hpe & Hsd & Hsf). split.
    + destruct (files s) as [|[x l] fs] eqn:E; [done|]. exfalso.
      destruct (proj1 (Hxf x)) as (leaf & f & k & rec & Hk & Hx & _); [simpl; rewrite bool_decide_true by done; eauto|].
      apply (Hsf f); [by eapply elem_of_dom_2|]. apply (prefix_snoc_strict _ x). by rewrite Hx.
    + destruct (subdirs s) as [|[x l] ss] eqn:E; [done|]. exfalso.
      destruct (proj1 (Hxd x)) as [Hx|[(d & ? & ? & Hx)|(f & ? & Hx & _)]];
        [simpl; rewrite bool_decide_true by done; eauto|by destruct (Split p slash)| |].
      * apply (Hsd d); [done|by eapply prefix_snoc_strict].
      * apply (Hsf f); [done|by eapply prefix_snoc_strict].
Qed.

(** A built tree resolves to the run it was built from. *)
Lemma buildTree_resolves root newTrees old md versionID v :
  run_ok dirPaths newPathToFileKey newFilesPool →
  (∀ n, tempTree dirPaths newPathToFileKey newFilesPool = Ok n → no_collision n) →
  buildTree dirPaths newPathToFileKey newFilesPool = Ok (root, newTrees) →
  Trees md = newTrees ∪ old → Versions md !! FormatUint versionID = Some v → RootTreeHash v = root →
  ∃ fs ds, ResolveVersionTree md versionID false = Ok (fs, ds) ∧
    (∀ p k, fs !! p = Some k ↔ ∃ key rec, newPathToFileKey !! p = Some key ∧
       newFilesPool !! key = Some rec ∧ k = fileKeyFor (Crc32 rec) (UncompressedSize rec)) ∧
    (∀ p, p ∈ ds ↔ run_empty_dir p).
Proof.
  intros Hok Hnc Hb Ht Hv Hroot. unfold buildTree in Hb. apply obind_Ok in Hb as (n & Hn & Hb).
  pose proof (tempTree_wf _ Hok Hn) as Hwf.
  destruct (build_stored _ _ _ old (Hnc _ Hn) Hb) as [Hh Hst]. rewrite <- Ht in Hst.
  destruct (walkTree_stored_ok (Trees md) n root "" (∅, []) Hwf Hst Hh) as [[fs ds] Hw].
  exists fs, ds. split; [unfold ResolveVersionTree; by rewrite Hv, Hroot|].
  apply (walkTree_listing _ _ _ [] _ _ ltac:(constructor)) in Hw as (m & ds' & E & Hm & Hd & _).
  simpl in E. rewrite map_union_empty in E. simplify_eq.
  pose proof (tempTree_spec dirPaths newPathToFileKey newFilesPool (run_records _ _ _ Hok)) as Hs. rewrite Hn in Hs.
  destruct Hs as (_ & _ & Hf & _). split.
  - intros p k. rewrite Hm. setoid_rewrite (file_at_find _ n _ _ _ Hwf Hst Hh). setoid_rewrite Hf. split.
    + intros (path & -> & leaf & (p' & key & rec & ? & -> & ? & ->) & ->). exists key, rec.
      simpl. rewrite join_Split. done.
    + intros (key & rec & ? & ? & ->). exists (Split p slash). simpl. rewrite join_Split. split; [done|].
      exists (leaf_of rec). split; [|done]. exists p, key, rec. done.
  - intros p. rewrite Hd. simpl. split.
    + intros (path & -> & Hnil & d & nd & Hda & Hnd & He).
      apply (dir_at_find _ n _ _ _ Hwf Hst Hh) in Hda as (s & Hs & Hds).
      assert (files s = [] ∧ subdirs s = []) as Hemp.
      { eapply entries_nil; [|done]. pose proof (find_dir_subtree _ _ _ Hs) as Hsub.
        destruct (Hst s Hsub) as (nd' & h & ? & Hnh & ?). rewrite dir_hash_node in Hds.
        destruct Hds as (? & ? & ?). by simplify_eq. }
      eapply find_dir_leaf in Hemp as (p' & -> & ?); [|done..]. by rewrite join_Split.
    + intros Hp. exists (Split p slash). rewrite join_Split. split_and!; [done|by apply Split_nonempty|].
      assert (is_Some (find_dir (Split p slash) n)) as [s Hs].
      { pose proof (tempTree_spec dirPaths newPathToFileKey newFilesPool (run_records _ _ _ Hok)) as Hs. rewrite Hn in Hs.
        apply Hs. right; left. exists p. destruct Hp as (? & ? & _). done. }
      destruct (proj2 (find_dir_leaf n _ s Hok Hn Hs (Split_nonempty p slash))) as [Ef Es]; [eauto|].
      destruct (Hst s (find_dir_subtree _ _ _ Hs)) as (nd & h & Hnd & Hnh & Hl).
      exists h, nd. split_and!; [|done|].
      * apply (dir_at_find _ n _ _ _ Hwf Hst Hh). exists s. split; [done|]. apply dir_hash_node. eauto.
      * destruct s as [fs' ss']. simpl in Ef, Es. subst. by injection Hnd as <-.
Qed.

(** Records of the right widths give nodes of the right widths. *)
(** Every node that a run adds is stored under its hash. *)
Lemma buildTree_hashed root newTrees :
  buildTree dirPaths newPathToFileKey newFilesPool = Ok (root, newTrees) →
  map_Forall (λ h node, tree_hash node = Some h) newTrees.
Proof.
  unfold buildTree. intros (n & _ & Hb)%obind_Ok. pose proof (buildAndHash_spec n ∅) as Hs. rewrite Hb in Hs.
  destruct Hs as (_ & _ & Ho & _). intros h node Hh. by destruct (Ho _ _ Hh) as [|(s & _ & _ & ?)].
Qed.

Lemma buildTree_canonical root newTrees :
  run_ok dirPaths newPathToFileKey newFilesPool →
  (∀ k rec, newFilesPool !! k = Some rec → record_canonical rec) →
  buildTree dirPaths newPathToFileKey newFilesPool = Ok (root, newTrees) →
  map_Forall (λ _, tree_canonical) newTrees.
Proof.
  intros Hok Hrec Hb. unfold buildTree in Hb. apply obind_Ok in Hb as (n & Hn & Hb).
  pose proof (tempTree_wf _ Hok Hn) as Hwf. pose proof (buildAndHash_spec n ∅) as Hs. rewrite Hb in Hs.
  destruct Hs as (_ & _ & Ho & _). intros h node Hh. destruct (Ho _ _ Hh) as [|(s & Hsub & Hnode & _)]; [done|].
  apply Forall_forall. intros e He. apply (elem_of_entries _ _ _ Hnode) in He as [(x & leaf & Hin & ->)|(x & s' & h' & _ & _ & ->)]; [|done].
  destruct (subtree_find_dir _ _ Hwf Hsub) as [q Hq]. pose proof (Hwf _ _ Hq) as [Hnd _].
  apply NoDup_app in Hnd as (Hnd & _ & _). apply (assoc_elem x leaf _ Hnd) in Hin.
  pose proof (tempTree_spec dirPaths newPathToFileKey newFilesPool (run_records _ _ _ Hok)) as Hs. rewrite Hn in Hs.
  destruct Hs as (_ & _ & Hf & _).
  assert (find_file (q ++ [x]) n = Some leaf) as Hff by (by rewrite find_file_snoc, Hq).
  apply Hf in Hff as (p & k & rec & _ & _ & Hr & ->). destruct (Hrec _ _ Hr) as (? & ? & ?). done.
Qed.

End Run.

(** ** Decision procedure for the absence of collisions *)

Fixpoint subtrees (n : tempDirNode) : list tempDirNode :=
  n :: concat (map (λ s, subtrees s.2) (subdirs n)).

Definition no_collision_b {PR : Proto} (n : tempDirNode) : bool :=
  let l := (λ s, (dir_hash s, dir_node s)) <$> subtrees n in
  forallb (λ a, forallb (λ b, negb (bool_decide (a.1 = b.1)) || bool_decide (a.2 = b.2)) l) l.

Lemma subtree_subtrees s n : subtree s n → s ∈ subtrees n.
Proof.
  induction 1 as [[]|s p s' n Hin _ IH]; [by left|]. destruct n as [fs ss]. simpl in *. right.
  apply list_elem_of_In, in_concat. exists (subtrees s'). split; [|by apply list_elem_of_In].
  apply list_elem_of_In in Hin. by apply (in_map (λ s, subtrees s.2)) in Hin.
Qed.

Lemma no_collision_b_sound {PR : Proto} n : no_collision_b n = true → no_collision n.
Proof.
  unfold no_collision_b. rewrite forallb_forall. intros H s1 s2 H1%subtree_subtrees H2%subtree_subtrees E.
  assert (∀ s, s ∈ subtrees n → In (dir_hash s, dir_node s) ((λ s, (dir_hash s, dir_node s)) <$> subtrees n)) as Hin.
  { intros s Hs. apply list_elem_of_In, list_elem_of_fmap. eauto. }
  specialize (H _ (Hin _ H1)). rewrite forallb_forall in H. specialize (H _ (Hin _ H2)). simpl in H.
  rewrite E, bool_decide_true in H by done. simpl in H. by apply bool_decide_eq_true in H.
Qed.

Lemma subtrees_subtree n s : s ∈ subtrees n → subtree s n.
Proof.
  induction n as [fs ss IH] using tempDirNode_ind'. cbn [subtrees]. intros [->|H]%elem_of_cons; [constructor|].
  apply list_elem_of_In, in_concat in H as (l & Hl & Hs). apply in_map_iff in Hl as ([x s'] & <- & Hin).
  apply list_elem_of_In in Hin, Hs. rewrite Forall_forall in IH. by eapply subtree_sub, (IH (x, s')).
Qed.

(** Two directories with different nodes and the same hash. *)
Definition collision {PR : Proto} (n : tempDirNode) : Prop :=
  ∃ s1 s2, subtree s1 n ∧ subtree s2 n ∧ dir_hash s1 = dir_hash s2 ∧ dir_node s1 ≠ dir_node s2.

Lemma collision_or {PR : Proto} n : no_collision n ∨ collision n.
Proof.
  destruct (decide (Forall (λ s1, Forall (λ s2, dir_hash s1 = dir_hash s2 → dir_node s1 = dir_node s2) (subtrees n)) (subtrees n))) as [H|H].
  - left. intros s1 s2 H1%subtree_subtrees H2%subtree_subtrees. rewrite Forall_forall in H. specialize (H _ H1).
    rewrite Forall_forall in H. by apply H.
  - right. apply not_Forall_Exists, Exists_exists in H as (s1 & H1%subtrees_subtree & H); [|apply _].
    apply not_Forall_Exists, Exists_exists in H as (s2 & H2%subtrees_subtree & H); [|apply _].
    exists s1, s2. destruct (decide (dir_hash s1 = dir_hash s2)); [|by destruct H]. split_and!; [done..|]. intros ?. by apply H.
Qed.

(** ** A run, for evaluation *)
Module RunExample.
Definition dirs : gmap string bool := list_to_map [("empty", true); ("sub", true)].
Definition paths : gmap string string :=
  list_to_map [("a.txt", "cbf43926_9"); ("sub/c.bin", "00000000_0")].
Definition record (l : FileLeaf) : FileRecord :=
  {| EphemeralPublicKey := []; EncryptedZipPassword := []; KeyId := None; Crc32 := leaf_Crc32 l;
     CompressedSize := 12; UncompressedSize := leaf_UncompressedSize l; LastModified := None |}.
Definition files_pool : gmap string FileRecord :=
  list_to_map [("cbf43926_9", record Example.leaf1); ("00000000_0", record Example.leaf2)].
Definition forall_keys {A} (m : gmap string A) (f : string → bool) : bool := forallb f (map_to_list m).*1.

Lemma forall_keys_sound {A} (m : gmap string A) f : forall_keys m f = true → ∀ k, k ∈ dom m → f k = true.
Proof.
  unfold forall_keys. rewrite forallb_forall. intros H k [a Hk]%elem_of_dom. apply H, list_elem_of_In.
  apply list_elem_of_fmap. exists (k, a). by rewrite elem_of_map_to_list.
Qed.

Definition valid_path (p : string) : bool :=
  forallb (λ c, match validateName c with None => true | Some _ => false end) (Split p slash).

Lemma valid_path_sound p : valid_path p = true → Forall valid_name (Split p slash).
Proof.
  unfold valid_path. rewrite forallb_forall. intros H. apply Forall_forall. intros c Hc%list_elem_of_In%H.
  apply validateName_valid. by destruct (validateName c).
Qed.

Lemma run_ok_b ds ps pl :
  forallb (λ kv : string * string, bool_decide (is_Some (pl !! kv.2))) (map_to_list ps) &&
  forall_keys ps valid_path && forall_keys ds valid_path = true → run_ok ds ps pl.
Proof.
  rewrite !andb_true_iff. intros [[H1 H2] H3]. split.
  - intros p k Hk. rewrite forallb_forall in H1. specialize (H1 (p, k)).
    apply bool_decide_eq_true in H1; [done|]. by apply list_elem_of_In, elem_of_map_to_list.
  - intros p Hp. by apply valid_path_sound, (forall_keys_sound ps).
  - intros d Hd _. by apply valid_path_sound, (forall_keys_sound ds).
Qed.
End RunExample.

(** ** Properties *)

(** Building the tree of a run reports [ErrPathCollision] exactly when a
    path is both a file and a directory (a file path that another path runs
    through, or that was listed as a directory); it never dereferences a nil
    record and always returns. *)
Theorem buildTree_collision {PR : Proto} {MR : MapRange} dirPaths newPathToFileKey newFilesPool :
  (∀ p k, newPathToFileKey !! p = Some k → is_Some (newFilesPool !! k)) →
  (path_collision dirPaths newPathToFileKey ↔
     ∃ e, buildTree dirPaths newPathToFileKey newFilesPool = Err e ∧ errors_Is e ErrPathCollision = true) ∧
  buildTree dirPaths newPathToFileKey newFilesPool ≠ Panic ∧
  buildTree dirPaths newPathToFileKey newFilesPool ≠ OutOfFuel.
Proof.
  intros Hrec. pose proof (tempTree_spec dirPaths newPathToFileKey newFilesPool Hrec) as Hs.
  unfold buildTree. destruct (tempTree _ _ _) as [n|e| |]; cbn [obind]; try done.
  - destruct Hs as [Hnc _]. destruct (buildAndHash_cases n ∅) as [[x ->]| ->]; split_and!; try done;
      (split; [done|]); intros (e & [=] & Hi); by subst e.
  - destruct Hs as [He Hc]. split_and!; [|done..]. split; [eauto|done].
Qed.

Lemma buildTree_collision_witness :
  let PR := Example.proto in let MR := some_range in
  let dirs := <["a.txt/b" := true]> RunExample.dirs in
  (path_collision dirs RunExample.paths ↔
     ∃ e, buildTree dirs RunExample.paths RunExample.files_pool = Err e ∧ errors_Is e ErrPathCollision = true) ∧
  buildTree dirs RunExample.paths RunExample.files_pool ≠ Panic ∧
  buildTree dirs RunExample.paths RunExample.files_pool ≠ OutOfFuel.
Proof.
  intros PR MR dirs. apply (buildTree_collision dirs RunExample.paths RunExample.files_pool).
  assert (run_ok ∅ RunExample.paths RunExample.files_pool) as [H _ _]; [|exact H].
  apply RunExample.run_ok_b. vm_compute. reflexivity.
Defined.

(** C30. The root hash of a version depends on its paths and contents only:
    whatever orders the two runs visit their maps in, and whatever order the
    directories were created in, both fail or both give the same hash (this
    is what makes unchanged directories shared between versions). *)
Theorem buildTree_deterministic {PR : Proto} (MR1 MR2 : MapRange) dirPaths newPathToFileKey newFilesPool :
  run_ok dirPaths newPathToFileKey newFilesPool →
  match @buildTree PR MR1 dirPaths newPathToFileKey newFilesPool,
        @buildTree PR MR2 dirPaths newPathToFileKey newFilesPool with
  | Ok (h1, _), Ok (h2, _) => h1 = h2
  | Err _, Err _ => True
  | _, _ => False
  end.
Proof.
  intros Hok.
  pose proof (@tempTree_spec MR1 dirPaths newPathToFileKey newFilesPool (run_records _ _ _ Hok)) as Hs1.
  pose proof (@tempTree_spec MR2 dirPaths newPathToFileKey newFilesPool (run_records _ _ _ Hok)) as Hs2.
  pose proof (@tempTree_wf MR1 dirPaths newPathToFileKey newFilesPool) as Hw1.
  pose proof (@tempTree_wf MR2 dirPaths newPathToFileKey newFilesPool) as Hw2.
  unfold buildTree. destruct (@tempTree MR1 _ _ _) as [n1|e1| |], (@tempTree MR2 _ _ _) as [n2|e2| |];
    cbn [obind]; try done.
  2:{ by destruct Hs1 as [Hc _], Hs2 as [_ Hc']. }
  2:{ by destruct Hs1 as [_ Hc'], Hs2 as [Hc _]. }
  specialize (Hw1 n1 Hok eq_refl). specialize (Hw2 n2 Hok eq_refl).
  destruct Hs1 as (_ & _ & Hf1 & Hd1), Hs2 as (_ & _ & Hf2 & Hd2).
  assert (tdn_equiv n1 n2) as He.
  { split; intros q; [|by rewrite Hd1, Hd2]. apply option_eq. intros leaf. by rewrite Hf1, Hf2. }
  apply dir_node_equiv in He; [|done..].
  pose proof (buildAndHash_spec n1 ∅) as B1. pose proof (buildAndHash_spec n2 ∅) as B2.
  unfold dir_hash in B1, B2. rewrite He in B1.
  destruct (buildAndHash n1 ∅) as [[]| | |], (buildAndHash n2 ∅) as [[]| | |]; try done;
    [destruct B1 as [B1 _], B2 as [B2 _]|destruct B1 as [B1 _]|destruct B2 as [B2 _]]; congruence.
Qed.

Lemma buildTree_deterministic_witness :
  let PR := Example.proto in
  match @buildTree PR some_range RunExample.dirs RunExample.paths RunExample.files_pool,
        @buildTree PR other_range RunExample.dirs RunExample.paths RunExample.files_pool with
  | Ok (h1, _), Ok (h2, _) => h1 = h2
  | Err _, Err _ => True
  | _, _ => False
  end.
Proof.
  intros PR. apply (buildTree_deterministic some_range other_range RunExample.dirs RunExample.paths RunExample.files_pool).
  apply RunExample.run_ok_b. vm_compute. reflexivity.
Defined.

(** C17. Round trip: a version built from a run resolves, strictly and from
    the merged metadata, to exactly the run's files under their paths with
    the keys of their records, and to the directories that nothing was
    listed under — provided no two directories of the tree have the same
    SHA-256. *)
Theorem buildTree_roundtrip {PR : Proto} {MR : MapRange} dirPaths newPathToFileKey newFilesPool
    root newTrees old md versionID v :
  run_ok dirPaths newPathToFileKey newFilesPool →
  (∀ n, tempTree dirPaths newPathToFileKey newFilesPool = Ok n → no_collision n) →
  buildTree dirPaths newPathToFileKey newFilesPool = Ok (root, newTrees) →
  Trees md = newTrees ∪ old → Versions md !! FormatUint versionID = Some v → RootTreeHash v = root →
  ∃ fs ds, ResolveVersionTree md versionID false = Ok (fs, ds) ∧
    (∀ p k, fs !! p = Some k ↔ ∃ key rec, newPathToFileKey !! p = Some key ∧
       newFilesPool !! key = Some rec ∧ k = fileKeyFor (Crc32 rec) (UncompressedSize rec)) ∧
    (∀ p, p ∈ ds ↔ run_empty_dir dirPaths newPathToFileKey p).
Proof. apply buildTree_resolves. Qed.

Lemma buildTree_roundtrip_witness :
  let PR := Example.proto in let MR := some_range in
  ∃ fs ds, ResolveVersionTree Example.md 77 false = Ok (fs, ds) ∧
    (∀ p k, fs !! p = Some k ↔ ∃ key rec, RunExample.paths !! p = Some key ∧
       RunExample.files_pool !! key = Some rec ∧ k = fileKeyFor (Crc32 rec) (UncompressedSize rec)) ∧
    (∀ p, p ∈ ds ↔ run_empty_dir RunExample.dirs RunExample.paths p).
Proof.
  intros PR MR.
  set (built := buildTree RunExample.dirs RunExample.paths RunExample.files_pool).
  apply (buildTree_roundtrip RunExample.dirs RunExample.paths RunExample.files_pool
    (ok_or ("", ∅) built).1 (ok_or ("", ∅) built).2 ∅ Example.md 77 Example.version1).
  - apply RunExample.run_ok_b. vm_compute. reflexivity.
  - intros n Hn. apply no_collision_b_sound.
    assert (match tempTree RunExample.dirs RunExample.paths RunExample.files_pool with
            | Ok m => no_collision_b m | _ => false end = true) as H by (vm_compute; reflexivity).
    rewrite Hn in H. exact H.
  - rewrite <- surjective_pairing. apply ok_or_spec. vm_compute. reflexivity.
  - by_eval.
  - by_eval.
  - vm_compute. reflexivity.
Defined.
