(* ===== verification/Store.v ===== *)
(** The storage interface of [tsync/storage.go] ([Storage],
    [AbortableWriter]) as a type class of state-passing operations, its
    documented contract as laws over the visible objects, and an in-memory
    implementation with a schedule of failures. *)

From S2P Require Import Prelude Errors GoStrings Digest.

(** [FileInfo], without the modification time. *)
Record FileInfo := { fi_Name : string; fi_Size : Z }.

(** A stream is what a reader delivers: some bytes, then EOF or an error. *)
Definition stream : Type := (bytes * option error)%type.

(** [io.ReadAll]. *)
Definition ReadAll (s : stream) : res bytes :=
  match s with
  | (b, None) => Ok b
  | (_, Some e) => Err e
  end.

(** [io.CopyN(io.Discard, body, n)]: the rest of the body. *)
Definition skip (n : Z) (b : stream) : error + stream :=
  if (n <=? blen b.1)%Z then inr (drop (Z.to_nat n) b.1, b.2)
  else inl (match b.2 with Some e => e | None => ESentinel IoEOF end).
(** [io.LimitReader]. *)
Definition limit (n : Z) (b : stream) : stream :=
  if (n <=? blen b.1)%Z then (take (Z.to_nat n) b.1, None) else b.

(** ** The interface

    [store] is the state of the storage and everything it talks to.  A
    failing operation returns an error and a new state. A writer may implement
    [AbortableWriter] or not: [w_abortable] is that type assertion, [w_Abort] the
    method it gives. *)
Class Storage := {
  store : Type;
  writer : Type;
  Read : string → store → res bytes * store;
  Write : string → bytes → store → res unit * store;
  Delete : string → store → res unit * store;
  List : string → store → res (list FileInfo) * store;
  OpenWriter : string → store → res writer * store;
  w_Write : writer → bytes → store → res unit * store;
  w_Close : writer → store → res unit * store;
  w_abortable : writer → bool;
  w_Abort : writer → store → res unit * store;
}.

(** ** A monad for stateful calls

    [M S A] is a Go call that returns [(A, error)] and works on the state
    [S]; a state change made before an error persists. *)

Definition M (S A : Type) : Type := S → res A * S.

Section Monad.
Context {S : Type}.

Definition ret {A} (a : A) : M S A := λ s, (Ok a, s).
Definition throw {A} (e : error) : M S A := λ s, (Err e, s).
Definition bind {A B} (m : M S A) (k : A → M S B) : M S B := λ s,
  match m s with
  | (Ok a, s) => k a s
  | (Err e, s) => (Err e, s)
  | (Panic, s) => (Panic, s)
  | (OutOfFuel, s) => (OutOfFuel, s)
  end.
Definition get : M S S := λ s, (Ok s, s).
Definition modify (f : S → S) : M S unit := λ s, (Ok tt, f s).
(** A pure computation that may fail. *)
Definition lift {A} (r : res A) : M S A := λ s, (r, s).
(** [return fmt.Errorf("m: %w", err)] around a call. *)
Definition wrap_err {A} (m : string) (c : M S A) : M S A := λ s,
  match c s with
  | (Err e, s) => (Err (Errorf m [e]), s)
  | r => r
  end.
(** [if err := c; err != nil { h(err) }]. *)
Definition handle {A} (c : M S A) (h : error → M S A) : M S A := λ s,
  match c s with
  | (Err e, s) => h e s
  | r => r
  end.
(** [err := c], as a value. *)
Definition attempt (c : M S unit) : M S (option error) := λ s,
  match c s with
  | (Ok _, s) => (Ok None, s)
  | (Err e, s) => (Ok (Some e), s)
  | (Panic, s) => (Panic, s)
  | (OutOfFuel, s) => (OutOfFuel, s)
  end.
(** [_ = c]: the error is dropped. *)
Definition ignore {A} (c : M S A) : M S unit := λ s,
  match c s with
  | (Ok _, s) | (Err _, s) => (Ok tt, s)
  | (Panic, s) => (Panic, s)
  | (OutOfFuel, s) => (OutOfFuel, s)
  end.
Fixpoint for_each {A} (l : list A) (f : A → M S unit) : M S unit :=
  match l with
  | [] => ret tt
  | a :: l => bind (f a) (λ _, for_each l f)
  end.

End Monad.

Declare Scope store_scope.
Delimit Scope store_scope with store.
Notation "'let*' x := c 'in' k" := (bind c (λ x, k))
  (at level 10, x binder, c at level 100, k at level 200) : store_scope.
Open Scope store_scope.

(** ** The contract

    [inv] holds of the states a run can reach, [view] is what readers see, [pending] what has been written to an open
    writer, which can be aborted: the interface asks for it with a SHOULD.  An
    operation that reports an error may or may not have taken effect, but never
    partially. *)
Definition fails {A} (r : res A) : Prop := ∃ e, r = Err e.
Definition returns {A} (r : res A) : Prop := (∃ a, r = Ok a) ∨ fails r.

(** [localTempPrefix]. *)
Definition localTempPrefix : string := ".tsync-tmp-".

(** The paths that every implementation keeps apart: no element is empty, a
    dot or two, or the name of a temporary file.  The program asks for the
    metadata and the keys of parts. *)
Definition plain_elem (e : string) : bool :=
  negb (bool_decide (e = "") || bool_decide (e = ".") || bool_decide (e = "..") || HasPrefix e localTempPrefix).
Definition relative (p : string) : Prop := forallb plain_elem (Split p slash) = true.
#[export] Instance relative_dec p : Decision (relative p) := decide (_ = true).

(** What may be asked of a listing. *)
Definition unrooted (p : string) : Prop := HasPrefix p "/" = false.

Lemma relative_unrooted p : relative p → unrooted p.
Proof.
  unfold relative, unrooted, HasPrefix, Split. destruct p as [|a p]; [done|]. cbn.
  destruct (decide (a = slash)) as [->|Hne]; [done|]. intros _. rewrite bool_decide_false; [done|]. by intros <-.
Qed.

(** The content of every open writer of [s] is the same in [s']. *)
Definition preserved {A} (f g : A → string → bytes → Prop) : Prop :=
  ∀ w p c, f w p c → g w p c.

Class StorageLaws {ST : Storage} := {
  inv : store → Prop;
  view : store → gmap string bytes;
  pending : store → writer → string → bytes → Prop;
  Read_law p s r s' : inv s → relative p → Read p s = (r, s') →
    inv s' ∧ view s' = view s ∧ preserved (pending s) (pending s') ∧ returns r ∧
    (∀ b, r = Ok b → view s !! p = Some b) ∧
    (∀ e, r = Err e → errors_Is e ErrNotFound = true → view s !! p = None);
  Write_law p b s r s' : inv s → relative p → Write p b s = (r, s') →
    inv s' ∧ preserved (pending s) (pending s') ∧ returns r ∧
    (view s' = <[p := b]> (view s) ∨ fails r ∧ view s' = view s);
  Delete_law p s r s' : inv s → relative p → Delete p s = (r, s') →
    inv s' ∧ preserved (pending s) (pending s') ∧ returns r ∧
    (view s' = delete p (view s) ∨ fails r ∧ view s' = view s);
  List_law p s r s' : inv s → unrooted p → List p s = (r, s') →
    inv s' ∧ view s' = view s ∧ preserved (pending s) (pending s') ∧ returns r ∧
    (∀ l, r = Ok l → ∀ n, relative n → n ∈ fi_Name <$> l ↔ n ∈ dom (view s) ∧ HasPrefix n p = true);
  OpenWriter_law p s r s' : inv s → relative p → OpenWriter p s = (r, s') →
    inv s' ∧ view s' = view s ∧ returns r ∧ preserved (pending s) (pending s') ∧
    (∀ w, r = Ok w → (∀ q c, ¬ pending s w q c) ∧ pending s' w p []);
  w_Write_law w b s r s' p c : inv s → w_Write w b s = (r, s') → pending s w p c →
    inv s' ∧ view s' = view s ∧ returns r ∧
    (∀ u, r = Ok u → pending s' w p (c ++ b)) ∧ (∃ c', pending s' w p c') ∧
    (∀ w' q d, w' ≠ w → pending s w' q d → pending s' w' q d);
  w_Close_law w s r s' p c : inv s → w_Close w s = (r, s') → pending s w p c →
    inv s' ∧ returns r ∧ (∀ w' q d, w' ≠ w → pending s w' q d → pending s' w' q d) ∧
    (view s' = <[p := c]> (view s) ∨ fails r ∧ view s' = view s);
  pending_abortable s w p c : pending s w p c → w_abortable w = true;
  w_Abort_law w s r s' p c : inv s → w_Abort w s = (r, s') → pending s w p c →
    inv s' ∧ view s' = view s ∧ returns r ∧ (∀ w' q d, w' ≠ w → pending s w' q d → pending s' w' q d);
}.

(** ** Objects below a prefix *)

Lemma str_app_inj_l p s t : p +:+ s = p +:+ t → s = t.
Proof. intros H. by rewrite <- (TrimPrefix_app p s), H, TrimPrefix_app. Qed.

(** The objects under a prefix, by their relative paths. *)
Definition under (prefix : string) (objs : gmap string bytes) : gmap string bytes :=
  list_to_map ((λ kv, (TrimPrefix kv.1 prefix, kv.2)) <$>
    filter (λ kv, HasPrefix kv.1 prefix = true) (map_to_list objs)).

Lemma under_lookup prefix objs p : under prefix objs !! p = objs !! (prefix +:+ p).
Proof.
  apply option_eq. intros b. unfold under. set (l := filter _ _).
  assert (∀ k v, (k, v) ∈ (λ kv : string * bytes, (TrimPrefix kv.1 prefix, kv.2)) <$> l ↔ objs !! (prefix +:+ k) = Some v) as Hl.
  { intros k v. rewrite list_elem_of_fmap. subst l. setoid_rewrite list_elem_of_filter. split.
    - intros ([k' v'] & [= -> ->] & [t E]%HasPrefix_spec & Hm%elem_of_map_to_list). simpl in *. subst k'.
      by rewrite TrimPrefix_app.
    - intros Hm. exists (prefix +:+ k, v). simpl. rewrite TrimPrefix_app. split; [done|].
      split; [apply HasPrefix_spec; eauto|by apply elem_of_map_to_list]. }
  rewrite <- Hl. split; [apply elem_of_list_to_map_2|].
  intros H. apply elem_of_list_to_map_1'; [|done].
  intros v Hv. apply Hl in Hv, H. congruence.
Qed.

Lemma under_insert prefix objs p b : under prefix (<[prefix +:+ p := b]> objs) = <[p := b]> (under prefix objs).
Proof.
  apply map_eq. intros q. rewrite under_lookup. destruct (decide (p = q)) as [->|Hne].
  - by rewrite !lookup_insert_eq.
  - rewrite !lookup_insert_ne, under_lookup; [done|done|]. by intros E%str_app_inj_l.
Qed.

Lemma under_delete prefix objs p : under prefix (delete (prefix +:+ p) objs) = delete p (under prefix objs).
Proof.
  apply map_eq. intros q. rewrite under_lookup. destruct (decide (p = q)) as [->|Hne].
  - by rewrite !lookup_delete_eq.
  - rewrite !lookup_delete_ne, under_lookup; [done|done|]. by intros E%str_app_inj_l.
Qed.

(** ** Reasoning about calls *)

Section MonadLaws.
Context {S : Type}.

Lemma bind_inv {A B} (m : M S A) (k : A → M S B) s r s' :
  bind m k s = (r, s') →
  (∃ a s1, m s = (Ok a, s1) ∧ k a s1 = (r, s')) ∨
  (∃ r1, m s = (r1, s') ∧ (∀ a, r1 ≠ Ok a) ∧ (∀ b, r ≠ Ok b) ∧
     (fails r1 → fails r) ∧ (returns r1 → fails r)).
Proof.
  unfold bind. destruct (m s) as [[a|e| |] s1]; intros E; [left; eauto|right..]; simplify_eq;
    eexists; (split; [done|]); split_and!; try done; unfold returns, fails; naive_solver.
Qed.

Lemma bind_Ok_inv {A B} (m : M S A) (k : A → M S B) s b s' :
  bind m k s = (Ok b, s') → ∃ a s1, m s = (Ok a, s1) ∧ k a s1 = (Ok b, s').
Proof. unfold bind. destruct (m s) as [[a|e| |] s1]; naive_solver. Qed.

Lemma wrap_err_inv {A} m (c : M S A) s r s' :
  wrap_err m c s = (r, s') → ∃ r1, c s = (r1, s') ∧ (∀ a, r = Ok a ↔ r1 = Ok a) ∧ (fails r ↔ fails r1).
Proof.
  unfold wrap_err, fails. destruct (c s) as [[a|e| |] s1] eqn:E; intros; simplify_eq;
    eexists; (split; [done|]); split; naive_solver.
Qed.

Lemma wrap_err_Ok {A} m (c : M S A) s a s' : wrap_err m c s = (Ok a, s') ↔ c s = (Ok a, s').
Proof. unfold wrap_err. destruct (c s) as [[]]; naive_solver. Qed.

(** An invariant of every iteration is one of the loop. *)
Lemma for_each_inv {A} (P : S → Prop) l (f : A → M S unit) s r s' :
  (∀ a s r s', a ∈ l → P s → f a s = (r, s') → P s') → P s → for_each l f s = (r, s') → P s'.
Proof.
  revert s. induction l as [|a l IH]; intros s Hf HP; simpl; [by intros [= _ <-]|].
  intros [(? & s1 & Ha & Hr)|(r1 & Ha & _)]%bind_inv.
  - eapply IH; [|eapply Hf; [by left|done..]|done]. intros. eapply Hf; [by right|done..].
  - eapply Hf; [by left|done..].
Qed.


Lemma for_each_returns {A} l (f : A → M S unit) s :
  (∀ a s, a ∈ l → ∃ s', f a s = (Ok tt, s')) → ∃ s', for_each l f s = (Ok tt, s').
Proof.
  revert s. induction l as [|a l IH]; intros s Hf; simpl; [by exists s|].
  destruct (Hf a s ltac:(by left)) as [s1 Ha]. unfold bind. rewrite Ha. apply IH. intros. apply Hf. by right.
Qed.

End MonadLaws.

(** ** Computations with several outcomes *)

(** A run of a concurrent program: which result and which state it may end
    with. *)
Definition runs (S A : Type) : Type := S → res A → S → Prop.

Section Runs.
Context {S : Type}.

Definition det {A} (m : M S A) : runs S A := λ s r s', m s = (r, s').
Inductive then_run {A B} (m : runs S A) (k : A → runs S B) (s : S) : res B → S → Prop :=
| then_next a s1 r s' : m s (Ok a) s1 → k a s1 r s' → then_run m k s r s'
| then_stop r s' : m s r s' → (∀ a, r ≠ Ok a) → then_run m k s (let! _ := r in Panic) s'.

Lemma then_stop_as {A B} (m : runs S A) (k : A → runs S B) s r1 r s' :
  m s r1 s' → (∀ a, r1 ≠ Ok a) → r = (let! _ := r1 in Panic) → then_run m k s r s'.
Proof. intros ? ? ->. by apply then_stop. Qed.

Lemma then_run_inv {A B} (m : runs S A) (k : A → runs S B) s r s' :
  then_run m k s r s' → (∃ a s1, m s (Ok a) s1 ∧ k a s1 r s') ∨ (∃ r1, m s r1 s' ∧ (∀ a, r1 ≠ Ok a) ∧ ∀ b, r ≠ Ok b).
Proof.
  intros [a s1 r1 s2 H Hk|r1 s2 H Hn]; [left; eauto|right]. exists r1. split_and!; [done..|].
  intros b. destruct r1 as [a| | |]; [by destruct (Hn a)|done..].
Qed.

(** A deterministic computation is a run of a program that runs it in parts. *)
Lemma then_run_bind {A B} (m : M S A) (k : A → M S B) (m' : runs S A) (k' : A → runs S B) s r s' :
  (∀ r1 s1, m s = (r1, s1) → m' s r1 s1) → (∀ a s1 r1 s2, k a s1 = (r1, s2) → k' a s1 r1 s2) →
  bind m k s = (r, s') → then_run m' k' s r s'.
Proof.
  intros Hm Hk. unfold bind. specialize (Hm (m s).1 (m s).2 (surjective_pairing _)). destruct (m s) as [r1 s1]. cbn [fst snd] in Hm.
  assert ((∀ a, r1 ≠ Ok a) → then_run m' k' s (let! _ := r1 in Panic) s1) as Hstop by by apply then_stop.
  destruct r1 as [a| | |]; cbn in Hstop; [|intros [= <- <-]; by apply Hstop..].
  intros H. by eapply then_next, Hk.
Qed.

End Runs.

(** ** Relations that are kept

    A computation keeps a relation between the states before and after. *)
Section Keeps.
Context {S : Type} (R : S → S → Prop) {HR : PreOrder R}.

Definition keeps {A} (c : M S A) : Prop := ∀ s r s', c s = (r, s') → R s s'.

Lemma keeps_lift {A} (r : res A) : keeps (lift r).
Proof. by intros s r' s' [= _ <-]. Qed.
Lemma keeps_ret {A} (a : A) : keeps (ret a).
Proof. apply keeps_lift. Qed.
Lemma keeps_throw {A} e : keeps (throw e : M S A).
Proof. apply keeps_lift. Qed.
Lemma keeps_bind {A B} (c : M S A) (k : A → M S B) : keeps c → (∀ a, keeps (k a)) → keeps (bind c k).
Proof.
  intros Hc Hk s r s' [(a & s1 & H1 & H)|(r1 & H1 & _)]%bind_inv; [|by eapply Hc]. by etransitivity; [eapply Hc|eapply Hk].
Qed.
Lemma keeps_handle {A} (c : M S A) h : keeps c → (∀ e, keeps (h e)) → keeps (handle c h).
Proof.
  intros Hc Hh s r s'. unfold handle. destruct (c s) as [[a|e| |] s1] eqn:E; apply Hc in E; [by intros [= _ <-]| |by intros [= _ <-]..].
  intros H%Hh. by etransitivity.
Qed.
Lemma keeps_wrap_err {A} m (c : M S A) : keeps c → keeps (wrap_err m c).
Proof. intros Hc s r s' (r1 & H & _)%wrap_err_inv. by eapply Hc. Qed.
Lemma keeps_ignore {A} (c : M S A) : keeps c → keeps (ignore c).
Proof. intros Hc s r s'. unfold ignore. destruct (c s) as [[] s1] eqn:E; intros [= _ <-]; by eapply Hc. Qed.
Lemma keeps_attempt (c : M S unit) : keeps c → keeps (attempt c).
Proof. intros Hc s r s'. unfold attempt. destruct (c s) as [[] s1] eqn:E; intros [= _ <-]; by eapply Hc. Qed.
Lemma keeps_for_each {A} (l : list A) f : (∀ a, keeps (f a)) → keeps (for_each l f).
Proof.
  intros Hf. induction l as [|a l IH]; cbn [for_each]; [apply keeps_ret|]. apply keeps_bind; [apply Hf|]. done.
Qed.

End Keeps.

Create HintDb keeps.
#[export] Hint Resolve keeps_lift keeps_ret keeps_throw keeps_bind keeps_handle keeps_wrap_err keeps_ignore keeps_attempt keeps_for_each : keeps.

(** Goes through a computation to the parts that the hints know. *)
Ltac keep :=
  cbv zeta; repeat match goal with
  | |- ∀ _, _ => intros ?
  | |- keeps _ (bind _ _) => apply keeps_bind; [apply _|..]
  | |- keeps _ (handle _ _) => apply keeps_handle; [apply _|..]
  | |- keeps _ (wrap_err _ _) => apply keeps_wrap_err
  | |- keeps _ (ignore _) => apply keeps_ignore
  | |- keeps _ (attempt _) => apply keeps_attempt
  | |- keeps _ (for_each _ _) => apply keeps_for_each; [apply _|..]
  | |- _ => by eauto with keeps typeclass_instances
  | |- _ => case_match
  end.

(** ** An in-memory storage

    Every call consumes one entry of the schedule: it succeeds, fails
    before taking effect, or takes effect and still reports an error. *)
Module Mem.

Inductive fault := FNone | FBefore | FAfter.

Record mem := {
  objects : gmap string bytes;
  writers : list (string * bytes);
  schedule : list fault;
}.

Definition set_objects (o : gmap string bytes) (s : mem) : mem :=
  {| objects := o; writers := writers s; schedule := schedule s |}.
Definition set_writers (w : list (string * bytes)) (s : mem) : mem :=
  {| objects := objects s; writers := w; schedule := schedule s |}.

Definition transport_error : error := ELeaf "transport" false.

(** Runs [f], the effect of a successful call, under the schedule. *)
Definition call {A} (f : mem → res A * mem) (s : mem) : res A * mem :=
  let s1 := {| objects := objects s; writers := writers s; schedule := tail (schedule s) |} in
  match head (schedule s) with
  | Some FBefore => (Err transport_error, s1)
  | Some FAfter => (Err transport_error, (f s1).2)
  | Some FNone | None => f s1
  end.

Definition mem_Read (p : string) (s : mem) : res bytes * mem :=
  match objects s !! p with
  | Some b => (Ok b, s)
  | None => (Err (wrap1 ErrNotFound p), s)
  end.
Definition mem_List (p : string) (s : mem) : res (list FileInfo) * mem :=
  (Ok ((λ kv : string * bytes, {| fi_Name := kv.1; fi_Size := Z.of_nat (length kv.2) |}) <$>
       filter (λ kv, HasPrefix kv.1 p = true) (map_to_list (objects s))), s).
Definition mem_OpenWriter (p : string) (s : mem) : res nat * mem :=
  let s1 := {| objects := objects s; writers := writers s; schedule := tail (schedule s) |} in
  match head (schedule s) with
  | Some FBefore | Some FAfter => (Err transport_error, s1)
  | Some FNone | None => (Ok (length (writers s)), set_writers (writers s ++ [(p, [])]) s1)
  end.
Definition mem_w_Write (w : nat) (b : bytes) (s : mem) : res unit * mem :=
  match writers s !! w with
  | Some (p, c) => (Ok tt, set_writers (<[w := (p, c ++ b)]> (writers s)) s)
  | None => (Err (ESentinel ErrWriterClosed), s)
  end.
Definition mem_w_Close (w : nat) (s : mem) : res unit * mem :=
  match writers s !! w with
  | Some (p, c) => (Ok tt, set_objects (<[p := c]> (objects s)) s)
  | None => (Err (ESentinel ErrWriterClosed), s)
  end.

Definition storage : Storage := {|
  store := mem;
  writer := nat;
  Read p := call (mem_Read p);
  Write p b := call (λ s, (Ok tt, set_objects (<[p := b]> (objects s)) s));
  Delete p := call (λ s, (Ok tt, set_objects (delete p (objects s)) s));
  List p := call (mem_List p);
  OpenWriter p := mem_OpenWriter p;
  w_Write w b := call (mem_w_Write w b);
  w_Close w := call (mem_w_Close w);
  w_abortable _ := true;
  w_Abort w := call (λ s, (Ok tt, s));
|}.

Lemma call_inv {A} (f : mem → res A * mem) s r s' :
  call f s = (r, s') →
  ∃ s1, objects s1 = objects s ∧ writers s1 = writers s ∧
    (f s1 = (r, s') ∨ r = Err transport_error ∧ (s' = s1 ∨ s' = (f s1).2)) .
Proof.
  unfold call. set (s1 := {| objects := _ |}). intros H. exists s1. split_and!; [done..|].
  destruct (head (schedule s)) as [[]|]; [by left| | |by left]; simplify_eq; eauto.
Qed.

Lemma mem_List_names p s n :
  n ∈ fi_Name <$> ((λ kv : string * bytes, {| fi_Name := kv.1; fi_Size := Z.of_nat (length kv.2) |}) <$>
       filter (λ kv, HasPrefix kv.1 p = true) (map_to_list (objects s))) ↔
  n ∈ dom (objects s) ∧ HasPrefix n p = true.
Proof.
  rewrite <- list_fmap_compose, list_elem_of_fmap. setoid_rewrite list_elem_of_filter. rewrite elem_of_dom. split.
  - intros ([k b] & -> & Hp & Hk%elem_of_map_to_list). simpl in *. eauto.
  - intros [[b Hb] Hp]. exists (n, b). by rewrite elem_of_map_to_list.
Qed.

Ltac mem_call H :=
  apply call_inv in H as (s1 & Hobj & Hwr & [Hf|[-> [->| ->]]]).

(** The in-memory storage keeps the contract, whatever the schedule. *)
Definition mem_pending (s : mem) (w : nat) (p : string) (c : bytes) : Prop := writers s !! w = Some (p, c).

Lemma preserved_writers s s' : writers s' = writers s → preserved (mem_pending s) (mem_pending s').
Proof. unfold preserved, mem_pending. by intros ->. Qed.

Lemma preserved_ne s s' w x :
  writers s' = <[w := x]> (writers s) →
  ∀ w' p c, w' ≠ w → mem_pending s w' p c → mem_pending s' w' p c.
Proof. unfold mem_pending. intros -> w' p c ?. by rewrite list_lookup_insert_ne. Qed.

Lemma preserved_others s s' : writers s' = writers s →
  ∀ (w w' : nat) p c, w' ≠ w → mem_pending s w' p c → mem_pending s' w' p c.
Proof. unfold mem_pending. by intros ->. Qed.

Program Definition laws : @StorageLaws storage := {|
  inv _ := True;
  view := objects : @store storage → gmap string bytes;
  pending := mem_pending : @store storage → @writer storage → string → bytes → Prop;
|}.
Next Obligation.
  intros p s r s' _ _ H. simpl in *. mem_call H; unfold mem_Read in *; simpl in *.
  - repeat case_match; simplify_eq; (split_and!; [done|congruence|by apply preserved_writers|by unfold returns, fails; eauto|by intros; simplify_eq; congruence|by intros; simplify_eq; congruence]).
  - split_and!; [done|congruence|by apply preserved_writers|right; by eexists|done|]. by intros e [= <-].
  - destruct (objects _ !! p); simpl; (split_and!; [done|done|by apply preserved_writers|right; by eexists|done|]); by intros e [= <-].
Qed.
Next Obligation.
  intros p b s r s' _ _ H. simpl in *. mem_call H; simplify_eq; simpl;
    (split_and!; [done|by apply preserved_writers|first [by left; eauto|by right; eexists]|]).
  - left; congruence.
  - right; split; [by eexists|done].
  - left; congruence.
Qed.
Next Obligation.
  intros p s r s' _ _ H. simpl in *. mem_call H; simplify_eq; simpl;
    (split_and!; [done|by apply preserved_writers|first [by left; eauto|by right; eexists]|]).
  - left; congruence.
  - right; split; [by eexists|done].
  - left; congruence.
Qed.
Next Obligation.
  intros p s r s' _ _ H. simpl in *. mem_call H; unfold mem_List in *; simplify_eq; simpl.
  - split_and!; [done|done|by apply preserved_writers|left; eauto|]. intros l [= <-] n.
    rewrite mem_List_names. by rewrite Hobj.
  - split_and!; [done|done|by apply preserved_writers|right; by eexists|done].
  - split_and!; [done|done|by apply preserved_writers|right; by eexists|done].
Qed.
Next Obligation.
  intros p s r s' _ _ H. simpl in *. unfold mem_OpenWriter in H.
  destruct (head (schedule s)) as [[]|]; simplify_eq; simpl;
    (split_and!; [done|done|first [by left; eauto|by right; eexists]| |]);
    try (by apply preserved_writers); try done.
  all: try (intros w q c Hw; unfold mem_pending in *; simpl; by apply lookup_app_l_Some).
  all: intros w [= <-]; unfold mem_pending; simpl; split; [intros q c Hq; by rewrite lookup_ge_None_2 in Hq|by apply list_lookup_middle].
Qed.
Next Obligation.
  intros w b s r s' p c _ H Hw. simpl in *. pose proof (lookup_lt_Some _ _ _ Hw) as Hlt.
  unfold mem_pending in Hw. mem_call H; unfold mem_w_Write in *.
  - rewrite Hwr, Hw in Hf. simplify_eq. split_and!; [done|done|left; eauto| | |by eapply preserved_ne].
    + intros _ _. by apply list_lookup_insert_eq.
    + exists (c ++ b). by apply list_lookup_insert_eq.
  - split_and!; [done|done|right; by eexists|done|exists c; unfold mem_pending; congruence|by apply preserved_others].
  - rewrite Hwr, Hw. split_and!; [done|done|right; by eexists|done| |by eapply preserved_ne].
    exists (c ++ b). by apply list_lookup_insert_eq.
Qed.
Next Obligation.
  intros w s r s' p c _ H Hw. simpl in *. unfold mem_pending in Hw. mem_call H; unfold mem_w_Close in *.
  - rewrite Hwr, Hw in Hf. simplify_eq. simpl.
    split_and!; [done|left; eauto|by apply preserved_others|left; congruence].
  - split_and!; [done|right; by eexists|by apply preserved_others|right; split; [by eexists|done]].
  - rewrite Hwr, Hw. simpl. split_and!; [done|right; by eexists|by apply preserved_others|left; congruence].
Qed.
Next Obligation. done. Qed.
Next Obligation.
  intros w s r s' p c _ H Hw. simpl in *. mem_call H; simplify_eq; simpl;
    (split_and!; [done|done|first [by left; eauto|by right; eexists]|by apply preserved_others]).
Qed.

End Mem.
