(* ===== verification/Client.v ===== *)
(** The client of [tsync/client.go]: [loadMetadata], the listings, and the
    two operations that remove data, [DeleteVersion] and [GC]. *)

From S2P Require Import Prelude Errors GoStrings Keys Digest Metadata ProtoExample.
From S2P Require Import TreeWalk TreeResolve TreeCollect Store.

(** The name of the metadata object. *)
Definition tsync : string := ".tsync".

Section Client.
Context {PR : Proto} {MR : MapRange} {ST : Storage}.

(** [loadMetadata]. *)
Definition loadMetadata : M store BackupMetadata :=
  let* pbBytes := wrap_err "failed to read .tsync metadata" (Read tsync) in
  match unmarshal_metadata pbBytes with
  | None => throw (Errorf "failed to parse .tsync" [ESentinel ErrCorruptMetadata; ELeaf "proto" false])
  | Some metadata =>
      if negb (SchemaVersion metadata =? 2)%Z then throw (EUnsupportedSchema (SchemaVersion metadata))
      else ret metadata
  end.

(** [Client.ListVersions]: a store without metadata has no versions. *)
Definition ListVersions : M store (list Version) :=
  handle (let* metadata := loadMetadata in ret (range (Versions metadata)).*2)
    (λ err, if errors_Is err ErrNotFound then ret [] else throw err).

(** [Client.ListFiles]. *)
Definition dir_listing (d : string) : string := if HasSuffix d "/" then d else d +:+ "/".
Definition ListFiles (versionID : Z) : M store (list string) :=
  let* metadata := loadMetadata in
  let* r := lift (ResolveVersionTree metadata versionID false) in
  ret ((range r.1).*1 ++ (dir_listing <$> r.2)).

(** [metadata] after [delete(metadata.Versions, vStr)] and the new time. *)
Definition without_version (vStr : string) (now : Z) (md : BackupMetadata) : BackupMetadata :=
  {| Versions := delete vStr (Versions md); Trees := Trees md; Files := Files md;
     PublicKeys := PublicKeys md; SchemaVersion := SchemaVersion md; StoreLabel := StoreLabel md;
     LastUpdated := Some (timestamppb_New now) |}.

(** The marking phase: every version's tree. *)
Definition collect_live (md : BackupMetadata) : res live_acc :=
  match collect_roots (Trees md) (RootTreeHash <$> (range (Versions md)).*2) (∅, ∅) with
  | Err e => Err (Errorf "failed to collect live resources" [e])
  | r => r
  end.

(** The sweep of [Trees] and [Files]. *)
Definition sweep (live : live_acc) (md : BackupMetadata) : BackupMetadata :=
  {| Versions := Versions md;
     Trees := filter (λ kv, kv.1 ∈ live.1) (Trees md);
     Files := filter (λ kv, kv.1 ∈ live.2) (Files md);
     PublicKeys := PublicKeys md; SchemaVersion := SchemaVersion md; StoreLabel := StoreLabel md;
     LastUpdated := LastUpdated md |}.

(** Marshals and writes the metadata; the messages are the caller's. *)
Definition write_metadata (marshal_msg write_msg : string) (md : BackupMetadata) : M store unit :=
  match marshal_metadata md with
  | None => throw (ELeaf marshal_msg false)
  | Some newPbBytes => wrap_err write_msg (Write tsync newPbBytes)
  end.
Definition save_metadata : BackupMetadata → M store unit :=
  write_metadata "failed to marshal updated metadata" "failed to write updated .tsync metadata file".

(** Deletes the part of one orphaned key; malformed keys have none. *)
Definition delete_part (key : string) : M store unit :=
  if MatchString fileKeyRegex key then
    let* partKey := lift (partKeyFor key) in ignore (Delete partKey)
  else ret tt.

(** [Client.DeleteVersion]. *)
Definition DeleteVersion (now : Z) (versionID : Z) : M store unit :=
  let* metadata := loadMetadata in
  let vStr := FormatUint versionID in
  match Versions metadata !! vStr with
  | None => throw (wrap1 ErrVersionNotFound "version not found in store")
  | Some _ =>
      let metadata := without_version vStr now metadata in
      let* live := lift (collect_live metadata) in
      let keysToDelete := filter (λ k, k ∉ live.2) (range (Files metadata)).*1 in
      let* _ := save_metadata (sweep live metadata) in
      for_each keysToDelete delete_part
  end.

(** Deletes a listed object that looks like a part but has no record. *)
Definition delete_orphan (validParts : gset string) (f : FileInfo) : M store unit :=
  if MatchString partKeyRegex (fi_Name f) then
    if bool_decide (path_Base (fi_Name f) ∈ validParts) then ret tt else ignore (Delete (fi_Name f))
  else ret tt.

Definition touch (now : Z) (md : BackupMetadata) : BackupMetadata :=
  {| Versions := Versions md; Trees := Trees md; Files := Files md; PublicKeys := PublicKeys md;
     SchemaVersion := SchemaVersion md; StoreLabel := StoreLabel md;
     LastUpdated := Some (timestamppb_New now) |}.

(** Whether the sweep removes something. *)
Definition metadataChanged (live : live_acc) (md : BackupMetadata) : bool :=
  existsb (λ k, bool_decide (k ∉ live.1)) (range (Trees md)).*1 ||
  existsb (λ k, bool_decide (k ∉ live.2)) (range (Files md)).*1.

(** [Client.GC]. *)
Definition GC (now : Z) : M store unit :=
  let* metadata := loadMetadata in
  let* live := lift (collect_live metadata) in
  let swept := sweep live metadata in
  let* _ := (if metadataChanged live metadata then save_metadata (touch now swept) else ret tt) in
  let* allFiles := wrap_err "failed to list files in storage" (List "") in
  for_each allFiles (delete_orphan (dom (Files swept))).

(** [Client.ReadMetadata] and [StoreMetadata.Reload]. *)
Definition ReadMetadata : M store BackupMetadata := loadMetadata.
Definition Reload (old : BackupMetadata) : store → res unit * (store * BackupMetadata) := λ s,
  match loadMetadata s with
  | (Ok md, s) => (Ok tt, (s, md))
  | (Err e, s) => (Err e, (s, old))
  | (Panic, s) => (Panic, (s, old))
  | (OutOfFuel, s) => (OutOfFuel, (s, old))
  end.

(** ** Pure facts about the sweep *)

Lemma collect_live_Ok md live :
  collect_live md = Ok live →
  collect_roots (Trees md) (RootTreeHash <$> (range (Versions md)).*2) (∅, ∅) = Ok live.
Proof. unfold collect_live. by destruct (collect_roots _ _ _). Qed.

Lemma collect_live_collected md live :
  collect_live md = Ok live →
  collected (Trees md) (RootTreeHash <$> (range (Versions md)).*2) live.
Proof. intros H%collect_live_Ok. by apply collect_roots_collected. Qed.

Lemma collect_live_cases md : collect_live md ≠ OutOfFuel ∧ collect_live md ≠ Panic.
Proof.
  unfold collect_live. pose proof (collect_roots_returns (Trees md) (RootTreeHash <$> (range (Versions md)).*2) (∅, ∅)).
  pose proof (collect_roots_no_panic (Trees md) (RootTreeHash <$> (range (Versions md)).*2) (∅, ∅)).
  by destruct (collect_roots _ _ _).
Qed.

Lemma root_collected md id v :
  Versions md !! id = Some v → RootTreeHash v ∈ RootTreeHash <$> (range (Versions md)).*2.
Proof.
  intros Hv%elem_of_range. apply list_elem_of_fmap. exists v. split; [done|].
  apply list_elem_of_fmap. by exists (id, v).
Qed.

Lemma file_at_live trees h path k : file_at trees h path k → live_key trees h k.
Proof.
  induction 1 as [h node name leaf Hn He|h node name h' path k Hn He _ (d & nd & e & l & Hd & ?)].
  - exists h, node, {| Name := name; Node := TreeEntry_File (Some leaf) |}, leaf. split_and!; done.
  - exists d, nd, e, l. split; [|done]. econstructor; [|done]. by exists node, {| Name := name; Node := TreeEntry_SubtreeHash h' |}.
Qed.

(** Sweeping changes no version's listing and keeps every listed key. *)
Lemma sweep_resolve md live u skip r :
  collect_live md = Ok live → ResolveVersionTree md u skip = Ok r →
  ResolveVersionTree (sweep live md) u skip = Ok r ∧ ∀ p k, r.1 !! p = Some k → k ∈ live.2.
Proof.
  intros [Ht Hk Hm]%collect_live_collected. unfold ResolveVersionTree, sweep. cbn [Versions Trees].
  destruct (Versions md !! FormatUint u) as [v|] eqn:Ev; [|done]. apply root_collected in Ev.
  set (h := RootTreeHash v) in *. intros Hw.
  assert (∀ d, rtc (child (Trees md)) h d → d ∈ live.1) as Hin by (intros d Hd; apply Ht; eauto).
  assert (∀ d, rtc (child (Trees md)) h d → node_ok (Trees md) d) as Hok
    by (intros d Hd; eapply node_marked_ok, Hm, Hin, Hd).
  split.
  - eapply walkTree_transfer; [|by intros _|done]. intros d Hd%Hin.
    destruct (Hm _ Hd) as (node & Hn & _). rewrite Hn. by apply map_lookup_filter_Some_2.
  - intros p k Hp. apply Hk. exists h. split; [done|].
    assert (walkTree (resolve_fuel (Trees md)) (Trees md) false h "" (∅, []) = Ok r) as Hs.
    { destruct skip; [|done]. by rewrite <- walkTree_skip_eq by done. }
    apply (walkTree_listing _ _ _ [] _ _ ltac:(constructor)) in Hs as (m & ds & -> & Hf & _).
    simpl in Hp. rewrite map_union_empty in Hp. apply Hf in Hp as (path & _ & Hp). by eapply file_at_live.
Qed.

Lemma resolve_without md v u now skip :
  FormatUint u ≠ FormatUint v →
  ResolveVersionTree (without_version (FormatUint v) now md) u skip = ResolveVersionTree md u skip.
Proof.
  intros Hne. unfold ResolveVersionTree, without_version. cbn [Versions Trees]. by rewrite lookup_delete_ne.
Qed.

Lemma partKeyFor_inj k k' n : partKeyFor k = Ok n → partKeyFor k' = Ok n → k = k'.
Proof.
  assert (∀ k, partKeyFor k = Ok n → chars k = drop 3 (chars n)) as Hd.
  { intros x. unfold partKeyFor. rewrite str_len_chars.
    destruct (Z.ltb_spec (Z.of_nat (length (chars x))) 2); [done|]. intros [= <-].
    rewrite !chars_app, chars_of_chars. change 3 with (2 + 1). rewrite <- drop_drop.
    rewrite drop_app_length' by (rewrite length_take; lia). done. }
  intros H H'. apply chars_inj. by rewrite (Hd _ H), (Hd _ H').
Qed.

Lemma partKeyFor_not_tsync k : partKeyFor k ≠ Ok tsync.
Proof.
  unfold partKeyFor. rewrite str_len_chars. destruct (Z.ltb_spec (Z.of_nat (length (chars k))) 2); [done|].
  destruct (chars k) as [|a [|b l]] eqn:E; simpl in *; [lia|lia|]. by intros [= ].
Qed.

Lemma partKeyFor_regex k : MatchString fileKeyRegex k = true → ∃ p, partKeyFor k = Ok p.
Proof.
  rewrite <- isValidFileKey_regex. unfold isValidFileKey, partKeyFor.
  destruct (Z.ltb_spec (str_len k) 10); [done|]. intros _.
  destruct (Z.ltb_spec (str_len k) 2); [lia|]. eauto.
Qed.

(** Parts have relative paths. *)
Definition word_char (c : ascii) : bool := negb (bool_decide (c = slash)).

Lemma plain_word l c k : l = c :: k → is_lower_hex c = true → plain_elem (of_chars l) = true.
Proof.
  intros -> Hc. assert (c ≠ "."%char) as Hne by (intros ->; by vm_compute in Hc).
  unfold plain_elem, HasPrefix. rewrite chars_of_chars. cbn.
  by rewrite !bool_decide_false by (congruence || (intros [= ? _]; congruence)).
Qed.

Lemma relative_part h k c1 l1 c2 l2 :
  h = c1 :: l1 → chars k = c2 :: l2 → is_lower_hex c1 = true → is_lower_hex c2 = true →
  forallb word_char h = true → forallb word_char (chars k) = true → relative (of_chars h +:+ "/" +:+ k).
Proof.
  intros Hh Hk H1 H2 Hw1 Hw2. unfold relative. change (of_chars h +:+ "/" +:+ k) with (join_slash [of_chars h; k]).
  assert (∀ s, forallb word_char (chars s) = true → has_char slash s = false) as Hns.
  { intros s Hs. apply has_char_false. intros Hi%list_elem_of_In. rewrite forallb_forall in Hs. apply Hs in Hi.
    unfold word_char in Hi. by rewrite bool_decide_true in Hi. }
  rewrite Split_join; [|done|repeat constructor; apply Hns; [by rewrite chars_of_chars|done]].
  cbn [forallb]. rewrite (plain_word _ _ _ Hh H1), <- (of_chars_chars k), (plain_word _ _ _ Hk H2). done.
Qed.

Lemma hex_word h : forallb is_lower_hex h = true → forallb word_char h = true.
Proof.
  rewrite !forallb_forall. intros H c Hc%H. unfold word_char. case_bool_decide as E; [|done]. subst c. by vm_compute in Hc.
Qed.
Lemma digit_word d : forallb is_digit d = true → forallb word_char d = true.
Proof. rewrite !forallb_forall. intros H c Hc%H. unfold word_char. case_bool_decide as E; [|done]. subst c. by vm_compute in Hc. Qed.

Lemma file_key_word h d : forallb is_lower_hex h = true → forallb is_digit d = true → forallb word_char (h ++ "_"%char :: d) = true.
Proof. intros Hh%hex_word Hd%digit_word. rewrite forallb_app. simpl. by rewrite Hh, Hd. Qed.

Lemma partKeyRegex_relative n : MatchString partKeyRegex n = true → relative n.
Proof.
  intros H. apply MatchString_lang in H. unfold partKeyRegex in H.
  apply lang_cat_iff in H as (u & v & E & Hu & Hv). apply lang_repeat_class in Hu as [Hl Hu].
  apply lang_cat_iff in Hv as (w & k & -> & Hw%lang_char & Hk). subst w.
  apply fileKeyRegex_lang in Hk as (h & d & -> & Hlh & Hh & _ & Hd).
  destruct u as [|c1 u]; [done|]. destruct h as [|c2 h]; [done|].
  assert (n = of_chars (c1 :: u) +:+ "/" +:+ of_chars ((c2 :: h) ++ "_"%char :: d)) as ->
    by (apply chars_inj; by rewrite E, !chars_app, !chars_of_chars).
  pose proof Hu as Hu'. pose proof Hh as Hh'. cbn [forallb] in Hu', Hh'. apply andb_true_iff in Hu' as [? _], Hh' as [? _].
  eapply relative_part; [done|by rewrite chars_of_chars|done|done|by apply hex_word|].
  rewrite chars_of_chars. by apply file_key_word.
Qed.

Lemma partKeyFor_relative k p : MatchString fileKeyRegex k = true → partKeyFor k = Ok p → relative p.
Proof.
  intros H Hp. apply MatchString_lang, fileKeyRegex_lang in H as (h & d & E & Hl & Hh & _ & Hd).
  unfold partKeyFor in Hp. destruct (_ <? _)%Z; [done|]. injection Hp as <-. rewrite E.
  destruct h as [|a [|b h]]; [done..|]. cbn [take app]. pose proof Hh as Hh'. cbn [forallb] in Hh'.
  apply andb_true_iff in Hh' as [? [? _]%andb_true_iff].
  eapply relative_part; [done|exact E|done|done| |rewrite E; by apply file_key_word].
  apply hex_word. cbn [forallb]. by rewrite H, H0.
Qed.

(** ** The operations, call by call *)

Section Laws.
Context {SL : StorageLaws} {PL : ProtoLaws}.

(** The store holds this metadata. *)
Definition stored_md (s : store) (md : BackupMetadata) : Prop :=
  inv s ∧ ∃ b, view s !! tsync = Some b ∧ unmarshal_metadata b = Some md.

Lemma stored_md_view s s' md : view s' = view s → inv s' → stored_md s md → stored_md s' md.
Proof. unfold stored_md. by intros -> ? [_ ?]. Qed.

Lemma stored_md_inj s md md' : stored_md s md → stored_md s md' → md = md'.
Proof. intros (_ & b & Hb & Hm) (_ & b' & Hb' & Hm'). congruence. Qed.

Lemma loadMetadata_spec s r s' :
  inv s → loadMetadata s = (r, s') →
  inv s' ∧ view s' = view s ∧ returns r ∧
  (∀ md, r = Ok md → stored_md s md ∧ SchemaVersion md = 2%Z) ∧
  (∀ e, r = Err e → errors_Is e ErrNotFound = true → view s !! tsync = None).
Proof.
  intros Hinv. unfold loadMetadata. unfold bind, wrap_err. destruct (Read tsync s) as [r1 s1] eqn:E.
  apply Read_law in E as (Hinv' & Hv & _ & Hret & Hok & Herr); [|done..].
  destruct r1 as [b|e| |]; [|intros [= <- <-]; split_and!;
    [done|done|by right; eexists|done|]|by destruct Hret as [[]|[]]..].
  2:{ intros e' [= <-]. simpl. rewrite orb_false_r. by apply Herr. }
  destruct (unmarshal_metadata b) as [md|] eqn:Em; [|intros [= <- <-]; split_and!; [done|done|by right; eexists|done|by intros e [= <-]]].
  destruct (Z.eqb_spec (SchemaVersion md) 2); intros [= <- <-].
  - split_and!; [done|done|by left; eexists| |done]. intros ? [= <-]. split; [|done]. split; [done|]. exists b. auto.
  - split_and!; [done|done|by right; eexists|done|by intros e [= <-]].
Qed.

Lemma write_metadata_spec m1 m2 md s r s' :
  inv s → md_canonical md → write_metadata m1 m2 md s = (r, s') →
  inv s' ∧ returns r ∧ (view s' = view s ∧ fails r ∨
    stored_md s' md ∧ ∀ n, n ≠ tsync → view s' !! n = view s !! n).
Proof.
  intros Hinv Hc. unfold write_metadata. destruct (marshal_metadata md) as [b|] eqn:Eb.
  2:{ intros [= <- <-]. split; [done|]. split; [by right; eexists|]. left. split; [done|by eexists]. }
  unfold wrap_err. destruct (Write tsync b s) as [r1 s1] eqn:E.
  apply Write_law in E as (Hinv' & _ & Hret & Hv); [|done..].
  assert (returns r ∧ (fails r ↔ fails r1) ∧ s1 = s' → inv s' ∧ returns r ∧ (view s' = view s ∧ fails r ∨
    stored_md s' md ∧ ∀ n, n ≠ tsync → view s' !! n = view s !! n)) as Hgo.
  { intros (? & Hf & <-). split; [done|]. split; [done|]. destruct Hv as [Hv|[??]]; [right|left; naive_solver].
    split; [|intros; by rewrite Hv, lookup_insert_ne].
    split; [done|]. exists b. rewrite Hv, lookup_insert_eq. split; [done|]. by apply unmarshal_marshal. }
  destruct r1 as [u|e| |]; intros [= <- <-]; apply Hgo; unfold returns, fails in *; naive_solver.
Qed.

Lemma ignore_spec {A} (c : M store A) s r s' :
  ignore c s = (r, s') → ∃ r1, c s = (r1, s') ∧ (returns r1 → r = Ok tt).
Proof.
  unfold ignore. destruct (c s) as [r1 s1]. intros H. exists r1.
  destruct r1; simplify_eq; (split; [done|]); intros [[]|[]]; done.
Qed.

(** A best-effort loop of deletions removes only objects it was asked to. *)
Lemma deletions {A} (f : A → M store unit) (target : A → string → Prop) l s :
  (∀ a s r s', a ∈ l → inv s → f a s = (r, s') → inv s' ∧ r = Ok tt ∧
     (view s' = view s ∨ ∃ n, target a n ∧ view s' = delete n (view s))) →
  inv s → ∀ r s', for_each l f s = (r, s') → inv s' ∧ r = Ok tt ∧
  ∀ n, view s' !! n = view s !! n ∨ (view s' !! n = None ∧ ∃ a, a ∈ l ∧ target a n).
Proof.
  revert s. induction l as [|a l IH]; intros s Hf Hinv r s'; simpl; [intros [= <- <-]; auto|].
  unfold bind. destruct (f a s) as [r1 s1] eqn:E.
  destruct (Hf _ _ _ _ ltac:(by left) Hinv E) as (Hinv1 & -> & Hv).
  intros (? & -> & Hn)%IH; [|intros; eapply Hf; [by right|done..]|done]. split_and!; [done..|]. intros n.
  destruct (Hn n) as [->|(? & b & ? & ?)]; [|right; split; [done|]; exists b; split; [by right|done]].
  destruct Hv as [->|(m & Hm & ->)]; [by left|]. destruct (decide (m = n)) as [->|].
  - right. rewrite lookup_delete_eq. split; [done|]. exists a. split; [by left|done].
  - left. by rewrite lookup_delete_ne.
Qed.

Lemma delete_part_spec key s r s' :
  inv s → delete_part key s = (r, s') → inv s' ∧ r = Ok tt ∧
  (view s' = view s ∨ ∃ n, (partKeyFor key = Ok n) ∧ view s' = delete n (view s)).
Proof.
  intros Hinv. unfold delete_part. destruct (MatchString fileKeyRegex key) eqn:E; [|intros [= <- <-]; auto].
  destruct (partKeyFor_regex _ E) as [p Hp]. unfold bind, lift. rewrite Hp.
  intros (r1 & (? & _ & Hr & Hv)%Delete_law & Hret)%ignore_spec; [|done|by eapply partKeyFor_relative]. split_and!; [done|auto|].
  destruct Hv as [->|[_ ->]]; eauto.
Qed.

Lemma delete_orphan_spec valid f s r s' :
  inv s → delete_orphan valid f s = (r, s') → inv s' ∧ r = Ok tt ∧
  (view s' = view s ∨ ∃ n, (n = fi_Name f ∧ MatchString partKeyRegex n = true ∧ path_Base n ∉ valid) ∧
                           view s' = delete n (view s)).
Proof.
  intros Hinv. unfold delete_orphan. destruct (MatchString partKeyRegex (fi_Name f)) eqn:E; [|intros [= <- <-]; auto].
  case_bool_decide; [intros [= <- <-]; auto|].
  intros (r1 & (? & _ & Hr & Hv)%Delete_law & Hret)%ignore_spec; [|done|by apply partKeyRegex_relative]. split_and!; [done|auto|].
  destruct Hv as [->|[_ ->]]; [right; by exists (fi_Name f)|by left].
Qed.

Lemma sweep_canonical live md : md_canonical md → md_canonical (sweep live md).
Proof.
  intros (Hv & Ht & Hf & Hs). split_and!; [done| | |done]; cbn [Trees Files sweep];
    intros k a [Hk _]%map_lookup_filter_Some; eauto.
Qed.

Lemma without_canonical v now md : md_canonical md → md_canonical (without_version v now md).
Proof.
  intros (Hv & Ht & Hf & Hs). split_and!; [|done..]. cbn [Versions without_version].
  intros k a [_ Hk]%lookup_delete_Some. eauto.
Qed.

(** Everything a [DeleteVersion] call can do. *)
Lemma DeleteVersion_effect now v s r s' md :
  DeleteVersion now v s = (r, s') → stored_md s md →
  returns r ∧
  ((fails r ∧ view s' = view s ∧ inv s') ∨
   ∃ live, collect_live (without_version (FormatUint v) now md) = Ok live ∧
     is_Some (Versions md !! FormatUint v) ∧
     stored_md s' (sweep live (without_version (FormatUint v) now md)) ∧
     ∀ n, n ≠ tsync → view s' !! n = view s !! n ∨
       (r = Ok tt ∧ view s' !! n = None ∧ (∃ k, k ∈ dom (Files md) ∧ (k ∉ live.2) ∧ partKeyFor k = Ok n))).
Proof.
  unfold DeleteVersion. intros H Hmd. destruct (loadMetadata s) as [r0 s0] eqn:El.
  pose proof El as (Hinv0 & Hv0 & Hret0 & Hok0 & _)%loadMetadata_spec; [|by destruct Hmd].
  unfold bind at 1 in H. rewrite El in H.
  destruct r0 as [md0|e| |]; [|simplify_eq; split; [by right; eexists|left; split_and!; [by eexists|done..]]|by destruct Hret0 as [[]|[]]..].
  destruct (Hok0 md0 eq_refl) as [Hmd0 _].
  assert (md0 = md) as -> by exact (stored_md_inj _ _ _ Hmd0 Hmd).
  destruct (Versions md !! FormatUint v) as [ver|] eqn:Ev;
    [|unfold throw in H; simplify_eq; split; [by right; eexists|left; split_and!; [by eexists|done..]]].
  set (md1 := without_version (FormatUint v) now md) in *.
  assert (collect_live md1 ≠ OutOfFuel ∧ collect_live md1 ≠ Panic) as [Hn1 Hn2] by apply collect_live_cases.
  unfold bind at 1, lift in H. destruct (collect_live md1) as [live|e| |] eqn:Ec; try done;
    [|simplify_eq; split; [by right; eexists|left; split_and!; [by eexists|done..]]].
  assert (md_canonical (sweep live md1)) as Hcan.
  { destruct Hmd as (_ & b & _ & Hm%unmarshal_canonical). by apply sweep_canonical, without_canonical. }
  unfold bind at 1 in H. destruct (save_metadata (sweep live md1) s0) as [r1 s1] eqn:Es.
  destruct (write_metadata_spec _ _ _ _ _ _ Hinv0 Hcan Es) as (Hinv1 & Hr1 & Hs1).
  assert (∀ e, r1 = Err e → (r, s') = (Err e, s1) → returns r ∧
    ((fails r ∧ view s' = view s ∧ inv s') ∨ ∃ live', (Ok live : res live_acc) = Ok live' ∧ is_Some (Some ver) ∧
     stored_md s' (sweep live' md1) ∧ ∀ n, n ≠ tsync → view s' !! n = view s !! n ∨
       (r = Ok tt ∧ view s' !! n = None ∧ (∃ k, k ∈ dom (Files md) ∧ (k ∉ live'.2) ∧ partKeyFor k = Ok n)))) as Hfail.
  { intros e -> [= -> ->]. split; [by right; eexists|]. destruct Hs1 as [[Hs1 _]|[Hs1 Hn]].
    - left. split_and!; [by eexists|congruence|done].
    - right. exists live. split_and!; [done|eauto|done|]. intros n Hne. left. rewrite <- Hv0. auto. }
  destruct r1 as [u|e| |]; [|by eapply Hfail; eauto|by destruct Hr1 as [[]|[]]..].
  destruct Hs1 as [[_ []]|[Hs1 Hn]]; [done|].
  eapply (deletions _ (λ k n, partKeyFor k = Ok n)) in H as (Hinv' & -> & Hd); [|intros; by apply delete_part_spec|done].
  split; [by left; eexists|]. right. exists live. split_and!; [done|eauto| |].
  - destruct Hs1 as (_ & b & Hb & Hm). split; [done|]. exists b. split; [|done]. destruct (Hd tsync) as [->|(_ & k & _ & Hk)]; [done|].
    by apply partKeyFor_not_tsync in Hk.
  - intros n Hne. destruct (Hd n) as [->|(? & k & Hk & ?)]; [left; rewrite <- Hv0; auto|right].
    split_and!; [done..|]. exists k. apply list_elem_of_filter in Hk as [? Hk]. split_and!; [|done..].
    apply list_elem_of_fmap in Hk as ([k' rec] & -> & Hk%elem_of_range). by eapply elem_of_dom_2.
Qed.

(** The metadata [GC] leaves behind. *)
Definition gc_md (now : Z) (live : live_acc) (md : BackupMetadata) : BackupMetadata :=
  if metadataChanged live md then touch now (sweep live md) else md.

Lemma existsb_keys_false {A} (m : gmap string A) (X : gset string) :
  existsb (λ k, bool_decide (k ∉ X)) (range m).*1 = false → filter (λ kv, kv.1 ∈ X) m = m.
Proof.
  rewrite existsb_false_Forall, Forall_forall. intros H. apply map_filter_id. intros k a Hk%elem_of_range.
  specialize (H k ltac:(by apply (list_elem_of_fmap_2 fst) in Hk)). apply bool_decide_eq_false in H.
  simpl. by destruct (decide (k ∈ X)).
Qed.

Lemma sweep_unchanged live md : metadataChanged live md = false → sweep live md = md.
Proof.
  unfold metadataChanged. intros [H1%existsb_keys_false H2%existsb_keys_false]%orb_false_iff.
  unfold sweep. rewrite H1, H2. by destruct md.
Qed.

(** Everything a [GC] call can do. *)
Lemma GC_effect now s r s' md :
  GC now s = (r, s') → stored_md s md →
  returns r ∧
  ((fails r ∧ view s' = view s ∧ inv s') ∨
   ∃ live, collect_live md = Ok live ∧ stored_md s' (gc_md now live md) ∧
     ∀ n, n ≠ tsync → view s' !! n = view s !! n ∨
       (r = Ok tt ∧ view s' !! n = None ∧
        MatchString partKeyRegex n = true ∧ path_Base n ∉ dom (Files (sweep live md)))).
Proof.
  unfold GC. intros H Hmd. destruct (loadMetadata s) as [r0 s0] eqn:El.
  pose proof El as (Hinv0 & Hv0 & Hret0 & Hok0 & _)%loadMetadata_spec; [|by destruct Hmd].
  unfold bind at 1 in H. rewrite El in H.
  destruct r0 as [md0|e| |]; [|simplify_eq; split; [by right; eexists|left; split_and!; [by eexists|done..]]|by destruct Hret0 as [[]|[]]..].
  destruct (Hok0 md0 eq_refl) as [Hmd0 _].
  assert (md0 = md) as -> by exact (stored_md_inj _ _ _ Hmd0 Hmd).
  assert (collect_live md ≠ OutOfFuel ∧ collect_live md ≠ Panic) as [Hn1 Hn2] by apply collect_live_cases.
  unfold bind at 1, lift in H. destruct (collect_live md) as [live|e| |] eqn:Ec; try done;
    [|simplify_eq; split; [by right; eexists|left; split_and!; [by eexists|done..]]].
  set (save := if metadataChanged live md then _ else _) in H.
  assert (∀ r1 s1, save s0 = (r1, s1) → inv s1 ∧ returns r1 ∧ (view s1 = view s ∧ fails r1 ∨
    stored_md s1 (gc_md now live md) ∧ ∀ n, n ≠ tsync → view s1 !! n = view s !! n)) as Hsave.
  { intros r1 s1. subst save. unfold gc_md. destruct (metadataChanged live md).
    - rewrite <- Hv0. apply write_metadata_spec; [done|]. destruct Hmd as (_ & b & _ & Hm%unmarshal_canonical).
      apply (sweep_canonical live) in Hm. exact Hm.
    - intros [= <- <-]. split; [done|]. split; [by left; eexists|]. right. split; [by eapply stored_md_view|].
      intros n _. by rewrite Hv0. }
  unfold bind at 1 in H. destruct (save s0) as [r1 s1] eqn:Es. destruct (Hsave _ _ eq_refl) as (Hinv1 & Hr1 & Hs1).
  assert (stored_md s1 (gc_md now live md) ∧ (∀ n, n ≠ tsync → view s1 !! n = view s !! n) →
    ∀ s2, view s2 = view s1 → inv s2 → ∀ e, returns (Err e : res unit) ∧
    ((fails (Err e : res unit) ∧ view s2 = view s ∧ inv s2) ∨ ∃ live', (Ok live : res live_acc) = Ok live' ∧
     stored_md s2 (gc_md now live' md) ∧ ∀ n, n ≠ tsync → view s2 !! n = view s !! n ∨
       ((Err e : res unit) = Ok tt ∧ view s2 !! n = None ∧
        MatchString partKeyRegex n = true ∧ path_Base n ∉ dom (Files (sweep live' md))))) as Hfail.
  { intros [Hst Hn] s2 Hv2 Hinv2 e. split; [by right; eexists|]. right. exists live.
    split_and!; [done|by eapply stored_md_view|]. intros n Hne. left. rewrite Hv2. auto. }
  destruct r1 as [u|e| |]; [| |by destruct Hr1 as [[]|[]]..].
  2:{ simplify_eq. destruct Hs1 as [[Hs1 _]|Hs1]; [|by apply Hfail].
      split; [by right; eexists|]. left. split_and!; [by eexists|done..]. }
  destruct Hs1 as [[_ []]|Hs1]; [done|]. specialize (Hfail Hs1).
  unfold bind, wrap_err in H. destruct (List "" s1) as [r2 s2] eqn:EL.
  apply List_law in EL as (Hinv2 & Hv2 & _ & Hr2 & Hl); [|done..].
  destruct r2 as [l|e| |]; [|simplify_eq; by apply Hfail|by destruct Hr2 as [[]|[]]..].
  eapply (deletions _ (λ f n, n = fi_Name f ∧ MatchString partKeyRegex n = true ∧ path_Base n ∉ dom (Files (sweep live md)))) in H
    as (Hinv' & -> & Hd); [|intros; by apply delete_orphan_spec|done].
  split; [by left; eexists|]. right. exists live. destruct Hs1 as [(_ & b & Hb & Hm) Hn]. split_and!; [done| |].
  - split; [done|]. exists b. split; [|done]. rewrite <- Hb, <- Hv2. destruct (Hd tsync) as [?|(_ & f & _ & _ & Hx & _)]; [done|].
    by vm_compute in Hx.
  - intros n Hne. destruct (Hd n) as [->|(? & f & _ & _ & ? & ?)]; [left; rewrite Hv2; auto|right; done].
Qed.

End Laws.
End Client.

(** ** A store with two versions, for evaluation *)
Module ClientExample.

Definition leaf3 : FileLeaf := {| leaf_Crc32 := 1; leaf_UncompressedSize := 1 |}.
Definition node3 : TreeNode :=
  {| Entries := [{| Name := "d.bin"; Node := TreeEntry_File (Some leaf3) |};
                 {| Name := "sub"; Node := TreeEntry_SubtreeHash Example.hash_sub |}] |}.
Definition hash3 : string := "60f9ad976948c9d123f5749651aae5e56a2d5ed8ee1e86c216abe87c2c46c489".
Definition record (l : FileLeaf) : FileRecord :=
  {| EphemeralPublicKey := []; EncryptedZipPassword := []; KeyId := None; Crc32 := leaf_Crc32 l;
     CompressedSize := 12; UncompressedSize := leaf_UncompressedSize l; LastModified := None |}.
Definition version2 : Version :=
  {| SnowflakeId := 78; BackupTimestamp := Some {| Seconds := 1700000100; Nanos := 0 |};
     RootTreeHash := hash3; PrecedingVersionId := 77; Label := "v2" |}.
Definition md : BackupMetadata :=
  {| Versions := list_to_map [("77", Example.version1); ("78", version2)];
     Trees := <[hash3 := node3]> Example.trees;
     Files := list_to_map [("cbf43926_9", record Example.leaf1); ("00000000_0", record Example.leaf2);
                           ("00000001_1", record leaf3)];
     PublicKeys := ∅; SchemaVersion := 2; StoreLabel := None; LastUpdated := None |}.

(** What deleting version 78 at time 5 leaves. *)
Definition md_after : BackupMetadata :=
  {| Versions := {["77" := Example.version1]}; Trees := Example.trees;
     Files := list_to_map [("cbf43926_9", record Example.leaf1); ("00000000_0", record Example.leaf2)];
     PublicKeys := ∅; SchemaVersion := 2; StoreLabel := None;
     LastUpdated := Some {| Seconds := 0; Nanos := 5 |} |}.
Definition proto : Proto := ProtoExample.table_proto [md; md_after].

Lemma laws : @ProtoLaws proto.
Proof.
  apply ProtoExample.table_proto_laws.
  repeat (apply Forall_cons_2; [apply ProtoExample.md_canonical_b_sound; vm_compute; reflexivity|]).
  apply Forall_nil_2.
Qed.

(** The objects of the store. *)
Definition objects : gmap string bytes :=
  list_to_map [(tsync, []); ("cb/cbf43926_9", bytes_of_string "one"); ("00/00000000_0", bytes_of_string "two");
               ("00/00000001_1", bytes_of_string "three"); ("ff/ffffffff_7", bytes_of_string "orphan")].
Definition mem (schedule : list Mem.fault) : Mem.mem :=
  {| Mem.objects := objects; Mem.writers := []; Mem.schedule := schedule |}.

Example GC_runs :
  let r := @GC proto some_range Mem.storage 5 (mem []) in
  r.1 = Ok tt ∧ Mem.objects r.2 = delete "ff/ffffffff_7" objects.
Proof. split; [vm_compute; reflexivity|by_eval]. Qed.

End ClientExample.

(** ** Properties *)

Section Properties.
Context {PR : Proto} {MR : MapRange} {ST : Storage} {SL : StorageLaws} {PL : ProtoLaws}.

(** C8. Deleting a version, whether the call succeeds, fails or is cut off by
    storage errors at any point, leaves readable metadata in which every
    other version resolves to the same listing as before, with the same
    record and the same part object for each of its files. *)
Theorem DeleteVersion_safe now versionID s r s' md :
  DeleteVersion now versionID s = (r, s') → stored_md s md →
  returns r ∧ ∃ md', stored_md s' md' ∧
    ∀ u skip listing, u ≠ versionID → ResolveVersionTree md u skip = Ok listing →
      ResolveVersionTree md' u skip = Ok listing ∧
      ∀ p k, listing.1 !! p = Some k →
        Files md' !! k = Files md !! k ∧ ∀ n, partKeyFor k = Ok n → view s' !! n = view s !! n.
Proof.
  intros H Hmd. destruct (DeleteVersion_effect _ _ _ _ _ _ H Hmd) as [Hr Heff]. split; [done|].
  destruct Heff as [(_ & Hv & Hinv)|(live & Hlive & _ & Hst & Hn)].
  { exists md. split; [by eapply stored_md_view|]. intros. split; [done|]. by rewrite Hv. }
  eexists. split; [exact Hst|]. intros u skip listing Hu Hres.
  rewrite <- (resolve_without md versionID u now) in Hres by (intros E; by apply Hu, fmt_d_inj).
  destruct (sweep_resolve _ _ _ _ _ Hlive Hres) as [Hres' Hkeys]. split; [done|].
  intros p k Hk%Hkeys. split.
  - cbn [Files sweep without_version]. apply option_eq. intros x.
    rewrite map_lookup_filter_Some. simpl. naive_solver.
  - intros n Hp. destruct (Hn n) as [->|(_ & _ & k' & _ & Hk' & Hp')]; [by intros ->; apply partKeyFor_not_tsync in Hp|done|].
    by rewrite (partKeyFor_inj _ _ _ Hp Hp') in Hk.
Qed.

(** C31. A successful deletion removes the version and everything only it
    used: what remains in the metadata is exactly what the other versions
    reach, and an object of the storage is gone only if it is the part of a
    record that no remaining version refers to. *)
Theorem DeleteVersion_complete now versionID s s' md :
  DeleteVersion now versionID s = (Ok tt, s') → stored_md s md →
  ∃ md', stored_md s' md' ∧ is_Some (Versions md !! FormatUint versionID) ∧
    Versions md' = delete (FormatUint versionID) (Versions md) ∧
    (∀ d, is_Some (Trees md' !! d) ↔ is_Some (Trees md !! d) ∧
       ∃ id v, Versions md' !! id = Some v ∧ rtc (child (Trees md)) (RootTreeHash v) d) ∧
    (∀ k, is_Some (Files md' !! k) ↔ is_Some (Files md !! k) ∧
       ∃ id v, Versions md' !! id = Some v ∧ live_key (Trees md) (RootTreeHash v) k) ∧
    (∀ n, n ≠ tsync → view s' !! n ≠ view s !! n →
       ∃ k, is_Some (Files md !! k) ∧ Files md' !! k = None ∧ partKeyFor k = Ok n).
Proof.
  intros H Hmd. destruct (DeleteVersion_effect _ _ _ _ _ _ H Hmd) as [_ [([e [=]] & _)|(live & Hlive & Hex & Hst & Hn)]].
  pose proof (collect_live_collected _ _ Hlive) as [Ht Hk _]. cbn [Versions Trees without_version] in Ht, Hk.
  assert (∀ P : string → Prop, (∃ r, r ∈ RootTreeHash <$> (range (delete (FormatUint versionID) (Versions md))).*2 ∧ P r) ↔
    ∃ id v, delete (FormatUint versionID) (Versions md) !! id = Some v ∧ P (RootTreeHash v)) as Hroots.
  { intros P. split.
    - intros (r & (v & -> & ([id v'] & -> & Hv%elem_of_range)%list_elem_of_fmap)%list_elem_of_fmap & ?). eauto.
    - intros (id & v & Hv & ?). exists (RootTreeHash v). split; [|done].
      apply (root_collected (without_version (FormatUint versionID) now md) id v Hv). }
  eexists. split; [exact Hst|]. split_and!; [done|done| | |]; cbn [Trees Files Versions sweep without_version].
  - intros d. rewrite <- (Hroots (λ r, rtc (child (Trees md)) r d)), <- Ht. unfold is_Some. setoid_rewrite map_lookup_filter_Some. simpl. naive_solver.
  - intros k. rewrite <- (Hroots (λ r, live_key (Trees md) r k)), <- Hk. unfold is_Some. setoid_rewrite map_lookup_filter_Some. simpl. naive_solver.
  - intros n Hne Hdiff. destruct (Hn n Hne) as [?|(_ & _ & k & [rec Hrec]%elem_of_dom & Hlk & Hp)]; [done|].
    exists k. split_and!; [eauto| |done]. apply map_lookup_filter_None. right. intros x _. done.
Qed.

(** C9. Garbage collection, whether it succeeds or fails at any point, keeps
    every version resolving to the same listing and never touches the part
    of a file that has a record and that some version contains; it deletes
    only objects whose name has the form of a part. *)
Theorem GC_safe now s r s' md :
  GC now s = (r, s') → stored_md s md →
  returns r ∧ ∃ md', stored_md s' md' ∧ Versions md' = Versions md ∧
    (∀ u skip listing, ResolveVersionTree md u skip = Ok listing →
      ResolveVersionTree md' u skip = Ok listing ∧
      ∀ p k, listing.1 !! p = Some k → is_Some (Files md !! k) → 
        Files md' !! k = Files md !! k ∧
        ∀ n, path_Base n = k → n ≠ tsync → view s' !! n = view s !! n) ∧
    (∀ n, n ≠ tsync → view s' !! n ≠ view s !! n →
      view s' !! n = None ∧ MatchString partKeyRegex n = true ∧ Files md' !! path_Base n = None).
Proof.
  intros H Hmd. destruct (GC_effect _ _ _ _ _ H Hmd) as [Hr Heff]. split; [done|].
  destruct Heff as [(_ & Hv & Hinv)|(live & Hlive & Hst & Hn)].
  { exists md. split_and!; [by eapply stored_md_view|done| |by rewrite Hv].
    intros. split; [done|]. by rewrite Hv. }
  assert (Versions (gc_md now live md) = Versions md ∧ Trees (gc_md now live md) = Trees (sweep live md) ∧
    Files (gc_md now live md) = Files (sweep live md)) as (Ev & Et & Ef).
  { unfold gc_md. destruct (metadataChanged live md) eqn:E; [done|]. by rewrite (sweep_unchanged _ _ E). }
  exists (gc_md now live md). split_and!; [done|done| |].
  - intros u skip listing Hres. destruct (sweep_resolve _ _ _ _ _ Hlive Hres) as [Hres' Hkeys].
    split; [by unfold ResolveVersionTree in *; rewrite Ev, Et|]. intros p k Hk%Hkeys Hrec.
    assert (Files (sweep live md) !! k = Files md !! k) as Hfk.
    { cbn [Files sweep]. apply option_eq. intros x. rewrite map_lookup_filter_Some. simpl. naive_solver. }
    rewrite Ef. split; [done|]. intros n <- Hne. destruct (Hn n Hne) as [|(_ & _ & _ & Hx)]; [done|].
    destruct Hx. by rewrite elem_of_dom, Hfk.
  - intros n Hne Hdiff. destruct (Hn n Hne) as [?|(_ & ? & ? & Hx)]; [done|].
    rewrite Ef. split_and!; [done..|]. by apply not_elem_of_dom.
Qed.

End Properties.

Lemma DeleteVersion_safe_witness :
  let PR := ClientExample.proto in let MR := some_range in let ST := Mem.storage in
  let SL := Mem.laws in let s := ClientExample.mem [Mem.FNone; Mem.FNone; Mem.FAfter] in
  let out := DeleteVersion 5 78 s in
  returns out.1 ∧ ∃ md', stored_md out.2 md' ∧
    ∀ u skip listing, u ≠ 78%Z → ResolveVersionTree ClientExample.md u skip = Ok listing →
      ResolveVersionTree md' u skip = Ok listing ∧
      ∀ p k, listing.1 !! p = Some k →
        Files md' !! k = Files ClientExample.md !! k ∧
        ∀ n, partKeyFor k = Ok n → view out.2 !! n = view s !! n.
Proof.
  intros PR MR ST SL s out.
  apply (@DeleteVersion_safe PR MR ST SL ClientExample.laws 5 78 s out.1 out.2 ClientExample.md).
  - apply surjective_pairing.
  - split; [exact I|]. exists []. split; [by_eval|reflexivity].
Defined.

Lemma DeleteVersion_complete_witness :
  let PR := ClientExample.proto in let MR := some_range in let ST := Mem.storage in
  let SL := Mem.laws in let s := ClientExample.mem [] in let s' := (DeleteVersion 5 78 s).2 in
  ∃ md', stored_md s' md' ∧ is_Some (Versions ClientExample.md !! FormatUint 78) ∧
    Versions md' = delete (FormatUint 78) (Versions ClientExample.md) ∧
    (∀ d, is_Some (Trees md' !! d) ↔ is_Some (Trees ClientExample.md !! d) ∧
       ∃ id v, Versions md' !! id = Some v ∧ rtc (child (Trees ClientExample.md)) (RootTreeHash v) d) ∧
    (∀ k, is_Some (Files md' !! k) ↔ is_Some (Files ClientExample.md !! k) ∧
       ∃ id v, Versions md' !! id = Some v ∧ live_key (Trees ClientExample.md) (RootTreeHash v) k) ∧
    (∀ n, n ≠ tsync → view s' !! n ≠ view s !! n →
       ∃ k, is_Some (Files ClientExample.md !! k) ∧ Files md' !! k = None ∧ partKeyFor k = Ok n).
Proof.
  intros PR MR ST SL s s'.
  apply (@DeleteVersion_complete PR MR ST SL ClientExample.laws 5 78 s s' ClientExample.md).
  - assert ((DeleteVersion 5 78 s).1 = Ok tt) as E by (vm_compute; reflexivity).
    rewrite <- E. apply surjective_pairing.
  - split; [exact I|]. exists []. split; [by_eval|reflexivity].
Defined.

Lemma GC_safe_witness :
  let PR := ClientExample.proto in let MR := some_range in let ST := Mem.storage in
  let SL := Mem.laws in let s := ClientExample.mem [Mem.FNone; Mem.FNone; Mem.FAfter] in let out := GC 5 s in
  returns out.1 ∧ ∃ md', stored_md out.2 md' ∧ Versions md' = Versions ClientExample.md ∧
    (∀ u skip listing, ResolveVersionTree ClientExample.md u skip = Ok listing →
      ResolveVersionTree md' u skip = Ok listing ∧
      ∀ p k, listing.1 !! p = Some k → is_Some (Files ClientExample.md !! k) → 
        Files md' !! k = Files ClientExample.md !! k ∧
        ∀ n, path_Base n = k → n ≠ tsync → view out.2 !! n = view s !! n) ∧
    (∀ n, n ≠ tsync → view out.2 !! n ≠ view s !! n →
      view out.2 !! n = None ∧ MatchString partKeyRegex n = true ∧ Files md' !! path_Base n = None).
Proof.
  intros PR MR ST SL s out.
  apply (@GC_safe PR MR ST SL ClientExample.laws 5 s out.1 out.2 ClientExample.md).
  - apply surjective_pairing.
  - split; [exact I|]. exists []. split; [by_eval|reflexivity].
Defined.
