(* ===== verification/ObjectStorage.v ===== *)
(** Storage on top of an object store ([ObjectStorage],
    [objectStorageWriter] and [StorageReaderAt] of [tsync/storage.go]).

    The provider client ([storage_clients.ObjectStorageClient]) is an
    interface whose laws are the documented behaviour of multipart uploads
    on S3 and OCI; against them [ObjectStorage] is shown to implement the
    [Storage] interface of Store.v. *)

From stdpp Require Import list_numbers.
From S2P Require Import Prelude Errors GoStrings Digest Store.
#[local] Open Scope Z_scope.

(** ** The provider client *)

Class ObjectStorageClient := {
  world : Type;
  Initiate : string → world → res string * world;
  UploadPart : string → string → Z → bytes → world → res string * world;
  Complete : string → string → gmap Z string → world → res unit * world;
  Abort : string → string → world → res unit * world;
  PutObject : string → bytes → world → res unit * world;
  DeleteObject : string → world → res unit * world;
  ListObjects : string → world → res (list FileInfo) * world;
  GetObjectSize : string → world → res Z * world;
  GetObjectRange : string → Z → Z → world → res stream * world;
}.

(** ** Part sizes *)

Definition initialPartSize : Z := Z.shiftl 8 20.
Definition maxPartSize : Z := Z.shiftl 5 30.
Definition partSizeStep : Z := 1000.
Definition maxMultipartParts : Z := 10000.

(** [for ; shift > 0 && size < maxPartSize; shift-- { size <<= 1 }]. *)
Fixpoint double_size (shift : nat) (size : Z) : Z :=
  match shift with
  | O => size
  | S shift => if size <? maxPartSize then double_size shift (i64 (Z.shiftl size 1)) else size
  end.

(** [partSizeFor]. *)
Definition partSizeFor (n : Z) : Z :=
  let shift := Z.quot (n - 1) partSizeStep in
  let shift := if shift <? 0 then 0 else shift in
  let size := double_size (Z.to_nat shift) initialPartSize in
  if maxPartSize <? size then maxPartSize else size.

(** ** The buffered writer *)

(** [objectStorageWriter].  [bufcap] is [cap(w.buf)] and [pooled] whether
    the buffer belongs to [partBufPool]; the pool holds buffers of
    [initialPartSize]. *)
Record osw := {
  key : string;
  uploadID : string;
  partNumber : Z;
  buf : bytes;
  bufcap : Z;
  pooled : bool;
  etags : gmap Z string;
  err : option error;
  closed : bool;
}.

Definition newObjectStorageWriter (k : string) : osw :=
  {| key := k; uploadID := ""; partNumber := 1; buf := []; bufcap := 0; pooled := false;
     etags := ∅; err := None; closed := false |}.

Definition set_buf (b : bytes) (w : osw) : osw :=
  {| key := key w; uploadID := uploadID w; partNumber := partNumber w; buf := b; bufcap := bufcap w;
     pooled := pooled w; etags := etags w; err := err w; closed := closed w |}.
Definition set_alloc (cap : Z) (p : bool) (w : osw) : osw :=
  {| key := key w; uploadID := uploadID w; partNumber := partNumber w; buf := []; bufcap := cap;
     pooled := p; etags := etags w; err := err w; closed := closed w |}.
Definition set_upload (id : string) (w : osw) : osw :=
  {| key := key w; uploadID := id; partNumber := partNumber w; buf := buf w; bufcap := bufcap w;
     pooled := pooled w; etags := ∅; err := err w; closed := closed w |}.
Definition set_part (etag : string) (w : osw) : osw :=
  {| key := key w; uploadID := uploadID w; partNumber := partNumber w + 1; buf := []; bufcap := bufcap w;
     pooled := pooled w; etags := <[partNumber w := etag]> (etags w); err := err w; closed := closed w |}.
Definition set_err (e : error) (w : osw) : osw :=
  {| key := key w; uploadID := uploadID w; partNumber := partNumber w; buf := buf w; bufcap := bufcap w;
     pooled := pooled w; etags := etags w; err := Some e; closed := closed w |}.
Definition set_closed (w : osw) : osw :=
  {| key := key w; uploadID := uploadID w; partNumber := partNumber w; buf := buf w; bufcap := bufcap w;
     pooled := pooled w; etags := etags w; err := err w; closed := true |}.

(** [releaseBuffer] and [ensureBuffer]. *)
Definition releaseBuffer (w : osw) : osw := set_alloc 0 false w.
Definition ensureBuffer (size : Z) (w : osw) : osw :=
  if size <=? bufcap w then w
  else if size =? initialPartSize then set_alloc initialPartSize true (releaseBuffer w)
  else set_alloc size false (releaseBuffer w).

Section Writer.
Context {OC : ObjectStorageClient}.

(** Calls of the writer work on the writer and the provider. *)
Abbreviation W := (M (osw * world)).

Definition on_world {A} (c : world → res A * world) : W A := λ s,
  let '(r, o) := c s.2 in (r, (s.1, o)).
Definition writer_get : W osw := λ s, (Ok s.1, s).
Definition update (f : osw → osw) : W unit := modify (λ s, (f s.1, s.2)).
(** [if err := c; err != nil { w.err = err; return err }]. *)
Definition sticky (c : W unit) : W unit := handle c (λ e, let* _ := update (set_err e) in throw e).

(** [uploadBufferedPart]. *)
Definition uploadBufferedPart : W unit :=
  let* w := writer_get in
  if maxMultipartParts <? partNumber w then throw (ELeaf "object exceeds the maximum of multipart parts" false)
  else
    let* _ := (if bool_decide (uploadID w = "") then
                 let* id := wrap_err "failed to initiate multipart upload" (on_world (Initiate (key w))) in
                 update (set_upload id)
               else ret tt) in
    let* w := writer_get in
    let* etag := wrap_err "failed to upload part"
                   (on_world (UploadPart (key w) (uploadID w) (partNumber w) (buf w))) in
    update (set_part etag).

(** The loop of [Write]: every iteration consumes a byte, so the length of
    [p] is enough fuel.  A negative slice bound panics. *)
Fixpoint write_loop (fuel : nat) (p : bytes) : W unit :=
  match p with
  | [] => ret tt
  | _ :: _ =>
      match fuel with
      | O => lift OutOfFuel
      | S fuel =>
          let* w := writer_get in
          let* _ := (if blen (buf w) =? partSizeFor (partNumber w) then sticky uploadBufferedPart
                     else ret tt) in
          let* w := writer_get in
          let size := partSizeFor (partNumber w) in
          let* _ := (if blen (buf w) =? 0 then update (ensureBuffer size) else ret tt) in
          let* w := writer_get in
          let n := Z.min (blen p) (size - blen (buf w)) in
          if n <? 0 then lift Panic
          else
            let* _ := update (set_buf (buf w ++ take (Z.to_nat n) p)) in
            write_loop fuel (drop (Z.to_nat n) p)
      end
  end.

(** [objectStorageWriter.Write]; the byte count it returns is [len(p)]
    unless there is an error. *)
Definition osw_Write (p : bytes) : W unit :=
  let* w := writer_get in
  if closed w then throw (ESentinel ErrWriterClosed)
  else match err w with
       | Some e => throw e
       | None => write_loop (length p) p
       end.

(** [abortUpload]. *)
Definition abortUpload : W unit :=
  let* w := writer_get in
  if bool_decide (uploadID w = "") then ret tt
  else
    handle (on_world (Abort (key w) (uploadID w)))
      (λ e, if errors_Is e ErrUploadNotFound then ret tt
            else throw (Errorf "failed to abort multipart upload" [e])).

(** [objectStorageWriter.Abort]. *)
Definition osw_Abort : W unit :=
  let* w := writer_get in
  if closed w then ret tt
  else
    let* _ := update (λ w, releaseBuffer (set_closed w)) in
    abortUpload.

(** [return errors.Join(e, w.abortUpload())]. *)
Definition fail_and_abort (e : error) : W unit :=
  let* a := attempt abortUpload in
  match errors_Join [Some e; a] with
  | Some e => throw e
  | None => ret tt
  end.

(** [objectStorageWriter.Close], without the deferred [releaseBuffer]. *)
Definition close_body : W unit :=
  let* w := writer_get in
  match err w with
  | Some e => fail_and_abort e
  | None =>
      if bool_decide (uploadID w = "") then on_world (PutObject (key w) (buf w))
      else
        let* e := (if 0 <? blen (buf w) then attempt uploadBufferedPart else ret None) in
        match e with
        | Some e => fail_and_abort (Errorf "failed to upload final part" [e])
        | None =>
            let* w := writer_get in
            let* e := attempt (on_world (Complete (key w) (uploadID w) (etags w))) in
            match e with
            | Some e => fail_and_abort (Errorf "failed to complete multipart upload" [e])
            | None => ret tt
            end
        end
  end.

(** [objectStorageWriter.Close]. *)
Definition osw_Close : W unit := λ s,
  if closed s.1 then (Ok tt, s)
  else
    let '(r, s') := close_body (set_closed s.1, s.2) in
    (r, (releaseBuffer s'.1, s'.2)).

End Writer.

(** ** The storage *)

(** [NewObjectStorage]: the prefix gets a trailing slash. *)
Definition NewObjectStorage (prefix : string) : string :=
  if negb (bool_decide (prefix = "")) && negb (HasSuffix prefix "/") then prefix +:+ "/" else prefix.

Section ObjectStorage.
Context {OC : ObjectStorageClient} (prefix : string).

Definition resolveKey (path : string) : string := prefix +:+ TrimPrefix path "/".

(** The provider together with the writers that were opened. *)
Abbreviation state := (world * list osw)%type.

Definition provider {A} (c : world → res A * world) : M state A := λ s,
  let '(r, o) := c s.1 in (r, (o, s.2)).

Definition os_Read (path : string) : M state bytes :=
  let* rc := provider (GetObjectRange (resolveKey path) 0 (-1)) in lift (ReadAll rc).
Definition os_Write (path : string) (data : bytes) : M state unit :=
  provider (PutObject (resolveKey path) data).
Definition os_Delete (path : string) : M state unit :=
  handle (provider (DeleteObject (resolveKey path)))
    (λ e, if errors_Is e ErrNotFound then ret tt else throw e).
Definition os_List (p : string) : M state (list FileInfo) :=
  let* objs := provider (ListObjects (resolveKey p)) in
  ret ((λ o, {| fi_Name := TrimPrefix (fi_Name o) prefix; fi_Size := fi_Size o |}) <$> objs).
Definition os_Exists (path : string) : M state bool :=
  handle (let* _ := provider (GetObjectSize (resolveKey path)) in ret true)
    (λ e, if errors_Is e ErrNotFound then ret false else throw e).
Definition os_Size (path : string) : M state Z := provider (GetObjectSize (resolveKey path)).
Definition os_OpenReader (path : string) : M state stream :=
  provider (GetObjectRange (resolveKey path) 0 (-1)).
Definition os_ReadRange (path : string) (offset length : Z) : M state stream :=
  if length =? 0 then ret ([], None)
  else
    let endByte := if 0 <? length then i64 (i64 (offset + length) - 1) else -1 in
    provider (GetObjectRange (resolveKey path) offset endByte).

(** A handle is the position of the writer among those opened. *)
Definition os_OpenWriter (path : string) : M state nat := λ s,
  (Ok (length s.2), (s.1, s.2 ++ [newObjectStorageWriter (resolveKey path)])).
Definition on_writer (w : nat) (c : M (osw * world) unit) : M state unit := λ s,
  match s.2 !! w with
  | None => (Panic, s)
  | Some x => let '(r, (x', o)) := c (x, s.1) in (r, (o, <[w := x']> s.2))
  end.

Definition storage : Storage := {|
  store := state;
  writer := nat;
  Read := os_Read;
  Write := os_Write;
  Delete := os_Delete;
  List := os_List;
  OpenWriter := os_OpenWriter;
  w_Write w b := on_writer w (osw_Write b);
  w_Close w := on_writer w osw_Close;
  w_abortable _ := true;
  w_Abort w := on_writer w osw_Abort;
|}.

(** [StorageReaderAt.ReadAt] into a buffer of [len] bytes: what was read,
    and the error. [io.ReadFull] takes at most [len] bytes of the stream. *)
Definition ReadAt (path : string) (len off : Z) : M state (bytes * option error) :=
  if len =? 0 then ret ([], None)
  else
    let* rc := os_ReadRange path off len in
    let b := take (Z.to_nat len) rc.1 in
    if len <=? blen rc.1 then ret (b, None)
    else match rc.2 with
         | Some (ESentinel IoErrUnexpectedEOF) => ret (b, Some (ESentinel IoEOF))
         | Some e => ret (b, Some e)
         | None => ret (b, Some (ESentinel IoEOF))
         end.

End ObjectStorage.

(** ** The provider's contract

    [objects] are the visible objects, [uploads] the multipart uploads in
    progress: their key and the parts received, each with its tag. *)

(** The concatenation of parts 1 to [n]. *)
Fixpoint parts_upto (n : nat) (parts : gmap Z (string * bytes)) : option bytes :=
  match n with
  | O => Some []
  | S n => match parts_upto n parts, parts !! Z.of_nat (S n) with
           | Some c, Some (_, d) => Some (c ++ d)
           | _, _ => None
           end
  end.

(** What is recorded for a key stays recorded. *)
Definition keeps {B} (f g : string → option B) : Prop := ∀ x y, f x = Some y → g x = Some y.

(** [valid_key] are the keys that the provider tells apart.  [issued] are the
    upload identifiers handed out so far; a provider never hands out the same
    one twice.  A deletion that reports a missing object may have been repeated
    after one whose answer was lost. *)
Class ObjectStorageClientLaws {OC : ObjectStorageClient} := {
  valid_key : string → Prop;
  objects : world → gmap string bytes;
  uploads : world → string → option (string * gmap Z (string * bytes));
  issued : world → gset string;
  Initiate_law k o r o' : valid_key k → Initiate k o = (r, o') →
    objects o' = objects o ∧ issued o ⊆ issued o' ∧ returns r ∧ keeps (uploads o) (uploads o') ∧
    (∀ id, r = Ok id → id ≠ "" ∧ (id ∉ issued o) ∧ id ∈ issued o' ∧ uploads o' id = Some (k, ∅));
  UploadPart_law k id n b o r o' parts : valid_key k → 1 ≤ n ≤ maxMultipartParts → UploadPart k id n b o = (r, o') →
    uploads o id = Some (k, parts) →
    objects o' = objects o ∧ issued o ⊆ issued o' ∧ returns r ∧
    (∀ etag, r = Ok etag → uploads o' id = Some (k, <[n := (etag, b)]> parts)) ∧
    (∀ id' x, id' ≠ id → uploads o id' = Some x → uploads o' id' = Some x);
  Complete_law k id tags o r o' parts n c : valid_key k → Complete k id tags o = (r, o') →
    uploads o id = Some (k, parts) → tags = fst <$> parts →
    (∀ i, is_Some (parts !! i) ↔ 1 ≤ i ≤ Z.of_nat n) → Z.of_nat n ≤ maxMultipartParts → parts_upto n parts = Some c →
    issued o ⊆ issued o' ∧ returns r ∧
    (objects o' = <[k := c]> (objects o) ∨ fails r ∧ objects o' = objects o) ∧
    (∀ id' x, id' ≠ id → uploads o id' = Some x → uploads o' id' = Some x);
  Abort_law k id o r o' : valid_key k → Abort k id o = (r, o') →
    objects o' = objects o ∧ issued o ⊆ issued o' ∧ returns r ∧
    (∀ id' x, id' ≠ id → uploads o id' = Some x → uploads o' id' = Some x);
  PutObject_law k b o r o' : valid_key k → PutObject k b o = (r, o') →
    keeps (uploads o) (uploads o') ∧ issued o ⊆ issued o' ∧ returns r ∧
    (objects o' = <[k := b]> (objects o) ∨ fails r ∧ objects o' = objects o);
  DeleteObject_law k o r o' : valid_key k → DeleteObject k o = (r, o') →
    keeps (uploads o) (uploads o') ∧ issued o ⊆ issued o' ∧ returns r ∧
    (objects o' = delete k (objects o) ∨ fails r ∧ objects o' = objects o) ∧
    (∀ e, r = Err e → errors_Is e ErrNotFound = true → objects o' !! k = None);
  ListObjects_law p o r o' : ListObjects p o = (r, o') →
    objects o' = objects o ∧ issued o ⊆ issued o' ∧ keeps (uploads o) (uploads o') ∧ returns r ∧
    (∀ l, r = Ok l → ∀ n, n ∈ fi_Name <$> l ↔ n ∈ dom (objects o) ∧ HasPrefix n p = true);
  GetObjectSize_law k o r o' : valid_key k → GetObjectSize k o = (r, o') →
    objects o' = objects o ∧ issued o ⊆ issued o' ∧ keeps (uploads o) (uploads o') ∧ returns r ∧
    (∀ n, r = Ok n → ∃ b, objects o !! k = Some b ∧ n = blen b) ∧
    (∀ e, r = Err e → errors_Is e ErrNotFound = true → objects o !! k = None);
  GetObjectRange_law k a z o r o' : valid_key k → z < max_int64 → GetObjectRange k a z o = (r, o') →
    objects o' = objects o ∧ issued o ⊆ issued o' ∧ keeps (uploads o) (uploads o') ∧ returns r ∧
    (∀ b e, r = Ok (b, e) → ∃ whole, objects o !! k = Some whole ∧
       let want := drop (Z.to_nat a) (if z <? 0 then whole else take (Z.to_nat (z + 1)) whole) in
       (e = None → b = want) ∧ (∀ err, e = Some err → b `prefix_of` want ∧ errors_Is err ErrNotFound = false)) ∧
    (∀ e, r = Err e → errors_Is e ErrNotFound = true → objects o !! k = None);
}.

(** ** Part sizes *)

Lemma double_size_pow shift k :
  (k + shift ≤ 9)%nat → double_size shift (2 ^ (23 + Z.of_nat k)) = 2 ^ (23 + Z.of_nat (k + shift)).
Proof.
  revert k. induction shift as [|shift IH]; intros k Hk; cbn [double_size]; [by rewrite Nat.add_0_r|].
  assert (2 ^ (23 + Z.of_nat k) ≤ 2 ^ 31) by (apply Z.pow_le_mono_r; lia).
  destruct (Z.ltb_spec (2 ^ (23 + Z.of_nat k)) maxPartSize) as [_|Hge]; [|change maxPartSize with 5368709120 in Hge; lia].
  rewrite Z.shiftl_mul_pow2 by lia. rewrite <- Z.pow_add_r by lia.
  pose proof (Z.pow_le_mono_r 2 (23 + Z.of_nat k + 1) 32 ltac:(lia) ltac:(lia)).
  pose proof (Z.pow_nonneg 2 (23 + Z.of_nat k + 1) ltac:(lia)).
  rewrite i64_id by (unfold is_i64, min_int64, max_int64; lia).
  replace (23 + Z.of_nat k + 1) with (23 + Z.of_nat (S k)) by lia. rewrite IH by lia. f_equal. lia.
Qed.

Lemma partSizeFor_pow n :
  1 ≤ n ≤ maxMultipartParts → partSizeFor n = 2 ^ (23 + (n - 1) / 1000).
Proof.
  unfold maxMultipartParts. intros Hn. unfold partSizeFor, partSizeStep.
  rewrite Z.quot_div_nonneg by lia.
  assert (0 ≤ (n - 1) / 1000 ≤ 9) as Hs.
  { split; [apply Z.div_pos; lia|]. assert ((n - 1) / 1000 < 10); [apply Z.div_lt_upper_bound; lia|lia]. }
  destruct (Z.ltb_spec ((n - 1) / 1000) 0); [lia|].
  change initialPartSize with (2 ^ (23 + Z.of_nat 0)). rewrite double_size_pow by lia.
  rewrite Nat.add_0_l, Z2Nat.id by lia.
  assert (2 ^ (23 + (n - 1) / 1000) ≤ 2 ^ 32) by (apply Z.pow_le_mono_r; lia).
  destruct (Z.ltb_spec maxPartSize (2 ^ (23 + (n - 1) / 1000))) as [Hlt|]; [|done].
  change maxPartSize with 5368709120 in Hlt. lia.
Qed.

Lemma double_size_bounds shift s : 1 ≤ s ≤ 2 * maxPartSize → 1 ≤ double_size shift s ≤ 2 * maxPartSize.
Proof.
  revert s. induction shift as [|shift IH]; intros s Hs; cbn [double_size]; [done|].
  destruct (Z.ltb_spec s maxPartSize); [|done]. change maxPartSize with 5368709120 in *.
  rewrite Z.shiftl_mul_pow2 by lia. rewrite i64_id; [apply IH; lia|].
  unfold is_i64, min_int64, max_int64. lia.
Qed.

Lemma partSizeFor_bounds n : 1 ≤ partSizeFor n ≤ maxPartSize.
Proof.
  unfold partSizeFor. set (shift := Z.to_nat _).
  pose proof (double_size_bounds shift initialPartSize) as Hd.
  change maxPartSize with 5368709120 in *. change initialPartSize with 8388608 in *.
  specialize (Hd ltac:(lia)). destruct (Z.ltb_spec 5368709120 (double_size shift 8388608)); lia.
Qed.

(** ** The writer: what it holds *)

Section WriterSpec.
Context {OC : ObjectStorageClient} {OL : ObjectStorageClientLaws}.

(** [c] is what has been written to [w]: the uploaded parts, then the
    buffer. *)
Definition holds (w : osw) (o : world) (c : bytes) : Prop :=
  blen (buf w) ≤ partSizeFor (partNumber w) ∧
  (uploadID w = "" ∧ partNumber w = 1 ∧ c = buf w ∨
   uploadID w ≠ "" ∧ ∃ parts c', uploads o (uploadID w) = Some (key w, parts) ∧
     etags w = fst <$> parts ∧ 1 ≤ partNumber w ≤ maxMultipartParts + 1 ∧
     (∀ i, is_Some (parts !! i) ↔ 1 ≤ i ≤ partNumber w - 1) ∧
     parts_upto (Z.to_nat (partNumber w - 1)) parts = Some c' ∧ c = c' ++ buf w).

(** A step of the writer changes nothing but its own upload. *)
Record evolves (w : osw) (o : world) (w' : osw) (o' : world) : Prop := {
  ev_key : key w' = key w;
  ev_closed : closed w' = closed w;
  ev_objects : objects o' = objects o;
  ev_issued : issued o ⊆ issued o';
  ev_id : uploadID w' = uploadID w ∨
    uploadID w = "" ∧ uploadID w' ≠ "" ∧ (uploadID w' ∉ issued o) ∧ uploadID w' ∈ issued o';
  ev_others : ∀ id x, id ≠ "" → id ≠ uploadID w' → uploads o id = Some x → uploads o' id = Some x;
}.

Lemma evolves_refl w o : evolves w o w o.
Proof. by split; auto. Qed.

Lemma evolves_trans w1 o1 w2 o2 w3 o3 :
  evolves w1 o1 w2 o2 → evolves w2 o2 w3 o3 → evolves w1 o1 w3 o3.
Proof.
  intros [Hk1 Hc1 Ho1 Hi1 Hid1 Hot1] [Hk2 Hc2 Ho2 Hi2 Hid2 Hot2]. split; try congruence; [set_solver| |].
  - destruct Hid1 as [E1|(E1 & ? & ? & ?)], Hid2 as [E2|(E2 & ? & ? & ?)].
    + left. congruence.
    + right. rewrite <- E1. split_and!; [done|done|set_solver|done].
    + right. rewrite E2. split_and!; [done|done|done|set_solver].
    + congruence.
  - intros id x Hne Hid Hu. apply Hot2; [done|done|]. apply Hot1; [done| |done].
    destruct Hid2 as [E2|(E2 & _)]; congruence.
Qed.

Lemma parts_upto_insert n parts m x :
  Z.of_nat n < m → parts_upto n (<[m := x]> parts) = parts_upto n parts.
Proof.
  induction n as [|n IH]; intros Hm; cbn [parts_upto]; [done|].
  rewrite IH by lia. by rewrite lookup_insert_ne by lia.
Qed.

(** The upload is initiated before its first part. *)
Lemma initiate_spec w o r1 w1 o1 c : valid_key (key w) → holds w o c →
  (if bool_decide (uploadID w = "") then
     let* id := wrap_err "failed to initiate multipart upload" (on_world (Initiate (key w))) in update (set_upload id)
   else ret tt) (w, o) = (r1, (w1, o1)) →
  evolves w o w1 o1 ∧ returns r1 ∧ err w1 = err w ∧ buf w1 = buf w ∧ partNumber w1 = partNumber w ∧
  (∀ u, r1 = Ok u → uploadID w1 ≠ "" ∧ holds w1 o1 c).
Proof.
  intros Hv [Hlen Hc]. case_bool_decide as Hid.
  - unfold bind, wrap_err, on_world. cbn [fst snd]. destruct (Initiate (key w) o) as [r0 o0] eqn:Ei.
    apply Initiate_law in Ei as (Ho & Hi & Hr & Hk & Hok); [|done].
    destruct r0 as [id|e| |]; [| |by destruct Hr as [[]|[]]..].
    + destruct (Hok id eq_refl) as (Hne & Hni & Hin & Hup).
      unfold update, modify. intros [= <- <- <-]. cbn [fst snd].
      split_and!; [split; try done; [by right|intros; by apply Hk]|by left; eexists|done|done|done|].
      intros _ _. split; [done|]. split; [done|]. right. split; [done|].
      destruct Hc as [(_ & Hpn & ->)|[]]; [|done]. exists ∅, []. cbn [uploadID key etags partNumber buf set_upload].
      rewrite Hpn. split; [done|]. split; [by rewrite fmap_empty|]. split; [done|]. split_and!; [|done|done].
      intros i. rewrite lookup_empty. split; [by intros []|lia].
    + intros [= <- <- <-]. cbn [fst snd].
      split_and!; [split; try done; [by left|intros; by apply Hk]|by right; eexists|done..].
  - intros [= <- <- <-]. split_and!; [apply evolves_refl|by left; eexists|done|done|done|].
    intros _ _. split; [done|by split].
Qed.

(** A part extends what the upload has. *)
Lemma holds_next w etag o' parts c' :
  uploadID w ≠ "" → etags w = fst <$> parts → 1 ≤ partNumber w ≤ maxMultipartParts →
  (∀ i, is_Some (parts !! i) ↔ 1 ≤ i ≤ partNumber w - 1) → parts_upto (Z.to_nat (partNumber w - 1)) parts = Some c' →
  uploads o' (uploadID w) = Some (key w, <[partNumber w := (etag, buf w)]> parts) → holds (set_part etag w) o' (c' ++ buf w).
Proof.
  intros Hid Htags Hge Hdom Hcat Hup.
  split; [cbn [buf partNumber set_part]; pose proof (partSizeFor_bounds (partNumber w + 1)); unfold blen; simpl; lia|].
  right. cbn [uploadID set_part]. split; [done|].
  exists (<[partNumber w := (etag, buf w)]> parts), (c' ++ buf w). cbn [key etags partNumber buf set_part].
  split; [done|]. split; [by rewrite fmap_insert, Htags|]. split; [lia|]. split_and!; [| |by rewrite app_nil_r].
  - intros i. destruct (decide (i = partNumber w)) as [->|].
    + rewrite lookup_insert_eq. split; [lia|eauto].
    + rewrite lookup_insert_ne by done. rewrite Hdom. lia.
  - replace (Z.to_nat (partNumber w + 1 - 1)) with (S (Z.to_nat (partNumber w - 1))) by lia.
    cbn [parts_upto]. rewrite parts_upto_insert by lia. rewrite Hcat.
    replace (Z.of_nat (S (Z.to_nat (partNumber w - 1)))) with (partNumber w) by lia. by rewrite lookup_insert_eq.
Qed.

(** Shipping the buffer keeps the content and empties the buffer. *)
Lemma uploadBufferedPart_spec w o r w' o' c :
  valid_key (key w) → uploadBufferedPart (w, o) = (r, (w', o')) → holds w o c →
  evolves w o w' o' ∧ returns r ∧ err w' = err w ∧
  (∀ u, r = Ok u → holds w' o' c ∧ buf w' = [] ∧ uploadID w' ≠ "" ∧
     partNumber w ≤ maxMultipartParts ∧ partNumber w' = partNumber w + 1).
Proof.
  intros Hv H Hh. unfold uploadBufferedPart, bind at 1, writer_get in H. cbn [fst] in H.
  destruct (Z.ltb_spec maxMultipartParts (partNumber w)) as [|Hmax].
  { unfold throw in H. simplify_eq. split_and!; [apply evolves_refl|by right; eexists|done|done]. }
  unfold bind at 1 in H. match type of H with match ?init with _ => _ end = _ => destruct init as [r1 [w1 o1]] eqn:E1 end.
  destruct (initiate_spec _ _ _ _ _ _ Hv Hh E1) as (Hev & Hr1 & Herr & Hbuf & Hpn & Hok1).
  destruct r1 as [u|e| |]; [| |by destruct Hr1 as [[]|[]]..].
  2:{ simplify_eq. split_and!; [done|by right; eexists|done|done]. }
  destruct (Hok1 u eq_refl) as (Hid1 & _ & [[]|(_ & parts & c' & Hup & Htags & Hge & Hdom & Hcat & ->)]); [done|].
  unfold bind, wrap_err, on_world in H. cbn [fst snd] in H.
  destruct (UploadPart (key w1) (uploadID w1) (partNumber w1) (buf w1) o1) as [r2 o2] eqn:E2.
  assert (valid_key (key w1)) as Hv1 by (by rewrite (ev_key _ _ _ _ Hev)).
  apply (UploadPart_law _ _ _ _ _ _ _ parts) in E2 as (Ho2 & Hi2 & Hr2 & Hok2 & Hot2); [|done|lia|done].
  assert (∀ w2, key w2 = key w1 → closed w2 = closed w1 → uploadID w2 = uploadID w1 → evolves w1 o1 w2 o2) as Hev2.
  { intros w2 ? ? Eid. split; try done; [by left|]. intros id x _ Hne Hx. apply Hot2; [congruence|done]. }
  destruct r2 as [etag|e| |]; [| |by destruct Hr2 as [[]|[]]..].
  - unfold update, modify in H. cbn [fst snd] in H. simplify_eq.
    split_and!; [eapply evolves_trans; [exact Hev|by apply Hev2]|by left; eexists|done|].
    intros _ _. split; [|split_and!; [done|done|done|cbn [partNumber set_part]; lia]].
    eapply holds_next; [done|done|lia|done|done|by apply Hok2].
  - simplify_eq. split_and!; [eapply evolves_trans; [exact Hev|by apply Hev2]|by right; eexists|done|done].
Qed.

(** Buffer changes that keep the content. *)
Lemma holds_buf w o c b w' :
  holds w o c → key w' = key w → uploadID w' = uploadID w → partNumber w' = partNumber w →
  etags w' = etags w → buf w' = buf w ++ b → blen (buf w') ≤ partSizeFor (partNumber w) →
  holds w' o (c ++ b).
Proof.
  intros [Hlen Hc] Ek Eid Epn Et Eb Hl. split; [by rewrite Epn|]. rewrite Ek, Eid, Epn, Et, Eb.
  destruct Hc as [(? & ? & ->)|(? & parts & c' & ? & ? & ? & ? & ? & ->)]; [left; done|right].
  split; [done|]. exists parts, c'. do 5 (split; [done|]). by rewrite app_assoc.
Qed.

Lemma evolves_local w o w' :
  key w' = key w → closed w' = closed w → uploadID w' = uploadID w → evolves w o w' o.
Proof. intros ? ? ?. split; auto. Qed.

Lemma ensureBuffer_same size w : blen (buf w) = 0 →
  let w' := ensureBuffer size w in
  key w' = key w ∧ uploadID w' = uploadID w ∧ partNumber w' = partNumber w ∧ etags w' = etags w ∧
  buf w' = buf w ∧ closed w' = closed w ∧ err w' = err w ∧ (bufcap w ≤ bufcap w' ∨ size ≤ bufcap w') ∧
  size ≤ bufcap w'.
Proof.
  intros Hb%blen_nil. unfold ensureBuffer. simpl.
  destruct (Z.leb_spec size (bufcap w)); [split_and!; try done; by left|].
  destruct (Z.eqb_spec size initialPartSize) as [->|]; simpl; rewrite Hb; split_and!; try done; by right.
Qed.

(** What a [Write] may do. *)
Definition write_post (w : osw) (o : world) (c p : bytes) (r : res unit) (w' : osw) (o' : world) : Prop :=
  evolves w o w' o' ∧
  ((∃ u, r = Ok u ∧ err w' = None ∧ holds w' o' (c ++ p)) ∨
   (∃ e, r = Err e ∧ err w' = Some e)).

(** Making room: a full buffer is shipped. *)
Lemma ship_spec w o r1 w1 o1 c : valid_key (key w) → err w = None → holds w o c →
  (if blen (buf w) =? partSizeFor (partNumber w) then sticky uploadBufferedPart else ret tt) (w, o) = (r1, (w1, o1)) →
  evolves w o w1 o1 ∧
  ((∃ u, r1 = Ok u ∧ err w1 = None ∧ holds w1 o1 c ∧ blen (buf w1) < partSizeFor (partNumber w1)) ∨
   (∃ e, r1 = Err e ∧ err w1 = Some e)).
Proof.
  intros Hv Herr [Hlen Hc]. destruct (Z.eqb_spec (blen (buf w)) (partSizeFor (partNumber w))).
  - unfold sticky, handle. destruct (uploadBufferedPart (w, o)) as [r0 [w0 o0]] eqn:E0.
    destruct (uploadBufferedPart_spec _ _ _ _ _ _ Hv E0 (conj Hlen Hc)) as (Hev & Hr & Herr0 & Hok).
    destruct r0 as [u|e0| |]; [| |by destruct Hr as [[]|[]]..]; intros E; simplify_eq.
    + destruct (Hok u eq_refl) as (Hh1 & Hb & _). split; [done|]. left. exists u.
      split_and!; [done|congruence|done|]. rewrite Hb. pose proof (partSizeFor_bounds (partNumber w1)).
      change (blen []) with 0. lia.
    + unfold bind, update, modify, throw in E. cbn [fst snd] in E. simplify_eq.
      split; [eapply evolves_trans; [done|by apply evolves_local]|]. right. eauto.
  - unfold ret. intros E. simplify_eq. split; [apply evolves_refl|]. left. exists tt. split_and!; [done..|by split|lia].
Qed.

(** An empty buffer gets its capacity. *)
Lemma buffer_step w o : ∃ w2,
  (if blen (buf w) =? 0 then update (ensureBuffer (partSizeFor (partNumber w))) else ret tt) (w, o) = (Ok tt, (w2, o)) ∧
  key w2 = key w ∧ uploadID w2 = uploadID w ∧ partNumber w2 = partNumber w ∧ etags w2 = etags w ∧
  buf w2 = buf w ∧ closed w2 = closed w ∧ err w2 = err w.
Proof.
  destruct (Z.eqb_spec (blen (buf w)) 0) as [Hz|]; [|by exists w].
  eexists. split; [done|]. by destruct (ensureBuffer_same (partSizeFor (partNumber w)) w Hz) as (? & ? & ? & ? & ? & ? & ? & _).
Qed.

Lemma write_loop_spec fuel p w o r w' o' c :
  valid_key (key w) → (length p ≤ fuel)%nat → err w = None → holds w o c →
  write_loop fuel p (w, o) = (r, (w', o')) → write_post w o c p r w' o'.
Proof.
  revert p w o c. induction fuel as [|fuel IH]; intros p w o c Hv Hfuel Herr Hh;
    (destruct p as [|x p]; [cbn [write_loop]; unfold ret; intros H; simplify_eq;
      split; [apply evolves_refl|left; exists tt; by rewrite app_nil_r]|]); [simpl in Hfuel; lia|].
  cbn [write_loop]. unfold bind at 1, writer_get at 1. cbn [fst]. intros H.
  unfold bind at 1 in H. match type of H with match ?ship with _ => _ end = _ => destruct ship as [r1 [w1 o1]] eqn:E1 end.
  destruct (ship_spec _ _ _ _ _ _ Hv Herr Hh E1) as [Hev1 [(u & -> & Herr1 & Hh1 & Hroom)|(e & -> & Herr1)]].
  2:{ simplify_eq. split; [done|]. right. eauto. }
  unfold bind at 1, writer_get at 1 in H. cbn [fst] in H.
  destruct (buffer_step w1 o1) as (w2 & E2 & E21 & E22 & E23 & E24 & E25 & E26 & E27).
  set (size := partSizeFor (partNumber w1)) in *.
  unfold bind at 1 in H. rewrite E2 in H. unfold bind at 1, writer_get in H. cbn [fst] in H.
  set (n := Z.min (blen (x :: p)) (size - blen (buf w2))) in *.
  assert (1 ≤ n ≤ size - blen (buf w2)) as Hn.
  { subst n. rewrite E25. assert (1 ≤ blen (x :: p)) by (unfold blen; simpl; lia). lia. }
  destruct (Z.ltb_spec n 0); [lia|].
  unfold bind, update, modify in H. cbn [fst snd] in H.
  set (w3 := set_buf (buf w2 ++ take (Z.to_nat n) (x :: p)) w2) in *.
  assert (holds w3 o1 (c ++ take (Z.to_nat n) (x :: p))) as Hh3.
  { eapply holds_buf; [exact Hh1|done..| |].
    - cbn [buf set_buf w3]. by rewrite E25.
    - cbn [buf set_buf w3]. rewrite blen_app. unfold blen at 2. rewrite length_take. fold size. lia. }
  apply (IH (drop (Z.to_nat n) (x :: p)) _ _ (c ++ take (Z.to_nat n) (x :: p))) in H as [Hev3 Hres].
  - split; [eapply evolves_trans; [exact Hev1|]; eapply evolves_trans; [|exact Hev3]; by apply evolves_local|].
    destruct Hres as [(v & ? & ? & Hh4)|?]; [left|by right]. exists v. split_and!; [done..|].
    by rewrite <- app_assoc, take_drop in Hh4.
  - cbn [key set_buf w3]. rewrite E21. by rewrite (ev_key _ _ _ _ Hev1).
  - rewrite length_drop. simpl in *. lia.
  - cbn [err set_buf w3]. congruence.
  - exact Hh3.
Qed.

Lemma osw_Write_spec p w o r w' o' c :
  valid_key (key w) → closed w = false → err w = None → holds w o c → osw_Write p (w, o) = (r, (w', o')) →
  write_post w o c p r w' o'.
Proof.
  intros Hv Hcl Herr Hh. unfold osw_Write, bind, writer_get. cbn [fst]. rewrite Hcl, Herr.
  by apply write_loop_spec.
Qed.

Lemma osw_Write_err p w o e : closed w = false → err w = Some e → osw_Write p (w, o) = (Err e, (w, o)).
Proof. intros Hcl Herr. unfold osw_Write, bind, writer_get. cbn [fst]. by rewrite Hcl, Herr. Qed.

(** What finishing a writer may do to the rest of the world. *)
Definition finish_post (w : osw) (o : world) (w' : osw) (o' : world) : Prop :=
  closed w' = true ∧ issued o ⊆ issued o' ∧
  (uploadID w' = uploadID w ∨ uploadID w = "" ∧ uploadID w' ≠ "" ∧ (uploadID w' ∉ issued o) ∧ uploadID w' ∈ issued o') ∧
  ∀ id x, id ≠ "" → id ≠ uploadID w' → uploads o id = Some x → uploads o' id = Some x.

Lemma finish_evolves w o w1 o1 w2 o2 :
  evolves w o w1 o1 → closed w2 = true → uploadID w2 = uploadID w1 → issued o1 ⊆ issued o2 →
  (∀ id x, id ≠ "" → id ≠ uploadID w1 → uploads o1 id = Some x → uploads o2 id = Some x) →
  finish_post w o w2 o2.
Proof.
  intros [Hk Hc Ho Hi Hid Hot] Hcl Eid Hi2 Hot2. split_and!; [done|set_solver| |].
  - rewrite Eid. destruct Hid as [|(? & ? & ? & ?)]; [by left|right]. split_and!; [done..|set_solver].
  - intros id x Hne Hn Hu. rewrite Eid in Hn. auto.
Qed.

Lemma abortUpload_spec w o r w' o' :
  valid_key (key w) → abortUpload (w, o) = (r, (w', o')) →
  w' = w ∧ returns r ∧ objects o' = objects o ∧ issued o ⊆ issued o' ∧
  (∀ id x, id ≠ "" → id ≠ uploadID w → uploads o id = Some x → uploads o' id = Some x).
Proof.
  intros Hv. unfold abortUpload, bind, writer_get. cbn [fst]. case_bool_decide.
  { unfold ret. intros E. simplify_eq. split_and!; [done|by left; eexists|done|done|auto]. }
  unfold handle, on_world. cbn [fst snd]. destruct (Abort (key w) (uploadID w) o) as [r1 o1] eqn:Ea.
  apply Abort_law in Ea as (Ho & Hi & Hr & Hot); [|done].
  destruct r1 as [u|e| |]; [| |by destruct Hr as [[]|[]]..]; intros E.
  - simplify_eq. split_and!; [done|by left; eexists|done|done|auto].
  - destruct (errors_Is e ErrUploadNotFound); unfold ret, throw in E; simplify_eq;
      (split_and!; [done| |done|done|auto]); [by left; eexists|by right; eexists].
Qed.

Lemma fail_and_abort_spec e w o r w' o' :
  valid_key (key w) → fail_and_abort e (w, o) = (r, (w', o')) →
  w' = w ∧ fails r ∧ objects o' = objects o ∧ issued o ⊆ issued o' ∧
  (∀ id x, id ≠ "" → id ≠ uploadID w → uploads o id = Some x → uploads o' id = Some x).
Proof.
  intros Hv. unfold fail_and_abort, bind, attempt. destruct (abortUpload (w, o)) as [r1 [w1 o1]] eqn:Ea.
  apply abortUpload_spec in Ea as (-> & Hr & Ho & Hi & Hot); [|done].
  destruct r1 as [u|e'| |]; [| |by destruct Hr as [[]|[]]..]; simpl; unfold throw; intros E; simplify_eq;
    (split_and!; [done|by eexists|done|done|done]).
Qed.

Lemma osw_Abort_spec w o r w' o' :
  valid_key (key w) → closed w = false → osw_Abort (w, o) = (r, (w', o')) →
  returns r ∧ objects o' = objects o ∧ key w' = key w ∧ finish_post w o w' o'.
Proof.
  intros Hv Hcl. unfold osw_Abort, bind at 1, writer_get. cbn [fst]. rewrite Hcl.
  unfold bind, update, modify. cbn [fst snd]. intros (-> & Hr & Ho & Hi & Hot)%abortUpload_spec; [|done].
  split_and!; [done|done|done|]. eapply finish_evolves; [apply evolves_refl|done..].
Qed.

(** [Close] makes exactly what was written visible, all or nothing. *)
(** The last buffer is shipped, if there is one. *)
Lemma last_part_spec w o rl wl ol c : valid_key (key w) → holds w o c → uploadID w ≠ "" →
  (if 0 <? blen (buf w) then attempt uploadBufferedPart else ret None) (w, o) = (rl, (wl, ol)) →
  evolves w o wl ol ∧ ((rl = Ok None ∧ holds wl ol c ∧ buf wl = [] ∧ uploadID wl ≠ "") ∨ ∃ e, rl = Ok (Some e)).
Proof.
  intros Hv Hh Hid. destruct (Z.ltb_spec 0 (blen (buf w))) as [|Hz].
  - unfold attempt. destruct (uploadBufferedPart (w, o)) as [r0 [w0 o0]] eqn:E0.
    destruct (uploadBufferedPart_spec _ _ _ _ _ _ Hv E0 Hh) as (Hev & Hr & _ & Hok).
    destruct r0 as [u|e| |]; [| |by destruct Hr as [[]|[]]..]; intros E; simplify_eq; (split; [done|]); [left|right; eauto].
    destruct (Hok u eq_refl) as (? & ? & ? & _). by split_and!.
  - unfold ret. intros E. simplify_eq. split; [apply evolves_refl|]. left.
    split_and!; [done|done| |done]. apply blen_nil. pose proof (blen_nonneg (buf wl)). lia.
Qed.

(** What [Close] may do to the objects, and that it finishes the writer. *)
Definition close_post (w : osw) (o : world) (c : bytes) (r : res unit) (w' : osw) (o' : world) : Prop :=
  returns r ∧ key w' = key w ∧ finish_post w o w' o' ∧
  (objects o' = <[key w := c]> (objects o) ∨ fails r ∧ objects o' = objects o).

Lemma close_failed w o c e wa oa r w' o' : closed w = true → valid_key (key w) → evolves w o wa oa →
  fail_and_abort e (wa, oa) = (r, (w', o')) → close_post w o c r w' o'.
Proof.
  intros Hcl Hv Hev H. pose proof Hev as [Hk Hc Hob _ _ _].
  apply fail_and_abort_spec in H as (-> & Hf & Ho & Hi & Hot); [|by rewrite Hk].
  split_and!; [by right|done| |right; split; [done|congruence]]. eapply finish_evolves; [done|congruence|done..].
Qed.

(** Completing the upload publishes what it has. *)
Lemma complete_spec w o wl ol c r w' o' : closed w = true → valid_key (key w) → evolves w o wl ol →
  holds wl ol c → buf wl = [] → uploadID wl ≠ "" →
  (let* e := attempt (on_world (Complete (key wl) (uploadID wl) (etags wl))) in
   match e with
   | Some e => fail_and_abort (Errorf "failed to complete multipart upload" [e])
   | None => ret tt
   end) (wl, ol) = (r, (w', o')) → close_post w o c r w' o'.
Proof.
  intros Hcl Hv Hev [_ [(? & _)|(_ & parts & c' & Hup & Htags & Hge & Hdom & Hcat & ->)]] Hb Hid; [done|].
  rewrite Hb, app_nil_r. pose proof Hev as [Hk Hc Hob Hiss _ _]. assert (valid_key (key wl)) as Hvl by (by rewrite Hk).
  unfold bind, attempt, on_world. cbn [fst snd]. destruct (Complete (key wl) (uploadID wl) (etags wl) ol) as [rc oc] eqn:Ec.
  apply (Complete_law _ _ _ _ _ _ parts (Z.to_nat (partNumber wl - 1)) c') in Ec as (Hi & Hr & Ho & Hot);
    [|done|done|done|intros i; rewrite Hdom; lia|lia|done].
  destruct rc as [u|e| |]; [| |by destruct Hr as [[]|[]]..]; intros H.
  - unfold ret in H. simplify_eq. split_and!; [by left; eexists|done| |].
    + eapply finish_evolves; [done|congruence|done..|]. auto.
    + left. destruct Ho as [Ho|[[] _]]; [|done]. rewrite Ho, Hob. by rewrite Hk.
  - destruct (fail_and_abort_spec _ _ _ _ _ _ Hvl H) as (-> & Hf & Hob2 & Hi2 & Hot2).
    split_and!; [by right|done| |].
    + eapply finish_evolves; [done|congruence|done|set_solver|]. intros id x ? ? ?. apply Hot2; [done..|]. by apply Hot.
    + rewrite Hob2, <- Hob, <- Hk. destruct Ho as [->|[_ ->]]; [by left|by right].
Qed.

Lemma close_body_spec w o r w' o' c : closed w = true → valid_key (key w) → (err w = None → holds w o c) →
  close_body (w, o) = (r, (w', o')) → close_post w o c r w' o'.
Proof.
  intros Hcl Hv Hh. unfold close_body, bind at 1, writer_get. cbn [fst].
  destruct (err w) as [e|] eqn:Eerr; [by apply close_failed; [..|apply evolves_refl]|]. specialize (Hh eq_refl).
  case_bool_decide as Hid.
  - unfold on_world. cbn [fst snd]. destruct (PutObject (key w) (buf w) o) as [rp op] eqn:Ep. intros E. simplify_eq.
    apply PutObject_law in Ep as (Hk & Hi & Hr & Ho); [|done].
    destruct Hh as [_ [(_ & _ & ->)|[]]]; [|done]. split_and!; [done|done| |done].
    eapply (finish_evolves w' o w' o); [apply evolves_refl|done|done|done|auto].
  - intros [(x & [wl ol] & El & H)|(r1 & El & Hne & _)]%bind_inv;
      destruct (last_part_spec _ _ _ _ _ _ Hv Hh Hid El) as (Hev & [([= ->] & Hhl & Hbl & Hidl)|[e [= ->]]]);
      [| |by destruct (Hne None)|by destruct (Hne (Some e))].
    + unfold bind at 1, writer_get in H. cbn [fst] in H. by eapply (complete_spec w o wl ol c).
    + by eapply close_failed.
Qed.

Lemma osw_Close_spec w o r w' o' c :
  valid_key (key w) → closed w = false → (err w = None → holds w o c) → osw_Close (w, o) = (r, (w', o')) →
  returns r ∧ key w' = key w ∧ finish_post w o w' o' ∧
  (objects o' = <[key w := c]> (objects o) ∨ fails r ∧ objects o' = objects o).
Proof.
  intros Hv Hcl Hh. unfold osw_Close. cbn [fst snd]. rewrite Hcl.
  destruct (close_body (set_closed w, o)) as [r1 [w1 o1]] eqn:Eb. cbn [fst snd]. intros E. simplify_eq.
  destruct (close_body_spec (set_closed w) o r w1 o' c) as (? & ? & (? & ? & ? & ?) & ?); [done..|].
  split_and!; try done; split_and!; done.
Qed.

End WriterSpec.

(** ** [ObjectStorage] implements [Storage] *)

Section Refinement.
Context {OC : ObjectStorageClient} {OL : ObjectStorageClientLaws} (prefix : string).
Context (prefix_valid : ∀ p, relative p → valid_key (prefix +:+ p)).
Abbreviation state := (world * list osw)%type.

Definition os_view (s : state) : gmap string bytes := under prefix (objects s.1).

(** The upload identifiers of all writers ever opened are issued ones. *)
Definition os_inv (s : state) : Prop :=
  ∀ j x, s.2 !! j = Some x → uploadID x ≠ "" → uploadID x ∈ issued s.1.

(** No other writer has the identifier [id]. *)
Definition unshared (s : state) (i : nat) (id : string) : Prop :=
  ∀ j x, s.2 !! j = Some x → uploadID x ≠ "" → j ≠ i → uploadID x ≠ id.

Definition os_pending (s : state) (i : nat) (p : string) (c : bytes) : Prop :=
  relative p ∧ ∃ w, s.2 !! i = Some w ∧ closed w = false ∧ key w = prefix +:+ p ∧
    (err w = None → holds w s.1 c) ∧ unshared s i (uploadID w).

Lemma resolveKey_unrooted p : unrooted p → resolveKey prefix p = prefix +:+ p.
Proof. intros H. unfold resolveKey. by rewrite TrimPrefix_none. Qed.
Lemma resolveKey_relative p : relative p → resolveKey prefix p = prefix +:+ p.
Proof. intros H. by apply resolveKey_unrooted, relative_unrooted. Qed.

Lemma holds_kept w o o' c :
  (∀ x, uploadID w ≠ "" → uploads o (uploadID w) = Some x → uploads o' (uploadID w) = Some x) →
  holds w o c → holds w o' c.
Proof.
  intros Hk [Hl [?|(Hne & parts & c' & Hup & ?)]]; (split; [done|]); [by left|right].
  split; [done|]. exists parts, c'. split; [by apply Hk|done].
Qed.

(** Calls that only talk to the provider keep every writer. *)
Lemma inv_provider o o' ws : issued o ⊆ issued o' → os_inv (o, ws) → os_inv (o', ws).
Proof. intros Hi Hinv j x Hx Hne. pose proof (Hinv j x Hx Hne). set_solver. Qed.

Lemma pending_provider o o' ws :
  keeps (uploads o) (uploads o') → preserved (os_pending (o, ws)) (os_pending (o', ws)).
Proof.
  intros Hk i p c (Hp & w & Hw & Hcl & Hkey & Hh & Hid). split; [done|]. exists w. split_and!; [done..| |done].
  intros He. eapply holds_kept; [|by apply Hh]. intros x _. apply Hk.
Qed.

(** A step of a writer that affects only its own upload. *)
Definition own_step (w : osw) (o : world) (w' : osw) (o' : world) : Prop :=
  issued o ⊆ issued o' ∧
  (uploadID w' = uploadID w ∨ uploadID w = "" ∧ uploadID w' ≠ "" ∧ (uploadID w' ∉ issued o) ∧ uploadID w' ∈ issued o') ∧
  ∀ id x, id ≠ "" → id ≠ uploadID w' → uploads o id = Some x → uploads o' id = Some x.

Lemma evolves_own w o w' o' : evolves w o w' o' → own_step w o w' o'.
Proof. intros []. by split. Qed.

Lemma finish_own w o w' o' : finish_post w o w' o' → own_step w o w' o'.
Proof. intros (_ & ? & ? & ?). by split. Qed.

Lemma inv_step o ws i w w' o' :
  own_step w o w' o' → ws !! i = Some w → os_inv (o, ws) → os_inv (o', <[i := w']> ws).
Proof.
  intros (Hi & Hid & _) Hw Hinv j y Hy Hne. simpl in *.
  apply list_lookup_insert_Some in Hy as [(<- & <- & _)|[_ Hy]]; [|pose proof (Hinv j y Hy Hne); set_solver].
  destruct Hid as [E|(_ & _ & _ & ?)]; [|done]. rewrite E in Hne |- *. pose proof (Hinv i w Hw Hne). set_solver.
Qed.

Lemma unshared_self o ws i w w' o' :
  own_step w o w' o' → os_inv (o, ws) →
  unshared (o, ws) i (uploadID w) → unshared (o', <[i := w']> ws) i (uploadID w').
Proof.
  intros (Hi & Hid & _) Hinv Hok j y Hy Hne Hj. simpl in *.
  apply list_lookup_insert_Some in Hy as [(<- & _)|[_ Hy]]; [done|].
  destruct Hid as [->|(_ & _ & Hni & _)]; [by apply (Hok j y)|].
  intros E. apply Hni. rewrite <- E. by apply (Hinv j y).
Qed.

(** The other writers keep their content. *)
Lemma pending_other o ws i w w' o' k p c :
  own_step w o w' o' → ws !! i = Some w → os_inv (o, ws) → k ≠ i →
  os_pending (o, ws) k p c → os_pending (o', <[i := w']> ws) k p c.
Proof.
  intros (Hi & Hids & Hot) Hw Hinv Hki (Hp & x & Hx & Hcl & Hkey & Hh & Hid). simpl in Hx.
  assert (uploadID x ≠ "" → uploadID x ≠ uploadID w') as Hxw.
  { intros Hne E. destruct Hids as [E'|(_ & _ & Hni & _)].
    - rewrite E' in E. apply (Hid i w Hw); [congruence|done|congruence].
    - apply Hni. rewrite <- E. by apply (Hinv k x). }
  split; [done|]. exists x. split_and!; [simpl; by rewrite list_lookup_insert_ne|done|done| |].
  - intros He. eapply holds_kept; [|by apply Hh]. intros y Hne Hu. by apply Hot; auto.
  - intros j y Hy Hne Hj. apply list_lookup_insert_Some in Hy as [(<- & <- & _)|[_ Hy]]; [|by apply (Hid j y)].
    intros E. apply Hxw; [congruence|done].
Qed.

Lemma ReadAll_prefix b e r : ReadAll (b, e) = r → returns r ∧ (∀ x, r = Ok x → e = None ∧ x = b) ∧ (∀ y, r = Err y → e = Some y).
Proof. destruct e as [e|]; simpl; intros <-; (split_and!; [|naive_solver|naive_solver]); [by right; eexists|by left; eexists]. Qed.

Lemma os_Read_law p s r s' : os_inv s → relative p → os_Read prefix p s = (r, s') →
  os_inv s' ∧ os_view s' = os_view s ∧ preserved (os_pending s) (os_pending s') ∧ returns r ∧
  (∀ b, r = Ok b → os_view s !! p = Some b) ∧
  (∀ e, r = Err e → errors_Is e ErrNotFound = true → os_view s !! p = None).
Proof.
  intros Hinv Hp. destruct s as [o ws]. unfold os_Read, bind, provider. cbn [fst snd].
  rewrite resolveKey_relative by done. destruct (GetObjectRange _ 0 (-1) o) as [r1 o1] eqn:E.
  apply GetObjectRange_law in E as (Ho & Hi & Hk & Hr & Hok & Herr); [|by apply prefix_valid|by vm_compute].
  unfold os_view. cbn [fst snd]. setoid_rewrite under_lookup.
  pose proof (pending_provider o o1 ws Hk) as Hpres. pose proof (inv_provider o o1 ws Hi Hinv) as Hinv'.
  destruct r1 as [[b e]|e| |]; [| |by destruct Hr as [[]|[]]..]; unfold lift; intros E; simplify_eq; cbn [fst].
  - destruct (Hok b e eq_refl) as (whole & Hw & Hwant). cbn [Z.to_nat] in Hwant. rewrite drop_0 in Hwant.
    simpl in Hwant. destruct Hwant as [Hn He]. rewrite Ho.
    destruct (ReadAll_prefix b e _ eq_refl) as (Hret & Hx & Hy). split_and!; [done|done|done|done| |].
    + intros x [-> ->]%Hx. by rewrite Hn.
    + intros y ->%Hy Hnf. destruct (He y eq_refl) as [_ He']. congruence.
  - rewrite Ho. split_and!; [done|done|done|by right; eexists|done|]. intros ? [= <-]. by apply Herr.
Qed.

Lemma os_Write_law p b s r s' : os_inv s → relative p → os_Write prefix p b s = (r, s') →
  os_inv s' ∧ preserved (os_pending s) (os_pending s') ∧ returns r ∧
  (os_view s' = <[p := b]> (os_view s) ∨ fails r ∧ os_view s' = os_view s).
Proof.
  intros Hinv Hp. destruct s as [o ws]. unfold os_Write, provider. cbn [fst snd].
  rewrite resolveKey_relative by done. destruct (PutObject _ b o) as [r1 o1] eqn:E.
  apply PutObject_law in E as (Hk & Hi & Hr & Ho); [|by apply prefix_valid]. intros E. simplify_eq. unfold os_view. cbn [fst].
  split_and!; [by eapply inv_provider|by apply pending_provider|done|]. destruct Ho as [->|[? ->]]; [left; apply under_insert|by right].
Qed.

Lemma os_Delete_law p s r s' : os_inv s → relative p → os_Delete prefix p s = (r, s') →
  os_inv s' ∧ preserved (os_pending s) (os_pending s') ∧ returns r ∧
  (os_view s' = delete p (os_view s) ∨ fails r ∧ os_view s' = os_view s).
Proof.
  intros Hinv Hp. destruct s as [o ws]. unfold os_Delete, handle, provider. cbn [fst snd].
  rewrite resolveKey_relative by done. destruct (DeleteObject _ o) as [r1 o1] eqn:E.
  apply DeleteObject_law in E as (Hk & Hi & Hr & Ho & Hnf); [|by apply prefix_valid]. unfold os_view.
  pose proof (pending_provider o o1 ws Hk) as Hpres. pose proof (inv_provider o o1 ws Hi Hinv) as Hinv'.
  destruct r1 as [u|e| |]; [| |by destruct Hr as [[]|[]]..]; intros E.
  - simplify_eq. split_and!; [done|done|by left; eexists|]. cbn [fst].
    destruct Ho as [->|[[] _]]; [left; apply under_delete|done].
  - assert (os_view (o1, ws) = delete p (os_view (o, ws)) ∨ os_view (o1, ws) = os_view (o, ws)) as Hv.
    { unfold os_view. cbn [fst]. destruct Ho as [->|[_ ->]]; [left; apply under_delete|by right]. }
    unfold os_view in Hv. destruct (errors_Is e ErrNotFound) eqn:En; unfold ret, throw in E; simplify_eq.
    + split_and!; [done|done|by left; eexists|]. left. destruct Hv as [|Hv]; [done|]. cbn [fst] in *. rewrite <- Hv.
      rewrite delete_id; [done|]. rewrite under_lookup. by apply (Hnf e).
    + split_and!; [done|done|by right; eexists|]. destruct Hv as [|Hv]; [by left|right; split; [by eexists|done]].
Qed.

Lemma os_List_law p s r s' : os_inv s → unrooted p → os_List prefix p s = (r, s') →
  os_inv s' ∧ os_view s' = os_view s ∧ preserved (os_pending s) (os_pending s') ∧ returns r ∧
  (∀ l, r = Ok l → ∀ n, relative n → n ∈ fi_Name <$> l ↔ n ∈ dom (os_view s) ∧ HasPrefix n p = true).
Proof.
  intros Hinv Hp. destruct s as [o ws]. unfold os_List, bind, provider. cbn [fst snd].
  rewrite resolveKey_unrooted by done. destruct (ListObjects _ o) as [r1 o1] eqn:E.
  apply ListObjects_law in E as (Ho & Hi & Hk & Hr & Hl). unfold os_view.
  pose proof (pending_provider o o1 ws Hk) as Hpres. pose proof (inv_provider o o1 ws Hi Hinv) as Hinv'.
  destruct r1 as [l|e| |]; [| |by destruct Hr as [[]|[]]..]; unfold ret; intros E; simplify_eq; cbn [fst].
  - rewrite Ho. split_and!; [done|done|done|by left; eexists|]. intros l' [= <-] n _.
    rewrite <- list_fmap_compose, list_elem_of_fmap. rewrite elem_of_dom, under_lookup, <- elem_of_dom.
    rewrite <- (HasPrefix_app prefix n p). rewrite <- (Hl l eq_refl). rewrite list_elem_of_fmap. simpl. split.
    + intros (x & -> & Hx). assert (fi_Name x ∈ fi_Name <$> l) as Hin by (apply list_elem_of_fmap; eauto).
      apply (Hl l eq_refl) in Hin as [_ [t Et]%HasPrefix_spec]. exists x. split; [|done].
      rewrite Et.
      assert ((prefix +:+ p) +:+ t = prefix +:+ (p +:+ t)) as ->.
      { apply chars_inj. by rewrite !chars_app, app_assoc. }
      by rewrite TrimPrefix_app.
    + intros (x & Ex & Hx). exists x. split; [|done]. by rewrite <- Ex, TrimPrefix_app.
  - rewrite Ho. split_and!; [done|done|done|by right; eexists|done].
Qed.

Lemma os_OpenWriter_law p s r s' : os_inv s → relative p → os_OpenWriter prefix p s = (r, s') →
  os_inv s' ∧ os_view s' = os_view s ∧ returns r ∧ preserved (os_pending s) (os_pending s') ∧
  (∀ w, r = Ok w → (∀ q c, ¬ os_pending s w q c) ∧ os_pending s' w p []).
Proof.
  intros Hinv Hp. destruct s as [o ws]. unfold os_OpenWriter. cbn [fst snd]. intros [= <- <-].
  rewrite resolveKey_relative by done. set (x := newObjectStorageWriter _).
  assert (∀ k id, unshared (o, ws) k id → unshared (o, ws ++ [x]) k id) as Hids.
  { intros k id Hok j y Hy Hne. apply lookup_app_Some in Hy as [?|[_ Hy]]; [by apply (Hok j)|].
    apply list_lookup_singleton_Some in Hy as [_ <-]. done. }
  split_and!; [|done|by left; eexists| |].
  - intros j y Hy Hne. apply lookup_app_Some in Hy as [Hy|[_ Hy]]; [by apply (Hinv j y)|].
    apply list_lookup_singleton_Some in Hy as [_ <-]. done.
  - intros i q c (Hq & w & Hw & ? & ? & ? & Hok). split; [done|]. exists w. split_and!; [by apply lookup_app_l_Some|done..|by apply Hids].
  - intros w [= <-]. split.
    + intros q c (_ & y & Hy & _). simpl in Hy. by rewrite lookup_ge_None_2 in Hy.
    + split; [done|]. exists x. split_and!; [by apply list_lookup_middle|done|done| |by intros j y _ Hne _].
      intros _. split; [|by left]. pose proof (partSizeFor_bounds 1). unfold blen. simpl. lia.
Qed.

Lemma os_w_Write_law w b s r s' p c : os_inv s → on_writer w (osw_Write b) s = (r, s') → os_pending s w p c →
  os_inv s' ∧ os_view s' = os_view s ∧ returns r ∧
  (∀ u, r = Ok u → os_pending s' w p (c ++ b)) ∧ (∃ c', os_pending s' w p c') ∧
  (∀ w' q d, w' ≠ w → os_pending s w' q d → os_pending s' w' q d).
Proof.
  destruct s as [o ws]. intros Hinv Hw (Hp & x & Hx & Hcl & Hkey & Hh & Hun). unfold on_writer in Hw.
  assert (valid_key (key x)) as Hv by (rewrite Hkey; by apply prefix_valid).
  cbn [fst snd] in Hw, Hx. rewrite Hx in Hw. destruct (osw_Write b (x, o)) as [r1 [x1 o1]] eqn:E. simplify_eq.
  pose proof (lookup_lt_Some _ _ _ Hx) as Hlt.
  destruct (err x) as [e|] eqn:Ee.
  { rewrite (osw_Write_err _ _ _ _ Hcl Ee) in E. simplify_eq. rewrite list_insert_id by done.
    split_and!; [done|done|by right; eexists|done| |done]. exists c. split; [done|]. exists x1. split_and!; [done..|congruence|done]. }
  apply (osw_Write_spec _ _ _ _ _ _ c) in E as [Hev Hres]; [|done|done|done|by apply Hh].
  pose proof (evolves_own _ _ _ _ Hev) as Hown. pose proof Hev as [Hk Hc Ho _ _ _].
  assert (∀ d, (err x1 = None → holds x1 o1 d) → os_pending (o1, <[w := x1]> ws) w p d) as Hpend.
  { intros d Hd. split; [done|]. exists x1. split_and!; [by apply list_lookup_insert_eq|congruence|congruence|done|].
    by eapply unshared_self. }
  split_and!; [by eapply inv_step|unfold os_view; cbn [fst]; by rewrite Ho| | | |intros; by eapply pending_other].
  - destruct Hres as [(u & -> & _)|(e & -> & _)]; [by left; eexists|by right; eexists].
  - intros u ->. apply Hpend. destruct Hres as [(? & _ & _ & ?)|(? & [=] & _)]; done.
  - exists (c ++ b). apply Hpend. destruct Hres as [(? & _ & _ & ?)|(e & _ & He)]; [done|congruence].
Qed.

Lemma os_w_Close_law w s r s' p c : os_inv s → on_writer w osw_Close s = (r, s') → os_pending s w p c →
  os_inv s' ∧ returns r ∧ (∀ w' q d, w' ≠ w → os_pending s w' q d → os_pending s' w' q d) ∧
  (os_view s' = <[p := c]> (os_view s) ∨ fails r ∧ os_view s' = os_view s).
Proof.
  destruct s as [o ws]. intros Hinv Hw (Hp & x & Hx & Hcl & Hkey & Hh & Hun). unfold on_writer in Hw.
  assert (valid_key (key x)) as Hv by (rewrite Hkey; by apply prefix_valid).
  cbn [fst snd] in Hw, Hx, Hh. rewrite Hx in Hw. destruct (osw_Close (x, o)) as [r1 [x1 o1]] eqn:E. simplify_eq.
  apply (osw_Close_spec _ _ _ _ _ c) in E as (Hr & _ & Hfin & Ho); [|done|done|done].
  pose proof (finish_own _ _ _ _ Hfin) as Hown.
  split_and!; [by eapply inv_step|done|intros; by eapply pending_other|].
  unfold os_view. cbn [fst]. destruct Ho as [->|[? ->]]; [left|by right]. rewrite Hkey. apply under_insert.
Qed.

Lemma os_w_Abort_law w s r s' p c : os_inv s → on_writer w osw_Abort s = (r, s') → os_pending s w p c →
  os_inv s' ∧ os_view s' = os_view s ∧ returns r ∧
  (∀ w' q d, w' ≠ w → os_pending s w' q d → os_pending s' w' q d).
Proof.
  destruct s as [o ws]. intros Hinv Hw (Hp & x & Hx & Hcl & Hkey & Hh & Hun). unfold on_writer in Hw.
  assert (valid_key (key x)) as Hv by (rewrite Hkey; by apply prefix_valid).
  cbn [fst snd] in Hw, Hx. rewrite Hx in Hw. destruct (osw_Abort (x, o)) as [r1 [x1 o1]] eqn:E. simplify_eq.
  apply osw_Abort_spec in E as (Hr & Ho & _ & Hfin); [|done|done].
  pose proof (finish_own _ _ _ _ Hfin) as Hown.
  split_and!; [by eapply inv_step|unfold os_view; cbn [fst]; by rewrite Ho|done|intros; by eapply pending_other].
Qed.

(** The refinement: every law of the storage interface. *)
Definition laws : @StorageLaws (storage prefix) := {|
  inv := os_inv : @store (storage prefix) → Prop;
  view := os_view : @store (storage prefix) → gmap string bytes;
  pending := os_pending : @store (storage prefix) → @writer (storage prefix) → string → bytes → Prop;
  Read_law := os_Read_law;
  Write_law := os_Write_law;
  Delete_law := os_Delete_law;
  List_law := os_List_law;
  OpenWriter_law := os_OpenWriter_law;
  w_Write_law := os_w_Write_law;
  w_Close_law := os_w_Close_law;
  pending_abortable _ _ _ _ _ := eq_refl;
  w_Abort_law := os_w_Abort_law;
|}.

End Refinement.

(** ** A run of the writer, as [RunBackup] drives it *)

(** Writes the chunks and closes; a failing write aborts instead. *)
Definition upload {OC : ObjectStorageClient} (chunks : list bytes) : M (osw * world) unit :=
  let* _ := handle (for_each chunks osw_Write) (λ e, let* _ := attempt osw_Abort in throw e) in
  osw_Close.

Section Upload.
Context {OC : ObjectStorageClient} {OL : ObjectStorageClientLaws}.

Lemma writes_spec chunks w o r w' o' c :
  valid_key (key w) → closed w = false → err w = None → holds w o c → for_each chunks osw_Write (w, o) = (r, (w', o')) →
  closed w' = false ∧ key w' = key w ∧ objects o' = objects o ∧
  ((∃ u, r = Ok u ∧ err w' = None ∧ holds w' o' (c ++ concat chunks)) ∨ fails r).
Proof.
  revert w o c. induction chunks as [|p chunks IH]; intros w o c Hv Hcl He Hh; cbn [for_each].
  { unfold ret. intros E. simplify_eq. split_and!; [done..|]. left. exists tt. by rewrite app_nil_r. }
  unfold bind. destruct (osw_Write p (w, o)) as [r1 [w1 o1]] eqn:E1.
  destruct (osw_Write_spec _ _ _ _ _ _ _ Hv Hcl He Hh E1) as [[Hk Hc Ho _ _ _] [(u & -> & He1 & Hh1)|(e & -> & _)]].
  - intros E. apply (IH _ _ (c ++ p)) in E as (? & ? & ? & Hres); [|congruence|congruence|done|done].
    split_and!; [done|congruence|congruence|]. rewrite <- app_assoc in Hres. done.
  - intros E. simplify_eq. split_and!; [congruence|done|done|]. right. by eexists.
Qed.

Lemma new_holds k o : holds (newObjectStorageWriter k) o [].
Proof. split; [|by left]. pose proof (partSizeFor_bounds 1). unfold blen. simpl. lia. Qed.

Lemma upload_spec chunks k o r w' o' :
  valid_key k → upload chunks (newObjectStorageWriter k, o) = (r, (w', o')) →
  returns r ∧ (objects o' = <[k := concat chunks]> (objects o) ∨ fails r ∧ objects o' = objects o).
Proof.
  intros Hv. unfold upload, bind, handle.
  destruct (for_each chunks osw_Write (newObjectStorageWriter k, o)) as [r1 [w1 o1]] eqn:E1.
  apply (writes_spec _ _ _ _ _ _ []) in E1 as (Hcl & Hk & Ho & Hres); [|done|done|done|apply new_holds].
  assert (valid_key (key w1)) as Hv1 by (by rewrite Hk).
  destruct Hres as [(u & -> & He & Hh)|[e ->]].
  - intros E. apply (osw_Close_spec _ _ _ _ _ (concat chunks)) in E as (Hr & _ & _ & Hob); [|done|done|done].
    split; [done|]. rewrite Hk in Hob. by rewrite <- Ho.
  - unfold attempt. destruct (osw_Abort (w1, o1)) as [r2 [w2 o2]] eqn:E2.
    apply osw_Abort_spec in E2 as (Hr & Hob & _); [|done|done].
    destruct r2; [| |by destruct Hr as [[]|[]]..]; unfold throw; intros E; simplify_eq;
      (split; [by right; eexists|right; split; [by eexists|congruence]]).
Qed.

End Upload.

(** ** An in-memory provider

    Calls succeed, fail before or after taking effect, or cut a download
    short, by a schedule. *)
Module MemProvider.

Inductive fault := FNone | FBefore | FAfter | FCut (n : nat).

Record prov := {
  objs : gmap string bytes;
  ups : gmap string (string * gmap Z (string * bytes));
  ids : gset string;
  schedule : list fault;
}.

Definition transport_error : error := ELeaf "transport" false.
Definition set_objs (x : gmap string bytes) (s : prov) : prov :=
  {| objs := x; ups := ups s; ids := ids s; schedule := schedule s |}.
Definition set_ups (x : gmap string (string * gmap Z (string * bytes))) (s : prov) : prov :=
  {| objs := objs s; ups := x; ids := ids s; schedule := schedule s |}.

Definition call {A} (f : prov → res A * prov) (s : prov) : res A * prov :=
  let s1 := {| objs := objs s; ups := ups s; ids := ids s; schedule := tail (schedule s) |} in
  match head (schedule s) with
  | Some FBefore | Some (FCut _) => (Err transport_error, s1)
  | Some FAfter => (Err transport_error, (f s1).2)
  | Some FNone | None => f s1
  end.

Definition p_Initiate (k : string) (s : prov) : res string * prov :=
  let id := fresh ({[""]} ∪ ids s ∪ dom (ups s)) in
  (Ok id, {| objs := objs s; ups := <[id := (k, ∅)]> (ups s); ids := {[id]} ∪ ids s; schedule := schedule s |}).
Definition p_UploadPart (k id : string) (n : Z) (b : bytes) (s : prov) : res string * prov :=
  match ups s !! id with
  | Some (k', parts) => (Ok "etag", set_ups (<[id := (k', <[n := ("etag", b)]> parts)]> (ups s)) s)
  | None => (Err (ESentinel ErrUploadNotFound), s)
  end.
Definition p_Complete (k id : string) (tags : gmap Z string) (s : prov) : res unit * prov :=
  match ups s !! id with
  | Some (k', parts) =>
      match parts_upto (size parts) parts with
      | Some c => (Ok tt, set_objs (<[k := c]> (objs s)) (set_ups (delete id (ups s)) s))
      | None => (Err (ELeaf "invalid part" false), s)
      end
  | None => (Err (ESentinel ErrUploadNotFound), s)
  end.
Definition p_DeleteObject (k : string) (s : prov) : res unit * prov :=
  match objs s !! k with
  | Some _ => (Ok tt, set_objs (delete k (objs s)) s)
  | None => (Err (wrap1 ErrNotFound k), s)
  end.
Definition p_ListObjects (p : string) (s : prov) : res (list FileInfo) * prov :=
  (Ok ((λ kv : string * bytes, {| fi_Name := kv.1; fi_Size := blen kv.2 |}) <$>
       filter (λ kv, HasPrefix kv.1 p = true) (map_to_list (objs s))), s).
Definition p_GetObjectSize (k : string) (s : prov) : res Z * prov :=
  match objs s !! k with
  | Some b => (Ok (blen b), s)
  | None => (Err (wrap1 ErrNotFound k), s)
  end.
Definition p_GetObjectRange (k : string) (a z : Z) (s : prov) : res stream * prov :=
  let s1 := {| objs := objs s; ups := ups s; ids := ids s; schedule := tail (schedule s) |} in
  match objs s !! k with
  | None => (Err (wrap1 ErrNotFound k), s1)
  | Some whole =>
      let want := drop (Z.to_nat a) (if z <? 0 then whole else take (Z.to_nat (z + 1)) whole) in
      match head (schedule s) with
      | Some FBefore | Some FAfter => (Err transport_error, s1)
      | Some (FCut n) => (Ok (take n want, Some (ESentinel IoErrUnexpectedEOF)), s1)
      | Some FNone | None => (Ok (want, None), s1)
      end
  end.

Definition provider : ObjectStorageClient := {|
  world := prov;
  Initiate k := call (p_Initiate k);
  UploadPart k id n b := call (p_UploadPart k id n b);
  Complete k id tags := call (p_Complete k id tags);
  Abort k id := call (λ s, (Ok tt, set_ups (delete id (ups s)) s));
  PutObject k b := call (λ s, (Ok tt, set_objs (<[k := b]> (objs s)) s));
  DeleteObject k := call (p_DeleteObject k);
  ListObjects p := call (p_ListObjects p);
  GetObjectSize k := call (p_GetObjectSize k);
  GetObjectRange k a z := p_GetObjectRange k a z;
|}.

Definition same (s s1 : prov) : Prop := objs s1 = objs s ∧ ups s1 = ups s ∧ ids s1 = ids s.

Lemma mem_call_inv {A} (f : prov → res A * prov) s r s' :
  call f s = (r, s') →
  ∃ s1, same s s1 ∧ (f s1 = (r, s') ∨ r = Err transport_error ∧ (s' = s1 ∨ s' = (f s1).2)).
Proof.
  unfold call. set (s1 := {| objs := _ |}). intros H. exists s1. split; [done|].
  destruct (head (schedule s)) as [[]|]; [by left| | | |by left]; simplify_eq; eauto.
Qed.

Lemma size_contiguous {A} (parts : gmap Z A) n :
  (∀ i, is_Some (parts !! i) ↔ 1 ≤ i ≤ Z.of_nat n) → size parts = n.
Proof.
  intros H. rewrite <- size_dom.
  assert (dom parts = list_to_set (seqZ 1 (Z.of_nat n))) as ->.
  { apply set_eq. intros i. rewrite elem_of_dom, H, elem_of_list_to_set, elem_of_seqZ. lia. }
  rewrite size_list_to_set by apply NoDup_seqZ. rewrite length_seqZ. lia.
Qed.

Lemma returns_Ok {A} (a : A) : returns (Ok a).
Proof. by left; eexists. Qed.
Lemma returns_Err {A} e : returns (Err e : res A).
Proof. by right; eexists. Qed.
#[local] Hint Resolve returns_Ok returns_Err : core.

Lemma same_keeps s s1 : ups s1 = ups s → keeps (λ x, ups s !! x) (λ x, ups s1 !! x).
Proof. by intros -> x y. Qed.

Lemma same_others s s1 id : ups s1 = ups s →
  ∀ id' x, id' ≠ id → ups s !! id' = Some x → ups s1 !! id' = Some x.
Proof. by intros ->. Qed.

Ltac prov_call H :=
  apply mem_call_inv in H as (s1 & (Ho & Hu & Hi) & [Hf|[-> [->| ->]]]).

Lemma Initiate_law_ k o r o' : call (p_Initiate k) o = (r, o') →
  objs o' = objs o ∧ ids o ⊆ ids o' ∧ returns r ∧ keeps (λ x, ups o !! x) (λ x, ups o' !! x) ∧
  (∀ id, r = Ok id → id ≠ "" ∧ (id ∉ ids o) ∧ id ∈ ids o' ∧ ups o' !! id = Some (k, ∅)).
Proof.
  intros H. prov_call H; [|split_and!; [done|by rewrite Hi|done|by apply same_keeps|done]|];
    unfold p_Initiate in *; simplify_eq; simpl;
    pose proof (is_fresh ({[""]} ∪ ids s1 ∪ dom (ups s1))) as Hfr;
    set (id := fresh _) in *; rewrite !not_elem_of_union, not_elem_of_dom in Hfr;
    destruct Hfr as [[H1 H2] H3];
    (split_and!; [done|set_solver|done| |]); try done.
  1, 3: intros x y Hx; rewrite <- Hu in Hx; rewrite lookup_insert_ne; [done|]; intros <-; by rewrite H3 in Hx.
  intros ? [= <-]. rewrite <- Hi. split_and!; [set_solver|done|set_solver|by rewrite lookup_insert_eq].
Qed.

Lemma UploadPart_law_ k id n b o r o' parts : call (p_UploadPart k id n b) o = (r, o') →
  ups o !! id = Some (k, parts) →
  objs o' = objs o ∧ ids o ⊆ ids o' ∧ returns r ∧
  (∀ etag, r = Ok etag → ups o' !! id = Some (k, <[n := (etag, b)]> parts)) ∧
  (∀ id' x, id' ≠ id → ups o !! id' = Some x → ups o' !! id' = Some x).
Proof.
  intros H Hup. prov_call H; [|split_and!; [done|by rewrite Hi|done|done|by apply same_others]|];
    rewrite <- Hu in Hup; unfold p_UploadPart in *; rewrite Hup in *; simplify_eq; simpl;
    (split_and!; [done|by rewrite Hi|done| |intros id' x ? ?; by rewrite lookup_insert_ne, Hu]); [|done].
  intros ? [= <-]. by rewrite lookup_insert_eq.
Qed.

Lemma Complete_law_ k id tags o r o' parts n c : call (p_Complete k id tags) o = (r, o') →
  ups o !! id = Some (k, parts) → tags = fst <$> parts →
  (∀ i, is_Some (parts !! i) ↔ 1 ≤ i ≤ Z.of_nat n) → parts_upto n parts = Some c →
  ids o ⊆ ids o' ∧ returns r ∧ (objs o' = <[k := c]> (objs o) ∨ fails r ∧ objs o' = objs o) ∧
  (∀ id' x, id' ≠ id → ups o !! id' = Some x → ups o' !! id' = Some x).
Proof.
  intros H Hup _ Hdom Hc. apply size_contiguous in Hdom.
  prov_call H; [|split_and!; [by rewrite Hi|done|right; split; [by eexists|done]|by apply same_others]|];
    rewrite <- Hu in Hup; unfold p_Complete in *; rewrite Hup, Hdom, Hc in *; simplify_eq; simpl;
    (split_and!; [by rewrite Hi|done|left; by rewrite Ho|intros id' x ? ?; by rewrite lookup_delete_ne, Hu]).
Qed.

Lemma Abort_law_ (k id : string) o r o' :
  call (λ s, (Ok tt, set_ups (delete id (ups s)) s)) o = (r : res unit, o') →
  objs o' = objs o ∧ ids o ⊆ ids o' ∧ returns r ∧
  (∀ id' x, id' ≠ id → ups o !! id' = Some x → ups o' !! id' = Some x).
Proof.
  intros H. prov_call H; simplify_eq; simpl; (split_and!; [done|by rewrite Hi|done|]);
    [|by apply same_others|]; intros id' x ? ?; by rewrite lookup_delete_ne, Hu.
Qed.

Lemma PutObject_law_ k b o r o' :
  call (λ s, (Ok tt, set_objs (<[k := b]> (objs s)) s)) o = (r : res unit, o') →
  keeps (λ x, ups o !! x) (λ x, ups o' !! x) ∧ ids o ⊆ ids o' ∧ returns r ∧
  (objs o' = <[k := b]> (objs o) ∨ fails r ∧ objs o' = objs o).
Proof.
  intros H. prov_call H; simplify_eq; simpl; (split_and!; [by apply same_keeps|by rewrite Hi|done|]);
    [left; by rewrite Ho|right; split; [by eexists|done]|left; by rewrite Ho].
Qed.

Lemma DeleteObject_law_ k o r o' : call (p_DeleteObject k) o = (r, o') →
  keeps (λ x, ups o !! x) (λ x, ups o' !! x) ∧ ids o ⊆ ids o' ∧ returns r ∧
  (objs o' = delete k (objs o) ∨ fails r ∧ objs o' = objs o) ∧
  (∀ e, r = Err e → errors_Is e ErrNotFound = true → objs o' !! k = None).
Proof.
  intros H. prov_call H; unfold p_DeleteObject in *.
  - destruct (objs s1 !! k) eqn:E; simplify_eq; simpl; (split_and!; [by apply same_keeps|by rewrite Hi|done| |]).
    + left; by rewrite Ho.
    + done.
    + right. split; [by eexists|done].
    + done.
  - split_and!; [by apply same_keeps|by rewrite Hi|done|right; split; [by eexists|done]|by intros ? [= <-]].
  - destruct (objs s1 !! k) eqn:E; simpl; (split_and!; [by apply same_keeps|by rewrite Hi|done| |by intros ? [= <-]]);
      [left; by rewrite Ho|right; split; [by eexists|done]].
Qed.

Lemma ListObjects_law_ p o r o' : call (p_ListObjects p) o = (r, o') →
  objs o' = objs o ∧ ids o ⊆ ids o' ∧ keeps (λ x, ups o !! x) (λ x, ups o' !! x) ∧ returns r ∧
  (∀ l, r = Ok l → ∀ n, n ∈ fi_Name <$> l ↔ n ∈ dom (objs o) ∧ HasPrefix n p = true).
Proof.
  intros H. prov_call H; unfold p_ListObjects in *; simplify_eq; simpl;
    (split_and!; [done|by rewrite Hi|by apply same_keeps|done|]); try done.
  intros l [= <-] n. rewrite <- list_fmap_compose, list_elem_of_fmap. setoid_rewrite list_elem_of_filter.
  rewrite elem_of_dom, <- Ho. split.
  - intros ([k b] & -> & Hp & Hk%elem_of_map_to_list). simpl in *. eauto.
  - intros [[b Hb] Hp]. exists (n, b). by rewrite elem_of_map_to_list.
Qed.

Lemma GetObjectSize_law_ k o r o' : call (p_GetObjectSize k) o = (r, o') →
  objs o' = objs o ∧ ids o ⊆ ids o' ∧ keeps (λ x, ups o !! x) (λ x, ups o' !! x) ∧ returns r ∧
  (∀ n, r = Ok n → ∃ b, objs o !! k = Some b ∧ n = blen b) ∧
  (∀ e, r = Err e → errors_Is e ErrNotFound = true → objs o !! k = None).
Proof.
  intros H. prov_call H; unfold p_GetObjectSize in *; try (destruct (objs s1 !! k) eqn:E); simplify_eq; simpl;
    (split_and!; [done|by rewrite Hi|by apply same_keeps|done| |]); try done; try (by intros ? [= <-]).
  - intros ? [= <-]. rewrite <- Ho. eauto.
  - intros _ _ _. by rewrite <- Ho.
Qed.

Lemma GetObjectRange_law_ k a z o r o' : p_GetObjectRange k a z o = (r, o') →
  objs o' = objs o ∧ ids o ⊆ ids o' ∧ keeps (λ x, ups o !! x) (λ x, ups o' !! x) ∧ returns r ∧
  (∀ b e, r = Ok (b, e) → ∃ whole, objs o !! k = Some whole ∧
     let want := drop (Z.to_nat a) (if z <? 0 then whole else take (Z.to_nat (z + 1)) whole) in
     (e = None → b = want) ∧ (∀ err, e = Some err → b `prefix_of` want ∧ errors_Is err ErrNotFound = false)) ∧
  (∀ e, r = Err e → errors_Is e ErrNotFound = true → objs o !! k = None).
Proof.
  unfold p_GetObjectRange. destruct (objs o !! k) as [whole|] eqn:E; [destruct (head (schedule o)) as [[]|]|];
    intros [= <- <-]; simpl; (split_and!; [done|done|by apply same_keeps|done| |]); try done; try (by intros ? [= <-]).
  all: intros b e [= <- <-]; exists whole; split; [done|]; split; [done|]; intros err; try done.
  intros [= <-]. split; [apply prefix_take|done].
Qed.

(** The provider keeps the contract, whatever the schedule. *)
Definition laws : @ObjectStorageClientLaws provider := {|
  valid_key _ := True;
  objects := objs : @world provider → gmap string bytes;
  uploads := (λ s id, ups s !! id) : @world provider → string → option (string * gmap Z (string * bytes));
  issued := ids : @world provider → gset string;
  Initiate_law k o r o' _ := Initiate_law_ k o r o';
  UploadPart_law k id n b o r o' parts _ _ := UploadPart_law_ k id n b o r o' parts;
  Complete_law k id tags o r o' parts n c _ H1 H2 H3 H4 _ := Complete_law_ k id tags o r o' parts n c H1 H2 H3 H4;
  Abort_law k id o r o' _ := Abort_law_ k id o r o';
  PutObject_law k b o r o' _ := PutObject_law_ k b o r o';
  DeleteObject_law k o r o' _ := DeleteObject_law_ k o r o';
  ListObjects_law := ListObjects_law_;
  GetObjectSize_law k o r o' _ := GetObjectSize_law_ k o r o';
  GetObjectRange_law k a z o r o' _ _ := GetObjectRange_law_ k a z o r o';
|}.

Definition empty : prov := {| objs := ∅; ups := ∅; ids := ∅; schedule := [] |}.

End MemProvider.

(** ** Properties *)

(** C18. Against any provider that keeps its contract and tells the keys under
    the prefix apart, [ObjectStorage] keeps the contract of [Storage]: its objects are the provider's objects under
    the prefix, writes and deletions are all or nothing, and an opened
    writer publishes exactly the concatenation of what was written to it,
    at [Close] and not before, however the calls on several writers are
    interleaved. *)
Theorem ObjectStorage_refines_Storage {OC : ObjectStorageClient} {OL : ObjectStorageClientLaws} (prefix : string) :
  (∀ p, relative p → valid_key (prefix +:+ p)) →
  ∃ L : @StorageLaws (storage prefix),
    (∀ (s : world * list osw) p, @view _ L s !! p = objects s.1 !! (prefix +:+ p)) ∧
    (∀ o : world, @inv _ L (o, []) ∧ ∀ w p c, ¬ @pending _ L (o, []) w p c).
Proof.
  intros Hvalid. exists (laws prefix Hvalid). split; [intros s p; apply under_lookup|].
  intros o. split; [intros j x Hx; done|]. intros w p c (_ & x & Hx & _). done.
Qed.

Lemma ObjectStorage_refines_Storage_witness :
  let OC := MemProvider.provider in let OL := MemProvider.laws in
  ∃ L : @StorageLaws (storage "backups/"),
    (∀ (s : world * list osw) p, @view _ L s !! p = objects s.1 !! ("backups/" +:+ p)) ∧
    (∀ o : world, @inv _ L (o, []) ∧ ∀ w p c, ¬ @pending _ L (o, []) w p c).
Proof. intros OC OL. by apply (@ObjectStorage_refines_Storage OC OL "backups/"). Defined.

(** C19. Streaming any chunks through a writer always returns, without panics
    or exhausted loops; afterwards the object holds exactly the
    concatenation of the chunks, or the call reports an error and the
    object is what it was before (or the full content, when the provider
    reported an error after committing): never a truncated object. *)
Theorem objectStorageWriter_atomic {OC : ObjectStorageClient} {OL : ObjectStorageClientLaws}
    (chunks : list bytes) k o r w' o' :
  valid_key k → upload chunks (newObjectStorageWriter k, o) = (r, (w', o')) →
  ((∃ u, r = Ok u) ∨ ∃ e, r = Err e) ∧
  (∀ u, r = Ok u → objects o' = <[k := concat chunks]> (objects o)) ∧
  (∀ e, r = Err e → objects o' = objects o ∨ objects o' = <[k := concat chunks]> (objects o)).
Proof.
  intros Hv [Hr Ho]%upload_spec; [|done]. split_and!; [done| |].
  - intros u ->. destruct Ho as [|[[] _]]; done.
  - intros e _. destruct Ho as [|[_ ?]]; auto.
Qed.

Lemma objectStorageWriter_atomic_witness :
  let OC := MemProvider.provider in let OL := MemProvider.laws in
  let chunks := [bytes_of_string "ab"; bytes_of_string "c"] in
  let out := upload chunks (newObjectStorageWriter "k", MemProvider.empty) in
  out.1 = Ok tt ∧
  ((∃ u, out.1 = Ok u) ∨ ∃ e, out.1 = Err e) ∧
  (∀ u, out.1 = Ok u → objects out.2.2 = <["k" := concat chunks]> (objects MemProvider.empty)) ∧
  (∀ e, out.1 = Err e → objects out.2.2 = objects MemProvider.empty ∨
     objects out.2.2 = <["k" := concat chunks]> (objects MemProvider.empty)).
Proof.
  intros OC OL chunks out. split; [vm_compute; reflexivity|].
  apply (@objectStorageWriter_atomic OC OL chunks "k" MemProvider.empty out.1 out.2.1 out.2.2); [exact I|].
  unfold out. by rewrite <- !surjective_pairing.
Defined.

Definition total_capacity : Z := foldr Z.add 0 (partSizeFor <$> seqZ 1 maxMultipartParts).

(** C37. Part sizes start at 8 MiB, double every 1000 parts and never exceed
    5 GiB, without overflow for any part number; the 10,000 parts a
    provider allows hold 8581545984000 bytes (about 7.8 TiB), more than the
    5 TiB limit on an object. *)
Theorem partSizeFor_spec :
  (∀ n, 1 ≤ partSizeFor n ≤ maxPartSize) ∧
  (∀ n, 1 ≤ n ≤ maxMultipartParts → partSizeFor n = 2 ^ (23 + (n - 1) / 1000)) ∧
  total_capacity = 8581545984000 ∧ 5 * 2 ^ 40 < total_capacity.
Proof.
  split_and!; [apply partSizeFor_bounds|apply partSizeFor_pow|vm_compute; reflexivity|vm_compute; reflexivity].
Qed.

(** Random access reads the right bytes: what [ReadAt] delivers is a
    prefix of the requested slice of the stored object, and without an error
    it is the whole slice, of the requested length. *)
Theorem ReadAt_spec {OC : ObjectStorageClient} {OL : ObjectStorageClientLaws} prefix path len off s b e s' :
  relative path → valid_key (prefix +:+ path) → 0 < len → 0 ≤ off → off + len ≤ max_int64 →
  ReadAt prefix path len off s = (Ok (b, e), s') →
  ∃ whole, objects s.1 !! (prefix +:+ path) = Some whole ∧
    b `prefix_of` take (Z.to_nat len) (drop (Z.to_nat off) whole) ∧
    (e = None → b = take (Z.to_nat len) (drop (Z.to_nat off) whole) ∧ blen b = len).
Proof.
  intros Hp Hv Hlen Hoff Hmax. unfold ReadAt. rewrite (proj2 (Z.eqb_neq len 0)) by lia.
  unfold bind, os_ReadRange, provider. rewrite (proj2 (Z.eqb_neq len 0)) by lia.
  rewrite (proj2 (Z.ltb_lt 0 len)) by lia. rewrite resolveKey_relative by done.
  unfold max_int64 in Hmax. rewrite !i64_id by (unfold is_i64, min_int64, max_int64; rewrite ?i64_id by (unfold is_i64, min_int64, max_int64; lia); lia).
  destruct (GetObjectRange (prefix +:+ path) off (off + len - 1) s.1) as [r1 o1] eqn:E.
  apply GetObjectRange_law in E as (_ & _ & _ & _ & Hok & _); [|done|unfold max_int64; lia].
  destruct r1 as [[x y]|e'| |]; try done. destruct (Hok x y eq_refl) as (whole & Hw & Hwant).
  rewrite (proj2 (Z.ltb_ge (off + len - 1) 0)) in Hwant by lia.
  replace (Z.to_nat (off + len - 1 + 1)) with (Z.to_nat off + Z.to_nat len)%nat in Hwant by lia.
  rewrite <- take_drop_commute in Hwant. destruct Hwant as [Hn He].
  set (want := take (Z.to_nat len) (drop (Z.to_nat off) whole)) in *.
  assert (x `prefix_of` want) as Hpre by (destruct y as [y|]; [by apply (He y)|by rewrite (Hn eq_refl)]).
  assert (take (Z.to_nat len) x `prefix_of` want) as Hpre' by (etrans; [apply prefix_take|done]).
  cbn [fst snd]. intros H. exists whole. split; [done|]. fold want.
  destruct (Z.leb_spec len (blen x)) as [Hle|Hgt].
  - unfold ret in H. simplify_eq. split; [done|]. intros _.
    assert (length want ≤ Z.to_nat len)%nat by (subst want; rewrite length_take; lia).
    assert (length (take (Z.to_nat len) x) = Z.to_nat len) as Hl by (rewrite length_take; unfold blen in Hle; lia).
    split; [|unfold blen; lia]. destruct Hpre' as [k Hk]. rewrite Hk.
    assert (k = []) as ->; [|by rewrite app_nil_r].
    apply (f_equal length) in Hk. rewrite length_app in Hk. destruct k; simpl in *; [done|lia].
  - destruct y as [[[]| | | | |]|]; unfold ret in H; simplify_eq; done.
Qed.

Lemma ReadAt_spec_witness :
  let OC := MemProvider.provider in let OL := MemProvider.laws in
  let object := bytes_of_string "hello" in
  let s := (MemProvider.set_objs {["b/x" := object]} MemProvider.empty, [] : list osw) in
  ∃ whole, objects (s.1 : world) !! ("b/" +:+ "x") = Some whole ∧
    bytes_of_string "ell" `prefix_of` take (Z.to_nat 3) (drop (Z.to_nat 1) whole) ∧
    ((None : option error) = None → bytes_of_string "ell" = take (Z.to_nat 3) (drop (Z.to_nat 1) whole) ∧
       blen (bytes_of_string "ell") = 3).
Proof.
  intros OC OL object s.
  apply (@ReadAt_spec OC OL "b/" "x" 3 1 s (bytes_of_string "ell") None s);
    [reflexivity|exact I|lia|lia|unfold max_int64; lia|vm_compute; reflexivity].
Defined.

(** A download that is cut short is indistinguishable from the end of
    the object: with a provider that keeps its contract, [ReadAt] answers a
    request inside a five-byte object with two bytes and [io.EOF], because
    it maps every [io.ErrUnexpectedEOF], its own and the transport's. *)
Theorem ReadAt_hides_truncation :
  let OC := MemProvider.provider in
  let whole := bytes_of_string "hello" in
  let s := ({| MemProvider.objs := {["b/x" := whole]}; MemProvider.ups := ∅; MemProvider.ids := ∅;
               MemProvider.schedule := [MemProvider.FCut 2] |}, [] : list osw) in
  (@ReadAt MemProvider.provider "b/" "x" 5 0 s).1 = Ok (take 2 whole, Some (ESentinel IoEOF)) ∧ blen whole = 5.
Proof. vm_compute. done. Qed.
