(* ===== verification/Crypto.v ===== *)
(** The per-run password of the parts ([tsync/crypto.go]).

    The NaCl box ([golang.org/x/crypto/nacl/box]) and the random source are
    not part of the program: the box is an interface with the round-trip law
    it documents, random bytes are arguments. *)

From Stdlib Require Import Strings.Byte.
From S2P Require Import Prelude Errors GoStrings Keys Digest.
#[local] Open Scope Z_scope.

(** ** Definitions *)

Definition charset : string := "abcdefghijklmnopqrstuvwxyzABCDEFGHIJKLMNOPQRSTUVWXYZ0123456789!@#$%^&*()_+-=".

(** [charset[int(b)%len(charset)]]. *)
Definition password_char (b : Byte.byte) : ascii :=
  nth (Z.to_nat (byte_val b mod str_len charset)) (chars charset) "a"%char.

(** [GenerateZipCryptoPassword]; [random] is what [rand.Read] leaves in the
    buffer of 32 bytes. *)
Definition GenerateZipCryptoPassword (random : res bytes) : res string :=
  let! bytes := random in Ok (of_chars (password_char <$> bytes)).

(** [nacl/box]: [box_Seal message nonce peersPublicKey privateKey], which
    appends the sealed message to its first argument in Go, and [box_Open]. *)
Class Box := {
  key_pair : bytes → bytes → Prop;
  box_Seal : bytes → bytes → bytes → bytes → bytes;
  box_Open : bytes → bytes → bytes → bytes → option bytes;
}.

Class BoxLaws `{!Box} := {
  Open_Seal m nonce pk1 sk1 pk2 sk2 :
    key_pair pk1 sk1 → key_pair pk2 sk2 → box_Open (box_Seal m nonce pk2 sk1) nonce pk1 sk2 = Some m;
  Seal_length m nonce pk sk : length (box_Seal m nonce pk sk) = (length m + 16)%nat;
}.

Section Crypto.
Context {BX : Box}.

(** [EncryptPassword]; [keys] is the result of [box.GenerateKey], [random]
    the nonce read from the random source. *)
Definition EncryptPassword (keys : res (bytes * bytes)) (random : res bytes) (password : string)
    (vmPubKeySlice : bytes) : res (bytes * bytes) :=
  if negb (blen vmPubKeySlice =? 32) then Err (wrap1 ErrInvalidOptions "invalid VM public key length")
  else
    match keys return res (bytes * bytes) with
    | Err e => Err (Errorf "failed to generate ephemeral keypair" [e])
    | Panic => Panic
    | OutOfFuel => OutOfFuel
    | Ok (ephPub, ephPriv) =>
        match random return res (bytes * bytes) with
        | Err e => Err (Errorf "failed to read random nonce" [e])
        | Panic => Panic
        | OutOfFuel => OutOfFuel
        | Ok nonce => Ok (ephPub, nonce ++ box_Seal (bytes_of_string password) nonce vmPubKeySlice ephPriv)
        end
    end.

(** [DecryptPassword]. *)
Definition DecryptPassword (encryptedPassword ephPubKeySlice vmPrivKeySlice : bytes) : res string :=
  if negb (blen ephPubKeySlice =? 32) then Err (wrap1 ErrDecryptionFailed "invalid ephemeral public key length")
  else if negb (blen vmPrivKeySlice =? 32) then Err (wrap1 ErrInvalidOptions "invalid VM private key length")
  else if blen encryptedPassword <? 24 + 16 then Err (wrap1 ErrDecryptionFailed "invalid encrypted password length")
  else
    let nonce := take 24 encryptedPassword in
    let ciphertext := drop 24 encryptedPassword in
    match box_Open ciphertext nonce ephPubKeySlice vmPrivKeySlice with
    | None => Err (wrap1 ErrDecryptionFailed "NaCl Box could not open the encrypted password")
    | Some decrypted => Ok (string_of_bytes decrypted)
    end.

End Crypto.

(** ** Properties *)

(** The password of a part: 32 characters, all from the character set,
    whatever the random bytes. *)
Theorem GenerateZipCryptoPassword_spec random :
  length random = 32%nat →
  ∃ p, GenerateZipCryptoPassword (Ok random) = Ok p ∧ str_len p = 32 ∧
    Forall (λ c, c ∈ chars charset) (chars p).
Proof.
  intros Hl. eexists. split; [reflexivity|]. rewrite str_len_chars, chars_of_chars, length_fmap, Hl. split; [done|].
  apply Forall_fmap, Forall_forall. intros b _. unfold compose, password_char.
  apply list_elem_of_In, nth_In. rewrite length_chars.
  pose proof (Z.mod_pos_bound (byte_val b) (str_len charset)) as Hb.
  change (str_len charset) with 76 in *. change (String.length charset) with 76%nat. lia.
Qed.

Lemma GenerateZipCryptoPassword_spec_witness :
  length (replicate 32 xff) = 32%nat ∧
  ∃ p, GenerateZipCryptoPassword (Ok (replicate 32 xff)) = Ok p ∧ str_len p = 32 ∧
    Forall (λ c, c ∈ chars charset) (chars p).
Proof. split; [reflexivity|]. apply (GenerateZipCryptoPassword_spec (replicate 32 xff)). reflexivity. Defined.

Lemma string_of_bytes_of_string s : string_of_bytes (bytes_of_string s) = s.
Proof. apply String.string_of_list_byte_of_string. Qed.

Lemma length_bytes_of_string s : length (bytes_of_string s) = String.length s.
Proof. unfold bytes_of_string, String.list_byte_of_string. rewrite length_map. apply length_chars. Qed.

(** What was sealed for the owner of a key opens with the private key. *)
Lemma sealed_opens {BX : Box} {BL : BoxLaws} password vmPub vmPriv ephPub ephPriv nonce e sealed :
  key_pair vmPub vmPriv → key_pair ephPub ephPriv →
  blen vmPriv = 32 → blen ephPub = 32 → blen nonce = 24 →
  EncryptPassword (Ok (ephPub, ephPriv)) (Ok nonce) password vmPub = Ok (e, sealed) →
  e = ephPub ∧ blen sealed = 40 + str_len password ∧ DecryptPassword sealed ephPub vmPriv = Ok password.
Proof.
  intros Hvm Heph H2 H3 H4. unfold EncryptPassword. destruct (negb (blen vmPub =? 32)); [done|].
  intros [= <- <-]. split; [done|]. unfold DecryptPassword. rewrite H3, H2. cbn [Z.eqb negb Pos.eqb].
  assert (blen (nonce ++ box_Seal (bytes_of_string password) nonce vmPub ephPriv) = 40 + str_len password) as Hl.
  { unfold blen, str_len in *. rewrite length_app, Seal_length, length_bytes_of_string. lia. }
  split; [exact Hl|]. rewrite Hl. rewrite (proj2 (Z.ltb_ge _ _)) by (unfold str_len; lia).
  rewrite take_app_length', drop_app_length' by (unfold blen in H4; lia).
  rewrite (Open_Seal _ _ ephPub ephPriv vmPub vmPriv) by done. by rewrite string_of_bytes_of_string.
Qed.

(** C33. The owner of the private key recovers the password: what
    [EncryptPassword] wrote for a public key of 32 bytes, with any ephemeral
    pair and any nonce of 24 bytes, decrypts with the matching private key;
    the sealed password has 24 + 16 bytes more than the password, so it
    passes the length check of the backup options. *)
Theorem EncryptPassword_roundtrip {BX : Box} {BL : BoxLaws} password vmPub vmPriv ephPub ephPriv nonce :
  key_pair vmPub vmPriv → key_pair ephPub ephPriv →
  blen vmPub = 32 → blen vmPriv = 32 → blen ephPub = 32 → blen nonce = 24 →
  ∃ sealed, EncryptPassword (Ok (ephPub, ephPriv)) (Ok nonce) password vmPub = Ok (ephPub, sealed) ∧
    blen sealed = 40 + str_len password ∧
    DecryptPassword sealed ephPub vmPriv = Ok password.
Proof.
  intros Hvm Heph H1 H2 H3 H4.
  assert (∃ sealed, EncryptPassword (Ok (ephPub, ephPriv)) (Ok nonce) password vmPub = Ok (ephPub, sealed)) as [sealed Hs].
  { unfold EncryptPassword. rewrite H1. by eexists. }
  exists sealed. split; [exact Hs|]. by eapply sealed_opens in Hs as (_ & ? & ?).
Qed.

(** Decryption reports every bad input and never panics: a private key of
    the wrong length is the caller's mistake ([ErrInvalidOptions]), anything
    else that cannot be opened is [ErrDecryptionFailed]. *)
Theorem DecryptPassword_errors {BX : Box} sealed ephPub vmPriv :
  match DecryptPassword sealed ephPub vmPriv with
  | Ok _ => blen ephPub = 32 ∧ blen vmPriv = 32 ∧ 40 ≤ blen sealed ∧
      is_Some (box_Open (drop 24 sealed) (take 24 sealed) ephPub vmPriv)
  | Err e =>
      errors_Is e ErrInvalidOptions = true ∧ blen ephPub = 32 ∧ blen vmPriv ≠ 32 ∨
      errors_Is e ErrDecryptionFailed = true ∧ (blen ephPub ≠ 32 ∨ blen sealed < 40 ∨
        box_Open (drop 24 sealed) (take 24 sealed) ephPub vmPriv = None)
  | _ => False
  end.
Proof.
  unfold DecryptPassword. destruct (Z.eqb_spec (blen ephPub) 32) as [H1|H1]; cbn [negb].
  2:{ right. split; [reflexivity|auto]. }
  destruct (Z.eqb_spec (blen vmPriv) 32) as [H2|H2]; cbn [negb]; [|left; split; [reflexivity|auto]].
  destruct (Z.ltb_spec (blen sealed) (24 + 16)); [right; split; [reflexivity|lia]|].
  destruct (box_Open _ _ _ _) eqn:E; [split_and!; [done|done|lia|eauto]|right; split; [reflexivity|auto]].
Qed.

(** A box for evaluation: the private key is the public key, and the tag is
    the first half of their exclusive or. *)
Module ToyBox.
Definition xor (a b : bytes) : bytes :=
  zip_with (λ x y, default x00 (Byte.of_N (N.lxor (Byte.to_N x) (Byte.to_N y)))) a b.
Definition tag (a b : bytes) : bytes := take 16 (xor a b ++ replicate 16 x00).
Definition box : Box := {|
  key_pair pk sk := pk = sk;
  box_Seal m _ pk sk := tag pk sk ++ m;
  box_Open c _ pk sk := if decide (take 16 c = tag pk sk) then Some (drop 16 c) else None;
|}.

Lemma xor_comm a b : xor a b = xor b a.
Proof.
  unfold xor. revert b. induction a as [|x a IH]; intros [|y b]; simpl; try done. by rewrite N.lxor_comm, IH.
Qed.
Lemma length_tag a b : length (tag a b) = 16%nat.
Proof. unfold tag. rewrite length_take, length_app, length_replicate. lia. Qed.

Lemma box_laws : @BoxLaws box.
Proof.
  split; simpl.
  - intros m nonce pk1 sk1 pk2 sk2 -> ->. assert (tag sk2 sk1 = tag sk1 sk2) as -> by (unfold tag; by rewrite (xor_comm sk2 sk1)).
    rewrite take_app_length', drop_app_length' by (by rewrite length_tag). by rewrite decide_True.
  - intros m nonce pk sk. rewrite length_app, length_tag. lia.
Qed.
End ToyBox.

Lemma EncryptPassword_roundtrip_witness :
  let BX := ToyBox.box in let k1 := replicate 32 x07 in let k2 := replicate 32 x09 in
  ∃ sealed, EncryptPassword (Ok (k2, k2)) (Ok (replicate 24 x01)) "secret" k1 = Ok (k2, sealed) ∧
    blen sealed = 40 + str_len "secret" ∧ DecryptPassword sealed k2 k1 = Ok "secret".
Proof.
  intros BX k1 k2. exact (@EncryptPassword_roundtrip BX ToyBox.box_laws "secret" k1 k1 k2 k2 (replicate 24 x01)
    eq_refl eq_refl eq_refl eq_refl eq_refl eq_refl).
Defined.
