(* ===== verification/Upload.v ===== *)
(** One file of a backup: its key, its deduplication and its part object
    ([tsync/source.go], [tsync/backup.go] lines 253 to 536).

    The world of a run is the destination storage, the sources with the
    caller's context, and the run's own shared state.  The zip writer is a
    library of its own and enters as an interface. *)

From S2P Require Import Prelude Errors GoStrings Keys Digest Metadata Store.
#[local] Open Scope Z_scope.

(** ** Interfaces *)

(** Everything outside the storage: the files behind a source, and the
    caller's context ([ctx.Err()] and its cause). *)
Class SourceWorld := {
  src : Type;
  ctx_Err : src → option error;
}.

(** How a reader hands out its bytes: the chunks that the copy loop of
    [io.CopyBuffer] sees. *)
Class Chunking := {
  chunks : bytes → list bytes;
  chunks_concat b : concat (chunks b) = b;
}.

(** [zip.FileHeader]. *)
Record FileHeader := {
  fh_Name : string;
  fh_Method : Z;
  fh_CompressionLevel : Z;
  fh_ModTime : option Z;
  fh_CRC32 : Z;
  fh_CompressedSize64 : Z;
  fh_UncompressedSize64 : Z;
  fh_Password : option string;
}.

(** [zip.NewWriter().CreateFileParts] and [CreateRawFileParts]: a writer of
    one part.  Every call returns the bytes it passes on, and closing the
    updated header. *)
Class ZipParts := {
  zpart : Type;
  CreateFileParts : FileHeader → res (bytes * zpart);
  CreateRawFileParts : FileHeader → res (bytes * zpart);
  part_Write : zpart → bytes → res (bytes * zpart);
  part_Close : zpart → res (bytes * FileHeader);
}.

(** ** Sources *)

Section Entry.
Context {SW : SourceWorld}.

(** [SourceEntry]. *)
Record SourceEntry := {
  Path : string;
  Size : Z;
  se_CompressedSize : Z;
  se_LastModified : Z;
  se_CRC32 : Z;
  IsDir : bool;
  Open : option (src → res stream * src);
  IsEncryptedRaw : bool;
  OpenRaw : option (src → res stream * src);
  CompressionMethod : Z;
  OpenRawCompressed : option (src → res stream * src);
}.

(** [isDirEntry]. *)
Definition isDirEntry (e : SourceEntry) : bool := IsDir e || HasSuffix (Path e) "/".

(** [BackupOptions], without [OnProgress], whose calls are recorded; a zero
    time is [None]. *)
Record BackupOptions := {
  opt_Label : string;
  SingleVersionMode : bool;
  FilterFunc : option (string → res bool);
  opt_Concurrency : Z;
  opt_KeyID : string;
  opt_PublicKeys : gmap string bytes;
  EphPublicKey : bytes;
  EncryptedPassword : bytes;
  CompressionLevel : option Z;
  GetCompressionLevel : option (string → option Z);
  CustomVersionID : Z;
  CustomBackupTimestamp : option Z;
}.

(** The read-mostly fields of [backupRun]. *)
Record backupRun := {
  run_opts : BackupOptions;
  compMethod : Z;
  compLevel : Z;
  ephPubKey : bytes;
  encryptedZipPass : bytes;
  clearZipPass : string;
  run_keyID : string;
  existing : gmap string FileRecord;
}.

(** [backupResult]. *)
Inductive backupResult :=
| ResDir (path : string)
| ResFile (path key : string) (record : FileRecord)
| ResErr (path : string) (e : error).

End Entry.

(** An [uploadFlight]: what it ended with, [None] while it lasts. *)
Abbreviation flight := (option (FileRecord + error)).

Section Upload.
Context {ST : Storage} {SW : SourceWorld} {CK : Chunking} {ZP : ZipParts}.

(** The state of a run: storage, sources, [backupRun.flights], and the cause
    with which the run's context was cancelled. *)
Record bstate := {
  b_store : store;
  b_src : src;
  flights : gmap string flight;
  cause : option error;
}.
Definition set_store (st : store) (s : bstate) : bstate :=
  {| b_store := st; b_src := b_src s; flights := flights s; cause := cause s |}.
Definition set_src (x : src) (s : bstate) : bstate :=
  {| b_store := b_store s; b_src := x; flights := flights s; cause := cause s |}.
Definition set_flights (f : gmap string flight) (s : bstate) : bstate :=
  {| b_store := b_store s; b_src := b_src s; flights := f; cause := cause s |}.
Definition set_cause (c : option error) (s : bstate) : bstate :=
  {| b_store := b_store s; b_src := b_src s; flights := flights s; cause := c |}.

Abbreviation B := (M bstate).

Definition on_store {A} (c : M store A) : B A := λ s,
  let '(r, st) := c (b_store s) in (r, set_store st s).
Definition on_src {A} (c : M src A) : B A := λ s,
  let '(r, x) := c (b_src s) in (r, set_src x s).

(** [pooledCopy]: the number of bytes copied. *)
Definition pooledCopy (write : bytes → B unit) (rc : stream) : B Z :=
  let* _ := for_each (chunks rc.1) write in
  match rc.2 with
  | Some e => throw e
  | None => ret (blen rc.1)
  end.

(** [abortWriter]: a writer that cannot be aborted is closed, which publishes
    what was written. *)
Definition abortWriter (w : writer) : B unit :=
  if w_abortable w then on_store (w_Abort w) else on_store (w_Close w).

(** [backupRun.compressionFor]. *)
Definition compressionFor (run : backupRun) (p : string) : res (Z * Z) :=
  match GetCompressionLevel (run_opts run) with
  | Some callback =>
      match callback p with
      | Some lvl =>
          match resolveCompression lvl with
          | Err e => Err (Errorf "compression level callback" [e])
          | r => r
          end
      | None => Ok (compMethod run, compLevel run)
      end
  | None => Ok (compMethod run, compLevel run)
  end.

(** [copyRawPart]. *)
Definition copyRawPart (w : writer) (rc : stream) (entry : SourceEntry) : B unit :=
  let* n := wrap_err "failed to copy raw part" (pooledCopy (λ b, on_store (w_Write w b)) rc) in
  if n <? se_CompressedSize entry then throw (wrap1 ErrCorruptZip "raw part shorter than its compressed size")
  else ret tt.

(** Writing [rc] through a part writer [z] of the zip library: every chunk's
    output goes to [w]. *)
Fixpoint write_chunks (w : writer) (cs : list bytes) (z : zpart) : B zpart :=
  match cs with
  | [] => ret z
  | c :: cs =>
      let* x := lift (part_Write z c) in
      let* _ := on_store (w_Write w x.1) in
      write_chunks w cs x.2
  end.
Definition copy_part (w : writer) (rc : stream) (z : zpart) : B zpart :=
  let* z := write_chunks w (chunks rc.1) z in
  match rc.2 with
  | Some e => throw e
  | None => ret z
  end.

(** Creates the part writer, copies the stream and closes it; returns the
    updated header. *)
Definition write_part (create : res (bytes * zpart)) (w : writer) (rc : stream) : B FileHeader :=
  let* z := wrap_err "failed to create zip file part"
              (let* x := lift create in let* _ := on_store (w_Write w x.1) in ret x.2) in
  let* z := wrap_err "failed to copy into zip file part" (copy_part w rc z) in
  wrap_err "failed to close zip part writer"
    (let* x := lift (part_Close z) in let* _ := on_store (w_Write w x.1) in ret x.2).

Definition password_of (run : backupRun) : option string :=
  if bool_decide (clearZipPass run = "") then None else Some (clearZipPass run).

(** [writeRawCompressedPart]: the size of the payload as written. *)
Definition writeRawCompressedPart (run : backupRun) (w : writer) (rc : stream) (entry : SourceEntry) : B Z :=
  let fh := {| fh_Name := path_Base (Path entry); fh_Method := CompressionMethod entry; fh_CompressionLevel := 0;
               fh_ModTime := Some (se_LastModified entry); fh_CRC32 := se_CRC32 entry;
               fh_CompressedSize64 := u64 (se_CompressedSize entry);
               fh_UncompressedSize64 := u64 (Size entry); fh_Password := password_of run |} in
  let* fh := write_part (CreateRawFileParts fh) w rc in
  ret (i64 (fh_CompressedSize64 fh)).

(** [writeCompressedPart]: CRC-32 and sizes of the content. *)
Definition writeCompressedPart (run : backupRun) (w : writer) (rc : stream) (entry : SourceEntry)
    (method level : Z) : B (Z * Z * Z) :=
  let fh := {| fh_Name := path_Base (Path entry); fh_Method := method; fh_CompressionLevel := level;
               fh_ModTime := None; fh_CRC32 := 0; fh_CompressedSize64 := 0; fh_UncompressedSize64 := 0;
               fh_Password := password_of run |} in
  let* fh := write_part (CreateFileParts fh) w rc in
  ret (fh_CRC32 fh, i64 (fh_UncompressedSize64 fh), i64 (fh_CompressedSize64 fh)).

(** The opener of [uploadPart]: raw bytes, raw compressed payload, or
    content. *)
Definition opener (entry : SourceEntry) : option (src → res stream * src) :=
  if IsEncryptedRaw entry then OpenRaw entry
  else match OpenRawCompressed entry with
       | Some o => Some o
       | None => Open entry
       end.

(** Writes the object; returns CRC-32, uncompressed and compressed size. *)
Definition write_object (run : backupRun) (w : writer) (rc : stream) (entry : SourceEntry)
    (method level : Z) : B (Z * Z * Z) :=
  if IsEncryptedRaw entry then
    let* _ := copyRawPart w rc entry in
    ret (se_CRC32 entry, Size entry, se_CompressedSize entry)
  else if OpenRawCompressed entry is Some _ then
    let* compSize := writeRawCompressedPart run w rc entry in
    ret (se_CRC32 entry, Size entry, compSize)
  else writeCompressedPart run w rc entry method level.

Definition new_record (run : backupRun) (entry : SourceEntry) (crc uncompSize compSize : Z) : FileRecord :=
  {| EphemeralPublicKey := ephPubKey run; EncryptedZipPassword := encryptedZipPass run;
     KeyId := if bool_decide (run_keyID run = "") then None else Some (run_keyID run);
     Crc32 := crc; CompressedSize := compSize; UncompressedSize := uncompSize;
     LastModified := Some (timestamppb_New (se_LastModified entry)) |}.

(** Writes the object and compares its content with the key; on a failure
    the writer is aborted. *)
Definition write_checked (run : backupRun) (key : string) (w : writer) (rc : stream) (entry : SourceEntry)
    (method level : Z) : B (Z * Z * Z) :=
  let* sizes := write_object run w rc entry method level in
  if bool_decide (fileKeyFor sizes.1.1 sizes.1.2 = key) then ret sizes
  else throw (wrap1 ErrSourceChanged "content does not match its key").
Definition abort_after (w : writer) (e : error) {A} : B A :=
  let* a := attempt (abortWriter w) in
  match errors_Join [Some e; a] with
  | Some e => throw e
  | None => lift Panic
  end.

(** [backupRun.uploadPart]. *)
Definition uploadPart (run : backupRun) (key : string) (entry : SourceEntry) : B FileRecord :=
  let* comp := lift (compressionFor run (Path entry)) in
  match opener entry with
  | None =>
      if IsEncryptedRaw entry then lift Panic
      else throw (wrap1 ErrInvalidOptions "entry has neither Open nor OpenRawCompressed")
  | Some open =>
      let* rc := wrap_err "failed to open source" (on_src open) in
      let* partKey := lift (partKeyFor key) in
      let* w := wrap_err "failed to open writer" (on_store (OpenWriter partKey)) in
      let* sizes := handle (write_checked run key w rc entry comp.1 comp.2) (λ e, abort_after w e) in
      let '(crc, uncompSize, compSize) := sizes in
      let* _ := wrap_err "failed to commit part" (on_store (w_Close w)) in
      ret (new_record run entry crc uncompSize compSize)
  end.

Definition set_flight (key : string) (f : flight) (s : bstate) : bstate := set_flights (<[key := f]> (flights s)) s.

(** [backupRun.uploadOnce], for callers that take turns: a finished upload of
    the key is reused, its error included. *)
Definition uploadOnce (run : backupRun) (key : string) (entry : SourceEntry) : B FileRecord := λ s,
  match flights s !! key with
  | Some (Some (inl rec)) => (Ok rec, s)
  | Some (Some (inr e)) => (Err e, s)
  | Some None => (OutOfFuel, s)
  | None =>
      let '(r, s) := uploadPart run key entry (set_flight key None s) in
      match r with
      | Ok rec => (r, set_flight key (Some (inl rec)) s)
      | Err e => (r, set_flight key (Some (inr e)) s)
      | r => (r, s)
      end
  end.

(** The key of an entry: from its CRC-32 and size, or from reading it. *)
Definition entry_key (entry : SourceEntry) : B string :=
  if IsEncryptedRaw entry then
    match OpenRaw entry with
    | None => throw (wrap1 ErrInvalidOptions "IsEncryptedRaw but OpenRaw is nil")
    | Some _ => ret (fileKeyFor (se_CRC32 entry) (Size entry))
    end
  else if negb (se_CRC32 entry =? 0) || (Size entry =? 0) then ret (fileKeyFor (se_CRC32 entry) (Size entry))
  else
    match Open entry with
    | None => throw (wrap1 ErrInvalidOptions "entry has no CRC32 and Open is nil")
    | Some open =>
        let* rc := wrap_err "failed to open source file" (on_src open) in
        match rc.2 with
        | Some e => throw (Errorf "failed to read source file" [e])
        | None => ret (fileKeyFor (CRC32.Sum32 rc.1) (blen rc.1))
        end
    end.

(** [backupRun.processFile]. *)
Definition processFile (run : backupRun) (entry : SourceEntry) : B (string * FileRecord) :=
  let* key := entry_key entry in
  match existing run !! key with
  | Some rec => ret (key, rec)
  | None => let* rec := uploadOnce run key entry in ret (key, rec)
  end.

(** [cancel(e)]: the first cause stays; the caller's context comes first. *)
Definition cancel (e : error) : B unit := λ s,
  (Ok tt, match cause s with
          | Some _ => s
          | None => set_cause (Some (default e (ctx_Err (b_src s)))) s
          end).

(** [context.Cause(runCtx)]. *)
Definition run_cause (s : bstate) : option error :=
  match cause s with Some c => Some c | None => ctx_Err (b_src s) end.

(** [backupRun.process]: exactly one result. *)
Definition process (run : backupRun) (entry : SourceEntry) : B backupResult := λ s,
  match run_cause s with
  | Some e => (Ok (ResErr (Path entry) e), s)
  | None =>
      if isDirEntry entry then (Ok (ResDir (Path entry)), s)
      else
        match processFile run entry s with
        | (Ok (key, rec), s) => (Ok (ResFile (Path entry) key rec), s)
        | (Err e, s) => (Ok (ResErr (Path entry) e), (cancel e s).2)
        | (Panic, s) => (Panic, s)
        | (OutOfFuel, s) => (OutOfFuel, s)
        end
  end.

End Upload.

(** ** What a part object holds *)

Section Object.
Context {SW : SourceWorld} {CK : Chunking} {ZP : ZipParts}.

(** The output of the zip library for a list of chunks. *)
Fixpoint zip_chunks (cs : list bytes) (z : zpart) : res (bytes * zpart) :=
  match cs with
  | [] => Ok ([], z)
  | c :: cs =>
      let! x := part_Write z c in
      let! y := zip_chunks cs x.2 in
      Ok (x.1 ++ y.1, y.2)
  end.
Definition zip_object (create : res (bytes * zpart)) (cs : list bytes) : res (bytes * FileHeader) :=
  let! h := create in
  let! x := zip_chunks cs h.2 in
  let! t := part_Close x.2 in
  Ok (h.1 ++ x.1 ++ t.1, t.2).

(** The object that [write_object] writes for the content [content] of its
    source, with the CRC-32 and sizes it records; [None] when it refuses. *)
Definition part_object (run : backupRun) (entry : SourceEntry) (method level : Z) (content : bytes)
    : res (bytes * (Z * Z * Z)) :=
  if IsEncryptedRaw entry then
    if blen content <? se_CompressedSize entry then Err (wrap1 ErrCorruptZip "raw part shorter than its compressed size")
    else Ok (content, (se_CRC32 entry, Size entry, se_CompressedSize entry))
  else if OpenRawCompressed entry is Some _ then
    let! x := zip_object (CreateRawFileParts
      {| fh_Name := path_Base (Path entry); fh_Method := CompressionMethod entry; fh_CompressionLevel := 0;
         fh_ModTime := Some (se_LastModified entry); fh_CRC32 := se_CRC32 entry;
         fh_CompressedSize64 := u64 (se_CompressedSize entry);
         fh_UncompressedSize64 := u64 (Size entry); fh_Password := password_of run |}) (chunks content) in
    Ok (x.1, (se_CRC32 entry, Size entry, i64 (fh_CompressedSize64 x.2)))
  else
    let! x := zip_object (CreateFileParts
      {| fh_Name := path_Base (Path entry); fh_Method := method; fh_CompressionLevel := level;
         fh_ModTime := None; fh_CRC32 := 0; fh_CompressedSize64 := 0; fh_UncompressedSize64 := 0;
         fh_Password := password_of run |}) (chunks content) in
    Ok (x.1, (fh_CRC32 x.2, i64 (fh_UncompressedSize64 x.2), i64 (fh_CompressedSize64 x.2))).

End Object.

(** The zip library's header is that of the content it was given. *)
Class ZipPartsLaws `{!ZipParts} := {
  part_Close_typed z b fh : part_Close z = Ok (b, fh) → is_u32 (fh_CRC32 fh);
  CreateFileParts_content fh cs out fh' :
    zip_object (CreateFileParts fh) cs = Ok (out, fh') →
    fh_CRC32 fh' = CRC32.Sum32 (concat cs) ∧ fh_UncompressedSize64 fh' = blen (concat cs);
}.

Section UploadSpec.
Context {ST : Storage} {SL : StorageLaws} {SW : SourceWorld} {CK : Chunking} {ZP : ZipParts}.

(** Steps that touch nothing but the open writer [w] of [p]. *)
Definition writing (w : writer) (p : string) (s s' : bstate) : Prop :=
  inv (b_store s') ∧ view (b_store s') = view (b_store s) ∧ (∃ c, pending (b_store s') w p c) ∧
  b_src s' = b_src s ∧ flights s' = flights s ∧ cause s' = cause s.

Lemma writing_refl w p c s : inv (b_store s) → pending (b_store s) w p c → writing w p s s.
Proof. intros. split_and!; eauto. Qed.

Lemma writing_trans w p s1 s2 s3 : writing w p s1 s2 → writing w p s2 s3 → writing w p s1 s3.
Proof.
  intros (? & V1 & ? & S1 & F1 & C1) (? & V2 & ? & S2 & F2 & C2). unfold writing.
  rewrite V2, S2, F2, C2. split_and!; done.
Qed.

Lemma on_store_inv {A} (c : M store A) s r s' :
  on_store c s = (r, s') → c (b_store s) = (r, b_store s') ∧ s' = set_store (b_store s') s.
Proof. unfold on_store. destruct (c (b_store s)) as [r1 st] eqn:E. intros [= <- <-]. done. Qed.

(** One write. *)
Lemma write_spec w p c b s r s' :
  inv (b_store s) → pending (b_store s) w p c → on_store (w_Write w b) s = (r, s') →
  writing w p s s' ∧ (∀ u, r = Ok u → pending (b_store s') w p (c ++ b)).
Proof.
  intros Hi Hp (Hw & ->)%on_store_inv. destruct (w_Write_law _ _ _ _ _ _ _ Hi Hw Hp) as (? & ? & _ & Hok & ? & _).
  split; [split_and!; done|done].
Qed.

Lemma for_each_write_spec w p c cs s r s' :
  inv (b_store s) → pending (b_store s) w p c → for_each cs (λ b, on_store (w_Write w b)) s = (r, s') →
  writing w p s s' ∧ (∀ u, r = Ok u → pending (b_store s') w p (c ++ concat cs)).
Proof.
  revert c s. induction cs as [|b cs IH]; intros c s Hi Hp; simpl.
  - intros [= <- <-]. rewrite app_nil_r. split; [by eapply writing_refl|done].
  - intros [(u & s1 & Hb & Hr)|(r1 & Hb & _ & Hn & _)]%bind_inv.
    + destruct (write_spec _ _ _ _ _ _ _ Hi Hp Hb) as [Hw Hp1]. specialize (Hp1 _ eq_refl).
      destruct (IH _ _ (proj1 Hw) Hp1 Hr) as [Hw' Hok]. split; [by eapply writing_trans|]. intros v Hv. rewrite app_assoc. eauto.
    + destruct (write_spec _ _ _ _ _ _ _ Hi Hp Hb) as [Hw _]. split; [done|]. intros v Hv. by apply Hn in Hv.
Qed.

(** [r] and [s'] come from writing to [w] only, and on success the writer
    holds [P]'s output after [c]. *)
Definition wrote {A} (w : writer) (p : string) (c : bytes) (P : bytes → A → Prop)
    (s : bstate) (r : res A) (s' : bstate) : Prop :=
  writing w p s s' ∧ ∀ a, r = Ok a → ∃ out, P out a ∧ pending (b_store s') w p (c ++ out).

Lemma wrote_ret {A} w p c (P : bytes → A → Prop) s (r : res A) :
  inv (b_store s) → pending (b_store s) w p c → (∀ a, r = Ok a → P [] a) → wrote w p c P s r s.
Proof.
  intros Hi Hp HP. split; [by eapply writing_refl|]. intros a Ha. exists []. rewrite app_nil_r. auto.
Qed.

Lemma wrote_bind {A C} w p c (P : bytes → A → Prop) (Q : bytes → C → Prop)
    (m : M bstate A) (k : A → M bstate C) s r s' :
  (∀ r1 s1, m s = (r1, s1) → wrote w p c P s r1 s1) →
  (∀ a o1 s1 r1 s2, P o1 a → inv (b_store s1) → pending (b_store s1) w p (c ++ o1) → k a s1 = (r1, s2) →
     wrote w p (c ++ o1) (λ o2 x, Q (o1 ++ o2) x) s1 r1 s2) →
  bind m k s = (r, s') → wrote w p c Q s r s'.
Proof.
  intros Hm Hk [(a & s1 & Ha & Hr)|(r1 & Ha & _ & Hn & _)]%bind_inv; destruct (Hm _ _ Ha) as [Hw Hok].
  - destruct (Hok _ eq_refl) as (o1 & HP & Hp1). destruct (Hk _ _ _ _ _ HP (proj1 Hw) Hp1 Hr) as [Hw2 Hok2].
    split; [by eapply writing_trans|]. intros x Hx. destruct (Hok2 _ Hx) as (o2 & HQ & Hp2).
    exists (o1 ++ o2). by rewrite app_assoc.
  - split; [done|]. intros x Hx. by apply Hn in Hx.
Qed.

Lemma wrote_wrap {A} w p c (P : bytes → A → Prop) msg (m : M bstate A) s r s' :
  (∀ r1 s1, m s = (r1, s1) → wrote w p c P s r1 s1) → wrap_err msg m s = (r, s') → wrote w p c P s r s'.
Proof.
  intros Hm (r1 & H1 & Hok & _)%wrap_err_inv. destruct (Hm _ _ H1) as [Hw H]. split; [done|].
  intros a Ha%Hok. by apply H.
Qed.

Lemma wrote_write w p c b s r s' :
  inv (b_store s) → pending (b_store s) w p c → on_store (w_Write w b) s = (r, s') →
  wrote w p c (λ o _, o = b) s r s'.
Proof.
  intros Hi Hp H. destruct (write_spec _ _ _ _ _ _ _ Hi Hp H) as [Hw Hok]. split; [done|].
  intros u Hu. exists b. split; [done|]. by eapply Hok.
Qed.

(** The output of a call of the zip library goes to the writer. *)
Lemma wrote_emit {A} w p c (x : res (bytes * A)) s r s' :
  inv (b_store s) → pending (b_store s) w p c →
  (let* y := lift x in let* _ := on_store (w_Write w y.1) in ret y.2) s = (r, s') →
  wrote w p c (λ o a, x = Ok (o, a)) s r s'.
Proof.
  intros Hi Hp. eapply (wrote_bind _ _ _ (λ o y, o = [] ∧ x = Ok y)).
  - intros r1 s1 [= <- <-]. apply wrote_ret; [done..|]. intros a ->. done.
  - intros y o1 s1 r1 s2 [-> ->] Hi1 Hp1. rewrite app_nil_r in *. cbn [app].
    eapply (wrote_bind _ _ _ (λ o _, o = y.1)); [by intros; eapply wrote_write|].
    intros u o2 s3 r3 s4 -> Hi3 Hp3 [= <- <-]. apply wrote_ret; [done..|].
    intros a [= <-]. rewrite app_nil_r. by destruct y.
Qed.

Lemma write_chunks_wrote w p c cs z s r s' :
  inv (b_store s) → pending (b_store s) w p c → write_chunks w cs z s = (r, s') →
  wrote w p c (λ o z', zip_chunks cs z = Ok (o, z')) s r s'.
Proof.
  revert c z s r s'. induction cs as [|b cs IH]; intros c z s r s' Hi Hp; cbn [write_chunks zip_chunks].
  - intros [= <- <-]. apply wrote_ret; [done..|]. by intros a [= ->].
  - eapply (wrote_bind _ _ _ (λ o y, o = [] ∧ part_Write z b = Ok y)).
    { intros r1 s1 [= <- <-]. apply wrote_ret; [done..|]. intros a ->. done. }
    intros y o1 s1 r1 s2 [-> Hy] Hi1 Hp1. rewrite app_nil_r in *. cbn [app]. rewrite Hy. cbn [obind].
    eapply (wrote_bind _ _ _ (λ o _, o = y.1)); [by intros; eapply wrote_write|].
    intros u o2 s3 r3 s4 -> Hi3 Hp3 H. destruct (IH _ _ _ _ _ Hi3 Hp3 H) as [Hw Hok]. split; [done|].
    intros a Ha. destruct (Hok _ Ha) as (o & Ho & ?). exists o. split; [|done]. by rewrite Ho.
Qed.

Lemma copy_part_wrote w p c rc z s r s' :
  inv (b_store s) → pending (b_store s) w p c → copy_part w rc z s = (r, s') →
  wrote w p c (λ o z', rc.2 = None ∧ zip_chunks (chunks rc.1) z = Ok (o, z')) s r s'.
Proof.
  intros Hi Hp. unfold copy_part. eapply wrote_bind; [by intros; eapply write_chunks_wrote|].
  intros z' o1 s1 r1 s2 Hz Hi1 Hp1. destruct (rc.2); intros [= <- <-]; apply wrote_ret; try done.
  intros a [= <-]. by rewrite app_nil_r.
Qed.

Lemma write_part_wrote create w p rc s r s' :
  inv (b_store s) → pending (b_store s) w p [] → write_part create w rc s = (r, s') →
  wrote w p [] (λ o fh, rc.2 = None ∧ zip_object create (chunks rc.1) = Ok (o, fh)) s r s'.
Proof.
  intros Hi Hp. unfold write_part, zip_object.
  eapply wrote_bind; [intros r1 s1; apply wrote_wrap; by intros; eapply wrote_emit|].
  intros z o1 s1 r1 s2 -> Hi1 Hp1. cbn [obind fst snd].
  eapply wrote_bind; [intros r2 s3; apply wrote_wrap; by intros; eapply copy_part_wrote|].
  intros z2 o2 s3 r3 s4 [-> ->] Hi3 Hp3 H. cbn [obind fst snd].
  apply (wrote_wrap _ _ _ _ _ _ _ _ _ (λ _ _, wrote_emit _ _ _ _ _ _ _ Hi3 Hp3)) in H as [Hw Hok].
  split; [done|]. intros fh Hfh. destruct (Hok _ Hfh) as (o3 & -> & ?). exists o3. by split_and!.
Qed.

Lemma wrote_map {A C} w p c (P : bytes → A → Prop) (Q : bytes → C → Prop) (f : A → C) (m : M bstate A) s r s' :
  (∀ r1 s1, m s = (r1, s1) → wrote w p c P s r1 s1) → (∀ o a, P o a → Q o (f a)) →
  (let* a := m in ret (f a)) s = (r, s') → wrote w p c Q s r s'.
Proof.
  intros Hm HPQ. eapply wrote_bind; [done|]. intros a o1 s1 r1 s2 HP Hi1 Hp1 [= <- <-]. apply wrote_ret; [done..|].
  intros x [= <-]. rewrite app_nil_r. auto.
Qed.

(** The writer gets exactly the object that the content stands for. *)
Lemma write_object_wrote run w p rc entry method level s r s' :
  inv (b_store s) → pending (b_store s) w p [] → write_object run w rc entry method level s = (r, s') →
  wrote w p [] (λ o x, rc.2 = None ∧ part_object run entry method level rc.1 = Ok (o, x)) s r s'.
Proof.
  intros Hi Hp. unfold write_object, part_object. destruct (IsEncryptedRaw entry).
  - eapply (wrote_bind _ _ _ (λ o _, rc.2 = None ∧ o = rc.1 ∧ se_CompressedSize entry ≤ blen rc.1)).
    + intros r1 s1. unfold copyRawPart. eapply (wrote_bind _ _ _ (λ o n, rc.2 = None ∧ o = rc.1 ∧ n = blen rc.1)).
      { intros r2 s2. apply wrote_wrap. intros r3 s3. unfold pooledCopy.
        eapply (wrote_bind _ _ _ (λ o _, o = rc.1)).
        - intros r4 s4 H. destruct (for_each_write_spec _ _ _ _ _ _ _ Hi Hp H) as [Hw Hok]. split; [done|].
          intros u Hu. exists rc.1. split; [done|]. rewrite <- (chunks_concat rc.1). by eapply Hok.
        - intros u o1 s4 r4 s5 -> Hi4 Hp4. destruct (rc.2); intros [= <- <-]; apply wrote_ret; try done.
          intros a [= <-]. by rewrite app_nil_r. }
      intros n o1 s2 r2 s3 (Hrc & -> & ->) Hi2 Hp2. destruct (Z.ltb_spec (blen rc.1) (se_CompressedSize entry));
        intros [= <- <-]; apply wrote_ret; try done. intros u _. rewrite app_nil_r. done.
    + intros u o1 s1 r1 s2 (Hrc & -> & Hle) Hi1 Hp1 [= <- <-]. apply wrote_ret; [done..|].
      intros a [= <-]. rewrite app_nil_r, (proj2 (Z.ltb_ge _ _)) by done. done.
  - destruct (OpenRawCompressed entry).
    + eapply (wrote_map _ _ _ (λ o compSize, rc.2 = None ∧ ∃ fh, zip_object _ (chunks rc.1) = Ok (o, fh) ∧ compSize = i64 (fh_CompressedSize64 fh))).
      * intros r1 s1. unfold writeRawCompressedPart. eapply wrote_map; [by intros; eapply write_part_wrote|].
        intros o fh [? Hz]. split; [done|]. exists fh. split; [exact Hz|done].
      * intros o n (? & fh & -> & ->). done.
    + unfold writeCompressedPart. eapply wrote_map; [by intros; eapply write_part_wrote|].
      intros o fh [? ->]. done.
Qed.

(** After an upload of [key] to [pk]: nothing but the object at [pk] has
    changed, and if it has, it is the whole object of some content that
    matches the key. *)
Definition uploaded (run : backupRun) (key pk : string) (entry : SourceEntry) (v v' : gmap string bytes) : Prop :=
  ∃ method level content out crc size comp,
    part_object run entry method level content = Ok (out, (crc, size, comp)) ∧
    fileKeyFor crc size = key ∧ v' = <[pk := out]> v.

Definition same_run (s s' : bstate) : Prop := flights s' = flights s ∧ cause s' = cause s.

Lemma on_src_inv {A} (c : M src A) s r s' :
  on_src c s = (r, s') → c (b_src s) = (r, b_src s') ∧ b_store s' = b_store s ∧ same_run s s'.
Proof. unfold on_src. destruct (c (b_src s)) as [r1 st] eqn:E. intros [= <- <-]. done. Qed.

(** A failure of the writing phase leaves no object. *)
Lemma abort_spec {A} w p e s (r : res A) s' :
  inv (b_store s) → (∃ c, pending (b_store s) w p c) → abort_after w e s = (r, s') →
  inv (b_store s') ∧ view (b_store s') = view (b_store s) ∧ same_run s s' ∧ ∀ a, r ≠ Ok a.
Proof.
  intros Hi [c Hp]. unfold abort_after, bind, attempt, abortWriter. rewrite (pending_abortable _ _ _ _ Hp). destruct (on_store (w_Abort w) s) as [r1 s1] eqn:E.
  apply on_store_inv in E as [E Es]. destruct (w_Abort_law _ _ _ _ _ _ Hi E Hp) as (? & ? & Hr & _).
  assert (same_run s s1) as Hs by (by rewrite Es).
  destruct r1 as [u|e1| |]; [| |by destruct Hr as [[]|[]]..]; simpl; intros [= <- <-]; done.
Qed.

Lemma write_checked_wrote run key w p rc entry method level s r s' :
  inv (b_store s) → pending (b_store s) w p [] → write_checked run key w rc entry method level s = (r, s') →
  wrote w p [] (λ o x, rc.2 = None ∧ part_object run entry method level rc.1 = Ok (o, x) ∧
    fileKeyFor x.1.1 x.1.2 = key) s r s'.
Proof.
  intros Hi Hp. unfold write_checked. eapply wrote_bind; [by intros; eapply write_object_wrote|].
  intros x o1 s1 r1 s2 [? ?] Hi1 Hp1. case_bool_decide; intros [= <- <-]; apply wrote_ret; try done.
  intros a [= <-]. rewrite app_nil_r. done.
Qed.

(** The writing phase of [uploadPart] with its error handling. *)
Lemma write_phase run key w p rc entry method level s r s' :
  inv (b_store s) → pending (b_store s) w p [] →
  handle (write_checked run key w rc entry method level) (λ e, abort_after w e) s = (r, s') →
  inv (b_store s') ∧ view (b_store s') = view (b_store s) ∧ same_run s s' ∧
  ∀ x, r = Ok x → rc.2 = None ∧ fileKeyFor x.1.1 x.1.2 = key ∧
    ∃ out, part_object run entry method level rc.1 = Ok (out, x) ∧ pending (b_store s') w p out.
Proof.
  intros Hi Hp. unfold handle. destruct (write_checked _ _ _ _ _ _ _ s) as [r1 s1] eqn:E.
  destruct (write_checked_wrote _ _ _ _ _ _ _ _ _ _ _ Hi Hp E) as [(Hi1 & Hv & Hex & Hs & Hf & Hc) Hok].
  destruct r1 as [x|e| |].
  2:{ intros H. destruct (abort_spec _ _ _ _ _ _ Hi1 Hex H) as (? & Hv' & [Hf' Hc'] & Hno).
      split_and!; [done|congruence|split; congruence|]. intros x Hx. by apply Hno in Hx. }
  all: intros [= <- <-]; split_and!; try done.
  intros y [= <-]. destruct (Hok x eq_refl) as (out & (? & ? & ?) & ?). eauto.
Qed.

Lemma uploadPart_spec run key pk entry s r s' :
  inv (b_store s) → partKeyFor key = Ok pk → relative pk → uploadPart run key entry s = (r, s') →
  inv (b_store s') ∧ same_run s s' ∧
  (view (b_store s') = view (b_store s) ∧ (∀ rec, r ≠ Ok rec) ∨
   uploaded run key pk entry (view (b_store s)) (view (b_store s')) ∧
   ∀ rec, r = Ok rec → ∃ open rc x method level out crc size comp,
     opener entry = Some open ∧ open (b_src s) = (Ok rc, x) ∧ rc.2 = None ∧
     part_object run entry method level rc.1 = Ok (out, (crc, size, comp)) ∧
     view (b_store s') = <[pk := out]> (view (b_store s)) ∧
     rec = new_record run entry crc size comp ∧ fileKeyFor crc size = key).
Proof.
  intros Hi Hpk Hrel. unfold uploadPart.
  intros [(comp & s1 & [= Hcomp <-] & H)|(r1 & [= _ <-] & _ & Hn & _)]%bind_inv; [|by split_and!; auto].
  destruct (opener entry) as [open|] eqn:Eo;
    [|destruct (IsEncryptedRaw entry); injection H as <- <-; by split_and!; auto].
  apply bind_inv in H as [(rc & s1 & Hrc & H)|(r1 & Hrc & _ & Hn & _)].
  2:{ apply wrap_err_inv in Hrc as (r2 & (_ & -> & ?)%on_src_inv & _). by split_and!; auto. }
  apply wrap_err_Ok, on_src_inv in Hrc as (Hrc & Hst & Hsr). rewrite <- Hst in Hi |- *.
  rewrite Hpk in H. unfold bind at 1, lift at 1 in H.
  apply bind_inv in H as [(w & s2 & Hw & H)|(r1 & Hw & _ & Hn & _)].
  2:{ apply wrap_err_inv in Hw as (r2 & (Hw & Es)%on_store_inv & _).
      destruct (OpenWriter_law _ _ _ _ Hi Hrel Hw) as (? & ? & _). rewrite Es. by split_and!; auto. }
  apply wrap_err_Ok, on_store_inv in Hw as [Hw Es2].
  destruct (OpenWriter_law _ _ _ _ Hi Hrel Hw) as (Hi2 & Hv2 & _ & _ & Hp2). destruct (Hp2 w eq_refl) as [_ Hp]. clear Hp2.
  assert (same_run s1 s2) as Hsr2 by (by rewrite Es2). rewrite <- Hv2.
  assert (same_run s s2) as Hsr12 by (unfold same_run in *; destruct Hsr, Hsr2; split; congruence). clear Hsr Hsr2 Es2 Hw.
  apply bind_inv in H as [(x & s3 & Hx & H)|(r1 & Hx & _ & Hn & _)];
    destruct (write_phase _ _ _ _ _ _ _ _ _ _ _ Hi2 Hp Hx) as (Hi3 & Hv3 & [Hf3 Hc3] & Hok).
  2:{ rewrite Hv3. split_and!; [done| |by auto]. destruct Hsr12. split; congruence. }
  destruct (Hok _ eq_refl) as (Hrcn & Hkey & out & Hobj & Hpend). destruct x as [[crc size] comp3]. cbn [fst snd] in Hkey.
  assert (same_run s s3) as Hsr3 by (destruct Hsr12; split; congruence).
  assert (∀ r4 s4, on_store (w_Close w) s3 = (r4, s4) → inv (b_store s4) ∧ same_run s s4 ∧
    (view (b_store s4) = <[pk := out]> (view (b_store s2)) ∨ (∀ u, r4 ≠ Ok u) ∧ view (b_store s4) = view (b_store s2))) as Hclose.
  { intros r4 s4 [Hc Es]%on_store_inv. destruct (w_Close_law _ _ _ _ _ _ Hi3 Hc Hpend) as (? & _ & _ & Hv).
    rewrite Hv3 in Hv. split; [done|]. split; [by rewrite Es|]. destruct Hv as [|[[e ->] ?]]; auto. }
  assert (uploaded run key pk entry (view (b_store s2)) (<[pk := out]> (view (b_store s2)))) as Hup
    by (exists comp.1, comp.2, rc.1, out, crc, size, comp3; auto).
  apply bind_inv in H as [(u & s4 & Hc & [= <- <-])|(r1 & Hc & _ & Hn & _)].
  - apply wrap_err_Ok, Hclose in Hc as (? & ? & [Hv4|[Hno _]]); [|by destruct (Hno u)].
    split_and!; [done..|]. right. rewrite Hv4. split; [exact Hup|]. intros rec [= <-].
    exists open, rc, (b_src s1), comp.1, comp.2, out, crc, size, comp3. done.
  - apply wrap_err_inv in Hc as (r2 & (? & ? & Hv4)%Hclose & Hiff & _). split_and!; [done..|].
    destruct Hv4 as [->|[_ ->]]; [right|left; auto]. split; [exact Hup|]. intros rec Hrec. by apply Hn in Hrec.
Qed.

End UploadSpec.
