(* ===== verification/UploadExample.v ===== *)
(** A zip writer for examples. *)

From Stdlib Require Import Strings.Byte.
From S2P Require Import Prelude Errors GoStrings Digest Upload.
#[local] Open Scope Z_scope.

(** A zip writer that stores: a local marker, the content, a descriptor
    marker. *)
Module ToyZip.

Definition part : Type := FileHeader * bytes.
Definition create (fh : FileHeader) : res (bytes * part) := Ok (bytes_of_string "PK<", (fh, [])).
Definition write (z : part) (b : bytes) : res (bytes * part) := Ok (b, (z.1, z.2 ++ b)).
Definition close (z : part) : res (bytes * FileHeader) :=
  if 2 ^ 63 <=? blen z.2 then Err (ELeaf "entry too large" false) else
  Ok (bytes_of_string ">",
      {| fh_Name := fh_Name z.1; fh_Method := fh_Method z.1; fh_CompressionLevel := fh_CompressionLevel z.1;
         fh_ModTime := fh_ModTime z.1; fh_CRC32 := CRC32.Sum32 z.2; fh_CompressedSize64 := blen z.2;
         fh_UncompressedSize64 := blen z.2; fh_Password := fh_Password z.1 |}).

Definition zip : ZipParts := {|
  zpart := part; CreateFileParts := create; CreateRawFileParts := create; part_Write := write; part_Close := close;
|}.

Lemma zip_chunks_spec cs z : @zip_chunks zip cs z = Ok (concat cs, (z.1, z.2 ++ concat cs)).
Proof.
  revert z. induction cs as [|c cs IH]; intros z; simpl; [by rewrite app_nil_r, <- surjective_pairing|].
  rewrite IH. simpl. by rewrite <- app_assoc.
Qed.

Lemma zip_laws : @ZipPartsLaws zip.
Proof.
  split.
  - intros z b fh. cbn. unfold close. destruct (2 ^ 63 <=? blen z.2); [done|]. intros [= <- <-]. apply CRC32.Sum32_u32.
  - intros fh cs out fh'. unfold zip_object. change (CreateFileParts fh) with (create fh). unfold create.
    cbn [obind fst snd]. rewrite zip_chunks_spec. cbn [obind fst snd part_Close zip app]. unfold close. cbn [fst snd].
    destruct (2 ^ 63 <=? blen (concat cs)); [done|]. by intros [= <- <-].
Qed.

End ToyZip.
