(* ===== verification/Backup.v ===== *)
(** A backup run ([RunBackup] of [tsync/backup.go], lines 222 to 900).

    The worker phase is run with one entry after the other; BackupPool.v has
    the run with its goroutines, of which this one is a schedule. *)

From S2P Require Import Prelude Errors GoStrings Keys Digest Metadata.
From S2P Require Import TreeWalk TreeBuild Store Client Crypto Upload.
#[local] Open Scope Z_scope.

(** ** Options *)

Section Options.
Context {SW : SourceWorld}.

(** [futureTimestampTolerance], in nanoseconds. *)
Definition futureTimestampTolerance : Z := 3600 * 10 ^ 9.

(** The loop over [opts.PublicKeys]. *)
Definition bad_public_key (keys : gmap string bytes) : bool :=
  bool_decide (map_Exists (λ _ pk, blen pk ≠ 32) keys).

(** [validateBackupOptions], at time [now]; [CustomVersionID] is a
    [uint64]. *)
Definition validateBackupOptions (now : Z) (opts : BackupOptions) : res unit :=
  if bad_public_key (opt_PublicKeys opts) then Err (wrap1 ErrInvalidOptions "invalid public key length")
  else if (0 <? blen (EphPublicKey opts)) && negb (blen (EphPublicKey opts) =? 32) then
    Err (wrap1 ErrInvalidOptions "invalid EphPublicKey")
  else if (0 <? blen (EncryptedPassword opts)) && (blen (EncryptedPassword opts) <? 40) then
    Err (wrap1 ErrInvalidOptions "invalid EncryptedPassword")
  else if negb (bool_decide (opt_KeyID opts = "")) && negb (bool_decide (opt_PublicKeys opts = ∅)) &&
          bool_decide (opt_PublicKeys opts !! opt_KeyID opts = None) then
    Err (wrap1 ErrKeyNotFound "selected key ID not in BackupOptions.PublicKeys")
  else if max_int64 <? CustomVersionID opts then Err (wrap1 ErrInvalidOptions "invalid custom version ID")
  else if match CustomBackupTimestamp opts with
          | Some t => now + futureTimestampTolerance <? t
          | None => false
          end then Err (wrap1 ErrTimestampInFuture "custom backup timestamp")
  else match CompressionLevel opts with
       | Some lvl => let! _ := resolveCompression lvl in Ok tt
       | None => Ok tt
       end.

(** Method and level of the run. *)
Definition pass_compression (opts : BackupOptions) : Z * Z :=
  match CompressionLevel opts with
  | Some lvl => ok_or (0, 0) (resolveCompression lvl)
  | None => (zip_Deflate, -1)
  end.

(** A store that does not exist yet. *)
Definition fresh_metadata (opts : BackupOptions) : BackupMetadata :=
  {| Versions := ∅; Trees := ∅; Files := ∅; PublicKeys := opt_PublicKeys opts; SchemaVersion := 2;
     StoreLabel := None; LastUpdated := None |}.

(** Version ID and timestamp order. *)
Definition check_order {MR : MapRange} (opts : BackupOptions) (metadata : BackupMetadata) : res unit :=
  if negb (CustomVersionID opts =? 0) &&
     bool_decide (is_Some (Versions metadata !! FormatUint (CustomVersionID opts)))
  then Err (wrap1 ErrVersionIDExists "version ID exists")
  else
    match CustomBackupTimestamp opts, latestVersion metadata with
    | Some t, Some latest =>
        let latestTS := AsTime (BackupTimestamp latest) in
        if t =? latestTS then Err (wrap1 ErrTimestampEqualsLatest "equal")
        else if t <? latestTS then Err (wrap1 ErrTimestampBeforeLatest "before")
        else Ok tt
    | _, _ => Ok tt
    end.

(** [maps.Copy(metadata.PublicKeys, opts.PublicKeys)]. *)
Definition merge_keys (opts : BackupOptions) (md : BackupMetadata) : BackupMetadata :=
  {| Versions := Versions md; Trees := Trees md; Files := Files md;
     PublicKeys := opt_PublicKeys opts ∪ PublicKeys md;
     SchemaVersion := SchemaVersion md; StoreLabel := StoreLabel md; LastUpdated := LastUpdated md |}.

(** The first invalid component of a path. *)
Fixpoint check_parts (parts : list string) : res unit :=
  match parts with
  | [] => Ok tt
  | part :: parts =>
      match validateName part with
      | Some e => Err (Errorf "invalid path component" [e])
      | None => check_parts parts
      end
  end.

Definition check_path (p : string) : res unit :=
  if bool_decide (p = "") then Err (wrap1 ErrInvalidName "empty path entry")
  else check_parts (Split (TrimSuffix p "/") slash).

(** Filter and validation of the listing. *)
Fixpoint select_entries (opts : BackupOptions) (all : list SourceEntry) : res (list SourceEntry) :=
  match all with
  | [] => Ok []
  | entry :: all =>
      let! keep := match FilterFunc opts with
                   | None => Ok true
                   | Some f => match f (Path entry) return res bool with
                               | Err e => Err (Errorf "filter callback failed" [e])
                               | r => r
                               end
                   end in
      if negb keep then select_entries opts all
      else
        let! _ := check_path (Path entry) in
        let! entries := select_entries opts all in
        Ok (entry :: entries)
  end.

(** ** Keys of the run *)

(** The lexicographically first key ID. *)
Definition first_key {MR : MapRange} (keys : gmap string bytes) : string :=
  fold_left (λ sel kv, if bool_decide (sel = "") || str_ltb kv.1 sel then kv.1 else sel) (range keys) "".

(** Random values of a run. *)
Record randomness := {
  rnd_password : res bytes;
  rnd_keys : res (bytes * bytes);
  rnd_nonce : res bytes;
}.

Context {BX : Box}.

(** Ephemeral public key, sealed password, clear password, key ID. *)
Definition pass_keys {MR : MapRange} (rnd : randomness) (opts : BackupOptions) (metadata : BackupMetadata)
    (entries : list SourceEntry) : res (bytes * bytes * string * string) :=
  let files := filter (λ e, isDirEntry e = false) entries in
  let hasRaw := existsb IsEncryptedRaw files in
  let hasPlain := existsb (λ e, negb (IsEncryptedRaw e)) files in
  if hasRaw || (0 <? blen (EncryptedPassword opts)) || (0 <? blen (EphPublicKey opts)) then
    if (blen (EphPublicKey opts) =? 0) || (blen (EncryptedPassword opts) =? 0) then
      Err (wrap1 ErrInvalidOptions "pre-encrypted source requires both EphPublicKey and EncryptedPassword")
    else if hasPlain then
      Err (wrap1 ErrInvalidOptions "pre-encrypted options cannot be combined with plaintext source entries")
    else Ok (EphPublicKey opts, EncryptedPassword opts, "", opt_KeyID opts)
  else if bool_decide (PublicKeys metadata = ∅) then
    Err (wrap1 ErrKeyNotFound "no public keys in the backup store metadata")
  else
    let selectedKeyID := if bool_decide (opt_KeyID opts = "") then first_key (PublicKeys metadata)
                         else opt_KeyID opts in
    match PublicKeys metadata !! selectedKeyID with
    | None => Err (wrap1 ErrKeyNotFound "not in store metadata")
    | Some vmPubKey =>
        let! clear := match GenerateZipCryptoPassword (rnd_password rnd) return res string with
                      | Err e => Err (Errorf "failed to generate random ZIP password" [e])
                      | r => r
                      end in
        let! sealed := match EncryptPassword (rnd_keys rnd) (rnd_nonce rnd) clear vmPubKey return res (bytes * bytes) with
                       | Err e => Err (Errorf "failed to encrypt ZIP password" [e])
                       | r => r
                       end in
        Ok (sealed.1, sealed.2, clear, selectedKeyID)
    end.

(** ** Results *)

(** What the gathering loop collects, and its calls of [OnProgress], if that
    is set. *)
Record gathered := {
  newPathToFileKey : gmap string string;
  newFilesPool : gmap string FileRecord;
  dirPaths : gmap string bool;
  firstErr : option error;
  doneCount : Z;
  progressed : list (Z * string);
}.
Definition nothing : gathered :=
  {| newPathToFileKey := ∅; newFilesPool := ∅; dirPaths := ∅; firstErr := None; doneCount := 0; progressed := [] |}.

Definition gather (g : gathered) (r : backupResult) : gathered :=
  let done := doneCount g + 1 in
  match firstErr g, r with
  | Some _, _ => g
  | None, ResErr _ e =>
      {| newPathToFileKey := newPathToFileKey g; newFilesPool := newFilesPool g; dirPaths := dirPaths g;
         firstErr := Some e; doneCount := doneCount g; progressed := progressed g |}
  | None, ResDir p =>
      {| newPathToFileKey := newPathToFileKey g; newFilesPool := newFilesPool g;
         dirPaths := <[TrimSuffix p "/" := true]> (dirPaths g); firstErr := None; doneCount := done;
         progressed := progressed g ++ [(done, p)] |}
  | None, ResFile p key rec =>
      {| newPathToFileKey := <[p := key]> (newPathToFileKey g); newFilesPool := <[key := rec]> (newFilesPool g);
         dirPaths := dirPaths g; firstErr := None; doneCount := done; progressed := progressed g ++ [(done, p)] |}
  end.

(** [runError]; [parent] is [parent.Err()] and [cause] the cause of the
    run's context. *)
Definition runError (parent cause firstErr : option error) (done total : Z) : option error :=
  match match cause with Some c => Some c | None => firstErr end with
  | Some c =>
      match parent with
      | Some _ => Some (Errorf "run" [ESentinel ErrIncompleteRun; c])
      | None => Some c
      end
  | None => if done =? total then None else Some (wrap1 ErrIncompleteRun "processed too few entries")
  end.

(** ** The metadata of the new version *)

Definition new_version (versionID now : Z) (root : string) (latest : option Version) (opts : BackupOptions) : Version :=
  {| SnowflakeId := versionID;
     BackupTimestamp := Some (timestamppb_New (default now (CustomBackupTimestamp opts)));
     RootTreeHash := root;
     PrecedingVersionId := match latest with Some v => SnowflakeId v | None => 0 end;
     Label := opt_Label opts |}.

(** [newMetadata]. *)
Definition new_metadata (saved : Z) (opts : BackupOptions) (metadata : BackupMetadata) (v : Version)
    (newTreesMap : gmap string TreeNode) (newFilesPool : gmap string FileRecord) : BackupMetadata :=
  let keep := negb (SingleVersionMode opts) in
  {| Versions := <[FormatUint (SnowflakeId v) := v]> (if keep then Versions metadata else ∅);
     Trees := newTreesMap ∪ (if keep then Trees metadata else ∅);
     Files := newFilesPool ∪ (if keep then Files metadata else ∅);
     PublicKeys := PublicKeys metadata; SchemaVersion := 2; StoreLabel := None;
     LastUpdated := Some (timestamppb_New saved) |}.

End Options.

(** ** The run *)

Section RunBackup.
Context {PR : Proto} {MR : MapRange} {ST : Storage} {SW : SourceWorld} {CK : Chunking} {ZP : ZipParts} {BX : Box}.

(** Clocks and randomness. *)
Record environment := {
  now_options : Z;
  now_version : Z;
  now_saved : Z;
  id_clock : nat → Z;
  id_fuel : nat;
  id_seq : Z;
  random : randomness;
}.

Definition open_run (st : store) (x : src) : bstate :=
  {| b_store := st; b_src := x; flights := ∅; cause := None |}.

(** The metadata to extend, and whether the store existed. *)
Definition load_or_init (opts : BackupOptions) : M bstate (BackupMetadata * bool) :=
  handle (let* md := on_store loadMetadata in ret (md, true))
    (λ e, if negb (errors_Is e ErrNotFound) then throw e
          else if bool_decide (opt_PublicKeys opts = ∅) then
            throw (wrap1 ErrStoreNotInitialized "creating a new backup store requires at least one public key")
          else ret (fresh_metadata opts, false)).

(** The gathering loop cancels the run at the first error. *)
Definition receive (g : gathered) (r : backupResult) (s : bstate) : bstate :=
  match firstErr g, r with
  | None, ResErr _ e => (cancel e s).2
  | _, _ => s
  end.

(** The workers, with one entry after the other. *)
Fixpoint run_tasks (run : backupRun) (entries : list SourceEntry) (g : gathered) : M bstate gathered :=
  match entries with
  | [] => ret g
  | entry :: entries =>
      let* r := process run entry in
      let* _ := (λ s, (Ok tt, receive g r s)) in
      run_tasks run entries (gather g r)
  end.

(** The end of the worker phase: nothing is committed unless every entry was
    processed without an error. *)
Definition finish_workers (g : gathered) (total : Z) : M bstate unit := λ s,
  match runError (ctx_Err (b_src s)) (run_cause s) (firstErr g) (doneCount g) total with
  | Some e => (Err e, s)
  | None => (Ok tt, s)
  end.

(** The best-effort cleanup of single-version mode. *)
Definition cleanup_part (newFiles : gmap string FileRecord) (oldKey : string) : M store unit :=
  if bool_decide (is_Some (newFiles !! oldKey)) || negb (isValidFileKey oldKey) then ret tt
  else let* partKey := lift (partKeyFor oldKey) in ignore (Delete partKey).

Definition version_id (env : environment) (opts : BackupOptions) (md : BackupMetadata) : res Z :=
  if CustomVersionID opts =? 0 then
    let! x := generateVersionID (id_fuel env) (λ id, bool_decide (is_Some (Versions md !! id)))
                (id_clock env) (id_seq env) in
    Ok x.1
  else Ok (CustomVersionID opts).

(** From the gathered results to the committed version (phases 7 to 10). *)
Definition commit (env : environment) (opts : BackupOptions) (metadata : BackupMetadata) (hasOld : bool)
    (latest : option Version) (g : gathered) : M bstate Version :=
  let* built := lift (buildTree (dirPaths g) (newPathToFileKey g) (newFilesPool g)) in
  let* versionID := lift (version_id env opts metadata) in
  let newVersion := new_version versionID (now_version env) built.1 latest opts in
  let newMetadata := new_metadata (now_saved env) opts metadata newVersion built.2 (newFilesPool g) in
  let* _ := on_store (write_metadata "failed to serialize backup metadata" "failed to write .tsync file" newMetadata) in
  let* _ := (if SingleVersionMode opts && hasOld then
               on_store (for_each (range (Files metadata)).*1 (cleanup_part (Files newMetadata)))
             else ret tt) in
  ret newVersion.

(** What the workers need, and what the commit does. *)
Record plan := {
  pl_metadata : BackupMetadata;
  pl_hasOld : bool;
  pl_latest : option Version;
  pl_run : backupRun;
  pl_entries : list SourceEntry;
}.

(** Phases 0 to 4: what the run starts from. *)
Definition plan_backup (env : environment) (ListEntries : M src (list SourceEntry)) (opts : BackupOptions) : M bstate plan :=
  let* _ := lift (validateBackupOptions (now_options env) opts) in
  let comp := pass_compression opts in
  let* loaded := load_or_init opts in
  let '(metadata, hasOld) := loaded in
  let latest := latestVersion metadata in
  let* _ := lift (check_order opts metadata) in
  let metadata := if hasOld then merge_keys opts metadata else metadata in
  let* allEntries := wrap_err "failed to list source entries" (on_src ListEntries) in
  let* entries := lift (select_entries opts allEntries) in
  let* keys := lift (pass_keys (random env) opts metadata entries) in
  let '(eph, sealed, clear, keyID) := keys in
  ret {| pl_metadata := metadata; pl_hasOld := hasOld; pl_latest := latest; pl_entries := entries;
         pl_run := {| run_opts := opts; compMethod := comp.1; compLevel := comp.2; ephPubKey := eph;
                      encryptedZipPass := sealed; clearZipPass := clear; run_keyID := keyID;
                      existing := Files metadata |} |}.

(** Phases 7 to 10 come after the workers have gathered [g]. *)
Definition complete (env : environment) (opts : BackupOptions) (p : plan) (g : gathered) : M bstate Version :=
  let* _ := finish_workers g (Z.of_nat (length (pl_entries p))) in
  commit env opts (pl_metadata p) (pl_hasOld p) (pl_latest p) g.

(** [RunBackup]. *)
Definition RunBackup (env : environment) (ListEntries : M src (list SourceEntry)) (opts : BackupOptions)
    : M bstate Version :=
  let* p := plan_backup env ListEntries opts in
  let* g := run_tasks (pl_run p) (pl_entries p) nothing in
  complete env opts p g.

End RunBackup.
