(* ===== verification/Pool.v ===== *)
(** Pools of goroutines, as the runs of [tsync/backup.go] and
    [tsync/restore.go] start them: a closed channel with all tasks, goroutines
    that take tasks from it and send one result each to a buffered channel,
    a loop that receives the results until all goroutines have left, and a
    caller who may interfere at any time.

    What a goroutine does with a task is a parameter; so is what they share.
    A task goes through phases, between which other goroutines can be seen. *)

From S2P Require Import Prelude.

(** What the goroutines of a pool do: the first phase of a task, its last
    phases, the steps between them, when the program has crashed, what the
    caller does to the shared state, and what the receiving loop does to it
    on a result, given those before. *)
Record routine (T P R W : Type) := {
  rt_taken : P;
  rt_answered : R → P;
  rt_halted : W → bool;
  rt_advance : T → W → P → P → W → Prop;
  rt_outside : W → W → Prop;
  rt_on_result : list R → R → W → W;
}.
Arguments rt_taken {T P R W}. Arguments rt_answered {T P R W}. Arguments rt_halted {T P R W}.
Arguments rt_advance {T P R W}. Arguments rt_outside {T P R W}. Arguments rt_on_result {T P R W}.

Inductive goroutine (T P : Type) := Free | Busy (t : T) (p : P) | Gone.
Arguments Free {T P}. Arguments Busy {T P}. Arguments Gone {T P}.

(** [taskChan], the goroutines, what they share, [resultChan], and what the
    loop has received; results are kept with their tasks. *)
Record pool (T P R W : Type) := {
  taskChan : list T;
  crew : list (goroutine T P);
  world : W;
  results : list (T * R);
  collected : list (T * R);
}.
Arguments taskChan {T P R W}. Arguments crew {T P R W}. Arguments world {T P R W}.
Arguments results {T P R W}. Arguments collected {T P R W}.

Section Pool.
Context {T P R W : Type} (rt : routine T P R W).
Implicit Types (s : pool T P R W) (w : W).

Definition set_crew (i : nat) (g : goroutine T P) s : pool T P R W :=
  {| taskChan := taskChan s; crew := <[i := g]> (crew s); world := world s; results := results s; collected := collected s |}.
Definition set_queue (ts : list T) s : pool T P R W :=
  {| taskChan := ts; crew := crew s; world := world s; results := results s; collected := collected s |}.
Definition set_world w s : pool T P R W :=
  {| taskChan := taskChan s; crew := crew s; world := w; results := results s; collected := collected s |}.
Definition send_result (x : T * R) s : pool T P R W :=
  {| taskChan := taskChan s; crew := crew s; world := world s; results := results s ++ [x]; collected := collected s |}.
Definition collect (x : T * R) (c : list (T * R)) s : pool T P R W :=
  {| taskChan := taskChan s; crew := crew s; world := world s; results := c; collected := collected s ++ [x] |}.

Section Tasks.
Context (tasks : list T).

(** [n] goroutines, and all tasks in the channel. *)
Definition start_pool (n : nat) w : pool T P R W :=
  {| taskChan := tasks; crew := replicate n Free; world := w; results := []; collected := [] |}.

Inductive move s : pool T P R W → Prop :=
| move_take i t ts : crew s !! i = Some Free → taskChan s = t :: ts →
    move s (set_crew i (Busy t (rt_taken rt)) (set_queue ts s))
| move_leave i : crew s !! i = Some Free → taskChan s = [] → move s (set_crew i Gone s)
| move_work i t p p' w : crew s !! i = Some (Busy t p) → rt_advance rt t (world s) p p' w →
    move s (set_crew i (Busy t p') (set_world w s))
| move_answer i t r : crew s !! i = Some (Busy t (rt_answered rt r)) → (length (results s) < length tasks)%nat →
    move s (set_crew i Free (send_result (t, r) s))
| move_collect x c : results s = x :: c →
    move s (collect x c (set_world (rt_on_result rt (collected s).*2 x.2 (world s)) s))
| move_outside w : rt_outside rt (world s) w → move s (set_world w s).

(** Nothing moves after a crash. *)
Definition pool_moves s s' : Prop := rt_halted rt (world s) = false ∧ move s s'.
Definition reaches (n : nat) (w : W) : pool T P R W → Prop := rtc pool_moves (start_pool n w).

(** [wg.Wait(); close(resultChan)], and the loop over the results is done. *)
Definition all_gone s : Prop := rt_halted rt (world s) = false ∧ Forall (Gone =.) (crew s) ∧ results s = [].

(** ** The ledger: every task and its phase *)

Abbreviation ledger_of := (list (T * P)).

Definition item_of (g : goroutine T P) : ledger_of := match g with Busy t p => [(t, p)] | _ => [] end.
Definition answered (x : T * R) : T * P := (x.1, rt_answered rt x.2).
Definition ledger s : ledger_of :=
  ((λ t, (t, rt_taken rt)) <$> taskChan s) ++ (crew s ≫= item_of) ++ (answered <$> results s) ++ (answered <$> collected s).

(** A change of the ledger: nothing, one task advances, a result is received,
    or the caller acts. *)
Inductive ledger_step (l : ledger_of) w : ledger_of → W → Prop :=
| ledger_same l' : l ≡ₚ l' → ledger_step l w l' w
| ledger_advance t p p' rest l' w' : l ≡ₚ (t, p) :: rest → rt_advance rt t w p p' w' → l' ≡ₚ (t, p') :: rest →
    ledger_step l w l' w'
| ledger_received l' t r before : l ≡ₚ l' → (t, rt_answered rt r) ∈ l → ledger_step l w l' (rt_on_result rt before r w)
| ledger_outside l' w' : l ≡ₚ l' → rt_outside rt w w' → ledger_step l w l' w'.

Lemma move_ledger s s' : move s s' → ledger_step (ledger s) (world s) (ledger s') (world s').
Proof.
  intros [i t ts Hi Ht|i Hi Ht|i t p p' w Hi Ha|i t r Hi Hl|x c Hc|w Ho]; unfold ledger; cbn.
  - apply ledger_same. destruct (bind_insert item_of _ _ _ Hi) as (rest & Hold & Hnew). rewrite Hold, Hnew, Ht. cbn. solve_Permutation.
  - apply ledger_same. by rewrite (bind_insert_same item_of _ _ _ Gone Hi).
  - destruct (bind_insert item_of _ _ _ Hi) as (rest & Hold & Hnew).
    eapply (ledger_advance _ _ t p p'); [rewrite Hold; cbn; by rewrite <- Permutation_middle|done|].
    rewrite Hnew. cbn. by rewrite <- Permutation_middle.
  - apply ledger_same. destruct (bind_insert item_of _ _ _ Hi) as (rest & Hold & Hnew).
    rewrite Hold, Hnew, fmap_app. cbn. change (t, rt_answered rt r) with (answered (t, r)). solve_Permutation.
  - rewrite Hc, fmap_app. apply (ledger_received _ _ _ x.1); [cbn; solve_Permutation|].
    rewrite !elem_of_app. right; right; left. by left.
  - by apply ledger_outside.
Qed.

(** What holds of the ledger at the start and is kept by its steps holds at
    every moment. *)
Lemma ledger_ind (Q : ledger_of → W → Prop) n w s :
  Q ((λ t, (t, rt_taken rt)) <$> tasks) w →
  (∀ l w l' w', Q l w → ledger_step l w l' w' → Q l' w') →
  reaches n w s → Q (ledger s) (world s).
Proof.
  intros Hinit Hstep. unfold reaches. intros Hr.
  assert (Q (ledger (start_pool n w)) (world (start_pool n w))) as H0.
  { unfold ledger, start_pool. cbn. by rewrite bind_replicate_nil, !app_nil_r. }
  revert H0. clear Hinit. induction Hr as [|s0 s1 s2 [_ Hm] _ IH]; [done|]. intros H0. apply IH. eapply Hstep; [done|by apply move_ledger].
Qed.

Lemma ledger_step_tasks l w l' w' : l.*1 ≡ₚ tasks → ledger_step l w l' w' → l'.*1 ≡ₚ tasks.
Proof.
  intros Hl [l1 <-|t a b rest l1 w1 E _ E'|l1 t r c <- _|l1 w1 <- _]; try done. by rewrite <- Hl, E', E.
Qed.

(** Every task is in the ledger once. *)
Lemma ledger_tasks n w s : reaches n w s → (ledger s).*1 ≡ₚ tasks.
Proof.
  apply (ledger_ind (λ l _, l.*1 ≡ₚ tasks)); [by rewrite <- list_fmap_compose, list_fmap_id|].
  intros. by eapply ledger_step_tasks.
Qed.

Lemma move_tasks s s' : (ledger s).*1 ≡ₚ tasks → pool_moves s s' → (ledger s').*1 ≡ₚ tasks.
Proof. intros Hl [_ Hm]. eapply ledger_step_tasks; [done|by apply move_ledger]. Qed.

Lemma busy_ledger s i t p : crew s !! i = Some (Busy t p) → (t, p) ∈ ledger s.
Proof.
  intros Hi. unfold ledger. rewrite !elem_of_app. right; left. apply list_elem_of_bind. exists (Busy t p).
  split; [by left|]. by apply list_elem_of_lookup_2 in Hi.
Qed.

(** A task that has been started and not answered is with a goroutine. *)
Lemma ledger_busy s t p :
  (t, p) ∈ ledger s → p ≠ rt_taken rt → (∀ r, p ≠ rt_answered rt r) → ∃ i, crew s !! i = Some (Busy t p).
Proof.
  intros H Ht Ha. unfold ledger in H. rewrite !elem_of_app in H.
  destruct H as [(x & [= _ ->] & _)%list_elem_of_fmap|[H|[(x & [= _ ->] & _)%list_elem_of_fmap|(x & [= _ ->] & _)%list_elem_of_fmap]]];
    [done| |by edestruct Ha..].
  apply list_elem_of_bind in H as (g & H & Hg). destruct g as [|u q|]; try by apply elem_of_nil in H.
  apply list_elem_of_singleton in H as [= <- <-]. by apply list_elem_of_lookup in Hg.
Qed.

(** ** Termination *)

Section Termination.
Context (phase_weight : P → nat) (world_weight : W → nat).
Hypothesis advance_less : ∀ t w a b w', t ∈ tasks → rt_halted rt w = false → rt_advance rt t w a b w' →
  (phase_weight b + world_weight w' < phase_weight a + world_weight w)%nat.
Hypothesis answered_weight : ∀ r, (3 ≤ phase_weight (rt_answered rt r))%nat.
Hypothesis outside_less : ∀ w w', rt_outside rt w w' → (world_weight w' < world_weight w)%nat.
Hypothesis on_result_le : ∀ c r w, (world_weight (rt_on_result rt c r w) ≤ world_weight w)%nat.

Definition goroutine_weight (g : goroutine T P) : nat :=
  match g with Free => 1 | Busy _ p => phase_weight p | Gone => 0 end.

(** An upper bound on the moves that are left. *)
Definition moves_left s : nat :=
  (phase_weight (rt_taken rt) * length (taskChan s) + sum_list_with goroutine_weight (crew s) + length (results s) +
   world_weight (world s))%nat.

Lemma move_decreases s s' : (ledger s).*1 ≡ₚ tasks → pool_moves s s' → (moves_left s' < moves_left s)%nat.
Proof.
  intros Htasks [Hc Hm].
  assert (∀ i g g', crew s !! i = Some g → sum_list_with goroutine_weight (<[i := g']> (crew s)) + goroutine_weight g =
    sum_list_with goroutine_weight (crew s) + goroutine_weight g')%nat as Hsum by (intros; by apply sum_list_with_insert).
  unfold moves_left. destruct Hm as [i t ts Hi Ht|i Hi Ht|i t a b w Hi Ha|i t r Hi Hl|x c Hx|w Ho]; cbn [set_crew set_queue
    set_world send_result collect taskChan crew world results].
  - specialize (Hsum _ _ (Busy t (rt_taken rt)) Hi). rewrite Ht. cbn in *. lia.
  - specialize (Hsum _ _ Gone Hi). cbn in *. lia.
  - specialize (Hsum _ _ (Busy t b) Hi). apply advance_less in Ha; [cbn in *; lia| |done].
    rewrite <- Htasks. apply list_elem_of_fmap. exists (t, a). split; [done|by eapply busy_ledger].
  - specialize (Hsum _ _ Free Hi). pose proof (answered_weight r). rewrite length_app. cbn in *. lia.
  - pose proof (on_result_le (collected s).*2 x.2 (world s)). rewrite Hx. cbn. lia.
  - apply outside_less in Ho. lia.
Qed.

End Termination.

(** Where every move makes something less, it bounds the number of moves. *)
Lemma moves_bounded (weight : pool T P R W → nat) m s s' :
  (∀ s s', (ledger s).*1 ≡ₚ tasks → pool_moves s s' → (weight s' < weight s)%nat) →
  (ledger s).*1 ≡ₚ tasks → nsteps pool_moves m s s' → (m ≤ weight s)%nat.
Proof.
  intros Hless Hl Hs. revert Hl. induction Hs as [|m s1 s2 s3 Hm _ IH]; intros Hl; [lia|].
  pose proof (Hless _ _ Hl Hm). specialize (IH (move_tasks _ _ Hl Hm)). lia.
Qed.

(** ** Progress *)

(** The channel has room for the result of every task. *)
Lemma answer_room s i t r :
  (ledger s).*1 ≡ₚ tasks → crew s !! i = Some (Busy t (rt_answered rt r)) → (length (results s) < length tasks)%nat.
Proof.
  intros Hl Hi. destruct (bind_insert item_of _ _ _ Hi) as (rest & Hold & _).
  rewrite <- Hl, length_fmap. unfold ledger. rewrite Hold, !length_app, !length_fmap. cbn. lia.
Qed.

Lemma gone_dec (g : goroutine T P) : {Gone = g} + {Gone ≠ g}.
Proof. destruct g; [by right..|by left]. Qed.

Lemma end_dec s : rt_halted rt (world s) = true ∨ all_gone s ∨ rt_halted rt (world s) = false ∧ ¬ all_gone s.
Proof.
  unfold all_gone. destruct (rt_halted rt (world s)); [by left|right].
  destruct (Forall_Exists_dec _ _ gone_dec (crew s)) as [Hall|Hex%Exists_not_Forall]; [|right; tauto].
  destruct (results s); [by left|right; split; [done|by intros (_ & _ & ?)]].
Qed.

(** Some goroutine can move on. *)
Definition can_work s : Prop :=
  ∃ i t p p' w, crew s !! i = Some (Busy t p) ∧ rt_advance rt t (world s) p p' w.

(** Nothing blocks for ever, if nobody waits for a goroutine that cannot
    move. *)
Lemma not_stuck s :
  (ledger s).*1 ≡ₚ tasks → (∀ i t p, crew s !! i = Some (Busy t p) → (∃ r, p = rt_answered rt r) ∨ can_work s) →
  rt_halted rt (world s) = false → ¬ all_gone s → ∃ s', pool_moves s s'.
Proof.
  intros Hl Hwork Hc Hng. destruct (Forall_Exists_dec _ _ gone_dec (crew s)) as [Hall|Hex].
  - destruct (results s) as [|x c] eqn:E; [by destruct Hng|]. eexists. split; [done|by eapply move_collect].
  - apply Exists_exists in Hex as (g & [i Hi]%list_elem_of_lookup & Hg). destruct g as [|t p|]; [| |done].
    + destruct (taskChan s) as [|t ts] eqn:Et; eexists; (split; [done|]); [by eapply move_leave|by eapply move_take].
    + destruct (Hwork _ _ _ Hi) as [[r ->]|(j & u & q & q' & w & Hj & Ha)]; eexists; (split; [done|]); [|by eapply move_work].
      eapply move_answer; [done|by eapply answer_room].
Qed.

(** Where every move makes something less and no state is stuck, the end can
    be reached. *)
Lemma reaches_end (weight : pool T P R W → nat) n w s :
  (∀ s s', (ledger s).*1 ≡ₚ tasks → pool_moves s s' → (weight s' < weight s)%nat) →
  (∀ s, reaches n w s → rt_halted rt (world s) = false → ¬ all_gone s → ∃ s', pool_moves s s') →
  reaches n w s → ∃ s', rtc pool_moves s s' ∧ (all_gone s' ∨ rt_halted rt (world s') = true).
Proof.
  intros Hless Hstuck. remember (weight s) as m eqn:E. revert s E. induction m as [m IH] using lt_wf_ind. intros s -> Hr.
  destruct (end_dec s) as [?|[?|[Hc Hg]]]; [exists s; split; [done|by auto]..|].
  destruct (Hstuck _ Hr Hc Hg) as [s1 Hs].
  destruct (IH _ (Hless _ _ (ledger_tasks _ _ _ Hr) Hs) _ eq_refl) as (s' & ? & ?); [by eapply rtc_r|]. exists s'. split; [by eapply rtc_l|done].
Qed.

(** ** The end *)

(** Goroutines only leave when the channel is empty. *)
Lemma gone_empty n w s i : reaches n w s → crew s !! i = Some Gone → taskChan s = [].
Proof.
  intros Hr. revert i. unfold reaches in Hr. remember (start_pool n w) as p0 eqn:E.
  assert (∀ i, crew p0 !! i = Some Gone → taskChan p0 = []) as H0 by (subst; cbn; intros i [? _]%lookup_replicate; done).
  clear E. induction Hr as [|s1 s2 s3 [_ Hm] _ IH]; [done|]. apply IH. clear IH.
  destruct Hm as [i t ts Hi Ht|i Hi Ht|i t a b v Hi Ha|i t r Hi Hl|x c Hx|v Ho]; cbn; try done;
    intros j [(<- & Hj & _)|[_ Hj]]%list_lookup_insert_Some; try done; try (by eapply H0).
  apply H0 in Hj. congruence.
Qed.

Lemma crew_size n w s : reaches n w s → length (crew s) = n.
Proof.
  intros Hr. unfold reaches in Hr. remember (start_pool n w) as p0 eqn:E.
  assert (length (crew p0) = n) as H0 by (subst; cbn; apply length_replicate).
  clear E. induction Hr as [|s1 s2 s3 [_ Hm] _ IH]; [done|]. apply IH.
  destruct Hm; cbn; by rewrite ?length_insert.
Qed.

(** What is left at the end: one result for every task. *)
Lemma final_ledger n w s :
  (n = 0 → tasks = []) → reaches n w s → all_gone s → ledger s = answered <$> collected s.
Proof.
  intros Hn Hr (_ & Hg & Hres). pose proof (ledger_tasks _ _ _ Hr) as Hl. unfold ledger in Hl |- *. rewrite Hres in *.
  assert (crew s ≫= item_of = []) as Hbusy by (clear -Hg; induction Hg as [|g l <- _ IH]; [done|by rewrite bind_cons, IH]).
  rewrite Hbusy in *. enough (taskChan s = []) as -> by done.
  pose proof (crew_size _ _ _ Hr) as Hlen. destruct (crew s) as [|g l] eqn:E.
  - cbn in Hlen. rewrite Hn in Hl by done. apply Permutation_nil_r in Hl. by destruct (taskChan s).
  - apply (gone_empty _ _ _ 0 Hr). rewrite E. by apply Forall_cons in Hg as [<- _].
Qed.

Lemma pos_or_nil {A} n (l : list A) : (0 < n)%nat → n = 0 → l = [].
Proof. lia. Qed.

Lemma final_tasks n w s : (n = 0 → tasks = []) → reaches n w s → all_gone s → (collected s).*1 ≡ₚ tasks.
Proof.
  intros Hn Hr Hg. rewrite <- (ledger_tasks _ _ _ Hr), (final_ledger _ _ _ Hn Hr Hg).
  by rewrite <- list_fmap_compose.
Qed.

(** What holds of the shared state at the start and is kept by all who change
    it holds at every moment. *)
Lemma world_ind (Q : W → Prop) n w s :
  Q w → (∀ l w l' w', Q w → ledger_step l w l' w' → Q w') → reaches n w s → Q (world s).
Proof. intros H0 Hstep. apply (ledger_ind (λ _, Q)); eauto. Qed.

End Tasks.

(** ** One goroutine at a time *)

(** The steps of one task while nothing else happens. *)
Definition task_moves (t : T) : relation (P * W) :=
  rtc (λ x y, rt_halted rt x.2 = false ∧ rt_advance rt t x.2 x.1 y.1 y.2).

Lemma task_move t p w p' w' x :
  rt_halted rt w = false → rt_advance rt t w p p' w' → task_moves t (p', w') x → task_moves t (p, w) x.
Proof. intros Hc Ha Hr. eapply rtc_l; [|exact Hr]. by split. Qed.

Section Single.
Context (tasks : list T).
Abbreviation moves := (rtc (pool_moves tasks)).

(** The pool while only its first goroutine moves. *)
Definition single (g : goroutine T P) (k : nat) (ts : list T) (w : W) (c : list (T * R)) : pool T P R W :=
  {| taskChan := ts; crew := g :: replicate k Free; world := w; results := []; collected := c |}.

Lemma single_take t ts w k c :
  rt_halted rt w = false → moves (single Free k (t :: ts) w c) (single (Busy t (rt_taken rt)) k ts w c).
Proof. intros Hc. apply rtc_once. split; [done|]. by apply (move_take _ (single Free k (t :: ts) w c) 0). Qed.

Lemma single_task t p w p' w' k ts c :
  task_moves t (p, w) (p', w') → moves (single (Busy t p) k ts w c) (single (Busy t p') k ts w' c).
Proof.
  intros Hr. remember (p, w) as x eqn:Ex. remember (p', w') as y eqn:Ey. revert p w Ex.
  induction Hr as [x|x [q v] y [Hc Ha] _ IH]; intros p w ->; [by simplify_eq|].
  eapply rtc_l; [|by apply IH]. split; [done|]. by apply (move_work _ (single (Busy t p) k ts w c) 0 t p q v).
Qed.

Lemma single_answer t r w k ts c :
  rt_halted rt w = false → tasks ≠ [] →
  moves (single (Busy t (rt_answered rt r)) k ts w c) (single Free k ts (rt_on_result rt c.*2 r w) (c ++ [(t, r)])).
Proof.
  intros Hc Hne. eapply rtc_l; [split; [done|]|].
  - apply (move_answer _ (single (Busy t (rt_answered rt r)) k ts w c) 0 t r eq_refl). cbn. destruct tasks; [done|cbn; lia].
  - apply rtc_once. split; [done|]. by apply (move_collect _ (send_result (t, r) (single Free k ts w c)) (t, r) []).
Qed.

(** The goroutines leave when the channel is empty. *)
Lemma all_leave j k w c :
  rt_halted rt w = false → ∃ p, moves {| taskChan := []; crew := replicate j Gone ++ replicate k Free; world := w; results := []; collected := c |} p ∧
    all_gone p ∧ world p = w ∧ collected p = c.
Proof.
  intros Hc. revert j. induction k as [|k IH]; intros j.
  { eexists. split; [reflexivity|]. split; [|done]. split_and!; [done| |done]. cbn. rewrite app_nil_r. by apply Forall_replicate. }
  destruct (IH (S j)) as (p & Hm & Hp). exists p. split; [|done]. eapply rtc_l; [|exact Hm]. split; [done|].
  set (s := {| taskChan := []; crew := replicate j Gone ++ replicate (S k) Free; world := w; results := []; collected := c |}).
  assert (crew s !! j = Some Free) as Hj by (cbn; by rewrite lookup_app_r, length_replicate, Nat.sub_diag by (by rewrite length_replicate)).
  pose proof (move_leave tasks s j Hj eq_refl) as Hl. unfold set_crew in Hl. cbn in Hl.
  rewrite insert_app_r_alt, length_replicate, Nat.sub_diag in Hl by (by rewrite length_replicate). cbn in Hl.
  replace (replicate (S j) Gone ++ replicate k Free) with (replicate j Gone ++ (Gone : goroutine T P) :: replicate k Free); [exact Hl|].
  by rewrite cons_middle, app_assoc, <- replicate_S_end.
Qed.

End Single.
End Pool.
