(* ===== verification/Workers.v ===== *)
(** The goroutines of a backup run ([tsync/backup.go], lines 312 to 388 and
    718 to 780): they take entries from the channel of a pool (Pool.v), share
    the uploads of equal contents, and send one result each; the gathering
    loop cancels the run at the first error; and the caller may cancel at any
    time.

    The stages of an entry are those between which other goroutines can be
    seen: the checks of the run's context, the computation of the key, the
    table of uploads, the upload, the cancellation.  Reading a source for its
    key and writing one part are one step each. *)

From Stdlib Require Import Strings.Byte.
From S2P Require Import Prelude Errors GoStrings Keys Digest Metadata Store Upload UploadExample Backup Pool.

Section Workers.
Context {ST : Storage} {SW : SourceWorld} {CK : Chunking} {ZP : ZipParts}.

(** ** The goroutines *)

(** Where an entry is in [process], [processFile] and [uploadOnce]. *)
Inductive stage :=
| Fetched
| Checked
| Keyed (key : string)
| Uploading (key : string)
| Waiting (key : string)
| Returned (r : string * FileRecord + error)
| Sending (r : backupResult).

(** The state of the run; the keys for which [uploadPart] was called; and how
    the program ended if a goroutine panicked. *)
Record joint := {
  bs : bstate;
  started : list string;
  fatal : option (res gathered);
}.
Definition set_bs (b : bstate) (w : joint) : joint := {| bs := b; started := started w; fatal := fatal w |}.
Definition begin_upload (key : string) (w : joint) : joint :=
  {| bs := set_flight key None (bs w); started := started w ++ [key]; fatal := fatal w |}.
Definition end_upload (key : string) (r : FileRecord + error) (w : joint) : joint :=
  set_bs (set_flight key (Some r) (bs w)) w.
Definition die (r : res gathered) (w : joint) : joint := {| bs := bs w; started := started w; fatal := Some r |}.
Definition cancel_run (e : error) (w : joint) : joint := set_bs (cancel e (bs w)).2 w.

Context (run : backupRun).

(** What follows the computation of the key: a record of the metadata is
    reused. *)
Definition after_key (r : res string) (w : joint) : stage * joint :=
  match r with
  | Ok key => match existing run !! key with
              | Some rec => (Returned (inl (key, rec)), w)
              | None => (Keyed key, w)
              end
  | Err e => (Returned (inr e), w)
  | Panic => (Checked, die Panic w)
  | OutOfFuel => (Checked, die OutOfFuel w)
  end.

(** What follows the call of [uploadPart]: those who wait are woken. *)
Definition after_upload (key : string) (r : res FileRecord) (w : joint) : stage * joint :=
  match r with
  | Ok rec => (Returned (inl (key, rec)), end_upload key (inl rec) w)
  | Err e => (Returned (inr e), end_upload key (inr e) w)
  | Panic => (Uploading key, die Panic w)
  | OutOfFuel => (Uploading key, die OutOfFuel w)
  end.

Definition with_key (key : string) (r : FileRecord + error) : string * FileRecord + error :=
  match r with inl rec => inl (key, rec) | inr e => inr e end.

(** One step of a goroutine with its entry. *)
Inductive work (e : SourceEntry) (w : joint) : stage → stage → joint → Prop :=
| work_cancelled c : run_cause (bs w) = Some c → work e w Fetched (Sending (ResErr (Path e) c)) w
| work_dir : run_cause (bs w) = None → isDirEntry e = true → work e w Fetched (Sending (ResDir (Path e))) w
| work_file : run_cause (bs w) = None → isDirEntry e = false → work e w Fetched Checked w
| work_key r b : entry_key e (bs w) = (r, b) →
    work e w Checked (after_key r (set_bs b w)).1 (after_key r (set_bs b w)).2
| work_first key : flights (bs w) !! key = None → work e w (Keyed key) (Uploading key) (begin_upload key w)
| work_join key f : flights (bs w) !! key = Some f → work e w (Keyed key) (Waiting key) w
| work_upload key r b : uploadPart run key e (bs w) = (r, b) →
    work e w (Uploading key) (after_upload key r (set_bs b w)).1 (after_upload key r (set_bs b w)).2
| work_woken key r : flights (bs w) !! key = Some (Some r) → work e w (Waiting key) (Returned (with_key key r)) w
| work_wait_cancelled key c : run_cause (bs w) = Some c → work e w (Waiting key) (Returned (inr c)) w
| work_ok key rec : work e w (Returned (inl (key, rec))) (Sending (ResFile (Path e) key rec)) w
| work_failed c : work e w (Returned (inr c)) (Sending (ResErr (Path e) c)) (cancel_run c w).

(** The caller's context ends. *)
Inductive caller_ends (w : joint) : joint → Prop :=
| caller_end x : ctx_Err (b_src (bs w)) = None → is_Some (ctx_Err x) → caller_ends w (set_bs (set_src x (bs w)) w).

(** The goroutines, and the gathering loop. *)
Definition backup_routine : routine SourceEntry stage backupResult joint :=
  {| rt_taken := Fetched; rt_answered := Sending;
     rt_halted w := match fatal w with Some _ => true | None => false end;
     rt_advance := work; rt_outside := caller_ends;
     rt_on_result before r w := set_bs (receive (fold_left gather before nothing) r (bs w)) w |}.

(** The number of goroutines for [n] entries. *)
Definition pool_size (Concurrency : Z) (n : nat) : nat :=
  Nat.min (Z.to_nat (if (Concurrency <=? 0)%Z then 10 else Concurrency)) n.

Definition begun (s : bstate) : joint := {| bs := s; started := []; fatal := None |}.

(** What a call leaves alone: the uploads, and the cause of the run's
    context. *)
Definition calm (b b' : bstate) : Prop := flights b' = flights b ∧ cause b' = cause b.
#[local] Instance calm_preorder : PreOrder calm.
Proof. split; [done|]. intros b1 b2 b3 [F1 C1] [F2 C2]. split; congruence. Qed.

(** What [uploadPart] and the computation of a key keep is what the calls of
    the storage and of the openers of the entry keep. *)
Section Keeps.
Context (R : bstate → bstate → Prop) {HR : PreOrder R} (e : SourceEntry).
Context (Hstore : ∀ A (c : M store A), keeps R (on_store c)).
Context (Hsrc : ∀ open, Open e = Some open ∨ OpenRaw e = Some open ∨ OpenRawCompressed e = Some open → keeps R (on_src open)).
#[local] Hint Resolve Hstore : keeps.

Lemma entry_key_keeps : keeps R (entry_key e).
Proof.
  unfold entry_key. destruct (Open e) as [open|] eqn:E; [|keep]. assert (keeps R (on_src open)) as H by auto. keep.
Qed.

Lemma pooledCopy_keeps write rc : (∀ b, keeps R (write b)) → keeps R (pooledCopy write rc).
Proof. intros H. unfold pooledCopy. keep. Qed.

Lemma write_chunks_keeps w cs z : keeps R (write_chunks w cs z).
Proof. revert z. induction cs as [|c cs IH]; intros z; cbn [write_chunks]; keep. Qed.
#[local] Hint Resolve pooledCopy_keeps write_chunks_keeps : keeps.

Lemma write_part_keeps create w rc : keeps R (write_part create w rc).
Proof. unfold write_part, copy_part. keep. Qed.
#[local] Hint Resolve write_part_keeps : keeps.

Lemma uploadPart_keeps key : keeps R (uploadPart run key e).
Proof.
  unfold uploadPart. destruct (opener e) as [open|] eqn:E; [|keep].
  assert (keeps R (on_src open)) as H by (apply Hsrc; unfold opener in E; repeat case_match; naive_solver).
  unfold write_checked, write_object, copyRawPart, writeRawCompressedPart, writeCompressedPart, abort_after, abortWriter. keep.
Qed.

End Keeps.

Lemma calm_store {A} (c : M store A) : keeps calm (on_store c).
Proof. intros s r s'. unfold on_store. destruct (c (b_store s)). by intros [= _ <-]. Qed.
Lemma calm_src {A} (c : M src A) : keeps calm (on_src c).
Proof. intros s r s'. unfold on_src. destruct (c (b_src s)). by intros [= _ <-]. Qed.

Lemma entry_key_calm e : keeps calm (entry_key e).
Proof. apply entry_key_keeps; [apply _|intros; apply calm_src]. Qed.
Lemma uploadPart_calm e key : keeps calm (uploadPart run key e).
Proof. apply uploadPart_keeps; [apply _|intros; apply calm_store|intros; apply calm_src]. Qed.

Lemma cancel_flights e s : flights (cancel e s).2 = flights s.
Proof. unfold cancel. cbn. by destruct (cause s). Qed.
Lemma receive_flights g r s : flights (receive g r s) = flights s.
Proof. unfold receive. destruct (firstErr g), r; try done. apply cancel_flights. Qed.

(** ** The invariant *)

(** [r] is a result for [e]. *)
Definition answers (e : SourceEntry) (r : backupResult) : Prop :=
  match r with
  | ResDir p => p = Path e ∧ isDirEntry e = true
  | ResFile p _ _ => p = Path e ∧ isDirEntry e = false
  | ResErr p _ => p = Path e
  end.

Abbreviation flight_map := (gmap string flight).

(** The record for a key: that of the metadata, or that of its upload. *)
Definition record_of (f : flight_map) (k : string) (rec : FileRecord) : Prop :=
  existing run !! k = Some rec ∨ existing run !! k = None ∧ f !! k = Some (Some (inl rec)).

Definition stage_ok (f : flight_map) (x : SourceEntry * stage) : Prop :=
  match x.2 with
  | Fetched => True
  | Checked => isDirEntry x.1 = false
  | Keyed k | Uploading k => isDirEntry x.1 = false ∧ existing run !! k = None
  | Waiting k => isDirEntry x.1 = false ∧ existing run !! k = None ∧ is_Some (f !! k)
  | Returned r => isDirEntry x.1 = false ∧ ∀ k rec, r = inl (k, rec) → record_of f k rec
  | Sending r => answers x.1 r ∧ ∀ p k rec, r = ResFile p k rec → record_of f k rec
  end.

(** The upload that an entry is busy with. *)
Definition uploading (x : SourceEntry * stage) : list string :=
  match x.2 with Uploading k => [k] | _ => [] end.

(** Every running upload has its one worker, none is started twice, and none
    for a content that the metadata knows. *)
Record uploads_ok (l : list (SourceEntry * stage)) (w : joint) : Prop := {
  uo_once : NoDup (l ≫= uploading);
  uo_running : ∀ k, k ∈ l ≫= uploading ↔ flights (bs w) !! k = Some None;
  uo_started : NoDup (started w);
  uo_new : ∀ k, k ∈ started w → existing run !! k = None;
  uo_all : ∀ k, k ∈ started w ↔ is_Some (flights (bs w) !! k);
}.

Definition workers_ok (l : list (SourceEntry * stage)) (w : joint) : Prop :=
  Forall (stage_ok (flights (bs w))) l ∧ uploads_ok l w.

(** Uploads only make progress. *)
Definition grown (f f' : flight_map) : Prop :=
  (∀ k, is_Some (f !! k) → is_Some (f' !! k)) ∧ ∀ k r, f !! k = Some (Some r) → f' !! k = Some (Some r).

Lemma grown_insert f k x : (∀ r, f !! k ≠ Some (Some r)) → grown f (<[k := x]> f).
Proof.
  intros Hk. split.
  - intros k' ?. destruct (decide (k = k')) as [->|]; [rewrite lookup_insert_eq; eauto|by rewrite lookup_insert_ne].
  - intros k' r Hr. rewrite lookup_insert_ne; [done|]. intros ->. by apply Hk in Hr.
Qed.

Lemma stage_ok_grown f f' x : grown f f' → stage_ok f x → stage_ok f' x.
Proof.
  intros [H1 H2]. assert (∀ k rec, record_of f k rec → record_of f' k rec) as Hr
    by (intros k rec [?|[? ?]]; [by left|right; auto]).
  destruct x as [e [| | | | |r|r]]; unfold stage_ok; cbn; naive_solver.
Qed.

Lemma uploads_ok_perm l l' w : l ≡ₚ l' → uploads_ok l w → uploads_ok l' w.
Proof. intros E [H1 H2 H3 H4 H5]. split; [by rewrite <- E|intros k; by rewrite <- E|done..]. Qed.
Lemma workers_ok_perm l l' w : l ≡ₚ l' → workers_ok l w → workers_ok l' w.
Proof. intros E [H1 H2]. split; [by rewrite <- E|by eapply uploads_ok_perm]. Qed.

(** The uploads are as before, whatever else changes. *)
Lemma uploads_ok_same l l' w w' :
  flights (bs w') = flights (bs w) → started w' = started w → l' ≫= uploading = l ≫= uploading →
  uploads_ok l w → uploads_ok l' w'.
Proof. intros E1 E2 E3 [H1 H2 H3 H4 H5]. split; by rewrite ?E1, ?E2, ?E3. Qed.
Lemma workers_ok_world l w w' :
  flights (bs w') = flights (bs w) → started w' = started w → workers_ok l w → workers_ok l w'.
Proof. intros E1 E2 [H1 H2]. split; [by rewrite E1|by eapply uploads_ok_same]. Qed.

(** An entry that neither begins nor ends an upload. *)
Lemma workers_ok_moved e a b rest w w' :
  workers_ok ((e, a) :: rest) w → flights (bs w') = flights (bs w) → started w' = started w →
  uploading (e, b) = uploading (e, a) → stage_ok (flights (bs w)) (e, b) → workers_ok ((e, b) :: rest) w'.
Proof.
  intros [[Ha Hrest]%Forall_cons Hu] E1 E2 E3 Hb. split; [rewrite E1; by constructor|].
  eapply uploads_ok_same; [done..| |done]. by rewrite !bind_cons, E3.
Qed.

Lemma begin_upload_ok e k rest w :
  workers_ok ((e, Keyed k) :: rest) w → flights (bs w) !! k = None →
  workers_ok ((e, Uploading k) :: rest) (begin_upload k w).
Proof.
  intros [[[Hd Hk] Hrest]%Forall_cons [H1 H2 H3 H4 H5]] Hn. cbn in Hd, Hk.
  assert (grown (flights (bs w)) (<[k := None]> (flights (bs w)))) as Hg by (apply grown_insert; congruence).
  split; [cbn; constructor; [done|]; eapply Forall_impl; [exact Hrest|]; intros x; by apply stage_ok_grown|].
  rewrite bind_cons in H1, H2. cbn [uploading snd app] in H1, H2.
  assert (k ∉ rest ≫= uploading) as Hni by (rewrite H2, Hn; done).
  assert (k ∉ started w) as Hns by (rewrite H5, Hn; by intros []).
  split; rewrite ?bind_cons; cbn -[mbind].
  - by constructor.
  - intros j. rewrite elem_of_cons. destruct (decide (k = j)) as [<-|Hne].
    + rewrite lookup_insert_eq. naive_solver.
    + rewrite lookup_insert_ne by done. rewrite <- H2. naive_solver.
  - apply NoDup_app. split_and!; [done| |apply NoDup_singleton]. by intros j Hj ->%list_elem_of_singleton.
  - intros j [?| ->%list_elem_of_singleton]%elem_of_app; auto.
  - intros j. rewrite elem_of_app, list_elem_of_singleton. destruct (decide (k = j)) as [<-|Hne].
    + rewrite lookup_insert_eq. naive_solver.
    + rewrite lookup_insert_ne by done. rewrite <- H5. naive_solver.
Qed.

Lemma end_upload_ok e k r p rest w :
  workers_ok ((e, Uploading k) :: rest) w → uploading (e, p) = [] → stage_ok (<[k := Some r]> (flights (bs w))) (e, p) →
  workers_ok ((e, p) :: rest) (end_upload k r w).
Proof.
  intros [[[Hd Hk] Hrest]%Forall_cons [H1 H2 H3 H4 H5]] Hp Hok. cbn in Hd, Hk.
  rewrite bind_cons in H1, H2. cbn [uploading snd app] in H1, H2. apply NoDup_cons in H1 as [Hni H1].
  assert (flights (bs w) !! k = Some None) as Hrun by (apply H2; by left).
  assert (grown (flights (bs w)) (<[k := Some r]> (flights (bs w)))) as Hg by (apply grown_insert; congruence).
  split; [cbn; constructor; [done|]; eapply Forall_impl; [exact Hrest|]; intros x; by apply stage_ok_grown|].
  split; rewrite ?bind_cons, ?Hp; cbn -[mbind]; try done.
  - intros j. destruct (decide (k = j)) as [<-|Hne].
    + rewrite lookup_insert_eq. naive_solver.
    + rewrite lookup_insert_ne by done. rewrite <- H2, elem_of_cons. naive_solver.
  - intros j. rewrite H5. destruct (decide (k = j)) as [<-|Hne]; [|by rewrite lookup_insert_ne].
    rewrite Hrun, lookup_insert_eq. split; eauto.
Qed.

(** ** Preservation *)

Lemma work_inv e a b rest w w' : workers_ok ((e, a) :: rest) w → work e w a b w' → workers_ok ((e, b) :: rest) w'.
Proof.
  intros Hok Ha. assert (stage_ok (flights (bs w)) (e, a)) as Hst by (by destruct Hok as [[? _]%Forall_cons _]).
  destruct Ha as [c Hc|Hc Hd|Hc Hd|r s Hk|k Hk|k f Hk|k r s Hu|k r Hk|k c Hc|k rec|c]; unfold stage_ok in Hst; cbn [fst snd] in Hst.
  - by eapply workers_ok_moved.
  - by eapply workers_ok_moved.
  - by eapply workers_ok_moved.
  - apply entry_key_calm in Hk as [Ef _]. assert (uploading (e, (after_key r (set_bs s w)).1) = []) as Hup
      by (destruct r; cbn; [destruct (existing run !! _)|..]; done).
    destruct r as [k|err| |]; cbn in *; [destruct (existing run !! k) eqn:Ex| | |]; cbn in *; eapply workers_ok_moved; try done.
    split; [done|]. intros k' rec [= <- <-]. by left.
  - by apply begin_upload_ok.
  - destruct Hst. by eapply workers_ok_moved.
  - apply uploadPart_calm in Hu as [Ef _]. apply (workers_ok_world _ _ (set_bs s w)) in Hok; [|done..].
    destruct r as [rec|err| |]; cbn.
    + apply end_upload_ok; [done..|]. split; [apply Hst|]. intros k' rec' [= <- <-]. right. split; [apply Hst|]. apply lookup_insert_eq.
    + apply end_upload_ok; [done..|]. split; [apply Hst|done].
    + by eapply workers_ok_world; [..|exact Hok].
    + by eapply workers_ok_world; [..|exact Hok].
  - destruct Hst as (? & ? & _). eapply workers_ok_moved; try done. split; [done|]. intros k' rec Hr. destruct r as [rec'|]; [|done].
    injection Hr as <- <-. by right.
  - destruct Hst as (? & _). eapply workers_ok_moved; try done.
  - destruct Hst as (? & Hr). eapply workers_ok_moved; try done. split; [done|]. intros p k' rec' [= <- <- <-]. by apply Hr.
  - destruct Hst as (? & _). eapply workers_ok_moved; try done. apply cancel_flights.
Qed.

Lemma workers_step l w l' w' : workers_ok l w → ledger_step backup_routine l w l' w' → workers_ok l' w'.
Proof.
  intros Hok [l1 E|e a b rest l1 w1 E Ha E'|l1 e r c E _|l1 w1 E [x _ _]].
  - by eapply workers_ok_perm.
  - eapply workers_ok_perm; [symmetry; exact E'|]. eapply work_inv; [|done]. by eapply workers_ok_perm.
  - eapply workers_ok_perm; [exact E|]. eapply workers_ok_world; [..|exact Hok]; [apply receive_flights|done].
  - eapply workers_ok_perm; [exact E|]. by eapply workers_ok_world; [..|exact Hok].
Qed.

Section Pool.
Context (entries : list SourceEntry).
Abbreviation ledger := (ledger backup_routine).
Abbreviation pool_moves := (pool_moves backup_routine entries).
Abbreviation reaches n s := (reaches backup_routine entries n (begun s)).
Abbreviation all_gone := (all_gone backup_routine).

Lemma reaches_ok n s p : flights s = ∅ → reaches n s p → workers_ok (ledger p) (world p).
Proof.
  intros Hs. apply (ledger_ind _ _ workers_ok); [|by intros; eapply workers_step].
  assert (((λ e, (e, Fetched)) <$> entries) ≫= uploading = []) as Hnil.
  { induction entries as [|e l IH]; [done|]. by rewrite fmap_cons, bind_cons, IH. }
  split; [by apply Forall_fmap, Forall_true|]. split; cbn -[mbind]; rewrite ?Hnil.
  - constructor.
  - intros k. rewrite Hs, lookup_empty. split; [by intros ?%elem_of_nil|done].
  - constructor.
  - by intros k ?%elem_of_nil.
  - intros k. rewrite Hs, lookup_empty. split; [by intros ?%elem_of_nil|by intros []].
Qed.

(** ** Termination and progress *)

(** The caller's context, once it has ended, is not revived by reading the
    sources of these entries. *)
Definition src_stays (s s' : bstate) : Prop :=
  (∀ c, ctx_Err (b_src s) = Some c → ctx_Err (b_src s') = Some c) ∧ cause s' = cause s.
Definition steady (e : SourceEntry) : Prop :=
  ∀ open, Open e = Some open ∨ OpenRaw e = Some open ∨ OpenRawCompressed e = Some open →
  ∀ x r x', open x = (r, x') → ∀ c, ctx_Err x = Some c → ctx_Err x' = Some c.
Context (Hsteady : Forall steady entries).

#[local] Instance src_stays_preorder : PreOrder src_stays.
Proof. split; [done|]. intros s1 s2 s3 [H1 E1] [H2 E2]. split; [auto|congruence]. Qed.
Lemma src_stays_store {A} (c : M store A) : keeps src_stays (on_store c).
Proof. intros s r s'. unfold on_store. destruct (c (b_store s)). by intros [= _ <-]. Qed.
Lemma src_stays_src e open :
  e ∈ entries → Open e = Some open ∨ OpenRaw e = Some open ∨ OpenRawCompressed e = Some open → keeps src_stays (on_src open).
Proof.
  intros He Ho s r s'. unfold on_src. destruct (open (b_src s)) as [r1 x] eqn:E. intros [= _ <-]. split; [|done].
  rewrite Forall_forall in Hsteady. by eapply Hsteady.
Qed.

Definition stage_weight (p : stage) : nat :=
  match p with
  | Sending _ => 3 | Returned _ => 4 | Waiting _ => 5 | Uploading _ => 5 | Keyed _ => 6 | Checked => 7 | Fetched => 8
  end.
Definition joint_weight (w : joint) : nat :=
  (match fatal w with None => 1 | Some _ => 0 end + match ctx_Err (b_src (bs w)) with None => 1 | Some _ => 0 end)%nat.

Lemma joint_weight_stays w s : src_stays (bs w) s → joint_weight (set_bs s w) ≤ joint_weight w.
Proof.
  intros [H _]. unfold joint_weight. cbn. destruct (ctx_Err (b_src (bs w))) as [c|]; [by rewrite (H c)|]. destruct (ctx_Err (b_src s)); lia.
Qed.
Lemma joint_weight_cancel e w : joint_weight (set_bs (cancel e (bs w)).2 w) = joint_weight w.
Proof. unfold joint_weight, cancel. cbn. by destruct (cause (bs w)). Qed.
Lemma joint_weight_end k r w : joint_weight (end_upload k r w) = joint_weight w.
Proof. done. Qed.
Lemma joint_weight_die r w : fatal w = None → joint_weight (die r w) < joint_weight w.
Proof. unfold joint_weight. cbn. intros ->. lia. Qed.

Lemma work_less e w a b w' :
  e ∈ entries → fatal w = None → work e w a b w' → stage_weight b + joint_weight w' < stage_weight a + joint_weight w.
Proof.
  intros He Hf Ha. destruct Ha as [c Hc|Hc Hd|Hc Hd|r s Hk|k Hk|k f Hk|k r s Hu|k r Hk|k c Hc|k rec|c]; cbn [stage_weight]; try lia.
  - apply (entry_key_keeps src_stays e) in Hk as Hs%joint_weight_stays; [|intros; by eapply src_stays_src].
    assert (fatal (set_bs s w) = None) as Hf2 by done.
    destruct r as [k| | |]; cbn [after_key fst snd stage_weight]; [destruct (existing run !! k); cbn [fst snd stage_weight]; lia|lia|..].
    + pose proof (joint_weight_die Panic _ Hf2). lia.
    + pose proof (joint_weight_die OutOfFuel _ Hf2). lia.
  - unfold joint_weight. cbn. lia.
  - apply (uploadPart_keeps src_stays e) in Hu as Hs%joint_weight_stays; [|intros; apply src_stays_store|intros; by eapply src_stays_src].
    assert (fatal (set_bs s w) = None) as Hf2 by done.
    destruct r as [rec|err| |]; cbn [after_upload fst snd stage_weight]; rewrite ?joint_weight_end; [lia|lia|..].
    + pose proof (joint_weight_die Panic _ Hf2). lia.
    + pose proof (joint_weight_die OutOfFuel _ Hf2). lia.
  - unfold cancel_run. rewrite joint_weight_cancel. lia.
Qed.

(** An upper bound on the moves that are left. *)
Definition steps_left : pool SourceEntry stage backupResult joint → nat := moves_left backup_routine stage_weight joint_weight.

Lemma not_halted w : rt_halted backup_routine w = false ↔ fatal w = None.
Proof. cbn. by destruct (fatal w). Qed.

Lemma step_decreases p p' : (ledger p).*1 ≡ₚ entries → pool_moves p p' → steps_left p' < steps_left p.
Proof.
  intros Hl. apply (move_decreases _ _ stage_weight joint_weight); [| | | |done].
  - intros e w a b w' He Hh%not_halted Ha. by eapply work_less.
  - intros r. cbn. lia.
  - intros w w' [x Hn [c Hx]]. unfold joint_weight. cbn. rewrite Hn, Hx. lia.
  - intros c r w. change (joint_weight (set_bs (receive (fold_left gather c nothing) r (bs w)) w) ≤ joint_weight w). unfold receive. destruct (firstErr _), r; try done. by rewrite joint_weight_cancel.
Qed.

Lemma uploading_works p i e k : crew p !! i = Some (Busy e (Uploading k)) → can_work backup_routine p.
Proof.
  intros Hi. destruct (uploadPart run k e (bs (world p))) as [r s] eqn:E. exists i, e, (Uploading k). eexists _, _.
  split; [done|]. by apply work_upload with (r := r).
Qed.

(** Nobody waits for ever: a goroutine that waits has a running upload to
    wait for. *)
Lemma busy_works p i e q :
  workers_ok (ledger p) (world p) → crew p !! i = Some (Busy e q) → (∃ r, q = Sending r) ∨ can_work backup_routine p.
Proof.
  intros [Hst Hup] Hi. assert (stage_ok (flights (bs (world p))) (e, q)) as Hok.
  { rewrite Forall_forall in Hst. by eapply Hst, busy_ledger. }
  assert (∀ q' w, work e (world p) q q' w → can_work backup_routine p) as Hgo by (intros q' w ?; by exists i, e, q, q', w).
  destruct q as [| |k|k|k|r|r]; [right..|by left; eauto].
  - destruct (run_cause (bs (world p))) as [c|] eqn:Ec; [by eapply Hgo, work_cancelled|].
    destruct (isDirEntry e) eqn:Ed; [by eapply Hgo, work_dir|by eapply Hgo, work_file].
  - destruct (entry_key e (bs (world p))) as [r s] eqn:E. by eapply Hgo, work_key.
  - destruct (flights (bs (world p)) !! k) as [f|] eqn:Ek; [by eapply Hgo, work_join|by eapply Hgo, work_first].
  - by eapply uploading_works.
  - destruct Hok as (_ & _ & [[r|] Hk]); cbn in Hk; [by eapply Hgo, work_woken|].
    apply (uo_running _ _ Hup) in Hk. apply list_elem_of_bind in Hk as ([e' q'] & Hk & Hin).
    destruct q'; try by apply elem_of_nil in Hk. apply list_elem_of_singleton in Hk as ->.
    apply ledger_busy in Hin as [j Hj]; [by eapply uploading_works|done..].
  - destruct r as [[k rec]|c]; eapply Hgo; [apply work_ok|apply work_failed].
Qed.

Lemma workers_not_stuck n s p :
  flights s = ∅ → reaches n s p → fatal (world p) = None → ¬ all_gone p → ∃ p', pool_moves p p'.
Proof.
  intros Hs Hr Hf%not_halted. apply not_stuck; [by eapply ledger_tasks| |done].
  intros i e q Hi. eapply busy_works; [by eapply reaches_ok|done].
Qed.

Lemma workers_end n s p :
  flights s = ∅ → reaches n s p → ∃ p', rtc pool_moves p p' ∧ (all_gone p' ∨ fatal (world p') ≠ None).
Proof.
  intros Hs Hr. destruct (reaches_end backup_routine entries steps_left n (begun s) p) as (p' & Hm & [?|Hh]); [..|exists p'; by auto|].
  - apply step_decreases.
  - intros q Hq Hh%not_halted. by eapply workers_not_stuck.
  - done.
  - exists p'. split; [done|right]. intros Hf%not_halted. congruence.
Qed.

End Pool.

(** ** What the gathering loop reports *)

Lemma gather_progressed rs g :
  (progressed g).*1 = seqZ 1 (doneCount g) → (0 ≤ doneCount g)%Z →
  let g' := fold_left gather rs g in (progressed g').*1 = seqZ 1 (doneCount g') ∧ (0 ≤ doneCount g')%Z.
Proof.
  revert g. induction rs as [|r rs IH]; intros g Hp H0; [done|]. cbn [fold_left]. apply IH.
  - unfold gather. destruct (firstErr g), r; try done; cbn; rewrite fmap_app, Hp; cbn;
      rewrite seqZ_app by lia; cbn; by rewrite (Z.add_comm 1).
  - unfold gather. destruct (firstErr g), r; cbn; lia.
Qed.

Lemma pool_size_zero {A} c (l : list A) : pool_size c (length l) = 0 → l = [].
Proof. unfold pool_size. destruct (Z.leb_spec c 0), l; cbn; first [done|lia]. Qed.

(** ** Properties *)

Section Properties.
Context (entries : list SourceEntry) (Concurrency : Z).
Abbreviation reaches s := (reaches backup_routine entries (pool_size Concurrency (length entries)) (begun s)).

(** C12. The pool always finishes: from every state it can get into, whoever
    is scheduled and whenever the caller cancels, it takes a bounded number of
    further steps, it is never stuck before all workers have left and all
    results have been received (or a goroutine has panicked), and it can get
    there.  The sources must not revive the caller's context. *)
Theorem pool_terminates s p :
  Forall steady entries → flights s = ∅ → reaches s p →
  (∀ m p', nsteps (pool_moves backup_routine entries) m p p' → m ≤ steps_left p) ∧
  (fatal (world p) = None → ¬ all_gone backup_routine p → ∃ p', pool_moves backup_routine entries p p') ∧
  ∃ p', rtc (pool_moves backup_routine entries) p p' ∧ (all_gone backup_routine p' ∨ fatal (world p') ≠ None).
Proof.
  intros Hst Hs Hr. split_and!; [intros m p'; apply moves_bounded; [by apply step_decreases|by eapply ledger_tasks]|by eapply workers_not_stuck|by eapply workers_end].
Qed.

(** C11. When the pool has finished, in whatever order its workers ran, the
    gathering loop has received exactly one result for every entry (a
    directory for a directory, a key for a file, or an error); no key was
    uploaded twice, and none that the metadata already knew; all results
    for a key carry the one record of the metadata or of its upload; and the
    calls of the progress callback counted up from one without a gap. *)
Theorem pool_results s p :
  flights s = ∅ → reaches s p → all_gone backup_routine p →
  let g := fold_left gather (collected p).*2 nothing in
  (collected p).*1 ≡ₚ entries ∧ Forall (λ x, answers x.1 x.2) (collected p) ∧
  NoDup (started (world p)) ∧ (∀ k, k ∈ started (world p) → existing run !! k = None) ∧
  (∀ q k rec, ResFile q k rec ∈ (collected p).*2 →
     existing run !! k = Some rec ∨ k ∈ started (world p) ∧ flights (bs (world p)) !! k = Some (Some (inl rec))) ∧
  (progressed g).*1 = seqZ 1 (doneCount g).
Proof.
  intros Hs Hr Hg g. destruct (reaches_ok _ _ _ _ Hs Hr) as [Hst Hup].
  rewrite (final_ledger _ _ _ _ _ (pool_size_zero _ _) Hr Hg), Forall_fmap in Hst.
  split_and!; [by eapply final_tasks; [apply pool_size_zero|..]|by eapply Forall_impl; [exact Hst|]; intros x [? _]|apply Hup|apply Hup| |].
  - intros q k rec ([e r] & Er & Hin)%list_elem_of_fmap. cbn in Er. subst r. rewrite Forall_forall in Hst. destruct (Hst _ Hin) as [_ Hrec].
    destruct (Hrec _ _ _ eq_refl) as [?|[_ ?]]; [by left|right]. split; [|done]. apply (uo_all _ _ Hup). eauto.
  - by apply gather_progressed.
Qed.

End Properties.
End Workers.

(** ** Two workers and one content, for evaluation *)

Module PoolExample.

Definition sources : SourceWorld := {| src := unit; ctx_Err _ := None |}.
Program Definition chunking : Chunking := {| chunks b := [b] |}.
Next Obligation. intros b. cbn. apply app_nil_r. Qed.
Existing Instances sources chunking ToyZip.zip Mem.storage.

Definition entry (p : string) : SourceEntry :=
  {| Path := p; Size := 1; se_CompressedSize := 0; se_LastModified := 0; se_CRC32 := 3904355907; IsDir := false;
     Open := Some (λ x, (Ok ([x61], None), x)); IsEncryptedRaw := false; OpenRaw := None; CompressionMethod := 8;
     OpenRawCompressed := None |}.
Definition entries : list SourceEntry := [entry "a"; entry "b"].
Definition key : string := "e8b7be43_1".
Definition run : backupRun :=
  {| run_opts := {| opt_Label := ""; SingleVersionMode := false; FilterFunc := None; opt_Concurrency := 0; opt_KeyID := "";
       opt_PublicKeys := ∅; EphPublicKey := []; EncryptedPassword := []; CompressionLevel := None;
       GetCompressionLevel := None; CustomVersionID := 0; CustomBackupTimestamp := None |};
     compMethod := 8; compLevel := -1; ephPubKey := []; encryptedZipPass := []; clearZipPass := "secret"; run_keyID := "";
     existing := ∅ |}.
Definition start : bstate := open_run ({| Mem.objects := ∅; Mem.writers := []; Mem.schedule := [] |} : @store Mem.storage) tt.
Definition uploaded : res FileRecord * bstate := uploadPart run key (entry "a") (set_flight key None start).
Definition record : FileRecord := ok_or (new_record run (entry "") 0 0 0) uploaded.1.

Lemma upload_a : uploadPart run key (entry "a") (set_flight key None start) = (Ok record, uploaded.2).
Proof.
  assert (is_ok uploaded.1 = true) as H by (vm_compute; reflexivity). revert H. unfold record. fold uploaded.
  by destruct uploaded as [[] ?].
Qed.

Ltac settle := unfold set_crew, set_queue, set_world, send_result, collect, set_bs; cbn -[uploadPart entry_key start record uploaded key].
Tactic Notation "next" uconstr(c) := settle; eapply rtc_l; [split; [reflexivity|eapply c; try reflexivity]|].
Tactic Notation "does" constr(i) uconstr(c) := next (move_work _ _ _ i); [eapply c; try reflexivity|].

(** The second worker waits for the upload of the first. *)
Lemma finished_run : ∃ p, reaches (backup_routine run) entries (pool_size 0 (length entries)) (begun start) p ∧
  all_gone (backup_routine run) p ∧ (collected p).*2 = [ResFile "b" key record; ResFile "a" key record] ∧
  started (world p) = [key].
Proof.
  eexists. split; [unfold reaches|].
  - next (move_take _ _ _ 0). next (move_take _ _ _ 1). does 0 work_file. does 1 work_file.
    next (move_work _ _ _ 0); [by eapply (work_key _ _ _ (Ok key) start)|]. next (move_work _ _ _ 1); [by eapply (work_key _ _ _ (Ok key) start)|].
    does 0 work_first. does 1 work_join. next (move_work _ _ _ 0); [eapply (work_upload _ _ _ key (Ok record)); exact upload_a|].
    does 1 (work_woken _ _ _ _ (inl record)). does 1 work_ok. does 0 work_ok.
    next (move_answer _ _ _ 1); [cbn; lia|]. next (move_answer _ _ _ 0); [cbn; lia|].
    next (move_leave _ _ _ 0). next (move_leave _ _ _ 1). next move_collect. next move_collect. settle. reflexivity.
  - split; [split; [|split]|split]; cbn -[key record uploaded start]; repeat constructor.
Qed.

End PoolExample.

Section Witnesses.
Import PoolExample.
#[local] Existing Instances sources chunking ToyZip.zip Mem.storage.
Abbreviation rt := (backup_routine run).

Lemma pool_terminates_witness :
  let p : pool SourceEntry stage backupResult joint := start_pool entries 2 (begun start) in
  (∀ m p', nsteps (pool_moves rt entries) m p p' → m ≤ 20) ∧ (∃ p', pool_moves rt entries p p') ∧
  ∃ p', rtc (pool_moves rt entries) p p' ∧ (all_gone rt p' ∨ fatal (world p') ≠ None).
Proof.
  intros p. assert (Forall steady entries) as Hst by (repeat constructor; intros open _ x r x' _ c H; discriminate H).
  destruct (pool_terminates run entries 0 start p Hst eq_refl (rtc_refl _ _)) as (Hb & Hs & He).
  split; [exact Hb|]. split; [|exact He]. apply Hs; [reflexivity|]. intros (_ & Hg & _). inversion Hg. discriminate.
Defined.

Lemma pool_results_witness :
  ∃ p : pool SourceEntry stage backupResult joint, (collected p).*2 = [ResFile "b" key record; ResFile "a" key record] ∧ (collected p).*1 ≡ₚ entries ∧
    started (world p) = [key] ∧ NoDup (started (world p)) ∧
    flights (bs (world p)) !! key = Some (Some (inl record)).
Proof.
  destruct finished_run as (p & Hr & Hg & Hc & Hs). exists p. split; [exact Hc|].
  destruct (pool_results run entries 0 start p eq_refl Hr Hg) as (Ht & _ & Hnd & _ & Hrec & _).
  split; [exact Ht|]. split; [exact Hs|]. split; [exact Hnd|]. destruct (Hrec "a" key record) as [H|[_ H]].
  - rewrite Hc. right. left.
  - discriminate H.
  - exact H.
Defined.

End Witnesses.
