(* ===== verification/BackupPool.v ===== *)
(** [RunBackup] with its goroutines, and the backup that takes one entry after
    the other as one of its runs. *)

From S2P Require Import Prelude Errors GoStrings Keys Digest Metadata Store Crypto Upload Backup Pool Workers.
#[local] Open Scope Z_scope.

(** ** The run *)

Section Run.
Context {PR : Proto} {MR : MapRange} {ST : Storage} {SW : SourceWorld} {CK : Chunking} {ZP : ZipParts} {BX : Box}.

(** Phases 5 and 6: the channels, the goroutines and the gathering loop, which
    ends when all goroutines have left; or a goroutine panics. *)
Inductive workers_run (run : backupRun) (entries : list SourceEntry) (Concurrency : Z) (s : bstate) : res gathered → bstate → Prop :=
| workers_died p r : reaches (backup_routine run) entries (pool_size Concurrency (length entries)) (begun s) p →
    fatal (world p) = Some r → workers_run run entries Concurrency s r (bs (world p))
| workers_left p : reaches (backup_routine run) entries (pool_size Concurrency (length entries)) (begun s) p →
    all_gone (backup_routine run) p →
    workers_run run entries Concurrency s (Ok (fold_left gather (collected p).*2 nothing)) (bs (world p)).

(** [RunBackup]. *)
Definition RunBackup_run (env : environment) (ListEntries : M src (list SourceEntry)) (opts : BackupOptions) : runs bstate Version :=
  then_run (det (plan_backup env ListEntries opts)) (λ p,
  then_run (workers_run (pl_run p) (pl_entries p) (opt_Concurrency opts)) (λ g,
  det (complete env opts p g))).

(** What the workers of a run may gather, and the state they leave. *)
Definition gathers (env : environment) (ListEntries : M src (list SourceEntry)) (opts : BackupOptions) (s : bstate)
    (g : gathered) (s1 : bstate) : Prop :=
  ∃ p s0, plan_backup env ListEntries opts s = (Ok p, s0) ∧
    workers_run (pl_run p) (pl_entries p) (opt_Concurrency opts) s0 (Ok g) s1.

(** A panic is not a result. *)
Lemma fatal_not_ok run entries n s p r :
  reaches (backup_routine run) entries n (begun s) p → fatal (world p) = Some r → ∀ g, r ≠ Ok g.
Proof.
  intros Hr. revert r. refine (world_ind _ entries (λ w, ∀ r, fatal w = Some r → ∀ g, r ≠ Ok g) n (begun s) p _ _ Hr); [done|].
  intros l w l' w' Hw [l1 E|e a b rest l1 w1 E Ha E'|l1 e r c E _|l1 w1 E [x _ _]]; [done| |done..].
  destruct Ha as [c Hc|Hc Hd|Hc Hd|r b Hk|k Hk|k f Hk|k r b Hu|k r Hk|k c Hc|k rec|c]; try done.
  - destruct r as [k|e1| |]; cbn; [by destruct (existing run !! k)|done|by intros r [= <-]..].
  - destruct r as [rec|e1| |]; cbn; [done..|by intros r [= <-]|by intros r [= <-]].
Qed.

(** ** One entry after the other *)

Section Simulation.
Context (run : backupRun).
Abbreviation rt := (backup_routine run).
Abbreviation task_moves := (task_moves rt).

(** No upload is running. *)
Definition idle (s : bstate) : Prop := ∀ k, flights s !! k ≠ Some None.

Lemma idle_same s s' : flights s' = flights s → idle s → idle s'.
Proof. unfold idle. by intros ->. Qed.
Lemma idle_after k r s : (∀ j, j ≠ k → flights s !! j ≠ Some None) → idle (set_flight k (Some r) s).
Proof. intros H j. cbn. destruct (decide (k = j)) as [->|]; [by rewrite lookup_insert_eq|]. rewrite lookup_insert_ne by done. auto. Qed.

(** How a computation leaves the pool. *)
Definition ends_as {A} (r : res A) (w : joint) : Prop :=
  match r with Ok _ | Err _ => fatal w = None | Panic => fatal w = Some Panic | OutOfFuel => fatal w = Some OutOfFuel end.

(** What a computation of an entry comes to: it is done, or has panicked. *)
Definition returns_as (key : string) (r : res FileRecord) (p : stage) : Prop :=
  match r with Ok rec => p = Returned (inl (key, rec)) | Err e => p = Returned (inr e) | _ => True end.

Lemma live w : fatal w = None → rt_halted rt w = false.
Proof. by intros ?%(not_halted run). Qed.
#[local] Hint Resolve live : core.

Lemma uploadOnce_moves e key w r s' :
  fatal w = None → idle (bs w) → uploadOnce run key e (bs w) = (r, s') →
  ∃ p w', task_moves e (Keyed key, w) (p, w') ∧ bs w' = s' ∧ ends_as r w' ∧ returns_as key r p ∧ (fatal w' = None → idle s').
Proof.
  intros Hf Hidle. unfold uploadOnce. destruct (flights (bs w) !! key) as [[r0|]|] eqn:Ek; [|by destruct (Hidle key)|].
  - intros H. exists (Returned (with_key key r0)), w. split.
    { eapply task_move; [by auto|by eapply work_join|]. eapply task_move; [by auto|by eapply work_woken|reflexivity]. }
    destruct r0; injection H as <- <-; done.
  - destruct (uploadPart run key e (set_flight key None (bs w))) as [r1 s1] eqn:Eu.
    pose proof (uploadPart_calm _ _ _ _ _ _ Eu) as [Ef _].
    assert (∀ x, task_moves e (after_upload key r1 (set_bs s1 (begin_upload key w))) x → task_moves e (Keyed key, w) x) as Hgo.
    { intros x Hx. eapply task_move; [by auto|by apply work_first|]. eapply task_move; [by auto|by eapply work_upload|].
      by rewrite <- surjective_pairing. }
    assert (∀ x, idle (set_flight key (Some x) s1)) as Hid.
    { intros x. apply idle_after. intros j Hj. rewrite Ef. cbn. by rewrite lookup_insert_ne. }
    destruct r1 as [rec|e1| |]; intros [= <- <-]; eexists _, _; (split; [apply Hgo; cbn; reflexivity|]); by split_and!.
Qed.

Lemma processFile_moves e w r s' :
  fatal w = None → idle (bs w) → processFile run e (bs w) = (r, s') →
  ∃ p w', task_moves e (Checked, w) (p, w') ∧ bs w' = s' ∧ ends_as r w' ∧ (fatal w' = None → idle s') ∧
    match r with Ok x => p = Returned (inl x) | Err c => p = Returned (inr c) | _ => True end.
Proof.
  intros Hf Hidle. unfold processFile, bind at 1. destruct (entry_key e (bs w)) as [rk s1] eqn:Ek.
  pose proof (entry_key_calm _ _ _ _ Ek) as [Ef _]. apply (idle_same _ _ Ef) in Hidle.
  assert (∀ x, task_moves e (after_key run rk (set_bs s1 w)) x → task_moves e (Checked, w) x) as Hgo.
  { intros x Hx. eapply task_move; [by auto|by eapply work_key|]. by rewrite <- surjective_pairing. }
  destruct rk as [key|e1| |]; [|intros [= <- <-]; eexists _, _; (split; [apply Hgo; cbn; reflexivity|]); by split_and!..].
  cbn [after_key] in Hgo. destruct (existing run !! key) as [rec|] eqn:Ex.
  - intros [= <- <-]. eexists _, _. split; [apply Hgo; cbn; reflexivity|]. by split_and!.
  - unfold bind. destruct (uploadOnce run key e s1) as [r1 s2] eqn:Eu.
    destruct (uploadOnce_moves e key (set_bs s1 w) r1 s2 Hf Hidle Eu) as (p & w' & Hm & Hs & He & Hr & Hi).
    intros H. exists p, w'. split; [by apply Hgo|]. destruct r1; injection H as <- <-; by cbn in *; simplify_eq.
Qed.

Lemma process_moves e w r s' :
  fatal w = None → idle (bs w) → process run e (bs w) = (r, s') →
  ∃ p w', task_moves e (Fetched, w) (p, w') ∧ bs w' = s' ∧ ends_as r w' ∧ (fatal w' = None → idle s') ∧
    match r with Ok x => p = Sending x | Err _ => False | _ => True end.
Proof.
  intros Hf Hidle. unfold process. destruct (run_cause (bs w)) as [c|] eqn:Ec.
  { intros [= <- <-]. eexists _, w. split; [eapply task_move; [by auto|by apply work_cancelled|reflexivity]|]. by split_and!. }
  destruct (isDirEntry e) eqn:Ed.
  { intros [= <- <-]. eexists _, w. split; [eapply task_move; [by auto|by apply work_dir|reflexivity]|]. by split_and!. }
  destruct (processFile run e (bs w)) as [r1 s1] eqn:Ep.
  destruct (processFile_moves _ _ _ _ Hf Hidle Ep) as (p & w1 & Hm & Hs & He & Hi & Hr).
  assert (task_moves e (Fetched, w) (p, w1)) as Hm1 by (eapply task_move; [by auto|by apply work_file|done]).
  destruct r1 as [[k rec]|e1| |]; intros [= <- <-]; subst; cbn in He.
  - eexists _, w1. split; [etransitivity; [exact Hm1|]; eapply task_move; [by auto|apply work_ok|reflexivity]|]. by split_and!.
  - eexists _, _. split; [etransitivity; [exact Hm1|]; eapply task_move; [by auto|apply work_failed|reflexivity]|].
    split_and!; [done..| |done]. intros _. eapply idle_same; [apply cancel_flights|auto].
  - exists p, w1. by split_and!.
  - exists p, w1. by split_and!.
Qed.

Section Tasks.
Context (tasks : list SourceEntry).
Abbreviation moves := (rtc (pool_moves rt tasks)).

Lemma run_tasks_moves k ts w c r s' :
  fatal w = None → idle (bs w) → tasks ≠ [] → run_tasks run ts (fold_left gather c.*2 nothing) (bs w) = (r, s') →
  ∃ g ts' w' c', moves (single Free k ts w c) (single g k ts' w' c') ∧ bs w' = s' ∧ ends_as r w' ∧
    match r with Ok x => g = Free ∧ ts' = [] ∧ x = fold_left gather c'.*2 nothing | Err _ => False | _ => True end.
Proof.
  intros Hf Hidle Hne. revert w c r s' Hf Hidle. induction ts as [|e ts IH]; intros w c r s' Hf Hidle; cbn [run_tasks].
  { intros [= <- <-]. by exists Free, [], w, c. }
  pose proof (single_take rt tasks e ts w k c (live _ Hf)) as Htake.
  unfold bind at 1. destruct (process run e (bs w)) as [r1 s1] eqn:E1.
  destruct (process_moves _ _ _ _ Hf Hidle E1) as (p & w1 & Hm & <- & He & Hi & Hp).
  apply (single_task rt tasks _ _ _ _ _ k ts c) in Hm. assert (Hm1 := transitivity Htake Hm). destruct r1 as [x|e1| |]; [|done|..].
  - subst p. cbn in He. unfold bind.
    set (w2 := rt_on_result rt c.*2 x w1). pose proof (single_answer rt tasks e x w1 k ts c (live _ He) Hne) as Hans. fold w2 in Hans.
    assert (gather (fold_left gather c.*2 nothing) x = fold_left gather (c ++ [(e, x)]).*2 nothing) as ->
      by (by rewrite fmap_app, fold_left_app).
    change (receive _ x (bs w1)) with (bs w2). intros H. destruct (IH w2 (c ++ [(e, x)]) r s') as (g & ts' & w' & c' & Hm2 & Hrest); [done| |done|].
    + eapply idle_same; [apply receive_flights|auto].
    + exists g, ts', w', c'. split; [by do 2 (etransitivity; [eassumption|])|exact Hrest].
  - intros [= <- <-]. by exists (Busy e p), ts, w1, c.
  - intros [= <- <-]. by exists (Busy e p), ts, w1, c.
Qed.

End Tasks.

(** A backup that takes one entry after the other is a run of the workers. *)
Lemma sequential_workers entries c s r s' :
  flights s = ∅ → run_tasks run entries nothing s = (r, s') → workers_run run entries c s r s'.
Proof.
  intros Hs H. assert (idle (begun s).(bs)) as Hidle by (intros k; cbn; by rewrite Hs).
  destruct (decide (entries = [])) as [->|Hne].
  { injection H as <- <-. apply (workers_left run [] c s (start_pool [] 0 (begun s))); [|by split_and!].
    unfold reaches, pool_size. rewrite Nat.min_0_r. reflexivity. }
  destruct (pool_size c (length entries)) as [|k] eqn:En; [by apply pool_size_zero in En|].
  assert (start_pool entries (pool_size c (length entries)) (begun s) = (single Free k entries (begun s) [] : pool SourceEntry stage backupResult joint)) as Hstart by (by rewrite En).
  destruct (run_tasks_moves entries k entries (begun s) [] r s') as (g & ts' & w' & c' & Hm & <- & He & Hr); [done..|].
  rewrite <- Hstart in Hm. destruct r as [x|e| |]; [|done|..].
  - destruct Hr as (-> & -> & ->). destruct (all_leave rt entries 0 (S k) w' c' (live _ He)) as (p & Hm2 & Hg & <- & <-).
    apply workers_left; [|done]. unfold reaches. by etransitivity.
  - by apply (workers_died run entries c s (single g k ts' w' c')).
  - by apply (workers_died run entries c s (single g k ts' w' c')).
Qed.

End Simulation.

#[local] Existing Instance calm_preorder.
#[local] Hint Resolve calm_store calm_src : keeps.

Lemma plan_calm env L opts : keeps calm (plan_backup env L opts).
Proof. unfold plan_backup, load_or_init. keep. Qed.

Lemma RunBackup_is_run env L opts st x r s' :
  RunBackup env L opts (open_run st x) = (r, s') → RunBackup_run env L opts (open_run st x) r s'.
Proof.
  unfold RunBackup, RunBackup_run. unfold bind at 1. destruct (plan_backup env L opts (open_run st x)) as [rp s1] eqn:Ep.
  pose proof (plan_calm _ _ _ _ _ _ Ep) as [Hf _].
  destruct rp as [p|e| |]; [|intros [= <- <-]; by apply (then_stop_as _ _ _ _ _ _ Ep)..].
  intros H. eapply then_next; [exact Ep|]. revert H. apply then_run_bind; [|done].
  intros rg s2. by apply sequential_workers.
Qed.

End Run.
