(* ===== verification/BackupSpec.v ===== *)
(** The specification of a backup run with its goroutines: what is in the
    storage and in the metadata after it, whether it succeeds or fails. *)

From S2P Require Import Prelude Errors GoStrings Keys Digest Metadata ProtoExample.
From S2P Require Import TreeWalk TreeResolve TreeCollect TreeBuild TreeHash Store Client Crypto Upload Backup Pool Workers BackupPool.
#[local] Open Scope Z_scope.

(** ** Keys of contents *)

Definition content_key (k : string) : Prop := ∃ crc size, k = fileKeyFor crc size.

Lemma fmt_d_word z : forallb word_char (chars (fmt_d z)) = true.
Proof.
  destruct (Z.leb_spec 0 z) as [Hz|Hz]; [by apply digit_word, fmt_d_digits|].
  destruct z as [|q|q]; [lia..|]. change (fmt_d (Zneg q)) with ("-" +:+ pretty (Npos q)). rewrite chars_app.
  change (chars "-" ++ chars (pretty (Npos q))) with ("-"%char :: chars (pretty (Npos q))). cbn [forallb].
  destruct (pretty_N_digits (Npos q)) as [_ Hd]. by rewrite (digit_word _ Hd).
Qed.

Lemma content_key_part k : content_key k → ∃ pk, partKeyFor k = Ok pk ∧ relative pk.
Proof.
  intros (crc & size & ->). rewrite partKeyFor_fileKeyFor. eexists. split; [done|].
  pose proof (hex_digits_lower 8 crc) as Hl. pose proof (length_hex_digits 8 crc) as Hn. pose proof (hex_word _ Hl) as Hw.
  pose proof (chars_fileKeyFor crc size) as Hk. destruct (hex_digits 8 crc) as [|a [|b l]]; [done..|]. cbn [take app] in *.
  pose proof Hl as Hl'. cbn [forallb] in Hl', Hw. apply andb_true_iff in Hl' as [? [? _]%andb_true_iff].
  apply andb_true_iff in Hw as [Ha [Hb Hw]%andb_true_iff].
  eapply relative_part; [done|exact Hk|done|done|cbn [forallb]; by rewrite Ha, Hb|].
  rewrite Hk. cbn [forallb]. rewrite Ha, Hb. rewrite forallb_app, Hw. cbn. apply fmt_d_word.
Qed.

(** What makes a store usable: every record is filed under its own key, and
    its part object is there. *)
Record sound (md : BackupMetadata) (v : gmap string bytes) : Prop := {
  so_keyed : ∀ k rec, Files md !! k = Some rec → fileKeyFor (Crc32 rec) (UncompressedSize rec) = k;
  so_parts : ∀ k rec, Files md !! k = Some rec → ∃ n, partKeyFor k = Ok n ∧ is_Some (v !! n);
}.

Section Spec.
Context {PR : Proto} {MR : MapRange} {ST : Storage} {SL : StorageLaws} {SW : SourceWorld} {CK : Chunking}.
Context {ZP : ZipParts} {ZL : ZipPartsLaws} {BX : Box}.

(** ** One entry *)

(** The widths of the fields of an entry. *)
Definition entry_typed (e : SourceEntry) : Prop :=
  is_u32 (se_CRC32 e) ∧ is_i64 (Size e) ∧ is_i64 (se_CompressedSize e).

Lemma zip_object_typed create cs out fh : zip_object create cs = Ok (out, fh) → is_u32 (fh_CRC32 fh).
Proof.
  unfold zip_object. intros (h & _ & (x & _ & ([b f] & Ht & [= <- <-])%obind_Ok)%obind_Ok)%obind_Ok.
  by eapply part_Close_typed.
Qed.

Lemma part_object_typed run e m l b out crc size comp :
  entry_typed e → part_object run e m l b = Ok (out, (crc, size, comp)) → is_u32 crc ∧ is_i64 size ∧ is_i64 comp.
Proof.
  intros (? & ? & ?). unfold part_object. destruct (IsEncryptedRaw e).
  - destruct (_ <? _); [done|]. by intros [= <- <- <- <-].
  - destruct (OpenRawCompressed e); intros (x & Hx & [= <- <- <- <-])%obind_Ok.
    + split_and!; [done|done|apply i64_bounds].
    + destruct x as [o fh]. apply zip_object_typed in Hx. split_and!; [done|apply i64_bounds..].
Qed.

Section Run.
Context (run : backupRun) (v0 : gmap string bytes).

(** [b] is the whole object that some entry's content stands for, and the
    CRC-32 and size of that content are those in the name [k]. *)
Definition part_of (k : string) (b : bytes) : Prop :=
  ∃ entry method level content crc size comp,
    part_object run entry method level content = Ok (b, (crc, size, comp)) ∧ fileKeyFor crc size = k.

(** The part of [k], a content this run is the first to store, is there. *)
Definition new_part (v : gmap string bytes) (k n : string) : Prop :=
  content_key k ∧ existing run !! k = None ∧ partKeyFor k = Ok n ∧ ∃ b, v !! n = Some b ∧ part_of k b.

(** A record is usable: it came with the metadata, or its part was stored by
    this run. *)
Definition file_ok (v : gmap string bytes) (k : string) (rec : FileRecord) : Prop :=
  existing run !! k = Some rec ∨
  fileKeyFor (Crc32 rec) (UncompressedSize rec) = k ∧ record_canonical rec ∧ ∃ n, new_part v k n.

(** What holds throughout the worker phase that started in [v0]: only parts
    of new keys have been touched, none has been removed, and every finished
    upload is usable. *)
Definition touched (v : gmap string bytes) : Prop := ∀ n, v !! n = v0 !! n ∨ ∃ k, new_part v k n.
Definition run_inv (s : bstate) : Prop :=
  inv (b_store s) ∧ touched (view (b_store s)) ∧
  (∀ k rec, flights s !! k = Some (Some (inl rec)) → existing run !! k = None → file_ok (view (b_store s)) k rec).

(** New parts stay. *)
Definition grows (v v' : gmap string bytes) : Prop := ∀ n, v' !! n = v !! n ∨ ∃ k, new_part v' k n.

Lemma grows_refl v : grows v v.
Proof. intros n. by left. Qed.

Lemma new_part_grows v v' k n : grows v v' → new_part v k n → new_part v' k n.
Proof.
  intros Hg (Hk & He & Hn & b & Hb & Hp). destruct (Hg n) as [Heq|(k' & Hnew)].
  - split_and!; [done..|]. exists b. by rewrite Heq.
  - destruct Hnew as (? & ? & Hn' & ?). by rewrite (partKeyFor_inj _ _ _ Hn Hn') in *.
Qed.

Lemma grows_trans v1 v2 v3 : grows v1 v2 → grows v2 v3 → grows v1 v3.
Proof.
  intros H1 H2 n. destruct (H2 n) as [->|?]; [|by right]. destruct (H1 n) as [->|(k & Hk)]; [by left|].
  right. exists k. by eapply new_part_grows.
Qed.

Lemma file_ok_grows v v' k rec : grows v v' → file_ok v k rec → file_ok v' k rec.
Proof. intros Hg [?|(? & ? & n & ?)]; [by left|right]. split_and!; [done..|]. exists n. by eapply new_part_grows. Qed.

Lemma grows_insert v k n b : new_part (<[n := b]> v) k n → grows v (<[n := b]> v).
Proof. intros Hk m. destruct (decide (n = m)) as [<-|]; [eauto|left; by rewrite lookup_insert_ne]. Qed.

(** Changes to neither the storage nor the uploads. *)
Lemma run_inv_same s s' :
  inv (b_store s') → view (b_store s') = view (b_store s) → flights s' = flights s → run_inv s → run_inv s'.
Proof. unfold run_inv. intros ? -> ->. naive_solver. Qed.

Lemma uploadPart_run key e s r s' :
  entry_typed e → content_key key → existing run !! key = None → run_inv s → uploadPart run key e s = (r, s') →
  run_inv s' ∧ grows (view (b_store s)) (view (b_store s')) ∧ flights s' = flights s ∧
  ∀ rec, r = Ok rec → file_ok (view (b_store s')) key rec.
Proof.
  intros Ht Hck Hex (Hi & Hv & Hfl) H. destruct (content_key_part _ Hck) as (pk & Hpk & Hrel).
  destruct (uploadPart_spec _ _ _ _ _ _ _ Hi Hpk Hrel H) as (Hi' & [Hf Hc] & Hcase).
  assert (∀ v, uploaded run key pk e v (view (b_store s')) → new_part (view (b_store s')) key pk) as Hnew.
  { intros v (m & l & b & out & crc & size & comp & Hobj & Hkey & ->). split_and!; [done..|]. exists out.
    rewrite lookup_insert_eq. split; [done|]. by exists e, m, l, b, crc, size, comp. }
  assert (grows (view (b_store s)) (view (b_store s'))) as Hg.
  { destruct Hcase as [[-> _]|[Hup _]]; [apply grows_refl|]. pose proof (Hnew _ Hup) as Hk.
    destruct Hup as (m & l & b & out & crc & size & comp & _ & _ & E). rewrite E in Hk |- *. by eapply grows_insert. }
  assert (run_inv s') as Hri.
  { split; [done|]. split.
    - by apply (grows_trans _ _ _ Hv Hg).
    - rewrite Hf. intros k rec Hk Hn. eapply file_ok_grows; [done|]. by apply Hfl. }
  split_and!; [done..|]. intros rec Hrec. destruct Hcase as [[_ Hno]|[Hup Hok]]; [by destruct (Hno rec)|].
  destruct (Hok rec Hrec) as (open & rc & x & m & l & out & crc & size & comp & _ & _ & _ & Hobj & Hv' & -> & Hkey).
  right. split_and!; [done| |exists pk; by eapply Hnew].
  unfold record_canonical. simpl. by destruct (part_object_typed _ _ _ _ _ _ _ _ _ Ht Hobj) as (? & ? & ?).
Qed.

Lemma run_inv_flight key f s :
  (∀ rec, f = Some (inl rec) → file_ok (view (b_store s)) key rec) → run_inv s → run_inv (set_flight key f s).
Proof.
  intros Hok (Hi & Hv & Hfl). split_and!; [done..|]. cbn. intros k rec [[<- ->]|[_ Hk]]%lookup_insert_Some Hn; auto.
Qed.

Lemma run_inv_cancel e s : run_inv s → run_inv (cancel e s).2.
Proof. intros H. unfold cancel. cbn. destruct (cause s); [done|]. by eapply run_inv_same; [..|exact H]; try done; apply H. Qed.

Lemma run_inv_receive g r s : run_inv s → run_inv (receive g r s).
Proof. intros H. unfold receive. destruct (firstErr g), r; try done. by apply run_inv_cancel. Qed.

Lemma view_cancel e s : b_store (cancel e s).2 = b_store s.
Proof. unfold cancel. cbn. by destruct (cause s). Qed.
Lemma view_receive g r s : b_store (receive g r s) = b_store s.
Proof. unfold receive. destruct (firstErr g), r; try done. apply view_cancel. Qed.

Lemma entry_key_run e s r s' :
  run_inv s → entry_key e s = (r, s') →
  run_inv s' ∧ view (b_store s') = view (b_store s) ∧ ∀ k, r = Ok k → content_key k.
Proof.
  intros Hri. unfold entry_key. destruct (IsEncryptedRaw e).
  { destruct (OpenRaw e); intros [= <- <-]; split_and!; try done. intros k [= <-]. by eexists _, _. }
  destruct (_ || _). { intros [= <- <-]. split_and!; try done. intros k [= <-]. by eexists _, _. }
  destruct (Open e) as [open|]; [|by intros [= <- <-]; split_and!].
  assert (∀ r1 s1, on_src open s = (r1, s1) → run_inv s1 ∧ view (b_store s1) = view (b_store s)) as Hopen.
  { intros r1 s1 (_ & Est & Hf & _)%on_src_inv. rewrite Est. split; [|done].
    eapply run_inv_same; [..|exact Hri]; try done; rewrite Est; [apply Hri|done]. }
  intros [(rc & s1 & H%wrap_err_Ok%Hopen & Hr)|(r1 & H & _ & Hn & _)]%bind_inv.
  - destruct (rc.2); injection Hr as <- <-; destruct H; split_and!; try done. intros k [= <-]. by eexists _, _.
  - apply wrap_err_inv in H as (r2 & [? ?]%Hopen & _). split_and!; [done..|]. intros k Hk. by apply Hn in Hk.
Qed.

(** [k] is the key that the entry has, or had when it was read. *)
Definition has_key (e : SourceEntry) (k : string) : Prop := ∃ s s', entry_key e s = (Ok k, s').

(** ** The workers *)

(** What a result says about its entry. *)
Definition result_ok (v : gmap string bytes) (e : SourceEntry) (r : backupResult) : Prop :=
  match r with
  | ResDir p => p = Path e ∧ isDirEntry e = true
  | ResFile p k rec => p = Path e ∧ isDirEntry e = false ∧ file_ok v k rec ∧ has_key e k
  | ResErr p _ => p = Path e
  end.

Lemma result_ok_grows v v' e r : grows v v' → result_ok v e r → result_ok v' e r.
Proof. intros Hg. destruct r; simpl; try done. intros (? & ? & ? & ?). split_and!; [done..| |done]. by eapply file_ok_grows. Qed.

(** What is known of an entry while it is handled. *)
Definition item_ok (v : gmap string bytes) (x : SourceEntry * stage) : Prop :=
  match x.2 with
  | Fetched => True
  | Checked => isDirEntry x.1 = false
  | Keyed k | Uploading k | Waiting k => isDirEntry x.1 = false ∧ content_key k ∧ has_key x.1 k ∧ existing run !! k = None
  | Returned r => isDirEntry x.1 = false ∧ ∀ k rec, r = inl (k, rec) → file_ok v k rec ∧ has_key x.1 k
  | Sending r => result_ok v x.1 r
  end.

Lemma item_ok_grows v v' x : grows v v' → item_ok v x → item_ok v' x.
Proof.
  intros Hg. unfold item_ok. destruct x.2; try done.
  - intros [? Hr]. split; [done|]. intros k rec E. destruct (Hr k rec E). split; [by eapply file_ok_grows|done].
  - by apply result_ok_grows.
Qed.

Lemma work_run e a b w w' :
  entry_typed e → run_inv (bs w) → item_ok (view (b_store (bs w))) (e, a) → work run e w a b w' →
  run_inv (bs w') ∧ grows (view (b_store (bs w))) (view (b_store (bs w'))) ∧ item_ok (view (b_store (bs w'))) (e, b).
Proof.
  intros Ht Hri Hit Ha. set (v := view (b_store (bs w))) in *.
  assert (∀ q, item_ok v (e, q) → run_inv (bs w) ∧ grows v v ∧ item_ok v (e, q)) as Hstay
    by (intros q Hq; split; [done|split; [apply grows_refl|done]]).
  destruct Ha as [c Hc|Hc Hd|Hc Hd|r s Hk|k Hk|k f Hk|k r s Hu|k r Hk|k c Hc|k rec|c]; try (by apply Hstay);
    unfold item_ok in Hit; cbn [fst snd] in Hit.
  - destruct (entry_key_run _ _ _ _ Hri Hk) as (Hri1 & Hv & Hck).
    assert (grows v (view (b_store s))) as Hg by (rewrite Hv; apply grows_refl).
    destruct r as [k|e1| |]; cbn; [|by split..]. assert (has_key e k) as Hkey by (by exists (bs w), s).
    destruct (existing run !! k) as [rec|] eqn:Ex; cbn; (split; [done|split; [done|]]).
    + split; [done|]. intros k' rec' [= <- <-]. split; [by left|done].
    + split_and!; [done|by apply Hck|done..].
  - split; [by apply run_inv_flight|split; [apply grows_refl|done]].
  - destruct Hit as (Hd & Hck & Hkey & Hex). destruct (uploadPart_run _ _ _ _ _ Ht Hck Hex Hri Hu) as (Hri1 & Hg & _ & Hok).
    destruct r as [rec|e1| |]; cbn; (split; [|split; [done|]]); try done.
    + apply run_inv_flight; [|done]. intros rec' [= <-]. by apply Hok.
    + split; [done|]. intros k' rec' [= <- <-]. split; [by apply Hok|done].
    + by apply run_inv_flight.
  - destruct Hit as (Hd & Hck & Hkey & Hex). apply Hstay. split; [done|].
    intros k' rec' Hr. destruct r as [rec|]; [|done]. injection Hr as <- <-. split; [|done]. by apply Hri.
  - apply Hstay. by destruct Hit.
  - destruct Hit as (Hd & Hr). apply Hstay. destruct (Hr _ _ eq_refl). by split_and!.
  - cbn [bs cancel_run set_bs]. rewrite view_cancel. split; [by apply run_inv_cancel|split; [apply grows_refl|done]].
Qed.

(** What holds while the goroutines work. *)
Definition joint_ok (l : list (SourceEntry * stage)) (w : joint) : Prop :=
  Forall entry_typed l.*1 ∧ run_inv (bs w) ∧ Forall (item_ok (view (b_store (bs w)))) l.

Lemma joint_step l w l' w' : joint_ok l w → ledger_step (backup_routine run) l w l' w' → joint_ok l' w'.
Proof.
  intros (Ht & Hri & Hit) [l1 E|e a b rest l1 w1 E Ha E'|l1 e r c E _|l1 w1 E [x _ _]].
  - split; [by rewrite <- E|split; [done|by rewrite <- E]].
  - rewrite E in Ht, Hit. apply Forall_cons in Ht as [Hte Ht], Hit as [Hie Hit].
    destruct (work_run _ _ _ _ _ Hte Hri Hie Ha) as (Hri' & Hg & Hi'). split; [by rewrite E'; constructor|split; [done|]].
    rewrite E'. constructor; [done|]. eapply Forall_impl; [exact Hit|]. intros y. by apply item_ok_grows.
  - unfold joint_ok. cbn [bs set_bs rt_on_result backup_routine]. rewrite view_receive.
    split; [by rewrite <- E|split; [by apply run_inv_receive|by rewrite <- E]].
  - split; [by rewrite <- E|split; [|by rewrite <- E]]. by eapply run_inv_same; [..|exact Hri]; try done; apply Hri.
Qed.

(** What the workers leave, in whatever order they ran. *)
Lemma workers_run_spec entries c s r s' :
  Forall entry_typed entries → run_inv s → workers_run run entries c s r s' →
  run_inv s' ∧ ∀ g, r = Ok g → ∃ es rs, es ≡ₚ entries ∧ Forall2 (result_ok (view (b_store s'))) es rs ∧
    g = fold_left gather rs nothing.
Proof.
  intros Ht Hri H.
  assert (∀ p, reaches (backup_routine run) entries (pool_size c (length entries)) (begun s) p → joint_ok (ledger (backup_routine run) p) (world p)) as Hinv.
  { intros p. apply (ledger_ind _ _ joint_ok); [|by intros; eapply joint_step].
    split; [by rewrite <- list_fmap_compose, list_fmap_id|split; [done|]]. by apply Forall_fmap, Forall_true. }
  destruct H as [p r Hr Hf|p Hr Hg]; destruct (Hinv p Hr) as (_ & Hri' & Hit); (split; [done|]).
  - intros g ->. by destruct (fatal_not_ok _ _ _ _ _ _ Hr Hf g).
  - intros g [= <-]. exists (collected p).*1, (collected p).*2.
    split; [eapply final_tasks; [apply pool_size_zero|done..]|]. split; [|done].
    rewrite (final_ledger _ _ _ _ _ (pool_size_zero _ _) Hr Hg), Forall_fmap in Hit.
    apply Forall2_fmap, Forall_Forall2_diag. exact Hit.
Qed.

(** ** Gathering *)

(** What the gathered maps say about the entries handled so far. *)
Record gathered_from (v : gmap string bytes) (es : list SourceEntry) (g : gathered) : Prop := {
  ga_count : doneCount g = Z.of_nat (length es);
  ga_paths : ∀ p, is_Some (newPathToFileKey g !! p) ↔ ∃ e, e ∈ es ∧ Path e = p ∧ isDirEntry e = false;
  ga_keys : ∀ p k, newPathToFileKey g !! p = Some k → is_Some (newFilesPool g !! k) ∧
    ∃ e, e ∈ es ∧ Path e = p ∧ isDirEntry e = false ∧ has_key e k;
  ga_pool : ∀ k rec, newFilesPool g !! k = Some rec → file_ok v k rec;
  ga_dirs : ∀ d, d ∈ dom (dirPaths g) ↔ ∃ e, e ∈ es ∧ isDirEntry e = true ∧ d = TrimSuffix (Path e) "/";
}.

Lemma gathered_nothing v : gathered_from v [] nothing.
Proof.
  split; simpl; try done.
  - intros p. rewrite lookup_empty. split; [by intros []|]. by intros (e & ?%elem_of_nil & _).
  - intros d. rewrite dom_empty. split; [set_solver|]. by intros (e & ?%elem_of_nil & _).
Qed.

Lemma gathered_step v es g e r :
  result_ok v e r → firstErr (gather g r) = None → gathered_from v es g → gathered_from v (es ++ [e]) (gather g r).
Proof.
  intros Hr Hn [Hc Hp Hk Hpl Hd]. unfold gather in *. revert Hn. destruct (firstErr g) eqn:Ef; [congruence|]. intros Hn.
  destruct r as [p|p k rec|p err]; simpl in Hr, Hn; [destruct Hr as [-> Hdir]|destruct Hr as (-> & Hdir & Hf & Hhk)|done]; split; simpl.
  - rewrite length_app, Hc. simpl. lia.
  - intros q. rewrite Hp. setoid_rewrite elem_of_app. setoid_rewrite list_elem_of_singleton. split; [naive_solver|].
    intros (e' & [?| ->] & ? & ?); [eauto|congruence].
  - intros p k (? & e' & ? & ? & ?)%Hk. split; [done|]. exists e'. by rewrite elem_of_app; auto.
  - done.
  - intros d. rewrite dom_insert, elem_of_union, elem_of_singleton, Hd. setoid_rewrite elem_of_app.
    setoid_rewrite list_elem_of_singleton. naive_solver.
  - rewrite length_app, Hc. simpl. lia.
  - intros q. setoid_rewrite elem_of_app. setoid_rewrite list_elem_of_singleton. destruct (decide (Path e = q)) as [<-|Hne].
    + rewrite lookup_insert_eq. split; [|eauto]. intros _. exists e. auto.
    + rewrite lookup_insert_ne, Hp by done. split; [naive_solver|]. intros (e' & [?| ->] & ? & ?); [eauto|done].
  - intros q k' [[<- <-]|[_ Hq]]%lookup_insert_Some.
    + rewrite lookup_insert_eq. split; [eauto|]. exists e. rewrite elem_of_app, list_elem_of_singleton. auto.
    + apply Hk in Hq as (? & e' & He' & ? & ?). split; [|exists e'; rewrite elem_of_app; auto].
      destruct (decide (k = k')) as [->|]; [rewrite lookup_insert_eq; eauto|]. by rewrite lookup_insert_ne by done.
  - intros k' rec' [[<- <-]|[_ Hq]]%lookup_insert_Some; eauto.
  - intros d. rewrite Hd. setoid_rewrite elem_of_app. setoid_rewrite list_elem_of_singleton. split; [naive_solver|].
    intros (e' & [?| ->] & ? & ?); [eauto|congruence].
Qed.

Lemma gather_err_stays rs g e : firstErr g = Some e → firstErr (fold_left gather rs g) = Some e.
Proof.
  revert g. induction rs as [|r rs IH]; intros g Hg; simpl; [done|]. apply IH. unfold gather. by rewrite Hg.
Qed.

Lemma gather_all v es0 es rs g :
  Forall2 (result_ok v) es rs → firstErr (fold_left gather rs g) = None → gathered_from v es0 g →
  gathered_from v (es0 ++ es) (fold_left gather rs g).
Proof.
  intros Hrs. revert es0 g. induction Hrs as [|e r es rs Hr _ IH]; intros es0 g Hn Hg; simpl in *; [by rewrite app_nil_r|].
  destruct (firstErr (gather g r)) as [err|] eqn:Ef; [by rewrite (gather_err_stays _ _ _ Ef) in Hn|].
  rewrite cons_middle, app_assoc. apply IH; [done|]. by apply gathered_step.
Qed.

Lemma gathered_perm v es es' g : es ≡ₚ es' → gathered_from v es g → gathered_from v es' g.
Proof.
  intros E [H1 H2 H3 H4 H5]. split; [by rewrite <- E| | |done|].
  - intros p. rewrite H2. by setoid_rewrite E.
  - intros p k Hk. destruct (H3 p k Hk) as [? (e & He & ?)]. split; [done|]. exists e. by rewrite <- E.
  - intros d. rewrite H5. by setoid_rewrite E.
Qed.

(** When the worker phase ends without an error, every entry was gathered. *)
Lemma finish_workers_Ok v es rs n s u s' :
  Forall2 (result_ok v) es rs → finish_workers (fold_left gather rs nothing) n s = (Ok u, s') →
  s' = s ∧ gathered_from v es (fold_left gather rs nothing).
Proof.
  unfold finish_workers, runError. intros Hrs.
  destruct (run_cause s); [by destruct (ctx_Err (b_src s))|].
  destruct (firstErr (fold_left gather rs nothing)) eqn:Ef; [by destruct (ctx_Err (b_src s))|].
  intros H. split; [destruct (_ =? _); congruence|]. apply (gather_all _ [] es rs); [done|done|apply gathered_nothing].
Qed.

End Run.

(** ** Paths *)

Lemma check_parts_spec parts : check_parts parts = Ok tt ↔ Forall valid_name parts.
Proof.
  induction parts as [|p ps IH]; simpl; [by rewrite Forall_nil|]. rewrite Forall_cons, <- validateName_valid.
  destruct (validateName p); [split; [done|by intros [? _]]|]. rewrite IH. naive_solver.
Qed.

Lemma check_path_spec p :
  check_path p = Ok tt ↔ p ≠ "" ∧ Forall valid_name (Split (TrimSuffix p "/") slash).
Proof. unfold check_path. case_bool_decide; [naive_solver|]. rewrite check_parts_spec. naive_solver. Qed.

(** The entries that the filter keeps. *)
Definition kept (opts : BackupOptions) (e : SourceEntry) : bool :=
  match FilterFunc opts with
  | None => true
  | Some f => match f (Path e) with Ok b => b | _ => false end
  end.

Lemma select_entries_spec opts all es :
  select_entries opts all = Ok es →
  es = filter (λ e, kept opts e = true) all ∧ Forall (λ e, check_path (Path e) = Ok tt) es.
Proof.
  revert es. induction all as [|e all IH]; intros es; cbn [select_entries]; [by intros [= <-]|].
  intros (keep & Hk & H)%obind_Ok. rewrite filter_cons.
  assert (kept opts e = keep) as Ek by (unfold kept; destruct (FilterFunc opts) as [f|]; [destruct (f (Path e))|]; congruence).
  destruct keep; cbn [negb] in H.
  - apply obind_Ok in H as ([] & Hp & H). apply obind_Ok in H as (es' & Hes & [= <-]). destruct (IH _ Hes) as [-> ?].
    rewrite decide_True by done. split; [done|by constructor].
  - destruct (IH _ H) as [-> ?]. by rewrite decide_False by congruence.
Qed.

Lemma TrimSuffix_none s p : HasSuffix s p = false → TrimSuffix s p = s.
Proof. unfold TrimSuffix. by intros ->. Qed.

(** The maps gathered from entries with checked paths describe a run. *)
Lemma gathered_run_ok run v es g :
  gathered_from run v es g → Forall (λ e, check_path (Path e) = Ok tt) es →
  run_ok (dirPaths g) (newPathToFileKey g) (newFilesPool g).
Proof.
  intros [_ Hp Hk _ Hd] Hes. rewrite Forall_forall in Hes. split.
  - by intros p k [? _]%Hk.
  - intros p [e (He & <- & Hdir)]%elem_of_dom%Hp. apply Hes, check_path_spec in He as [_ Hv].
    apply orb_false_iff in Hdir as [_ Hs]. by rewrite TrimSuffix_none in Hv.
  - intros d (e & He & _ & ->)%Hd _. by apply Hes, check_path_spec in He as [_ Hv].
Qed.

(** ** Options *)

(** The options that a run accepts. *)
Lemma validateBackupOptions_Ok now opts :
  validateBackupOptions now opts = Ok tt ↔
  map_Forall (λ _ pk, blen pk = 32) (opt_PublicKeys opts) ∧
  (EphPublicKey opts = [] ∨ blen (EphPublicKey opts) = 32) ∧
  (EncryptedPassword opts = [] ∨ 40 ≤ blen (EncryptedPassword opts)) ∧
  (opt_KeyID opts = "" ∨ opt_PublicKeys opts = ∅ ∨ is_Some (opt_PublicKeys opts !! opt_KeyID opts)) ∧
  CustomVersionID opts ≤ max_int64 ∧
  (∀ t, CustomBackupTimestamp opts = Some t → t ≤ now + futureTimestampTolerance) ∧
  (∀ l, CompressionLevel opts = Some l → ∃ c, resolveCompression l = Ok c).
Proof.
  unfold validateBackupOptions. rewrite !guard_Ok. repeat f_equiv.
  - unfold bad_public_key. rewrite bool_decide_eq_false. split.
    + intros Hno k pk Hk. apply dec_stable. intros Hne. apply Hno. by exists k, pk.
    + intros Hall (k & pk & Hk & Hne). by apply Hall in Hk.
  - rewrite andb_false_iff, Z.ltb_ge, negb_false_iff, Z.eqb_eq, blen_nonpos. done.
  - rewrite andb_false_iff, !Z.ltb_ge, blen_nonpos. done.
  - rewrite !andb_false_iff, !negb_false_iff, !bool_decide_eq_true, bool_decide_eq_false, not_eq_None_Some. tauto.
  - by rewrite Z.ltb_ge.
  - destruct (CustomBackupTimestamp opts); [rewrite Z.ltb_ge; naive_solver|naive_solver].
  - destruct (CompressionLevel opts) as [l|]; [|done]. split.
    + intros (c & Hc & _)%obind_Ok l' [= <-]. eauto.
    + intros H. destruct (H l eq_refl) as [c ->]. done.
Qed.

(** ** The commit *)

Context {PL : ProtoLaws}.

Lemma cleanup_part_spec newFiles k s r s' :
  inv s → cleanup_part newFiles k s = (r, s') → inv s' ∧ r = Ok tt ∧
  (view s' = view s ∨ ∃ n, (newFiles !! k = None ∧ partKeyFor k = Ok n) ∧ view s' = delete n (view s)).
Proof.
  intros Hinv. unfold cleanup_part. case_bool_decide as Hk; [intros [= <- <-]; auto|].
  destruct (isValidFileKey k) eqn:E; [|intros [= <- <-]; auto]. cbn [orb negb].
  rewrite isValidFileKey_regex in E. destruct (partKeyFor_regex _ E) as [p Hp]. unfold bind, lift. rewrite Hp.
  intros (r1 & (? & _ & Hr & Hv)%Delete_law & Hret)%ignore_spec; [|done|by eapply partKeyFor_relative]. split_and!; [done|auto|].
  destruct Hv as [->|[_ ->]]; [right; exists p|by left]. split_and!; [|done|done]. by apply eq_None_not_Some.
Qed.

(** The new metadata fits the wire format. *)
Lemma new_metadata_canonical saved opts md v trees pool :
  md_canonical md → version_canonical v → map_Forall (λ _, tree_canonical) trees →
  map_Forall (λ _, record_canonical) pool → md_canonical (new_metadata saved opts md v trees pool).
Proof.
  intros (Hv & Ht & Hf & Hs) Hv' Ht' Hf'. unfold new_metadata. split_and!; cbn [Versions Trees Files SchemaVersion].
  - apply map_Forall_insert_2; [done|]. destruct (SingleVersionMode opts); [apply map_Forall_empty|done].
  - intros k n [?|[_ Hk]]%lookup_union_Some_raw; [by eapply Ht'|]. destruct (SingleVersionMode opts); [done|by eapply Ht].
  - intros k n [?|[_ Hk]]%lookup_union_Some_raw; [by eapply Hf'|]. destruct (SingleVersionMode opts); [done|by eapply Hf].
  - done.
Qed.

Lemma version_id_range env opts md id :
  version_id env opts md = Ok id →
  id = CustomVersionID opts ∧ id ≠ 0 ∨ 0 < id ≤ max_int64 ∧ Versions md !! FormatUint id = None.
Proof.
  unfold version_id. destruct (Z.eqb_spec (CustomVersionID opts) 0); [|by intros [= <-]; left].
  intros (x & Hx & [= <-])%obind_Ok. apply generate_loop_Ok in Hx as [? Hu%bool_decide_eq_false]. right.
  split; [done|]. by apply eq_None_not_Some.
Qed.

Lemma version_id_u64 env opts md id :
  is_u64 (CustomVersionID opts) → version_id env opts md = Ok id → is_u64 id.
Proof. intros ? [[-> _]|[? _]]%version_id_range; [done|]. unfold is_u64, max_int64 in *. lia. Qed.

(** What a commit that went through has done. *)
Record committed (env : environment) (opts : BackupOptions) (md : BackupMetadata) (hasOld : bool)
    (latest : option Version) (g : gathered) (s s' : store) (v : Version) (trees : gmap string TreeNode) : Prop := {
  co_built : buildTree (dirPaths g) (newPathToFileKey g) (newFilesPool g) = Ok (RootTreeHash v, trees);
  co_id : version_id env opts md = Ok (SnowflakeId v);
  co_version : v = new_version (SnowflakeId v) (now_version env) (RootTreeHash v) latest opts;
  co_stored : stored_md s' (new_metadata (now_saved env) opts md v trees (newFilesPool g));
  co_objects : ∀ n, n ≠ tsync → view s' !! n = view s !! n ∨
    SingleVersionMode opts = true ∧ view s' !! n = None ∧
    ∃ k, is_Some (Files md !! k) ∧ newFilesPool g !! k = None ∧ partKeyFor k = Ok n;
}.

Lemma commit_spec env opts md hasOld latest g s r s' :
  inv (b_store s) → md_canonical md → is_u64 (CustomVersionID opts) →
  (∀ v, latest = Some v → is_u64 (SnowflakeId v)) →
  run_ok (dirPaths g) (newPathToFileKey g) (newFilesPool g) →
  (∀ k rec, newFilesPool g !! k = Some rec → record_canonical rec) →
  commit env opts md hasOld latest g s = (r, s') →
  inv (b_store s') ∧
  (view (b_store s') = view (b_store s) ∧ (∀ v, r ≠ Ok v) ∨
   ∃ v trees, committed env opts md hasOld latest g (b_store s) (b_store s') v trees ∧ ∀ v', r = Ok v' → v' = v).
Proof.
  intros Hi Hmd Hid Hlat Hok Hrec. unfold commit.
  intros [([root trees] & s1 & [= Hb <-] & H)|(r1 & [= _ <-] & _ & Hn & _)]%bind_inv; [|by auto].
  apply bind_inv in H as [(id & s1 & [= Hvid <-] & H)|(r1 & [= _ <-] & _ & Hn & _)]; [|by auto].
  cbn [fst snd] in H. set (v := new_version id (now_version env) root latest opts) in *.
  set (md' := new_metadata (now_saved env) opts md v trees (newFilesPool g)) in *.
  assert (md_canonical md') as Hcan.
  { apply new_metadata_canonical; [done| |by eapply buildTree_canonical|by intros k x ?; eapply Hrec].
    split; [by eapply version_id_u64|]. cbn [PrecedingVersionId v new_version]. destruct latest as [l|]; [by apply Hlat|].
    unfold is_u64. lia. }
  apply bind_inv in H as [(u & s1 & Hw & H)|(r1 & Hw & Hr1 & Hn & _)]; apply on_store_inv in Hw as [Hw Es];
    destruct (write_metadata_spec _ _ _ _ _ _ Hi Hcan Hw) as (Hi1 & _ & Hcase).
  2:{ split; [done|]. destruct Hcase as [[? _]|[Hst Hobj]]; [left; auto|right].
      exists v, trees. split; [|intros v' Hv'; by apply Hn in Hv']. split; try done. intros n Hne. left. auto. }
  destruct Hcase as [[_ [e [=]]]|[Hst Hobj]].
  apply bind_inv in H as [(u2 & s2 & Hc & [= <- <-])|(r1 & Hc & Hr1 & Hn & _)];
    destruct (SingleVersionMode opts && hasOld) eqn:Esv.
  2:{ injection Hc as <- <-. split; [done|]. right. exists v, trees. split; [|by intros v' [= <-]].
      split; try done. intros n Hne. left. auto. }
  3:{ injection Hc as <- <-. by destruct (Hr1 tt). }
  all: apply on_store_inv in Hc as [Hc Es2].
  all: eapply (deletions _ (λ k n, Files md' !! k = None ∧ partKeyFor k = Ok n)) in Hc as (Hi2 & Hret & Hd);
    [|by intros; eapply cleanup_part_spec|done].
  2:{ subst r1. by destruct (Hr1 tt). }
  split; [done|]. right. exists v, trees. split; [|by intros v' [= <-]].
  apply andb_true_iff in Esv as [Esv _]. split; try done.
  - destruct Hst as (_ & b & Hb1 & Hm). split; [done|]. exists b. split; [|done]. rewrite <- Hb1.
    destruct (Hd tsync) as [?|(_ & k & _ & _ & Hk)]; [done|]. by apply partKeyFor_not_tsync in Hk.
  - intros n Hne. destruct (Hd n) as [->|(Hnone & k & Hk & Hnf & Hpk)]; [left; auto|right].
    split_and!; [done..|]. exists k. split_and!; [| |done].
    + apply list_elem_of_fmap in Hk as ([k' rec] & -> & Hk%elem_of_range). eauto.
    + unfold md' in Hnf. cbn [Files new_metadata] in Hnf. by apply lookup_union_None in Hnf as [? _].
Qed.

(** ** The whole run *)

(** The metadata a run starts from: the stored one with the new keys, or
    that of a new store. *)
Definition loaded (st : store) (opts : BackupOptions) (md : BackupMetadata) (hasOld : bool) : Prop :=
  (hasOld = true ∧ ∃ md0, stored_md st md0 ∧ md = merge_keys opts md0) ∨
  (hasOld = false ∧ view st !! tsync = None ∧ md = fresh_metadata opts).

Lemma load_or_init_spec opts s r s' :
  inv (b_store s) → load_or_init opts s = (r, s') →
  inv (b_store s') ∧ view (b_store s') = view (b_store s) ∧ b_src s' = b_src s ∧ same_run s s' ∧
  ∀ md hasOld, r = Ok (md, hasOld) →
    loaded (b_store s) opts (if hasOld then merge_keys opts md else md) hasOld.
Proof.
  intros Hi. unfold load_or_init, handle.
  destruct (bind (on_store loadMetadata) _ s) as [r1 s1] eqn:E.
  assert (∃ r0, loadMetadata (b_store s) = (r0, b_store s1) ∧ s1 = set_store (b_store s1) s ∧
    r1 = (let! md := r0 in Ok (md, true))) as (r0 & Hl & Es & ->).
  { unfold bind in E. destruct (on_store loadMetadata s) as [r2 s2] eqn:E2. apply on_store_inv in E2 as [Hl Es].
    exists r2. destruct r2; simpl in E; injection E as <- <-; auto. }
  destruct (loadMetadata_spec _ _ _ Hi Hl) as (Hi1 & Hv & _ & Hok & Herr).
  assert (b_src s1 = b_src s ∧ same_run s s1) as [Hsrc Hsr] by (by rewrite Es).
  destruct r0 as [md|e| |]; cbn [obind].
  - intros [= <- <-]. split_and!; try done. intros md' hasOld [= <- <-]. left. split; [done|].
    exists md. split; [|done]. by apply Hok.
  - destruct (errors_Is e ErrNotFound) eqn:En; cbn [negb]; [|by intros [= <- <-]].
    case_bool_decide; intros [= <- <-]; split_and!; try done.
    intros md hasOld [= <- <-]. right. split_and!; [done| |done]. by eapply Herr.
  - by intros [= <- <-].
  - by intros [= <- <-].
Qed.

(** Assumptions on a run: values have the widths of their Go types. *)
Definition run_typed (ListEntries : M src (list SourceEntry)) (opts : BackupOptions) : Prop :=
  is_u64 (CustomVersionID opts) ∧
  (∀ x l x', ListEntries x = (Ok l, x') → Forall entry_typed l).

(** Everything about a run whose workers finished without an error. *)
Record finished (env : environment) (opts : BackupOptions) (st : store) (md : BackupMetadata) (hasOld : bool)
    (run : backupRun) (all : list SourceEntry) (s1 : bstate) (g : gathered) : Prop := {
  fi_valid : validateBackupOptions (now_options env) opts = Ok tt;
  fi_loaded : loaded st opts md hasOld;
  fi_order : check_order opts md = Ok tt;
  fi_paths : Forall (λ e, check_path (Path e) = Ok tt) (filter (λ e, kept opts e = true) all);
  fi_existing : existing run = Files md;
  fi_keys : pass_keys (random env) opts md (filter (λ e, kept opts e = true) all) =
    Ok (ephPubKey run, encryptedZipPass run, clearZipPass run, run_keyID run);
  fi_run : run_inv run (view st) s1;
  fi_gathered : gathered_from run (view (b_store s1)) (filter (λ e, kept opts e = true) all) g;
  fi_ok : run_ok (dirPaths g) (newPathToFileKey g) (newFilesPool g);
}.

Lemma loaded_canonical st opts md hasOld :
  loaded st opts md hasOld → md_canonical md.
Proof.
  intros [(_ & md0 & (_ & b & _ & Hm%unmarshal_canonical) & ->)|(_ & _ & ->)]; [exact Hm|].
  split_and!; try apply map_Forall_empty. done.
Qed.

Lemma fi_pool_canonical env opts st md hasOld run all s1 g :
  finished env opts st md hasOld run all s1 g → ∀ k rec, newFilesPool g !! k = Some rec → record_canonical rec.
Proof.
  intros [_ Hl _ _ He _ _ Hg _] k rec Hk. apply loaded_canonical in Hl as (_ & _ & Hf & _).
  apply (ga_pool _ _ _ _ Hg) in Hk as [Hk|(_ & ? & _)]; [|done]. rewrite He in Hk. by eapply Hf.
Qed.

(** Everything the phases before the workers can do. *)
Record planned (env : environment) (L : M src (list SourceEntry)) (opts : BackupOptions) (st : store) (x : src)
    (p : plan) (all : list SourceEntry) : Prop := {
  pd_valid : validateBackupOptions (now_options env) opts = Ok tt;
  pd_loaded : loaded st opts (pl_metadata p) (pl_hasOld p);
  pd_latest : pl_latest p = latestVersion (pl_metadata p);
  pd_order : check_order opts (pl_metadata p) = Ok tt;
  pd_listed : ∃ x1, L x = (Ok all, x1);
  pd_entries : pl_entries p = filter (λ e, kept opts e = true) all;
  pd_paths : Forall (λ e, check_path (Path e) = Ok tt) (pl_entries p);
  pd_existing : existing (pl_run p) = Files (pl_metadata p);
  pd_keys : pass_keys (random env) opts (pl_metadata p) (pl_entries p) =
    Ok (ephPubKey (pl_run p), encryptedZipPass (pl_run p), clearZipPass (pl_run p), run_keyID (pl_run p));
}.

Lemma plan_backup_spec env L opts st x r s' :
  inv st → plan_backup env L opts (open_run st x) = (r, s') →
  inv (b_store s') ∧ view (b_store s') = view st ∧ flights s' = ∅ ∧ ∀ p, r = Ok p → ∃ all, planned env L opts st x p all.
Proof.
  intros Hi H. assert (flights s' = ∅) as Hfl by (by apply (plan_calm _ _ _ _ _ _) in H as [-> _]). unfold plan_backup in H.
  apply bind_inv in H as [([] & s0 & [= Hval <-] & H)|(r1 & [= _ <-] & _ & Hn & _)]; [|by split_and!; auto; intros p Hp; apply Hn in Hp].
  apply bind_inv in H as [([md0 old] & s1 & Hload & H)|(r1 & Hload & _ & Hn & _)];
    destruct (load_or_init_spec opts (open_run st x) _ _ Hi Hload) as (Hi1 & Hv1 & Hsrc1 & _ & Hl);
    [|by split_and!; auto; intros p Hp; apply Hn in Hp].
  specialize (Hl md0 old eq_refl). cbn [b_store b_src open_run] in Hv1, Hsrc1, Hl.
  apply bind_inv in H as [([] & s1' & [= Hord <-] & H)|(r1 & [= _ <-] & _ & Hn & _)]; [|by split_and!; auto; intros p Hp; apply Hn in Hp].
  apply bind_inv in H as [(all & s2 & HL & H)|(r1 & HL & _ & Hn & _)].
  2:{ apply wrap_err_inv in HL as (r2 & (_ & Est & _)%on_src_inv & _). rewrite Est. by split_and!; auto; intros p Hp; apply Hn in Hp. }
  apply wrap_err_Ok, on_src_inv in HL as (HL & Est & _). rewrite Hsrc1 in HL. rewrite <- Est in Hi1, Hv1.
  apply bind_inv in H as [(es & s2' & [= Hes <-] & H)|(r1 & [= _ <-] & _ & Hn & _)]; [|by split_and!; auto; intros p Hp; apply Hn in Hp].
  apply bind_inv in H as [([[[eph sealed] clear] keyID] & s2' & [= Hkeys <-] & H)|(r1 & [= _ <-] & _ & Hn & _)]; [|by split_and!; auto; intros p Hp; apply Hn in Hp].
  injection H as <- <-. split_and!; [done..|]. intros p [= <-]. exists all. destruct (select_entries_spec _ _ _ Hes) as [-> Hpaths].
  split; cbn; try done; by destruct old; eauto.
Qed.

(** The state the workers start in. *)
Lemma planned_start env L opts st x p all s :
  run_typed L opts → planned env L opts st x p all → inv (b_store s) → view (b_store s) = view st → flights s = ∅ →
  Forall entry_typed (pl_entries p) ∧ run_inv (pl_run p) (view st) s.
Proof.
  intros [_ Htyped] Hpd Hi Hv Hf. destruct (pd_listed _ _ _ _ _ _ _ Hpd) as [x1 HL]. split.
  - rewrite (pd_entries _ _ _ _ _ _ _ Hpd). apply Forall_forall. intros e [_ He]%list_elem_of_filter.
    by eapply Forall_forall; [eapply Htyped|].
  - split; [done|]. split; [intros n; left; by rewrite Hv|]. intros k rec. by rewrite Hf.
Qed.

(** Everything a run can do. *)
Lemma RunBackup_effect env L opts st x r s' :
  inv st → run_typed L opts → RunBackup_run env L opts (open_run st x) r s' →
  inv (b_store s') ∧
  ((∀ v, r ≠ Ok v) ∧
     (view (b_store s') = view st ∨
      ∃ md hasOld run, loaded st opts md hasOld ∧ existing run = Files md ∧ touched run (view st) (view (b_store s'))) ∨
   ∃ md hasOld run all x1 s1 g v trees,
     gathers env L opts (open_run st x) g s1 ∧
     L x = (Ok all, x1) ∧ finished env opts st md hasOld run all s1 g ∧
     committed env opts md hasOld (latestVersion md) g (b_store s1) (b_store s') v trees ∧ ∀ v', r = Ok v' → v' = v).
Proof.
  intros Hi Hty [(p & s0 & Hp & H)|(r1 & Hp & Hr1 & Hn)]%then_run_inv;
    destruct (plan_backup_spec _ _ _ _ _ _ _ Hi Hp) as (Hi0 & Hv0 & Hf0 & Hpd); [|by auto].
  destruct (Hpd p eq_refl) as (all & Hpl). clear Hpd. destruct (planned_start _ _ _ _ _ _ _ _ Hty Hpl Hi0 Hv0 Hf0) as [Htyped Hri0].
  pose proof Hpl as [Hval Hl Hlat Hord [x1 HL] Hes Hpaths Hex Hkeys].
  apply then_run_inv in H as [(g & s1 & Hw & H)|(r1 & Hw & _ & Hn)];
    destruct (workers_run_spec _ _ _ _ _ _ _ Htyped Hri0 Hw) as [Hri Hres].
  2:{ split; [apply Hri|]. left. split; [done|]. right. exists (pl_metadata p), (pl_hasOld p), (pl_run p). split_and!; [done..|apply Hri]. }
  destruct (Hres g eq_refl) as (es & rs & Eperm & Hrs & ->). set (g := fold_left gather rs nothing) in *.
  assert (∀ v, v = view (b_store s1) → ∃ md hasOld run, loaded st opts md hasOld ∧ existing run = Files md ∧ touched run (view st) v) as Hsame.
  { intros v ->. exists (pl_metadata p), (pl_hasOld p), (pl_run p). split_and!; [done..|apply Hri]. }
  unfold complete, det in H. apply bind_inv in H as [(u & s2 & Hfin & H)|(r1 & Hfin & _ & Hn & _)].
  2:{ unfold finish_workers in Hfin. assert (s' = s1) as -> by (by case_match; simplify_eq).
      split; [apply Hri|]. left. auto. }
  destruct (finish_workers_Ok (pl_run p) _ _ _ _ _ _ _ Hrs Hfin) as [-> Hga].
  apply (gathered_perm _ _ _ _ _ Eperm) in Hga. fold g in Hga. rewrite Hes in Hga, Hpaths, Hkeys.
  assert (finished env opts st (pl_metadata p) (pl_hasOld p) (pl_run p) all s1 g) as Hfi
    by (split; try done; by eapply gathered_run_ok).
  assert (∀ v, pl_latest p = Some v → is_u64 (SnowflakeId v)) as Hlatest.
  { rewrite Hlat. intros v [k Hk]%latestVersion_in. apply loaded_canonical in Hl as (Hvs & _). by destruct (Hvs _ _ Hk). }
  destruct (commit_spec _ _ _ _ _ _ _ _ _ (proj1 Hri) (loaded_canonical _ _ _ _ Hl) (proj1 Hty) Hlatest
    (fi_ok _ _ _ _ _ _ _ _ _ Hfi) (fi_pool_canonical _ _ _ _ _ _ _ _ _ Hfi) H) as (Hi4 & [[Hv4 Hno]|(v & trees & Hco & Hv)]).
  - split; [done|]. left. auto.
  - split; [done|]. right. rewrite Hlat in Hco. exists (pl_metadata p), (pl_hasOld p), (pl_run p), all, x1, s1, g, v, trees.
    split_and!; try done. by exists p, s0.
Qed.

End Spec.
