(* ===== verification/BackupExample.v ===== *)
(** A backup run that evaluates: sources, and the store of [ClientExample]
    with a key and an orphaned object. *)

From Stdlib Require Import Strings.Byte.
From S2P Require Import Prelude Errors GoStrings Keys Digest Metadata ProtoExample.
From S2P Require Import TreeWalk TreeResolve TreeCollect TreeBuild TreeHash Store Client Crypto Upload UploadExample Backup Pool Workers BackupPool BackupSpec.
#[local] Open Scope Z_scope.

Module BackupExample.

Definition world : SourceWorld := {| src := unit; ctx_Err _ := None |}.

(** A reader that hands out its first byte alone. *)
Program Definition chunking : Chunking := {| chunks b := [take 1 b; drop 1 b] |}.
Next Obligation. intros b. cbn [concat]. by rewrite app_nil_r, take_drop. Qed.

Existing Instances world chunking ToyZip.zip ToyZip.zip_laws ToyBox.box some_range Mem.storage Mem.laws.

Definition reader (s : string) : option (src → res stream * src) := Some (λ x, (Ok (bytes_of_string s, None), x)).
Definition entry (p s : string) (known : bool) : SourceEntry :=
  {| Path := p; Size := str_len s; se_CompressedSize := 0; se_LastModified := 1700000000 * 10 ^ 9;
     se_CRC32 := if known then CRC32.Sum32 (bytes_of_string s) else 0; IsDir := false; Open := reader s;
     IsEncryptedRaw := false; OpenRaw := None; CompressionMethod := 8; OpenRawCompressed := None |}.
Definition dir (p : string) : SourceEntry :=
  {| Path := p; Size := 0; se_CompressedSize := 0; se_LastModified := 0; se_CRC32 := 0; IsDir := false; Open := None;
     IsEncryptedRaw := false; OpenRaw := None; CompressionMethod := 0; OpenRawCompressed := None |}.

(** A known content under a new name, the same new content twice, a
    directory with nothing below it, and a file that the filter drops. *)
Definition entries : list SourceEntry :=
  [entry "a.txt" "123456789" true; entry "docs/new.txt" "hello" false; entry "docs/copy.txt" "hello" true;
   dir "empty/"; entry "tmp/x" "junk" true].
Definition listing : M src (list SourceEntry) := λ x, (Ok entries, x).

Definition opts (single : bool) : BackupOptions :=
  {| opt_Label := "v3"; SingleVersionMode := single; FilterFunc := Some (λ p, Ok (negb (HasPrefix p "tmp/"))); opt_Concurrency := 2;
     opt_KeyID := ""; opt_PublicKeys := {["k1" := replicate 32 x07]}; EphPublicKey := []; EncryptedPassword := [];
     CompressionLevel := None; GetCompressionLevel := None; CustomVersionID := 79;
     CustomBackupTimestamp := Some (1700000500 * 10 ^ 9) |}.
Definition env : environment :=
  {| now_options := 1700000600 * 10 ^ 9; now_version := 1700000600 * 10 ^ 9; now_saved := 1700000700 * 10 ^ 9;
     id_clock _ := 1700000600 * 10 ^ 9; id_fuel := 5; id_seq := 0;
     random := {| rnd_password := Ok (replicate 32 x01); rnd_keys := Ok (replicate 32 x09, replicate 32 x09);
                  rnd_nonce := Ok (replicate 24 x02) |} |}.

(** The metadata after the run, so that it can be in the table of messages. *)
Definition proto0 : Proto := table_proto [ClientExample.md].
Definition run0 (single : bool) : M bstate (plan * gathered) :=
  let* p := @plan_backup proto0 _ _ _ _ env listing (opts single) in
  let* g := run_tasks (pl_run p) (pl_entries p) nothing in
  ret (p, g).
Definition md_after (single : bool) : BackupMetadata :=
  match (run0 single (open_run (ClientExample.mem [] : @store Mem.storage) tt)).1 with
  | Ok (p, g) =>
      let built := ok_or ("", ∅) (@buildTree proto0 _ (dirPaths g) (newPathToFileKey g) (newFilesPool g)) in
      new_metadata (now_saved env) (opts single) (pl_metadata p) (new_version 79 (now_version env) built.1 (pl_latest p) (opts single))
        built.2 (newFilesPool g)
  | _ => ClientExample.md
  end.
Definition proto : Proto := table_proto [ClientExample.md; md_after false; md_after true].

Lemma proto_laws : @ProtoLaws proto.
Proof.
  apply table_proto_laws.
  repeat (apply Forall_cons_2; [apply md_canonical_b_sound; vm_compute; reflexivity|]).
  apply Forall_nil_2.
Qed.
Existing Instances proto proto_laws.

(** The store of the example, and the faults of the calls to come. *)
Definition initial (schedule : list Mem.fault) : store := ClientExample.mem schedule.

Definition run (single : bool) (schedule : list Mem.fault) : res Version * bstate :=
  RunBackup env listing (opts single) (open_run (initial schedule) tt).
Definition version (single : bool) : Version := ok_or Example.version1 (run single []).1.

Lemma stored schedule : stored_md (initial schedule) ClientExample.md.
Proof. split; [exact I|]. exists []. split; [by_eval|reflexivity]. Qed.

Lemma typed : Forall entry_typed entries.
Proof.
  unfold entry_typed, is_u32, is_i64, min_int64, max_int64.
  repeat (apply Forall_cons_2; [vm_compute; intuition congruence|]). apply Forall_nil_2.
Qed.

Lemma typed_run single : run_typed listing (opts single).
Proof. split; [vm_compute; intuition congruence|]. intros x l x' [= <- _]. exact typed. Qed.

(** The run is one of those of the concurrent program. *)
Lemma is_run single schedule :
  RunBackup_run env listing (opts single) (open_run (initial schedule) tt) (run single schedule).1 (run single schedule).2.
Proof. apply RunBackup_is_run, surjective_pairing. Qed.

Lemma sound_ schedule md : stored_md (initial schedule) md → sound md (view (initial schedule)).
Proof.
  intros Hm. rewrite (stored_md_inj _ _ _ Hm (stored schedule)). clear Hm.
  assert (map_Forall (λ k rec, bool_decide (fileKeyFor (Crc32 rec) (UncompressedSize rec) = k) &&
    match partKeyFor k with Ok n => bool_decide (is_Some (ClientExample.objects !! n)) | _ => false end = true)
    (Files ClientExample.md)) as H by by_eval.
  split; intros k rec Hk; specialize (H _ _ Hk); cbv beta in H; apply andb_true_iff in H as [?%bool_decide_eq_true Hp]; [done|].
  destruct (partKeyFor k) as [n| | |]; try done. exists n. split; [done|]. by apply bool_decide_eq_true in Hp.
Qed.

(** A run in its worker phase. *)
Definition upload_run : backupRun :=
  {| run_opts := opts false; compMethod := 8; compLevel := -1; ephPubKey := replicate 32 x09;
     encryptedZipPass := replicate 72 x01; clearZipPass := "secret"; run_keyID := "k1"; existing := ∅ |}.

Example uploads : is_ok (uploadPart upload_run "3610a686_5" (entry "docs/new.txt" "hello" false) (open_run (initial []) tt)).1 = true.
Proof. vm_compute. reflexivity. Qed.

(** A run in either mode returns its version. *)
Example returns_version : (run false []).1 = Ok (version false) ∧ (run true []).1 = Ok (version true).
Proof. split; vm_compute; reflexivity. Qed.

(** A storage with the same operations whose writers do not implement
    [AbortableWriter]: a source that fails half-way leaves its object truncated,
    where the writers of the example leave none. *)
Definition unabortable : Storage := {|
  store := Mem.mem; writer := nat; Read := @Read Mem.storage; Write := @Write Mem.storage; Delete := @Delete Mem.storage;
  List := @List Mem.storage; OpenWriter := @OpenWriter Mem.storage; w_Write := @w_Write Mem.storage;
  w_Close := @w_Close Mem.storage; w_abortable _ := false; w_Abort := @w_Abort Mem.storage;
|}.
Definition broken : SourceEntry :=
  {| Path := "docs/new.txt"; Size := 5; se_CompressedSize := 0; se_LastModified := 0; se_CRC32 := 0; IsDir := false;
     Open := Some (λ x, (Ok (bytes_of_string "he", Some (ELeaf "read" false)), x));
     IsEncryptedRaw := false; OpenRaw := None; CompressionMethod := 8; OpenRawCompressed := None |}.

Example unabortable_truncates :
  let failed (ST : Storage) (s : res FileRecord * @bstate ST world) := bool_decide (is_ok s.1 = false) in
  let part (s : Mem.mem) := is_ok (@Read Mem.storage "36/3610a686_5" s).1 in
  let out := @uploadPart Mem.storage _ _ _ upload_run "3610a686_5" broken (@open_run Mem.storage _ (initial []) tt) in
  let out' := @uploadPart unabortable _ _ _ upload_run "3610a686_5" broken (@open_run unabortable _ (initial []) tt) in
  failed _ out = true ∧ part (b_store out.2) = false ∧ failed _ out' = true ∧ part (b_store out'.2) = true.
Proof. vm_compute. split_and!; reflexivity. Qed.

End BackupExample.
