(* ===== verification/BackupProps.v ===== *)
(** The theorems about a backup run as a whole. *)

From S2P Require Import Prelude Errors GoStrings Keys Digest Metadata ProtoExample.
From S2P Require Import TreeWalk TreeResolve TreeCollect TreeBuild TreeHash Store Client Crypto Upload UploadExample Backup BackupPool BackupSpec BackupExample.
#[local] Open Scope Z_scope.

Section Props.
Context {PR : Proto} {MR : MapRange} {ST : Storage} {SL : StorageLaws} {PL : ProtoLaws}.
Context {SW : SourceWorld} {CK : Chunking} {ZP : ZipParts} {ZL : ZipPartsLaws} {BX : Box}.

(** ** Consequences of the worker invariant *)

Lemma touched_old run v0 v k rec n :
  touched run v0 v → existing run !! k = Some rec → partKeyFor k = Ok n → v !! n = v0 !! n.
Proof.
  intros Ht Hk Hn. destruct (Ht n) as [|(k' & _ & He & Hn' & _)]; [done|].
  by rewrite (partKeyFor_inj _ _ _ Hn Hn'), He in Hk.
Qed.

Lemma touched_tsync run v0 v : touched run v0 v → v !! tsync = v0 !! tsync.
Proof. intros Ht. by destruct (Ht tsync) as [|(k & _ & _ & Hk%partKeyFor_not_tsync & _)]. Qed.

Lemma touched_present run v0 v n : touched run v0 v → is_Some (v0 !! n) → is_Some (v !! n).
Proof. intros Ht Hn. destruct (Ht n) as [->|(k & _ & _ & _ & b & -> & _)]; eauto. Qed.

Lemma touched_stored_md run st s md :
  inv s → touched run (view st) (view s) → stored_md s md → inv st → stored_md st md.
Proof. intros _ Ht (_ & b & Hb & Hm) Hi. split; [done|]. exists b. by rewrite <- (touched_tsync _ _ _ Ht). Qed.

Section Committed.
Context {env : environment} {opts : BackupOptions} {st : store} {md : BackupMetadata} {hasOld : bool}.
Context {run : backupRun} {all : list SourceEntry} {s1 : bstate} {g : gathered}.
Context {s' : store} {v : Version} {trees : gmap string TreeNode}.
Context (Hfi : finished env opts st md hasOld run all s1 g).
Context (Hco : committed env opts md hasOld (latestVersion md) g (b_store s1) s' v trees).

(** Records of contents already known are kept as they are. *)
Lemma pool_old k rec rec' : Files md !! k = Some rec → newFilesPool g !! k = Some rec' → rec' = rec.
Proof.
  intros Hk Hp. destruct Hfi as [_ _ _ _ He _ _ Hg _]. rewrite <- He in Hk.
  apply (ga_pool _ _ _ _ Hg) in Hp as [|(_ & _ & n & _ & ? & _)]; congruence.
Qed.

Lemma new_files k rec :
  Files (new_metadata (now_saved env) opts md v trees (newFilesPool g)) !! k = Some rec →
  newFilesPool g !! k = Some rec ∨ SingleVersionMode opts = false ∧ Files md !! k = Some rec.
Proof.
  cbn [Files new_metadata]. intros [?|[_ ?]]%lookup_union_Some_raw; [by left|].
  destruct (SingleVersionMode opts); [done|by right].
Qed.

(** Parts the new metadata refers to outlive the commit. *)
Lemma committed_part k n :
  is_Some (Files (new_metadata (now_saved env) opts md v trees (newFilesPool g)) !! k) → partKeyFor k = Ok n →
  view s' !! n = view (b_store s1) !! n.
Proof.
  intros [rec Hk] Hn. destruct (co_objects _ _ _ _ _ _ _ _ _ _ Hco n) as [|(Hs & _ & k' & _ & Hk' & Hn')];
    [by intros ->; apply partKeyFor_not_tsync in Hn|done|].
  rewrite (partKeyFor_inj _ _ _ Hn Hn') in Hk. apply new_files in Hk as [?|[? _]]; congruence.
Qed.

(** The old records that the new metadata keeps, in multi-version mode all of
    them. *)
Lemma new_files_old k rec :
  SingleVersionMode opts = false → Files md !! k = Some rec →
  Files (new_metadata (now_saved env) opts md v trees (newFilesPool g)) !! k = Some rec.
Proof.
  intros Hs Hk. cbn [Files new_metadata]. rewrite Hs. cbn [negb]. destruct (newFilesPool g !! k) as [rec'|] eqn:Hp.
  - rewrite (pool_old _ _ _ Hk Hp) in Hp. by apply lookup_union_Some_l.
  - by rewrite lookup_union_r.
Qed.

Lemma committed_id_fresh : Versions md !! FormatUint (SnowflakeId v) = None.
Proof.
  destruct (version_id_range _ _ _ _ (co_id _ _ _ _ _ _ _ _ _ _ Hco)) as [[E Hne]|[_ ?]]; [|done].
  pose proof (fi_order _ _ _ _ _ _ _ _ _ Hfi) as Hord. unfold check_order in Hord. rewrite <- E in Hord.
  rewrite (proj2 (Z.eqb_neq _ _) Hne) in Hord. cbn [negb andb] in Hord.
  case_bool_decide as Hb; [done|]. by apply eq_None_not_Some.
Qed.

(** A usable store stays usable. *)
Lemma committed_sound :
  sound md (view st) → sound (new_metadata (now_saved env) opts md v trees (newFilesPool g)) (view s').
Proof.
  intros [Hkey Hpart]. destruct (fi_run _ _ _ _ _ _ _ _ _ Hfi) as (_ & Ht & _).
  assert (∀ k rec, Files (new_metadata (now_saved env) opts md v trees (newFilesPool g)) !! k = Some rec →
    fileKeyFor (Crc32 rec) (UncompressedSize rec) = k ∧ ∃ n, partKeyFor k = Ok n ∧ is_Some (view (b_store s1) !! n)) as H.
  { intros k rec Hk.
    assert (Files md !! k = Some rec ∨ newFilesPool g !! k = Some rec) as [Hold|Hp]
      by (apply new_files in Hk as [?|[_ ?]]; auto).
    - split; [eauto|]. destruct (Hpart _ _ Hold) as (n & Hn & Hs). exists n. split; [done|]. by eapply touched_present.
    - destruct Hfi as [_ _ _ _ He _ _ Hg _]. apply (ga_pool _ _ _ _ Hg) in Hp as [Hp|(? & _ & n & _ & _ & ? & b & Hb & _)].
      + rewrite He in Hp. split; [eauto|]. destruct (Hpart _ _ Hp) as (n & Hn & Hs). exists n. split; [done|]. by eapply touched_present.
      + split; [done|]. exists n. rewrite Hb. eauto. }
  split; intros k rec Hk; destruct (H _ _ Hk) as (? & n & Hn & Hs); [done|]. exists n. split; [done|].
  by rewrite (committed_part k n) by eauto.
Qed.

End Committed.

Lemma loaded_sound st opts md hasOld :
  loaded st opts md hasOld → (∀ md0, stored_md st md0 → sound md0 (view st)) → sound md (view st).
Proof.
  intros [(_ & md0 & Hst & ->)|(_ & _ & ->)] Hs; [by destruct (Hs _ Hst); split|]. by split.
Qed.

(** ** Old versions in the new metadata *)

(** Two different directory nodes of the two metadata have the same
    SHA-256. *)
Definition hash_collision (md md' : BackupMetadata) : Prop :=
  ∃ h n n', n ≠ n' ∧ tree_hash n = Some h ∧ tree_hash n' = Some h ∧ Trees md !! h = Some n ∧ Trees md' !! h = Some n'.

Lemma resolve_extended md md' u listing :
  Versions md' !! FormatUint u = Versions md !! FormatUint u →
  (∀ h n, Trees md !! h = Some n → ∃ n', Trees md' !! h = Some n' ∧ (n' = n ∨ tree_hash n' = Some h)) →
  ResolveVersionTree md u false = Ok listing →
  ResolveVersionTree md' u false = Ok listing ∨ hash_collision md md'.
Proof.
  intros Hv Ht. unfold ResolveVersionTree. rewrite Hv. destruct (Versions md !! FormatUint u) as [ver|]; [|done].
  intros Hw. destruct (decide (map_Forall (λ h n, tree_hash n = Some h → Trees md' !! h = Some n) (Trees md))) as [Hall|Hno].
  - left. eapply walkTree_transfer; [|done|exact Hw]. intros d Hd.
    destruct (walkTree_hashed _ _ _ _ _ _ _ Hw Hd) as (node & Hn & Hh). rewrite Hn. by apply Hall.
  - right. apply map_not_Forall in Hno as (h & n & Hn & Hne); [|solve_decision].
    destruct (Ht _ _ Hn) as (n' & Hn' & Hor). exists h, n, n'.
    destruct (decide (tree_hash n = Some h)) as [E|]; [|by destruct Hne].
    assert (n ≠ n') as Hnn by (intros ->; by apply Hne). split_and!; try done. by destruct Hor as [->|].
Qed.

(** ** The listing of the new version *)

(** A directory among the entries with nothing below it. *)
Definition empty_dir_entry (es : list SourceEntry) (p : string) : Prop :=
  (∃ e, e ∈ es ∧ isDirEntry e = true ∧ p = TrimSuffix (Path e) "/") ∧
  ∀ e, e ∈ es → ¬ strict (Split p slash) (Split (TrimSuffix (Path e) "/") slash).

Lemma run_empty_dir_entries run v es g p :
  gathered_from run v es g → Forall (λ e, check_path (Path e) = Ok tt) es →
  run_empty_dir (dirPaths g) (newPathToFileKey g) p ↔ empty_dir_entry es p.
Proof.
  intros [_ Hp _ _ Hd] Hes. rewrite Forall_forall in Hes. unfold run_empty_dir, empty_dir_entry. rewrite Hd.
  assert (∀ e, isDirEntry e = false → TrimSuffix (Path e) "/" = Path e) as Hfile
    by (intros e [_ Hs]%orb_false_iff; by apply TrimSuffix_none).
  split.
  - intros (He & _ & Hds & Hfs). split; [done|]. intros e Hin. destruct (isDirEntry e) eqn:E.
    + apply Hds, Hd. eauto.
    + rewrite Hfile by done. apply Hfs, elem_of_dom, Hp. eauto.
  - intros [(e & Hin & Hdir & ->) Hno]. split_and!.
    + eauto.
    + intros E. apply Hes, check_path_spec in Hin as [_ Hv]. rewrite E in Hv. cbn in Hv. apply Forall_cons in Hv as [Hv _].
      by apply validateName_valid in Hv.
    + intros d (e' & Hin' & _ & ->)%Hd. by apply Hno.
    + intros f (e' & Hin' & <- & Hdir')%elem_of_dom%Hp. rewrite <- (Hfile e') by done. by apply Hno.
Qed.

(** Among the directories that the workers of such a run may gather, two have
    the same SHA-256. *)
Definition run_collision (env : environment) (L : M src (list SourceEntry)) (opts : BackupOptions) (s : bstate) : Prop :=
  ∃ g s1 n, gathers env L opts s g s1 ∧
    tempTree (dirPaths g) (newPathToFileKey g) (newFilesPool g) = Ok n ∧ collision n.

(** The version [v] of [md] is complete: it resolves; its files are those of
    [all] that the filter keeps, its empty directories the kept ones with nothing
    below them; each file is listed under a key that its entry has, with a record
    for that content and its part among the objects [objs]. *)
Definition complete_version (opts : BackupOptions) (all : list SourceEntry) (md : BackupMetadata)
    (objs : gmap string bytes) (v : Version) : Prop :=
  let es := filter (λ e, kept opts e = true) all in
  Versions md !! FormatUint (SnowflakeId v) = Some v ∧
  ∃ fs ds, ResolveVersionTree md (SnowflakeId v) false = Ok (fs, ds) ∧
    (∀ p, is_Some (fs !! p) ↔ ∃ e, e ∈ es ∧ Path e = p ∧ isDirEntry e = false) ∧
    (∀ p, p ∈ ds ↔ empty_dir_entry es p) ∧
    (∀ p k, fs !! p = Some k →
       (∃ e, e ∈ es ∧ Path e = p ∧ isDirEntry e = false ∧ has_key e k) ∧
       ∃ rec n, Files md !! k = Some rec ∧ fileKeyFor (Crc32 rec) (UncompressedSize rec) = k ∧
         partKeyFor k = Ok n ∧ is_Some (objs !! n)).

(** What a run commits is complete, also when it fails afterwards. *)
Lemma committed_complete {env L opts st x md hasOld run all s1 g s' v trees} :
  gathers env L opts (open_run st x) g s1 → finished env opts st md hasOld run all s1 g →
  committed env opts md hasOld (latestVersion md) g (b_store s1) s' v trees → sound md (view st) →
  run_collision env L opts (open_run st x) ∨
  complete_version opts all (new_metadata (now_saved env) opts md v trees (newFilesPool g)) (view s') v.
Proof.
  intros Hph Hfi Hco Hs. destruct (committed_sound Hfi Hco Hs) as [Hkey Hpart]. set (md' := new_metadata _ _ _ _ _ _) in *.
  pose proof (fi_gathered _ _ _ _ _ _ _ _ _ Hfi) as Hg. pose proof (fi_ok _ _ _ _ _ _ _ _ _ Hfi) as Hok.
  assert (Versions md' !! FormatUint (SnowflakeId v) = Some v) as Hver
    by (cbn [md' Versions new_metadata]; apply lookup_insert_eq).
  assert (run_collision env L opts (open_run st x) ∨
    ∀ n, tempTree (dirPaths g) (newPathToFileKey g) (newFilesPool g) = Ok n → no_collision n) as [?|Hnc]; [|by left|right].
  { destruct (tempTree _ _ _) as [n| | |] eqn:En; [|by right..]. destruct (collision_or n) as [?|?]; [right; by intros ? [= <-]|left].
    by exists g, s1, n. }
  destruct (buildTree_resolves _ _ _ _ trees (if negb (SingleVersionMode opts) then Trees md else ∅) md' (SnowflakeId v) v
    Hok Hnc (co_built _ _ _ _ _ _ _ _ _ _ Hco) eq_refl Hver eq_refl) as (fs & ds & Hres & Hfs & Hds).
  assert (∀ k rec, newFilesPool g !! k = Some rec → Files md' !! k = Some rec) as Hpool
    by (intros k rec Hk; by apply lookup_union_Some_l).
  unfold complete_version. set (es := filter _ all) in *. split; [done|]. exists fs, ds. split_and!; [done|..].
  - intros p. transitivity (is_Some (newPathToFileKey g !! p)).
    + split; [intros [k (key & ? & ? & _)%Hfs]; eauto|]. intros [key Hk].
      destruct (ga_keys _ _ _ _ Hg _ _ Hk) as [[rec Hr] _]. eexists. apply Hfs. eauto.
    + by rewrite (ga_paths _ _ _ _ Hg).
  - intros p. rewrite Hds, (run_empty_dir_entries _ _ _ _ _ Hg); [done|]. by eapply fi_paths.
  - intros p k Hk. apply Hfs in Hk as (key & rec & Hk & Hr & ->). apply Hpool in Hr.
    rewrite (Hkey _ _ Hr). destruct (ga_keys _ _ _ _ Hg _ _ Hk) as [_ (e & He & ?)].
    split; [by exists e|]. destruct (Hpart _ _ Hr) as (n & ? & ?).
    exists rec, n. split_and!; [done|by apply Hkey|done|done].
Qed.

(** What a successful run has stored, and how it resolves. *)
Lemma RunBackup_listed env L opts st x v s' :
  inv st → run_typed L opts → (∀ md, stored_md st md → sound md (view st)) →
  RunBackup_run env L opts (open_run st x) (Ok v) s' →
  run_collision env L opts (open_run st x) ∨
  ∃ all x1 md', L x = (Ok all, x1) ∧ stored_md (b_store s') md' ∧ complete_version opts all md' (view (b_store s')) v.
Proof.
  intros Hi Henv Hs H. destruct (RunBackup_effect _ _ _ _ _ _ _ Hi Henv H) as [Hi' Hcase].
  destruct Hcase as [[Hno _]|(md & old & run & all & x1 & s1 & g & v0 & trees & Hph & HL & Hfi & Hco & Hv)]; [by destruct (Hno v)|].
  rewrite <- (Hv _ eq_refl) in Hco. clear v0 Hv.
  assert (sound md (view st)) as Hs0 by (eapply loaded_sound; [by eapply fi_loaded|done]).
  destruct (committed_complete Hph Hfi Hco Hs0) as [?|?]; [by left|right].
  eexists all, x1, _. split_and!; [done|by eapply co_stored|done].
Qed.

(** ** Properties *)

(** C2. A backup run never damages a store. Whatever its goroutines do
    concurrently, whatever the outcome, at whatever storage call it stops: the
    metadata stays readable, and is either the one from before or has exactly one
    version more (in single-version mode, that version only), whose ID was not in
    use. That version is complete even if the run fails after the commit: when the
    store was usable before (every record filed under its own key and with its part),
    it resolves to exactly the entries that the filter keeps, with a record and a
    part object for each file, unless two of the directories gathered have the same
    SHA-256. In multi-version mode (or when nothing was committed) every version
    from before resolves to the same listing, with the same record and the
    same part object for each of its files, unless two different directory
    nodes of the store have the same SHA-256. *)
Theorem RunBackup_safe env L opts st x r s' md :
  stored_md st md → run_typed L opts → RunBackup_run env L opts (open_run st x) r s' →
  ∃ md', stored_md (b_store s') md' ∧
    (md' = md ∧ (∀ v, r ≠ Ok v) ∨
     ∃ v, Versions md !! FormatUint (SnowflakeId v) = None ∧ (∀ v', r = Ok v' → v' = v) ∧
       Versions md' = <[FormatUint (SnowflakeId v) := v]> (if SingleVersionMode opts then ∅ else Versions md) ∧
       (sound md (view st) →
        run_collision env L opts (open_run st x) ∨
        ∃ all x1, L x = (Ok all, x1) ∧ complete_version opts all md' (view (b_store s')) v)) ∧
    (md' = md ∨ SingleVersionMode opts = false →
     ∀ u listing, ResolveVersionTree md u false = Ok listing →
       (ResolveVersionTree md' u false = Ok listing ∨ hash_collision md md') ∧
       ∀ p k, listing.1 !! p = Some k → is_Some (Files md !! k) →
         Files md' !! k = Files md !! k ∧ ∀ n, partKeyFor k = Ok n → view (b_store s') !! n = view st !! n).
Proof.
  intros Hst Henv H. pose proof (proj1 Hst) as Hi. destruct (RunBackup_effect _ _ _ _ _ _ _ Hi Henv H) as [Hi' Hcase].
  assert (∀ opts' md0 hasOld, loaded st opts' md0 hasOld → Files md0 = Files md ∧ Versions md0 = Versions md ∧ Trees md0 = Trees md) as Hload.
  { intros opts' md0 hasOld [(_ & md1 & Hst1 & ->)|(_ & Hnone & _)]; [by rewrite (stored_md_inj _ _ _ Hst1 Hst)|].
    destruct Hst as (_ & b & Hb & _). congruence. }
  destruct Hcase as [[Hno Heff]|(md0 & old & run & all & x1 & s1 & g & v & trees & Hph & HL & Hfi & Hco & Hv)].
  - exists md. split_and!; [|by left|].
    + destruct Heff as [Hv|(md0 & old & run & _ & _ & Ht)]; [by eapply stored_md_view|].
      destruct Hst as (_ & b & Hb & Hm). split; [done|]. exists b. by rewrite (touched_tsync _ _ _ Ht).
    + intros _ u listing Hl. split; [by left|]. intros p k _ [rec Hk]. split; [done|]. intros n Hn.
      destruct Heff as [->|(md0 & old & run & Hl0 & He & Ht)]; [done|]. apply Hload in Hl0 as (Ef & _ & _).
      eapply touched_old; [done| |done]. by rewrite He, Ef.
  - destruct (Hload _ _ _ (fi_loaded _ _ _ _ _ _ _ _ _ Hfi)) as (Ef & Ev & Et).
    pose proof (committed_id_fresh Hfi Hco) as Hfresh. rewrite Ev in Hfresh.
    eexists. split_and!; [by eapply co_stored| |].
    + right. exists v. split_and!; [done|done| |].
      * cbn [Versions new_metadata]. rewrite Ev. by destruct (SingleVersionMode opts).
      * intros Hs. assert (sound md0 (view st)) as Hs0.
        { eapply loaded_sound; [by eapply fi_loaded|]. intros md1 Hst1. by rewrite (stored_md_inj _ _ _ Hst1 Hst). }
        destruct (committed_complete Hph Hfi Hco Hs0); [by left|right; eauto].
    + intros Hmode u listing Hl. destruct Hmode as [E|Hs].
      { apply (f_equal (λ m, Versions m !! FormatUint (SnowflakeId v))) in E. cbn [Versions new_metadata] in E.
        by rewrite lookup_insert_eq, Hfresh in E. }
      split.
      * apply resolve_extended; [| |done]; cbn [Versions Trees new_metadata]; rewrite Hs; cbn [negb].
        -- rewrite lookup_insert_ne, Ev; [done|]. intros E. rewrite E in Hfresh.
           unfold ResolveVersionTree in Hl. by rewrite Hfresh in Hl.
        -- intros h n Hn. destruct (trees !! h) as [n'|] eqn:E.
           ++ exists n'. split; [by apply lookup_union_Some_l|]. right.
              by apply (buildTree_hashed _ _ _ _ _ (co_built _ _ _ _ _ _ _ _ _ _ Hco)).
           ++ exists n. rewrite lookup_union_r, Et by done. auto.
      * intros p k _ [rec Hk]. rewrite <- Ef in Hk.
        pose proof (new_files_old (v := v) (trees := trees) Hfi k rec Hs Hk) as Hnew. split; [rewrite <- Ef, Hk; exact Hnew|].
        intros n Hn. rewrite (committed_part Hco k n) by eauto.
        destruct (fi_run _ _ _ _ _ _ _ _ _ Hfi) as (_ & Ht & _). eapply touched_old; [exact Ht| |exact Hn].
        by rewrite (fi_existing _ _ _ _ _ _ _ _ _ Hfi).
Qed.

(** C4. A usable store stays usable: if every record of the stored metadata is
    filed under its own key and has its part object, then the same holds after
    a run, in both modes, whether it succeeded, failed or was cut off, and
    also when the run created the store. *)
Theorem RunBackup_sound env L opts st x r s' :
  inv st → run_typed L opts → (∀ md, stored_md st md → sound md (view st)) →
  RunBackup_run env L opts (open_run st x) r s' →
  ∀ md', stored_md (b_store s') md' → sound md' (view (b_store s')).
Proof.
  intros Hi Henv Hs H md' Hst'. destruct (RunBackup_effect _ _ _ _ _ _ _ Hi Henv H) as [Hi' Hcase].
  destruct Hcase as [[_ [Hv|(md0 & old & run & _ & _ & Ht)]]|(md0 & old & run & all & x1 & s1 & g & v & trees & _ & _ & Hfi & Hco & _)].
  - rewrite Hv. apply Hs. by eapply stored_md_view.
  - destruct (Hs md') as [Hk Hp]; [by eapply touched_stored_md|]. split; [done|].
    intros k rec Hkr. destruct (Hp _ _ Hkr) as (n & ? & ?). exists n. split; [done|]. by eapply touched_present.
  - rewrite (stored_md_inj _ _ _ Hst' (co_stored _ _ _ _ _ _ _ _ _ _ Hco)).
    apply (committed_sound Hfi Hco). eapply loaded_sound; [by eapply fi_loaded|done].
Qed.

(** C3. A successful run on a usable store (every stored record filed under its
    own key, with its part object) backs up exactly what was selected: the version
    it returns is in the stored metadata and resolves; its files are the entries
    of the source that the filter keeps, its empty directories are those among
    the kept directories with nothing below them; every file is listed under
    the key that its entry has, with a record for that content and its part
    object in the storage. That is so unless two of the directories gathered have
    the same SHA-256. *)
Theorem RunBackup_resolves env L opts st x v s' :
  inv st → run_typed L opts → (∀ md, stored_md st md → sound md (view st)) →
  RunBackup_run env L opts (open_run st x) (Ok v) s' →
  run_collision env L opts (open_run st x) ∨
  ∃ all x1 md' fs ds, L x = (Ok all, x1) ∧ stored_md (b_store s') md' ∧
    Versions md' !! FormatUint (SnowflakeId v) = Some v ∧
    ResolveVersionTree md' (SnowflakeId v) false = Ok (fs, ds) ∧
    let es := filter (λ e, kept opts e = true) all in
    (∀ p, is_Some (fs !! p) ↔ ∃ e, e ∈ es ∧ Path e = p ∧ isDirEntry e = false) ∧
    (∀ p, p ∈ ds ↔ empty_dir_entry es p) ∧
    (∀ p k, fs !! p = Some k →
       (∃ e, e ∈ es ∧ Path e = p ∧ isDirEntry e = false ∧ has_key e k) ∧
       ∃ rec n, Files md' !! k = Some rec ∧ fileKeyFor (Crc32 rec) (UncompressedSize rec) = k ∧
         partKeyFor k = Ok n ∧ is_Some (view (b_store s') !! n)).
Proof.
  intros Hi Henv Hs H. destruct (RunBackup_listed _ _ _ _ _ _ _ Hi Henv Hs H) as [?|(all & x1 & md' & HL & Hst & Hv & fs & ds & Hres & Hall)]; [by left|right].
  by exists all, x1, md', fs, ds.
Qed.

(** C32. What a successful run records: the version carries the label and the
    timestamp of the options (or the current time), follows the latest version
    of the store, and has a fresh positive ID within 63 bits, the custom one if
    given; a custom timestamp is later than that of the latest version and at
    most an hour ahead of the clock. The store keeps its public keys, extended
    by those of the run, but loses its label. *)
Theorem RunBackup_version env L opts st x v s' md :
  stored_md st md → run_typed L opts → RunBackup_run env L opts (open_run st x) (Ok v) s' →
  0 < SnowflakeId v ≤ max_int64 ∧ Versions md !! FormatUint (SnowflakeId v) = None ∧
  (CustomVersionID opts ≠ 0 → SnowflakeId v = CustomVersionID opts) ∧
  Label v = opt_Label opts ∧
  BackupTimestamp v = Some (timestamppb_New (default (now_version env) (CustomBackupTimestamp opts))) ∧
  PrecedingVersionId v = match latestVersion md with Some l => SnowflakeId l | None => 0 end ∧
  (∀ t, CustomBackupTimestamp opts = Some t → t ≤ now_options env + futureTimestampTolerance ∧
     ∀ l, latestVersion md = Some l → AsTime (BackupTimestamp l) < t) ∧
  ∃ md', stored_md (b_store s') md' ∧ PublicKeys md' = opt_PublicKeys opts ∪ PublicKeys md ∧ StoreLabel md' = None.
Proof.
  intros Hst Henv H. pose proof (proj1 Hst) as Hi. destruct (RunBackup_effect _ _ _ _ _ _ _ Hi Henv H) as [Hi' Hcase].
  destruct Hcase as [[Hno _]|(md0 & old & run & all & x1 & s1 & g & v0 & trees & _ & _ & Hfi & Hco & Hv)]; [by destruct (Hno v)|].
  rewrite <- (Hv _ eq_refl) in Hco. clear v0 Hv.
  assert (md0 = merge_keys opts md) as ->.
  { destruct (fi_loaded _ _ _ _ _ _ _ _ _ Hfi) as [(_ & md1 & Hst1 & ->)|(_ & Hnone & _)]; [by rewrite (stored_md_inj _ _ _ Hst1 Hst)|].
    destruct Hst as (_ & b & Hb & _). congruence. }
  pose proof (committed_id_fresh Hfi Hco) as Hfresh. change (latestVersion (merge_keys opts md)) with (latestVersion md) in *.
  pose proof (fi_valid _ _ _ _ _ _ _ _ _ Hfi) as (_ & _ & _ & _ & Hmax & Hfut & _)%validateBackupOptions_Ok.
  pose proof (fi_order _ _ _ _ _ _ _ _ _ Hfi) as Hord. destruct Henv as [Hid _].
  pose proof (co_version _ _ _ _ _ _ _ _ _ _ Hco) as Ev. pose proof (co_id _ _ _ _ _ _ _ _ _ _ Hco) as Evid.
  split_and!.
  1, 2: destruct (version_id_range _ _ _ _ Evid) as [[-> ?]|[? _]]; unfold is_u64 in Hid; lia.
  - done.
  - intros Hne. unfold version_id in Evid. rewrite (proj2 (Z.eqb_neq _ _) Hne) in Evid. congruence.
  - by rewrite Ev.
  - by rewrite Ev.
  - by rewrite Ev.
  - intros t Ht. split; [by apply Hfut|]. intros l Hl. unfold check_order in Hord. rewrite guard_Ok in Hord.
    destruct Hord as [_ Hord]. rewrite Ht in Hord. change (latestVersion (merge_keys opts md)) with (latestVersion md) in Hord.
    rewrite Hl, !guard_Ok in Hord. destruct Hord as (?%Z.eqb_neq & ?%Z.ltb_ge & _). lia.
  - eexists. split_and!; [by eapply co_stored|done|done].
Qed.


(** C10. Uploading one part is atomic, and what it stores is what its name
    says. Over a storage whose writers can be aborted, as those of this library:
    whatever happens, the only object that may change is that of the
    key, and if it changes it becomes the whole part of some content with the
    CRC-32 and size of the key. On success that content is what the source
    delivered to the end; for a plain file the recorded CRC-32 and size are
    those of its bytes; an encrypted part is copied as it is, and in full. *)
Theorem uploadPart_atomic run key entry s r s' :
  inv (b_store s) → content_key key → uploadPart run key entry s = (r, s') →
  ∃ pk, partKeyFor key = Ok pk ∧ inv (b_store s') ∧
    (view (b_store s') = view (b_store s) ∧ (∀ rec, r ≠ Ok rec) ∨
     ∃ out, part_of run key out ∧ view (b_store s') = <[pk := out]> (view (b_store s)) ∧
       ∀ rec, r = Ok rec → fileKeyFor (Crc32 rec) (UncompressedSize rec) = key ∧
         ∃ open content x, opener entry = Some open ∧ open (b_src s) = (Ok (content, None), x) ∧
           (IsEncryptedRaw entry = true → out = content ∧ se_CompressedSize entry ≤ blen content) ∧
           (IsEncryptedRaw entry = false → OpenRawCompressed entry = None →
              Crc32 rec = CRC32.Sum32 content ∧ UncompressedSize rec = i64 (blen content))).
Proof.
  intros Hi Hck H. destruct (content_key_part _ Hck) as (pk & Hpk & Hrel).
  destruct (uploadPart_spec _ _ _ _ _ _ _ Hi Hpk Hrel H) as (Hi' & _ & Hcase). exists pk. split_and!; [done..|].
  destruct Hcase as [?|[Hup Hok]]; [by left|right].
  destruct Hup as (m & l & b & out & crc & size & comp & Hobj & Hkey & Hv). exists out.
  split_and!; [by exists entry, m, l, b, crc, size, comp|done|]. intros rec Hrec.
  destruct (Hok _ Hrec) as (open & [content e] & x & m' & l' & out' & crc' & size' & comp' & Ho & Hopen & He & Hobj' & Hv' & -> & Hkey').
  cbn [snd] in He. subst e. rewrite Hv in Hv'. apply (f_equal (.!! pk)) in Hv'. rewrite !lookup_insert_eq in Hv'. injection Hv' as <-. cbn [fst] in Hobj'. split; [done|].
  exists open, content, x. split_and!; [done|done|..]; unfold part_object in Hobj'.
  - intros E. rewrite E in Hobj'. destruct (Z.ltb_spec (blen content) (se_CompressedSize entry)); [done|].
    injection Hobj' as <- _ _ _. done.
  - intros E1 E2. rewrite E1, E2 in Hobj'. apply obind_Ok in Hobj' as ([o fh] & Hz & [= _ <- <- _]).
    apply CreateFileParts_content in Hz as [E3 E4]. rewrite chunks_concat in E3, E4. cbn [Crc32 UncompressedSize new_record snd].
    by rewrite E3, E4.
Qed.

End Props.

(** The example run, with a storage fault of its choice. *)
Section Witnesses.
Import BackupExample.
#[local] Existing Instances world chunking ToyZip.zip ToyZip.zip_laws ToyBox.box some_range Mem.storage Mem.laws proto proto_laws.

Lemma RunBackup_safe_witness :
  let out := run false [Mem.FNone; Mem.FNone; Mem.FNone; Mem.FNone; Mem.FNone; Mem.FAfter] in
  let st : store := initial [Mem.FNone; Mem.FNone; Mem.FNone; Mem.FNone; Mem.FNone; Mem.FAfter] in
  let md := ClientExample.md in
  ∃ md', stored_md (b_store out.2) md' ∧
    (md' = md ∧ (∀ v, out.1 ≠ Ok v) ∨
     ∃ v, Versions md !! FormatUint (SnowflakeId v) = None ∧ (∀ v', out.1 = Ok v' → v' = v) ∧
       Versions md' = <[FormatUint (SnowflakeId v) := v]> (Versions md) ∧
       (sound md (view st) →
        run_collision env listing (opts false) (open_run st tt) ∨
        ∃ all x1, listing tt = (Ok all, x1) ∧ complete_version (opts false) all md' (view (b_store out.2)) v)) ∧
    (md' = md ∨ SingleVersionMode (opts false) = false →
     ∀ u listing, ResolveVersionTree md u false = Ok listing →
       (ResolveVersionTree md' u false = Ok listing ∨ hash_collision md md') ∧
       ∀ p k, listing.1 !! p = Some k → is_Some (Files md !! k) →
         Files md' !! k = Files md !! k ∧ ∀ n, partKeyFor k = Ok n → view (b_store out.2) !! n = view st !! n).
Proof.
  intros out st md. apply (RunBackup_safe env listing (opts false) st tt out.1 out.2 md).
  - apply stored.
  - apply typed_run.
  - apply is_run.
Defined.

Lemma RunBackup_sound_witness :
  let out := run true [] in
  out.1 = Ok (version true) ∧ ∀ md', stored_md (b_store out.2) md' → sound md' (view (b_store out.2)).
Proof.
  intros out. split; [vm_compute; reflexivity|].
  apply (RunBackup_sound env listing (opts true) (initial []) tt out.1 out.2).
  - exact I.
  - apply typed_run.
  - apply sound_.
  - apply is_run.
Defined.

Lemma RunBackup_resolves_witness :
  let out := run false [] in let v := version false in
  run_collision env listing (opts false) (open_run (initial []) tt) ∨
  ∃ all x1 md' fs ds, listing tt = (Ok all, x1) ∧ stored_md (b_store out.2) md' ∧
    Versions md' !! FormatUint (SnowflakeId v) = Some v ∧
    ResolveVersionTree md' (SnowflakeId v) false = Ok (fs, ds) ∧
    let es := filter (λ e, kept (opts false) e = true) all in
    (∀ p, is_Some (fs !! p) ↔ ∃ e, e ∈ es ∧ Path e = p ∧ isDirEntry e = false) ∧
    (∀ p, p ∈ ds ↔ empty_dir_entry es p) ∧
    (∀ p k, fs !! p = Some k →
       (∃ e, e ∈ es ∧ Path e = p ∧ isDirEntry e = false ∧ has_key e k) ∧
       ∃ rec n, Files md' !! k = Some rec ∧ fileKeyFor (Crc32 rec) (UncompressedSize rec) = k ∧
         partKeyFor k = Ok n ∧ is_Some (view (b_store out.2) !! n)).
Proof.
  intros out v. apply (RunBackup_resolves env listing (opts false) (initial []) tt v out.2).
  - exact I.
  - apply typed_run.
  - apply sound_.
  - assert (out.1 = Ok v) as E by (vm_compute; reflexivity). rewrite <- E. apply is_run.
Defined.

Lemma RunBackup_version_witness :
  let out := run false [] in let v := version false in let md := ClientExample.md in
  0 < SnowflakeId v ≤ max_int64 ∧ Versions md !! FormatUint (SnowflakeId v) = None ∧
  (CustomVersionID (opts false) ≠ 0 → SnowflakeId v = CustomVersionID (opts false)) ∧
  Label v = opt_Label (opts false) ∧
  BackupTimestamp v = Some (timestamppb_New (default (now_version env) (CustomBackupTimestamp (opts false)))) ∧
  PrecedingVersionId v = match latestVersion md with Some l => SnowflakeId l | None => 0 end ∧
  (∀ t, CustomBackupTimestamp (opts false) = Some t → t ≤ now_options env + futureTimestampTolerance ∧
     ∀ l, latestVersion md = Some l → AsTime (BackupTimestamp l) < t) ∧
  ∃ md', stored_md (b_store out.2) md' ∧ PublicKeys md' = opt_PublicKeys (opts false) ∪ PublicKeys md ∧ StoreLabel md' = None.
Proof.
  intros out v md. apply (RunBackup_version env listing (opts false) (initial []) tt v out.2 md).
  - apply stored.
  - apply typed_run.
  - assert (out.1 = Ok v) as E by (vm_compute; reflexivity). rewrite <- E. apply is_run.
Defined.


Lemma uploadPart_atomic_witness :
  let run := upload_run in let entry := entry "docs/new.txt" "hello" false in let key := "3610a686_5" in
  let s := open_run (initial []) tt in let out := uploadPart run key entry s in
  ∃ pk, partKeyFor key = Ok pk ∧ inv (b_store out.2) ∧
    (view (b_store out.2) = view (b_store s) ∧ (∀ rec, out.1 ≠ Ok rec) ∨
     ∃ o, part_of run key o ∧ view (b_store out.2) = <[pk := o]> (view (b_store s)) ∧
       ∀ rec, out.1 = Ok rec → fileKeyFor (Crc32 rec) (UncompressedSize rec) = key ∧
         ∃ open content x, opener entry = Some open ∧ open (b_src s) = (Ok (content, None), x) ∧
           (IsEncryptedRaw entry = true → o = content ∧ se_CompressedSize entry ≤ blen content) ∧
           (IsEncryptedRaw entry = false → OpenRawCompressed entry = None →
              Crc32 rec = CRC32.Sum32 content ∧ UncompressedSize rec = i64 (blen content))).
Proof.
  intros run entry key s out. apply (uploadPart_atomic run key entry s out.1 out.2).
  - exact I.
  - exists (CRC32.Sum32 (bytes_of_string "hello")), 5. vm_compute. reflexivity.
  - apply surjective_pairing.
Defined.

End Witnesses.
