(* ===== verification/ZipDir.v ===== *)
(** Locating the parts of a zip archive ([tsync/zip_utils.go]): the end
    records, the cached reader handed to the zip library, and the ranges of
    the entries.

    Offsets are [int64] and every addition wraps as in Go; slicing out of
    bounds panics.  The zip library itself ([zip.NewReader]) is a parameter. *)

From Stdlib Require Import Strings.Byte.
From S2P Require Import Prelude Errors GoStrings Digest.
#[local] Open Scope Z_scope.

(** ** Standard library pieces *)

Definition len (b : bytes) : Z := Z.of_nat (length b).

(** [b[lo:hi]] and [b[lo:]]; out of range panics. *)
Definition slice (b : bytes) (lo hi : Z) : res bytes :=
  if (0 <=? lo) && (lo <=? hi) && (hi <=? len b)
  then Ok (take (Z.to_nat (hi - lo)) (drop (Z.to_nat lo) b)) else Panic.

(** [binary.LittleEndian.Uint16/32/64]; a short slice panics. *)
Fixpoint le_value (b : bytes) : Z :=
  match b with
  | [] => 0
  | x :: b => byte_val x + 256 * le_value b
  end.
Definition le_read (w : nat) (b : bytes) : res Z :=
  if (length b <? w)%nat then Panic else Ok (le_value (take w b)).
Definition Uint16 : bytes → res Z := le_read 2.
Definition Uint32 : bytes → res Z := le_read 4.
Definition Uint64 : bytes → res Z := le_read 8.

(** [binary.LittleEndian.Put...]: the bytes of an integer. *)
Fixpoint le_bytes (w : nat) (z : Z) : bytes :=
  match w with
  | O => []
  | S w => default x00 (Byte.of_N (Z.to_N (z mod 256))) :: le_bytes w (z / 256)
  end.

(** [io.ReaderAt]: a call for [n] bytes at an offset delivers at most [n]
    bytes, and an error. *)
Definition ReaderAt : Type := Z → Z → bytes * option error.
Definition read_at (r : ReaderAt) (n off : Z) : bytes * option error :=
  let x := r off n in (take (Z.to_nat n) x.1, x.2).
Definition is_EOF (e : error) : bool :=
  match e with ESentinel IoEOF => true | _ => false end.

(** ** The directory *)

Definition eocdLen : Z := 22.
Definition eocdSignature : Z := 0x06054b50.
Definition zip64LocatorLen : Z := 20.
Definition zip64LocatorSig : Z := 0x07064b50.
Definition zip64EOCDLen : Z := 56.
Definition zip64EOCDSignature : Z := 0x06064b50.

Record zipDirectory := {
  eocdOffset : Z;
  cdOffset : Z;
  cdSize : Z;
  records : Z;
  tailOffset : Z;
  tail : bytes;
}.

Definition add64 (a b : Z) : Z := i64 (a + b).

(** Whether the record at [i] has the signature and a comment that reaches
    exactly to the end of [tail]. *)
Definition eocd_at (tail : bytes) (i : Z) : res bool :=
  let! from := slice tail i (len tail) in
  let! sig := Uint32 from in
  if negb (sig =? eocdSignature) then Ok false
  else
    let! c := slice tail (i + 20) (len tail) in
    let! commentLen := Uint16 c in
    Ok (i + eocdLen + commentLen =? len tail).

(** The backward scan, from [i] down to 0. *)
Fixpoint scan (tail : bytes) (i : nat) : res (option Z) :=
  let! found := eocd_at tail (Z.of_nat i) in
  if found then Ok (Some (Z.of_nat i))
  else match i with
       | O => Ok None
       | S i => scan tail i
       end.

(** [readAtCached]; bytes that the reader did not deliver stay zero. *)
Definition readAtCached (r : ReaderAt) (d : zipDirectory) (off n : Z) : res bytes :=
  if (tailOffset d <=? off) && (add64 off n <=? add64 (tailOffset d) (len (tail d))) then
    let s := i64 (off - tailOffset d) in
    slice (tail d) s (add64 s n)
  else
    let x := read_at r n off in
    match x.2 with
    | Some e => if is_EOF e then Ok (x.1 ++ replicate (Z.to_nat n - length x.1) x00) else Err e
    | None => Ok (x.1 ++ replicate (Z.to_nat n - length x.1) x00)
    end.

Definition wrap_res {A} (msg : string) (x : res A) : res A :=
  match x return res A with
  | Err e => Err (Errorf msg [e])
  | _ => x
  end.

(** The zip64 records in front of the EOCD; returns the directory and where
    it must end. *)
Definition read_zip64 (r : ReaderAt) (d : zipDirectory) : res (zipDirectory * Z) :=
  if zip64LocatorLen <=? eocdOffset d then
    let! loc := wrap_res "failed to read zip64 locator"
                  (readAtCached r d (eocdOffset d - zip64LocatorLen) zip64LocatorLen) in
    let! sig := Uint32 loc in
    if sig =? zip64LocatorSig then
      let! tl := slice loc 8 (len loc) in
      let! off := Uint64 tl in
      let recOffset := i64 off in
      if (recOffset <? 0) || (eocdOffset d - zip64LocatorLen <? add64 recOffset zip64EOCDLen) then
        Err (wrap1 ErrCorruptZip "zip64 end of central directory offset out of range")
      else
        let! rec := wrap_res "failed to read zip64 end of central directory"
                      (readAtCached r d recOffset zip64EOCDLen) in
        let! sig := Uint32 rec in
        if negb (sig =? zip64EOCDSignature) then
          Err (wrap1 ErrCorruptZip "bad zip64 end of central directory signature")
        else
          let! r32 := slice rec 32 (len rec) in
          let! r40 := slice rec 40 (len rec) in
          let! r48 := slice rec 48 (len rec) in
          let! records := Uint64 r32 in
          let! size := Uint64 r40 in
          let! offset := Uint64 r48 in
          Ok ({| eocdOffset := eocdOffset d; cdOffset := i64 offset; cdSize := i64 size;
                 records := records; tailOffset := tailOffset d; tail := tail d |}, recOffset)
    else Ok (d, eocdOffset d)
  else Ok (d, eocdOffset d).

(** [readZipDirectory]. *)
Definition readZipDirectory (r : ReaderAt) (size : Z) : res zipDirectory :=
  if size <? eocdLen then Err (wrap1 ErrNotZip "file too small")
  else
    let tailLen := if size <? 66 * 1024 then size else 66 * 1024 in
    let tailOffset := size - tailLen in
    let x := read_at r tailLen tailOffset in
    let ok := match x.2 with
              | None => true
              | Some e => is_EOF e && (len x.1 =? tailLen)
              end in
    if negb ok then Err (Errorf "failed to read zip tail" (option_list x.2))
    else
      let tail := x.1 ++ replicate (Z.to_nat tailLen - length x.1) x00 in
      let! pos := scan tail (Z.to_nat (tailLen - eocdLen)) in
      match pos with
      | None => Err (wrap1 ErrNotZip "end of central directory record not found")
      | Some pos =>
          let! eocd := slice tail pos (pos + eocdLen) in
          let! e10 := slice eocd 10 (len eocd) in
          let! e12 := slice eocd 12 (len eocd) in
          let! e16 := slice eocd 16 (len eocd) in
          let! records16 := Uint16 e10 in
          let! cdSize32 := Uint32 e12 in
          let! cdOffset32 := Uint32 e16 in
          let d := {| eocdOffset := tailOffset + pos; cdOffset := cdOffset32; cdSize := cdSize32;
                      records := records16; tailOffset := tailOffset; tail := tail |} in
          let! dd := read_zip64 r d in
          let '(d, dirEnd) := dd in
          if (cdOffset d <? 0) || (cdSize d <? 0) || (dirEnd <? add64 (cdOffset d) (cdSize d)) then
            Err (wrap1 ErrCorruptZip "central directory exceeds directory end")
          else Ok d
      end.

(** [FindEOCD], [GetCentralDirectoryOffset], [ZipEntryCount]. *)
Definition FindEOCD (r : ReaderAt) (size : Z) : res Z :=
  let! d := readZipDirectory r size in Ok (eocdOffset d).
Definition GetCentralDirectoryOffset (r : ReaderAt) (size : Z) : res Z :=
  let! d := readZipDirectory r size in Ok (cdOffset d).
Definition ZipEntryCount (r : ReaderAt) (size : Z) : res Z :=
  let! d := readZipDirectory r size in Ok (records d).

(** ** The cached reader *)

Record cachedTailReaderAt := { c_r : ReaderAt; cacheOffset : Z; cache : bytes }.

(** The part served from memory. *)
Definition cached_read (c : cachedTailReaderAt) (n off : Z) : res (bytes * option error) :=
  let endc := add64 (cacheOffset c) (len (cache c)) in
  if endc <=? off then Ok ([], Some (ESentinel IoEOF))
  else
    let! from := slice (cache c) (i64 (off - cacheOffset c)) (len (cache c)) in
    let b := take (Z.to_nat n) from in
    Ok (b, if len b <? n then Some (ESentinel IoEOF) else None).

(** [cachedTailReaderAt.ReadAt] into a buffer of [n] bytes. *)
Definition c_ReadAt (c : cachedTailReaderAt) (n off : Z) : res (bytes * option error) :=
  if off <? 0 then Ok ([], Some (wrap1 ErrCorruptZip "negative offset"))
  else if cacheOffset c <=? off then cached_read c n off
  else
    let head := if cacheOffset c <? add64 off n then i64 (cacheOffset c - off) else n in
    if (head <? 0) || (n <? head) then Panic
    else
      let x := read_at (c_r c) head off in
      match x.2 with
      | Some e => Ok (x.1, Some e)
      | None =>
          if len x.1 <? head then Ok (x.1, Some (ESentinel IoErrUnexpectedEOF))
          else if head =? n then Ok (x.1, None)
          else
            let! rest := cached_read c (n - head) (cacheOffset c) in
            Ok (x.1 ++ rest.1, rest.2)
      end.

(** ** Part ranges *)

(** The fields of [zip.File] that the program reads. *)
Record zipFile := {
  f_Name : string;
  f_HeaderOffset : Z;
  f_CRC32 : Z;
  f_CompressedSize64 : Z;
  f_UncompressedSize64 : Z;
  f_Method : Z;
  f_Flags : Z;
  f_Extra : bytes;
  f_ModifiedDate : Z;
  f_ModifiedTime : Z;
}.

Record ZipPartRange := {
  pr_Name : string;
  StartOffset : Z;
  EndOffset : Z;
  pr_File : zipFile;
}.

Definition offset_le (f g : zipFile) : Prop := f_HeaderOffset f ≤ f_HeaderOffset g.
#[export] Instance offset_le_dec f g : Decision (offset_le f g).
Proof. unfold offset_le. apply _. Defined.

(** Every header must lie in front of the directory. *)
Fixpoint check_offsets (cd : Z) (files : list zipFile) : res unit :=
  match files with
  | [] => Ok tt
  | f :: files =>
      if (f_HeaderOffset f <? 0) || (cd <=? f_HeaderOffset f)
      then Err (wrap1 ErrCorruptZip "local header offset outside data area")
      else check_offsets cd files
  end.

(** The ranges of the sorted files: each ends where the next one starts. *)
Fixpoint part_ranges (cd : Z) (files : list zipFile) : res (list ZipPartRange) :=
  match files with
  | [] => Ok []
  | f :: rest =>
      let endo := match rest with [] => cd | g :: _ => f_HeaderOffset g end in
      if endo <=? f_HeaderOffset f then
        match rest with
        | [] => Panic
        | _ :: _ => Err (wrap1 ErrCorruptZip "entries share local header offset")
        end
      else
        let! ranges := part_ranges cd rest in
        Ok ({| pr_Name := f_Name f; StartOffset := f_HeaderOffset f; EndOffset := endo; pr_File := f |} :: ranges)
  end.

(** The ranges of the entries that the library lists. *)
Definition sorted_ranges (cd : Z) (files : list zipFile) : res (list ZipPartRange) :=
  let! _ := check_offsets cd files in
  part_ranges cd (merge_sort offset_le files).

Section Ranges.
(** [zip.NewReader(ra, size)]: the entries of the archive. *)
Context (zip_NewReader : (Z → Z → res (bytes * option error)) → Z → res (list zipFile)).

(** The cache of [GetZipPartRanges]: the directory and everything after it. *)
Definition load_cache (ra : ReaderAt) (size : Z) (d : zipDirectory) : res (Z * bytes) :=
  if cdOffset d <? tailOffset d then
    let headLen := tailOffset d - cdOffset d in
    let x := read_at ra headLen (cdOffset d) in
    let ok := match x.2 with
              | None => true
              | Some e => is_EOF e && (len x.1 =? headLen)
              end in
    if negb ok then Err (Errorf "failed to read central directory" (option_list x.2))
    else Ok (cdOffset d, x.1 ++ replicate (Z.to_nat headLen - length x.1) x00 ++ tail d)
  else Ok (tailOffset d, tail d).

(** [PutUint16(cache[i:], 0)]: clears the comment length. *)
Definition clear16 (b : bytes) (i : Z) : res bytes :=
  let! rest := slice b i (len b) in
  if len rest <? 2 then Panic
  else Ok (take (Z.to_nat i) b ++ [x00; x00] ++ drop (Z.to_nat i + 2) b).

(** [GetZipPartRanges]. *)
Definition GetZipPartRanges (ra : ReaderAt) (size : Z) : res (list ZipPartRange) :=
  let! d := readZipDirectory ra size in
  let! c := load_cache ra size d in
  let '(cacheOffset, cache) := c in
  let eocdEnd := eocdOffset d + eocdLen in
  let! cache := slice cache 0 (eocdEnd - cacheOffset) in
  let! cache := clear16 cache (eocdOffset d - cacheOffset + 20) in
  let cra := {| c_r := ra; cacheOffset := cacheOffset; cache := cache |} in
  match zip_NewReader (λ off n, c_ReadAt cra n off) eocdEnd with
  | Err e => Err (Errorf "failed to parse central directory" [ESentinel ErrCorruptZip; e])
  | Panic => Panic
  | OutOfFuel => OutOfFuel
  | Ok files =>
      if negb (u16 (Z.of_nat (length files)) =? u16 (records d)) then
        Err (wrap1 ErrCorruptZip "central directory entries and end record disagree")
      else sorted_ranges (cdOffset d) files
  end.

End Ranges.

(** ** MS-DOS times *)

(** Days from 1970-01-01 to the first day of a year and of a month
    (proleptic Gregorian calendar). *)
Definition is_leap (y : Z) : bool := (y mod 4 =? 0) && (negb (y mod 100 =? 0) || (y mod 400 =? 0)).
Definition days_to_year (y : Z) : Z :=
  let p := y - 1 in 365 * (y - 1970) + (p / 4 - 492) - (p / 100 - 19) + (p / 400 - 4).
Definition days_to_month (y m : Z) : Z :=
  nth (Z.to_nat (m - 1)) [0; 31; 59; 90; 120; 151; 181; 212; 243; 273; 304; 334] 0 +
  (if (2 <? m) && is_leap y then 1 else 0).

(** [time.Date(...).UnixNano()] in UTC; a month outside 1 to 12 moves the
    year. *)
Definition time_Date (year month day hour min sec : Z) : Z :=
  let y := year + (month - 1) / 12 in
  let m := (month - 1) mod 12 + 1 in
  (((days_to_year y + days_to_month y m + (day - 1)) * 24 + hour) * 60 + min) * 60 * 10 ^ 9 + sec * 10 ^ 9.

(** [MSDosTimeToTime]. *)
Definition MSDosTimeToTime (dosDate dosTime : Z) : Z :=
  let seconds := u16 (Z.land dosTime 0x1F * 2) in
  let minutes := Z.land (Z.shiftr dosTime 5) 0x3F in
  let hours := Z.land (Z.shiftr dosTime 11) 0x1F in
  let day := Z.land dosDate 0x1F in
  let month := Z.land (Z.shiftr dosDate 5) 0x0F in
  let year := Z.land (Z.shiftr dosDate 9) 0x7F + 1980 in
  time_Date year month day hours minutes seconds.

Example MSDosTime_known : MSDosTimeToTime 0x5721 0x6c36 = 1693575224 * 10 ^ 9.
Proof. vm_compute. reflexivity. Qed.

(** ** Bytes of integers *)

Lemma length_le_bytes w z : length (le_bytes w z) = w.
Proof. revert z. induction w as [|w IH]; intros z; simpl; auto. Qed.

Lemma byte_val_of_N n : 0 ≤ n < 256 → byte_val (default x00 (Byte.of_N (Z.to_N n))) = n.
Proof.
  intros Hn. destruct (Byte.of_N (Z.to_N n)) as [b|] eqn:E.
  - simpl. apply Byte.to_of_N in E. unfold byte_val. rewrite E. lia.
  - apply Byte.of_N_None_iff in E. lia.
Qed.

Lemma le_value_bytes w z : le_value (le_bytes w z) = z mod 256 ^ Z.of_nat w.
Proof.
  revert z. induction w as [|w IH]; intros z; cbn [le_bytes le_value]; [by rewrite Z.mod_1_r|].
  rewrite byte_val_of_N by (apply Z.mod_pos_bound; lia). rewrite IH.
  rewrite Nat2Z.inj_succ, Z.pow_succ_r by lia. rewrite Z.rem_mul_r by lia. lia.
Qed.

Lemma le_value_bound b : 0 ≤ le_value b < 256 ^ Z.of_nat (length b).
Proof.
  induction b as [|x b IH]; cbn [le_value length]; [simpl; lia|].
  rewrite Nat2Z.inj_succ, Z.pow_succ_r by lia. unfold byte_val. pose proof (Byte.to_N_bounded x). lia.
Qed.

Lemma le_read_app w z b : 0 ≤ z < 256 ^ Z.of_nat w → le_read w (le_bytes w z ++ b) = Ok z.
Proof.
  intros Hz. unfold le_read. rewrite length_app, length_le_bytes.
  destruct (Nat.ltb_spec (w + length b) w); [lia|].
  rewrite take_app_length' by (symmetry; apply length_le_bytes). by rewrite le_value_bytes, Z.mod_small.
Qed.

Lemma le_read_bounds w b z : le_read w b = Ok z → 0 ≤ z < 256 ^ Z.of_nat w.
Proof.
  unfold le_read. destruct (Nat.ltb_spec (length b) w); [done|]. intros [= <-].
  pose proof (le_value_bound (take w b)) as Hb. rewrite length_take in Hb.
  by replace (w `min` length b)%nat with w in Hb by lia.
Qed.

Lemma slice_Ok b lo hi : 0 ≤ lo ≤ hi → hi ≤ len b →
  slice b lo hi = Ok (take (Z.to_nat (hi - lo)) (drop (Z.to_nat lo) b)).
Proof.
  intros. unfold slice. rewrite (proj2 (Z.leb_le 0 lo)), (proj2 (Z.leb_le lo hi)), (proj2 (Z.leb_le hi (len b))) by lia. done.
Qed.

Lemma slice_inv b lo hi x : slice b lo hi = Ok x →
  0 ≤ lo ≤ hi ∧ hi ≤ len b ∧ x = take (Z.to_nat (hi - lo)) (drop (Z.to_nat lo) b).
Proof.
  unfold slice. destruct ((0 <=? lo) && (lo <=? hi) && (hi <=? len b)) eqn:E; [|done].
  rewrite !andb_true_iff, !Z.leb_le in E. intros [= <-]. split_and!; [lia|lia|lia|done].
Qed.

Lemma slice_tail b lo : 0 ≤ lo ≤ len b → slice b lo (len b) = Ok (drop (Z.to_nat lo) b).
Proof.
  intros. rewrite slice_Ok by lia. f_equal. apply take_ge. rewrite length_drop. unfold len in *. lia.
Qed.

(** ** The scan *)

Lemma scan_spec tail i r :
  scan tail i = Ok r →
  match r with
  | Some p => 0 ≤ p ≤ Z.of_nat i ∧ eocd_at tail p = Ok true ∧ ∀ q, p < q ≤ Z.of_nat i → eocd_at tail q = Ok false
  | None => ∀ q, 0 ≤ q ≤ Z.of_nat i → eocd_at tail q = Ok false
  end.
Proof.
  revert r. induction i as [|i IH]; intros r; cbn [scan]; intros (b & Hb & Hr)%obind_Ok; destruct b.
  - injection Hr as <-. split_and!; [lia|lia|done|lia].
  - injection Hr as <-. intros q Hq. by replace q with (Z.of_nat 0) by lia.
  - injection Hr as <-. split_and!; [lia|lia|done|lia].
  - apply IH in Hr. destruct r as [p|].
    + destruct Hr as (? & ? & Hq). split_and!; [lia|lia|done|]. intros q ?.
      destruct (Z.eq_dec q (Z.of_nat (S i))) as [->|]; [done|]. apply Hq. lia.
    + intros q ?. destruct (Z.eq_dec q (Z.of_nat (S i))) as [->|]; [done|]. apply Hr. lia.
Qed.

Lemma eocd_at_total tail i : 0 ≤ i → i + eocdLen ≤ len tail → ∃ b, eocd_at tail i = Ok b.
Proof.
  unfold eocdLen. intros H0 Hi. unfold eocd_at. rewrite slice_tail by lia. cbn [obind].
  unfold Uint32, le_read. rewrite length_drop. unfold len in *.
  destruct (Nat.ltb_spec (length tail - Z.to_nat i) 4); [lia|]. cbn [obind].
  destruct (negb _); [eauto|]. fold (len tail). rewrite slice_tail by (unfold len; lia). cbn [obind].
  unfold Uint16, le_read. rewrite length_drop. unfold len in *.
  destruct (Nat.ltb_spec (length tail - Z.to_nat (i + 20)) 2); [lia|]. cbn [obind]. eauto.
Qed.

Lemma scan_total tail i : Z.of_nat i + eocdLen ≤ len tail → ∃ r, scan tail i = Ok r.
Proof.
  induction i as [|i IH]; intros Hi; cbn [scan].
  - destruct (eocd_at_total tail (Z.of_nat 0)) as [b Hb]; [lia|done|]. rewrite Hb. cbn [obind]. destruct b; eauto.
  - destruct (eocd_at_total tail (Z.of_nat (S i))) as [b Hb]; [lia|done|]. rewrite Hb. cbn [obind].
    destruct b; [eauto|]. apply IH. lia.
Qed.

(** ** What a successful read of the directory guarantees *)

(** The last [66 * 1024] bytes, or all of them. *)
Definition tail_len (size : Z) : Z := Z.min size (66 * 1024).

Record directory_ok (size : Z) (d : zipDirectory) : Prop := {
  dir_tail : tailOffset d = size - tail_len size ∧ len (tail d) = tail_len size;
  dir_eocd : tailOffset d ≤ eocdOffset d ∧ eocdOffset d + eocdLen ≤ size;
  dir_found : eocd_at (tail d) (eocdOffset d - tailOffset d) = Ok true;
  dir_last : ∀ i, eocdOffset d - tailOffset d < i ≤ tail_len size - eocdLen → eocd_at (tail d) i = Ok false;
  dir_nonneg : 0 ≤ cdOffset d ∧ 0 ≤ cdSize d;
  dir_int : is_i64 (cdOffset d) ∧ is_i64 (cdSize d);
  dir_range : cdOffset d + cdSize d ≤ max_int64 → cdOffset d + cdSize d ≤ eocdOffset d;
}.

Lemma wrap_res_Ok {A} msg (x : res A) a : wrap_res msg x = Ok a → x = Ok a.
Proof. by destruct x. Qed.

(** A cached read whose end does not fit [int64] panics. *)
Lemma readAtCached_wraps r d off n x :
  0 ≤ tailOffset d → tailOffset d + len (tail d) ≤ max_int64 →
  is_i64 off → tailOffset d ≤ off → 0 < n < 2 ^ 32 →
  readAtCached r d off n = Ok x → off + n ≤ max_int64.
Proof.
  intros H0 Ht Ho Hle Hn. destruct (Z_le_gt_dec (off + n) max_int64) as [|Hgt]; [done|].
  assert (0 ≤ len (tail d)) by (unfold len; lia).
  unfold readAtCached, add64, is_i64, min_int64, max_int64 in *.
  rewrite (i64_wrap (off + n)), (i64_id (tailOffset d + _)), (i64_id (off - tailOffset d))
    by (unfold is_i64, min_int64, max_int64; lia).
  rewrite !(proj2 (Z.leb_le _ _)) by lia. cbn [andb]. intros (Hlo & Hhi & _)%slice_inv. exfalso.
  destruct (Z_le_gt_dec (off - tailOffset d + n) max_int64) as [|Hg]; unfold max_int64 in *.
  - rewrite i64_id in Hhi by (unfold is_i64, min_int64, max_int64; lia). lia.
  - rewrite i64_wrap in Hlo by (unfold max_int64; lia). lia.
Qed.

Lemma read_zip64_inv r d d' e :
  0 ≤ tailOffset d → tailOffset d + zip64EOCDLen ≤ max_int64 → tailOffset d + len (tail d) ≤ max_int64 →
  eocdOffset d ≤ tailOffset d + len (tail d) →
  read_zip64 r d = Ok (d', e) →
  eocdOffset d' = eocdOffset d ∧ tailOffset d' = tailOffset d ∧ tail d' = tail d ∧
  (e = eocdOffset d ∧ d' = d ∨
   0 ≤ e ∧ e + zip64EOCDLen ≤ eocdOffset d - zip64LocatorLen ∧ is_i64 (cdOffset d') ∧ is_i64 (cdSize d')).
Proof.
  intros H0 Ht0 Ht He. unfold read_zip64. destruct (zip64LocatorLen <=? eocdOffset d); [|intros [= <- <-]; auto 10].
  intros (loc & _ & H)%obind_Ok. apply obind_Ok in H as (sig & _ & H).
  destruct (sig =? zip64LocatorSig); [|injection H as <- <-; auto 10].
  apply obind_Ok in H as (tl & _ & H). apply obind_Ok in H as (off & _ & H).
  destruct ((i64 off <? 0) || (_ <? add64 (i64 off) zip64EOCDLen)) eqn:E; [done|].
  apply orb_false_iff in E as [E1%Z.ltb_ge E2%Z.ltb_ge].
  apply obind_Ok in H as (rec & Hrec%wrap_res_Ok & H). apply obind_Ok in H as (sig2 & _ & H).
  destruct (negb _); [done|]. inv_ok. simpl. pose proof (i64_bounds off) as Hi.
  assert (i64 off + zip64EOCDLen ≤ max_int64) as Hs.
  { unfold zip64EOCDLen in *. destruct (Z_le_gt_dec (tailOffset d) (i64 off)).
    - by eapply readAtCached_wraps.
    - lia. }
  unfold add64 in E2. rewrite i64_id in E2 by (unfold is_i64, min_int64, zip64EOCDLen in *; lia).
  split_and!; try done. right. split_and!; [done|done|apply i64_bounds|apply i64_bounds].
Qed.

Lemma tail_len_bounds size :
  eocdLen ≤ size → eocdLen ≤ tail_len size ≤ size ∧ (tail_len size = size ∨ tail_len size = 66 * 1024).
Proof. unfold eocdLen, tail_len. lia. Qed.

Lemma readZipDirectory_inv r size d :
  is_i64 size → readZipDirectory r size = Ok d → directory_ok size d.
Proof.
  intros Hsize. unfold readZipDirectory. destruct (Z.ltb_spec size eocdLen) as [|Hs]; [done|].
  assert ((if size <? 66 * 1024 then size else 66 * 1024) = tail_len size) as ->
    by (unfold tail_len; destruct (Z.ltb_spec size (66 * 1024)); lia).
  pose proof (tail_len_bounds size Hs) as Hb. remember (tail_len size) as tl eqn:Etl. set (x := read_at r tl (size - tl)).
  destruct (negb _); [done|]. set (t := x.1 ++ _).
  assert (len t = tl) as Hlen.
  { subst t x. unfold read_at, len. cbn [fst]. rewrite length_app, length_replicate, length_take. unfold eocdLen in *. lia. }
  intros (pos & Hscan & H)%obind_Ok. apply scan_spec in Hscan. destruct pos as [pos|]; [|done].
  destruct Hscan as (Hpos & Hat & Hlast). rewrite Z2Nat.id in Hpos, Hlast by lia.
  apply obind_Ok in H as (eocd & Heocd & H). apply obind_Ok in H as (e10 & H10 & H).
  apply obind_Ok in H as (e12 & H12 & H). apply obind_Ok in H as (e16 & H16 & H).
  apply obind_Ok in H as (r16 & Hr16 & H). apply obind_Ok in H as (s32 & Hs32 & H). apply obind_Ok in H as (o32 & Ho32 & H).
  apply le_read_bounds in Hs32, Ho32. change (256 ^ Z.of_nat 4) with (2 ^ 32) in Hs32, Ho32.
  apply obind_Ok in H as ([d' e] & Hz & H).
  apply read_zip64_inv in Hz as (E1 & E2 & E3 & Hcase); cbn [eocdOffset tailOffset tail] in *;
    unfold is_i64, min_int64, max_int64, eocdLen, zip64EOCDLen in *; [|lia..].
  destruct ((cdOffset d' <? 0) || (cdSize d' <? 0) || (e <? add64 (cdOffset d') (cdSize d'))) eqn:Ec; [done|].
  injection H as <-. rewrite !orb_false_iff, !Z.ltb_ge in Ec. destruct Ec as [[Hc1 Hc2] Hc3].
  assert (is_i64 (cdOffset d') ∧ is_i64 (cdSize d') ∧ e ≤ eocdOffset d') as (Hi1 & Hi2 & He).
  { unfold is_i64, min_int64, max_int64, zip64EOCDLen, zip64LocatorLen in *.
    destruct Hcase as [[-> ->]|(He0 & Hadd & ? & ?)]; cbn [cdOffset cdSize eocdOffset]; lia. }
  split; try done.
  - rewrite E2, E3, <- Etl. done.
  - rewrite E1, E2. unfold eocdLen. lia.
  - rewrite E1, E2, E3. by replace (size - tl + pos - (size - tl)) with pos by lia.
  - intros i. rewrite E1, E2, E3. unfold eocdLen. intros. apply Hlast. lia.
  - intros Hno. unfold add64 in Hc3. rewrite i64_id in Hc3; [lia|]. unfold is_i64, min_int64, max_int64 in *. lia.
Qed.

(** ** Archives as bytes *)

(** [bytes.Reader.ReadAt]: the reader of an archive held in memory. *)
Definition bytes_ReaderAt (b : bytes) : ReaderAt := λ off n,
  if off <? 0 then ([], Some (Errorf "bytes.Reader.ReadAt: negative offset" []))
  else if len b <=? off then ([], Some (ESentinel IoEOF))
  else
    let x := take (Z.to_nat n) (drop (Z.to_nat off) b) in
    (x, if len x <? n then Some (ESentinel IoEOF) else None).

(** The end records as an archiver writes them. *)
Definition put_eocd (recs size off : Z) (comment : bytes) : bytes :=
  le_bytes 4 eocdSignature ++ le_bytes 4 0 ++ le_bytes 2 recs ++ le_bytes 2 recs ++
  le_bytes 4 size ++ le_bytes 4 off ++ le_bytes 2 (len comment) ++ comment.
Definition put_zip64 (recs size off : Z) : bytes :=
  le_bytes 4 zip64EOCDSignature ++ le_bytes 8 44 ++ le_bytes 4 0x2d002d ++ le_bytes 8 0 ++
  le_bytes 8 recs ++ le_bytes 8 recs ++ le_bytes 8 size ++ le_bytes 8 off.
Definition put_locator (off : Z) : bytes :=
  le_bytes 4 zip64LocatorSig ++ le_bytes 4 0 ++ le_bytes 8 off ++ le_bytes 4 1.

Lemma len_app a b : len (a ++ b) = len a + len b.
Proof. unfold len. rewrite length_app. lia. Qed.
Lemma len_nonneg b : 0 ≤ len b.
Proof. unfold len. lia. Qed.
Lemma len_le_bytes w z : len (le_bytes w z) = Z.of_nat w.
Proof. unfold len. by rewrite length_le_bytes. Qed.
Lemma len_drop n b : len (drop n b) = Z.max 0 (len b - Z.of_nat n).
Proof. unfold len. rewrite length_drop. lia. Qed.
Lemma len_take n b : len (take n b) = Z.min (Z.of_nat n) (len b).
Proof. unfold len. rewrite length_take. lia. Qed.
Create Rewrite HintDb len.
#[local] Hint Rewrite len_app len_le_bytes len_drop len_take : len.

Lemma len_put_eocd recs size off comment : len (put_eocd recs size off comment) = eocdLen + len comment.
Proof. unfold put_eocd, eocdLen. autorewrite with len. lia. Qed.
Lemma len_put_zip64 recs size off : len (put_zip64 recs size off) = zip64EOCDLen.
Proof. unfold put_zip64, zip64EOCDLen. autorewrite with len. lia. Qed.
Lemma len_put_locator off : len (put_locator off) = zip64LocatorLen.
Proof. unfold put_locator, zip64LocatorLen. autorewrite with len. lia. Qed.
#[local] Hint Rewrite len_put_eocd len_put_zip64 len_put_locator : len.

(** A read within the archive. *)
Lemma bytes_read b n off :
  0 ≤ n → 0 ≤ off → off + n ≤ len b →
  ∃ e, read_at (bytes_ReaderAt b) n off = (take (Z.to_nat n) (drop (Z.to_nat off) b), e) ∧
       len (take (Z.to_nat n) (drop (Z.to_nat off) b)) = n ∧ (e = None ∨ n = 0 ∧ off = len b ∧ e = Some (ESentinel IoEOF)).
Proof.
  intros Hn Ho Hle. unfold read_at, bytes_ReaderAt.
  assert (len (take (Z.to_nat n) (drop (Z.to_nat off) b)) = n) as Hlen by (autorewrite with len; lia).
  rewrite (proj2 (Z.ltb_ge off 0)) by lia. destruct (Z.leb_spec (len b) off).
  - assert (n = 0) as -> by lia. eexists. split_and!; [done|done|]. right. split_and!; [done|lia|done].
  - rewrite Hlen, Z.ltb_irrefl. cbn [fst snd]. rewrite take_take, Nat.min_id. eexists. split_and!; [done|done|by left].
Qed.

Lemma drop_app_len (a b : bytes) n : Z.of_nat n = len a → drop n (a ++ b) = b.
Proof. unfold len. intros. rewrite drop_app_length' by lia. done. Qed.

Lemma slice_drop_Ok b lo : 0 ≤ lo ≤ len b → slice b lo (len b) = Ok (drop (Z.to_nat lo) b).
Proof. apply slice_tail. Qed.

Lemma eocd_at_drop b t i : 0 ≤ i → Z.of_nat t ≤ len b → eocd_at (drop t b) i = eocd_at b (Z.of_nat t + i).
Proof.
  intros Hi Ht. unfold eocd_at, slice. autorewrite with len. rewrite !drop_drop.
  assert (∀ k, 0 ≤ k → ((0 <=? i + k) && (i + k <=? Z.max 0 (len b - Z.of_nat t)) && (Z.max 0 (len b - Z.of_nat t) <=? Z.max 0 (len b - Z.of_nat t)))
    = ((0 <=? Z.of_nat t + i + k) && (Z.of_nat t + i + k <=? len b) && (len b <=? len b))) as Hk by (intros k; lia).
  pose proof (Hk 0 ltac:(lia)) as H0. rewrite !Z.add_0_r in H0. rewrite H0, (Hk 20) by lia.
  clear H0 Hk. destruct (_ && _ && _) eqn:E; [|done].
  replace (t + Z.to_nat i)%nat with (Z.to_nat (Z.of_nat t + i)) by lia.
  replace (Z.to_nat (Z.max 0 (len b - Z.of_nat t) - i)) with (Z.to_nat (len b - (Z.of_nat t + i))) by lia.
  cbn [obind]. destruct (Uint32 _) as [sig| | |]; try done. cbn [obind]. destruct (negb _); [done|].
  match goal with |- obind (if ?c then _ else _) _ = _ => destruct c end; [|done].
  replace (t + Z.to_nat (i + 20))%nat with (Z.to_nat (Z.of_nat t + i + 20)) by lia.
  replace (Z.to_nat (Z.max 0 (len b - Z.of_nat t) - (i + 20))) with (Z.to_nat (len b - (Z.of_nat t + i + 20))) by lia.
  cbn [obind]. destruct (Uint16 _) as [c| | |]; try done. cbn [obind]. f_equal. lia.
Qed.

Lemma scan_unique tail i p :
  0 ≤ p ≤ Z.of_nat i → Z.of_nat i + eocdLen ≤ len tail → eocd_at tail p = Ok true →
  (∀ q, p < q ≤ Z.of_nat i → eocd_at tail q = Ok false) → scan tail i = Ok (Some p).
Proof.
  intros Hp Hi Hat Hafter. destruct (scan_total tail i Hi) as [r Hr]. rewrite Hr. apply scan_spec in Hr.
  destruct r as [p'|].
  - destruct Hr as (Hp' & Hat' & Hafter'). repeat f_equal.
    destruct (Z.lt_trichotomy p p') as [Hlt|[->|Hlt]]; [|done|].
    + rewrite Hafter in Hat' by lia. done.
    + rewrite Hafter' in Hat by lia. done.
  - rewrite Hr in Hat by lia. done.
Qed.

Lemma eocd_at_put pre recs size off comment :
  len comment < 2 ^ 16 → eocd_at (pre ++ put_eocd recs size off comment) (len pre) = Ok true.
Proof.
  intros Hc. pose proof (len_nonneg comment). pose proof (len_nonneg pre).
  unfold eocd_at. rewrite !slice_tail by (autorewrite with len; unfold eocdLen; lia). cbn [obind].
  rewrite drop_app_len by lia. unfold put_eocd at 1. unfold Uint32. rewrite le_read_app by (unfold eocdSignature; lia).
  cbn [obind]. rewrite Z.eqb_refl. cbn [negb].
  replace (Z.to_nat (len pre + 20)) with (Z.to_nat (len pre) + 20)%nat by lia.
  rewrite <- drop_drop, drop_app_len by lia. unfold put_eocd at 1.
  change (drop 20 _) with (le_bytes 2 (len comment) ++ comment).
  unfold Uint16. rewrite le_read_app by lia. cbn [obind]. f_equal. autorewrite with len. unfold eocdLen. lia.
Qed.

(** The checks that end [readZipDirectory]. *)
Definition checked (dd : zipDirectory * Z) : res zipDirectory :=
  let '(d, dirEnd) := dd in
  if (cdOffset d <? 0) || (cdSize d <? 0) || (dirEnd <? add64 (cdOffset d) (cdSize d)) then
    Err (wrap1 ErrCorruptZip "central directory exceeds directory end")
  else Ok d.

(** No end record in the comment of an archive that ends in [put_eocd]. *)
Definition clean_comment (b : bytes) (eocd : Z) : Prop :=
  ∀ i, eocd < i ≤ len b - eocdLen → eocd_at b i = Ok false.

Lemma readZipDirectory_bytes pre recs size off comment :
  let b := pre ++ put_eocd recs size off comment in
  0 ≤ recs < 2 ^ 16 → 0 ≤ size < 2 ^ 32 → 0 ≤ off < 2 ^ 32 → len comment < 2 ^ 16 → clean_comment b (len pre) →
  readZipDirectory (bytes_ReaderAt b) (len b) =
    (let! dd := read_zip64 (bytes_ReaderAt b)
       {| eocdOffset := len pre; cdOffset := off; cdSize := size; records := recs;
          tailOffset := len b - tail_len (len b); tail := drop (Z.to_nat (len b - tail_len (len b))) b |} in
     checked dd).
Proof.
  intros b Hr Hs Ho Hc Hclean. pose proof (len_nonneg comment). pose proof (len_nonneg pre).
  assert (len b = len pre + eocdLen + len comment) as Hlen by (subst b; autorewrite with len; lia).
  unfold readZipDirectory. rewrite (proj2 (Z.ltb_ge (len b) eocdLen)) by (unfold eocdLen in *; lia).
  assert ((if len b <? 66 * 1024 then len b else 66 * 1024) = tail_len (len b)) as ->
    by (unfold tail_len; destruct (Z.ltb_spec (len b) (66 * 1024)); lia).
  pose proof (tail_len_bounds (len b) ltac:(unfold eocdLen in *; lia)) as [Hb Hb2].
  remember (tail_len (len b)) as tl eqn:Etl.
  destruct (bytes_read b tl (len b - tl)) as (e & Hread & Hfull & He); [unfold eocdLen in *; lia..|].
  rewrite Hread. cbn [fst snd]. destruct He as [->|(? & _)]; [|unfold eocdLen in *; lia]. cbn [negb].
  set (t := take _ _) in *. assert (t = drop (Z.to_nat (len b - tl)) b) as Et.
  { subst t. apply take_ge. rewrite length_drop. unfold len in *. lia. }
  replace (Z.to_nat tl - length t)%nat with 0%nat by (unfold len in Hfull; lia). cbn [replicate]. rewrite app_nil_r.
  assert (len pre - (len b - tl) + Z.of_nat (Z.to_nat (len b - tl)) = len pre) as Hpos by lia.
  rewrite (scan_unique t _ (len pre - (len b - tl))); unfold eocdLen in *; [..|lia|lia| |]; cycle 1.
  { rewrite Et, eocd_at_drop by lia. rewrite Z.add_comm, Hpos. by apply eocd_at_put. }
  { intros q Hq. rewrite Et, eocd_at_drop by lia. apply Hclean. unfold eocdLen. lia. }
  cbn [obind].
  assert (drop (Z.to_nat (len pre - (len b - tl))) t = put_eocd recs size off comment) as Edrop.
  { rewrite Et, drop_drop. subst b. apply drop_app_len. lia. }
  rewrite slice_Ok by lia. rewrite Edrop. cbn [obind].
  replace (Z.to_nat (len pre - (len b - tl) + 22 - (len pre - (len b - tl)))) with 22%nat by lia.
  unfold put_eocd.
  change (take 22 _) with (le_bytes 4 eocdSignature ++ le_bytes 4 0 ++ le_bytes 2 recs ++ le_bytes 2 recs ++
    le_bytes 4 size ++ le_bytes 4 off ++ le_bytes 2 (len comment)).
  rewrite !slice_tail by (autorewrite with len; lia). cbn [obind].
  change (drop (Z.to_nat 10) _) with (le_bytes 2 recs ++ le_bytes 4 size ++ le_bytes 4 off ++ le_bytes 2 (len comment)).
  change (drop (Z.to_nat 12) _) with (le_bytes 4 size ++ le_bytes 4 off ++ le_bytes 2 (len comment)).
  change (drop (Z.to_nat 16) _) with (le_bytes 4 off ++ le_bytes 2 (len comment)).
  unfold Uint16, Uint32. rewrite !le_read_app by lia. cbn [obind].
  rewrite <- Et. replace (len b - tl + (len pre - (len b - tl))) with (len pre) by lia. done.
Qed.

Lemma readAtCached_bytes b d off n :
  len b ≤ max_int64 → 0 ≤ tailOffset d ≤ len b → tail d = drop (Z.to_nat (tailOffset d)) b →
  0 ≤ off → 0 < n → off + n ≤ len b →
  readAtCached (bytes_ReaderAt b) d off n = Ok (take (Z.to_nat n) (drop (Z.to_nat off) b)).
Proof.
  intros Hb Ht Htail Ho Hn Hle. unfold readAtCached, add64, max_int64 in *.
  assert (len (tail d) = len b - tailOffset d) as Hlen by (rewrite Htail; autorewrite with len; lia).
  rewrite !(i64_id (_ + _)) by (unfold is_i64, min_int64, max_int64; lia).
  destruct ((tailOffset d <=? off) && (off + n <=? tailOffset d + len (tail d))) eqn:E.
  - apply andb_true_iff in E as [E1%Z.leb_le E2%Z.leb_le].
    rewrite !i64_id by (unfold is_i64, min_int64, max_int64; try rewrite i64_id; unfold is_i64, min_int64, max_int64; lia).
    rewrite slice_Ok by lia. rewrite Htail, drop_drop. f_equal. f_equal; [|f_equal]; lia.
  - destruct (bytes_read b n off) as (e & -> & Hfull & [->|(? & _)]); [lia..| |lia]. cbn [fst snd].
    replace (Z.to_nat n - length _)%nat with 0%nat by (unfold len in Hfull; lia). cbn [replicate]. by rewrite app_nil_r.
Qed.

(** An archive: the data, the central directory, the end records in front of
    the end record (none, or those of zip64) and the end record. *)
Record layout := {
  l_data : bytes;
  l_cd : bytes;
  l_records : Z;
  l_zip64 : bool;
  l_comment : bytes;
}.
Definition l_pre (l : layout) : bytes :=
  l_data l ++ l_cd l ++
  (if l_zip64 l
   then put_zip64 (l_records l) (len (l_cd l)) (len (l_data l)) ++ put_locator (len (l_data l ++ l_cd l))
   else []).
Definition put_archive (l : layout) : bytes :=
  l_pre l ++
  (if l_zip64 l then put_eocd 0xffff 0xffffffff 0xffffffff (l_comment l)
   else put_eocd (l_records l) (len (l_cd l)) (len (l_data l)) (l_comment l)).

(** What the format asks of an archiver. *)
Record well_formed (l : layout) : Prop := {
  wf_size : len (put_archive l) ≤ max_int64;
  wf_comment : len (l_comment l) < 2 ^ 16;
  wf_clean : clean_comment (put_archive l) (len (l_pre l));
  wf_records : 0 ≤ l_records l < if l_zip64 l then 2 ^ 64 else 2 ^ 16;
  wf_fields : l_zip64 l = false → len (l_data l) < 2 ^ 32 ∧ len (l_cd l) < 2 ^ 32 ∧
    Uint32 (drop (Z.to_nat (len (l_pre l) - zip64LocatorLen)) (put_archive l)) ≠ Ok zip64LocatorSig;
}.

Lemma le_read_take w n b : (w ≤ n)%nat → (n ≤ length b)%nat → le_read w (take n b) = le_read w b.
Proof.
  intros Hw Hn. unfold le_read. rewrite length_take, take_take.
  replace (w `min` n)%nat with w by lia. replace (n `min` length b)%nat with n by lia.
  destruct (Nat.ltb_spec n w), (Nat.ltb_spec (length b) w); try lia. done.
Qed.

Lemma le_read_full w b : (w ≤ length b)%nat → ∃ z, le_read w b = Ok z.
Proof. intros. unfold le_read. destruct (Nat.ltb_spec (length b) w); [lia|eauto]. Qed.

(** The zip64 records are found where [put_archive] puts them. *)
Lemma read_zip64_put l d :
  well_formed l → l_zip64 l = true →
  eocdOffset d = len (l_pre l) → 0 ≤ tailOffset d ≤ len (put_archive l) →
  tail d = drop (Z.to_nat (tailOffset d)) (put_archive l) →
  read_zip64 (bytes_ReaderAt (put_archive l)) d =
    Ok ({| eocdOffset := eocdOffset d; cdOffset := len (l_data l); cdSize := len (l_cd l);
           records := l_records l; tailOffset := tailOffset d; tail := tail d |}, len (l_data l ++ l_cd l)).
Proof.
  intros [Hsize Hcom _ Hrec _] Hz He Ht Htail. rewrite Hz in Hrec.
  pose proof (len_nonneg (l_data l)). pose proof (len_nonneg (l_cd l)). pose proof (len_nonneg (l_comment l)).
  assert (∃ rest, put_archive l = (l_data l ++ l_cd l) ++
    put_zip64 (l_records l) (len (l_cd l)) (len (l_data l)) ++ put_locator (len (l_data l ++ l_cd l)) ++ rest) as [rest Ea]
    by (eexists; unfold put_archive, l_pre; rewrite Hz, <- !app_assoc; reflexivity).
  assert (len (l_pre l) = len (l_data l) + len (l_cd l) + 76) as Hpre.
  { unfold l_pre. rewrite Hz. autorewrite with len. unfold zip64EOCDLen, zip64LocatorLen. lia. }
  assert (len (l_pre l) ≤ len (put_archive l)) as Hle
    by (unfold put_archive; rewrite len_app; match goal with |- context [?x + len ?y] => pose proof (len_nonneg y) end; lia).
  unfold read_zip64. rewrite (proj2 (Z.leb_le _ _)) by (unfold zip64LocatorLen; lia). rewrite He, Hpre.
  rewrite readAtCached_bytes by (unfold zip64LocatorLen; try done; lia). cbn [wrap_res obind].
  replace (Z.to_nat (len (l_data l) + len (l_cd l) + 76 - zip64LocatorLen))
    with (Z.to_nat (len (l_data l ++ l_cd l)) + 56)%nat by (autorewrite with len; unfold zip64LocatorLen; lia).
  rewrite <- drop_drop, Ea, drop_app_len by (autorewrite with len; lia).
  rewrite drop_app_len by (rewrite len_put_zip64; done).
  rewrite take_app_length' by (pose proof (len_put_locator (len (l_data l ++ l_cd l))); unfold len, zip64LocatorLen in *; lia).
  unfold Uint32 at 1, put_locator at 1. rewrite le_read_app by (unfold zip64LocatorSig; lia). cbn [obind].
  rewrite Z.eqb_refl, slice_tail by (autorewrite with len; unfold zip64LocatorLen; lia). cbn [obind].
  change (drop (Z.to_nat 8) _) with (le_bytes 8 (len (l_data l ++ l_cd l)) ++ le_bytes 4 1).
  unfold max_int64 in *. unfold Uint64 at 1. rewrite le_read_app by (autorewrite with len; lia). cbn [obind].
  rewrite i64_id by (unfold is_i64, min_int64, max_int64; autorewrite with len; lia).
  unfold add64. rewrite i64_id by (unfold is_i64, min_int64, max_int64, zip64EOCDLen; autorewrite with len; lia).
  destruct (_ || _) eqn:E; [exfalso; rewrite !orb_true_iff, !Z.ltb_lt in E; revert E; autorewrite with len;
    unfold zip64EOCDLen, zip64LocatorLen; lia|]. clear E.
  rewrite <- Ea, readAtCached_bytes by (unfold zip64EOCDLen, max_int64; try done; autorewrite with len; try lia). cbn [wrap_res obind].
  rewrite Ea, drop_app_len by (autorewrite with len; lia).
  rewrite take_app_length' by (pose proof (len_put_zip64 (l_records l) (len (l_cd l)) (len (l_data l))); unfold len, zip64EOCDLen in *; lia).
  unfold Uint32 at 1, put_zip64 at 1. rewrite le_read_app by (unfold zip64EOCDSignature; lia). cbn [obind].
  rewrite Z.eqb_refl. cbn [negb]. rewrite !slice_tail by (rewrite len_put_zip64; unfold zip64EOCDLen; lia). cbn [obind]. unfold put_zip64.
  change (drop (Z.to_nat 32) _) with (le_bytes 8 (l_records l) ++ le_bytes 8 (len (l_cd l)) ++ le_bytes 8 (len (l_data l))).
  change (drop (Z.to_nat 40) _) with (le_bytes 8 (len (l_cd l)) ++ le_bytes 8 (len (l_data l)) ++ []).
  change (drop (Z.to_nat 48) _) with (le_bytes 8 (len (l_data l)) ++ []).
  unfold Uint64. rewrite !le_read_app by lia. cbn [obind]. rewrite !i64_id by (unfold is_i64, min_int64, max_int64; lia).
  done.
Qed.

Lemma read_zip64_plain l d :
  well_formed l → l_zip64 l = false →
  eocdOffset d = len (l_pre l) → 0 ≤ tailOffset d ≤ len (put_archive l) →
  tail d = drop (Z.to_nat (tailOffset d)) (put_archive l) →
  read_zip64 (bytes_ReaderAt (put_archive l)) d = Ok (d, eocdOffset d).
Proof.
  intros [Hsize Hcom _ Hrec Hf] Hz He Ht Htail. destruct (Hf Hz) as (_ & _ & Hsig).
  unfold read_zip64. destruct (Z.leb_spec zip64LocatorLen (eocdOffset d)) as [Hle|]; [|done].
  assert (len (l_pre l) ≤ len (put_archive l)) as Hpre
    by (unfold put_archive; rewrite len_app; match goal with |- context [?x + len ?y] => pose proof (len_nonneg y) end; lia).
  unfold zip64LocatorLen in *.
  rewrite readAtCached_bytes by (try done; lia). cbn [wrap_res obind]. unfold Uint32 in *.
  rewrite le_read_take by (try rewrite length_drop; unfold len in *; lia).
  destruct (le_read_full 4 (drop (Z.to_nat (eocdOffset d - 20)) (put_archive l))) as [z Hz4];
    [rewrite length_drop; unfold len in *; lia|].
  rewrite Hz4. cbn [obind]. rewrite He in Hz4. destruct (Z.eqb_spec z zip64LocatorSig) as [->|]; [|done].
  by rewrite Hz4 in Hsig.
Qed.

(** A successful [readZipDirectory] has found the last end record of the
    file whose comment reaches exactly to the end of the file; the offset and
    the size of the directory are not negative, and, unless their sum
    overflows, the directory ends in front of that record.  This holds for
    every reader, whatever it returns. *)
Theorem readZipDirectory_valid r size d :
  is_i64 size → readZipDirectory r size = Ok d → directory_ok size d.
Proof. apply readZipDirectory_inv. Qed.

(** C34. The round trip: from the bytes of a well-formed archive, plain or
    zip64, with or without a comment, of any size, [readZipDirectory] reads
    back where its directory is, how long it is and how many entries it
    has. *)
Theorem readZipDirectory_roundtrip l :
  well_formed l →
  ∃ t0 t, readZipDirectory (bytes_ReaderAt (put_archive l)) (len (put_archive l)) =
    Ok {| eocdOffset := len (l_pre l); cdOffset := len (l_data l); cdSize := len (l_cd l);
          records := l_records l; tailOffset := t0; tail := t |}.
Proof.
  intros Hwf. pose proof Hwf as [Hsize Hcom Hclean Hrec Hf]. exists (len (put_archive l) - tail_len (len (put_archive l))).
  pose proof (len_nonneg (l_data l)). pose proof (len_nonneg (l_cd l)). pose proof (len_nonneg (l_comment l)).
  assert (len (put_archive l) = len (l_pre l) + eocdLen + len (l_comment l)) as Hlen
    by (unfold put_archive; destruct (l_zip64 l); autorewrite with len; lia).
  pose proof (len_nonneg (l_pre l)). pose proof (tail_len_bounds (len (put_archive l)) ltac:(lia)).
  assert (len (l_data l) + len (l_cd l) ≤ len (l_pre l)) as Hpre.
  { unfold l_pre. rewrite !len_app. match goal with |- _ ≤ _ + (_ + len ?x) => pose proof (len_nonneg x) end. lia. }
  eexists. destruct (l_zip64 l) eqn:Hz.
  - pose proof (readZipDirectory_bytes (l_pre l) 0xffff 0xffffffff 0xffffffff (l_comment l)) as Hr. cbv zeta in Hr.
    assert (put_archive l = l_pre l ++ put_eocd 0xffff 0xffffffff 0xffffffff (l_comment l)) as Ea
      by (unfold put_archive; by rewrite Hz).
    rewrite <- Ea in Hr. rewrite Hr by (done || lia).
    rewrite read_zip64_put by (done || (cbn [tailOffset]; unfold eocdLen in *; lia)). cbn [obind checked eocdOffset cdOffset cdSize records tailOffset tail].
    unfold add64. rewrite i64_id by (unfold is_i64, min_int64, max_int64 in *; unfold eocdLen in *; lia).
    destruct (_ || _) eqn:E; [|reflexivity]. exfalso. rewrite !orb_true_iff, !Z.ltb_lt in E. revert E. autorewrite with len. lia.
  - destruct (Hf eq_refl) as (Hd & Hc & _).
    pose proof (readZipDirectory_bytes (l_pre l) (l_records l) (len (l_cd l)) (len (l_data l)) (l_comment l)) as Hr. cbv zeta in Hr.
    assert (put_archive l = l_pre l ++ put_eocd (l_records l) (len (l_cd l)) (len (l_data l)) (l_comment l)) as Ea
      by (unfold put_archive; by rewrite Hz).
    rewrite <- Ea in Hr. rewrite Hr by (done || lia).
    rewrite read_zip64_plain by (done || (cbn [tailOffset]; unfold eocdLen in *; lia)). cbn [obind checked eocdOffset cdOffset cdSize records tailOffset tail].
    unfold add64. rewrite i64_id by (unfold is_i64, min_int64, max_int64 in *; unfold eocdLen in *; lia).
    destruct (_ || _) eqn:E; [|reflexivity]. exfalso. rewrite !orb_true_iff, !Z.ltb_lt in E. lia.
Qed.

(** The part of a read that memory serves. *)
Lemma cached_read_spec b cacheOff cch n off :
  0 ≤ cacheOff ≤ len b → cacheOff + len cch ≤ max_int64 → cacheOff ≤ off ≤ max_int64 → 0 ≤ n →
  cached_read {| c_r := bytes_ReaderAt b; cacheOffset := cacheOff; cache := cch |} n off =
    Ok (bytes_ReaderAt (take (Z.to_nat cacheOff) b ++ cch) off n).
Proof.
  intros Hc Hlen Hoff Hn. pose proof (len_nonneg cch).
  assert (len (take (Z.to_nat cacheOff) b) = cacheOff) as Hpre by (autorewrite with len; lia).
  unfold cached_read, bytes_ReaderAt, add64, max_int64 in *. cbn [cacheOffset cache].
  rewrite !i64_id by (unfold is_i64, min_int64, max_int64; lia).
  rewrite (proj2 (Z.ltb_ge off 0)), len_app, Hpre by lia. destruct (Z.leb_spec (cacheOff + len cch) off); [done|].
  rewrite slice_tail by lia. cbn [obind]. rewrite drop_app_ge by (unfold len in *; lia).
  replace (Z.to_nat off - length _)%nat with (Z.to_nat (off - cacheOff)) by (unfold len in *; lia). done.
Qed.

(** C35. Reading through the cache gives exactly the bytes and the error that a
    reader of the patched archive gives: the part in front of the cache from
    the source, the rest (here with the comment cut off) from memory, across
    the boundary and past the end. *)
Theorem c_ReadAt_spec b cacheOff cch n off :
  0 ≤ cacheOff ≤ len b → len b ≤ max_int64 → len (take (Z.to_nat cacheOff) b ++ cch) ≤ max_int64 →
  0 ≤ off → 0 ≤ n → off + n ≤ max_int64 →
  c_ReadAt {| c_r := bytes_ReaderAt b; cacheOffset := cacheOff; cache := cch |} n off =
    Ok (bytes_ReaderAt (take (Z.to_nat cacheOff) b ++ cch) off n).
Proof.
  intros Hc Hb Hlen Ho Hn Hsum. pose proof (len_nonneg cch).
  assert (len (take (Z.to_nat cacheOff) b) = cacheOff) as Hpre by (autorewrite with len; lia).
  rewrite len_app, Hpre in Hlen. set (pre := take (Z.to_nat cacheOff) b) in *.
  unfold c_ReadAt. cbn [cacheOffset cache c_r]. rewrite (proj2 (Z.ltb_ge off 0)) by lia.
  destruct (Z.leb_spec cacheOff off) as [Hge|Hlt]; [apply cached_read_spec; lia|].
  unfold add64. rewrite i64_id by (unfold is_i64, min_int64, max_int64 in *; lia).
  set (head := if cacheOff <? off + n then i64 (cacheOff - off) else n).
  assert (head = Z.min n (cacheOff - off)) as Eh.
  { subst head. destruct (Z.ltb_spec cacheOff (off + n)); [|lia].
    rewrite i64_id; [lia|unfold is_i64, min_int64, max_int64 in *; lia]. }
  rewrite (proj2 (Z.ltb_ge head 0)), (proj2 (Z.ltb_ge n head)) by lia. cbn [orb].
  destruct (bytes_read b head off) as (e & Hread & Hfull & [->|(? & ? & _)]); [lia..| |lia].
  rewrite Hread. cbn [fst snd]. rewrite Hfull, Z.ltb_irrefl.
  assert (take (Z.to_nat head) (drop (Z.to_nat off) b) = take (Z.to_nat head) (drop (Z.to_nat off) pre)) as Et.
  { subst pre. rewrite skipn_firstn_comm, take_take. f_equal. lia. }
  assert (len (drop (Z.to_nat off) pre) = cacheOff - off) as Hdrop by (rewrite len_drop, Hpre; lia).
  assert (bytes_ReaderAt (pre ++ cch) off n =
    (take (Z.to_nat n) (drop (Z.to_nat off) pre ++ cch),
     if len (take (Z.to_nat n) (drop (Z.to_nat off) pre ++ cch)) <? n then Some (ESentinel IoEOF) else None)) as ->.
  { unfold bytes_ReaderAt. rewrite (proj2 (Z.ltb_ge off 0)), (proj2 (Z.leb_gt _ off)) by (rewrite ?len_app; lia).
    rewrite drop_app_le by (unfold len in *; lia). done. }
  destruct (Z.eqb_spec head n) as [Ehn|Hne].
  - rewrite Et, Ehn, take_app_le by (unfold len in *; lia).
    rewrite (proj2 (Z.ltb_ge _ _)); [done|]. rewrite len_take, Hdrop. lia.
  - rewrite cached_read_spec by (fold pre; lia). fold pre. cbn [obind]. unfold bytes_ReaderAt.
    rewrite (proj2 (Z.ltb_ge cacheOff 0)), len_app, Hpre by lia. replace head with (cacheOff - off) in * by lia.
    rewrite Et. rewrite (take_ge (drop _ pre)) by (unfold len in *; lia).
    rewrite take_app_ge by (unfold len in *; lia). rewrite drop_app_length' by (unfold len in *; lia).
    replace (Z.to_nat n - length (drop (Z.to_nat off) pre))%nat with (Z.to_nat (n - (cacheOff - off))) by (unfold len in *; lia).
    rewrite len_app, Hdrop, len_take.
    destruct (Z.leb_spec (cacheOff + len cch) cacheOff); cbn [fst snd].
    + assert (cch = []) as -> by (destruct cch; [done|unfold len in *; simpl in *; lia]). rewrite take_nil.
      rewrite (proj2 (Z.ltb_lt _ _)); [done|]. unfold len. simpl. lia.
    + f_equal. f_equal.
      destruct (Z.ltb_spec (Z.of_nat (Z.to_nat (n - (cacheOff - off))) `min` len cch) (n - (cacheOff - off)));
      destruct (Z.ltb_spec (cacheOff - off + Z.of_nat (Z.to_nat (n - (cacheOff - off))) `min` len cch) n); lia || done.
Qed.

(** ** The ranges of the parts *)

(** The ranges follow each other without gap up to the directory, each
    non-empty and starting at the header of its entry. *)
Fixpoint contiguous (from cd : Z) (rs : list ZipPartRange) : Prop :=
  match rs with
  | [] => True
  | r :: rest =>
      from ≤ StartOffset r ∧ StartOffset r < EndOffset r ∧
      StartOffset r = f_HeaderOffset (pr_File r) ∧ pr_Name r = f_Name (pr_File r) ∧
      EndOffset r = match rest with [] => cd | s :: _ => StartOffset s end ∧
      contiguous (EndOffset r) cd rest
  end.


Lemma part_ranges_spec cd files rs :
  part_ranges cd files = Ok rs →
  map pr_File rs = files ∧
  (∀ from, match files with [] => True | f :: _ => from ≤ f_HeaderOffset f end → contiguous from cd rs).
Proof.
  revert rs. induction files as [|f rest IH]; intros rs; cbn [part_ranges]; [by intros [= <-]|].
  destruct (Z.leb_spec (match rest with [] => cd | g :: _ => f_HeaderOffset g end) (f_HeaderOffset f)) as [|Hlt];
    [by destruct rest|].
  intros (rs' & Hrs & [= <-])%obind_Ok. destruct (IH _ Hrs) as [Hmap Hc]. cbn [map pr_File]. split; [by f_equal|].
  intros from Hfrom. cbn [contiguous StartOffset EndOffset pr_File pr_Name]. split_and!; try done.
  - destruct rest as [|g rest'], rs' as [|r' rs']; try done. injection Hmap as <- <-. destruct (Hc _ (Z.le_refl _)) as (_ & _ & E & _). by rewrite E.
  - apply Hc. by destruct rest.
Qed.

(** Entries in order and below [cd]: the ranges are found, or two entries
    share a header. *)
Lemma part_ranges_total cd files :
  Forall (λ f, 0 ≤ f_HeaderOffset f < cd) files →
  (∃ rs, part_ranges cd files = Ok rs) ∨ part_ranges cd files = Err (wrap1 ErrCorruptZip "entries share local header offset").
Proof.
  induction files as [|f rest IH]; intros Hf; cbn [part_ranges]; [eauto|]. apply Forall_cons in Hf as [Hf Hrest].
  destruct (Z.leb_spec (match rest with [] => cd | g :: _ => f_HeaderOffset g end) (f_HeaderOffset f)).
  - destruct rest as [|g rest]; [lia|auto].
  - destruct (IH Hrest) as [[rs ->]| ->]; cbn [obind]; eauto.
Qed.



Section RangesSpec.
Context (zip_NewReader : (Z → Z → res (bytes * option error)) → Z → res (list zipFile)).

(** The ranges are those of the files that the library lists. *)
Lemma GetZipPartRanges_files ra size rs : GetZipPartRanges zip_NewReader ra size = Ok rs →
  ∃ read endo files, zip_NewReader read endo = Ok files ∧ map pr_File rs ≡ₚ files.
Proof.
  unfold GetZipPartRanges. intros (d & _ & ([co ca] & _ & (c1 & _ & (c2 & _ & H)%obind_Ok)%obind_Ok)%obind_Ok)%obind_Ok.
  destruct (zip_NewReader _ _) as [files| | |] eqn:Hz; try done. destruct (negb _); [done|].
  apply obind_Ok in H as (u & _ & [Hmap _]%part_ranges_spec). eexists _, _, files. split; [done|].
  rewrite Hmap. apply merge_sort_Permutation.
Qed.


End RangesSpec.

#[export] Instance offset_le_trans : Transitive offset_le.
Proof. intros f g h. unfold offset_le. lia. Qed.
#[export] Instance offset_le_total : Total offset_le.
Proof. intros f g. unfold offset_le. lia. Qed.

Lemma check_offsets_fails cd files :
  ¬ Forall (λ f, 0 ≤ f_HeaderOffset f < cd) files →
  check_offsets cd files = Err (wrap1 ErrCorruptZip "local header offset outside data area").
Proof.
  induction files as [|f files IH]; cbn [check_offsets]; intros Hn; [by destruct Hn; constructor|].
  destruct (_ || _) eqn:E; [done|]. rewrite orb_false_iff, Z.ltb_ge, Z.leb_gt in E. apply IH. contradict Hn. by constructor.
Qed.

(** On entries in order, the ranges are found exactly when no two share a header. *)
Lemma part_ranges_NoDup cd files rs :
  part_ranges cd files = Ok rs → Sorted offset_le files → NoDup (map f_HeaderOffset files).
Proof.
  intros Hp Hs%Sorted_StronglySorted; [|apply _]. revert rs Hp Hs.
  induction files as [|f rest IH]; intros rs; cbn [part_ranges map]; intros H Hs; [constructor|].
  inversion Hs as [|? ? Hs' Hall]; subst.
  destruct (Z.leb_spec (match rest with [] => cd | g :: _ => f_HeaderOffset g end) (f_HeaderOffset f)) as [|Hlt];
    [by destruct rest|].
  apply obind_Ok in H as (rs' & Hrs & _). constructor; [|by eapply IH].
  intros (g & Eg & Hin)%list_elem_of_fmap. destruct rest as [|g' rest]; [by apply elem_of_nil in Hin|].
  apply elem_of_cons in Hin as [->|Hin]; [lia|].
  inversion Hs' as [|? ? _ Hall']; subst. rewrite Forall_forall in Hall'. apply Hall' in Hin. unfold offset_le in Hin. lia.
Qed.

Lemma part_ranges_Ok cd files :
  Forall (λ f, 0 ≤ f_HeaderOffset f < cd) files → Sorted offset_le files → NoDup (map f_HeaderOffset files) →
  ∃ rs, part_ranges cd files = Ok rs.
Proof.
  intros Hf Hs. revert Hf. induction Hs as [|f rest Hs IH Hhd]; intros Hf Hn; cbn [part_ranges map] in *; [eauto|].
  apply Forall_cons in Hf as [Hf Hrest]. apply NoDup_cons in Hn as [Hnin Hn].
  destruct (Z.leb_spec (match rest with [] => cd | g :: _ => f_HeaderOffset g end) (f_HeaderOffset f)) as [Hle|].
  - exfalso. destruct rest as [|g rest]; [lia|]. inversion Hhd as [|? ? Hg]; subst. unfold offset_le in Hg. apply Hnin.
    cbn [map]. apply elem_of_cons. left. lia.
  - destruct (IH Hrest Hn) as [rs ->]. cbn [obind]. eauto.
Qed.

(** The entries of an archive get their ranges exactly when every header
    lies in front of the directory and no two entries share a header, in
    whatever order the library lists them; otherwise the archive is reported
    corrupt, and nothing panics. *)
Theorem sorted_ranges_spec cd files :
  if decide (Forall (λ f, 0 ≤ f_HeaderOffset f < cd) files ∧ NoDup (map f_HeaderOffset files))
  then ∃ rs, sorted_ranges cd files = Ok rs ∧ map pr_File rs ≡ₚ files
  else ∃ e, sorted_ranges cd files = Err e ∧ errors_Is e ErrCorruptZip = true.
Proof.
  unfold sorted_ranges. pose proof (merge_sort_Permutation offset_le files) as Hperm.
  pose proof (Sorted_merge_sort offset_le files) as Hsort.
  destruct (decide (Forall (λ f, 0 ≤ f_HeaderOffset f < cd) files)) as [Hf|Hf].
  - assert (check_offsets cd files = Ok tt) as ->.
    { clear Hperm Hsort. induction Hf as [|f files Hb _ IH]; cbn [check_offsets]; [done|].
      rewrite (proj2 (Z.ltb_ge _ _)), (proj2 (Z.leb_gt _ _)) by lia. done. }
    cbn [obind]. rewrite <- Hperm in Hf. case_decide as Hd.
    + destruct Hd as [_ Hn]. destruct (part_ranges_Ok _ _ Hf Hsort) as [rs Hrs]; [by rewrite Hperm|].
      exists rs. split; [done|]. apply part_ranges_spec in Hrs as [Hmap _]. by rewrite Hmap.
    + destruct (part_ranges_total _ _ Hf) as [[rs Hrs]|He].
      * destruct Hd. apply part_ranges_NoDup in Hrs; [|done]. by rewrite Hperm in Hf, Hrs.
      * rewrite He. eexists. split; [done|]. by vm_compute.
  - rewrite decide_False by tauto. rewrite check_offsets_fails by done. cbn [obind]. eexists. split; [done|]. by vm_compute.
Qed.

(** ** Overflow in crafted archives *)

(** C40. A defect: an archive whose zip64 locator points within 56 bytes of
    [math.MaxInt64] passes the check of the offset, because the sum wraps, and
    then makes [readAtCached] slice out of range: [readZipDirectory] panics
    instead of reporting a corrupt archive. *)
Theorem readZipDirectory_locator_panics off recs size cd :
  max_int64 - zip64EOCDLen < off ≤ max_int64 → 0 ≤ recs < 2 ^ 16 → 0 ≤ size < 2 ^ 32 → 0 ≤ cd < 2 ^ 32 →
  let b := put_locator off ++ put_eocd recs size cd [] in
  readZipDirectory (bytes_ReaderAt b) (len b) = Panic.
Proof.
  intros Hoff Hr Hs Hc. cbv zeta. pose proof (readZipDirectory_bytes (put_locator off) recs size cd []) as H. cbv zeta in H.
  set (b := put_locator off ++ put_eocd recs size cd []) in *.
  assert (len b = 42) as Hlen by (subst b; autorewrite with len; done).
  unfold max_int64, zip64EOCDLen in *. rewrite H; [clear H|done..|].
  2:{ intros i. rewrite len_put_locator, Hlen. unfold zip64LocatorLen, eocdLen. lia. }
  rewrite Hlen. change (42 - tail_len 42) with 0. change (drop (Z.to_nat 0) b) with b.
  unfold read_zip64. cbn [eocdOffset]. rewrite len_put_locator. cbn [Z.leb zip64LocatorLen Z.compare Pos.compare Pos.compare_cont].
  rewrite readAtCached_bytes by (cbn [tailOffset tail]; unfold max_int64, zip64LocatorLen; try done; lia). cbn [wrap_res obind].
  change (take (Z.to_nat zip64LocatorLen) (drop (Z.to_nat (zip64LocatorLen - zip64LocatorLen)) b)) with (put_locator off).
  unfold Uint32, put_locator at 1. rewrite le_read_app by (unfold zip64LocatorSig; lia). cbn [obind]. rewrite Z.eqb_refl.
  rewrite slice_tail by (rewrite len_put_locator; unfold zip64LocatorLen; lia). cbn [obind].
  change (drop (Z.to_nat 8) (put_locator off)) with (le_bytes 8 off ++ le_bytes 4 1).
  unfold Uint64 at 1. rewrite le_read_app by lia. cbn [obind].
  rewrite (i64_id off) by (unfold is_i64, min_int64, max_int64; lia). unfold add64 at 1, zip64EOCDLen at 1.
  rewrite i64_wrap by (unfold max_int64; lia).
  destruct (_ || _) eqn:E; [exfalso; rewrite orb_true_iff, !Z.ltb_lt in E; unfold zip64LocatorLen in E; lia|].
  unfold readAtCached, add64. cbn [tailOffset tail]. rewrite Hlen.
  rewrite i64_wrap by (unfold max_int64, zip64EOCDLen; lia). rewrite (i64_id (0 + 42)), (i64_id (off - 0)) by (unfold is_i64, min_int64, max_int64; lia).
  rewrite !(proj2 (Z.leb_le _ _)) by (unfold zip64EOCDLen; lia). cbn [andb].
  rewrite i64_wrap by (unfold max_int64, zip64EOCDLen; lia). unfold slice.
  rewrite (proj2 (Z.leb_le 0 (off - 0))), (proj2 (Z.leb_gt (off - 0) _)) by (unfold zip64EOCDLen; lia). done.
Qed.

(** A defect: offset and size of the directory are added without a check
    for overflow, so a zip64 archive of 98 bytes whose directory claims to
    start at [math.MaxInt64] is accepted. *)
Theorem readZipDirectory_accepts_overflow :
  let b := put_zip64 1 1 max_int64 ++ put_locator 0 ++ put_eocd 1 1 0 [] in
  len b = 98 ∧ GetCentralDirectoryOffset (bytes_ReaderAt b) (len b) = Ok max_int64.
Proof. vm_compute. done. Qed.

(** ** Witnesses *)

Module ZipExample.

(** Nine bytes of entries, three of directory, and a comment. *)
Definition plain : layout :=
  {| l_data := replicate 9 x00; l_cd := replicate 3 x01; l_records := 2; l_zip64 := false; l_comment := [x50; x4b] |}.
Definition big : layout :=
  {| l_data := replicate 9 x00; l_cd := replicate 3 x01; l_records := 2; l_zip64 := true; l_comment := [x50; x4b] |}.

Lemma big_well_formed : well_formed big.
Proof.
  split.
  - vm_compute. done.
  - vm_compute. done.
  - intros i Hi. change (len (l_pre big)) with 88 in Hi. change (len (put_archive big)) with 112 in Hi. unfold eocdLen in Hi.
    assert (i = 89 ∨ i = 90) as [->| ->] by lia; by vm_compute.
  - vm_compute. done.
  - done.
Qed.
End ZipExample.

Lemma readZipDirectory_valid_witness :
  let b := put_archive ZipExample.plain in
  ∃ d, readZipDirectory (bytes_ReaderAt b) (len b) = Ok d ∧ directory_ok (len b) d.
Proof.
  cbv zeta. assert (readZipDirectory (bytes_ReaderAt (put_archive ZipExample.plain)) (len (put_archive ZipExample.plain)) =
    Ok {| eocdOffset := 12; cdOffset := 9; cdSize := 3; records := 2; tailOffset := 0; tail := put_archive ZipExample.plain |}) as E
    by (vm_compute; reflexivity).
  eexists. split; [exact E|]. refine (readZipDirectory_valid _ _ _ _ E). vm_compute. split; discriminate.
Defined.

Lemma readZipDirectory_roundtrip_witness :
  well_formed ZipExample.big ∧
  ∃ t0 t, readZipDirectory (bytes_ReaderAt (put_archive ZipExample.big)) (len (put_archive ZipExample.big)) =
    Ok {| eocdOffset := 88; cdOffset := 9; cdSize := 3; records := 2; tailOffset := t0; tail := t |}.
Proof.
  split; [exact ZipExample.big_well_formed|]. exact (readZipDirectory_roundtrip ZipExample.big ZipExample.big_well_formed).
Defined.

Lemma c_ReadAt_spec_witness :
  c_ReadAt {| c_r := bytes_ReaderAt [x01; x02; x03; x04]; cacheOffset := 2; cache := [x07; x08] |} 5 1 =
    Ok ([x02; x07; x08], Some (ESentinel IoEOF)).
Proof.
  rewrite (c_ReadAt_spec [x01; x02; x03; x04] 2 [x07; x08] 5 1) by (vm_compute; first [done|split; discriminate]).
  vm_compute. reflexivity.
Defined.


Lemma readZipDirectory_locator_panics_witness :
  max_int64 - zip64EOCDLen < max_int64 - 9 ≤ max_int64 ∧
  readZipDirectory (bytes_ReaderAt (put_locator (max_int64 - 9) ++ put_eocd 0 0 0 [])) 42 = Panic.
Proof.
  split; [vm_compute; split; [reflexivity|discriminate]|].
  exact (readZipDirectory_locator_panics (max_int64 - 9) 0 0 0 ltac:(vm_compute; split; [reflexivity|discriminate])
    ltac:(vm_compute; split; [discriminate|reflexivity]) ltac:(vm_compute; split; [discriminate|reflexivity])
    ltac:(vm_compute; split; [discriminate|reflexivity])).
Defined.
