(* ===== verification/Paths.v ===== *)
(** Output paths of a restore: [safeJoin] and [relEscapesBase] of
    [tsync/restore.go], with the functions of [path/filepath] they use, on a
    system whose separator is the slash. *)

From S2P Require Import Prelude Errors GoStrings Keys TreeResolve.

(** ** [path/filepath] *)

(** The lexical processing of [Clean]: [out] is what is kept, reversed. *)
Fixpoint clean_parts (rooted : bool) (out parts : list string) : list string :=
  match parts with
  | [] => reverse out
  | p :: parts =>
      if bool_decide (p = "") || bool_decide (p = ".") then clean_parts rooted out parts
      else if bool_decide (p = "..") then
        match out with
        | x :: out' => if bool_decide (x = "..") then clean_parts rooted (p :: out) parts
                       else clean_parts rooted out' parts
        | [] => if rooted then clean_parts rooted [] parts else clean_parts rooted [p] parts
        end
      else clean_parts rooted (p :: out) parts
  end.

(** A cleaned path: is it absolute, and its elements. *)
Definition cleaned (p : string) : bool * list string :=
  let rooted := HasPrefix p "/" in (rooted, clean_parts rooted [] (Split p slash)).
Definition render (c : bool * list string) : string :=
  if c.1 then "/" +:+ join_slash c.2
  else match c.2 with [] => "." | ps => join_slash ps end.

Definition Clean (p : string) : string := render (cleaned p).

(** [Join] of two elements. *)
Definition Join (a b : string) : string :=
  if bool_decide (a = "") then (if bool_decide (b = "") then "" else Clean b)
  else if bool_decide (b = "") then Clean a
  else Clean (a +:+ "/" +:+ b).

(** What is left after the first elements that agree. *)
Fixpoint strip_common (base targ : list string) : list string * list string :=
  match base, targ with
  | b :: base', t :: targ' => if bool_decide (b = t) then strip_common base' targ' else (base, targ)
  | _, _ => (base, targ)
  end.

(** [filepath.Dir]. *)
Definition filepath_Dir (p : string) : string :=
  match removelast (Split p slash) with
  | [] => Clean ""
  | ps => Clean (join_slash ps +:+ "/")
  end.

(** [Rel]: [None] is its error. *)
Definition Rel (basepath targpath : string) : option string :=
  let base := cleaned basepath in
  let targ := cleaned targpath in
  if bool_decide (base = targ) then Some "."
  else if negb (bool_decide (base.1 = targ.1)) then None
  else
    let targ_parts := if negb targ.1 && bool_decide (targ.2 = []) then ["."] else targ.2 in
    let '(bs, ts) := strip_common base.2 targ_parts in
    match bs with
    | [] => Some (join_slash ts)
    | b :: _ => if bool_decide (b = "..") then None else Some (join_slash (map (λ _, "..") bs ++ ts))
    end.

(** ** The program *)

(** [relEscapesBase]. *)
Definition relEscapesBase (rel : string) : bool :=
  bool_decide (rel = "..") || HasPrefix rel "../".

(** [safeJoin]. *)
Definition safeJoin (base archivePath : string) : res string :=
  let cleanBase := Clean base in
  let cleanOut := Clean (Join base archivePath) in
  match Rel cleanBase cleanOut with
  | None => Err (wrap1 ErrUnsafePath archivePath)
  | Some rel =>
      if bool_decide (rel = ".") || relEscapesBase rel then Err (wrap1 ErrUnsafePath archivePath)
      else Ok cleanOut
  end.

Example clean1 : Clean "/a/./b//../c/" = "/a/c". Proof. reflexivity. Qed.
Example clean2 : Clean "../../x/.." = "../..". Proof. reflexivity. Qed.
Example clean3 : Clean "/.." = "/". Proof. reflexivity. Qed.
Example dir1 : filepath_Dir "/a/b" = "/a" ∧ filepath_Dir "/a" = "/" ∧ filepath_Dir "/" = "/". Proof. repeat split. Qed.
Example dir2 : filepath_Dir "a//b/" = "a/b" ∧ filepath_Dir "a" = "." ∧ filepath_Dir "." = "." ∧ filepath_Dir "../.." = "..".
Proof. repeat split. Qed.
Example rel1 : Rel "/a/b" "/a/b/c/d" = Some "c/d". Proof. reflexivity. Qed.
Example rel2 : Rel "a/b" "a/c" = Some "../c". Proof. reflexivity. Qed.
Example rel3 : Rel "../x" "x" = None. Proof. reflexivity. Qed.
Example join1 : safeJoin "/out" "a/../b" = Ok "/out/b". Proof. reflexivity. Qed.
Example join2 : is_ok (safeJoin "/out" "a/../../b") = false. Proof. reflexivity. Qed.
Example join3 : safeJoin "/out" "/etc/passwd" = Ok "/out/etc/passwd". Proof. reflexivity. Qed.
Example join4 : safeJoin "out" "..cfg" = Ok "out/..cfg". Proof. reflexivity. Qed.
Example join5 : is_ok (safeJoin "/" "..") = false. Proof. reflexivity. Qed.

(** ** Cleaned paths *)

(** A path element that names something below the current directory. *)
Definition proper (p : string) : Prop := p ≠ "" ∧ p ≠ "." ∧ p ≠ ".." ∧ has_char slash p = false.

Lemma valid_proper p : valid_name p → proper p.
Proof. intros Hv. pose proof (valid_no_slash _ Hv). destruct Hv as (? & _ & _ & _ & ? & ?). by split_and!. Qed.

(** Leading "..", none for an absolute path, then proper elements. *)
Definition canonical (c : bool * list string) : Prop :=
  ∃ k ns, c.2 = replicate k ".." ++ ns ∧ Forall proper ns ∧ (c.1 = true → k = 0).

Lemma canonical_slash c : canonical c → Forall (λ p, has_char slash p = false) c.2.
Proof.
  intros (k & ns & -> & Hn & _). apply Forall_app. split; [by apply Forall_replicate|].
  eapply Forall_impl; [exact Hn|]. by intros p (_ & _ & _ & ?).
Qed.

Lemma canonical_app r ps ts : canonical (r, ps) → Forall proper ts → canonical (r, ps ++ ts).
Proof.
  intros (k & ns & E & Hn & Hr) Ht. simpl in *. exists k, (ns ++ ts). split_and!; [by rewrite E, <- app_assoc| |done].
  by apply Forall_app.
Qed.

Lemma clean_parts_canonical r out parts :
  canonical (r, reverse out) → Forall (λ p, has_char slash p = false) parts →
  canonical (r, clean_parts r out parts).
Proof.
  intros Hout Hp. revert out Hout. induction Hp as [|p ps Hsl _ IH]; intros out Hout; simpl; [done|].
  destruct (decide (p = "")) as [->|Hne]; [by apply IH|]. rewrite (bool_decide_false (p = "")) by done.
  destruct (decide (p = ".")) as [->|Hnd]; [by apply IH|]. rewrite (bool_decide_false (p = ".")) by done. cbn [orb].
  destruct (decide (p = "..")) as [->|Hnn].
  - rewrite (bool_decide_true (".." = "..")) by done. destruct Hout as (k & ns & E & Hn & Hr). simpl in E, Hr.
    destruct out as [|x out].
    + destruct r; [apply IH; by exists 0, []|]. apply IH. by exists 1, [].
    + rewrite reverse_cons in E. case_bool_decide as Hx.
      * subst x. apply IH. destruct ns as [|n ns'] using rev_ind.
        -- exists (S k), []. split_and!; [|done|].
           ++ simpl. rewrite reverse_cons, reverse_cons, E, !app_nil_r. change (".." :: replicate k "..") with (replicate (S k) "..").
              rewrite replicate_S_end. done.
           ++ intros Et. specialize (Hr Et). subst k. by destruct (reverse out).
        -- exfalso. rewrite app_assoc in E. apply app_inj_tail in E as [_ <-]. apply Forall_app in Hn as [_ Hn].
           apply Forall_cons in Hn as [(_ & _ & ? & _) _]. done.
      * apply IH. destruct ns as [|n ns' _] using rev_ind.
        -- exfalso. rewrite app_nil_r in E. destruct k as [|k]; [by destruct (reverse out)|].
           rewrite replicate_S_end in E. apply app_inj_tail in E as [_ ->]. done.
        -- rewrite app_assoc in E. apply app_inj_tail in E as [E _]. apply Forall_app in Hn as [Hn _]. by exists k, ns'.
  - rewrite (bool_decide_false (p = "..")) by done. apply IH. rewrite reverse_cons. apply canonical_app; [done|].
    by apply Forall_singleton.
Qed.

Lemma Split_no_slash s : Forall (λ p, has_char slash p = false) (Split s slash).
Proof.
  unfold Split. apply Forall_fmap. generalize (chars s). intros l. induction l as [|c l IH]; simpl; [by constructor|].
  case_bool_decide as E; [by constructor|]. destruct (split_chars slash l) as [|w ws].
  - constructor; [|done]. apply has_char_false. rewrite chars_of_chars, list_elem_of_singleton. intros Hc. by apply E.
  - apply Forall_cons in IH as [Hw Hws]. constructor; [|done]. unfold compose in *. apply has_char_false in Hw.
    apply has_char_false. rewrite chars_of_chars in *. apply not_elem_of_cons. split; [intros Hc; by apply E|done].
Qed.

Lemma join_slash_last k e : ∃ x, chars (join_slash (k ++ [e])) = x ++ chars e.
Proof.
  destruct k as [|y k]; [by exists []|]. rewrite join_slash_snoc by done. eexists. rewrite !chars_app. by rewrite app_assoc.
Qed.

Lemma HasSuffix_slash q e k : HasSuffix q "/" = true → Split q slash = k ++ [e] → e = "".
Proof.
  intros H E. pose proof (join_Split q) as Hq. rewrite E in Hq. destruct (join_slash_last k e) as [x Hx]. rewrite Hq in Hx.
  pose proof (Split_no_slash q) as Hs. rewrite E in Hs. apply Forall_app in Hs as [_ [He%has_char_false _]%Forall_cons].
  unfold HasSuffix in H. rewrite Hx, reverse_app in H. apply chars_inj.
  destruct (chars e) as [|c l _] using rev_ind; [done|]. exfalso. apply He. rewrite reverse_snoc in H. cbn in H.
  apply andb_true_iff in H as [<-%bool_decide_eq_true _]. rewrite elem_of_app. right. by apply list_elem_of_singleton.
Qed.

Lemma cleaned_canonical p : canonical (cleaned p).
Proof. apply clean_parts_canonical; [by exists 0, []|apply Split_no_slash]. Qed.

(** Cleaning keeps what is clean. *)
Lemma clean_parts_dots j k ps :
  clean_parts false (replicate j "..") (replicate k ".." ++ ps) = clean_parts false (replicate (j + k) "..") ps.
Proof.
  revert j. induction k as [|k IH]; intros j; [by rewrite Nat.add_0_r|]. rewrite <- Nat.add_succ_comm, <- IH.
  by destruct j.
Qed.

Lemma clean_parts_proper r out ns ps :
  Forall proper ns → clean_parts r out (ns ++ ps) = clean_parts r (reverse ns ++ out) ps.
Proof.
  intros Hn. revert out. induction Hn as [|p ns (H1 & H2 & H3 & _) _ IH]; intros out; [done|]. simpl.
  rewrite !bool_decide_false by done. cbn [orb]. by rewrite IH, reverse_cons, <- app_assoc.
Qed.

Lemma clean_parts_id c : canonical c → clean_parts c.1 [] c.2 = c.2.
Proof.
  intros (k & ns & E & Hn & Hr). rewrite E.
  assert (clean_parts c.1 [] (replicate k ".." ++ ns) = clean_parts c.1 (replicate k "..") ns) as ->.
  { destruct c.1; [by rewrite Hr by done|]. apply (clean_parts_dots 0). }
  rewrite <- (app_nil_r ns) at 1. rewrite clean_parts_proper by done. simpl. by rewrite reverse_app, reverse_involutive, reverse_replicate.
Qed.

Lemma Split_app a b : Split (a +:+ "/" +:+ b) slash = Split a slash ++ Split b slash.
Proof.
  rewrite <- (join_Split a) at 1. rewrite <- (join_Split b) at 1.
  pose proof (Split_no_slash a) as Ha. pose proof (Split_no_slash b) as Hb.
  pose proof (Split_nonempty a slash) as Hna. pose proof (Split_nonempty b slash) as Hnb.
  revert Ha Hna. generalize (Split a slash) as l. generalize dependent (Split b slash). intros k Hb Hnb l Ha Hna.
  rewrite <- (Split_join (l ++ k)); [|by destruct l|by apply Forall_app].
  f_equal. clear -Hna Hnb. induction l as [|x l IH]; [done|]. destruct l as [|y l].
  - by destruct k.
  - change ((x :: y :: l) ++ k) with (x :: (y :: l) ++ k).
    change (join_slash (x :: (y :: l) ++ k)) with (x +:+ "/" +:+ join_slash ((y :: l) ++ k)).
    change (join_slash (x :: y :: l)) with (x +:+ "/" +:+ join_slash (y :: l)).
    rewrite <- IH by done. apply chars_inj. rewrite !chars_app. by rewrite <- !app_assoc.
Qed.

Lemma HasPrefix_slash_app a b : a ≠ "" → HasPrefix (a +:+ b) "/" = HasPrefix a "/".
Proof. by destruct a. Qed.

Lemma cleaned_render c : canonical c → cleaned (render c) = c.
Proof.
  intros Hc. pose proof (clean_parts_id _ Hc) as Hid. pose proof (canonical_slash _ Hc) as Hsl.
  destruct c as [r ps]. simpl in Hid, Hsl. unfold cleaned, render. cbn [fst snd]. destruct r.
  - assert (HasPrefix ("/" +:+ join_slash ps) "/" = true) as -> by (apply HasPrefix_spec; eauto). f_equal.
    destruct ps as [|p ps]; [done|].
    assert (Split ("/" +:+ join_slash (p :: ps)) slash = "" :: p :: ps) as ->; [|exact Hid].
    change ("/" +:+ join_slash (p :: ps)) with ("" +:+ "/" +:+ join_slash (p :: ps)). rewrite Split_app.
    by rewrite Split_join.
  - destruct ps as [|p ps]; [done|]. apply Forall_cons in Hsl as Hp. destruct Hp as [Hp _].
    assert (p ≠ "") as Hne.
    { destruct Hc as (k & ns & E & Hn & _). simpl in E. destruct k; simpl in E; [|by injection E as -> _].
      subst ns. by apply Forall_cons in Hn as [[? _] _]. }
    assert (HasPrefix (join_slash (p :: ps)) "/" = false) as ->.
    { destruct p as [|a p]; [done|]. assert (a ≠ slash) by (intros ->; by vm_compute in Hp).
      destruct ps; unfold HasPrefix; simpl; rewrite bool_decide_false by done; done. }
    rewrite Split_join by done. f_equal. exact Hid.
Qed.

(** ** [filepath.Dir] *)

Lemma clean_parts_skip r out ps : clean_parts r out (ps ++ [""]) = clean_parts r out ps.
Proof. revert out. induction ps as [|p ps IH]; intros out; simpl; [done|]. by repeat case_match. Qed.

Lemma clean_parts_length r out ps : length (clean_parts r out ps) ≤ length out + length ps.
Proof.
  revert out. induction ps as [|p ps IH]; intros out; simpl; [rewrite length_reverse; lia|].
  repeat case_match; (etransitivity; [apply IH|]); simpl; lia.
Qed.

Lemma cleaned_trailing l : l ≠ [] → Forall (λ p, has_char slash p = false) l →
  cleaned (join_slash l +:+ "/") = (HasPrefix (join_slash l +:+ "/") "/", clean_parts (HasPrefix (join_slash l +:+ "/") "/") [] l).
Proof.
  intros Hne Hl. unfold cleaned. cbv zeta. f_equal. generalize (HasPrefix (join_slash l +:+ "/") "/"). intros r.
  change (join_slash l +:+ "/") with (join_slash l +:+ "/" +:+ ""). rewrite Split_app, Split_join by done. apply clean_parts_skip.
Qed.

Lemma removelast_canonical r ps : canonical (r, ps) → canonical (r, removelast ps).
Proof.
  intros (k & ns & E & Hn & Hr). simpl in *. subst ps. destruct ns as [|n ns _] using rev_ind.
  - rewrite app_nil_r. destruct k as [|k]; [by exists 0, []|]. rewrite replicate_S_end, removelast_last.
    exists k, []. simpl. split_and!; [by rewrite app_nil_r|done|]. intros Et. specialize (Hr Et). lia.
  - rewrite app_assoc, removelast_last. apply Forall_app in Hn as [Hn _]. by exists k, ns.
Qed.

(** The directory of a clean path. *)
Lemma filepath_Dir_render r ps : canonical (r, ps) → filepath_Dir (render (r, ps)) = render (r, removelast ps).
Proof.
  intros Hc. pose proof (canonical_slash _ Hc) as Hsl. apply removelast_canonical in Hc as Hc'.
  pose proof (clean_parts_id _ Hc') as Hid. pose proof (cleaned_render _ Hc') as Hr. simpl in Hsl, Hid.
  unfold filepath_Dir. destruct r; cbn [render fst snd] in *.
  - destruct ps as [|p ps]; [done|].
    change ("/" +:+ join_slash (p :: ps)) with ("" +:+ "/" +:+ join_slash (p :: ps)).
    rewrite Split_app, Split_join by done. change (Split "" slash ++ p :: ps) with ("" :: p :: ps).
    change (removelast ("" :: p :: ps)) with ("" :: removelast (p :: ps)).
    destruct (removelast (p :: ps)) as [|q qs] eqn:Eq; [done|].
    + unfold Clean. rewrite cleaned_trailing; [|done|].
      2:{ constructor; [done|]. exact (canonical_slash _ Hc'). }
      change (HasPrefix (join_slash ("" :: q :: qs) +:+ "/") "/") with true. unfold render. cbn [fst snd].
      change (clean_parts true [] ("" :: q :: qs)) with (clean_parts true [] (q :: qs)). by rewrite Hid.
  - destruct ps as [|p ps]; [done|]. rewrite Split_join by done.
    destruct (removelast (p :: ps)) as [|q qs] eqn:Eq; [done|].
    assert (Forall (λ p, has_char slash p = false) (q :: qs)) as Hq by exact (canonical_slash _ Hc').
    unfold Clean. rewrite cleaned_trailing by done.
    assert (HasPrefix (join_slash (q :: qs) +:+ "/") "/" = HasPrefix (join_slash (q :: qs)) "/") as ->.
    { apply HasPrefix_slash_app. intros E. unfold render in Hr. cbn [fst snd] in Hr. rewrite E in Hr. by vm_compute in Hr. }
    pose proof (f_equal fst Hr : HasPrefix (join_slash (q :: qs)) "/" = false) as ->. rewrite Hid. done.
Qed.

Lemma Clean_render p : Clean p = render (cleaned p). Proof. done. Qed.

Lemma filepath_Dir_clean p : ∃ c, canonical c ∧ filepath_Dir p = render c ∧ length c.2 ≤ length (Split p slash).
Proof.
  unfold filepath_Dir. pose proof (Split_no_slash p) as Hsl.
  assert (Forall (λ p, has_char slash p = false) (removelast (Split p slash)) ∧ length (removelast (Split p slash)) ≤ length (Split p slash)) as [Hl Hn].
  { generalize (Split p slash) as l, Hsl. clear. intros l. destruct l as [|x l _] using rev_ind; intros H; [done|].
    rewrite removelast_last, length_app. apply Forall_app in H as [? _]. split; [done|lia]. }
  destruct (removelast (Split p slash)) as [|q qs].
  - exists (cleaned ""). split_and!; [apply cleaned_canonical|done|simpl; lia].
  - exists (cleaned (join_slash (q :: qs) +:+ "/")). split_and!; [apply cleaned_canonical|done|].
    rewrite cleaned_trailing by done. etransitivity; [apply clean_parts_length|]. simpl in *. lia.
Qed.

(** ** [safeJoin] *)

Lemma strip_common_spec base targ bs ts :
  strip_common base targ = (bs, ts) →
  ∃ c, base = c ++ bs ∧ targ = c ++ ts ∧ (∀ b bs' t ts', bs = b :: bs' → ts = t :: ts' → b ≠ t).
Proof.
  revert targ. induction base as [|b base IH]; intros targ; simpl.
  { intros [= <- <-]. by exists []. }
  destruct targ as [|t targ]; [intros [= <- <-]; by exists []|]. case_bool_decide as E.
  - subst t. intros (c & -> & -> & ?)%IH. by exists (b :: c).
  - intros [= <- <-]. exists []. split_and!; [done..|]. by intros ? ? ? ? [= <- <-] [= <- <-].
Qed.

Lemma strip_common_app base ts : strip_common base (base ++ ts) = ([], ts).
Proof. induction base as [|b base IH]; simpl; [by destruct ts|]. by rewrite bool_decide_true. Qed.

Lemma escapes_dotdot ts : relEscapesBase (join_slash (".." :: ts)) = true.
Proof.
  unfold relEscapesBase. destruct ts as [|t ts]; [done|]. apply orb_true_iff. right.
  change (join_slash (".." :: t :: ts)) with (".." +:+ "/" +:+ join_slash (t :: ts)). apply HasPrefix_spec.
  by exists (join_slash (t :: ts)).
Qed.

(** Elements after the first proper one are proper. *)
Lemma canonical_tail r ps t ts :
  canonical (r, ps ++ t :: ts) → t ≠ ".." → Forall proper (t :: ts).
Proof.
  intros (k & ns & E & Hn & _) Ht. simpl in E. apply app_eq_inv in E as [(l & E1 & E2)|(l & E1 & E2)].
  - rewrite E2 in Hn. by apply Forall_app in Hn as [_ ?].
  - destruct l as [|x l]; simpl in E2; [by rewrite E2|]. injection E2 as <- _. exfalso.
    assert (t ∈ replicate k "..") as [? _]%elem_of_replicate; [|done]. rewrite E1. set_solver.
Qed.

(** What [safeJoin] makes of the two paths. *)
Lemma cleaned_Clean p : cleaned (Clean p) = cleaned p.
Proof. apply cleaned_render, cleaned_canonical. Qed.

Lemma cleanOut_cleaned base p : cleaned (Clean (Join base p)) = cleaned (Join base p).
Proof. apply cleaned_render, cleaned_canonical. Qed.

Lemma Rel_below base out rel :
  Rel (Clean base) out = Some rel → rel ≠ "." → relEscapesBase rel = false →
  ∃ ts, ts ≠ [] ∧ Forall proper ts ∧ cleaned out = ((cleaned base).1, (cleaned base).2 ++ ts) ∧ rel = join_slash ts.
Proof.
  unfold Rel, Clean. rewrite cleaned_render by apply cleaned_canonical.
  pose proof (cleaned_canonical base) as Hb. pose proof (cleaned_canonical out) as Ho.
  destruct (cleaned base) as [r bps]. destruct (cleaned out) as [r' ops]. cbn [fst snd].
  case_bool_decide as E; [by intros [= <-]|]. case_bool_decide as Er; [subst r'|done]. cbn [negb].
  destruct (strip_common bps _) as [bs ts] eqn:Es. apply strip_common_spec in Es as (c & -> & Et & _).
  destruct bs as [|b bs].
  2:{ cbn [map app]. destruct (bool_decide (b = "..")); [done|]. intros Hrel%(inj Some) _. by rewrite <- Hrel, escapes_dotdot. }
  intros [= <-] Hdot Hesc. rewrite app_nil_r in *.
  assert (ops = c ++ ts) as ->.
  { destruct (negb r && bool_decide (ops = [])) eqn:En; [|done]. exfalso.
    apply andb_true_iff in En as [_ ->%bool_decide_eq_true]. destruct c as [|x c]; simpl in Et.
    - by subst ts.
    - injection Et as <- Et. symmetry in Et. apply app_nil in Et as [-> ->]. destruct Hb as (k & ns & E' & Hn & _).
      simpl in E'. destruct k; simpl in E'; [|done]. subst ns. by apply Forall_cons in Hn as [(_ & ? & _) _]. }
  destruct ts as [|t ts]; [by rewrite app_nil_r in E|]. exists (t :: ts). split_and!; try done.
  eapply canonical_tail; [exact Ho|]. intros ->. by rewrite escapes_dotdot in Hesc.
Qed.

(** A path of proper elements, joined to a directory. *)
Lemma cleaned_join_proper base p :
  base ≠ "" → Forall proper (Split p slash) →
  cleaned (Join base p) = ((cleaned base).1, (cleaned base).2 ++ Split p slash).
Proof.
  intros Hb Hpr.
  assert (p ≠ "") as Hpe by (intros ->; cbn in Hpr; by apply Forall_cons in Hpr as [[? _] _]).
  unfold Join. rewrite !bool_decide_false by done. unfold Clean. rewrite cleaned_render by apply cleaned_canonical.
  unfold cleaned. cbn [fst snd]. rewrite Split_app, (HasPrefix_slash_app base) by done. f_equal.
  assert (∀ r out l k, Forall proper k → clean_parts r out (l ++ k) = clean_parts r out l ++ k) as H; [|by apply H].
  intros r out l k Hk. revert out. induction l as [|x l IH]; intros out; cbn [app].
  - rewrite <- (app_nil_r k), clean_parts_proper by done. simpl. by rewrite reverse_app, reverse_involutive, !app_nil_r.
  - simpl. by repeat case_match.
Qed.

(** The path of an archive entry, joined to the output directory. *)
Lemma cleaned_join base p :
  base ≠ "" → Forall valid_name (Split p slash) →
  cleaned (Join base p) = ((cleaned base).1, (cleaned base).2 ++ Split p slash).
Proof. intros Hb Hp. apply cleaned_join_proper; [done|]. eapply Forall_impl; [exact Hp|apply valid_proper]. Qed.

Lemma not_proper_dots d : d = "." ∨ d = ".." → ¬ Forall proper (Split d slash).
Proof. intros [->| ->] H; apply (Forall_inv (l := [])) in H as (_ & H1 & H2 & _); by (apply H1 || apply H2). Qed.

(** A path of valid names is accepted. *)
Lemma safeJoin_accepts base p :
  base ≠ "" → Forall valid_name (Split p slash) →
  safeJoin base p = Ok (Clean (Join base p)) ∧
  cleaned (Clean (Join base p)) = ((cleaned base).1, (cleaned base).2 ++ Split p slash).
Proof.
  intros Hb Hp. rewrite cleanOut_cleaned. pose proof (cleaned_join _ _ Hb Hp) as Hc. split; [|done].
  unfold safeJoin, Rel. rewrite cleanOut_cleaned, Hc, cleaned_Clean.
  pose proof (Split_nonempty p slash) as Hne. destruct (cleaned base) as [r bs]. cbn [fst snd].
  rewrite (bool_decide_false ((r, bs) = _)) by (intros [= E]; by apply Hne, (app_inv_head bs); rewrite app_nil_r).
  rewrite (bool_decide_true (r = r)) by done. cbn [negb].
  rewrite (bool_decide_false (bs ++ _ = [])) by (intros [_ ?]%app_nil; done). rewrite andb_false_r, strip_common_app.
  rewrite join_Split. assert (Forall proper (Split p slash)) as Hpr by (eapply Forall_impl; [exact Hp|apply valid_proper]).
  rewrite bool_decide_false by (intros ->; eapply not_proper_dots; [by left|exact Hpr]). cbn [orb].
  assert (relEscapesBase p = false) as ->; [|done]. unfold relEscapesBase. apply orb_false_iff. split.
  - apply bool_decide_eq_false. intros ->. eapply not_proper_dots; [by right|exact Hpr].
  - destruct (HasPrefix p "../") eqn:Ep; [|done]. apply HasPrefix_spec in Ep as [t ->].
    change ("../" +:+ t) with (".." +:+ "/" +:+ t) in Hpr. rewrite Split_app in Hpr.
    apply Forall_app in Hpr as [Hpr _]. exfalso. eapply not_proper_dots; [by right|exact Hpr].
Qed.

Lemma safeJoin_inj base p q out :
  base ≠ "" → Forall valid_name (Split p slash) → Forall valid_name (Split q slash) →
  safeJoin base p = Ok out → safeJoin base q = Ok out → p = q.
Proof.
  intros Hb Hp Hq. destruct (safeJoin_accepts base p Hb Hp) as [-> Hp2], (safeJoin_accepts base q Hb Hq) as [-> Hq2].
  intros [= <-] [= E]. rewrite E in Hq2. rewrite Hq2 in Hp2.
  injection Hp2 as Hs. apply app_inv_head in Hs. symmetry. by apply Split_inj.
Qed.

(** ** Properties *)

(** C16. No entry of an archive can be written outside the output directory:
    whatever its path is ("..", absolute, doubled slashes), a path that
    [safeJoin] accepts is the cleaned output directory followed by at least
    one ordinary name; anything else is reported as [ErrUnsafePath]. *)
Theorem safeJoin_contained base p :
  match safeJoin base p with
  | Ok out => out = Clean out ∧
      ∃ names, names ≠ [] ∧ Forall proper names ∧ cleaned out = ((cleaned base).1, (cleaned base).2 ++ names)
  | Err e => errors_Is e ErrUnsafePath = true
  | _ => False
  end.
Proof.
  unfold safeJoin. destruct (Rel (Clean base) (Clean (Join base p))) as [rel|] eqn:E; [|reflexivity].
  destruct (_ || _) eqn:Eb; [reflexivity|]. apply orb_false_iff in Eb as [Hd%bool_decide_eq_false He].
  destruct (Rel_below _ _ _ E Hd He) as (ts & ? & ? & ? & _). split; [|by exists ts].
  unfold Clean at 2. by rewrite cleanOut_cleaned.
Qed.

(** The paths of a version tree, whose elements are all valid names, are
    never refused: they extract to the output directory followed by those
    very names, so two different files never share an output path. *)
Theorem safeJoin_valid base p q :
  base ≠ "" → Forall valid_name (Split p slash) → Forall valid_name (Split q slash) →
  ∃ out out', safeJoin base p = Ok out ∧ cleaned out = ((cleaned base).1, (cleaned base).2 ++ Split p slash) ∧
    safeJoin base q = Ok out' ∧ (out = out' → p = q).
Proof.
  intros Hb Hp Hq. destruct (safeJoin_accepts base p Hb Hp) as [Hp1 Hp2], (safeJoin_accepts base q Hb Hq) as [Hq1 Hq2].
  eexists _, _. split_and!; [exact Hp1|exact Hp2|exact Hq1|]. intros E. rewrite <- E in Hq1. by eapply safeJoin_inj.
Qed.

Lemma safeJoin_valid_witness :
  ∃ out out', safeJoin "/srv/out/" "docs/a.txt" = Ok out ∧
    cleaned out = ((cleaned "/srv/out/").1, (cleaned "/srv/out/").2 ++ Split "docs/a.txt" slash) ∧
    safeJoin "/srv/out/" "..cfg" = Ok out' ∧ (out = out' → "docs/a.txt" = "..cfg").
Proof.
  apply (safeJoin_valid "/srv/out/" "docs/a.txt" "..cfg"); [done|..];
    repeat (apply Forall_cons_2; [apply validateName_valid; vm_compute; reflexivity|]); apply Forall_nil_2.
Defined.
