(* ===== verification/DiskSpace.v ===== *)
(** What the program asks of a file system beside its files
    ([tsync/disk_space_unix.go]): the free space, and the flush of a directory.
    The system calls are an interface. *)

From S2P Require Import Prelude Errors Store.
#[local] Open Scope Z_scope.

(** [os.Open], [File.Sync] and [File.Close] of a directory, and what
    [syscall.Statfs] tells: the blocks that are available, and their size. *)
Class DirCalls (S : Type) := {
  dirh : Type;
  dir_Open : string → M S dirh;
  dir_Sync : dirh → M S unit;
  dir_Close : dirh → M S unit;
  sys_Statfs : string → M S (Z * Z);
}.

Section Calls.
Context {S : Type} {DC : DirCalls S}.

(** [osGetFreeSpace]. *)
Definition osGetFreeSpace (path : string) : M S Z :=
  let* stat := sys_Statfs path in
  ret (u64 (u64 stat.1 * u64 stat.2)).

(** A file system that cannot flush directories. *)
Definition unsupported (e : error) : bool := errors_Is e SysEINVAL || errors_Is e SysENOTSUP.

(** [syncDir]. *)
Definition syncDir (dir : string) : M S unit :=
  let* d := dir_Open dir in
  let* syncErr := attempt (dir_Sync d) in
  let* closeErr := attempt (dir_Close d) in
  let done := match closeErr with Some e => throw e | None => ret tt end in
  match syncErr with
  | Some e => if negb (unsupported e) then throw e else done
  | None => done
  end.

(** What a sequence of calls kept if each of them does: a relation of the
    states before and after, from states in [I], and that they return. *)
Context (I : S → Prop) (R : S → S → Prop) (total : Prop).
Context (R_refl : ∀ s, I s → R s s) (R_trans : ∀ s1 s2 s3, R s1 s2 → R s2 s3 → R s1 s3) (R_I : ∀ s s', R s s' → I s').

Definition kept {A} (c : M S A) : Prop := ∀ s r s', I s → c s = (r, s') → R s s' ∧ (total → returns r).

Lemma kept_lift {A} (r : res A) : returns r → kept (lift r).
Proof. intros Hr s r' s' Hi [= <- <-]. split; [by apply R_refl|done]. Qed.

Lemma kept_bind {A B} (c : M S A) (k : A → M S B) : kept c → (∀ a, kept (k a)) → kept (bind c k).
Proof.
  intros Hc Hk s r s' Hi [(a & s1 & H1 & H)|(r1 & H1 & _ & _ & _ & Hr)]%bind_inv; destruct (Hc _ _ _ Hi H1) as [R1 T1].
  - destruct (Hk _ _ _ _ (R_I _ _ R1) H) as [R2 T2]. split; [by eapply R_trans|done].
  - split; [done|]. intros Ht. right. auto.
Qed.

Lemma kept_attempt (c : M S unit) : kept c → kept (attempt c).
Proof.
  intros Hc s r s' Hi. unfold attempt. destruct (c s) as [r1 s1] eqn:E. destruct (Hc _ _ _ Hi E) as [R1 T1].
  destruct r1; intros [= <- <-]; (split; [done|]); [by left; eexists|by left; eexists|..]; intros Ht; by destruct (T1 Ht) as [[]|[]].
Qed.

Lemma kept_syncDir p : (∀ p, kept (dir_Open p)) → (∀ d, kept (dir_Sync d)) → (∀ d, kept (dir_Close d)) → kept (syncDir p).
Proof.
  intros Ho Hs Hc. apply kept_bind; [done|]. intros d. apply kept_bind; [by apply kept_attempt|]. intros x.
  apply kept_bind; [by apply kept_attempt|]. intros y. cbv zeta.
  destruct x as [e|]; [destruct (negb _)|]; [|destruct y..]; apply (kept_lift (_ : res unit)); first [by left; eexists|by right; eexists].
Qed.

Lemma kept_osGetFreeSpace p : kept (sys_Statfs p) → kept (osGetFreeSpace p).
Proof. intros Hs. apply kept_bind; [done|]. intros a. apply (kept_lift (Ok _)). by left; eexists. Qed.

End Calls.

(** ** Windows *)

(** [windows.UTF16PtrFromString] and [windows.GetDiskFreeSpaceEx]
    ([tsync/disk_space_windows.go]): the bytes available to the caller, those of
    the volume, and those that are free on it, each a [uint64]. *)
Class WindowsCalls (S : Type) := {
  utf16ptr : Type;
  UTF16PtrFromString : string → res utf16ptr;
  GetDiskFreeSpaceEx : utf16ptr → M S (Z * Z * Z);
}.

Section Windows.
Context {S : Type} {WC : WindowsCalls S}.

Definition windows_osGetFreeSpace (path : string) : M S Z :=
  let* pathPtr := lift (UTF16PtrFromString path) in
  let* space := GetDiskFreeSpaceEx pathPtr in
  let '(freeBytesAvailable, totalNumberOfBytes, totalNumberOfFreeBytes) := space in
  ret (u64 freeBytesAvailable).

(** Directories are not flushed. *)
Definition windows_syncDir (dir : string) : M S unit := ret tt.

(** Neither changes what the system calls leave alone; the second cannot
    fail. *)
Lemma kept_windows (I : S → Prop) (R : S → S → Prop) (total : Prop)
    (R_refl : ∀ s, I s → R s s) (R_trans : ∀ s1 s2 s3, R s1 s2 → R s2 s3 → R s1 s3) (R_I : ∀ s s', R s s' → I s') path :
  (∀ p, kept I R total (GetDiskFreeSpaceEx p)) → (total → returns (UTF16PtrFromString path)) →
  kept I R total (windows_osGetFreeSpace path) ∧ kept I R total (windows_syncDir path) ∧
  ∀ s, windows_syncDir path s = (Ok tt, s).
Proof.
  intros Hc Ht. split_and!; [| |done].
  - apply kept_bind; [done..| |].
    + intros s r s' Hi [= <- <-]. split; [by apply R_refl|done].
    + intros p. apply kept_bind; [done..|]. intros [[free total_] all]. apply kept_lift; [done|]. by left; eexists.
  - apply kept_lift; [done|]. by left; eexists.
Qed.

End Windows.
