(* ===== verification/Restore.v ===== *)
(** Restoring a version ([tsync/restore.go], lines 166 to 799): the checks on
    a part, the selection of files, extraction to a directory and to a zip
    archive.

    The operating system's files, the zip library's readers and writers, and
    the decompressor enter as interfaces.  Here files are restored one after
    the other, in any order; RestoreWorkers.v has the pool of workers. *)

From S2P Require Import Prelude Errors GoStrings Keys Digest Metadata TreeWalk Store Client Crypto Upload Paths DiskSpace.
#[local] Open Scope Z_scope.

(** ** Interfaces *)

(** [Storage.OpenReader]: a stream instead of the bytes. *)
Class PartReader {ST : Storage} := {
  OpenReader : string → M store stream;
}.

(** The local file system and the caller's context ([os], [ctx.Err()]). *)
Class Disk := {
  disk : Type;
  tmpfile : Type;
  os_ctx_Err : disk → option error;
  os_Stat : string → disk → option (bool * Z) * disk;
  os_Open : string → M disk stream;
  os_MkdirAll : string → M disk unit;
  os_CreateTemp : string → M disk tmpfile;
  tmp_Write : tmpfile → bytes → M disk unit;
  tmp_Chmod : tmpfile → M disk unit;
  tmp_Sync : tmpfile → M disk unit;
  tmp_Close : tmpfile → M disk unit;
  os_Rename : tmpfile → string → M disk unit;
  os_Remove : tmpfile → M disk unit;
  disk_dirs :: DirCalls disk;
}.

(** The part of a local file header that the restore looks at. *)
Record PartHeader := { ph_Flags : Z; ph_Method : Z }.

(** What a decoder delivers, the error it ends with, and whether it has read
    its source to the end. *)
Record decoded := { dec_out : bytes; dec_err : option error; dec_saw_end : bool }.

(** [zip.ReadLocalFileHeader]: the header, the rest of the stream, and
    whether the end of the stream was seen; the decryption reader of the zip
    library; [flate.NewReader]. *)
Class ZipReading := {
  ReadLocalFileHeader : stream → res PartHeader * stream * bool;
  ZipCryptoDecrypt : PartHeader → string → stream → decoded;
  Inflate : stream → decoded;
}.

(** ** Checks *)

(** [isSkippableRestoreError]. *)
Definition isSkippableRestoreError (err : error) : bool :=
  if errors_Is err CtxCanceled || errors_Is err CtxDeadlineExceeded then false
  else errors_Is err ErrDecryptionFailed || errors_Is err ErrCorruptPart ||
       errors_Is err ErrPrivateKeyRequired || errors_Is err ErrUnsupportedMethod.

(** [decryptPartPassword]. *)
Definition decryptPartPassword {BX : Box} (record : FileRecord) (privateKey : bytes) (fileKey : string) : res string :=
  if blen (EncryptedZipPassword record) =? 0 then Ok ""
  else if blen privateKey =? 0 then Err (wrap1 ErrPrivateKeyRequired fileKey)
  else
    match DecryptPassword (EncryptedZipPassword record) (EphemeralPublicKey record) privateKey with
    | Err e => if errors_Is e ErrDecryptionFailed then Err (Errorf "failed to decrypt ZIP password" [e])
               else Err (Errorf "failed to decrypt ZIP password" [ESentinel ErrDecryptionFailed; e])
    | r => r
    end.

(** [checkPartHeader]. *)
Definition checkPartHeader (fh : PartHeader) (password partKey : string) : res unit :=
  if negb (ph_Method fh =? zip_Store) && negb (ph_Method fh =? zip_Deflate) then
    Err (wrap1 ErrUnsupportedMethod partKey)
  else if negb (Z.land (ph_Flags fh) 64 =? 0) then Err (wrap1 ErrUnsupportedMethod partKey)
  else if negb (Z.land (ph_Flags fh) 1 =? 0) && bool_decide (password = "") then
    Err (wrap1 ErrDecryptionFailed partKey)
  else Ok tt.

(** [classifyPartError], given the errors that the tracked reader and writer
    have recorded. *)
Definition classifyPartError (err : error) (src_err dst_err : option error) : error :=
  match dst_err, src_err with
  | Some _, _ => Errorf "failed to write restored data" [err]
  | None, Some _ => Errorf "failed to read part" [err]
  | None, None =>
      if errors_Is err ZipErrPassword then Errorf "wrong password" [ESentinel ErrDecryptionFailed; err]
      else Errorf "failed to decode part" [ESentinel ErrCorruptPart; err]
  end.

(** [incompleteRunError]. *)
Definition incompleteRunError (cause : option error) : error :=
  match cause with
  | Some c => Errorf "restored" [ESentinel ErrIncompleteRun; c]
  | None => wrap1 ErrIncompleteRun "restored"
  end.

(** ** Options and selection *)

(** [RestoreOptions], without [OnProgress]. *)
Record RestoreOptions := {
  has_ZipWriter : bool;
  ExtractDir : string;
  PrivateKey : bytes;
  NewPassword : string;
  SkipDecryptionErrors : bool;
  SkipValidationErrors : bool;
  FilesToRestore : list string;
  ro_FilterFunc : option (string → bool);
  ro_Concurrency : Z;
  NoOverwrite : bool;
}.

(** [targets]. *)
Definition restore_targets (files : list string) : gset string :=
  list_to_set (files ++ ((λ f, TrimSuffix f "/") <$> files)).

Definition keep_file (opts : RestoreOptions) (p : string) : bool :=
  match FilesToRestore opts with
  | [] => match ro_FilterFunc opts with Some f => f p | None => true end
  | files => bool_decide (p ∈ restore_targets files)
  end.
Definition keep_dir (opts : RestoreOptions) (d : string) : bool :=
  match FilesToRestore opts with
  | [] => match ro_FilterFunc opts with Some f => f d || f (d +:+ "/") | None => true end
  | files => bool_decide (d ∈ restore_targets files) || bool_decide ((d +:+ "/") ∈ restore_targets files)
  end.

(** [filteredMap] and [emptyDirs]. *)
Definition select_files (opts : RestoreOptions) (resolved : gmap string string) : gmap string string :=
  filter (λ pk : string * string, keep_file opts pk.1 = true) resolved.
Definition select_dirs (opts : RestoreOptions) (ds : list string) : list string :=
  filter (λ d, keep_dir opts d = true) ds.

(** [io.LimitReader]. *)
Definition LimitReader (n : Z) (s : stream) : stream :=
  if n <=? 0 then ([], None)
  else if blen s.1 <? n then s
  else (take (Z.to_nat n) s.1, None).

(** ** Extraction of one file *)

Section Extract.
Context {ST : Storage} {RD : PartReader} {DK : Disk} {CK : Chunking} {ZR : ZipReading} {BX : Box}.

(** [stopped]: [workerCancel] was called. *)
Record rstate := {
  r_store : store;
  r_disk : disk;
  stopped : bool;
  touchedDirs : gmap string unit;
}.
Definition on_dest {A} (c : M store A) : M rstate A := λ s,
  let '(r, x) := c (r_store s) in
  (r, {| r_store := x; r_disk := r_disk s; stopped := stopped s; touchedDirs := touchedDirs s |}).
Definition on_disk {A} (c : M disk A) : M rstate A := λ s,
  let '(r, x) := c (r_disk s) in
  (r, {| r_store := r_store s; r_disk := x; stopped := stopped s; touchedDirs := touchedDirs s |}).
Definition stop (s : rstate) : rstate :=
  {| r_store := r_store s; r_disk := r_disk s; stopped := true; touchedDirs := touchedDirs s |}.
Definition touch_dir (d : string) : M rstate unit :=
  modify (λ s, {| r_store := r_store s; r_disk := r_disk s; stopped := stopped s;
                  touchedDirs := <[d := tt]> (touchedDirs s) |}).

(** [workerCtx.Err()]. *)
Definition worker_err (s : rstate) : option error :=
  if stopped s then Some (ESentinel CtxCanceled) else os_ctx_Err (r_disk s).

(** [os.Stat] cannot fail the run. *)
Definition stat (p : string) : M rstate (option (bool * Z)) := on_disk (λ d, let '(r, d) := os_Stat p d in (Ok r, d)).

(** [getExistingAncestor]. *)
Fixpoint existing_ancestor (fuel : nat) (path : string) : M rstate string :=
  match fuel with
  | O => λ s, (OutOfFuel, s)
  | S fuel =>
      let* fi := stat path in
      match fi with
      | Some _ => ret path
      | None => let parent := filepath_Dir path in
                if bool_decide (parent = path) then ret path else existing_ancestor fuel parent
      end
  end.
Definition getExistingAncestor (path : string) : M rstate string :=
  existing_ancestor (2 + length (Split path slash)) path.

(** [calculateFileCRC32]. *)
Definition calculateFileCRC32 (p : string) : M disk Z :=
  let* rc := os_Open p in
  match rc.2 with
  | Some e => throw e
  | None => ret (CRC32.Sum32 rc.1)
  end.

(** The file is left as it is: it exists and must not be overwritten, or it
    has the content already. *)
Definition already_there (opts : RestoreOptions) (record : FileRecord) (out : string) : M rstate bool :=
  let* fi := stat out in
  match fi with
  | None => ret false
  | Some (regular, size) =>
      if NoOverwrite opts then ret true
      else if regular && (size =? UncompressedSize record) then
        handle (let* crc := on_disk (calculateFileCRC32 out) in ret (crc =? Crc32 record)) (λ _, ret false)
      else ret false
  end.

(** The decoder of a part's payload. *)
Definition decode_part (fh : PartHeader) (password : string) (payload : stream) : decoded :=
  let d := if negb (Z.land (ph_Flags fh) 1 =? 0) then ZipCryptoDecrypt fh password payload
           else {| dec_out := payload.1; dec_err := payload.2; dec_saw_end := true |} in
  if ph_Method fh =? zip_Deflate then
    let f := Inflate (dec_out d, dec_err d) in
    {| dec_out := dec_out f; dec_err := dec_err f; dec_saw_end := dec_saw_end f && dec_saw_end d |}
  else d.

(** From the payload to the written and synced temporary file; [src] is what
    follows the local header. *)
Definition fill_temp (record : FileRecord) (fh : PartHeader) (password : string) (src : stream) (tmp : tmpfile)
    : M rstate unit :=
  let payload := LimitReader (CompressedSize record) src in
  let d := decode_part fh password payload in
  let src_err := if dec_saw_end d then payload.2 else None in
  let fail e src_err dst_err := throw (Errorf "failed to extract" [classifyPartError e src_err dst_err]) in
  let* _ := handle (for_each (chunks (dec_out d)) (λ b, on_disk (tmp_Write tmp b))) (λ e, fail e src_err (Some e)) in
  match dec_err d, payload.2 with
  | Some e, _ => fail e src_err None
  | None, Some e => fail e (Some e) None
  | None, None =>
      if negb (blen payload.1 =? CompressedSize record) then throw (wrap1 ErrCorruptPart "compressed size")
      else if negb (blen (dec_out d) =? UncompressedSize record) ||
              negb (CRC32.Sum32 (dec_out d) =? Crc32 record) then throw (wrap1 ErrCorruptPart "content")
      else
        let* _ := wrap_err "failed to chmod temp file" (on_disk (tmp_Chmod tmp)) in
        wrap_err "failed to sync temp file" (on_disk (tmp_Sync tmp))
  end.

(** Closes the temporary file and renames it into place. *)
Definition finish_temp (tmp : tmpfile) (out : string) : M rstate unit :=
  let* _ := wrap_err "failed to close temp file" (on_disk (tmp_Close tmp)) in
  wrap_err "failed to rename temp file" (on_disk (os_Rename tmp out)).

(** The deferred cleanup of the temporary file, before and after its
    [Close]. *)
Definition remove_temp (tmp : tmpfile) {A} (e : error) : M rstate A :=
  let* _ := ignore (on_disk (os_Remove tmp)) in throw e.
Definition close_and_remove (tmp : tmpfile) {A} (e : error) : M rstate A :=
  let* _ := ignore (on_disk (tmp_Close tmp)) in remove_temp tmp e.

Definition wrap_path {A} (r : res A) : res A :=
  match r with Err e => Err (Errorf "path" [e]) | r => r end.

(** [extractOne]. *)
Definition extractOne (opts : RestoreOptions) (metadata : BackupMetadata) (path fileKey : string) : M rstate unit :=
  let* cleanOutPath := lift (safeJoin (ExtractDir opts) path) in
  match Files metadata !! fileKey with
  | None => throw (wrap1 ErrCorruptMetadata "file record not found in metadata files pool")
  | Some record =>
      let* skip := already_there opts record cleanOutPath in
      if (skip : bool) then ret tt
      else
        let* password := lift (wrap_path (decryptPartPassword record (PrivateKey opts) fileKey)) in
        let* partKey := lift (partKeyFor fileKey) in
        let* rc := wrap_err "failed to open file part" (on_dest (OpenReader partKey)) in
        let '(header, src, saw_end) := ReadLocalFileHeader rc in
        let* fh := lift (match header return res PartHeader with
                         | Err e => Err (Errorf "local file header" [classifyPartError e (if saw_end : bool then rc.2 else None) None])
                         | r => r
                         end) in
        let* _ := lift (wrap_path (checkPartHeader fh password partKey)) in
        let tmpDir := filepath_Dir cleanOutPath in
        let* _ := wrap_err "failed to create parent directory" (on_disk (os_MkdirAll tmpDir)) in
        let* tmp := wrap_err "failed to create temp file" (on_disk (os_CreateTemp tmpDir)) in
        let* _ := handle (fill_temp record fh password src tmp) (close_and_remove tmp) in
        let* _ := handle (finish_temp tmp cleanOutPath) (remove_temp tmp) in
        touch_dir tmpDir
  end.

(** ** Extraction to a directory *)

(** [restoreResult]. *)
Inductive restoreResult := RDone | RFailed (e : error) | RCancelled (e : error).

(** One task of a worker: exactly one result. *)
Definition restore_one (opts : RestoreOptions) (metadata : BackupMetadata) (t : string * string) : M rstate restoreResult := λ s,
  match worker_err s with
  | Some e => (Ok (RCancelled e), s)
  | None =>
      match extractOne opts metadata t.1 t.2 s with
      | (Ok _, s) => (Ok RDone, s)
      | (Err e, s) =>
          if SkipDecryptionErrors opts && isSkippableRestoreError e then (Ok RDone, s)
          else if bool_decide (is_Some (worker_err s)) && errors_Is e CtxCanceled then (Ok (RCancelled e), stop s)
          else (Ok (RFailed e), stop s)
      | (Panic, s) => (Panic, s)
      | (OutOfFuel, s) => (OutOfFuel, s)
      end
  end.

Fixpoint restore_all (opts : RestoreOptions) (metadata : BackupMetadata) (ts : list (string * string))
    : M rstate (list restoreResult) :=
  match ts with
  | [] => ret []
  | t :: ts =>
      let* r := restore_one opts metadata t in
      let* rs := restore_all opts metadata ts in
      ret (r :: rs)
  end.

(** The loop over the results: how many are done, and the first failure that
    is not a mere cancellation. *)
Definition drain (rs : list restoreResult) : nat * option error :=
  fold_left (λ acc r, match r with
                      | RDone => (S acc.1, acc.2)
                      | RFailed e => (acc.1, match acc.2 with None => Some e | x => x end)
                      | RCancelled _ => acc
                      end) rs (0%nat, None).

(** [maxUncompressedSize] and [totalUncompressedSize], the latter in
    [int64]. *)
Definition largest_size (metadata : BackupMetadata) (keys : list string) : Z :=
  fold_left (λ m k, match Files metadata !! k with
                    | Some rec => if m <? UncompressedSize rec then UncompressedSize rec else m
                    | None => m
                    end) keys 0.
Definition total_size (metadata : BackupMetadata) (keys : list string) : Z :=
  fold_left (λ n k, match Files metadata !! k with
                    | Some rec => i64 (n + UncompressedSize rec)
                    | None => n
                    end) keys 0.

(** [concurrency]: the number of workers that the options ask for. *)
Definition concurrency (opts : RestoreOptions) : Z := if ro_Concurrency opts <=? 0 then 10 else ro_Concurrency opts.

(** The check of the free space, compared in [uint64]: the number of workers,
    one if there is no room for all files at once.  Space that cannot be
    determined is not checked. *)
Definition check_space (opts : RestoreOptions) (metadata : BackupMetadata) (keys : list string) : M rstate Z :=
  let* ancestor := getExistingAncestor (ExtractDir opts) in
  let* free := handle (let* n := on_disk (osGetFreeSpace ancestor) in ret (Some n)) (λ _, ret None) in
  match free with
  | None => ret (concurrency opts)
  | Some free =>
      if free <? u64 (largest_size metadata keys) then throw (wrap1 ErrInsufficientDiskSpace "free space")
      else ret (if free <? u64 (total_size metadata keys) then 1 else concurrency opts)
  end.

(** The empty directories of the version. *)
Definition make_dir (opts : RestoreOptions) (d : string) : M rstate unit :=
  handle (let* p := lift (safeJoin (ExtractDir opts) d) in on_disk (os_MkdirAll p))
    (λ e, if SkipValidationErrors opts then ret tt else throw (Errorf "failed to create empty directory" [e])).

(** The end of [restoreToDir], from the results on. *)
Definition conclude {MR : MapRange} (opts : RestoreOptions) (total : nat) (results : list restoreResult)
    (emptyDirs : list string) : M rstate unit :=
  let '(done, firstErr) := drain results in
  let* s := get in
  match os_ctx_Err (r_disk s), firstErr with
  | Some e, _ => throw (incompleteRunError (Some e))
  | None, Some e => throw e
  | None, None =>
      if negb (Nat.eqb done total) then throw (incompleteRunError None)
      else
        let* _ := for_each emptyDirs (make_dir opts) in
        let* s := get in
        for_each (range (touchedDirs s)).*1 (λ d, wrap_err "failed to sync directory" (on_disk (syncDir d)))
  end.

(** [restoreToDir] with one worker at a time; [order] is the order in which
    the tasks are taken. *)
Definition restoreToDir {MR : MapRange} (order : list (string * string) → list (string * string))
    (opts : RestoreOptions) (metadata : BackupMetadata) (filteredMap : gmap string string) (emptyDirs : list string)
    : M rstate unit :=
  let tasks := range filteredMap in
  let* _ := check_space opts metadata tasks.*2 in
  let* results := restore_all opts metadata (order tasks) in
  conclude opts (length tasks) results emptyDirs.

End Extract.

(** ** Restoring to a zip archive *)

(** The zip writer: [CopyRawPart] with the new name, the passwords and the
    part; it tells how much of the part it has read, whether it saw the end
    of the stream, and the error of the output if there was one.  [Create] is
    the creation of a directory entry together with its [Close]. *)
Class ZipWriting := {
  zipw : Type;
  CopyRawPart : string → string → string → stream → zipw → (res unit * Z * bool * option error) * zipw;
  zipw_Create : string → M zipw unit;
  zipw_Close : M zipw unit;
}.

Section Zip.
Context {ST : Storage} {RD : PartReader} {DK : Disk} {ZR : ZipReading} {ZW : ZipWriting} {BX : Box}.

Abbreviation Z_ := (M (rstate * zipw)).

Definition on_r {A} (c : M rstate A) : Z_ A := λ s, let '(r, x) := c s.1 in (r, (x, s.2)).
Definition on_zip {A} (c : M zipw A) : Z_ A := λ s, let '(r, z) := c s.2 in (r, (s.1, z)).

(** [io.ReadFull] of [n] bytes. *)
Definition ReadFull (n : nat) (s : stream) : res bytes :=
  if Nat.leb n (length s.1) then Ok (take n s.1)
  else Err (default (ESentinel (match s.1 with [] => IoEOF | _ => IoErrUnexpectedEOF end)) s.2).

(** What is known of a part before anything is written. *)
Record prepared := {
  pr_record : FileRecord;
  pr_password : string;
  pr_header : PartHeader;
  pr_part : stream;
  pr_header_len : Z;
}.

(** The part of [copyOne] that can still be skipped. *)
Definition prepare (opts : RestoreOptions) (metadata : BackupMetadata) (path fileKey : string) : M rstate prepared :=
  match Files metadata !! fileKey with
  | None => throw (wrap1 ErrCorruptMetadata "file record not found in metadata files pool")
  | Some record =>
      let* password := lift (wrap_path (decryptPartPassword record (PrivateKey opts) fileKey)) in
      let* partKey := lift (partKeyFor fileKey) in
      let* rc := wrap_err "failed to open file part" (on_dest (OpenReader partKey)) in
      let '(header, src, saw_end) := ReadLocalFileHeader rc in
      let* fh := lift (match header return res PartHeader with
                       | Err e => Err (Errorf "local file header" [classifyPartError e (if saw_end : bool then rc.2 else None) None])
                       | r => r
                       end) in
      let* _ := lift (wrap_path (checkPartHeader fh password partKey)) in
      let* _ := lift (if Z.land (ph_Flags fh) 1 =? 0 then Ok tt
                      else match ReadFull 12 src with
                           | Ok encHeader =>
                               match dec_err (ZipCryptoDecrypt fh password (encHeader, None)) with
                               | Some e => Err (Errorf "encryption header" [classifyPartError e None None])
                               | None => Ok tt
                               end
                           | Err e => Err (Errorf "encryption header" [classifyPartError e src.2 None])
                           | _ => Panic
                           end) in
      ret {| pr_record := record; pr_password := password; pr_header := fh; pr_part := rc;
             pr_header_len := blen rc.1 - blen src.1 |}
  end.

(** The part of [copyOne] after the output was started. *)
Definition copy_prepared (opts : RestoreOptions) (path : string) (p : prepared) : M zipw unit := λ z,
  let '(r, n, saw_end, out_err, z) := CopyRawPart path (pr_password p) (NewPassword opts) (pr_part p) z in
  match r with
  | Err e => (Err (Errorf "failed to copy and re-key part"
                     [classifyPartError e (if saw_end : bool then (pr_part p).2 else None) out_err]), z)
  | Ok _ =>
      let trailing := n - pr_header_len p - CompressedSize (pr_record p) in
      let validTrailing :=
        if Z.land (ph_Flags (pr_header p)) 8 =? 0 then trailing =? 0
        else (trailing =? 12) || (trailing =? 16) || (trailing =? 20) || (trailing =? 24) in
      if validTrailing then (Ok tt, z) else (Err (wrap1 ErrCorruptPart "payload size"), z)
  | Panic => (Panic, z)
  | OutOfFuel => (OutOfFuel, z)
  end.

(** [copyOne]: whether the output was started, and the error. *)
Definition copyOne (opts : RestoreOptions) (metadata : BackupMetadata) (path fileKey : string)
    : Z_ (bool * option error) := λ s,
  match on_r (prepare opts metadata path fileKey) s with
  | (Ok p, s) => (let* e := attempt (on_zip (copy_prepared opts path p)) in ret (true, e)) s
  | (Err e, s) => (Ok (false, Some e), s)
  | (Panic, s) => (Panic, s)
  | (OutOfFuel, s) => (OutOfFuel, s)
  end.

(** [ctx.Err()]. *)
Definition z_ctx_Err : Z_ (option error) := λ s, (Ok (os_ctx_Err (r_disk s.1)), s).

(** The loop over the files. *)
Fixpoint copy_all (opts : RestoreOptions) (metadata : BackupMetadata) (ts : list (string * string)) : Z_ unit :=
  match ts with
  | [] => ret tt
  | t :: ts =>
      let* c := z_ctx_Err in
      match c with
      | Some e => throw (incompleteRunError (Some e))
      | None =>
          let* x := copyOne opts metadata t.1 t.2 in
          match x with
          | (_, None) => copy_all opts metadata ts
          | (started, Some e) =>
              if negb started && SkipDecryptionErrors opts && isSkippableRestoreError e then copy_all opts metadata ts
              else
                let* c := z_ctx_Err in
                match c with
                | Some ctxErr => throw (incompleteRunError (Some (Errorf "while restoring" [ctxErr; e])))
                | None => throw e
                end
          end
      end
  end.

(** One directory entry. *)
Definition create_dir (d : string) : Z_ unit :=
  let dirName := if HasSuffix d "/" then d else d +:+ "/" in
  wrap_err "failed to add empty directory to reconstructed zip" (on_zip (zipw_Create dirName)).

(** [restoreToZip]. *)
Definition restoreToZip {MR : MapRange} (opts : RestoreOptions) (metadata : BackupMetadata)
    (filteredMap : gmap string string) (emptyDirs : list string) : Z_ unit :=
  let* _ := copy_all opts metadata (range filteredMap) in
  let* c := z_ctx_Err in
  match c with
  | Some e => throw (incompleteRunError (Some e))
  | None =>
      let* _ := for_each emptyDirs create_dir in
      wrap_err "failed to close reconstructed zip writer" (on_zip zipw_Close)
  end.

(** ** The run *)

(** [RunRestore] up to the call of [restoreToDir] or [restoreToZip]: the
    metadata, the files and the directories to restore. *)
Definition plan_restore {PR : Proto} {MR : MapRange} (versionID : Z) (opts : RestoreOptions)
    : Z_ (BackupMetadata * gmap string string * list string) :=
  let* c := z_ctx_Err in
  match c with
  | Some e => throw e
  | None =>
      if bool_decide (ExtractDir opts = "") && negb (has_ZipWriter opts) then
        throw (wrap1 ErrInvalidOptions "either ZipWriter or ExtractDir must be set")
      else if (0 <? blen (PrivateKey opts)) && negb (blen (PrivateKey opts) =? 32) then
        throw (wrap1 ErrInvalidOptions "invalid PrivateKey")
      else
        let* metadata := on_r (on_dest loadMetadata) in
        let* resolved := lift (match ResolveVersionTree metadata versionID (SkipValidationErrors opts) return res walk_acc with
                               | Err e => Err (Errorf "failed to resolve version map" [e])
                               | r => r
                               end) in
        ret (metadata, select_files opts resolved.1, select_dirs opts resolved.2)
  end.

(** [RunRestore], with one worker at a time. *)
Definition RunRestore {PR : Proto} {MR : MapRange} {CK : Chunking} (order : list (string * string) → list (string * string))
    (versionID : Z) (opts : RestoreOptions) : Z_ unit :=
  let* plan := plan_restore versionID opts in
  let '(metadata, filteredMap, emptyDirs) := plan in
  if negb (bool_decide (ExtractDir opts = "")) then on_r (restoreToDir order opts metadata filteredMap emptyDirs)
  else restoreToZip opts metadata filteredMap emptyDirs.

End Zip.
