(* ===== verification/Tracked.v ===== *)
(** The readers and writers that a restore wraps around its streams
    ([trackedReader] and [trackedWriter] of [tsync/restore.go], lines 180 to
    212): what they have counted and recorded at any moment, and that the
    whole streams of Restore.v tell the same. *)

From S2P Require Import Prelude Errors GoStrings Digest Metadata Store ZipDir Restore.
#[local] Open Scope Z_scope.

(** What one [Read] returns: bytes and an error, possibly both. *)
Abbreviation read_result := (bytes * option error)%type.

Record trackedReader := { tr_n : Z; tr_err : option error }.
Definition new_reader : trackedReader := {| tr_n := 0; tr_err := None |}.

(** [trackedReader.Read], after the wrapped reader has returned [x]. *)
Definition tr_Read (x : read_result) (t : trackedReader) : trackedReader := {|
  tr_n := i64 (tr_n t + blen x.1);
  tr_err :=
    match x.2, tr_err t with
    | Some e, None => if is_EOF e then None else Some e
    | _, err => err
    end;
|}.
Definition tr_Reads (xs : list read_result) (t : trackedReader) : trackedReader := fold_left (λ t x, tr_Read x t) xs t.

(** [trackedWriter.Write]: the first error of the wrapped writer. *)
Definition tw_Write (x : option error) (err : option error) : option error :=
  match x, err with Some e, None => Some e | _, err => err end.

(** [io.Copy] from a reader that returns [xs] in turn: the bytes it writes
    and its error, given what each write returns. *)
Fixpoint io_Copy (xs : list read_result) (write : bytes → option error) : bytes * option error :=
  match xs with
  | [] => ([], None)
  | (b, e) :: xs =>
      match (if bool_decide (b = []) then None else write b) with
      | Some e => ([], Some e)
      | None =>
          match e with
          | Some e => (b, if is_EOF e then None else Some e)
          | None => let '(out, err) := io_Copy xs write in (b ++ out, err)
          end
      end
  end.

(** The reader delivers the stream [s]: the bytes in pieces, then its error
    or the end of the file, with or after the last piece. *)
Inductive delivers : list read_result → stream → Prop :=
| delivers_more b xs s e : delivers xs (s, e) → delivers ((b, None) :: xs) (b ++ s, e)
| delivers_end b e : delivers [(b, Some (default (ESentinel IoEOF) e))] (b, e).

Definition not_EOF (e : option error) : Prop := ∀ x, e = Some x → is_EOF x = false.

(** At every moment, the count is that of the bytes delivered so far, and an
    error is recorded only when the stream has ended with it. *)
Lemma tr_Reads_prefix xs s ys zs t :
  delivers xs s → not_EOF s.2 → xs = ys ++ zs → tr_err t = None → 0 ≤ tr_n t → tr_n t + blen s.1 ≤ max_int64 →
  let t' := tr_Reads ys t in
  tr_n t' = tr_n t + blen (concat ys.*1) ∧ concat ys.*1 `prefix_of` s.1 ∧
  tr_err t' = (if bool_decide (zs = []) then s.2 else None).
Proof.
  intros Hd. revert ys t. induction Hd as [b xs s e Hd IH|b e]; intros ys t Hne E Ht H0 Hmax; cbn [fst snd] in *.
  - unfold blen in *. rewrite length_app, Nat2Z.inj_add in Hmax.
    destruct ys as [|y ys]; cbn in E.
    { subst zs. cbn. split_and!; [lia|apply prefix_nil|done]. }
    injection E as <- ->. assert (i64 (tr_n t + Z.of_nat (length b)) = tr_n t + Z.of_nat (length b)) as Hi
      by (apply i64_id; unfold is_i64, min_int64; lia).
    destruct (IH ys (tr_Read (b, None) t) Hne eq_refl) as (Hn & Hp & He).
    + by cbn.
    + cbn. unfold blen. lia.
    + cbn. unfold blen. rewrite Hi. lia.
    + cbn [fold_left tr_Reads] in *. unfold tr_Reads in *. cbn [fold_left]. split_and!.
      * rewrite Hn. cbn. unfold blen. rewrite Hi, length_app. lia.
      * cbn. by apply prefix_app.
      * done.
  - destruct ys as [|y ys]; cbn in E.
    { subst zs. cbn. unfold blen. split_and!; [cbn; lia|apply prefix_nil|done]. }
    injection E as <- E. symmetry in E. apply app_nil in E as [-> ->]. cbn.
    rewrite app_nil_r. assert (i64 (tr_n t + blen b) = tr_n t + blen b) as -> by (apply i64_id; unfold is_i64, min_int64, blen in *; lia).
    split_and!; [done|done|]. rewrite Ht. destruct e as [e|]; [|done]. cbn. by rewrite (Hne e eq_refl).
Qed.

(** Copying a whole stream to a writer that does not fail: everything
    arrives, and the error is that of the stream. *)
Lemma io_Copy_all xs s :
  delivers xs s → not_EOF s.2 → io_Copy xs (λ _, None) = s.
Proof.
  induction 1 as [b xs s e Hd IH|b e]; intros Hne; cbn [io_Copy].
  - specialize (IH Hne). rewrite IH. by destruct (bool_decide (b = [])).
  - destruct e as [e|]; cbn; [rewrite (Hne e eq_refl)|]; by destruct (bool_decide (b = [])).
Qed.

(** The end of [extractOne]'s loop: when the rest of a payload has been
    drained, the count is its length and the recorded error is its error,
    which is what [fill_temp] compares and classifies. *)
Lemma drained_payload record src xs :
  delivers xs (LimitReader (CompressedSize record) src) → not_EOF src.2 → blen src.1 ≤ max_int64 →
  let payload := LimitReader (CompressedSize record) src in
  let t := tr_Reads xs new_reader in
  tr_n t = blen payload.1 ∧ tr_err t = payload.2 ∧ io_Copy xs (λ _, None) = payload.
Proof.
  intros Hd Hne Hmax payload t.
  assert (not_EOF payload.2 ∧ blen payload.1 ≤ blen src.1) as [Hp Hl].
  { unfold payload, LimitReader. destruct (Z.leb_spec (CompressedSize record) 0); [by split; [intros x|unfold blen; cbn; lia]|].
    destruct (Z.ltb_spec (blen src.1) (CompressedSize record)); [by split|]. split; [by intros x|]. unfold blen. cbn. rewrite length_take. lia. }
  destruct (tr_Reads_prefix xs payload xs [] new_reader Hd Hp) as (Hn & _ & He); [by rewrite app_nil_r|done|done|cbn; lia|].
  assert (concat xs.*1 = payload.1) as Ec.
  { clear -Hd. unfold payload. induction Hd as [b xs s e _ IH|b e]; cbn; [by rewrite IH|apply app_nil_r]. }
  split_and!; [etransitivity; [exact Hn|by rewrite Ec]|done|by apply io_Copy_all].
Qed.

(** A writer records the first failure and keeps it. *)
Lemma tw_Write_first xs : fold_left (λ err x, tw_Write x err) xs None = head (omap id xs).
Proof.
  assert (∀ e, fold_left (λ err x, tw_Write x err) xs (Some e) = Some e) as Hkeep.
  { intros e. induction xs as [|[x|] xs IH]; [done|..]; cbn; done. }
  induction xs as [|[x|] xs IH]; [done|..]; cbn.
  - clear -Hkeep. specialize (Hkeep x). cbn in Hkeep. done.
  - apply IH. intros e. apply (Hkeep e).
Qed.
