(* ===== verification/RestoreSpec.v ===== *)
(** What a restore does to the local file system, and to a zip archive. *)

From S2P Require Import Prelude Errors GoStrings Keys Digest Metadata TreeWalk TreeResolve Store Client Crypto Upload Paths DiskSpace Restore.
#[local] Open Scope Z_scope.

(** ** The contracts of the environment *)

(** A stream delivers a prefix of the object, and EOF only at its end. *)
Class PartReaderLaws {ST : Storage} {SL : StorageLaws} {RD : PartReader} := {
  OpenReader_law p s r s' : inv s → OpenReader p s = (r, s') →
    inv s' ∧ view s' = view s ∧ (relative p → ∀ b e, r = Ok (b, e) →
      ∃ whole, view s !! p = Some whole ∧ b `prefix_of` whole ∧ (e = None → b = whole));
}.

(** Files are what is found at a path, temporary files aside; [d_temp] is the
    content of an open temporary file. *)
Class DiskLaws {DK : Disk} := {
  dinv : disk → Prop;
  d_files : disk → gmap string bytes;
  d_temp : disk → tmpfile → bytes → Prop;
  quiet d d' := dinv d' ∧ d_files d' = d_files d ∧ ∀ t c, d_temp d t c → d_temp d' t c;
  os_Stat_law p d r d' : dinv d → os_Stat p d = (r, d') →
    quiet d d' ∧ ∀ n, r = Some (true, n) → ∃ b, d_files d !! p = Some b ∧ blen b = n;
  os_Open_law p d r d' : dinv d → os_Open p d = (r, d') →
    quiet d d' ∧ ∀ b, r = Ok (b, None) → d_files d !! p = Some b;
  os_MkdirAll_law p d r d' : dinv d → os_MkdirAll p d = (r, d') → quiet d d';
  os_CreateTemp_law p d r d' : dinv d → os_CreateTemp p d = (r, d') →
    quiet d d' ∧ ∀ t, r = Ok t → d_temp d' t [];
  tmp_Write_law t b d r d' c : dinv d → tmp_Write t b d = (r, d') → d_temp d t c →
    dinv d' ∧ d_files d' = d_files d ∧ ∀ u, r = Ok u → d_temp d' t (c ++ b);
  tmp_Chmod_law t d r d' : dinv d → tmp_Chmod t d = (r, d') → quiet d d';
  tmp_Sync_law t d r d' : dinv d → tmp_Sync t d = (r, d') → quiet d d';
  tmp_Close_law t d r d' : dinv d → tmp_Close t d = (r, d') → quiet d d';
  os_Rename_law t p d r d' c : dinv d → os_Rename t p d = (r, d') → d_temp d t c →
    dinv d' ∧ (d_files d' = <[p := c]> (d_files d) ∨ (∀ u, r ≠ Ok u) ∧ d_files d' = d_files d);
  os_Remove_law t d r d' : dinv d → os_Remove t d = (r, d') → dinv d' ∧ d_files d' = d_files d;
  dir_Open_law p d r d' : dinv d → dir_Open p d = (r, d') → quiet d d';
  dir_Sync_law h d r d' : dinv d → dir_Sync h d = (r, d') → quiet d d';
  dir_Close_law h d r d' : dinv d → dir_Close h d = (r, d') → quiet d d';
  sys_Statfs_law p d r d' : dinv d → sys_Statfs p d = (r, d') → quiet d d';
}.

(** What the zip library reads back of a part it has written: from any
    prefix of the part whose payload is complete, a decoder that ends without
    an error delivers what was written. *)
Class ZipRoundtrip {ZP : ZipParts} {ZR : ZipReading} := {
  part_Close_size z b fh : part_Close z = Ok (b, fh) → is_u64 (fh_CompressedSize64 fh);
  zip_reads_back fh cs out fh' b e ph src saw_end :
    zip_object (CreateFileParts fh) cs = Ok (out, fh') →
    b `prefix_of` out → ReadLocalFileHeader (b, e) = (Ok ph, src, saw_end) →
    let payload := LimitReader (fh_CompressedSize64 fh') src in
    let d := decode_part ph (default "" (fh_Password fh)) payload in
    payload.2 = None → blen payload.1 = fh_CompressedSize64 fh' → dec_err d = None → dec_out d = concat cs;
}.

(** A file has the content that its record describes. *)
Definition matches (record : FileRecord) (c : bytes) : Prop :=
  blen c = UncompressedSize record ∧ CRC32.Sum32 c = Crc32 record.

Section Spec.
Context {ST : Storage} {SL : StorageLaws} {RD : PartReader} {RL : PartReaderLaws} {DK : Disk} {DL : DiskLaws}.
Context {CK : Chunking} {ZR : ZipReading} {BX : Box}.

(** ** Steps that write no file *)

(** The calls on directories, one after the other, are quiet. *)
Lemma quiet_refl d : dinv d → quiet d d.
Proof. intros Hd. unfold quiet. by split_and!. Qed.
Lemma quiet_trans d1 d2 d3 : quiet d1 d2 → quiet d2 d3 → quiet d1 d3.
Proof. intros (? & F1 & T1) (? & F2 & T2). unfold quiet. split_and!; [done|congruence|auto]. Qed.
Lemma quiet_dinv d d' : quiet d d' → dinv d'.
Proof. by intros []. Qed.

Lemma syncDir_law p d r d' : dinv d → syncDir p d = (r, d') → quiet d d'.
Proof.
  intros Hd H. eapply (kept_syncDir dinv quiet False quiet_refl quiet_trans quiet_dinv); [..|exact Hd|exact H].
  - intros q x rx x' Hx Hq. split; [by eapply dir_Open_law|done].
  - intros q x rx x' Hx Hq. split; [by eapply dir_Sync_law|done].
  - intros q x rx x' Hx Hq. split; [by eapply dir_Close_law|done].
Qed.

Lemma osGetFreeSpace_law p d r d' : dinv d → osGetFreeSpace p d = (r, d') → quiet d d'.
Proof.
  intros Hd H. eapply (kept_osGetFreeSpace dinv quiet False quiet_refl quiet_trans quiet_dinv); [|exact Hd|exact H].
  intros x rx x' Hx Hq. split; [by eapply sys_Statfs_law|done].
Qed.

Definition r_ok (s : rstate) : Prop := inv (r_store s) ∧ dinv (r_disk s).

(** Nothing but temporary files and directories has changed; [t], if given,
    still has its content. *)
Definition calm (s s' : rstate) : Prop :=
  r_ok s' ∧ view (r_store s') = view (r_store s) ∧ d_files (r_disk s') = d_files (r_disk s).
Definition calm_temp (s s' : rstate) : Prop :=
  calm s s' ∧ ∀ t c, d_temp (r_disk s) t c → d_temp (r_disk s') t c.

Lemma calm_refl s : r_ok s → calm s s.
Proof. by split. Qed.
Lemma calm_trans s1 s2 s3 : calm s1 s2 → calm s2 s3 → calm s1 s3.
Proof. intros (? & V1 & F1) (? & V2 & F2). unfold calm. by rewrite V2, F2. Qed.
Lemma calm_temp_refl s : r_ok s → calm_temp s s.
Proof. by split; [apply calm_refl|]. Qed.
Lemma calm_temp_trans s1 s2 s3 : calm_temp s1 s2 → calm_temp s2 s3 → calm_temp s1 s3.
Proof. intros [? ?] [? ?]. split; [by eapply calm_trans|auto]. Qed.

Lemma on_disk_inv {A} (c : M disk A) s r s' :
  on_disk c s = (r, s') → c (r_disk s) = (r, r_disk s') ∧ r_store s' = r_store s ∧ stopped s' = stopped s ∧
    touchedDirs s' = touchedDirs s.
Proof. unfold on_disk. destruct (c (r_disk s)) as [r1 d] eqn:E. by intros [= <- <-]. Qed.

Lemma on_dest_inv {A} (c : M store A) s r s' :
  on_dest c s = (r, s') → c (r_store s) = (r, r_store s') ∧ r_disk s' = r_disk s ∧ stopped s' = stopped s ∧
    touchedDirs s' = touchedDirs s.
Proof. unfold on_dest. destruct (c (r_store s)) as [r1 d] eqn:E. by intros [= <- <-]. Qed.

(** A call of the file system that is quiet is calm. *)
Lemma on_disk_quiet {A} (c : M disk A) s r s' :
  r_ok s → (∀ d', c (r_disk s) = (r, d') → quiet (r_disk s) d') → on_disk c s = (r, s') → calm_temp s s'.
Proof.
  intros [Hi _] Hq (Hc & Es & _)%on_disk_inv. apply Hq in Hc as (? & ? & ?).
  unfold calm_temp, calm, r_ok. rewrite Es. auto.
Qed.

(** There was something at [out] before, and it has not been changed: a regular
    file, or what [os.Stat] finds to be something else. *)
Definition left_alone (out : string) (f0 f : gmap string bytes) : Prop :=
  f !! out = f0 !! out ∧
  (is_Some (f0 !! out) ∨ ∃ d n d', dinv d ∧ d_files d !! out = f0 !! out ∧ os_Stat out d = (Some (false, n), d')).

Lemma stat_spec p s r s' :
  r_ok s → stat p s = (r, s') →
  calm_temp s s' ∧ ∃ fi, r = Ok fi ∧ (∀ n, fi = Some (true, n) → ∃ b, d_files (r_disk s) !! p = Some b ∧ blen b = n) ∧
    (is_Some fi → left_alone p (d_files (r_disk s)) (d_files (r_disk s))).
Proof.
  intros Hok H. unfold stat in H. apply on_disk_inv in H as (H & Es & _).
  destruct (os_Stat p (r_disk s)) as [fi d] eqn:E. injection H as <- E2. rewrite E2 in E.
  destruct (os_Stat_law _ _ _ _ (proj2 Hok) E) as [(? & ? & ?) Hreg]. destruct Hok as [Hi Hd].
  split; [unfold calm_temp, calm, r_ok; rewrite Es; auto|]. exists fi. split_and!; [done|done|].
  intros [[[] n] ->]; (split; [done|]); [left|right; eauto 6]. destruct (Hreg n eq_refl) as (b & -> & _). eauto.
Qed.

Lemma calculateFileCRC32_spec p d r d' :
  dinv d → calculateFileCRC32 p d = (r, d') →
  quiet d d' ∧ ∀ c, r = Ok c → ∃ b, d_files d !! p = Some b ∧ CRC32.Sum32 b = c.
Proof.
  intros Hd [(rc & d1 & Ho & H)|(r1 & Ho & _ & Hn & _)]%bind_inv; destruct (os_Open_law _ _ _ _ Hd Ho) as [Hq Hb].
  - destruct rc as [b [e|]]; cbn [fst snd] in H; injection H as <- <-; split; try done.
    intros c [= <-]. exists b. split; [by apply Hb|done].
  - split; [done|]. intros c Hc. by apply Hn in Hc.
Qed.

(** A file that is taken for restored has the recorded content, or is there
    and must not be overwritten. *)
Lemma already_there_spec opts record out s r s' :
  r_ok s → already_there opts record out s = (r, s') →
  calm_temp s s' ∧ ∀ b, r = Ok b → b = true →
    NoOverwrite opts = true ∧ left_alone out (d_files (r_disk s)) (d_files (r_disk s)) ∨ ∃ c, d_files (r_disk s) !! out = Some c ∧ matches record c.
Proof.
  intros Hok. unfold already_there. intros [(fi & s1 & Hs & H)|(r1 & Hs & _ & Hn & _)]%bind_inv;
    destruct (stat_spec _ _ _ _ Hok Hs) as (Hq & fi' & Hfi & Hsize & Hthere).
  2:{ split; [done|]. intros b Hb. by apply Hn in Hb. }
  injection Hfi as <-. destruct fi as [[regular size]|]; [|injection H as <- <-; split; [done|by intros b [= <-]]].
  destruct (NoOverwrite opts); [injection H as <- <-; split; [done|intros _ _ _; left; split; [done|by eapply Hthere]]|].
  destruct (regular && (size =? UncompressedSize record)) eqn:E; [|injection H as <- <-; split; [done|by intros b [= <-]]].
  apply andb_true_iff in E as [-> Esize%Z.eqb_eq]. destruct (Hsize _ eq_refl) as (c & Hc & Hlen).
  pose proof Hq as [[[Hi1 Hd1] [_ Hf1]] _]. unfold handle in H.
  destruct (bind (on_disk (calculateFileCRC32 out)) _ s1) as [r1 s2] eqn:E2.
  assert (calm_temp s1 s2 ∧ ∀ b, r1 = Ok b → b = true → CRC32.Sum32 c = Crc32 record) as [Hq2 Hcrc].
  { apply bind_inv in E2 as [(crc & s3 & Hr & [= <- <-])|(r2 & Hr & _ & Hn & _)]; split.
    1, 3: eapply on_disk_quiet; [done| |exact Hr]; intros d' Hd'; by eapply calculateFileCRC32_spec.
    - intros b [= <-] Eb%Z.eqb_eq. apply on_disk_inv in Hr as (Hr & _).
      destruct (calculateFileCRC32_spec _ _ _ _ Hd1 Hr) as [_ Hb]. destruct (Hb _ eq_refl) as (b' & Hb' & <-).
      rewrite Hf1 in Hb'. congruence.
    - intros b Hb. by apply Hn in Hb. }
  assert (calm_temp s s2) as Hq3 by (by eapply calm_temp_trans).
  destruct r1 as [b|e| |]; injection H as <- <-; (split; [done|]); intros b' [= <-] Eb; [|done].
  right. exists c. split; [done|]. split; [congruence|by eapply Hcrc].
Qed.

(** ** Extraction of one file *)

Lemma write_all_spec tmp cs c s r s' :
  r_ok s → d_temp (r_disk s) tmp c → for_each cs (λ b, on_disk (tmp_Write tmp b)) s = (r, s') →
  calm s s' ∧ ∀ u, r = Ok u → d_temp (r_disk s') tmp (c ++ concat cs).
Proof.
  revert c s. induction cs as [|b cs IH]; intros c s Hok Ht; simpl.
  - intros [= <- <-]. split; [by apply calm_refl|]. by rewrite app_nil_r.
  - intros [(u & s1 & Hb & Hr)|(r1 & Hb & _ & Hn & _)]%bind_inv; apply on_disk_inv in Hb as (Hb & Es & _);
      destruct (tmp_Write_law _ _ _ _ _ _ (proj2 Hok) Hb Ht) as (Hd & Hf & Hw);
      assert (calm s _) as Hc by (unfold calm, r_ok; rewrite Es; destruct Hok; split_and!; [done|exact Hd|done|exact Hf]).
    + destruct (IH _ _ (proj1 Hc) (Hw _ eq_refl) Hr) as [? Hres]. split; [by eapply calm_trans|]. intros v Hv.
      rewrite app_assoc. by eapply Hres.
    + split; [done|]. intros v Hv. by apply Hn in Hv.
Qed.

(** [c] is what a complete payload at the head of [src] decodes to. *)
Definition decodes (record : FileRecord) (fh : PartHeader) (password : string) (src : stream) (c : bytes) : Prop :=
  let payload := LimitReader (CompressedSize record) src in
  let d := decode_part fh password payload in
  payload.2 = None ∧ blen payload.1 = CompressedSize record ∧ dec_err d = None ∧ c = dec_out d.

Lemma fill_temp_spec record fh password src tmp s r s' :
  r_ok s → d_temp (r_disk s) tmp [] → fill_temp record fh password src tmp s = (r, s') →
  calm s s' ∧ ∀ u, r = Ok u → ∃ c, matches record c ∧ decodes record fh password src c ∧ d_temp (r_disk s') tmp c.
Proof.
  intros Hok Ht. unfold fill_temp, decodes. set (payload := LimitReader _ src). set (d := decode_part fh password payload).
  intros [(u & s1 & Hw & H)|(r1 & Hw & _ & Hn & _)]%bind_inv; unfold handle in Hw;
    destruct (for_each (chunks (dec_out d)) _ s) as [r2 s2] eqn:E;
    destruct (write_all_spec _ _ _ _ _ _ Hok Ht E) as [Hc Hd]; cbn [app] in Hd; rewrite chunks_concat in Hd.
  2:{ split; [unfold throw in Hw; by destruct r2; simplify_eq|]. intros v Hv. by apply Hn in Hv. }
  unfold throw in Hw; destruct r2 as [[]|e| |]; simplify_eq. specialize (Hd _ eq_refl).
  destruct (dec_err d) as [e|] eqn:Ede; [by injection H as <- <-|]. destruct (payload.2) as [e|] eqn:Epe; [by injection H as <- <-|].
  destruct (Z.eqb_spec (blen payload.1) (CompressedSize record)) as [Elen|]; cbn [negb] in H; [|by injection H as <- <-].
  destruct (negb (blen (dec_out d) =? UncompressedSize record) || negb (CRC32.Sum32 (dec_out d) =? Crc32 record)) eqn:Em;
    [by injection H as <- <-|]. apply orb_false_iff in Em as [E1%negb_false_iff%Z.eqb_eq E2%negb_false_iff%Z.eqb_eq].
  pose proof Hc as [Hok1 _].
  apply bind_inv in H as [(u & s3 & Hch & H)|(r1 & Hch & _ & Hn & _)]; apply wrap_err_inv in Hch as (rc & Hch & _);
    (eapply on_disk_quiet in Hch as [Hc1 Ht1]; [|done|intros; eapply tmp_Chmod_law; [apply Hok1|done]]).
  2:{ split; [by eapply calm_trans|]. intros v Hv. by apply Hn in Hv. }
  apply wrap_err_inv in H as (rs & Hsy & _). eapply on_disk_quiet in Hsy as [Hc2 Ht2]; [|apply Hc1|intros; eapply tmp_Sync_law; [apply Hc1|done]].
  split; [eapply calm_trans; [exact Hc|]; by eapply calm_trans|]. intros _ _. exists (dec_out d). split_and!; auto. by split.
Qed.

Lemma finish_temp_spec tmp out c s r s' :
  r_ok s → d_temp (r_disk s) tmp c → finish_temp tmp out s = (r, s') →
  r_ok s' ∧ view (r_store s') = view (r_store s) ∧
  (d_files (r_disk s') = <[out := c]> (d_files (r_disk s)) ∨ (∀ u, r ≠ Ok u) ∧ d_files (r_disk s') = d_files (r_disk s)).
Proof.
  intros Hok Ht. unfold finish_temp. intros [(u & s1 & Hcl & H)|(r1 & Hcl & _ & Hn & _)]%bind_inv;
    apply wrap_err_inv in Hcl as (rc & Hcl & _); (eapply on_disk_quiet in Hcl as [(Hok1 & Hv1 & Hf1) Ht1]; [|done|intros; eapply tmp_Close_law; [apply Hok|done]]).
  - apply wrap_err_inv in H as (r2 & (Hr & Es & _)%on_disk_inv & Hiff & _).
    destruct (os_Rename_law _ _ _ _ _ _ (proj2 Hok1) Hr (Ht1 _ _ Ht)) as [Hd Hcase].
    split; [split; [rewrite Es; apply Hok1|done]|]. split; [by rewrite Es|]. rewrite <- Hf1.
    destruct Hcase as [?|[Hno ?]]; [by left|right]. split; [|done]. intros v Hv%Hiff. by apply Hno in Hv.
  - split_and!; [done|done|]. right. done.
Qed.

(** The cleanup writes no file and reports the error. *)
Lemma ignore_disk_spec {A} (c : M disk A) s r s' :
  r_ok s → (∀ r1 d1, c (r_disk s) = (r1, d1) → dinv d1 ∧ d_files d1 = d_files (r_disk s)) →
  ignore (on_disk c) s = (r, s') → calm s s'.
Proof.
  intros [Hi Hd] Hq. unfold ignore. destruct (on_disk c s) as [r1 s1] eqn:E. apply on_disk_inv in E as (E & Es & _).
  apply Hq in E as [? ?]. assert (calm s s1) as Hc by (unfold calm, r_ok; rewrite Es; done).
  by destruct r1; intros [= <- <-].
Qed.

Lemma remove_temp_spec tmp {A} e s (r : res A) s' :
  r_ok s → remove_temp tmp e s = (r, s') → calm s s' ∧ ∀ a, r ≠ Ok a.
Proof.
  intros Hok [(u & s1 & H1 & [= <- <-])|(r1 & H1 & _ & Hn & _)]%bind_inv;
    (apply ignore_disk_spec in H1; [|done|by intros ? ? ?%os_Remove_law; [|apply Hok]]); done.
Qed.

Lemma close_and_remove_spec tmp {A} e s (r : res A) s' :
  r_ok s → close_and_remove tmp e s = (r, s') → calm s s' ∧ ∀ a, r ≠ Ok a.
Proof.
  intros Hok [(u & s1 & H1 & H)|(r1 & H1 & _ & Hn & _)]%bind_inv;
    (apply ignore_disk_spec in H1; [|done|intros ? ? (? & ? & _)%tmp_Close_law; [done|apply Hok]]); [|done].
  apply remove_temp_spec in H as [? ?]; [|apply H1]. split; [by eapply calm_trans|done].
Qed.

(** [c] is the verified content of the part of [key] in the store [v]. *)
Definition content_of (v : gmap string bytes) (opts : RestoreOptions) (record : FileRecord) (key : string) (c : bytes) : Prop :=
  matches record c ∧ ∃ password pk b e fh src saw_end,
    decryptPartPassword record (PrivateKey opts) key = Ok password ∧ partKeyFor key = Ok pk ∧
    (relative pk → ∃ whole, v !! pk = Some whole ∧ b `prefix_of` whole) ∧
    ReadLocalFileHeader (b, e) = (Ok fh, src, saw_end) ∧ checkPartHeader fh password pk = Ok tt ∧
    decodes record fh password src c.

(** What extracting [key] to [path] may do to the files. *)
Definition extracted (v : gmap string bytes) (opts : RestoreOptions) (md : BackupMetadata) (path key : string)
    (f f' : gmap string bytes) : Prop :=
  f' = f ∨ ∃ out record c, safeJoin (ExtractDir opts) path = Ok out ∧ Files md !! key = Some record ∧
    content_of v opts record key c ∧ f' = <[out := c]> f.

(** The file of [key] is in place: with the recorded content, or as it was in
    [f0] if it must not be overwritten and was there. *)
Definition in_place (opts : RestoreOptions) (md : BackupMetadata) (path key : string) (f0 f : gmap string bytes) : Prop :=
  ∃ out record, safeJoin (ExtractDir opts) path = Ok out ∧ Files md !! key = Some record ∧
    (NoOverwrite opts = true ∧ left_alone out f0 f ∨ ∃ c, f !! out = Some c ∧ matches record c).

Definition extract_post opts md path key (s : rstate) (r : res unit) (s' : rstate) : Prop :=
  r_ok s' ∧ view (r_store s') = view (r_store s) ∧
  extracted (view (r_store s)) opts md path key (d_files (r_disk s)) (d_files (r_disk s')) ∧
  (∀ u, r = Ok u → in_place opts md path key (d_files (r_disk s)) (d_files (r_disk s'))).

Lemma post_calm opts md path key s s1 r s' :
  calm s s1 → extract_post opts md path key s1 r s' → extract_post opts md path key s r s'.
Proof. intros (_ & V & F). unfold extract_post. by rewrite V, F. Qed.

Lemma post_fail opts md path key s r s' :
  calm s s' → (∀ u, r ≠ Ok u) → extract_post opts md path key s r s'.
Proof. intros (? & V & F) Hno. split_and!; [done|done|by left|]. intros u Hu. by apply Hno in Hu. Qed.

(** The part of the extraction that has a temporary file; [ok] is what is
    known of the part. *)
Lemma temp_phase opts md path key out record fh password src tmp dir s r s' :
  safeJoin (ExtractDir opts) path = Ok out → Files md !! key = Some record →
  (∀ c, matches record c → decodes record fh password src c → content_of (view (r_store s)) opts record key c) →
  r_ok s → d_temp (r_disk s) tmp [] →
  (let* _ := handle (fill_temp record fh password src tmp) (close_and_remove tmp) in
   let* _ := handle (finish_temp tmp out) (remove_temp tmp) in touch_dir dir) s = (r, s') →
  extract_post opts md path key s r s'.
Proof.
  intros Ho Hrec Hpart Hok Ht. intros [(u & s1 & Hf & H)|(r1 & Hf & _ & Hn & _)]%bind_inv; unfold handle in Hf;
    destruct (fill_temp record fh password src tmp s) as [r2 s2] eqn:E;
    destruct (fill_temp_spec _ _ _ _ _ _ _ _ Hok Ht E) as [Hc Hd].
  2:{ apply post_fail; [|done].
      destruct r2; [by simplify_eq| |by simplify_eq..]. apply close_and_remove_spec in Hf as [? _]; [|apply Hc]. by eapply calm_trans. }
  destruct r2 as [[]|e| |]; [|apply close_and_remove_spec in Hf as [_ Hno]; [by destruct (Hno u)|apply Hc]|done..].
  injection Hf as <- <-. destruct (Hd _ eq_refl) as (c & Hm & Hdec & Ht2). specialize (Hpart _ Hm Hdec).
  apply bind_inv in H as [(u1 & s3 & Hf & H)|(r1 & Hf & _ & Hn & _)]; unfold handle in Hf;
    destruct (finish_temp tmp out s2) as [r3 s4] eqn:E3;
    destruct (finish_temp_spec _ _ _ _ _ _ (proj1 Hc) Ht2 E3) as (Hok4 & Hv4 & Hcase).
  - destruct r3 as [[]|e| |]; [|apply remove_temp_spec in Hf as [_ Hno]; [by destruct (Hno u1)|done]|done..].
    injection Hf as <- <-. destruct Hcase as [Hf4|[Hno _]]; [|by destruct (Hno tt)].
    injection H as <- <-. cbn [r_disk r_store]. destruct Hc as (_ & V & F). rewrite F in Hf4. unfold extract_post. cbn.
    rewrite Hf4. split_and!; [exact Hok4|congruence|right; by exists out, record, c|].
    intros _ _. exists out, record. rewrite lookup_insert_eq. split_and!; [done..|]. right. by exists c.
  - assert (r_ok s' ∧ view (r_store s') = view (r_store s4) ∧ d_files (r_disk s') = d_files (r_disk s4)) as (Hok' & V' & F').
    { destruct r3; [by simplify_eq| |by simplify_eq..]. apply remove_temp_spec in Hf as [? _]; done. }
    destruct Hc as (_ & V & F). split_and!; [done|congruence| |intros v Hv; by apply Hn in Hv].
    unfold extracted. rewrite F', <- F. destruct Hcase as [->|[_ ->]]; [right; by exists out, record, c|by left].
Qed.

(** Extraction never leaves a file with other than the recorded content, and
    writes no other file. *)
Lemma extractOne_spec opts md path key s r s' :
  r_ok s → extractOne opts md path key s = (r, s') → extract_post opts md path key s r s'.
Proof.
  intros Hok. unfold extractOne.
  intros [(out & s0 & [= Ho <-] & H)|(r1 & [= _ <-] & _ & Hn & _)]%bind_inv; [|by apply post_fail; [apply calm_refl|]].
  destruct (Files md !! key) as [record|] eqn:Erec; [|injection H as <- <-; by apply post_fail; [apply calm_refl|]].
  apply bind_inv in H as [(skip & s1 & Hs & H)|(r1 & Hs & _ & Hn & _)];
    destruct (already_there_spec _ _ _ _ _ _ Hok Hs) as [[Hc _] Hskip]; [|by apply post_fail].
  eapply post_calm; [exact Hc|]. destruct skip.
  { injection H as <- <-. destruct (Hskip _ eq_refl eq_refl) as [[Hno Hthere]|(c & Hf & Hm)]; destruct Hc as (Hok1 & _ & F).
    - split_and!; [done|done|by left|]. intros _ _. exists out, record. rewrite F. auto.
    - split_and!; [done|done|by left|]. intros _ _. exists out, record. split_and!; [done..|]. right. exists c. by rewrite F. }
  clear Hskip Hs. destruct Hc as (Hok1 & _). clear s Hok. rename s1 into s.
  apply bind_inv in H as [(password & s1 & [= Hpw <-] & H)|(r1 & [= _ <-] & _ & Hn & _)]; [|by apply post_fail; [apply calm_refl|]].
  apply bind_inv in H as [(partKey & s1 & [= Hpk <-] & H)|(r1 & [= _ <-] & _ & Hn & _)]; [|by apply post_fail; [apply calm_refl|]].
  assert (∀ A r1 s1, wrap_err A (on_dest (OpenReader partKey)) s = (r1, s1) → calm s s1 ∧
    (relative partKey → ∀ b e, r1 = Ok (b, e) → ∃ whole, view (r_store s) !! partKey = Some whole ∧ b `prefix_of` whole)) as Hopen.
  { intros A r1 s1 (r2 & (Hr & Ed & _)%on_dest_inv & Hiff & _)%wrap_err_inv. apply OpenReader_law in Hr as (? & ? & Hb); [|apply Hok1].
    unfold calm, r_ok. rewrite Ed. split_and!; try done; [apply Hok1|].
    intros Hrel b e Hr%Hiff. destruct (Hb Hrel _ _ Hr) as (w & ? & ? & _). eauto. }
  apply bind_inv in H as [([b0 e0] & s1 & [Hrc Hb]%Hopen & H)|(r1 & [Hrc _]%Hopen & _ & Hn & _)]; [|by apply post_fail].
  assert (relative partKey → ∃ whole, view (r_store s1) !! partKey = Some whole ∧ b0 `prefix_of` whole) as Hwhole.
  { intros Hrel. destruct Hrc as (_ & -> & _). by eapply Hb. }
  eapply post_calm; [exact Hrc|]. destruct Hrc as (Hok2 & _). clear Hb.
  destruct (ReadLocalFileHeader (b0, e0)) as [[header src] saw_end] eqn:Ehead.
  apply bind_inv in H as [(fh & s2 & [= Hfh <-] & H)|(r1 & [= _ <-] & _ & Hn & _)]; [|by apply post_fail; [apply calm_refl|]].
  apply bind_inv in H as [([] & s2 & [= Hchk <-] & H)|(r1 & [= _ <-] & _ & Hn & _)]; [|by apply post_fail; [apply calm_refl|]].
  assert (∀ c, matches record c → decodes record fh password src c → content_of (view (r_store s1)) opts record key c) as Hcont.
  { intros c Hm Hd. split; [done|]. exists password, partKey, b0, e0, fh, src, saw_end. split_and!; try done.
    - destruct (decryptPartPassword record (PrivateKey opts) key); simplify_eq/=; done.
    - destruct header; simplify_eq/=; done.
    - destruct (checkPartHeader fh password partKey); simplify_eq/=; done. }
  assert (∀ A r1 s2, wrap_err A (on_disk (os_MkdirAll (filepath_Dir out))) s1 = (r1, s2) → calm s1 s2) as Hmk.
  { intros A r1 s2 (r2 & Hm & _)%wrap_err_inv. eapply on_disk_quiet in Hm as [? _]; [done|done|]. intros d'.
    apply os_MkdirAll_law, Hok2. }
  apply bind_inv in H as [(u2 & s2 & Hm%Hmk & H)|(r1 & Hm%Hmk & _ & Hn & _)]; [|by apply post_fail].
  eapply post_calm; [exact Hm|]. destruct Hm as (Hok3 & Hv3 & _). rewrite <- Hv3 in Hcont.
  assert (∀ A r1 s3, wrap_err A (on_disk (os_CreateTemp (filepath_Dir out))) s2 = (r1, s3) →
    calm s2 s3 ∧ ∀ t, r1 = Ok t → d_temp (r_disk s3) t []) as Htmp.
  { intros A r1 s3 (r2 & (Hm & Es & _)%on_disk_inv & Hiff & _)%wrap_err_inv.
    destruct (os_CreateTemp_law _ _ _ _ (proj2 Hok3) Hm) as [(? & ? & ?) Ht]. split; [|intros t Hr%Hiff; by apply Ht].
    unfold calm, r_ok. rewrite Es. split_and!; try done. apply Hok3. }
  apply bind_inv in H as [(tmp & s3 & [Hc Ht]%Htmp & H)|(r1 & [Hc _]%Htmp & _ & Hn & _)]; [|by apply post_fail].
  eapply post_calm; [exact Hc|]. destruct Hc as (Hok4 & Hv4 & _). rewrite <- Hv4 in Hcont.
  eapply temp_phase; [done|done|exact Hcont|done|by apply Ht|exact H].
Qed.

End Spec.
