(* ===== verification/RestoreRun.v ===== *)
(** What a whole restore does: the files of every selected path, and the
    entries of a zip archive. *)

From S2P Require Import Prelude Errors GoStrings Keys Digest Metadata TreeWalk TreeResolve Store Client Crypto Upload Paths DiskSpace Restore RestoreSpec.
#[local] Open Scope Z_scope.

(** ** The paths of a version *)

(** A path that can be joined to a directory. *)
Definition good_path (p : string) : Prop := Forall valid_name (Split p slash).

Section Paths.
Context {PR : Proto}.

Lemma good_path_join ps : ps ≠ [] → Forall valid_name ps → good_path (join_slash ps).
Proof.
  intros Hne Hps. unfold good_path. rewrite Split_join; [done..|]. eapply Forall_impl; [exact Hps|].
  intros p (_ & _ & Hs & _). by apply has_char_false.
Qed.

(** The listing of a tree holds good paths only, whatever it skips. *)
Definition good_acc (acc : walk_acc) : Prop := map_Forall (λ p _, good_path p) acc.1.

Lemma walk_entries_good rec skip ps es acc r :
  (∀ h qs acc r, Forall valid_name qs → good_acc acc → rec h (join_slash qs) acc = Ok r → good_acc r) →
  Forall valid_name ps → good_acc acc → walk_entries rec skip (join_slash ps) es acc = Ok r → good_acc r.
Proof.
  intros Hrec Hps. revert acc. induction es as [|e es IH]; intros acc Hacc; cbn [walk_entries]; [by intros [= <-]|].
  destruct (validateName (Name e)) eqn:Hv; [destruct skip; [by apply IH|done]|]. apply validateName_valid in Hv.
  assert (Forall valid_name (ps ++ [Name e])) as Hqs by (apply Forall_app; split; [done|by constructor]).
  rewrite full_path_join by done. destruct (Node e) as [[f|]|h|]; unfold corrupt; try (destruct skip; [by apply IH|done]).
  - apply IH. apply map_Forall_insert_2; [|done]. apply good_path_join; [by destruct ps|done].
  - case_bool_decide; [destruct skip; [by apply IH|done]|]. intros (a & Ha & Hr)%obind_Ok. eapply IH, Hr. by eapply Hrec.
Qed.

Lemma walkTree_good n trees skip h ps acc r :
  Forall valid_name ps → good_acc acc → walkTree n trees skip h (join_slash ps) acc = Ok r → good_acc r.
Proof.
  revert h ps acc r. induction n as [|n IH]; intros h ps acc r Hps Hacc; cbn [walkTree]; [done|]. unfold corrupt.
  destruct (trees !! h) as [node|]; [|destruct skip; [by intros [= <-]|done]].
  destruct (tree_hash node); [|destruct skip; [by intros [= <-]|done]].
  case_bool_decide; cbn [negb]; [|destruct skip; [by intros [= <-]|done]].
  destruct (negb skip && _); [done|]. destruct (Entries node) as [|t l].
  - case_bool_decide; by intros [= <-].
  - apply walk_entries_good; [|done..]. intros ? ? ? ?. apply IH.
Qed.

Lemma ResolveVersionTree_good md v skip r : ResolveVersionTree md v skip = Ok r → good_acc r.
Proof.
  unfold ResolveVersionTree. destruct (_ !! _); [|done].
  apply (walkTree_good _ _ _ _ []); [constructor|]. apply map_Forall_empty.
Qed.

End Paths.

(** ** The workers of a restore to a directory *)

Section Dir.
Context {ST : Storage} {SL : StorageLaws} {RD : PartReader} {RL : PartReaderLaws} {DK : Disk} {DL : DiskLaws}.
Context {CK : Chunking} {ZR : ZipReading} {BX : Box} {MR : MapRange}.
Implicit Types (v f : gmap string bytes) (ts : list (string * string)).

(** Between two states of the files, only verified content appeared, at the
    output paths of [ts]. *)
Definition restored v (opts : RestoreOptions) (md : BackupMetadata) ts f f' : Prop :=
  ∀ p, f' !! p = f !! p ∨ ∃ path key record c, (path, key) ∈ ts ∧ safeJoin (ExtractDir opts) path = Ok p ∧
    Files md !! key = Some record ∧ content_of v opts record key c ∧ f' !! p = Some c.

Lemma restored_refl v opts md ts f f' : f' = f → restored v opts md ts f f'.
Proof. intros -> p. by left. Qed.

Lemma restored_trans v opts md ts f1 f2 f3 :
  restored v opts md ts f1 f2 → restored v opts md ts f2 f3 → restored v opts md ts f1 f3.
Proof. intros H1 H2 p. destruct (H2 p) as [->|?]; [apply H1|by right]. Qed.

Lemma restored_mono v opts md ts us f f' : ts ⊆ us → restored v opts md ts f f' → restored v opts md us f f'.
Proof. intros Hsub H p. destruct (H p) as [?|(path & key & rec & c & ? & ?)]; [by left|right]. exists path, key, rec, c. auto. Qed.

Lemma extracted_restored v opts md path key f f' :
  extracted v opts md path key f f' → restored v opts md [(path, key)] f f'.
Proof.
  intros [->|(out & rec & c & Ho & Hr & Hm & ->)] p; [by left|].
  destruct (decide (out = p)) as [->|]; [right|left; by rewrite lookup_insert_ne].
  exists path, key, rec, c. rewrite lookup_insert_eq. split_and!; [by apply list_elem_of_singleton|done..].
Qed.

(** The output of [path] is as it was in [f0]. *)
Definition untouched (opts : RestoreOptions) (path : string) f0 f : Prop :=
  ∀ out, safeJoin (ExtractDir opts) path = Ok out → f !! out = f0 !! out.

(** The file of one path does not disturb that of another. *)
Lemma extracted_other v opts md path q k f f' :
  ExtractDir opts ≠ "" → good_path path → good_path q → path ≠ q →
  extracted v opts md q k f f' → untouched opts path f f'.
Proof.
  intros Hb Hp Hq Hne [->|(out' & rec' & c' & Ho' & _ & _ & ->)] out Ho; [done|].
  rewrite lookup_insert_ne; [done|]. intros ->. apply Hne. by eapply safeJoin_inj.
Qed.

(** Being in place depends on the output only, before and after. *)
Lemma in_place_untouched opts md path key f0 f1 f f' :
  untouched opts path f0 f1 → untouched opts path f f' → in_place opts md path key f1 f → in_place opts md path key f0 f'.
Proof.
  intros H0 H1 (out & rec & Ho & Hr & Hc). exists out, rec. unfold left_alone in *. by rewrite <- (H0 _ Ho), (H1 _ Ho).
Qed.

(** Nothing was written to the storage. *)
Definition same_store (s s' : rstate) : Prop := r_ok s' ∧ view (r_store s') = view (r_store s).
Lemma same_store_trans s1 s2 s3 : same_store s1 s2 → same_store s2 s3 → same_store s1 s3.
Proof. intros [? V1] [? V2]. unfold same_store. by rewrite V2. Qed.

Fixpoint dones (rs : list restoreResult) : nat :=
  match rs with
  | [] => 0
  | RDone :: rs => S (dones rs)
  | _ :: rs => dones rs
  end.

Lemma drain_count rs : (drain rs).1 = dones rs.
Proof.
  unfold drain. set (step := λ (acc : nat * option error) (r : restoreResult), _).
  assert (∀ acc, (fold_left step rs acc).1 = (acc.1 + dones rs)%nat) as ->; [|done].
  induction rs as [|r rs IH]; intros acc; cbn [fold_left dones]; [lia|]. rewrite IH. destruct r; cbn [step fst]; lia.
Qed.

Lemma dones_le rs : (dones rs ≤ length rs)%nat.
Proof. induction rs as [|[] rs IH]; simpl; lia. Qed.

(** Every result counts when they are all done. *)
Lemma drain_all rs : (drain rs).1 = length rs → ∀ r, r ∈ rs → r = RDone.
Proof.
  rewrite drain_count. induction rs as [|r rs IH]; simpl; intros Hn r' Hr; [by apply elem_of_nil in Hr|].
  pose proof (dones_le rs). destruct r; [|lia..]. apply elem_of_cons in Hr as [->|Hr]; [done|]. apply IH; [lia|done].
Qed.

End Dir.

Section DirRun.
Context {ST : Storage} {SL : StorageLaws} {RD : PartReader} {RL : PartReaderLaws} {DK : Disk} {DL : DiskLaws}.
Context {CK : Chunking} {ZR : ZipReading} {BX : Box} {MR : MapRange}.

Lemma calm_same_store s s' : calm s s' → same_store s s' ∧ d_files (r_disk s') = d_files (r_disk s).
Proof. by intros (? & ? & ?). Qed.

Lemma handle_inv {A} (c : M rstate A) h s r s' :
  handle c h s = (r, s') → (c s = (r, s') ∧ ∀ e, r ≠ Err e) ∨ ∃ e s1, c s = (Err e, s1) ∧ h e s1 = (r, s').
Proof. unfold handle. destruct (c s) as [[a|e| |] s1]; intros; simplify_eq; eauto. Qed.

(** A quiet call of the file system, whatever is made of its result. *)
Lemma on_disk_calm {A} (c : M disk A) s r s' :
  r_ok s → (∀ d r d', dinv d → c d = (r, d') → quiet d d') → on_disk c s = (r, s') → calm s s'.
Proof. intros Hok Hc H. eapply on_disk_quiet in H as [? _]; [done..|]. intros. by eapply Hc; [apply Hok|]. Qed.

(** Looking for an existing ancestor ends: at an existing path, or at the
    root of the path. *)
Lemma existing_ancestor_clean n c s :
  canonical c → (length c.2 < n)%nat → ∃ p s', existing_ancestor n (render c) s = (Ok p, s').
Proof.
  revert c s. induction n as [|n IH]; intros [r ps] s Hc Hn; [lia|]. cbn [existing_ancestor snd] in *.
  unfold bind, stat, on_disk. destruct (os_Stat _ _) as [[fi|] d]; [by eexists _, _|].
  case_bool_decide as Hfix; [by eexists _, _|]. rewrite filepath_Dir_render in * by done.
  apply IH; [by apply removelast_canonical|]. cbn [snd].
  destruct ps as [|p ps _] using rev_ind; [done|]. rewrite removelast_last. rewrite length_app in Hn. simpl in Hn. lia.
Qed.

Lemma getExistingAncestor_returns path s : ∃ p s', getExistingAncestor path s = (Ok p, s').
Proof.
  unfold getExistingAncestor. set (n := (1 + length (Split path slash))%nat).
  change (2 + length (Split path slash))%nat with (S n). cbn [existing_ancestor]. unfold bind at 1, stat, on_disk.
  destruct (os_Stat _ _) as [[fi|] d]; [by eexists _, _|]. case_bool_decide; [by eexists _, _|].
  destruct (filepath_Dir_clean path) as (c & Hc & -> & Hn). apply existing_ancestor_clean; [done|unfold n; lia].
Qed.

Lemma existing_ancestor_spec n path s r s' :
  r_ok s → existing_ancestor n path s = (r, s') → calm s s'.
Proof.
  revert path s. induction n as [|n IH]; intros path s Hok; cbn [existing_ancestor]; [intros [= _ <-]; by apply calm_refl|].
  intros [(fi & s1 & Hs & H)|(r1 & Hs & _)]%bind_inv; destruct (stat_spec _ _ _ _ Hok Hs) as [[Hc _] _]; [|done].
  destruct fi; [by injection H as _ <-|]. case_bool_decide; [by injection H as _ <-|].
  eapply calm_trans; [exact Hc|]. eapply IH; [apply Hc|done].
Qed.

Lemma check_space_spec opts md keys s r s' :
  r_ok s → check_space opts md keys s = (r, s') → calm s s'.
Proof.
  intros Hok. unfold check_space.
  assert (∀ a s r s', r_ok s → (let* n := on_disk (osGetFreeSpace a) in ret (Some n)) s = (r, s') → calm s s') as Hfree.
  { clear. intros a s r s' Hok [(n & s1 & H1 & [= _ <-])|(r1 & H1 & _)]%bind_inv;
      (apply on_disk_calm in H1; [done..|by intros ? ? ? ? ?%osGetFreeSpace_law]). }
  intros [(a & s0 & Ha & H)|(r1 & Ha & _)]%bind_inv; apply existing_ancestor_spec in Ha as Hc; [|done|done|done].
  eapply calm_trans; [exact Hc|]. pose proof (proj1 Hc) as Hok0. clear Hc Ha.
  apply bind_inv in H as [(b & s1 & H1 & H)|(r1 & H1 & _)].
  - assert (s1 = s') as -> by (destruct b as [z|]; [destruct (z <? _)|]; by injection H).
    apply handle_inv in H1 as [[H1 _]|(e & s2 & H1 & [= _ <-])]; by eapply Hfree in H1.
  - apply handle_inv in H1 as [[H1 _]|(e & s2 & H1 & [= _ <-])]; by eapply Hfree in H1.
Qed.

Lemma make_dir_spec opts d s r s' : r_ok s → make_dir opts d s = (r, s') → calm s s'.
Proof.
  intros Hok. unfold make_dir.
  assert (∀ r s', (let* p := lift (safeJoin (ExtractDir opts) d) in on_disk (os_MkdirAll p)) s = (r, s') → calm s s') as Hm.
  { intros r1 s1 [(p & s2 & [= _ <-] & H)|(r2 & [= _ <-] & _)]%bind_inv; [|by apply calm_refl].
    eapply on_disk_calm in H; [done..|]. intros. by eapply os_MkdirAll_law. }
  intros [[H _]|(e & s1 & H & H2)]%handle_inv; [by apply Hm in H|]. apply Hm in H.
  destruct (SkipValidationErrors opts); by injection H2 as _ <-.
Qed.

Lemma for_each_calm {A} (l : list A) (g : A → M rstate unit) s r s' :
  (∀ a s r s', r_ok s → g a s = (r, s') → calm s s') → r_ok s → for_each l g s = (r, s') → calm s s'.
Proof.
  intros Hg Hok. apply (for_each_inv (calm s)); [|by apply calm_refl].
  intros a s1 r1 s2 _ Hc H. eapply calm_trans; [done|]. eapply Hg; [apply Hc|done].
Qed.

(** What follows the workers' results. *)
Lemma conclude_spec opts rs n ds s r s' :
  r_ok s →
  conclude opts n rs ds s = (r, s') →
  calm s s' ∧ ∀ u : unit, r = Ok u → (drain rs).1 = n.
Proof.
  intros Hok. unfold conclude. destruct (drain rs) as [k firstErr]. unfold bind at 1, get at 1. cbn [fst].
  pose proof (calm_refl s Hok) as Hc.
  destruct (os_ctx_Err (r_disk s)); [by intros [= <- <-]|]. destruct firstErr; [by intros [= <- <-]|].
  destruct (Nat.eqb_spec k n) as [->|]; cbn [negb]; [|by intros [= <- <-]]. intros H. split; [|done].
  apply bind_inv in H as [([] & s1 & H1 & H)|(r1 & H1 & _)];
    (apply for_each_calm in H1; [|intros; by eapply make_dir_spec|done]); [|done].
  unfold bind, get in H. apply for_each_calm in H; [by eapply calm_trans| |apply H1].
  intros d s2 r2 s3 Hok2 (r3 & H3 & _)%wrap_err_inv. eapply on_disk_calm in H3; [done..|]. intros. by eapply syncDir_law.
Qed.

End DirRun.

(** ** Restoring to a zip archive *)

(** [z_names] are the entries that have been completed, [z_final] tells
    whether the archive has its central directory. *)
Class ZipWritingLaws {ZW : ZipWriting} := {
  z_names : zipw → list string;
  z_final : zipw → bool;
  CopyRawPart_law name old new part z r n saw_end out_err z' :
    CopyRawPart name old new part z = (r, n, saw_end, out_err, z') →
    z_final z' = z_final z ∧ ∀ u, r = Ok u → z_names z' = z_names z ++ [name];
  zipw_Create_law name z r z' : zipw_Create name z = (r, z') →
    z_final z' = z_final z ∧ ∀ u, r = Ok u → z_names z' = z_names z ++ [name];
  zipw_Close_law z r z' : zipw_Close z = (r, z') → ∀ u, r = Ok u → z_names z' = z_names z ∧ z_final z' = true;
}.

Section ZipSpec.
Context {ST : Storage} {SL : StorageLaws} {RD : PartReader} {RL : PartReaderLaws} {DK : Disk} {DL : DiskLaws}.
Context {ZR : ZipReading} {ZW : ZipWriting} {ZL : ZipWritingLaws} {BX : Box} {MR : MapRange}.

(** What the storage has delivered of the part [pk]. *)
Definition delivered (v : gmap string bytes) (pk : string) (rc : stream) : Prop :=
  relative pk → ∃ whole, v !! pk = Some whole ∧ rc.1 `prefix_of` whole.

(** Why the part of [key] cannot be restored: its password cannot be had, the
    storage gives an error of that kind, or what it delivers has a header or an
    encryption header that is broken or cannot be handled. *)
Inductive bad_part (v : gmap string bytes) (opts : RestoreOptions) (record : FileRecord) (key : string) : Prop :=
| bad_password e : decryptPartPassword record (PrivateKey opts) key = Err e → bad_part v opts record key
| bad_storage pk s e s' : partKeyFor key = Ok pk → OpenReader pk s = (Err e, s') → isSkippableRestoreError e = true →
    bad_part v opts record key
| bad_header pk rc e src saw_end : partKeyFor key = Ok pk → delivered v pk rc →
    ReadLocalFileHeader rc = (Err e, src, saw_end) →
    isSkippableRestoreError (classifyPartError e (if saw_end then rc.2 else None) None) = true → bad_part v opts record key
| bad_check password pk rc fh src saw_end e : decryptPartPassword record (PrivateKey opts) key = Ok password →
    partKeyFor key = Ok pk → delivered v pk rc → ReadLocalFileHeader rc = (Ok fh, src, saw_end) →
    checkPartHeader fh password pk = Err e → bad_part v opts record key
| bad_encryption password pk rc fh src saw_end e : decryptPartPassword record (PrivateKey opts) key = Ok password →
    partKeyFor key = Ok pk → delivered v pk rc → ReadLocalFileHeader rc = (Ok fh, src, saw_end) →
    Z.land (ph_Flags fh) 1 ≠ 0 →
    (ReadFull 12 src = Err e ∧ isSkippableRestoreError (classifyPartError e src.2 None) = true ∨
     ∃ encHeader, ReadFull 12 src = Ok encHeader ∧ dec_err (ZipCryptoDecrypt fh password (encHeader, None)) = Some e) →
    bad_part v opts record key.

Lemma skippable_wrap m e : isSkippableRestoreError (Errorf m [e]) = isSkippableRestoreError e.
Proof. unfold isSkippableRestoreError. cbn. by rewrite !orb_false_r. Qed.

(** Preparing a part only reads, and what fails in a way that can be skipped is
    a part that cannot be restored. *)
Lemma prepare_spec opts md path key s r s' :
  r_ok s → prepare opts md path key s = (r, s') →
  calm s s' ∧ ∀ e, r = Err e → isSkippableRestoreError e = true →
    ∃ record, Files md !! key = Some record ∧ bad_part (view (r_store s)) opts record key.
Proof.
  intros Hok. unfold prepare. pose proof (calm_refl s Hok) as Hc0.
  destruct (Files md !! key) as [rec|]; [|intros [= <- <-]; split; [done|by intros e [= <-]]].
  intros H. enough (calm s s' ∧ ∀ e, r = Err e → isSkippableRestoreError e = true → bad_part (view (r_store s)) opts rec key) as [? He]
    by (split; [done|]; intros e E1 E2; exists rec; split; [done|by eapply He]).
  unfold bind at 1, lift at 1 in H. destruct (decryptPartPassword rec (PrivateKey opts) key) as [pw|e0| |] eqn:Epw; cbn [wrap_path] in H;
    [|injection H as <- <-; split; [done|]; intros e _ _; by eapply bad_password|by injection H as <- <-..].
  unfold bind at 1, lift at 1 in H. destruct (partKeyFor key) as [pk|e0| |] eqn:Epk; [|unfold partKeyFor in Epk; by case_match|by injection H as <- <-..].
  unfold bind at 1, wrap_err in H. destruct (on_dest (OpenReader pk) s) as [r1 s1] eqn:E1.
  apply on_dest_inv in E1 as (Hr & Ed & _). destruct (OpenReader_law _ _ _ _ (proj1 Hok) Hr) as (Hi & Hv & Hb).
  assert (calm s s1) as Hc by (unfold calm, r_ok; rewrite Ed; split_and!; [exact Hi|apply Hok|exact Hv|done]). clear Hc0.
  destruct r1 as [rc|e0| |]; [|injection H as <- <-; split; [done|]; intros e [= <-]; rewrite skippable_wrap; by eapply bad_storage|by injection H as <- <-..].
  assert (delivered (view (r_store s)) pk rc) as Hdel.
  { intros Hrel. destruct rc as [b e]. destruct (Hb Hrel _ _ eq_refl) as (w & ? & ? & _). eauto. }
  destruct (ReadLocalFileHeader rc) as [[header src] saw_end] eqn:Eh. unfold bind at 1, lift at 1 in H.
  destruct header as [fh|e0| |]; [|injection H as <- <-; split; [done|]; intros e [= <-]; rewrite skippable_wrap; by eapply bad_header|by injection H as <- <-..].
  unfold bind at 1, lift at 1 in H. destruct (checkPartHeader fh pw pk) as [u|e0| |] eqn:Ech; cbn [wrap_path] in H;
    [|injection H as <- <-; split; [done|]; intros e _ _; by eapply bad_check|by injection H as <- <-..].
  unfold bind at 1, lift at 1 in H. destruct (Z.eqb_spec (Z.land (ph_Flags fh) 1) 0) as [Efl|Efl]; [by injection H as <- <-|].
  destruct (ReadFull 12 src) as [encHeader|e0| |] eqn:Erf; [|injection H as <- <-; split; [done|]; intros e [= <-]; rewrite skippable_wrap|by injection H as <- <-..].
  - destruct (dec_err _) as [e0|] eqn:Ed2; [|by injection H as <- <-]. injection H as <- <-. split; [done|]. intros e _ _.
    eapply bad_encryption; eauto.
  - intros Hs. eapply bad_encryption; eauto.
Qed.

(** The archive goes from [z] to [z'] by completing the entries [l]. *)
Definition added (l : list string) (z z' : zipw) : Prop := z_names z' = z_names z ++ l ∧ z_final z' = z_final z.

Lemma copyOne_spec opts md path key s z r s' z' :
  r_ok s → copyOne opts md path key (s, z) = (r, (s', z')) →
  calm s s' ∧ z_final z' = z_final z ∧
  ∀ started e, r = Ok (started, e) →
    (started = false → z' = z ∧ ∀ e0, e = Some e0 → isSkippableRestoreError e0 = true →
       ∃ record, Files md !! key = Some record ∧ bad_part (view (r_store s)) opts record key) ∧
    (e = None → added [path] z z').
Proof.
  intros Hok. unfold copyOne, on_r. cbn [fst snd]. destruct (prepare opts md path key s) as [r1 s1] eqn:E1.
  apply prepare_spec in E1 as [E1 Hbad]; [|done]. destruct r1 as [p|e| |].
  2:{ intros [= <- <- <-]. split_and!; [done|done|]. intros st e' [= <- <-]. split; [|done]. intros _. split; [done|].
      intros e0 [= <-]. by apply Hbad. }
  2, 3: intros [= <- <- <-]; by split_and!.
  unfold bind, attempt, on_zip, ret. cbn [fst snd].
  destruct (copy_prepared opts path p z) as [r2 z2] eqn:E2.
  assert (z_final z2 = z_final z ∧ ∀ u, r2 = Ok u → z_names z2 = z_names z ++ [path]) as [Hf Hn].
  { unfold copy_prepared in E2. destruct (CopyRawPart _ _ _ _ z) as [[[[r3 n] se] oe] z3] eqn:E3.
    destruct (CopyRawPart_law _ _ _ _ _ _ _ _ _ _ E3) as [Hf Hn]. revert E2.
    destruct r3 as [u|e| |]; [case_match|..]; intros [= <- <-]; (split; [done|]); intros v Hv; try done. by eapply Hn. }
  destruct r2 as [u|e| |]; intros [= <- <- <-]; (split_and!; [done|done|]); intros st e' [= <- <-]; (split; [done|]); try done.
  intros _. split; [by eapply Hn|done].
Qed.

(** A selected file that the archive lacks: failures may be skipped, and its
    part cannot be restored. *)
Definition left_out (v : gmap string bytes) (opts : RestoreOptions) (md : BackupMetadata) (key : string) : Prop :=
  SkipDecryptionErrors opts = true ∧ ∃ record, Files md !! key = Some record ∧ bad_part v opts record key.

(** Copying the parts never finishes the archive; when it succeeds, the
    entries are those of the tasks but for those left out. *)
Lemma copy_all_spec opts md ts s z r s' z' :
  r_ok s → copy_all opts md ts (s, z) = (r, (s', z')) →
  calm s s' ∧ z_final z' = z_final z ∧
  ∀ u, r = Ok u → ∃ l, l `sublist_of` ts.*1 ∧ added l z z' ∧ (SkipDecryptionErrors opts = false → l = ts.*1) ∧
    ∀ t, t ∈ ts → t.1 ∈ l ∨ left_out (view (r_store s)) opts md t.2.
Proof.
  revert s z. induction ts as [|t ts IH]; intros s z Hok; cbn [copy_all].
  { intros [= <- <- <-]. split_and!; [by apply calm_refl|done|]. intros _ _. exists [].
    split_and!; [done|by split; [rewrite app_nil_r|]|done|by intros t ?%elem_of_nil]. }
  unfold bind at 1, z_ctx_Err at 1. cbn [fst snd].
  destruct (os_ctx_Err (r_disk s)); [intros [= <- <- <-]; by split_and!; [apply calm_refl|..]|].
  intros [([started e] & [s1 z1] & H1 & H)|(r1 & H1 & _ & Hn & _)]%bind_inv;
    destruct (copyOne_spec _ _ _ _ _ _ _ _ _ Hok H1) as (Hc & Hf & Hcase).
  2:{ split_and!; [done..|]. intros u Hu. by apply Hn in Hu. }
  destruct (Hcase _ _ eq_refl) as [Hskip Hadd].
  assert (copy_all opts md ts (s1, z1) = (r, (s', z')) →
    (e = None ∨ z1 = z ∧ left_out (view (r_store s)) opts md t.2) →
    calm s s' ∧ z_final z' = z_final z ∧ ∀ u, r = Ok u → ∃ l, l `sublist_of` (t :: ts).*1 ∧ added l z z' ∧
      (SkipDecryptionErrors opts = false → l = (t :: ts).*1) ∧
      ∀ x, x ∈ t :: ts → x.1 ∈ l ∨ left_out (view (r_store s)) opts md x.2) as Hgo.
  { intros (Hc2 & Hf2 & Hok2)%IH Hwhy; [|apply Hc]. split_and!; [by eapply calm_trans|congruence|]. intros u Hu.
    destruct (Hok2 _ Hu) as (l & Hl & [Hnames Hfin] & Hall & Hout). rewrite (proj1 (proj2 Hc)) in Hout. destruct Hwhy as [He|[-> Hsk]].
    - destruct (Hadd He) as [Hn1 _]. exists (t.1 :: l). csimpl. split_and!; [by constructor| |intros; by rewrite Hall|].
      + split; [|congruence]. rewrite Hnames, Hn1, <- app_assoc. done.
      + intros x [->|Hx]%elem_of_cons; [by left; left|]. destruct (Hout _ Hx); [by left; right|by right].
    - exists l. csimpl. split_and!; [by constructor|by split|by rewrite (proj1 Hsk)|].
      intros x [->|Hx]%elem_of_cons; [by right|by apply Hout]. }
  destruct e as [e|]; [|by apply Hgo; [|left]].
  destruct (negb started && SkipDecryptionErrors opts && isSkippableRestoreError e) eqn:E.
  { apply andb_true_iff in E as [[Es%negb_true_iff Esk]%andb_true_iff Ek]. apply Hgo; [done|]. right.
    destruct (Hskip Es) as [? Hbad]. split; [done|]. split; [done|]. by eapply Hbad. }
  unfold bind, z_ctx_Err in H. cbn [fst snd] in H. clear Hgo.
  destruct (os_ctx_Err (r_disk s1)); injection H as <- <- <-; by split_and!.
Qed.

Lemma on_zip_inv {A} (c : M zipw A) s z r s' z' : on_zip c (s, z) = (r, (s', z')) → s' = s ∧ c z = (r, z').
Proof. unfold on_zip. cbn [fst snd]. destruct (c z) as [r1 z1]. by intros [= <- <- <-]. Qed.

Lemma create_dirs_spec ds s z r s' z' :
  for_each ds create_dir (s, z) = (r, (s', z')) →
  s' = s ∧ z_final z' = z_final z ∧
  ∀ u, r = Ok u → added ((λ d, if HasSuffix d "/" then d else d +:+ "/") <$> ds) z z'.
Proof.
  revert z. induction ds as [|d ds IH]; intros z; cbn [for_each].
  { intros [= <- <- <-]. split_and!; [done..|]. intros _ _. by split; [rewrite app_nil_r|]. }
  intros [(u & [s1 z1] & (r1 & [-> H1]%on_zip_inv & Hr1 & _)%wrap_err_inv & H)|(r0 & (r1 & [-> H1]%on_zip_inv & Hr1 & _)%wrap_err_inv & _ & Hn & _)]%bind_inv;
    destruct (zipw_Create_law _ _ _ _ H1) as [Hf Hn1].
  - destruct (IH _ H) as (-> & Hf2 & Hall). split_and!; [done|congruence|]. intros v Hv. destruct (Hall _ Hv) as [Hn2 _].
    split; [|congruence]. csimpl. rewrite Hn2, (Hn1 u), <- app_assoc by (by apply Hr1). done.
  - split_and!; [done|done|]. intros v Hv. by apply Hn in Hv.
Qed.

(** The archive after a restore that has finished. *)
Definition archived (v : gmap string bytes) (opts : RestoreOptions) (md : BackupMetadata) (m : gmap string string)
    (ds : list string) (z z' : zipw) : Prop :=
  z_final z' = true ∧ ∃ l, l `sublist_of` (range m).*1 ∧ (SkipDecryptionErrors opts = false → l = (range m).*1) ∧
    (∀ t, t ∈ range m → t.1 ∈ l ∨ left_out v opts md t.2) ∧
    z_names z' = z_names z ++ l ++ ((λ d, if HasSuffix d "/" then d else d +:+ "/") <$> ds).

Lemma restoreToZip_spec opts md m ds s z r s' z' :
  r_ok s → restoreToZip opts md m ds (s, z) = (r, (s', z')) →
  calm s s' ∧ (∀ u, r = Ok u → archived (view (r_store s)) opts md m ds z z') ∧
  (z_final z' = z_final z ∨ ∃ r1 z1, zipw_Close z1 = (r1, z') ∧ (∀ u, r = Ok u ↔ r1 = Ok u)).
Proof.
  intros Hok. unfold restoreToZip.
  intros [([] & [s1 z1] & H1 & H)|(r1 & H1 & _ & Hn & _)]%bind_inv;
    destruct (copy_all_spec _ _ _ _ _ _ _ _ Hok H1) as (Hc & Hf & Hl).
  2:{ split_and!; [done| |by left]. intros u Hu. by apply Hn in Hu. }
  destruct (Hl _ eq_refl) as (l & Hsub & [Hnames _] & Hall & Hout). clear Hl. unfold bind at 1, z_ctx_Err in H. cbn [fst snd] in H.
  destruct (os_ctx_Err (r_disk s1)); [injection H as <- <- <-; split_and!; [done|done|by left]|].
  apply bind_inv in H as [([] & [s2 z2] & H2 & H)|(r1 & H2 & _ & Hn & _)];
    destruct (create_dirs_spec _ _ _ _ _ _ H2) as (-> & Hf2 & Hd).
  2:{ split_and!; [done| |left; congruence]. intros u Hu. by apply Hn in Hu. }
  apply wrap_err_inv in H as (r1 & [-> Hclose]%on_zip_inv & Hr & _). split_and!; [done| |right; eauto].
  intros u Hu%Hr. destruct (zipw_Close_law _ _ _ Hclose _ Hu) as [Hn3 Hf3]. destruct (Hd _ eq_refl) as [Hn2 _].
  split; [done|]. exists l. split_and!; [done..|]. rewrite Hn3, Hn2, Hnames. by rewrite <- app_assoc.
Qed.

End ZipSpec.
