(* ===== verification/RestoreExample.v ===== *)
(** A restore that evaluates: a disk with faults, the reader of the zip
    format of [ToyZip], a zip archive, and a restore of what the run of
    [BackupExample] stored. *)

From Stdlib Require Import Strings.Byte.
From S2P Require Import Prelude Errors GoStrings Keys Digest Metadata ProtoExample TreeWalk TreeResolve Store Client Crypto Upload UploadExample Backup BackupExample Paths DiskSpace Restore RestoreSpec RestoreRun.
#[local] Open Scope Z_scope.

(** A disk whose calls fail as its schedule says, before they take effect. *)
Module ToyDisk.

Record state := { files : gmap string bytes; temps : list bytes; faults : list bool }.
Definition set_temps (l : list bytes) (d : state) : state := {| files := files d; temps := l; faults := faults d |}.

Definition failure : error := ELeaf "disk" false.
Definition call {A} (g : state → res A * state) (d : state) : res A * state :=
  let d1 := {| files := files d; temps := temps d; faults := tail (faults d) |} in
  match head (faults d) with
  | Some true => (Err failure, d1)
  | _ => g d1
  end.

Definition disk : Disk := {|
  Restore.disk := state;
  tmpfile := nat;
  os_ctx_Err _ := None;
  os_Stat p d := ((λ b, (true, blen b)) <$> files d !! p, d);
  os_Open p := call (λ d, (match files d !! p with Some b => Ok (b, None) | None => Err failure end, d));
  os_MkdirAll _ := call (λ d, (Ok tt, d));
  os_CreateTemp _ := call (λ d, (Ok (length (temps d)), set_temps (temps d ++ [[]]) d));
  tmp_Write t b := call (λ d, (Ok tt, set_temps (alter (.++ b) t (temps d)) d));
  tmp_Chmod _ := call (λ d, (Ok tt, d));
  tmp_Sync _ := call (λ d, (Ok tt, d));
  tmp_Close _ := call (λ d, (Ok tt, d));
  os_Rename t p := call (λ d, match temps d !! t with
                              | Some c => (Ok tt, {| files := <[p := c]> (files d); temps := temps d; faults := faults d |})
                              | None => (Err failure, d)
                              end);
  os_Remove _ := call (λ d, (Ok tt, d));
  disk_dirs := {|
    dirh := unit;
    dir_Open _ := call (λ d, (Ok tt, d));
    dir_Sync _ := call (λ d, (Ok tt, d));
    dir_Close _ := call (λ d, (Ok tt, d));
    sys_Statfs _ := call (λ d, (Ok (10 ^ 6, 4096), d));
  |};
|}.

Lemma disk_call_inv {A} (g : state → res A * state) d r d' :
  call g d = (r, d') → ∃ d1, files d1 = files d ∧ temps d1 = temps d ∧ (g d1 = (r, d') ∨ r = Err failure ∧ d' = d1).
Proof. unfold call. intros H. eexists. split_and!; [..|destruct (head (faults d)) as [[]|]; simplify_eq; eauto]; done. Qed.

Ltac same_disk := split_and!; [done|congruence|intros; congruence].
Ltac disk_call H := apply disk_call_inv in H as (d1 & ? & ? & [?|[-> ->]]); simplify_eq/=.

Program Definition laws : @DiskLaws disk := {|
  dinv _ := True;
  d_files := files : @Restore.disk disk → gmap string bytes;
  d_temp := (λ d t c, temps d !! t = Some c) : @Restore.disk disk → @tmpfile disk → bytes → Prop;
|}.
Next Obligation. intros p d r d' _ [= <- <-]. split; [done|]. intros n Hn. destruct (files d !! p) as [b|] eqn:E; simplify_eq/=. eauto. Qed.
Next Obligation.
  intros p d r d' _ H. cbn in H. disk_call H; (split; [same_disk|]); [|done].
  intros b Hb. destruct (files d' !! p) eqn:E; congruence.
Qed.
Next Obligation. intros p d r d' _ H. cbn in H. disk_call H; same_disk. Qed.
Next Obligation.
  intros p d r d' _ H. cbn in H. disk_call H; (split; [|done || by (intros t [= <-]; by apply list_lookup_middle)]); [|same_disk].
  split_and!; [done|congruence|]. intros t c Ht. cbn. apply lookup_app_l_Some. congruence.
Qed.
Next Obligation.
  intros t b d r d' c _ H Ht. cbn in H, Ht. disk_call H; (split_and!; [done|congruence|]); [|by intros].
  intros _ _. by rewrite list_lookup_alter_eq, H0, Ht.
Qed.
Next Obligation. intros p d r d' _ H. cbn in H. disk_call H; same_disk. Qed.
Next Obligation. intros p d r d' _ H. cbn in H. disk_call H; same_disk. Qed.
Next Obligation. intros p d r d' _ H. cbn in H. disk_call H; same_disk. Qed.
Next Obligation.
  intros t p d r d' c _ H Ht. cbn in H, Ht. disk_call H; [|split; [done|right; split; [done|congruence]]].
  assert (temps d1 !! t = Some c) as E by congruence. rewrite E in *. simplify_eq/=. split; [done|left; congruence].
Qed.
Next Obligation. intros p d r d' _ H. cbn in H. disk_call H; (split; [done|congruence]). Qed.
Next Obligation. intros p d r d' _ H. cbn in H. disk_call H; same_disk. Qed.
Next Obligation. intros p d r d' _ H. cbn in H. disk_call H; same_disk. Qed.
Next Obligation. intros p d r d' _ H. cbn in H. disk_call H; same_disk. Qed.
Next Obligation. intros p d r d' _ H. cbn in H. disk_call H; same_disk. Qed.

End ToyDisk.

(** The reader of [ToyZip]'s parts: three bytes of header, no compression
    and no encryption. *)
Module ToyReader.

Definition head (s : stream) : res PartHeader * stream * bool :=
  if bool_decide (take 3 s.1 = bytes_of_string "PK<") then (Ok {| ph_Flags := 0; ph_Method := zip_Store |}, (drop 3 s.1, s.2), false)
  else (Err (ESentinel IoErrUnexpectedEOF), s, true).
Definition copy (s : stream) : decoded := {| dec_out := s.1; dec_err := s.2; dec_saw_end := true |}.
Definition reading : ZipReading := {|
  ReadLocalFileHeader := head; ZipCryptoDecrypt _ _ := copy; Inflate := copy;
|}.

(** Streams of [Mem.storage] deliver whole objects. *)
Definition mem_stream (p : string) (s : Mem.mem) : res stream * Mem.mem :=
  (match Mem.objects s !! p with Some b => Ok (b, None) | None => Err (wrap1 ErrNotFound p) end, s).
Definition parts : @PartReader Mem.storage := {|
  OpenReader p := Mem.call (mem_stream p) : @M (@store Mem.storage) stream;
|}.

Lemma part_laws : @PartReaderLaws Mem.storage Mem.laws parts.
Proof.
  split. intros p s r s' _ H. apply Mem.call_inv in H as (s1 & Ho & _ & H).
  assert (∀ b, Mem.objects s1 !! p = Some b → relative p → ∃ whole, @view _ Mem.laws s !! p = Some whole ∧ b `prefix_of` whole ∧ (@None error = None → b = whole)).
  { intros b Hb _. exists b. cbn. rewrite <- Ho. done. }
  unfold mem_stream in H. destruct H as [[= <- <-]|[-> [->| ->]]]; (split_and!; [done|exact Ho|]); try done.
  intros Hr b e. destruct (Mem.objects s1 !! p) eqn:E; [|done]. intros [= <- <-]. eauto.
Qed.

(** What [ToyZip] writes is read back. *)
Lemma roundtrip : @ZipRoundtrip ToyZip.zip reading.
Proof.
  split.
  - intros z b fh. cbn. unfold ToyZip.close. destruct (Z.leb_spec (2 ^ 63) (blen z.2)); [done|]. intros [= <- <-].
    unfold is_u64. cbn. unfold blen in *. lia.
  - intros fh cs out fh' b e ph src saw. unfold zip_object. cbn [CreateFileParts ToyZip.zip]. unfold ToyZip.create.
    cbn [obind fst snd]. rewrite ToyZip.zip_chunks_spec. cbn [obind fst snd part_Close ToyZip.zip app]. unfold ToyZip.close.
    cbn [fst snd]. destruct (2 ^ 63 <=? blen (concat cs)); [done|]. intros [= <- <-] [k Hk]. cbn [fh_CompressedSize64].
    cbn [ReadLocalFileHeader reading]. unfold head. case_bool_decide as Hh; [|done]. intros [= <- <- _].
    unfold decode_part. cbn [ph_Flags ph_Method Z.land Z.eqb negb zip_Store zip_Deflate]. cbn [fst snd] in *.
    assert (concat cs ++ bytes_of_string ">" = drop 3 b ++ k) as Hd.
    { rewrite <- (take_drop 3 b), Hh, <- app_assoc in Hk. by apply (app_inv_head (bytes_of_string "PK<")) in Hk. }
    cbn. unfold LimitReader. cbn [fst snd]. destruct (Z.leb_spec (blen (concat cs)) 0) as [Hle|].
    { intros _ _ _. symmetry. apply nil_length_inv. unfold blen in Hle. lia. }
    destruct (Z.ltb_spec (blen (drop 3 b)) (blen (concat cs))) as [|Hge]; [cbn; intros; lia|]. intros _ _ _. cbn.
    unfold blen in *. rewrite Nat2Z.id. rewrite <- (take_app_le _ k), <- Hd by lia. apply take_app_length.
Qed.

End ToyReader.

(** An archive as its list of entries, with a schedule of failures. *)
Module ToyArchive.

Record state := { names : list string; final : bool; faults : list bool }.
Definition failure : error := ELeaf "archive" false.
Definition step (name : option string) (d : state) : res unit * state :=
  match head (faults d) with
  | Some true => (Err failure, {| names := names d; final := final d; faults := tail (faults d) |})
  | _ => (Ok tt, {| names := names d ++ option_list name; final := bool_decide (name = None) || final d; faults := tail (faults d) |})
  end.

Definition writing : ZipWriting := {|
  zipw := state;
  CopyRawPart name _ _ part z := let '(r, z) := step (Some name) z in (r, blen part.1 - 1, true, None, z);
  zipw_Create name := step (Some name);
  zipw_Close := step None;
|}.

Program Definition laws : @ZipWritingLaws writing := {|
  z_names := names : @zipw writing → list string;
  z_final := final : @zipw writing → bool;
|}.
Next Obligation. intros name old new part z r n se oe z'. cbn. unfold step. by destruct (head (faults z)) as [[]|]; intros [= <- <- <- <- <-]. Qed.
Next Obligation. intros name z r z'. cbn. unfold step. by destruct (head (faults z)) as [[]|]; intros [= <- <-]. Qed.
Next Obligation.
  intros z r z'. cbn. unfold step. destruct (head (faults z)) as [[]|]; intros [= <- <-] u Hu; try done;
    (split; [apply app_nil_r|done]).
Qed.

End ToyArchive.

Module RestoreExample.

Existing Instances BackupExample.world BackupExample.chunking ToyZip.zip ToyZip.zip_laws ToyBox.box some_range Mem.storage Mem.laws.
Existing Instances BackupExample.proto BackupExample.proto_laws ToyDisk.disk ToyDisk.laws ToyReader.reading ToyReader.parts ToyReader.part_laws.
Existing Instances ToyArchive.writing ToyArchive.laws.

(** The store after the backup, and a disk with an older file. *)
Definition backed_up : store := b_store (BackupExample.run false []).2.
Definition old_files : gmap string bytes := {["/out/docs/copy.txt" := bytes_of_string "older"; "/etc/passwd" := bytes_of_string "root"]}.
Definition start (faults : list bool) : rstate :=
  {| r_store := backed_up;
     r_disk := {| ToyDisk.files := old_files; ToyDisk.temps := []; ToyDisk.faults := faults |} : disk;
     stopped := false; touchedDirs := ∅ |}.
Definition archive (faults : list bool) : zipw := {| ToyArchive.names := []; ToyArchive.final := false; ToyArchive.faults := faults |} : @zipw ToyArchive.writing.

Definition opts (dir : string) (skip : bool) : RestoreOptions :=
  {| has_ZipWriter := true; ExtractDir := dir; PrivateKey := replicate 32 x07; NewPassword := "";
     SkipDecryptionErrors := skip; SkipValidationErrors := false;
     FilesToRestore := ["docs/new.txt"; "docs/copy.txt"; "empty/"]; ro_FilterFunc := None; ro_Concurrency := 0; NoOverwrite := false |}.

Definition run (o : RestoreOptions) (disk_faults zip_faults : list bool) : res unit * (rstate * zipw) :=
  RunRestore reverse 79 o (start disk_faults, archive zip_faults).

Lemma start_ok faults : r_ok (start faults).
Proof. by split. Qed.

(** A full restore, and one that a failing disk stops. *)
Example restores : (run (opts "/out" false) [] []).1 = Ok tt ∧
  ToyDisk.files (r_disk (run (opts "/out" false) [] []).2.1) =
    {["/out/docs/copy.txt" := bytes_of_string "hello"; "/out/docs/new.txt" := bytes_of_string "hello"; "/etc/passwd" := bytes_of_string "root"]}.
Proof. split; [vm_compute; reflexivity|by_eval]. Qed.

Example fails_midway : is_ok (run (opts "/out" false) [false; true] []).1 = false.
Proof. vm_compute. reflexivity. Qed.

Example archives : (run (opts "" false) [] []).1 = Ok tt ∧
  ToyArchive.names (run (opts "" false) [] []).2.2 = ["docs/copy.txt"; "docs/new.txt"; "empty/"].
Proof. split; vm_compute; reflexivity. Qed.

(** A run whose parts belong to the owner of a key, the upload of a source,
    and the metadata that lists it. *)
Definition sealed_run : backupRun :=
  {| run_opts := BackupExample.opts false; compMethod := 8; compLevel := -1; ephPubKey := replicate 32 x09;
     encryptedZipPass :=
       match EncryptPassword (Ok (replicate 32 x09, replicate 32 x09)) (Ok (replicate 24 x01)) "secret" (replicate 32 x07) with
       | Ok x => x.2
       | _ => []
       end;
     clearZipPass := "secret"; run_keyID := "k1"; existing := ∅ |}.
Definition source : SourceEntry := BackupExample.entry "docs/new.txt" "hello" false.
Definition source_key : string := "3610a686_5".
Definition before : bstate := open_run (BackupExample.initial []) tt.
Definition uploaded := uploadPart sealed_run source_key source before.
Definition uploaded_record : FileRecord :=
  match uploaded.1 with Ok rec => rec | _ => new_record sealed_run source 0 0 0 end.
Definition uploaded_md : BackupMetadata :=
  {| Versions := ∅; Files := {[source_key := uploaded_record]}; Trees := ∅; PublicKeys := ∅; SchemaVersion := 2;
     StoreLabel := None; LastUpdated := None |}.
Definition later : rstate :=
  {| r_store := b_store uploaded.2;
     r_disk := {| ToyDisk.files := old_files; ToyDisk.temps := []; ToyDisk.faults := [] |} : disk;
     stopped := false; touchedDirs := ∅ |}.

End RestoreExample.
