(* ===== verification/RestoreWorkers.v ===== *)
(** The worker pool of a restore to a directory ([tsync/restore.go], lines
    400 to 616): goroutines of a pool (Pool.v) that look at the context,
    extract a file and count it, and the caller, who may cancel at any time.

    The phases of a task are those between which other goroutines can be
    seen: the checks of the context, the extraction, [workerCancel], the
    atomic counter and the callback.  One extraction is one step. *)

From S2P Require Import Prelude Errors GoStrings Keys Digest Metadata Store Client Crypto Upload Paths DiskSpace Restore RestoreSpec RestoreRun Pool.
#[local] Open Scope Z_scope.

(** [restoreTask]. *)
Abbreviation restoreTask := (string * string)%type.

(** Where a task is: in the channel or just received, past the check of the
    context, failed, judged to be a root cause or not, extracted, counted, or
    answered. *)
Inductive phase :=
| Taken
| Extracting
| Broken (e : error)
| Judged (cancelled : bool) (e : error)
| Extracted
| Counted (done : Z)
| Answered (r : restoreResult).

(** ** The caller's context *)

(** A context that has ended stays ended, with the same error, whatever calls
    of the file system follow. *)
Definition stays {DK : Disk} (d d' : disk) : Prop := ∀ e, os_ctx_Err d = Some e → os_ctx_Err d' = Some e.
Class ContextLaws {DK : Disk} := {
  os_Stat_ctx p d r d' : os_Stat p d = (r, d') → stays d d';
  os_Open_ctx p d r d' : os_Open p d = (r, d') → stays d d';
  os_MkdirAll_ctx p d r d' : os_MkdirAll p d = (r, d') → stays d d';
  os_CreateTemp_ctx p d r d' : os_CreateTemp p d = (r, d') → stays d d';
  tmp_Write_ctx t b d r d' : tmp_Write t b d = (r, d') → stays d d';
  tmp_Chmod_ctx t d r d' : tmp_Chmod t d = (r, d') → stays d d';
  tmp_Sync_ctx t d r d' : tmp_Sync t d = (r, d') → stays d d';
  tmp_Close_ctx t d r d' : tmp_Close t d = (r, d') → stays d d';
  os_Rename_ctx t p d r d' : os_Rename t p d = (r, d') → stays d d';
  os_Remove_ctx t d r d' : os_Remove t d = (r, d') → stays d d';
}.

Section ContextStays.
Context {ST : Storage} {RD : PartReader} {DK : Disk} {CL : ContextLaws} {CK : Chunking} {ZR : ZipReading} {BX : Box}.

(** A worker does not cancel while it extracts. *)
Definition ctx_kept (s s' : rstate) : Prop := stopped s' = stopped s ∧ stays (r_disk s) (r_disk s').
#[local] Instance ctx_kept_preorder : PreOrder ctx_kept.
Proof. split; [intros s; split; [done|by intros e]|]. intros s1 s2 s3 [E1 H1] [E2 H2]. split; [congruence|]. intros e He. auto. Qed.

Lemma ctx_kept_disk {A} (c : M disk A) : (∀ d r d', c d = (r, d') → stays d d') → keeps ctx_kept (on_disk c).
Proof. intros Hc s r s' (H & _ & E & _)%on_disk_inv. split; [done|by eapply Hc]. Qed.
Lemma ctx_kept_dest {A} (c : M store A) : keeps ctx_kept (on_dest c).
Proof. intros s r s' (_ & Hd & E & _)%on_dest_inv. split; [done|]. rewrite Hd. by intros e. Qed.
Lemma ctx_kept_touch d : keeps ctx_kept (touch_dir d).
Proof. intros s r s' [= _ <-]. split; [done|by intros e]. Qed.

#[local] Hint Resolve ctx_kept_dest ctx_kept_touch ctx_kept_disk : keeps.
#[local] Hint Resolve os_MkdirAll_ctx os_CreateTemp_ctx tmp_Write_ctx tmp_Chmod_ctx tmp_Sync_ctx tmp_Close_ctx os_Rename_ctx os_Remove_ctx : keeps.

Lemma ctx_kept_stat p : keeps ctx_kept (stat p).
Proof.
  apply ctx_kept_disk. intros d r d'. destruct (os_Stat p d) as [fi d1] eqn:E. intros [= _ <-]. by eapply os_Stat_ctx.
Qed.
Lemma ctx_kept_crc p : keeps ctx_kept (on_disk (calculateFileCRC32 p)).
Proof.
  apply ctx_kept_disk. intros d r d' [(rc & d1 & H1 & H)|(r1 & H1 & _)]%bind_inv; apply os_Open_ctx in H1; [|done].
  by destruct rc.2; injection H as _ <-.
Qed.
#[local] Hint Resolve ctx_kept_stat ctx_kept_crc : keeps.

Lemma ctx_kept_fill record fh password src tmp : keeps ctx_kept (fill_temp record fh password src tmp).
Proof. unfold fill_temp. keep. Qed.

Lemma extractOne_ctx opts md path key : keeps ctx_kept (extractOne opts md path key).
Proof.
  unfold extractOne, already_there, finish_temp, close_and_remove, remove_temp. pose proof ctx_kept_fill. keep.
Qed.

End ContextStays.

Section Pool.
Context {ST : Storage} {SL : StorageLaws} {RD : PartReader} {RL : PartReaderLaws} {DK : Disk} {DL : DiskLaws}.
Context {CK : Chunking} {ZR : ZipReading} {BX : Box} {MR : MapRange}.

(** ** What the goroutines share *)

(** The storage, the files and the directories that were touched; the
    counter; the calls of [OnProgress], if it is set; and how the program
    ended if a goroutine panicked. *)
Record shared := {
  rs : rstate;
  progressDone : Z;
  reports : list (Z * string);
  crashed : option (res unit);
}.
Definition set_rs (s : rstate) (w : shared) : shared :=
  {| rs := s; progressDone := progressDone w; reports := reports w; crashed := crashed w |}.
Definition count (w : shared) : shared :=
  {| rs := rs w; progressDone := i32 (progressDone w + 1); reports := reports w; crashed := crashed w |}.
Definition report (n : Z) (path : string) (w : shared) : shared :=
  {| rs := rs w; progressDone := progressDone w; reports := reports w ++ [(n, path)]; crashed := crashed w |}.
Definition crash (r : res unit) (w : shared) : shared :=
  {| rs := rs w; progressDone := progressDone w; reports := reports w; crashed := Some r |}.

Context (opts : RestoreOptions) (md : BackupMetadata).

(** What follows the call of [extractOne]. *)
Definition after_extract (r : res unit) (w : shared) : phase * shared :=
  match r with
  | Ok _ => (Extracted, w)
  | Err e => if SkipDecryptionErrors opts && isSkippableRestoreError e then (Extracted, w) else (Broken e, w)
  | r => (Extracting, crash r w)
  end.

Definition cancelled_error (e : error) (s : rstate) : bool :=
  bool_decide (is_Some (worker_err s)) && errors_Is e CtxCanceled.

(** One step of a worker with its task. *)
Inductive advance (t : restoreTask) (w : shared) : phase → phase → shared → Prop :=
| adv_refuse e : worker_err (rs w) = Some e → advance t w Taken (Answered (RCancelled e)) w
| adv_begin : worker_err (rs w) = None → advance t w Taken Extracting w
| adv_extract r s : extractOne opts md t.1 t.2 (rs w) = (r, s) →
    advance t w Extracting (after_extract r (set_rs s w)).1 (after_extract r (set_rs s w)).2
| adv_judge e : advance t w (Broken e) (Judged (cancelled_error e (rs w)) e) w
| adv_stop c e : advance t w (Judged c e) (Answered (if c then RCancelled e else RFailed e)) (set_rs (stop (rs w)) w)
| adv_count : advance t w Extracted (Counted (i32 (progressDone w + 1))) (count w)
| adv_report n : advance t w (Counted n) (Answered RDone) (report n t.1 w).

(** The caller's context ends. *)
Inductive caller_cancels (w : shared) : shared → Prop :=
| caller_cancel d : os_ctx_Err (r_disk (rs w)) = None → is_Some (os_ctx_Err d) → quiet (r_disk (rs w)) d →
    caller_cancels w (set_rs {| r_store := r_store (rs w); r_disk := d; stopped := stopped (rs w);
                                touchedDirs := touchedDirs (rs w) |} w).

(** The goroutines of [restoreToDir]; the loop over the results only looks at
    them. *)
Definition restore_routine : routine restoreTask phase restoreResult shared :=
  {| rt_taken := Taken; rt_answered := Answered; rt_halted w := match crashed w with Some _ => true | None => false end;
     rt_advance := advance; rt_outside := caller_cancels; rt_on_result _ _ w := w |}.

Definition opened (s : rstate) : shared := {| rs := s; progressDone := 0; reports := []; crashed := None |}.

Section Tasks.
Context (tasks : list restoreTask).
Abbreviation ledger := (ledger restore_routine).
Abbreviation ledger_step := (ledger_step restore_routine).
Abbreviation reaches n s := (reaches restore_routine tasks n (opened s)).
Abbreviation all_gone := (all_gone restore_routine).
Abbreviation answered := (answered restore_routine).
Abbreviation pool_moves := (pool_moves restore_routine tasks).

(** ** Files *)

Definition finished (p : phase) : Prop :=
  match p with Extracted | Counted _ | Answered RDone => True | _ => False end.
Definition fresh (p : phase) : Prop := match p with Taken | Extracting => True | _ => False end.

(** What is known of the file of a task. *)
Definition settled (f0 f : gmap string bytes) (t : restoreTask) (p : phase) : Prop :=
  (fresh p → untouched opts t.1 f0 f) ∧
  (SkipDecryptionErrors opts = false → finished p → in_place opts md t.1 t.2 f0 f).

(** Only verified content appeared; until a goroutine panics, the files of the
    tasks that are finished are in place, and those of the tasks that have not
    been extracted yet are as they were. *)
Definition files_ok (s0 : rstate) (l : list (restoreTask * phase)) (w : shared) : Prop :=
  l.*1 ≡ₚ tasks ∧ same_store s0 (rs w) ∧
  restored (view (r_store s0)) opts md tasks (d_files (r_disk s0)) (d_files (r_disk (rs w))) ∧
  (ExtractDir opts ≠ "" → NoDup tasks.*1 → Forall good_path tasks.*1 → crashed w = None →
   ∀ t p, (t, p) ∈ l → settled (d_files (r_disk s0)) (d_files (r_disk (rs w))) t p).

Lemma after_extract_rs r w :
  rs (after_extract r w).2 = rs w ∧
  (finished (after_extract r w).1 → r = Ok tt ∨ SkipDecryptionErrors opts = true) ∧
  (fresh (after_extract r w).1 → crashed (after_extract r w).2 ≠ None).
Proof.
  destruct r as [[]|e| |]; cbn; try (split_and!; [done|by auto|done]).
  destruct (SkipDecryptionErrors opts && isSkippableRestoreError e) eqn:E; cbn; (split_and!; [done| |done]); [|done].
  apply andb_true_iff in E as [-> _]. auto.
Qed.

(** What an advance does to the files. *)
Lemma advance_rs t w p p' w' :
  advance t w p p' w' → r_ok (rs w) →
  same_store (rs w) (rs w') ∧
  extracted (view (r_store (rs w))) opts md t.1 t.2 (d_files (r_disk (rs w))) (d_files (r_disk (rs w'))) ∧
  (crashed w' = None → crashed w = None ∧
   ∀ f0, settled f0 (d_files (r_disk (rs w))) t p → settled f0 (d_files (r_disk (rs w'))) t p').
Proof.
  intros Ha Hok. assert (same_store (rs w) (rs w)) as Hs by by split.
  destruct Ha as [e He|He|r s Hx|e|c e| |n]; unfold settled; cbn -[in_place extracted];
    try (split_and!; [done|by left|intros Hc; split; [done|]; intros f0 [H1 H2]; split; [try done; by auto|try done; by auto]]).
  - destruct (extractOne_spec _ _ _ _ _ _ _ Hok Hx) as (Hok1 & Hv & Hext & Hin).
    destruct (after_extract_rs r (set_rs s w)) as (-> & Hfin & Hfr). cbn. split_and!; [by split|done|]. intros Hc. split.
    { destruct r as [u|e| |]; cbn in Hc; try done. by destruct (_ && _). }
    intros f0 [H1 _]. split; [by intros ?%Hfr|]. intros Hsk Hf. destruct (Hfin Hf) as [->|?]; [|congruence].
    eapply in_place_untouched; [by apply H1|by intros ??|by eapply Hin].
  - split_and!; [done|by left|]. intros Hc; split; [done|]. intros f0 _. by destruct c.
Qed.

Lemma files_step s0 l w l' w' : files_ok s0 l w → ledger_step l w l' w' → files_ok s0 l' w'.
Proof.
  intros (Hl & Hs & Hr & Hin) [l1 E|t a b rest l1 w1 E Ha E'|l1 t r c E _|l1 w1 E [d _ _ (Hd & Hf & _)]].
  - split_and!; [by rewrite <- E|done|done|]. intros Hb Hnd Hg Hc t p Ht. apply Hin; try done. by rewrite E.
  - assert (tasks ≡ₚ t :: rest.*1) as Et by (rewrite <- Hl, E; done).
    destruct (advance_rs _ _ _ _ _ Ha (proj1 Hs)) as (Hs1 & Hx & Hf). rewrite (proj2 Hs) in Hx.
    split_and!; [by rewrite E', Et|by eapply same_store_trans| |].
    + eapply restored_trans; [exact Hr|]. eapply restored_mono; [|by eapply extracted_restored].
      intros x ->%list_elem_of_singleton. rewrite <- surjective_pairing, Et. by left.
    + intros Hb Hnd Hg Hc u p Hu. destruct (Hf Hc) as [Hc0 Hset]. specialize (Hin Hb Hnd Hg Hc0).
      rewrite E' in Hu. apply elem_of_cons in Hu as [[= -> ->]|Hu]; [apply Hset, Hin; rewrite E; by left|].
      destruct (Hin u p) as [H1 H2]; [rewrite E; by right|].
      rewrite Et in Hnd, Hg. cbn in Hnd, Hg. apply NoDup_cons in Hnd as [Hni _]. apply Forall_cons in Hg as [Hg1 Hg2].
      assert (u.1 ∈ rest.*1.*1) as Hmem by (rewrite <- list_fmap_compose; apply list_elem_of_fmap; by exists (u, p)).
      rewrite Forall_forall in Hg2. apply (extracted_other _ _ _ u.1) in Hx; [|done|by apply Hg2|done|by intros Eq; apply Hni; rewrite <- Eq].
      split; [intros Hp out Ho; by rewrite (Hx out Ho), (H1 Hp out Ho)|]. intros Hsk Hp.
      eapply in_place_untouched; [by intros ??|exact Hx|by apply H2].
  - split_and!; [by rewrite <- E|done|done|]. intros Hb Hnd Hg Hc u p Hu. apply Hin; try done. by rewrite E.
  - unfold files_ok. cbn. rewrite Hf. split_and!; [by rewrite <- E| |done|].
    + destruct Hs as [[Hi _] Hv]. split; [by split|done].
    + intros Hb Hnd Hg Hc t p Ht. apply Hin; try done. by rewrite E.
Qed.

Lemma reaches_files n s p : r_ok s → reaches n s p → files_ok s (ledger p) (world p).
Proof.
  intros Hok. apply (ledger_ind _ _ (files_ok s)); [|by intros; eapply files_step].
  split_and!; [by rewrite <- list_fmap_compose, list_fmap_id|by split|by apply restored_refl|].
  intros _ _ _ _ t q (t' & [= -> ->] & _)%list_elem_of_fmap. split; [by intros _ ??|done].
Qed.

(** ** Progress reports *)

Definition counted (x : restoreTask * phase) : list Z := match x.2 with Counted n => [n] | _ => [] end.
Definition reported (x : restoreTask * phase) : list string := match x.2 with Answered RDone => [x.1.1] | _ => [] end.

(** The numbers that were given out are those from one on; those that were
    reported belong to the tasks that are done. *)
Definition progress_ok (l : list (restoreTask * phase)) (w : shared) : Prop :=
  length l = length tasks ∧ 0 ≤ progressDone w ∧
  (l ≫= counted) ++ (reports w).*1 ≡ₚ seqZ 1 (progressDone w) ∧ (reports w).*2 ≡ₚ l ≫= reported.

Lemma counted_reported l : (length (l ≫= counted) + length (l ≫= reported) ≤ length l)%nat.
Proof.
  induction l as [|[t p] l IH]; [done|]. rewrite !bind_cons, !length_app.
  assert (length (counted (t, p)) + length (reported (t, p)) ≤ 1)%nat by (by destruct p as [| | | | | |[]]; cbn; lia).
  cbn [length]. lia.
Qed.

Lemma progress_done_bound l w :
  progress_ok l w → progressDone w = Z.of_nat (length (l ≫= counted) + length (l ≫= reported)).
Proof.
  intros (_ & H0 & Hc & Hr). apply Permutation_length in Hc, Hr. rewrite length_app, length_seqZ, length_fmap in Hc.
  rewrite length_fmap in Hr. lia.
Qed.

Lemma progress_same l l' w w' :
  progress_ok l w → l ≡ₚ l' → progressDone w' = progressDone w → reports w' = reports w → progress_ok l' w'.
Proof. unfold progress_ok. intros H E -> ->. by rewrite <- !E. Qed.

(** A phase that neither counts nor reports. *)
Lemma progress_replace t a b rest w w' :
  progress_ok ((t, a) :: rest) w → counted (t, a) = counted (t, b) → reported (t, a) = reported (t, b) →
  progressDone w' = progressDone w → reports w' = reports w → progress_ok ((t, b) :: rest) w'.
Proof. unfold progress_ok. intros H E1 E2 -> ->. rewrite !bind_cons in *. by rewrite <- E1, <- E2. Qed.

Lemma progress_step l w l' w' :
  Z.of_nat (length tasks) < 2 ^ 31 → progress_ok l w → ledger_step l w l' w' → progress_ok l' w'.
Proof.
  intros Hmax Hp [l1 E|t a b rest l1 w1 E Ha E'|l1 t r c E _|l1 w1 E [d _ _ _]]; [by eapply progress_same| |by eapply progress_same..].
  eapply (progress_same _ _ w) in Hp; [|exact E|done..]. eapply (progress_same ((t, b) :: rest)); [|by symmetry|done..]. clear E E'.
  destruct Ha as [e He|He|r s Hx|e|c e| |n]; try by eapply progress_replace.
  - destruct r as [u|e| |]; cbn; try by eapply progress_replace.
    destruct (SkipDecryptionErrors opts && isSkippableRestoreError e); by eapply progress_replace.
  - by destruct c; eapply progress_replace.
  - pose proof (progress_done_bound _ _ Hp) as Hn. destruct Hp as (Hlen & H0 & Hc & Hr). rewrite !bind_cons in *. cbn in Hn, Hc, Hr, Hlen.
    pose proof (counted_reported rest). assert (i32 (progressDone w + 1) = progressDone w + 1) as Hi by (apply i32_id; lia).
    unfold progress_ok. rewrite !bind_cons. cbn. rewrite Hi. split_and!; [done|lia| |done].
    rewrite Hc, seqZ_app by lia. cbn. rewrite Permutation_cons_append. by rewrite (Z.add_comm 1).
  - destruct Hp as (Hlen & H0 & Hc & Hr). unfold progress_ok. rewrite !bind_cons in *. cbn in *. split_and!; [done|done| |].
    + rewrite fmap_app. cbn. rewrite <- Hc. solve_Permutation.
    + rewrite fmap_app, Hr. cbn. solve_Permutation.
Qed.

Lemma reaches_progress n s p :
  Z.of_nat (length tasks) < 2 ^ 31 → reaches n s p → progress_ok (ledger p) (world p).
Proof.
  intros Hmax. apply (ledger_ind _ _ progress_ok); [|by intros; eapply progress_step].
  assert (∀ A (f : restoreTask * phase → list A) (l : list restoreTask), (∀ t, f (t, Taken) = []) → ((λ t, (t, Taken)) <$> l) ≫= f = []) as Hnil.
  { intros A f l Hf. induction l as [|t l IH]; [done|]. rewrite fmap_cons, bind_cons, Hf. done. }
  split_and!; [by rewrite length_fmap|done|by rewrite Hnil|by rewrite Hnil].
Qed.

(** ** The cause of a failure *)

Context {CL : ContextLaws}.

Definition mark (p : phase) : option bool :=
  match p with Judged c _ => Some c | Answered (RCancelled _) => Some true | Answered (RFailed _) => Some false | _ => None end.
Definition marked (b : bool) (l : list (restoreTask * phase)) : Prop := ∃ t p, (t, p) ∈ l ∧ mark p = Some b.

(** Nothing is cancelled without a cause: a task that failed by itself, or
    the end of the caller's context. *)
Definition cause_ok (l : list (restoreTask * phase)) (w : shared) : Prop :=
  stopped (rs w) = true ∨ marked true l → marked false l ∨ is_Some (os_ctx_Err (r_disk (rs w))).

Lemma marked_perm b l l' : l ≡ₚ l' → marked b l ↔ marked b l'.
Proof. intros E. unfold marked. by setoid_rewrite E. Qed.
Lemma marked_cons b t p l : marked b ((t, p) :: l) ↔ mark p = Some b ∨ marked b l.
Proof.
  unfold marked. split.
  - intros (u & q & [[= -> ->]|H]%elem_of_cons & Hm); eauto.
  - intros [H|(u & q & H & Hm)]; [exists t, p|exists u, q]; (split; [|done]); [by left|by right].
Qed.

(** The worker's context has ended only for a reason. *)
Lemma worker_err_cause l w :
  cause_ok l w → is_Some (worker_err (rs w)) → marked false l ∨ is_Some (os_ctx_Err (r_disk (rs w))).
Proof. unfold cause_ok, worker_err. destruct (stopped (rs w)); intros H ?; [by apply H; left|by right]. Qed.

Lemma after_extract_mark r w : mark (after_extract r w).1 = None ∧ rs (after_extract r w).2 = rs w.
Proof. destruct r as [|e| |]; cbn; try done. by destruct (_ && _). Qed.

Lemma cause_advance t a b rest w w' :
  cause_ok ((t, a) :: rest) w → advance t w a b w' → cause_ok ((t, b) :: rest) w'.
Proof.
  intros Hc Ha. pose proof (worker_err_cause _ _ Hc) as Hw. unfold cause_ok in *. rewrite !marked_cons in *.
  destruct Ha as [e He|He|r s Hx|e|c e| |n]; cbn in *; try (intuition congruence).
  - rewrite He in Hw. assert (is_Some (Some e)) as Hs by eauto. specialize (Hw Hs). intuition congruence.
  - destruct (after_extract_mark r (set_rs s w)) as [-> ->]. cbn. destruct (extractOne_ctx _ _ _ _ _ _ _ Hx) as [-> Hstay].
    intros H. destruct Hc as [[?|?]|[e He]]; [destruct H as [?|[?|?]]; [by left|done|by right; right]|done|by left; right|].
    right. exists e. by apply Hstay.
  - unfold cancelled_error. destruct (bool_decide _) eqn:E; cbn; [apply bool_decide_eq_true in E; specialize (Hw E)|];
      destruct (errors_Is e CtxCanceled); intuition congruence.
  - destruct c; cbn; intuition congruence.
Qed.

Lemma cause_step l w l' w' : cause_ok l w → ledger_step l w l' w' → cause_ok l' w'.
Proof.
  intros Hc [l1 E|t a b rest l1 w1 E Ha E'|l1 t r c E _|l1 w1 E [d _ Hd _]]; [..|by right];
    unfold cause_ok in *; rewrite ?(marked_perm _ _ _ E) in *; [done| |done]. rewrite !(marked_perm _ _ _ E').
  by eapply cause_advance.
Qed.

Lemma reaches_cause n s p : stopped s = false → reaches n s p → cause_ok (ledger p) (world p).
Proof.
  intros Hs. apply (ledger_ind _ _ cause_ok); [|by intros; eapply cause_step].
  intros [H|(t & q & (t' & [= -> ->] & _)%list_elem_of_fmap & ?)]; [cbn in H; congruence|done].
Qed.

(** The error [e] was not caused by the cancellation that another failure has
    brought about: the extraction of a task has returned it, and when the worker
    looked at it its context had not ended, or [e] is not that of a cancelled
    context. *)
Definition own_failure n s (p : pool restoreTask phase restoreResult shared) (e : error) : Prop :=
  ∃ t q, reaches n s q ∧ rtc pool_moves q p ∧ (t, Broken e) ∈ ledger q ∧
    (∃ s1 s2, extractOne opts md t.1 t.2 s1 = (Err e, s2)) ∧
    (worker_err (rs (world q)) = None ∨ errors_Is e CtxCanceled = false).

(** What a phase says of the error in it. *)
Definition traced n s p (x : restoreTask * phase) : Prop :=
  match x.2 with
  | Broken e => ∃ s1 s2, extractOne opts md x.1.1 x.1.2 s1 = (Err e, s2)
  | Judged false e | Answered (RFailed e) => own_failure n s p e
  | _ => True
  end.

Lemma own_failure_later n s p p' e : pool_moves p p' → own_failure n s p e → own_failure n s p' e.
Proof. intros Hm (t & q & Hr & Hp & H). exists t, q. split_and!; [done|by eapply rtc_r|apply H..]. Qed.

Lemma traced_later n s p p' x : pool_moves p p' → traced n s p x → traced n s p' x.
Proof. intros Hm. destruct x as [t [| |e|[] e| |k|[|e|e]]]; unfold traced; cbn; try done; by apply own_failure_later. Qed.

Lemma advance_traced n s p p' t a b w' :
  reaches n s p → pool_moves p p' → (t, a) ∈ ledger p → traced n s p (t, a) → advance t (world p) a b w' → traced n s p' (t, b).
Proof.
  intros Hr Hm Hin Ht Ha. unfold traced in *. cbn [fst snd] in *.
  destruct Ha as [e He|He|r s1 Hx|e|c e| |k]; cbn in *; try done.
  - destruct r as [u|e| |]; cbn; try done. destruct (_ && _); [done|]. by exists (rs (world p)), s1.
  - destruct (cancelled_error e (rs (world p))) eqn:E; [done|]. exists t, p. split_and!; [done|by apply rtc_once|done|done|].
    unfold cancelled_error in E. apply andb_false_iff in E as [E%bool_decide_eq_false|E]; [left|by right].
    by apply eq_None_not_Some.
  - destruct c; [done|]. by eapply own_failure_later.
Qed.

Lemma reaches_traced n s p : reaches n s p → ∀ x, x ∈ ledger p → traced n s p x.
Proof.
  unfold Pool.reaches. revert p. apply (rtc_ind_r (λ p, ∀ x, x ∈ ledger p → traced n s p x)).
  - intros x Hx. unfold Pool.ledger, start_pool in Hx. cbn in Hx. rewrite bind_replicate_nil, !app_nil_r in Hx by done.
    apply list_elem_of_fmap in Hx as (t & -> & _). exact I.
  - intros p p' Hr Hm IH x Hx. pose proof (move_ledger _ _ _ _ (proj2 Hm)) as Hl. revert Hx.
    destruct Hl as [l1 E|t a b rest l1 w1 E Ha E'|l1 t r c E _|l1 w1 E _];
      try (rewrite <- E; intros Hx; eapply traced_later; [done|by apply IH]).
    rewrite E'. intros [->|Hx]%elem_of_cons.
    + eapply advance_traced; [done|done| | |exact Ha]; [|apply IH]; rewrite E; by left.
    + eapply traced_later; [done|]. apply IH. rewrite E. by right.
Qed.

(** ** Termination *)

Definition phase_weight (p : phase) : nat :=
  match p with Taken => 7 | Extracting => 6 | Broken _ => 5 | Judged _ _ => 4 | Extracted => 5 | Counted _ => 4 | Answered _ => 3 end.
Definition world_weight (w : shared) : nat :=
  (match crashed w with None => 1 | Some _ => 0 end + match os_ctx_Err (r_disk (rs w)) with None => 1 | Some _ => 0 end)%nat.

Lemma advance_weight t w a b w' :
  advance t w a b w' → crashed w = None → (phase_weight b + world_weight w' < phase_weight a + world_weight w)%nat.
Proof.
  intros Ha Hc. unfold world_weight. rewrite Hc.
  destruct Ha as [e He|He|r s Hx|e|c e| |n]; cbn; rewrite ?Hc; try (repeat case_match; lia).
  destruct (extractOne_ctx _ _ _ _ _ _ _ Hx) as [_ Hstay].
  assert ((match os_ctx_Err (r_disk s) with None => 1 | Some _ => 0 end ≤
    match os_ctx_Err (r_disk (rs w)) with None => 1 | Some _ => 0 end)%nat) as Hle.
  { destruct (os_ctx_Err (r_disk (rs w))) as [e|] eqn:E; [by rewrite (Hstay _ E)|]. case_match; lia. }
  destruct r as [u|e| |]; cbn; rewrite ?Hc; try lia. destruct (_ && _); cbn; rewrite Hc; lia.
Qed.

Lemma halted_crashed w : rt_halted restore_routine w = false ↔ crashed w = None.
Proof. cbn. by destruct (crashed w). Qed.

(** An upper bound on the moves that are left. *)
Definition moves_left : pool restoreTask phase restoreResult shared → nat :=
  Pool.moves_left restore_routine phase_weight world_weight.

Lemma restore_decreases p p' : (ledger p).*1 ≡ₚ tasks → pool_moves p p' → (moves_left p' < moves_left p)%nat.
Proof.
  intros Hl. apply (move_decreases _ _ phase_weight world_weight); [| | |done|done].
  - intros t w a b w' _ Hh%halted_crashed Ha. by eapply advance_weight.
  - intros r. cbn. lia.
  - intros w w' [d Hn [e He] _]. unfold world_weight. cbn. rewrite Hn, He. lia.
Qed.

(** A busy worker is never stuck. *)
Lemma advances t w p : (∃ p' w', advance t w p p' w') ∨ ∃ r, p = Answered r.
Proof.
  destruct p as [| |e|c e| |n|r]; [..|right; eauto]; left.
  - destruct (worker_err (rs w)) as [e|] eqn:E; eexists _, _; [by apply adv_refuse|by apply adv_begin].
  - destruct (extractOne opts md t.1 t.2 (rs w)) as [r s] eqn:E. eexists _, _. by eapply adv_extract.
  - eexists _, _. apply adv_judge.
  - eexists _, _. apply adv_stop.
  - eexists _, _. apply adv_count.
  - eexists _, _. apply adv_report.
Qed.

Lemma restore_not_stuck n s p : reaches n s p → crashed (world p) = None → ¬ all_gone p → ∃ p', pool_moves p p'.
Proof.
  intros Hr Hc%halted_crashed. apply not_stuck; [by eapply ledger_tasks| |done]. intros i t q Hi.
  destruct (advances t (world p) q) as [(q' & w & Ha)|?]; [right|by left]. by exists i, t, q, q', w.
Qed.

(** The pool can always get to its end, or to a panic. *)
Lemma restore_ends n s p :
  reaches n s p → ∃ p', rtc pool_moves p p' ∧ (all_gone p' ∨ crashed (world p') ≠ None).
Proof.
  intros Hr. destruct (reaches_end restore_routine tasks moves_left n (opened s) p) as (p' & Hm & [?|Hh]); [..|exists p'; by auto|].
  - apply restore_decreases.
  - intros q Hq Hh%halted_crashed. by eapply restore_not_stuck.
  - done.
  - exists p'. split; [done|right]. intros Hc%halted_crashed. congruence.
Qed.

(** ** The end of a run *)

Lemma drain_error l e : RFailed e ∈ l → ∃ e', RFailed e' ∈ l ∧ (drain l).2 = Some e'.
Proof.
  unfold drain. set (step := λ (acc : nat * option error) (r : restoreResult), _).
  assert (∀ l acc e', acc.2 = Some e' → (fold_left step l acc).2 = Some e') as Hkeep.
  { clear. induction l as [|r l IH]; intros acc e' He; [done|]. cbn [fold_left]. apply IH. destruct r; cbn; by rewrite ?He. }
  enough (∀ acc, acc.2 = None → RFailed e ∈ l → ∃ e', RFailed e' ∈ l ∧ (fold_left step l acc).2 = Some e') as H by by apply H.
  induction l as [|r l IH]; intros acc Ha; [by intros ?%elem_of_nil|]. cbn [fold_left].
  destruct r as [|e1|e1].
  1: intros [?|He]%elem_of_cons; [done|]; destruct (IH (S acc.1, acc.2) Ha He) as (e' & ? & ?); exists e'; split; [by right|done].
  2: intros [?|He]%elem_of_cons; [done|]; destruct (IH acc Ha He) as (e' & ? & ?); exists e'; split; [by right|done].
  intros _. exists e1. split; [by left|]. apply Hkeep. cbn. by rewrite Ha.
Qed.

Lemma dones_all l : (∀ r, r ∈ l → r = RDone) → dones l = length l.
Proof.
  induction l as [|r l IH]; intros H; [done|]. cbn. rewrite (H r) by (by left). f_equal. apply IH. intros x Hx. apply H. by right.
Qed.

(** A run that the caller has not cancelled is complete, or names a task that
    failed by itself. *)
Lemma final_cause n s0 s :
  (0 < n)%nat → stopped s0 = false → reaches n s0 s → all_gone s → os_ctx_Err (r_disk (rs (world s))) = None →
  let out := drain (collected s).*2 in
  out.1 = length tasks ∨ ∃ e, out.2 = Some e ∧ own_failure n s0 s e.
Proof.
  intros Hn Hs Hr Hg Hctx out. pose proof (reaches_traced _ _ _ Hr) as Htr. pose proof (reaches_cause _ _ _ Hs Hr) as Hc. unfold cause_ok in Hc.
  rewrite (final_ledger _ _ _ _ _ (pos_or_nil _ _ Hn) Hr Hg) in Hc, Htr. rewrite Hctx in Hc.
  assert (∀ b, marked b (answered <$> collected s) ↔ ∃ t r, (t, r) ∈ collected s ∧ mark (Answered r) = Some b) as Hm.
  { intros b. unfold marked, answered. split.
    - intros (t & p & ([t' r] & [= -> ->] & Hin)%list_elem_of_fmap & Hp). eauto.
    - intros (t & r & Hin & Hp). exists t, (Answered r). split; [|done]. apply list_elem_of_fmap. by exists (t, r). }
  rewrite !Hm in Hc.
  assert ((∃ t r, (t, r) ∈ collected s ∧ mark (Answered r) = Some false) → ∃ e, out.2 = Some e ∧ own_failure n s0 s e) as Hf.
  { intros (t & [|e|e] & Hin & He); try done.
    destruct (drain_error (collected s).*2 e) as (e' & ([u x] & Ex & Hin')%list_elem_of_fmap & ?);
      [apply list_elem_of_fmap; by exists (t, RFailed e)|].
    cbn in Ex. subst x. exists e'. split; [done|]. apply (Htr (answered (u, RFailed e'))). apply list_elem_of_fmap. by exists (u, RFailed e'). }
  assert ((∀ r, r ∈ (collected s).*2 → r = RDone) ∨ ∃ t r, (t, r) ∈ collected s ∧ is_Some (mark (Answered r))) as [Hall|(t & r & Hin & [[] Hb])].
  { clear. induction (collected s) as [|[t r] l [IH|(u & x & ? & ?)]]; [left; by intros r ?%elem_of_nil| |right; exists u, x; split; [by right|done]].
    destruct r as [|e|e]; [left; by intros r [->|?%IH]%elem_of_cons|right..]; eexists t, _; (split; [by left|cbn; eauto]). }
  - left. unfold out. rewrite drain_count, dones_all by done.
    by rewrite length_fmap, <- (length_fmap fst), (final_tasks _ _ _ _ _ (pos_or_nil _ _ Hn) Hr Hg).
  - right. apply Hf. destruct Hc as [?|[]]; [right; eauto|done|done].
  - right. apply Hf. eauto.
Qed.

(** The paths of the tasks that are done. *)
Definition done_paths (l : list (restoreTask * restoreResult)) : list string :=
  l ≫= λ x, match x.2 with RDone => [x.1.1] | _ => [] end.

Lemma done_paths_length l : length (done_paths l) = (drain l.*2).1.
Proof.
  rewrite drain_count. unfold done_paths. induction l as [|[t [|e|e]] l IH]; [done|..]; rewrite bind_cons, length_app, IH; done.
Qed.

(** The reports of a finished run. *)
Lemma final_reports n s0 s :
  (0 < n)%nat → Z.of_nat (length tasks) < 2 ^ 31 → reaches n s0 s → all_gone s →
  (reports (world s)).*1 ≡ₚ seqZ 1 (Z.of_nat (drain (collected s).*2).1) ∧
  (reports (world s)).*2 ≡ₚ done_paths (collected s).
Proof.
  intros Hn Hmax Hr Hg. pose proof (reaches_progress _ _ _ Hmax Hr) as Hp. pose proof (progress_done_bound _ _ Hp) as Hb.
  destruct Hp as (_ & _ & Hc & Hrep). rewrite (final_ledger _ _ _ _ _ (pos_or_nil _ _ Hn) Hr Hg) in *.
  assert ((answered <$> collected s) ≫= counted = []) as E1.
  { clear. induction (collected s) as [|x l IH]; [done|]. by rewrite fmap_cons, bind_cons, IH. }
  assert ((answered <$> collected s) ≫= reported = done_paths (collected s)) as E2.
  { clear. unfold done_paths. induction (collected s) as [|x l IH]; [done|]. rewrite fmap_cons, !bind_cons, IH. by destruct x as [t []]. }
  rewrite E1, E2 in *. cbn [app length] in *. rewrite done_paths_length, Nat.add_0_l in Hb. by rewrite <- Hb.
Qed.

End Tasks.

(** ** The whole extraction to a directory *)

(** [restoreToDir] with its workers: the space is checked, the tasks enter
    the channel in any order, and the results are looked at when all workers
    have left. *)
Inductive restoreToDir_run (filteredMap : gmap string string) (emptyDirs : list string) (s : rstate) : res unit → rstate → Prop :=
| run_refused r s' : bind (check_space opts md (range filteredMap).*2) (λ _, ret tt) s = (r, s') → (∀ u, r ≠ Ok u) →
    restoreToDir_run filteredMap emptyDirs s r s'
| run_crashed n s1 tasks p r : check_space opts md (range filteredMap).*2 s = (Ok n, s1) → tasks ≡ₚ map_to_list filteredMap →
    reaches restore_routine tasks (Z.to_nat n) (opened s1) p → crashed (world p) = Some r → restoreToDir_run filteredMap emptyDirs s r (rs (world p))
| run_ended n s1 tasks p r s' : check_space opts md (range filteredMap).*2 s = (Ok n, s1) → tasks ≡ₚ map_to_list filteredMap →
    reaches restore_routine tasks (Z.to_nat n) (opened s1) p → all_gone restore_routine p → conclude opts (length tasks) (collected p).*2 emptyDirs (rs (world p)) = (r, s') →
    restoreToDir_run filteredMap emptyDirs s r s'.

Lemma concurrency_pos : 0 < concurrency opts.
Proof. unfold concurrency. destruct (Z.leb_spec (ro_Concurrency opts) 0); lia. Qed.

Lemma check_space_pos keys s n s' : check_space opts md keys s = (Ok n, s') → 0 < n.
Proof.
  pose proof concurrency_pos. unfold check_space. intros [(a & s1 & _ & H1)|(r1 & _ & _ & Hn & _)]%bind_inv; [|by destruct (Hn n)].
  apply bind_inv in H1 as [(f & s2 & _ & H1)|(r1 & _ & _ & Hn & _)]; [|by destruct (Hn n)].
  destruct f as [f|]; [destruct (f <? _); [done|]|]; injection H1 as <- <-; [destruct (f <? _); lia|done].
Qed.

Lemma crash_not_ok tasks n s0 s r : reaches restore_routine tasks n (opened s0) s → crashed (world s) = Some r → ∀ u, r ≠ Ok u.
Proof.
  intros Hr. revert r. refine (world_ind _ tasks (λ w, ∀ r, crashed w = Some r → ∀ u, r ≠ Ok u) n (opened s0) s _ _ Hr); [done|].
  intros l w l' w' Hw [l1 E|t a b rest l1 w1 E Ha E'|l1 t r c E _|l1 w1 E [d _ _ _]]; [done| |done..].
  destruct Ha as [e He|He|r s1 Hx|e|c e| |k]; try done. destruct r as [u|e| |]; cbn; try done; [by destruct (_ && _)|by intros r [= <-]..].
Qed.

(** The files after the workers. *)
Lemma workers_files tasks n s p :
  r_ok s → reaches restore_routine tasks n (opened s) p →
  same_store s (rs (world p)) ∧ restored (view (r_store s)) opts md tasks (d_files (r_disk s)) (d_files (r_disk (rs (world p)))).
Proof. intros Hok Hr. by destruct (reaches_files _ _ _ _ Hok Hr) as (_ & ? & ? & _). Qed.

End Pool.

Section Run.
Context {PR : Proto} {ST : Storage} {RD : PartReader} {DK : Disk} {SL : StorageLaws} {RL : PartReaderLaws} {DL : DiskLaws}.
Context {CK : Chunking} {ZR : ZipReading} {ZW : ZipWriting} {BX : Box} {MR : MapRange}.
Context (opts : RestoreOptions).

(** [RunRestore] with its workers. *)
Inductive RunRestore_run (versionID : Z) (s : rstate) (z : zipw) : res unit → rstate → zipw → Prop :=
| ran_nothing r s' z' : bind (plan_restore versionID opts) (λ _, ret tt) (s, z) = (r, (s', z')) → (∀ u, r ≠ Ok u) →
    RunRestore_run versionID s z r s' z'
| ran_dir md m ds s1 z1 r s' : plan_restore versionID opts (s, z) = (Ok (md, m, ds), (s1, z1)) → ExtractDir opts ≠ "" →
    restoreToDir_run opts md m ds s1 r s' → RunRestore_run versionID s z r s' z1
| ran_zip md m ds s1 z1 r s' z' : plan_restore versionID opts (s, z) = (Ok (md, m, ds), (s1, z1)) → ExtractDir opts = "" →
    restoreToZip opts md m ds (s1, z1) = (r, (s', z')) → RunRestore_run versionID s z r s' z'.

End Run.
