(* ===== verification/RestorePool.v ===== *)
(** What the workers of a restore achieve, in whatever order they run; and
    the restore that takes one task after the other as one of their runs. *)

From Stdlib Require Import Strings.Byte.
From S2P Require Import Prelude Errors GoStrings Keys Digest Metadata TreeWalk Store Client Crypto Upload UploadExample Backup BackupExample Paths DiskSpace Restore RestoreSpec RestoreRun RestoreExample Pool RestoreWorkers.
#[local] Open Scope Z_scope.

Section Simulation.
Context {ST : Storage} {SL : StorageLaws} {RD : PartReader} {RL : PartReaderLaws} {DK : Disk} {DL : DiskLaws}.
Context {CK : Chunking} {ZR : ZipReading} {BX : Box} {MR : MapRange}.
Context (opts : RestoreOptions) (md : BackupMetadata).

(** ** One worker at a time *)

Abbreviation restore_routine := (restore_routine opts md).
Abbreviation task_moves := (task_moves restore_routine).

(** How a computation leaves the pool. *)
Definition ends_as {A} (r : res A) (w : shared) : Prop :=
  match r with Ok _ => crashed w = None | Err _ => False | Panic => crashed w = Some Panic | OutOfFuel => crashed w = Some OutOfFuel end.

Lemma restore_one_moves t w r s' :
  crashed w = None → restore_one opts md t (rs w) = (r, s') →
  ∃ p w', task_moves t (Taken, w) (p, w') ∧ rs w' = s' ∧ ends_as r w' ∧ ∀ x, r = Ok x → p = Answered x.
Proof.
  intros Hc. assert (rt_halted restore_routine w = false) as Hh by by apply halted_crashed.
  unfold restore_one. destruct (worker_err (rs w)) as [e|] eqn:Ew.
  { intros [= <- <-]. eexists _, w. split_and!; [eapply task_move; [done|by apply adv_refuse|reflexivity]|done|done|by intros x [= <-]]. }
  destruct (extractOne opts md t.1 t.2 (rs w)) as [r1 s1] eqn:Ex.
  assert (∀ x, task_moves t (after_extract opts r1 (set_rs s1 w)) x → task_moves t (Taken, w) x) as Hgo.
  { intros x Hx. eapply task_move; [done|by apply adv_begin|]. eapply task_move; [done|by eapply adv_extract|].
    by rewrite <- surjective_pairing. }
  assert (task_moves t (Extracted, set_rs s1 w) (Answered RDone, report (i32 (progressDone w + 1)) t.1 (count (set_rs s1 w)))) as Hdone.
  { eapply task_move; [done|apply adv_count|]. eapply task_move; [done|apply adv_report|reflexivity]. }
  destruct r1 as [u|e| |].
  - intros [= <- <-]. eexists _, _. split_and!; [by apply Hgo|done|done|by intros x [= <-]].
  - cbn in Hgo. destruct (SkipDecryptionErrors opts && isSkippableRestoreError e).
    + intros [= <- <-]. eexists _, _. split_and!; [by apply Hgo|done|done|by intros x [= <-]].
    + intros H. exists (Answered (if cancelled_error e s1 then RCancelled e else RFailed e)), (set_rs (stop s1) w). split_and!.
      * apply Hgo. eapply task_move; [done|apply adv_judge|]. eapply task_move; [done|apply adv_stop|reflexivity].
      * unfold cancelled_error in *. destruct (_ && _); by injection H as _ <-.
      * unfold cancelled_error in *. destruct (_ && _); by injection H as <- _.
      * intros x. unfold cancelled_error in *. destruct (_ && _); injection H as <- _; by intros [= <-].
  - intros [= <- <-]. exists Extracting, (crash Panic (set_rs s1 w)). split_and!; [by apply Hgo|done..].
  - intros [= <- <-]. exists Extracting, (crash OutOfFuel (set_rs s1 w)). split_and!; [by apply Hgo|done..].
Qed.

Section Tasks.
Context (tasks : list restoreTask).
Abbreviation moves := (rtc (pool_moves restore_routine tasks)).

Lemma restore_all_moves k ts w c r s' :
  crashed w = None → tasks ≠ [] → restore_all opts md ts (rs w) = (r, s') →
  ∃ g ts' w' c', moves (single Free k ts w c) (single g k ts' w' c') ∧ rs w' = s' ∧ ends_as r w' ∧
    ∀ l, r = Ok l → g = Free ∧ ts' = [] ∧ c'.*2 = c.*2 ++ l.
Proof.
  intros Hc Hne. revert w c r s' Hc. induction ts as [|t ts IH]; intros w c r s' Hc; cbn [restore_all].
  { intros [= <- <-]. exists Free, [], w, c. split_and!; [done..|]. intros l [= <-]. by rewrite app_nil_r. }
  assert (rt_halted restore_routine w = false) as Hh by by apply halted_crashed.
  pose proof (single_take restore_routine tasks t ts w k c Hh) as Htake.
  unfold bind. destruct (restore_one opts md t (rs w)) as [r1 s1] eqn:E1.
  destruct (restore_one_moves _ _ _ _ Hc E1) as (p & w1 & Hm & Hs1 & He & Hp). apply (single_task restore_routine tasks _ _ _ _ _ k ts c) in Hm.
  assert (Hm1 := transitivity Htake Hm). destruct r1 as [x|e| |]; [|done|..].
  - rewrite (Hp _ eq_refl) in Hm1. cbn in He. subst s1. apply (halted_crashed opts md) in He. pose proof (single_answer restore_routine tasks t x w1 k ts c He Hne) as Hans. apply (halted_crashed opts md) in He.
    destruct (restore_all opts md ts (rs w1)) as [r2 s2] eqn:E2.
    destruct (IH _ (c ++ [(t, x)]) _ _ He E2) as (g & ts' & w' & c' & Hm2 & Hs2 & He2 & Hl).
    intros H. unfold ret in H. exists g, ts', w', c'. split; [by do 2 (etransitivity; [eassumption|])|].
    destruct r2 as [l|e| |]; simplify_eq/=; split_and!; try done; intros l' [= <-].
    destruct (Hl _ eq_refl) as (? & ? & ->). split_and!; [done..|]. rewrite fmap_app. cbn. by rewrite <- app_assoc.
  - intros [= <- <-]. by exists (Busy t p), ts, w1, c.
  - intros [= <- <-]. by exists (Busy t p), ts, w1, c.
Qed.

End Tasks.

(** A restore that takes one task after the other is a run of the workers. *)
Lemma sequential_run order m ds s r s' :
  (∀ l, order l ≡ₚ l) → restoreToDir order opts md m ds s = (r, s') → restoreToDir_run opts md m ds s r s'.
Proof.
  intros Hord. unfold restoreToDir. unfold bind at 1. destruct (check_space opts md (range m).*2 s) as [rc s1] eqn:Ec.
  destruct rc as [n|e| |]; [|intros [= <- <-]; apply run_refused; [by unfold bind; rewrite Ec|done]..].
  assert (order (range m) ≡ₚ map_to_list m) as Htasks by by rewrite Hord, range_perm.
  pose proof (check_space_pos _ _ _ _ _ _ Ec) as Hn. destruct (Z.to_nat n) as [|k] eqn:En; [lia|].
  set (tasks := order (range m)) in *. set (w := opened s1).
  assert (start_pool tasks (Z.to_nat n) w = (single Free k tasks w [] : pool restoreTask phase restoreResult shared)) as Hstart by (by rewrite En).
  unfold bind at 1. destruct (restore_all opts md tasks s1) as [ra s2] eqn:Ea.
  assert (∃ g ts' w' c', rtc (pool_moves restore_routine tasks) (single Free k tasks w []) (single g k ts' w' c') ∧ rs w' = s2 ∧ ends_as ra w' ∧
    ∀ l, ra = Ok l → g = Free ∧ ts' = [] ∧ c'.*2 = l) as (g & ts' & w' & c' & Hm & <- & He & Hl).
  { destruct (decide (tasks = [])) as [E0|Hne]; [|by apply restore_all_moves].
    rewrite E0 in *. injection Ea as <- <-. exists Free, [], w, []. split_and!; [done..|]. by intros l [= <-]. }
  rewrite <- Hstart in Hm. destruct ra as [l|e| |]; [|done|..].
  - destruct (Hl _ eq_refl) as (-> & -> & Hc). cbn in He. apply (halted_crashed opts md) in He. destruct (all_leave restore_routine tasks 0 (S k) w' c' He) as (p & Hm2 & Hg & Hw & Hcol).
    intros H. eapply (run_ended _ _ _ _ _ n s1 tasks p); [done|done|unfold reaches; by etransitivity|done|].
    rewrite Hw, Hcol, Hc. replace (length tasks) with (length (range m)); [done|]. unfold tasks. by rewrite Hord.
  - intros [= <- <-]. by apply (run_crashed _ _ _ _ _ n s1 tasks (single g k ts' w' c')).
  - intros [= <- <-]. by apply (run_crashed _ _ _ _ _ n s1 tasks (single g k ts' w' c')).
Qed.

End Simulation.

(** ** Properties *)

Section Properties.
Context {ST : Storage} {SL : StorageLaws} {RD : PartReader} {RL : PartReaderLaws} {DK : Disk} {DL : DiskLaws}.
Context {CK : Chunking} {ZR : ZipReading} {BX : Box} {MR : MapRange}.
Implicit Types (m : gmap string string).

(** What the workers leave behind, in whatever order they ran and whenever
    the caller cancelled. *)
Lemma restoreToDir_run_spec opts md m ds s r s' :
  ExtractDir opts ≠ "" → map_Forall (λ p _, good_path p) m → r_ok s → restoreToDir_run opts md m ds s r s' →
  same_store s s' ∧ restored (view (r_store s)) opts md (map_to_list m) (d_files (r_disk s)) (d_files (r_disk s')) ∧
  (∀ u, r = Ok u → SkipDecryptionErrors opts = false → ∀ p k, m !! p = Some k →
     in_place opts md p k (d_files (r_disk s)) (d_files (r_disk s'))).
Proof.
  intros Hdir Hgood Hok [r1 s1 H Hno|n s1 tasks p r1 Hc Et Hr Hcr|n s1 tasks p r1 s2 Hc Et Hr Hg H].
  - apply bind_inv in H as [(n & s2 & Hc & [= <- <-])|(r2 & Hc & _ & Hn & _)]; [by destruct (Hno tt)|].
    apply check_space_spec in Hc as [Hs Hf]%calm_same_store; [|done]. split_and!; [done|by apply restored_refl|].
    intros u Hu. by apply Hn in Hu.
  - apply check_space_spec in Hc as [Hs Hf]%calm_same_store; [|done].
    destruct (workers_files _ _ _ _ _ _ (proj1 Hs) Hr) as [Hs2 Hres]. rewrite (proj2 Hs), Hf in Hres.
    split_and!; [by eapply same_store_trans|eapply restored_mono; [|exact Hres]; intros x; by rewrite Et|].
    intros u Hu. by apply (crash_not_ok _ _ _ _ _ _ _ Hr Hcr) in Hu.
  - pose proof (check_space_pos _ _ _ _ _ _ Hc) as Hn.
    apply check_space_spec in Hc as [Hs Hf]%calm_same_store; [|done].
    destruct (reaches_files _ _ _ _ _ _ (proj1 Hs) Hr) as (_ & Hs2 & Hres & Hin). rewrite (proj2 Hs), Hf in Hres.
    apply conclude_spec in H as [[Hs3 Hf3]%calm_same_store Hdone]; [|apply Hs2]. rewrite Hf3.
    split_and!; [by do 2 (eapply same_store_trans; [eassumption|])|eapply restored_mono; [|exact Hres]; intros x; by rewrite Et|].
    intros u Hu Hskip q k Hq. specialize (Hdone _ Hu).
    assert (Z.to_nat n = 0%nat → tasks = []) as Hn0 by lia.
    pose proof (final_tasks _ _ _ _ _ Hn0 Hr Hg) as Hft.
    assert ((q, k) ∈ (collected p).*1) as ([t x] & Et1 & Hx)%list_elem_of_fmap by (rewrite Hft, Et; by apply elem_of_map_to_list).
    cbn in Et1. subst t.
    assert (x = RDone) as ->.
    { apply (drain_all (collected p).*2); [|apply list_elem_of_fmap; by exists ((q, k), x)].
      rewrite Hdone, length_fmap, <- Hft. by rewrite length_fmap. }
    rewrite <- Hf. refine (proj2 (Hin Hdir _ _ _ (q, k) (Answered RDone) _) Hskip I).
    + rewrite Et. apply NoDup_fst_map_to_list.
    + rewrite Et. apply Forall_forall. intros y ([y' z] & -> & Hy%elem_of_map_to_list)%list_elem_of_fmap. by apply (Hgood _ _ Hy).
    + eapply halted_crashed, Hg.
    + rewrite (final_ledger _ _ _ _ _ Hn0 Hr Hg). apply list_elem_of_fmap. by exists ((q, k), RDone).
Qed.

Context {PR : Proto} {ZW : ZipWriting}.

Lemma on_r_inv {A} (c : M rstate A) s z r s' z' : on_r c (s, z) = (r, (s', z')) → c s = (r, s') ∧ z' = z.
Proof. unfold on_r. cbn [fst snd]. destruct (c s) as [r1 s1]. by intros [= <- <- <-]. Qed.

(** A run is planned, and then goes to a directory or to an archive. *)
Lemma planned_run opts v s z r s' z' (dir : BackupMetadata → gmap string string → list string → rstate → res unit * rstate) :
  (∀ md m ds s1 r s', dir md m ds s1 = (r, s') → ExtractDir opts ≠ "" → restoreToDir_run opts md m ds s1 r s') →
  (let* plan := plan_restore v opts in
   let '(md, m, ds) := plan in
   if negb (bool_decide (ExtractDir opts = "")) then on_r (dir md m ds) else restoreToZip opts md m ds) (s, z) = (r, (s', z')) →
  RunRestore_run opts v s z r s' z'.
Proof.
  intros Hdir. unfold bind. destruct (plan_restore v opts (s, z)) as [[[[md m] ds]|e| |] [s1 z1]] eqn:Ep.
  2-4: intros [= <- <- <-]; apply ran_nothing; [unfold bind; by rewrite Ep|done].
  case_bool_decide as Hd; cbn [negb].
  - intros H. by eapply ran_zip.
  - intros [H ->]%on_r_inv. eapply ran_dir; [done..|]. by apply Hdir.
Qed.

Lemma RunRestore_is_run order v opts s z r s' z' :
  (∀ l, order l ≡ₚ l) → RunRestore order v opts (s, z) = (r, (s', z')) → RunRestore_run opts v s z r s' z'.
Proof. intros Hord. apply planned_run. intros. by eapply sequential_run. Qed.

Context {CL : ContextLaws}.

Lemma RunRestore_runs opts v s z : ∃ r s' z', RunRestore_run opts v s z r s' z'.
Proof.
  destruct (RunRestore id v opts (s, z)) as [r [s' z']] eqn:E. exists r, s', z'. by apply (RunRestore_is_run id).
Qed.

(** C14. The workers of a restore always finish: from every state they can get
    into, in any order and whenever the caller cancels, they take a bounded
    number of further steps, some step is possible until all of them have left
    and all results are collected (or a goroutine has panicked), and that end
    can be reached.  So every restore has an outcome. *)
Theorem restore_workers_terminate opts md tasks n s p :
  reaches (restore_routine opts md) tasks n (opened s) p →
  (∀ k p', nsteps (pool_moves (restore_routine opts md) tasks) k p p' → (k ≤ moves_left opts md p)%nat) ∧
  (crashed (world p) = None → ¬ all_gone (restore_routine opts md) p → ∃ p', pool_moves (restore_routine opts md) tasks p p') ∧
  (∃ p', rtc (pool_moves (restore_routine opts md) tasks) p p' ∧ (all_gone (restore_routine opts md) p' ∨ crashed (world p') ≠ None)) ∧
  ∀ v s0 z0, ∃ r s' z', RunRestore_run opts v s0 z0 r s' z'.
Proof.
  intros Hr. split_and!; [intros k p'; apply moves_bounded; [exact (restore_decreases opts md tasks)|by eapply ledger_tasks]|intros; by eapply restore_not_stuck|by eapply restore_ends|].
  intros. apply RunRestore_runs.
Qed.

(** C13. What the caller learns from a finished pool: there is exactly one
    result for every task. Unless the caller has cancelled, either all tasks are
    done, or the error that is returned is one that the extraction of some task has
    returned at some moment of the run, when the context of the workers had not
    ended yet, or one that is not the error of a cancelled context: it is never a
    cancellation that only followed another failure. And the progress callback was
    called once for each finished task, with the numbers from one to the count of
    finished tasks. *)
Theorem restore_workers_report opts md tasks n s p :
  (0 < n)%nat → stopped s = false → reaches (restore_routine opts md) tasks n (opened s) p → all_gone (restore_routine opts md) p →
  let out := (collected p).*2 in
  (collected p).*1 ≡ₚ tasks ∧
  (os_ctx_Err (r_disk (rs (world p))) = None → (drain out).1 = length tasks ∨ ∃ e, (drain out).2 = Some e ∧
     ∃ t q, reaches (restore_routine opts md) tasks n (opened s) q ∧ rtc (pool_moves (restore_routine opts md) tasks) q p ∧
       (t, Broken e) ∈ ledger (restore_routine opts md) q ∧ (∃ s1 s2, extractOne opts md t.1 t.2 s1 = (Err e, s2)) ∧
       (worker_err (rs (world q)) = None ∨ errors_Is e CtxCanceled = false)) ∧
  (Z.of_nat (length tasks) < 2 ^ 31 →
     (reports (world p)).*1 ≡ₚ seqZ 1 (Z.of_nat (drain out).1) ∧ (reports (world p)).*2 ≡ₚ done_paths (collected p)).
Proof.
  intros Hn Hs Hr Hg. cbv zeta. split_and!; [eapply final_tasks; [by apply pos_or_nil|done..]|intros; by eapply final_cause|intros; by eapply final_reports].
Qed.

End Properties.

(** ** Two workers, for evaluation *)

Module PoolRun.

Existing Instances BackupExample.world BackupExample.chunking ToyZip.zip ToyZip.zip_laws ToyBox.box some_range Mem.storage Mem.laws.
Existing Instances ToyDisk.disk ToyDisk.laws ToyReader.reading ToyReader.parts ToyReader.part_laws.

Lemma toy_context : @ContextLaws ToyDisk.disk.
Proof. split; by intros. Qed.

(** A part that is wanted at two paths where there is a file that must be
    kept. *)
Definition opts : RestoreOptions :=
  {| has_ZipWriter := false; ExtractDir := "/out"; PrivateKey := replicate 32 x07; NewPassword := "";
     SkipDecryptionErrors := false; SkipValidationErrors := false; FilesToRestore := []; ro_FilterFunc := None;
     ro_Concurrency := 2; NoOverwrite := true |}.
Definition md : BackupMetadata := RestoreExample.uploaded_md.
Definition key : string := RestoreExample.source_key.
Definition start : rstate := RestoreExample.later.
Definition tasks : list restoreTask := [("docs/copy.txt", key); ("docs/./copy.txt", key)].

(** Two workers pass the check, the second is counted first but reports
    last. *)
Ltac settle := unfold set_crew, set_queue, set_world, send_result, collect, set_rs, count, report; cbn -[extractOne start i32].
Tactic Notation "next" uconstr(c) := settle; eapply rtc_l; [split; [reflexivity|eapply c; try reflexivity]|].
Tactic Notation "work" constr(i) uconstr(c) := next (move_work _ _ _ i); [eapply c; try reflexivity|].
Tactic Notation "extract" constr(i) tactic3(tac) := next (move_work _ _ _ i); [eapply (adv_extract _ _ _ _ (Ok tt) start); tac|].

Abbreviation rt := (restore_routine opts md).

Lemma interleaved : ∃ p, reaches rt tasks 2 (opened start) p ∧ all_gone rt p ∧
  reports (world p) = [(2, "docs/copy.txt"); (1, "docs/./copy.txt")] ∧ (drain (collected p).*2).1 = 2%nat.
Proof.
  assert (∀ t, t ∈ tasks → extractOne opts md t.1 t.2 start = (Ok tt, start)) as Hx.
  { intros t Ht. repeat (apply elem_of_cons in Ht as [->|Ht]; [vm_compute; reflexivity|]). by apply elem_of_nil in Ht. }
  eexists. split; [unfold reaches|].
  - next (move_take _ _ _ 0). next (move_take _ _ _ 1).
    work 0%nat adv_begin. work 1%nat adv_begin.
    extract 0%nat (apply Hx; by left). extract 1%nat (apply Hx; by right; left).
    work 1%nat adv_count. work 0%nat adv_count. work 0%nat adv_report. work 1%nat adv_report.
    next (move_answer _ _ _ 1); [cbn; lia|]. next (move_answer _ _ _ 0); [cbn; lia|].
    next move_collect. next (move_leave _ _ _ 0). next (move_leave _ _ _ 1). next move_collect. settle. reflexivity.
  - split; [split; [|split]|split]; cbn -[start key]; repeat constructor.
Qed.

End PoolRun.

Section Witnesses.
Import PoolRun.
#[local] Existing Instances BackupExample.world BackupExample.chunking ToyZip.zip ToyZip.zip_laws ToyBox.box some_range Mem.storage Mem.laws.
#[local] Existing Instances ToyDisk.disk ToyDisk.laws ToyReader.reading ToyReader.parts ToyReader.part_laws toy_context.
#[local] Existing Instances BackupExample.proto ToyArchive.writing.

Lemma restore_workers_terminate_witness :
  let p := start_pool tasks 2 (opened start) in
  (∀ k p', nsteps (pool_moves rt tasks) k p p' → (k ≤ 18)%nat) ∧ ∃ p', pool_moves rt tasks p p'.
Proof.
  intros p. destruct (restore_workers_terminate opts md tasks 2 start p (rtc_refl _ _)) as (Hb & Hs & _ & _).
  split; [exact Hb|]. apply Hs; [reflexivity|]. intros (_ & Hg & _). inversion Hg. discriminate.
Defined.

Lemma restore_workers_report_witness :
  ∃ p, all_gone rt p ∧ (collected p).*1 ≡ₚ tasks ∧ (reports (world p)).*1 ≡ₚ [1; 2] ∧
    reports (world p) = [(2, "docs/copy.txt"); (1, "docs/./copy.txt")].
Proof.
  destruct interleaved as (p & Hr & Hg & Hrep & Hdone). exists p. split; [exact Hg|].
  destruct (restore_workers_report opts md tasks 2 start p ltac:(lia) eq_refl Hr Hg) as (Ht & _ & Hnum).
  split; [exact Ht|]. split; [|exact Hrep]. destruct (Hnum eq_refl) as [H _]. rewrite Hdone in H. exact H.
Defined.

End Witnesses.
