(* ===== verification/RestoreProps.v ===== *)
(** The properties of a restore: what a run leaves in a directory or in an
    archive, which failures may be skipped, and that restoring gives back what
    a backup read. *)

From Stdlib Require Import Strings.Byte.
From S2P Require Import Prelude Errors GoStrings Keys Digest Metadata ProtoExample TreeWalk TreeResolve Store Client Crypto Upload Backup BackupSpec BackupExample BackupProps Paths Restore RestoreSpec RestoreRun RestoreExample RestoreWorkers RestorePool.
#[local] Open Scope Z_scope.

(** ** A run *)

Section Run.
Context {PR : Proto} {ST : Storage} {SL : StorageLaws} {RD : PartReader} {RL : PartReaderLaws} {DK : Disk} {DL : DiskLaws}.
Context {CK : Chunking} {ZR : ZipReading} {ZW : ZipWriting} {BX : Box} {MR : MapRange}.

(** The files and directories that a run restores. *)
Definition selection (opts : RestoreOptions) (v : Z) (s : rstate) (md : BackupMetadata)
    (files : gmap string string) (dirs : list string) : Prop :=
  stored_md (r_store s) md ∧ ∃ resolved, ResolveVersionTree md v (SkipValidationErrors opts) = Ok resolved ∧
    files = select_files opts resolved.1 ∧ dirs = select_dirs opts resolved.2.

Lemma select_files_good opts m : map_Forall (λ p _, good_path p) m → map_Forall (λ p _, good_path p) (select_files opts m).
Proof. intros H p k [Hp _]%map_lookup_filter_Some. by apply (H _ _ Hp). Qed.

(** The plan of a run touches nothing. *)
Lemma plan_restore_spec v opts s z r s' z' :
  r_ok s → plan_restore v opts (s, z) = (r, (s', z')) →
  calm s s' ∧ z' = z ∧ ∀ md m ds, r = Ok (md, m, ds) → selection opts v s md m ds ∧ map_Forall (λ p _, good_path p) m.
Proof.
  intros Hok. unfold plan_restore. unfold bind at 1, z_ctx_Err at 1. cbn [fst snd]. pose proof (calm_refl s Hok) as Hc.
  destruct (os_ctx_Err (r_disk s)); [by intros [= <- <- <-]|].
  destruct (_ && _); [by intros [= <- <- <-]|]. destruct (_ && _); [by intros [= <- <- <-]|].
  intros [(md & [s1 z1] & [(Hl & Ed & _)%on_dest_inv ->]%on_r_inv & H)|(r1 & [(Hl & Ed & _)%on_dest_inv ->]%on_r_inv & _ & Hn & _)]%bind_inv;
    (destruct (loadMetadata_spec _ _ _ (proj1 Hok) Hl) as (Hi & Hv & _ & Hmd & _)).
  2:{ split_and!; [unfold calm, r_ok; rewrite Ed; split_and!; try done; apply Hok|done|]. intros md m ds Hr. by apply Hn in Hr. }
  assert (calm s s1) as Hc1 by (unfold calm, r_ok; rewrite Ed; split_and!; try done; apply Hok).
  apply bind_inv in H as [(resolved & [s2 z2] & [= Hr <- <-] & [= <- <- <-])|(r1 & [= _ <- <-] & _ & Hn & _)];
    split_and!; try done; intros md' m ds E; [|by apply Hn in E].
  injection E as <- <- <-. assert (ResolveVersionTree md v (SkipValidationErrors opts) = Ok resolved) as Hres
    by (destruct (ResolveVersionTree _ _ _); congruence).
  split; [|apply select_files_good; by eapply ResolveVersionTree_good]. split; [by apply Hmd|]. by exists resolved.
Qed.

(** A run stops before it has touched anything, or restores a selection. *)
Lemma RunRestore_inv v opts s z r s' z' :
  r_ok s → RunRestore_run opts v s z r s' z' →
  (calm s s' ∧ z' = z ∧ ∀ u, r ≠ Ok u) ∨
  ∃ md m ds s1, calm s s1 ∧ selection opts v s md m ds ∧ map_Forall (λ p _, good_path p) m ∧
    (ExtractDir opts ≠ "" ∧ restoreToDir_run opts md m ds s1 r s' ∧ z' = z ∨
     ExtractDir opts = "" ∧ restoreToZip opts md m ds (s1, z) = (r, (s', z'))).
Proof.
  intros Hok [r1 s1 z1 H Hn|md m ds s1 z1 r1 s2 Hp Hdir H|md m ds s1 z1 r1 s2 z2 Hp Hdir H].
  - left. apply bind_inv in H as [(x & [s2 z2] & Hp & [= <- <- <-])|(r2 & Hp & _)]; [by destruct (Hn tt)|].
    by destruct (plan_restore_spec _ _ _ _ _ _ _ Hok Hp) as (? & ? & _).
  - right. destruct (plan_restore_spec _ _ _ _ _ _ _ Hok Hp) as (Hc & -> & Hsel). destruct (Hsel _ _ _ eq_refl).
    exists md, m, ds, s1. split_and!; [done..|]. by left.
  - right. destruct (plan_restore_spec _ _ _ _ _ _ _ Hok Hp) as (Hc & -> & Hsel). destruct (Hsel _ _ _ eq_refl).
    exists md, m, ds, s1. split_and!; [done..|]. by right.
Qed.

(** C6. A restore to a directory, however its workers are scheduled and
    whenever the caller cancels, leaves the storage as it is and writes files
    below the directory only, in every outcome: each file that has changed is
    the output path of a selected path, and its content is that of the part
    of the file's key, with the recorded length and CRC-32.  When the run
    returns without an error and decryption errors are not skipped, every
    selected file is in place with the recorded length and CRC-32, or, if files
    must not be overwritten, its place is as it was before and there was a regular
    file there, or something else that os.Stat has found there. *)
Theorem RunRestore_dir v opts s z r s' z' :
  ExtractDir opts ≠ "" → r_ok s → RunRestore_run opts v s z r s' z' →
  let f := d_files (r_disk s) in let f' := d_files (r_disk s') in
  z' = z ∧ r_ok s' ∧ view (r_store s') = view (r_store s) ∧
  (f' = f ∧ (∀ u, r ≠ Ok u) ∨
   ∃ md m ds, selection opts v s md m ds ∧
     (∀ p, f' !! p = f !! p ∨ ∃ path key record c, m !! path = Some key ∧
        cleaned p = ((cleaned (ExtractDir opts)).1, (cleaned (ExtractDir opts)).2 ++ Split path slash) ∧
        Files md !! key = Some record ∧ content_of (view (r_store s)) opts record key c ∧ f' !! p = Some c) ∧
     (∀ u, r = Ok u → SkipDecryptionErrors opts = false → ∀ path key, m !! path = Some key →
        in_place opts md path key f f')).
Proof.
  intros Hdir Hok H f f'.
  destruct (RunRestore_inv _ _ _ _ _ _ _ Hok H) as [((? & ? & ?) & -> & ?)|(md & m & ds & s1 & Hc & Hsel & Hgood & Hcase)];
    [split_and!; [done..|by left]|]. destruct Hcase as [(_ & Hd & ->)|[? _]]; [|done].
  destruct Hc as (Hok1 & V1 & F1). destruct (restoreToDir_run_spec _ _ _ _ _ _ _ Hdir Hgood Hok1 Hd) as ([Hok' V'] & Hres & Hin). rewrite F1 in Hin.
  split_and!; [done|done|congruence|]. right. exists md, m, ds. split_and!; [done| |done].
  intros p. specialize (Hres p). rewrite F1, V1 in Hres. destruct Hres as [?|(path & key & rec & c & Hp%elem_of_map_to_list & Ho & ? & ? & ?)]; [by left|right].
  exists path, key, rec, c. split_and!; try done.
  destruct (safeJoin_accepts (ExtractDir opts) path Hdir (Hgood _ _ Hp)) as [E1 E2]. congruence.
Qed.


End Run.

(** ** Errors *)

Definition is_ctx (e : error) : bool := errors_Is e CtxCanceled || errors_Is e CtxDeadlineExceeded.

(** An error without a cancellation below it. *)
Lemma skippable_of e :
  is_ctx e = false →
  isSkippableRestoreError e = errors_Is e ErrDecryptionFailed || errors_Is e ErrCorruptPart ||
       errors_Is e ErrPrivateKeyRequired || errors_Is e ErrUnsupportedMethod.
Proof. unfold is_ctx, isSkippableRestoreError. by intros ->. Qed.

(** Wrapping an error changes neither. *)
Lemma errors_Is_one m e t : errors_Is (Errorf m [e]) t = errors_Is e t.
Proof. simpl. apply orb_false_r. Qed.
Lemma errors_Is_two m s e t : errors_Is (Errorf m [ESentinel s; e]) t = bool_decide (s = t) || errors_Is e t.
Proof. simpl. by rewrite orb_false_r. Qed.

(** [DecryptPassword] reports a sentinel. *)
Lemma DecryptPassword_flat {BX : Box} sealed eph priv e :
  DecryptPassword sealed eph priv = Err e → ∃ s m, e = wrap1 s m ∧ (s = ErrDecryptionFailed ∨ s = ErrInvalidOptions).
Proof. unfold DecryptPassword. repeat case_match; intros [= <-]; eexists _, _; (split; [reflexivity|auto]). Qed.

(** C15. Which failures [SkipDecryptionErrors] passes over: every failure to
    find the password of a part and every header that cannot be read by this
    code, as well as a part whose content does not decode or that needs
    another password; never one that comes from a cancelled context, and never
    a failure to read the part or to write the output, unless the error below
    it can itself be skipped. *)
Theorem restore_skips {BX : Box} record key priv fh password partKey :
  (∀ e, decryptPartPassword record priv key = Err e → isSkippableRestoreError e = true) ∧
  (∀ e, checkPartHeader fh password partKey = Err e → isSkippableRestoreError e = true) ∧
  (∀ e, isSkippableRestoreError e = true → is_ctx e = false) ∧
  (∀ e, is_ctx e = false → isSkippableRestoreError (classifyPartError e None None) = true) ∧
  (∀ e src dst, is_Some src ∨ is_Some dst →
     isSkippableRestoreError (classifyPartError e src dst) = isSkippableRestoreError e).
Proof.
  split_and!.
  - intros e. unfold decryptPartPassword. destruct (blen _ =? 0); [done|]. destruct (blen priv =? 0); [by intros [= <-]|].
    destruct (DecryptPassword _ _ _) as [|e1| |] eqn:E; intros H; simplify_eq.
    apply DecryptPassword_flat in E as (s & m & -> & [-> | ->]); simplify_eq/=; done.
  - intros e. unfold checkPartHeader. repeat case_match; intros [= <-]; done.
  - intros e. unfold isSkippableRestoreError, is_ctx. by destruct (errors_Is e CtxCanceled || _).
  - intros e [H1 H2]%orb_false_iff. unfold classifyPartError, isSkippableRestoreError.
    destruct (errors_Is e ZipErrPassword); rewrite !errors_Is_two, H1, H2; cbn; by rewrite ?orb_true_r.
  - intros e src dst Hs. unfold classifyPartError, isSkippableRestoreError.
    destruct dst; [|destruct src; [|by destruct Hs as [[]|[]]]]; by rewrite !errors_Is_one.
Qed.

(** ** From the backup to the restore *)

Section Roundtrip.
Context {ST : Storage} {SL : StorageLaws} {SW : SourceWorld} {CK : Chunking} {ZP : ZipParts}.
Context {RD : PartReader} {RL : PartReaderLaws} {DK : Disk} {DL : DiskLaws} {ZR : ZipReading} {ZB : ZipRoundtrip}.
Context {BX : Box} {BL : BoxLaws}.

(** The parts of the run can be opened by the owner of [priv]: they have no
    password, or one that was sealed for the matching public key. *)
Definition opens (run : backupRun) (priv : bytes) : Prop :=
  clearZipPass run = "" ∧ encryptedZipPass run = [] ∨
  clearZipPass run ≠ "" ∧ blen priv = 32 ∧ blen (ephPubKey run) = 32 ∧ ∃ vmPub ephPriv nonce,
    key_pair vmPub priv ∧ key_pair (ephPubKey run) ephPriv ∧ blen nonce = 24 ∧
    EncryptPassword (Ok (ephPubKey run, ephPriv)) (Ok nonce) (clearZipPass run) vmPub = Ok (ephPubKey run, encryptedZipPass run).

Lemma opens_password run priv entry crc size comp key :
  opens run priv → decryptPartPassword (new_record run entry crc size comp) priv key = Ok (default "" (password_of run)).
Proof.
  unfold decryptPartPassword, password_of. cbn [EncryptedZipPassword EphemeralPublicKey new_record].
  intros [[-> ->]|(Hne & Hp & He & vmPub & ephPriv & nonce & Hk1 & Hk2 & Hn & Henc)]; [done|].
  destruct (sealed_opens _ _ _ _ _ _ _ _ Hk1 Hk2 Hp He Hn Henc) as (_ & Hlen & Hdec).
  rewrite (proj2 (Z.eqb_neq _ 0)) by (unfold str_len in *; lia). rewrite Hp. cbn [Z.eqb]. rewrite Hdec.
  by rewrite bool_decide_eq_false_2.
Qed.

Lemma i64_nonneg z : is_u64 z → 0 ≤ i64 z → i64 z = z.
Proof.
  unfold is_u64. intros Hz Hn. destruct (Z.le_gt_cases z max_int64) as [?|?].
  - apply i64_id. unfold is_i64, min_int64 in *. lia.
  - rewrite i64_wrap in * by (unfold max_int64 in *; lia). lia.
Qed.

Lemma zip_object_close create cs out fh : zip_object create cs = Ok (out, fh) → ∃ z b, part_Close z = Ok (b, fh).
Proof.
  unfold zip_object. intros (h & _ & (x & _ & ([t fh1] & Hc & [= _ <-])%obind_Ok)%obind_Ok)%obind_Ok. eauto.
Qed.

(** C5. Restoring gives back what the backup has read: when the upload of a
    source that is compressed here succeeds with a record, and later the part
    is extracted with that record and the matching private key to a path where
    there was no file, the file has exactly the bytes that the source
    delivered to the backup, whatever happened to other objects of the
    storage and other files of the disk in the meantime. *)
Theorem upload_extract_roundtrip run key entry s rec s' opts md path t t' pk :
  inv (b_store s) → content_key key → partKeyFor key = Ok pk →
  IsEncryptedRaw entry = false → OpenRawCompressed entry = None →
  uploadPart run key entry s = (Ok rec, s') → opens run (PrivateKey opts) →
  r_ok t → view (r_store t) !! pk = view (b_store s') !! pk → Files md !! key = Some rec → NoOverwrite opts = false →
  (∀ out, safeJoin (ExtractDir opts) path = Ok out → d_files (r_disk t) !! out = None) →
  extractOne opts md path key t = (Ok tt, t') →
  ∃ open content x out, opener entry = Some open ∧ open (b_src s) = (Ok (content, None), x) ∧
    safeJoin (ExtractDir opts) path = Ok out ∧ d_files (r_disk t') = <[out := content]> (d_files (r_disk t)).
Proof.
  intros Hi Hck Hpk Hraw Hcomp Hup Hopen Hok Hsame Hrec Hno Hnew Hx.
  destruct (content_key_part _ Hck) as (pk' & Hpk' & Hrel). assert (pk' = pk) as -> by congruence.
  destruct (uploadPart_spec _ _ _ _ _ _ _ Hi Hpk Hrel Hup) as (_ & _ & [[_ []%(λ f, f rec eq_refl)]|[_ Hdone]]).
  destruct (Hdone _ eq_refl) as (open & [content e] & x & m & l & out & crc & size & comp & Ho & Hsrc & He & Hobj & Hv & -> & _).
  cbn [snd fst] in *. subst e. rewrite Hv, lookup_insert_eq in Hsame.
  destruct (extractOne_spec _ _ _ _ _ _ _ Hok Hx) as (_ & _ & Hext & Hin). specialize (Hin _ eq_refl).
  destruct Hin as (p & rec' & Hp & Hrec' & [[? _]|(c' & Hc' & _)]); [congruence|].
  destruct Hext as [Hf|(p' & rec1 & c & Hp' & Hrec1 & Hcont & Hf)]; [rewrite Hf, (Hnew _ Hp) in Hc'; done|].
  rewrite Hp in Hp'. injection Hp' as <-. rewrite Hrec in Hrec1. injection Hrec1 as <-.
  enough (c = content) as -> by (by exists open, content, x, p). clear Hf Hc' Hx Hnew Hup Hdone Hrec Hrec' Hp.
  destruct Hcont as (_ & pw & pk1 & b & e & fh & src & saw & Hpw & Hpk1 & Hpre & Hhead & _ & Hdec).
  rewrite (opens_password _ _ _ _ _ _ _ Hopen) in Hpw. injection Hpw as <-. assert (pk1 = pk) as -> by congruence. destruct (Hpre Hrel) as (whole & Hw & Hpre').
  rewrite Hsame in Hw. injection Hw as <-. unfold part_object in Hobj. rewrite Hraw, Hcomp in Hobj.
  apply obind_Ok in Hobj as ([out1 fh1] & Hz & [= -> <- <- <-]). cbn [fst snd] in *.
  destruct (zip_object_close _ _ _ _ Hz) as (z & zb & Hcl%part_Close_size).
  destruct Hdec as (Hpe & Hlen & Hde & ->). cbn [CompressedSize new_record] in *.
  assert (i64 (fh_CompressedSize64 fh1) = fh_CompressedSize64 fh1) as Hsz by (apply i64_nonneg; [done|rewrite <- Hlen; unfold blen; lia]).
  rewrite Hsz in *. rewrite <- (chunks_concat content). by eapply (zip_reads_back _ _ _ _ _ _ _ _ _ Hz Hpre' Hhead).
Qed.

End Roundtrip.

(** ** Witnesses *)

Section Witnesses.
Import RestoreExample.

Lemma RunRestore_dir_witness :
  let o := opts "/out" false in let out := run o [] [] in
  out.1 = Ok tt ∧ r_ok out.2.1 ∧ ∃ md m ds, selection o 79 (start []) md m ds ∧
    ∀ path key, m !! path = Some key → in_place o md path key (d_files (r_disk (start []))) (d_files (r_disk out.2.1)).
Proof.
  intros o out. assert (out.1 = Ok tt) as Hout by (vm_compute; reflexivity). split; [exact Hout|].
  destruct (RunRestore_dir 79 o (start []) (archive []) out.1 out.2.1 out.2.2
    ltac:(discriminate) (start_ok [])) as (_ & Hok & _ & Hcase).
  - apply (RunRestore_is_run reverse); [exact reverse_Permutation|]. unfold out, run. by destruct (RunRestore _ _ _ _) as [r [s z]].
  - split; [exact Hok|]. destruct Hcase as [[_ Hno]|(md & m & ds & Hsel & _ & Hin)]; [by destruct (Hno tt)|].
    exists md, m, ds. split; [exact Hsel|]. exact (Hin tt Hout eq_refl).
Defined.


#[local] Existing Instance ToyReader.roundtrip.
#[local] Existing Instance ToyBox.box_laws.

Lemma upload_extract_roundtrip_witness :
  let o := opts "/out" false in let out := extractOne o uploaded_md "docs/new.txt" source_key later in
  uploaded.1 = Ok uploaded_record ∧ out.1 = Ok tt ∧
  ∃ open content x p, opener source = Some open ∧ open (b_src before) = (Ok (content, None), x) ∧
    safeJoin "/out" "docs/new.txt" = Ok p ∧ d_files (r_disk out.2) = <[p := content]> (d_files (r_disk later)).
Proof.
  intros o out. assert (uploaded.1 = Ok uploaded_record) as Hup by (vm_compute; reflexivity).
  assert (out.1 = Ok tt) as Hout by (vm_compute; reflexivity). split; [exact Hup|]. split; [exact Hout|].
  apply (upload_extract_roundtrip sealed_run source_key source before uploaded_record uploaded.2
    o uploaded_md "docs/new.txt" later out.2 (ok_or "" (partKeyFor source_key))).
  - exact I.
  - exists (CRC32.Sum32 (bytes_of_string "hello")), 5. vm_compute. reflexivity.
  - vm_compute. reflexivity.
  - reflexivity.
  - reflexivity.
  - rewrite <- Hup. apply surjective_pairing.
  - right. split; [discriminate|]. split; [reflexivity|]. split; [reflexivity|].
    exists (replicate 32 x07), (replicate 32 x09), (replicate 24 x01).
    split; [reflexivity|]. split; [reflexivity|]. split; [reflexivity|]. vm_compute. reflexivity.
  - split; exact I.
  - reflexivity.
  - vm_compute. reflexivity.
  - reflexivity.
  - intros p Hp. vm_compute in Hp. injection Hp as <-. vm_compute. reflexivity.
  - rewrite <- Hout. apply surjective_pairing.
Defined.

End Witnesses.
