(* ===== verification/EndToEnd.v ===== *)
(** From a source to the disk: a backup run followed by a restore of its
    version. *)

From S2P Require Import Prelude Errors GoStrings Keys Digest Metadata ProtoExample TreeWalk TreeResolve TreeBuild TreeHash Store Client Crypto Upload Backup BackupPool BackupSpec BackupExample BackupProps Paths Restore RestoreSpec RestoreRun RestoreExample RestoreWorkers RestorePool RestoreProps.
#[local] Open Scope Z_scope.

Section EndToEnd.
Context {PR : Proto} {MR : MapRange} {ST : Storage} {SL : StorageLaws} {PL : ProtoLaws}.
Context {SW : SourceWorld} {CK : Chunking} {ZP : ZipParts} {ZL : ZipPartsLaws} {BX : Box}.
Context {RD : PartReader} {RL : PartReaderLaws} {DK : Disk} {DL : DiskLaws} {ZR : ZipReading} {ZW : ZipWriting}.

(** An entry for a file with this content: a CRC-32 and size that it lists are
    those of the content, and reading it to the end gives the content. *)
Definition file_entry (e : SourceEntry) (content : bytes) : Prop :=
  IsEncryptedRaw e = false ∧
  (se_CRC32 e ≠ 0 ∨ Size e = 0 → se_CRC32 e = CRC32.Sum32 content ∧ Size e = blen content) ∧
  ∀ open x b x', Open e = Some open → open x = (Ok (b, None), x') → b = content.

Lemma file_entry_key e content k : file_entry e content → has_key e k → k = fileKeyFor (CRC32.Sum32 content) (blen content).
Proof.
  intros (Hraw & Hlisted & Hopen) (s & s' & H). unfold entry_key in H. rewrite Hraw in H.
  destruct (negb (se_CRC32 e =? 0) || (Size e =? 0)) eqn:E.
  - destruct Hlisted as [E1 E2]; [|by injection H as <- _; rewrite E1, E2].
    apply orb_true_iff in E as [E%negb_true_iff%Z.eqb_neq|E%Z.eqb_eq]; [by left|by right].
  - destruct (Open e) as [open|]; [|done]. apply bind_inv in H as [([b err] & s1 & (Hs & _)%wrap_err_Ok%on_src_inv & H)|(r1 & _ & _ & Hn & _)]; [|by destruct (Hn k)].
    destruct err; [done|]. cbn [fst snd] in H. injection H as <- _. by rewrite (Hopen _ _ _ _ eq_refl Hs).
Qed.

(** The files of a backup that a restore selects. *)
Definition restored_entries (opts : BackupOptions) (ropts : RestoreOptions) (all : list SourceEntry) : list SourceEntry :=
  filter (λ e, kept opts e = true ∧ isDirEntry e = false ∧ keep_file ropts (Path e) = true) all.

Lemma restored_entries_elem opts ropts all e :
  e ∈ restored_entries opts ropts all ↔ keep_file ropts (Path e) = true ∧ e ∈ filter (λ e, kept opts e = true) all ∧ isDirEntry e = false.
Proof. unfold restored_entries. rewrite !list_elem_of_filter. tauto. Qed.

(** C1. A backup followed by a restore gives the files back: when a run over a
    usable store (every stored record filed under its own key, with its part)
    returns a version, and later, the store being as the run left it, that version
    is restored without an error to a directory of the file system, with the
    options NoOverwrite, SkipDecryptionErrors and SkipValidationErrors off, whatever
    the goroutines of both did concurrently, then every file of the source that
    backup and restore select is at its place below the directory, with the length
    and the CRC-32 of the content that the source had for it; and no other file of
    the disk has changed. The entries of the source are plain files, not parts
    encrypted before: what an entry lists as its CRC-32 and size, if it does, is
    that of its content, and reading it to the end gives the content. All that is
    so unless two of the directories gathered have the same SHA-256. *)
Theorem backup_restore env L opts st x v s' ropts t z u t' z' (content : string → bytes) :
  inv st → run_typed L opts → (∀ md, stored_md st md → sound md (view st)) →
  RunBackup_run env L opts (open_run st x) (Ok v) s' →
  (∀ all x1 e, L x = (Ok all, x1) → e ∈ all → isDirEntry e = false → file_entry e (content (Path e))) →
  ExtractDir ropts ≠ "" → NoOverwrite ropts = false →
  SkipDecryptionErrors ropts = false → SkipValidationErrors ropts = false →
  r_ok t → view (r_store t) = view (b_store s') →
  RunRestore_run ropts (SnowflakeId v) t z (Ok u) t' z' →
  run_collision env L opts (open_run st x) ∨
  ∃ all x1, L x = (Ok all, x1) ∧
    (∀ e, e ∈ restored_entries opts ropts all →
       ∃ out c, safeJoin (ExtractDir ropts) (Path e) = Ok out ∧ d_files (r_disk t') !! out = Some c ∧
         blen c = blen (content (Path e)) ∧ CRC32.Sum32 c = CRC32.Sum32 (content (Path e))) ∧
    (∀ p, d_files (r_disk t') !! p = d_files (r_disk t) !! p ∨
       ∃ e, e ∈ restored_entries opts ropts all ∧ safeJoin (ExtractDir ropts) (Path e) = Ok p).
Proof.
  intros Hi Henv Hs HB Hcont Hdir Hno Hsk Hsv Hok Hview HR.
  destruct (RunBackup_listed _ _ _ _ _ _ _ Hi Henv Hs HB) as [?|(all & x1 & md & HL & Hmd & Hver & fs & ds & Hres & Hfs & _ & Hkeys)]; [by left|right].
  destruct (RunRestore_inv _ _ _ _ _ _ _ Hok HR) as [(_ & _ & Hn)|(md1 & m & ds1 & s1 & (Hok1 & V1 & F1) & (Hmd1 & resolved & Hres1 & -> & ->) & Hgood & Hcase)];
    [by destruct (Hn u)|]. destruct Hcase as [(_ & Hd & _)|[? _]]; [|done].
  assert (md1 = md) as -> by (eapply stored_md_inj; [exact Hmd1|eapply stored_md_view; [exact Hview|apply Hok|exact Hmd]]).
  rewrite Hsv, Hres in Hres1. injection Hres1 as <-. cbn [fst snd] in *.
  destruct (restoreToDir_run_spec _ _ _ _ _ _ _ Hdir Hgood Hok1 Hd) as (_ & Hchanged & Hin). rewrite F1 in Hchanged.
  exists all, x1. split_and!; [done| |].
  - intros e (Hkeep & He & Hfile)%restored_entries_elem. destruct (proj2 (Hfs (Path e))) as [k Hk]; [by exists e|].
    destruct (Hin u eq_refl Hsk (Path e) k) as (out & rec & Hout & Hrec & [[? _]|(c & Hc & Hlen & Hcrc)]); [by apply map_lookup_filter_Some|congruence|].
    destruct (Hkeys _ _ Hk) as [(e' & He' & Hpath & Hfile' & Hkey) (rec' & n & Hrec' & Hrk & _)].
    assert (rec' = rec) as -> by congruence. exists out, c. split; [done|]. split; [done|].
    apply list_elem_of_filter in He' as [_ He']. apply (file_entry_key _ _ _ (Hcont _ _ _ HL He' Hfile')) in Hkey.
    rewrite Hpath, <- Hrk, <- Hlen, <- Hcrc in Hkey. by apply fileKeyFor_inj in Hkey as [? ?]; [|apply CRC32.Sum32_u32..].
  - intros p. destruct (Hchanged p) as [?|(path & key & rec & c & Hp%elem_of_map_to_list & Ho & _)]; [by left|right].
    apply map_lookup_filter_Some in Hp as [Hp Hkeep]. destruct (proj1 (Hfs path)) as (e & He & <- & Hfile); [by eexists|].
    exists e. split; [|done]. by apply restored_entries_elem.
Qed.

End EndToEnd.

Section Witness.
Import RestoreExample.

Definition example_content (p : string) : bytes :=
  match find (λ e, bool_decide (Path e = p)) BackupExample.entries with
  | Some e => match Open e with Some open => match (open tt).1 with Ok (b, _) => b | _ => [] end | None => [] end
  | None => []
  end.

Lemma str_len_bytes s : str_len s = blen (bytes_of_string s).
Proof.
  unfold str_len, blen, bytes_of_string. f_equal. unfold String.list_byte_of_string. rewrite length_map.
  induction s; cbn; [done|by f_equal].
Qed.

Lemma example_file p b known : example_content p = bytes_of_string b → (known = false → str_len b ≠ 0) →
  file_entry (BackupExample.entry p b known) (example_content (Path (BackupExample.entry p b known))).
Proof.
  intros E Hb. change (Path _) with p. rewrite E. split; [done|]. split.
  - intros [H|H]; (split; [|apply str_len_bytes]); destruct known; [done|done|done|]. by destruct (Hb eq_refl).
  - intros open x c x' [= <-]. by intros [= <- _].
Qed.

Lemma example_entries e : e ∈ BackupExample.entries → isDirEntry e = false → file_entry e (example_content (Path e)).
Proof.
  revert e. rewrite <- Forall_forall. unfold BackupExample.entries.
  repeat (apply Forall_cons; split; [first [by intros _; apply example_file; [vm_compute; reflexivity|vm_compute; discriminate]|by vm_compute]|]).
  by apply Forall_nil.
Qed.

Lemma backup_restore_witness :
  let o := opts "/out" false in let out := run o [] [] in
  out.1 = Ok tt ∧ (run_collision BackupExample.env BackupExample.listing (BackupExample.opts false) (open_run (BackupExample.initial []) tt) ∨
  ∃ all x1, BackupExample.listing tt = (Ok all, x1) ∧
    (∀ e, e ∈ restored_entries (BackupExample.opts false) o all →
       ∃ p c, safeJoin "/out" (Path e) = Ok p ∧ d_files (r_disk out.2.1) !! p = Some c ∧
         blen c = blen (example_content (Path e)) ∧ CRC32.Sum32 c = CRC32.Sum32 (example_content (Path e))) ∧
    (∀ p, d_files (r_disk out.2.1) !! p = d_files (r_disk (start [])) !! p ∨
       ∃ e, e ∈ restored_entries (BackupExample.opts false) o all ∧ safeJoin "/out" (Path e) = Ok p)).
Proof.
  intros o out. assert (out.1 = Ok tt) as Hout by (vm_compute; reflexivity). split; [exact Hout|].
  apply (backup_restore BackupExample.env BackupExample.listing (BackupExample.opts false) (BackupExample.initial []) tt
    (BackupExample.version false) (BackupExample.run false []).2 o (start []) (archive []) tt out.2.1 out.2.2 example_content).
  - exact I.
  - apply BackupExample.typed_run.
  - apply BackupExample.sound_.
  - assert ((BackupExample.run false []).1 = Ok (BackupExample.version false)) as E by (vm_compute; reflexivity). rewrite <- E. apply BackupExample.is_run.
  - intros all x1 e [= <- _] He Hfile. by apply example_entries.
  - discriminate.
  - reflexivity.
  - reflexivity.
  - reflexivity.
  - apply start_ok.
  - reflexivity.
  - unfold out, run. assert (SnowflakeId (BackupExample.version false) = 79) as -> by (vm_compute; reflexivity).
    apply (RunRestore_is_run reverse); [exact reverse_Permutation|]. rewrite <- Hout. unfold out, run. by destruct (RunRestore _ _ _ _) as [r [s z]].
Defined.

End Witness.
