(* ===== verification/Facade.v ===== *)
(** The rest of the public interface ([tsync/client.go]): the methods of
    [Client] that start a run, and those of [StoreMetadata] that hand out
    copies of its maps. *)

From S2P Require Import Prelude Errors GoStrings Keys Digest Metadata TreeWalk Store Client Crypto Upload Backup Paths DiskSpace Restore.
#[local] Open Scope Z_scope.

(** ** Runs *)

Section Runs.
Context {PR : Proto} {ST : Storage} {SW : SourceWorld} {CK : Chunking} {ZP : ZipParts} {BX : Box} {MR : MapRange}.
Context {RD : PartReader} {DK : Disk} {ZR : ZipReading} {ZW : ZipWriting}.

(** [Client.Backup] and [Client.Restore]: a client is its storage. *)
Definition Client_Backup (env : environment) (ListEntries : M src (list SourceEntry)) (opts : BackupOptions) : M bstate Version :=
  RunBackup env ListEntries opts.
Definition Client_Restore (order : list (string * string) → list (string * string)) (versionID : Z) (opts : RestoreOptions)
    : M (rstate * zipw) unit :=
  RunRestore order versionID opts.

End Runs.

(** ** Snapshots *)

Section Snapshots.
Context {MR : MapRange}.

(** A loop that copies a map entry by entry. *)
Definition copy_map {A B} (f : A → B) (m : gmap string A) : gmap string B :=
  fold_left (λ acc kv, <[kv.1 := f kv.2]> acc) (range m) ∅.

Lemma copy_map_spec {A B} (f : A → B) (m : gmap string A) : copy_map f m = f <$> m.
Proof.
  unfold copy_map.
  assert (∀ (l : list (string * A)) (acc : gmap string B) k, NoDup l.*1 →
    fold_left (λ acc kv, <[kv.1 := f kv.2]> acc) l acc !! k =
      match (list_to_map l : gmap string A) !! k with Some v => Some (f v) | None => acc !! k end) as H.
  { induction l as [|[k v] l IH]; intros acc j Hnd; [cbn; by rewrite lookup_empty|]. csimpl in *. apply NoDup_cons in Hnd as [Hni Hnd].
    rewrite IH by done. destruct (decide (k = j)) as [->|Hne].
    - rewrite lookup_insert_eq, lookup_insert_eq. by rewrite not_elem_of_list_to_map_1.
    - by rewrite !lookup_insert_ne. }
  apply map_eq. intros k. rewrite H by apply NoDup_range. rewrite lookup_fmap, lookup_empty.
  rewrite (list_to_map_proper _ (map_to_list m)); [|apply NoDup_range|apply range_perm]. rewrite list_to_map_to_list. by destruct (m !! k).
Qed.

(** [copy(valCopy, v)] into a slice of the same length. *)
Definition copy_bytes (v : bytes) : bytes := take (length v) v.

(** [PublicKeys], whose values are copied, and [Files], whose records are
    shared. *)
Definition StoreMetadata_PublicKeys (md : BackupMetadata) : gmap string bytes := copy_map copy_bytes (PublicKeys md).
Definition StoreMetadata_Files (md : BackupMetadata) : gmap string FileRecord := copy_map id (Files md).

(** [SchemaVersion] and [StoreLabel]: a label that is not there reads as
    empty. *)
Definition StoreMetadata_SchemaVersion (md : BackupMetadata) : Z := SchemaVersion md.
Definition StoreMetadata_StoreLabel (md : BackupMetadata) : string := default "" (StoreLabel md).

(** The copies are complete, whatever the order of the iteration, and agree
    with the lookups. *)
Lemma snapshots_complete md :
  StoreMetadata_PublicKeys md = PublicKeys md ∧ StoreMetadata_Files md = Files md ∧
  ∀ key, StoreMetadata_Files md !! key = StoreMetadata_GetFileRecord md key.
Proof.
  assert (StoreMetadata_Files md = Files md) as Hf by (unfold StoreMetadata_Files; by rewrite copy_map_spec, map_fmap_id).
  split_and!; [|done|by rewrite Hf]. unfold StoreMetadata_PublicKeys. rewrite copy_map_spec.
  rewrite <- (map_fmap_id (PublicKeys md)) at 2. apply map_fmap_ext. intros k v _. apply firstn_all.
Qed.

End Snapshots.
