(* ===== verification/Local.v ===== *)
(** Storage in a local directory ([LocalStorage] and [localAtomicWriter] of
    [tsync/storage.go]).

    The operating system is an interface: regular files by their path,
    handles, temporary files, the walk of a directory.  Against its laws
    LocalLaws.v shows that [LocalStorage] implements the [Storage] interface
    of Store.v. *)

From S2P Require Import Prelude Errors GoStrings Keys Digest Store Paths DiskSpace.
#[local] Open Scope Z_scope.

(** ** The operating system *)

(** What the walk of a directory tells about one of its entries, and the
    caller's [ctx.Err()] at that time. *)
Record walk_item := {
  wi_path : string;
  wi_err : option error;
  wi_ctx : option error;
  wi_Name : string;
  wi_IsRegular : bool;
  wi_IsDir : bool;
  wi_Info : error + Z;
}.

(** The reads that a handle gives to one who reads to the end: the bytes and
    the caller's [ctx.Err()] before each of them, and the error at the end. *)
Definition reads : Type := (list (option error * bytes) * option error)%type.

Class OS := {
  os : Type;
  fd : Type;
  sys_ctx_Err : os → option error;
  fd_Name : fd → string;
  sys_Stat : string → M os Z;
  sys_ReadFile : string → M os bytes;
  sys_Remove : string → M os unit;
  sys_MkdirAll : string → M os unit;
  sys_CreateTemp : string → string → M os fd;
  sys_Open : string → M os fd;
  sys_Rename : string → string → M os unit;
  sys_WalkDir : string → os → list walk_item * os;
  fd_Seek : fd → Z → M os unit;
  fd_Reads : fd → os → reads;
  fd_Write : fd → bytes → M os unit;
  fd_Sync : fd → M os unit;
  fd_Close : fd → M os unit;
  sys_dirs :: DirCalls os;
}.

(** ** Files *)

(** [filepath.Base]. *)
Definition filepath_Base (p : string) : string :=
  if bool_decide (p = "") then "."
  else match last (filter (λ e, e ≠ "") (Split p slash)) with Some e => e | None => "/" end.

(** [localErr]. *)
Definition localErr (path : string) (err : error) : error :=
  if errors_Is err FsErrNotExist then Errorf path [ESentinel ErrNotFound; err] else err.

(** [ctxReadCloser.Read], until the end. *)
Fixpoint ctx_read (rs : list (option error * bytes)) (end_err : option error) : stream :=
  match rs with
  | [] => ([], end_err)
  | (Some e, _) :: _ => ([], Some e)
  | (None, b) :: rs => let s := ctx_read rs end_err in (b ++ s.1, s.2)
  end.

(** [io.LimitReader] on a handle: the read after the limit finds the end. *)
Fixpoint limit_reads (n : Z) (rs : list (option error * bytes)) (end_err : option error) : reads :=
  match rs with
  | [] => ([], if n <=? 0 then None else end_err)
  | (c, b) :: rs =>
      if n <=? 0 then ([(c, [])], None)
      else if n <=? blen b then ((c, take (Z.to_nat n) b) :: take 1 ((λ x, (x.1, [])) <$> rs), None)
      else let '(rs, e) := limit_reads (n - blen b) rs end_err in ((c, b) :: rs, e)
  end.

Section Local.
Context {SYS : OS} (rootDir : string).

(** [LocalStorage.resolvePath]. *)
Definition resolvePath (path : string) : string := Join rootDir path.

(** [ctx.Err()] at the beginning of every operation. *)
Definition check_ctx : M os unit := λ s,
  match sys_ctx_Err s with Some e => (Err e, s) | None => (Ok tt, s) end.

(** [localAtomicWriter]. *)
Record lwriter := { lw_f : fd; lw_finalPath : string; lw_done : bool }.
Definition set_done (w : lwriter) : lwriter := {| lw_f := lw_f w; lw_finalPath := lw_finalPath w; lw_done := true |}.

Abbreviation L := (M (lwriter * os)).

Definition sys {A} (c : M os A) : L A := λ s, let '(r, x) := c s.2 in (r, (s.1, x)).
Definition self : L lwriter := λ s, (Ok s.1, s).

(** [localAtomicWriter.Write]. *)
Definition lw_Write (p : bytes) : L unit :=
  let* w := self in
  if lw_done w then throw (ESentinel ErrWriterClosed)
  else
    let* _ := sys check_ctx in
    sys (fd_Write (lw_f w) p).

(** The temporary file is removed on a failure. *)
Definition close_remove {A} (e : error) : L A :=
  let* w := self in
  let* _ := ignore (sys (fd_Close (lw_f w))) in
  let* _ := ignore (sys (sys_Remove (fd_Name (lw_f w)))) in
  throw e.
Definition just_remove {A} (e : error) : L A :=
  let* w := self in
  let* _ := ignore (sys (sys_Remove (fd_Name (lw_f w)))) in
  throw e.

(** [localAtomicWriter.Close]. *)
Definition lw_Close : L unit :=
  let* w := self in
  if lw_done w then ret tt
  else
    let* _ := modify (λ s, (set_done s.1, s.2)) in
    let* _ := handle (sys check_ctx) close_remove in
    let* _ := handle (sys (fd_Sync (lw_f w))) close_remove in
    let* _ := handle (sys (fd_Close (lw_f w))) just_remove in
    let* _ := handle (sys (sys_Rename (fd_Name (lw_f w)) (lw_finalPath w))) just_remove in
    ignore (sys (syncDir (filepath_Dir (lw_finalPath w)))).

(** [localAtomicWriter.Abort]. *)
Definition lw_Abort : L unit :=
  let* w := self in
  if lw_done w then ret tt
  else
    let* _ := modify (λ s, (set_done s.1, s.2)) in
    let* closeErr := attempt (sys (fd_Close (lw_f w))) in
    let* _ := handle (sys (sys_Remove (fd_Name (lw_f w))))
                (λ e, if errors_Is e FsErrNotExist then ret tt else throw e) in
    match closeErr with Some e => throw e | None => ret tt end.

(** [LocalStorage.openAtomicWriter]. *)
Definition openAtomicWriter (path : string) : M os lwriter :=
  let fullPath := resolvePath path in
  let dir := filepath_Dir fullPath in
  let* _ := sys_MkdirAll dir in
  let* f := sys_CreateTemp dir (localTempPrefix +:+ filepath_Base fullPath +:+ "-*") in
  ret {| lw_f := f; lw_finalPath := fullPath; lw_done := false |}.

(** ** The operations *)

(** [LocalStorage.Exists]. *)
Definition l_Exists (path : string) : M os bool :=
  let* _ := check_ctx in
  handle (let* _ := sys_Stat (resolvePath path) in ret true)
    (λ e, if errors_Is e FsErrNotExist then ret false else throw e).

(** [LocalStorage.Read]. *)
Definition l_Read (path : string) : M os bytes :=
  let* _ := check_ctx in
  handle (sys_ReadFile (resolvePath path)) (λ e, throw (localErr path e)).

(** The calls of [localAtomicWriter] that [LocalStorage.Write] makes. *)
Definition with_writer {A} (w : lwriter) (c : L A) : M os A := λ s,
  let '(r, (_, s)) := c (w, s) in (r, s).

(** [LocalStorage.Write]. *)
Definition l_Write (path : string) (data : bytes) : M os unit :=
  let* _ := check_ctx in
  let* w := openAtomicWriter path in
  with_writer w
    (let* _ := handle (sys (fd_Write (lw_f w) data)) (λ e, let* _ := ignore lw_Abort in throw e) in
     lw_Close).

(** [LocalStorage.Delete]. *)
Definition l_Delete (path : string) : M os unit :=
  let* _ := check_ctx in
  handle (sys_Remove (resolvePath path)) (λ e, if errors_Is e FsErrNotExist then ret tt else throw e).

(** The callback of [filepath.WalkDir] in [LocalStorage.List]. *)
Definition list_entry (prefix : string) (d : walk_item) : res (option FileInfo) :=
  match wi_err d, wi_ctx d, Rel rootDir (wi_path d) with
  | Some e, _, _ => Err e
  | None, Some e, _ => Err e
  | None, None, None => Err (ELeaf "Rel" false)
  | None, None, Some relSlash =>
      if bool_decide (relSlash = ".") || bool_decide (relSlash = "") then Ok None
      else if negb (wi_IsRegular d) && negb (wi_IsDir d) then Ok None
      else if negb (wi_IsDir d) && HasPrefix (wi_Name d) localTempPrefix then Ok None
      else
        let relSlash := if wi_IsDir d then relSlash +:+ "/" else relSlash in
        if HasPrefix relSlash prefix then
          match wi_Info d with
          | inl e => Err e
          | inr size => Ok (Some {| fi_Name := relSlash; fi_Size := if wi_IsDir d then 0 else size |})
          end
        else Ok None
  end.

(** The walk ends at the first error of the callback. *)
Fixpoint list_walk (prefix : string) (items : list walk_item) : list FileInfo * option error :=
  match items with
  | [] => ([], None)
  | d :: items =>
      match list_entry prefix d with
      | Ok x => let '(files, e) := list_walk prefix items in (option_list x ++ files, e)
      | Err e => ([], Some e)
      | _ => ([], None)
      end
  end.

(** The directory that [LocalStorage.List] walks. *)
Definition searchDir (prefix : string) : string :=
  let fullPrefix := resolvePath prefix in
  if negb (HasSuffix prefix "/") && negb (bool_decide (prefix = "")) then filepath_Dir fullPrefix else fullPrefix.

(** [LocalStorage.List]. *)
Definition l_List (prefix : string) : M os (list FileInfo) :=
  let* _ := check_ctx in
  λ s,
    let '(items, s) := sys_WalkDir (searchDir prefix) s in
    let '(files, err) := list_walk prefix items in
    match err with
    | Some e => if errors_Is e FsErrNotExist then (Ok files, s) else (Err e, s)
    | None => (Ok files, s)
    end.

(** [LocalStorage.Size]. *)
Definition l_Size (path : string) : M os Z :=
  let* _ := check_ctx in
  handle (sys_Stat (resolvePath path)) (λ e, throw (localErr path e)).

(** [LocalStorage.OpenReader]. *)
Definition l_OpenReader (path : string) : M os stream :=
  let* _ := check_ctx in
  let* f := handle (sys_Open (resolvePath path)) (λ e, throw (localErr path e)) in
  λ s, let '(rs, e) := fd_Reads f s in (Ok (ctx_read rs e), s).

(** [LocalStorage.ReadRange]. *)
Definition l_ReadRange (path : string) (offset length : Z) : M os stream :=
  let* _ := check_ctx in
  let* f := handle (sys_Open (resolvePath path)) (λ e, throw (localErr path e)) in
  let* _ := if 0 <? offset then handle (fd_Seek f offset) (λ e, let* _ := ignore (fd_Close f) in throw e) else ret tt in
  λ s,
    let '(rs, e) := fd_Reads f s in
    let '(rs, e) := if 0 <=? length then limit_reads length rs e else (rs, e) in
    (Ok (ctx_read rs e), s).

(** [LocalStorage.OpenWriter]; the state is the system and the writers that
    have been opened, a handle the position of its writer. *)
Definition lstate : Type := (os * list lwriter)%type.

Definition on_sys {A} (c : M os A) : M lstate A := λ s, let '(r, x) := c s.1 in (r, (x, s.2)).
Definition l_OpenWriter (path : string) : M lstate nat := λ s,
  match (let* _ := check_ctx in openAtomicWriter path) s.1 with
  | (Ok w, x) => (Ok (length s.2), (x, s.2 ++ [w]))
  | (Err e, x) => (Err e, (x, s.2))
  | (Panic, x) => (Panic, (x, s.2))
  | (OutOfFuel, x) => (OutOfFuel, (x, s.2))
  end.
Definition on_lwriter (i : nat) (c : L unit) : M lstate unit := λ s,
  match s.2 !! i with
  | None => (Panic, s)
  | Some w => let '(r, (w', x)) := c (w, s.1) in (r, (x, <[i := w']> s.2))
  end.

Definition local : Storage := {|
  store := lstate;
  writer := nat;
  Read path := on_sys (l_Read path);
  Write path data := on_sys (l_Write path data);
  Delete path := on_sys (l_Delete path);
  List prefix := on_sys (l_List prefix);
  OpenWriter := l_OpenWriter;
  w_Write i p := on_lwriter i (lw_Write p);
  w_Close i := on_lwriter i lw_Close;
  w_abortable _ := true;
  w_Abort i := on_lwriter i lw_Abort;
|}.

End Local.
