(* ===== verification/LocalLaws.v ===== *)
(** [LocalStorage] implements the [Storage] interface: the contract of the
    operating system, and the proof of every law of Store.v. *)

From S2P Require Import Prelude Errors GoStrings Keys Digest Store Paths DiskSpace Local.
#[local] Open Scope Z_scope.

(** ** The contract of the operating system

    [o_files] are the regular files by their clean absolute path.  [o_open]
    holds of a handle that [CreateTemp] made and that still writes the file of
    its name; [o_at] of a handle for reading, its content and its offset. *)

(** A clean absolute path with the elements [ps]. *)
Definition abs (ps : list string) : string := render (true, ps).

(** The name of an entry of a directory. *)
Definition in_dir (dir name : string) : string := (if bool_decide (dir = "/") then "/" else dir +:+ "/") +:+ name.

Class OSLaws {SYS : OS} := {
  o_files : os → gmap string bytes;
  o_open : os → fd → Prop;
  o_at : os → fd → bytes → Z → Prop;
  steady s s' := o_files s' = o_files s ∧ ∀ f, o_open s f → o_open s' f;
  o_open_file s f : o_open s f → is_Some (o_files s !! fd_Name f);
  ctx_not_found s e : sys_ctx_Err s = Some e → errors_Is e ErrNotFound = false;
  sys_Stat_law p s r s' : sys_Stat p s = (r, s') → steady s s' ∧ returns r ∧
    (∀ n b, r = Ok n → o_files s !! p = Some b → n = blen b) ∧
    (∀ e, r = Err e → errors_Is e FsErrNotExist = true → o_files s !! p = None);
  sys_ReadFile_law p s r s' : sys_ReadFile p s = (r, s') → steady s s' ∧ returns r ∧
    (∀ b, r = Ok b → o_files s !! p = Some b) ∧
    (∀ e, r = Err e → errors_Is e ErrNotFound = false ∧ (errors_Is e FsErrNotExist = true → o_files s !! p = None));
  sys_Remove_law p s r s' : sys_Remove p s = (r, s') → returns r ∧
    (o_files s' = delete p (o_files s) ∨ fails r ∧ o_files s' = o_files s) ∧
    (∀ e, r = Err e → errors_Is e FsErrNotExist = true → o_files s !! p = None) ∧
    (∀ f, o_open s f → fd_Name f ≠ p → o_open s' f);
  sys_MkdirAll_law p s r s' : sys_MkdirAll p s = (r, s') → steady s s' ∧ returns r;
  sys_CreateTemp_law dir pre s r s' : sys_CreateTemp dir (pre +:+ "*") s = (r, s') → returns r ∧
    (fails r → steady s s') ∧
    ∀ f, r = Ok f → ∃ x, has_char slash x = false ∧ fd_Name f = in_dir dir (pre +:+ x) ∧
      o_files s !! fd_Name f = None ∧ o_files s' = <[fd_Name f := []]> (o_files s) ∧
      o_open s' f ∧ ∀ g, o_open s g → o_open s' g;
  sys_Open_law p s r s' : sys_Open p s = (r, s') → steady s s' ∧ returns r ∧
    (∀ f, r = Ok f → ∃ b, o_files s !! p = Some b ∧ o_at s' f b 0) ∧
    (∀ e, r = Err e → errors_Is e FsErrNotExist = true → o_files s !! p = None);
  sys_Rename_law a b s r s' c : sys_Rename a b s = (r, s') → o_files s !! a = Some c → returns r ∧
    (o_files s' = <[b := c]> (delete a (o_files s)) ∨ fails r ∧ o_files s' = o_files s) ∧
    (∀ f, o_open s f → fd_Name f ≠ a → fd_Name f ≠ b → o_open s' f);
  sys_dir_Open_law p s r s' : dir_Open p s = (r, s') → steady s s' ∧ returns r;
  sys_dir_Sync_law d s r s' : dir_Sync d s = (r, s') → steady s s' ∧ returns r;
  sys_dir_Close_law d s r s' : dir_Close d s = (r, s') → steady s s' ∧ returns r;
  sys_WalkDir_law ds s items s' : sys_WalkDir (abs ds) s = (items, s') → Forall proper ds → steady s s' ∧
    (∀ it, it ∈ items → wi_err it = None → ∃ ns, Forall proper ns ∧ wi_path it = abs (ds ++ ns)) ∧
    (∀ it, it ∈ items → wi_err it = None → wi_IsRegular it = true →
       wi_IsDir it = false ∧ is_Some (o_files s !! wi_path it) ∧ wi_Name it = filepath_Base (wi_path it)) ∧
    (∀ ns, (∀ it, it ∈ items → wi_err it = None) → Forall proper ns → is_Some (o_files s !! abs (ds ++ ns)) →
       ∃ it, it ∈ items ∧ wi_path it = abs (ds ++ ns) ∧ wi_IsRegular it = true) ∧
    (∀ it e, it ∈ items → wi_err it = Some e → errors_Is e FsErrNotExist = true →
       ∀ ns, Forall proper ns → o_files s !! abs (ds ++ ns) = None) ∧
    (∀ it e, it ∈ items → wi_ctx it = Some e ∨ wi_Info it = inl e → errors_Is e FsErrNotExist = false);
  fd_Seek_law f n b s r s' : fd_Seek f n s = (r, s') → o_at s f b 0 → steady s s' ∧ returns r ∧
    (∀ u, r = Ok u → o_at s' f b n);
  fd_Reads_law f b n s rs e : fd_Reads f s = (rs, e) → o_at s f b n →
    concat rs.*2 `prefix_of` drop (Z.to_nat n) b ∧ (e = None → concat rs.*2 = drop (Z.to_nat n) b);
  fd_Write_law f b s r s' c : fd_Write f b s = (r, s') → o_open s f → o_files s !! fd_Name f = Some c → returns r ∧
    (∃ c', o_files s' = <[fd_Name f := c']> (o_files s) ∧ ∀ u, r = Ok u → c' = c ++ b) ∧
    (∀ g, o_open s g → o_open s' g);
  fd_Sync_law f s r s' : fd_Sync f s = (r, s') → steady s s' ∧ returns r;
  fd_Close_law f s r s' : fd_Close f s = (r, s') → returns r ∧ o_files s' = o_files s ∧
    (∀ g, o_open s g → fd_Name g ≠ fd_Name f → o_open s' g);
}.

(** ** Directories *)

Lemma sys_syncDir_law {SYS : OS} {OL : OSLaws} p s r s' : syncDir p s = (r, s') → steady s s' ∧ returns r.
Proof.
  assert (∀ s1 s2 s3, steady s1 s2 → steady s2 s3 → steady s1 s3) as Htrans
    by (intros s1 s2 s3 [F1 O1] [F2 O2]; split; [congruence|auto]).
  intros H. destruct (kept_syncDir (λ _, True) steady True ltac:(by split) Htrans ltac:(done) p) with s r s' as [? Hr]; [..|done|done|by split; [|apply Hr]].
  - intros q x rx x' _ Hq. destruct (sys_dir_Open_law _ _ _ _ Hq). auto.
  - intros q x rx x' _ Hq. destruct (sys_dir_Sync_law _ _ _ _ Hq). auto.
  - intros q x rx x' _ Hq. destruct (sys_dir_Close_law _ _ _ _ Hq). auto.
Qed.

(** ** Paths *)

Lemma plain_proper e : has_char slash e = false → plain_elem e = true → proper e ∧ HasPrefix e localTempPrefix = false.
Proof.
  unfold plain_elem. intros Hs H. apply negb_true_iff in H. rewrite !orb_false_iff in H. rewrite !bool_decide_eq_false in H.
  destruct H as [[[? ?] ?] ?]. by split.
Qed.

Lemma relative_elems p : relative p → Forall (λ e, proper e ∧ HasPrefix e localTempPrefix = false) (Split p slash).
Proof.
  unfold relative. rewrite forallb_forall. intros H. pose proof (Split_no_slash p) as Hs.
  rewrite Forall_forall in Hs |- *. intros e He. apply plain_proper; [by apply Hs|]. by apply H, list_elem_of_In.
Qed.

Lemma relative_proper p : relative p → Forall proper (Split p slash).
Proof. intros H. eapply Forall_impl; [by apply relative_elems|]. by intros e []. Qed.

Lemma canonical_proper ps : Forall proper ps → canonical (true, ps).
Proof. intros H. exists 0%nat, ps. done. Qed.

Lemma cleaned_abs ps : Forall proper ps → cleaned (abs ps) = (true, ps).
Proof. intros H. by apply cleaned_render, canonical_proper. Qed.

Lemma abs_inj ps qs : Forall proper ps → Forall proper qs → abs ps = abs qs → ps = qs.
Proof. intros Hp Hq E%(f_equal cleaned). rewrite !cleaned_abs in E by done. by injection E. Qed.

Section Root.
Context (root : list string) (root_proper : Forall proper root).
Abbreviation rootDir := (abs root).

Lemma abs_nonempty ps : abs ps ≠ "".
Proof. done. Qed.

Lemma join_slash_app l k : l ≠ [] → k ≠ [] → join_slash (l ++ k) = join_slash l +:+ "/" +:+ join_slash k.
Proof.
  intros Hl Hk. induction l as [|x l IH]; [done|]. destruct l as [|y l].
  - by destruct k.
  - change ((x :: y :: l) ++ k) with (x :: (y :: l) ++ k).
    change (join_slash (x :: (y :: l) ++ k)) with (x +:+ "/" +:+ join_slash ((y :: l) ++ k)).
    change (join_slash (x :: y :: l)) with (x +:+ "/" +:+ join_slash (y :: l)). rewrite IH by done.
    apply chars_inj. rewrite !chars_app. by rewrite <- !app_assoc.
Qed.

Lemma abs_root ps : Forall proper ps → abs ps = "/" → ps = [].
Proof.
  intros Hp E. destruct ps as [|p ps]; [done|]. apply Forall_cons in Hp as [(Hne & _) _]. exfalso. apply Hne.
  unfold abs, render in E. cbn [fst snd] in E. apply (str_app_inj_l "/" _ "") in E. destruct p; [done|]. by destruct ps.
Qed.

Lemma abs_app ps ns : Forall proper ps → ns ≠ [] → abs (ps ++ ns) = in_dir (abs ps) (join_slash ns).
Proof.
  intros Hp Hn. unfold in_dir. case_bool_decide as E.
  - apply abs_root in E as ->; done.
  - assert (ps ≠ []) by (by intros ->). unfold abs, render. cbn [fst snd]. rewrite join_slash_app by done.
    apply chars_inj. rewrite !chars_app. by rewrite <- !app_assoc.
Qed.

(** The prefix of everything below the root. *)
Definition pre : string := in_dir rootDir "".

Lemma in_dir_pre n : in_dir rootDir n = pre +:+ n.
Proof. unfold pre, in_dir. apply chars_inj. rewrite !chars_app. by rewrite app_nil_r. Qed.

Lemma render_cleaned p : Clean (Clean p) = Clean p.
Proof. unfold Clean. by rewrite cleaned_render by apply cleaned_canonical. Qed.

Lemma Join_clean a b : a ≠ "" → Join a b = render (cleaned (Join a b)).
Proof.
  intros Ha. unfold Join. rewrite bool_decide_false by done.
  case_bool_decide; by rewrite <- render_cleaned at 1.
Qed.

Lemma resolve_abs p : relative p → resolvePath rootDir p = abs (root ++ Split p slash).
Proof.
  intros Hp. unfold resolvePath. rewrite Join_clean by done.
  rewrite cleaned_join_proper; [|done|by apply relative_proper]. by rewrite cleaned_abs.
Qed.

Lemma resolve_pre p : relative p → resolvePath rootDir p = pre +:+ p.
Proof.
  intros Hp. rewrite resolve_abs, abs_app by (done || apply Split_nonempty). by rewrite join_Split, in_dir_pre.
Qed.

(** No object of the storage has the name [n]. *)
Definition hidden (n : string) : Prop := ∀ q, relative q → n ≠ resolvePath rootDir q.

(** Temporary files are hidden. *)
Lemma temp_hidden p b x :
  relative p → has_char slash b = false → has_char slash x = false →
  hidden (in_dir (filepath_Dir (resolvePath rootDir p)) ((localTempPrefix +:+ b +:+ "-") +:+ x)).
Proof.
  intros Hp Hb Hx q Hq E. rewrite !resolve_abs in E by done.
  pose proof (relative_proper _ Hp) as Hpp. pose proof (relative_elems _ Hq) as Hqe.
  pose proof (Split_nonempty p slash) as Hne. destruct (Split p slash) as [|e l _] using rev_ind; [done|].
  rewrite app_assoc in E. unfold abs in E at 1. apply Forall_app in Hpp as [Hl [He _]%Forall_cons].
  rewrite filepath_Dir_render in E by (apply canonical_proper; rewrite !Forall_app; auto).
  rewrite removelast_last in E. set (t := _ +:+ x) in E. fold (abs (root ++ l)) in E.
  assert (HasPrefix t localTempPrefix = true) as Ht.
  { apply HasPrefix_spec. exists (b +:+ "-" +:+ x). apply chars_inj. unfold t. rewrite !chars_app. by rewrite <- !app_assoc. }
  assert (has_char slash t = false) as Hts.
  { apply has_char_false in Hb, Hx. apply has_char_false. unfold t. rewrite !chars_app, !not_elem_of_app.
    split_and!; [by apply has_char_false|done|by apply has_char_false|done]. }
  assert (proper t) as Htp.
  { split_and!; [by intros Et; rewrite Et in Ht..|done]. }
  change t with (join_slash [t]) in E. rewrite <- abs_app in E; [|by apply Forall_app|done].
  apply abs_inj in E; [|rewrite !Forall_app; auto|].
  2:{ apply Forall_app. split; [done|]. eapply Forall_impl; [exact Hqe|]. by intros ? []. }
  rewrite <- app_assoc in E. apply app_inv_head in E. rewrite <- E in Hqe. apply Forall_app in Hqe as [_ [[_ Hn] _]%Forall_cons].
  congruence.
Qed.

(** ** What the storage holds *)

Definition objects_in (files : gmap string bytes) : gmap string bytes :=
  filter (λ kv : string * bytes, relative kv.1) (under pre files).

Lemma objects_in_lookup files p : relative p → objects_in files !! p = files !! resolvePath rootDir p.
Proof.
  intros Hp. unfold objects_in. rewrite resolve_pre, <- under_lookup by done. apply option_eq. intros b.
  rewrite map_lookup_filter_Some. naive_solver.
Qed.

Lemma objects_in_plain files p : is_Some (objects_in files !! p) → relative p.
Proof. intros [b [_ H]%map_lookup_filter_Some]. done. Qed.

Lemma objects_in_ext files files' :
  (∀ p, relative p → files' !! resolvePath rootDir p = files !! resolvePath rootDir p) → objects_in files' = objects_in files.
Proof.
  intros H. apply map_eq. intros p. destruct (decide (relative p)) as [Hp|Hp].
  - rewrite !objects_in_lookup by done. by apply H.
  - assert (∀ g, objects_in g !! p = None) as Hn; [|by rewrite !Hn].
    intros g. apply eq_None_not_Some. by intros ?%objects_in_plain.
Qed.

Lemma objects_in_insert files p b : relative p → objects_in (<[resolvePath rootDir p := b]> files) = <[p := b]> (objects_in files).
Proof.
  intros Hp. apply map_eq. intros q. destruct (decide (relative q)) as [Hq|Hq].
  - rewrite objects_in_lookup by done. destruct (decide (p = q)) as [->|Hne]; [by rewrite !lookup_insert_eq|].
    rewrite !lookup_insert_ne, objects_in_lookup; [done|done|done|]. rewrite !resolve_pre by done. by intros E%str_app_inj_l.
  - assert (∀ g, objects_in g !! q = None) as Hn by (intros g; apply eq_None_not_Some; by intros ?%objects_in_plain).
    rewrite lookup_insert_ne by (by intros ->). by rewrite !Hn.
Qed.

Lemma objects_in_delete files p : relative p → objects_in (delete (resolvePath rootDir p) files) = delete p (objects_in files).
Proof.
  intros Hp. apply map_eq. intros q. destruct (decide (relative q)) as [Hq|Hq].
  - rewrite objects_in_lookup by done. destruct (decide (p = q)) as [->|Hne]; [by rewrite !lookup_delete_eq|].
    rewrite !lookup_delete_ne, objects_in_lookup; [done|done|done|]. rewrite !resolve_pre by done. by intros E%str_app_inj_l.
  - assert (∀ g, objects_in g !! q = None) as Hn by (intros g; apply eq_None_not_Some; by intros ?%objects_in_plain).
    rewrite lookup_delete_ne by (by intros ->). by rewrite !Hn.
Qed.

Lemma objects_in_hidden files n c : hidden n → objects_in (<[n := c]> files) = objects_in files.
Proof. intros Hn. apply objects_in_ext. intros p Hp. rewrite lookup_insert_ne; [done|]. by apply Hn. Qed.
Lemma objects_in_delete_hidden files n : hidden n → objects_in (delete n files) = objects_in files.
Proof. intros Hn. apply objects_in_ext. intros p Hp. rewrite lookup_delete_ne; [done|]. by apply Hn. Qed.

End Root.

Section Calls.
Context {SYS : OS} {OL : OSLaws} (root : list string) (root_proper : Forall proper root).
Abbreviation rootDir := (abs root).
Abbreviation view_of x := (objects_in root (o_files x)).

Lemma returns_fails {A} (r : res A) : returns r → (∀ a, r ≠ Ok a) → fails r.
Proof. intros [[a ->]|?] Hn; [by destruct (Hn a)|done]. Qed.

(** ** Steps of the system *)

(** A step that leaves the temporary files of all open handles, except that
    of [f] if it is given. *)
Definition spares (f : option fd) (x x' : os) : Prop :=
  ∀ g, o_open x g → hidden root (fd_Name g) → (∀ f0, f = Some f0 → fd_Name g ≠ fd_Name f0) →
    o_open x' g ∧ o_files x' !! fd_Name g = o_files x !! fd_Name g.

Lemma spares_trans f x1 x2 x3 : spares f x1 x2 → spares f x2 x3 → spares f x1 x3.
Proof. intros H1 H2 g Ho Hh Hf. destruct (H1 g Ho Hh Hf) as [Ho2 <-]. by apply H2. Qed.

Lemma spares_some f x x' : spares None x x' → spares (Some f) x x'.
Proof. intros H g Ho Hh _. by apply H. Qed.

Lemma steady_spares f x x' : steady x x' → spares f x x'.
Proof. intros [E H] g Ho _ _. rewrite E. auto. Qed.

Lemma check_ctx_spec x r x' : check_ctx x = (r, x') →
  x' = x ∧ returns r ∧ ∀ e, r = Err e → errors_Is e ErrNotFound = false.
Proof.
  unfold check_ctx. destruct (sys_ctx_Err x) as [e|] eqn:E; intros [= <- <-]; split_and!; try done.
  - by right; eexists.
  - intros ? [= <-]. by eapply ctx_not_found.
  - by left; eexists.
Qed.

(** The context is checked before anything is done. *)
Lemma after_ctx {A} (c : M os A) x r x' :
  (let* _ := check_ctx in c) x = (r, x') →
  (x' = x ∧ ∃ e, r = Err e ∧ errors_Is e ErrNotFound = false) ∨ c x = (r, x').
Proof.
  unfold bind, check_ctx. destruct (sys_ctx_Err x) as [e|] eqn:E; [|by right].
  intros [= <- <-]. left. split; [done|]. exists e. split; [done|]. by eapply ctx_not_found.
Qed.

Lemma handled {A} (c : M os A) h x r x' :
  handle c h x = (r, x') → (c x = (r, x') ∧ ∀ e, r ≠ Err e) ∨ ∃ e x1, c x = (Err e, x1) ∧ h e x1 = (r, x').
Proof. unfold handle. destruct (c x) as [[a|e| |] x1]; intros; simplify_eq; eauto. Qed.

(** Two steps, the second of a local error handler. *)
Lemma localErr_not_found p e : errors_Is e ErrNotFound = false →
  errors_Is (localErr p e) ErrNotFound = true → errors_Is e FsErrNotExist = true.
Proof. unfold localErr. destruct (errors_Is e FsErrNotExist); [done|congruence]. Qed.

(** ** Operations without a writer *)

Lemma l_Read_spec p x r x' : relative p → l_Read rootDir p x = (r, x') →
  steady x x' ∧ returns r ∧ (∀ b, r = Ok b → view_of x !! p = Some b) ∧
  (∀ e, r = Err e → errors_Is e ErrNotFound = true → view_of x !! p = None).
Proof.
  intros Hp [(-> & e & -> & He)|H]%after_ctx.
  { split_and!; [by split|by right; eexists|done|]. intros ? [= <-]. congruence. }
  rewrite !objects_in_lookup by done.
  apply handled in H as [[H Hn]|(e & x1 & H & [= <- <-])]; destruct (sys_ReadFile_law _ _ _ _ H) as (Hs & Hr & Hok & Herr).
  - split_and!; [done|done|done|]. intros e He. by apply Hn in He.
  - destruct (Herr _ eq_refl) as [Hnf Hne]. split_and!; [done|by right; eexists|done|].
    intros ? [= <-] He. apply Hne. by eapply localErr_not_found.
Qed.

Lemma l_Delete_spec p x r x' : relative p → l_Delete rootDir p x = (r, x') →
  spares None x x' ∧ returns r ∧ (view_of x' = delete p (view_of x) ∨ fails r ∧ view_of x' = view_of x).
Proof.
  intros Hp [(-> & e & -> & He)|H]%after_ctx.
  { split_and!; [by apply steady_spares|by right; eexists|right; split; [by eexists|done]]. }
  apply handled in H.
  assert (∀ r0 x1, sys_Remove (resolvePath rootDir p) x = (r0, x1) → spares None x x1 ∧ returns r0 ∧
    (view_of x1 = delete p (view_of x) ∨ fails r0 ∧ view_of x1 = view_of x) ∧
    (∀ e, r0 = Err e → errors_Is e FsErrNotExist = true → view_of x !! p = None)) as Hrm.
  { intros r0 x1 (Hr & Hf & Hne & Ho)%sys_Remove_law. split_and!; [|done| |].
    - intros g Hg Hh _. specialize (Hh p Hp). split; [by apply Ho|].
      destruct Hf as [->|[_ ->]]; [by rewrite lookup_delete_ne|done].
    - destruct Hf as [->|[? ->]]; [left; by apply objects_in_delete|by right].
    - intros e He Hn. rewrite objects_in_lookup by done. by eapply Hne. }
  destruct H as [[(? & ? & ? & _)%Hrm Hn]|(e & x1 & (Hs & _ & Hv & Hne)%Hrm & H)]; [done|].
  destruct (errors_Is e FsErrNotExist) eqn:E; injection H as <- <-.
  - split_and!; [done|by left; eexists|]. left. destruct Hv as [|[_ ->]]; [done|]. symmetry. apply delete_id. by eapply Hne.
  - split_and!; [done|by right; eexists|]. destruct Hv as [|[_ ?]]; [by left|right]. split; [by eexists|done].
Qed.

(** ** The atomic writer *)

(** An open handle to a hidden file with the content [c]. *)
Definition writes (x : os) (f : fd) (c : bytes) : Prop :=
  o_open x f ∧ hidden root (fd_Name f) ∧ o_files x !! fd_Name f = Some c.

Lemma filepath_Base_no_slash p : relative p → has_char slash (filepath_Base (resolvePath rootDir p)) = false.
Proof.
  intros Hp. rewrite resolve_abs by done. unfold filepath_Base. rewrite bool_decide_false by done.
  destruct (last _) as [e|] eqn:E; [|].
  - apply last_Some in E as [l E]. assert (e ∈ Split (abs (root ++ Split p slash)) slash) as He.
    { assert (e ∈ l ++ [e]) as Hi by set_solver. rewrite <- E in Hi. by apply list_elem_of_filter in Hi as [_ ?]. }
    pose proof (Split_no_slash (abs (root ++ Split p slash))) as Hs. rewrite Forall_forall in Hs. by apply Hs.
  - exfalso. apply last_None in E. pose proof (relative_proper _ Hp) as Hpp.
    assert (Forall proper (root ++ Split p slash)) as Hall by (apply Forall_app; auto).
    pose proof (Split_nonempty p slash) as Hne. revert E. unfold abs, render. cbn [fst snd].
    change ("/" +:+ join_slash (root ++ Split p slash)) with ("" +:+ "/" +:+ join_slash (root ++ Split p slash)).
    rewrite Split_app, Split_join; [|by destruct root|].
    + destruct (root ++ Split p slash) as [|e l] eqn:El; [by destruct root|]. apply Forall_cons in Hall as [(? & _) _].
      rewrite filter_app. intros [_ E]%app_nil. by rewrite filter_cons_True in E.
    + eapply Forall_impl; [exact Hall|]. by intros ? (_ & _ & _ & ?).
Qed.

(** A new writer has an empty temporary file of its own. *)
Lemma openAtomicWriter_spec p x r x' : relative p → openAtomicWriter rootDir p x = (r, x') →
  returns r ∧ spares None x x' ∧ view_of x' = view_of x ∧
  ∀ w, r = Ok w → lw_done w = false ∧ lw_finalPath w = resolvePath rootDir p ∧ writes x' (lw_f w) [] ∧
    o_files x !! fd_Name (lw_f w) = None.
Proof.
  intros Hp. unfold openAtomicWriter.
  intros [(u & x1 & H1 & H)|(r1 & H1 & _ & Hn & _ & Hf)]%bind_inv; apply sys_MkdirAll_law in H1 as [Hs1 Hr1].
  2:{ split_and!; [right; auto|by apply steady_spares|by rewrite (proj1 Hs1)|]. intros w Hw. by apply Hn in Hw. }
  assert (localTempPrefix +:+ filepath_Base (resolvePath rootDir p) +:+ "-*" =
    (localTempPrefix +:+ filepath_Base (resolvePath rootDir p) +:+ "-") +:+ "*") as E.
  { apply chars_inj. rewrite !chars_app. by rewrite <- !app_assoc. }
  rewrite E in H. clear E.
  apply bind_inv in H as [(f & x2 & H2 & [= <- <-])|(r2 & H2 & Hno & Hn & _ & Hf)];
    destruct (sys_CreateTemp_law _ _ _ _ _ H2) as (Hr2 & Hfail & Hok).
  2:{ destruct (Hfail (returns_fails _ Hr2 Hno)) as [Ef2 Ho2]. split_and!; [right; auto| |by rewrite Ef2, (proj1 Hs1)|].
      - eapply spares_trans; apply steady_spares; [exact Hs1|by split].
      - intros w Hw. by apply Hn in Hw. }
  destruct (Hok _ eq_refl) as (y & Hy & Hname & Hnone & Hfiles & Hopen & Hothers). destruct Hs1 as [E1 Ho1].
  assert (hidden root (fd_Name f)) as Hhid.
  { rewrite Hname. apply temp_hidden; [done|done|by apply filepath_Base_no_slash|done]. }
  rewrite E1 in Hfiles, Hnone. split_and!; [by left; eexists| |rewrite Hfiles; by apply objects_in_hidden|].
  - intros g Hg Hh _. split; [by apply Hothers, Ho1|]. rewrite Hfiles. rewrite lookup_insert_ne; [done|].
    intros E. destruct (o_open_file _ _ Hg) as [b Hb]. rewrite <- E, Hnone in Hb. done.
  - intros w [= <-]. cbn. split_and!; [done|done| |done]. split_and!; [done|done|]. by rewrite Hfiles, lookup_insert_eq.
Qed.

Lemma spares_self f x x' c : spares None x x' → writes x f c → writes x' f c.
Proof. intros H (Ho & Hh & Hc). destruct (H f Ho Hh) as [? E]; [done|]. split_and!; [done|done|congruence]. Qed.

(** ** Steps of a writer *)

Lemma sys_inv {A} (c : M os A) w x r s' : sys c (w, x) = (r, s') → c x = (r, s'.2) ∧ s'.1 = w.
Proof. unfold sys. cbn [fst snd]. destruct (c x) as [r1 x1]. by intros [= <- <-]. Qed.

(** Steps that leave the storage as it is, whatever they do to the temporary
    file [f]. *)
Definition private (f : fd) (s s' : lwriter * os) : Prop :=
  s'.1 = s.1 ∧ spares (Some f) s.2 s'.2 ∧ view_of s'.2 = view_of s.2.

Lemma private_refl f s : private f s s.
Proof. split_and!; [done|by apply steady_spares|done]. Qed.
Lemma private_trans f s1 s2 s3 : private f s1 s2 → private f s2 s3 → private f s1 s3.
Proof. intros (E1 & S1 & V1) (E2 & S2 & V2). split_and!; [congruence|by eapply spares_trans|congruence]. Qed.

Lemma private_steady f w x x' : steady x x' → private f (w, x) (w, x').
Proof. intros H. split_and!; [done|by apply steady_spares|]. cbn. by rewrite (proj1 H). Qed.

Lemma private_close f w x r s' : sys (fd_Close f) (w, x) = (r, s') →
  private f (w, x) s' ∧ returns r ∧ o_files s'.2 = o_files x.
Proof.
  intros [H E]%sys_inv. apply fd_Close_law in H as (Hr & Hf & Ho). split_and!; [|done|done].
  split_and!; [done| |by rewrite Hf]. intros g Hg Hh Hne. split; [|by rewrite Hf]. apply Ho; [done|]. by apply Hne.
Qed.

Lemma private_remove f w x r s' : hidden root (fd_Name f) → sys (sys_Remove (fd_Name f)) (w, x) = (r, s') →
  private f (w, x) s' ∧ returns r.
Proof.
  intros Hh [H E]%sys_inv. apply sys_Remove_law in H as (Hr & Hf & _ & Ho). split_and!; [|done].
  split_and!; [done| |].
  - intros g Hg _ Hne. specialize (Hne f eq_refl). split; [by apply Ho|].
    destruct Hf as [->|[_ ->]]; [by rewrite lookup_delete_ne|done].
  - destruct Hf as [->|[_ ->]]; [by apply objects_in_delete_hidden|done].
Qed.

(** What is dropped cannot fail the call. *)
Lemma ignore_inv {S A} (c : M S A) s r s' : ignore c s = (r, s') → ∃ r1, c s = (r1, s') ∧ (returns r1 → r = Ok tt).
Proof.
  unfold ignore. destruct (c s) as [r1 s1]. intros H. exists r1. destruct r1; simplify_eq; (split; [done|]); intros [[]|[]]; done.
Qed.

Lemma just_remove_spec {A} e w x (r : res A) s' :
  hidden root (fd_Name (lw_f w)) → just_remove e (w, x) = (r, s') → private (lw_f w) (w, x) s' ∧ fails r.
Proof.
  intros Hh. unfold just_remove, bind at 1, self. cbn [fst].
  intros [(u & s1 & (r1 & H1 & Hr1)%ignore_inv & [= <- <-])|(r0 & (r1 & H1 & Hr1)%ignore_inv & Hn & _)]%bind_inv;
    apply private_remove in H1 as [Hp Hr]; try done; [split; [done|by eexists]|].
  rewrite (Hr1 Hr) in Hn. by destruct (Hn tt).
Qed.

Lemma close_remove_spec {A} e w x (r : res A) s' :
  hidden root (fd_Name (lw_f w)) → close_remove e (w, x) = (r, s') → private (lw_f w) (w, x) s' ∧ fails r.
Proof.
  intros Hh. unfold close_remove, bind at 1, self. cbn [fst].
  intros [(u & s1 & (r1 & H1 & Hr1)%ignore_inv & H)|(r0 & (r1 & H1 & Hr1)%ignore_inv & Hn & _)]%bind_inv;
    apply private_close in H1 as (Hp & Hr & _).
  2:{ rewrite (Hr1 Hr) in Hn. by destruct (Hn tt). }
  destruct s1 as [w1 x1]. pose proof Hp as [Ew _]. cbn in Ew. subst w1.
  destruct (just_remove_spec e w x1 r s' Hh) as [Hp2 ?]; [|split; [by eapply private_trans|done]].
  unfold just_remove, bind at 1, self. exact H.
Qed.

Lemma fd_Write_spec b w x r s' c :
  writes x (lw_f w) c → sys (fd_Write (lw_f w) b) (w, x) = (r, s') →
  private (lw_f w) (w, x) s' ∧ returns r ∧ ∃ c', writes s'.2 (lw_f w) c' ∧ ∀ u, r = Ok u → c' = c ++ b.
Proof.
  intros (Ho & Hh & Hc) [H E]%sys_inv.
  destruct (fd_Write_law _ _ _ _ _ _ H Ho Hc) as (Hr & (c' & Hf & Hok) & Hopen). split_and!; [|done|].
  - split_and!; [done| |by rewrite Hf; apply objects_in_hidden]. intros g Hg _ Hne. specialize (Hne _ eq_refl).
    split; [by apply Hopen|]. by rewrite Hf, lookup_insert_ne.
  - exists c'. split; [|done]. split_and!; [by apply Hopen|done|]. by rewrite Hf, lookup_insert_eq.
Qed.

Lemma lw_Write_spec b w x r s' c :
  lw_done w = false → writes x (lw_f w) c → lw_Write b (w, x) = (r, s') →
  private (lw_f w) (w, x) s' ∧ returns r ∧ ∃ c', writes s'.2 (lw_f w) c' ∧ ∀ u, r = Ok u → c' = c ++ b.
Proof.
  intros Hd Hw. unfold lw_Write, bind at 1, self. cbn [fst]. rewrite Hd.
  intros [(u & [w1 x1] & [H1 E1]%sys_inv & H)|(r1 & [H1 E1]%sys_inv & _ & Hn & _ & Hf)]%bind_inv;
    cbn [fst snd] in *; apply check_ctx_spec in H1 as (E & Hr & _).
  - subst. by apply fd_Write_spec.
  - destruct s' as [w1 x1]. cbn in *. subst.
    split_and!; [apply private_refl|right; auto|exists c; split; [done|]; intros v Hv; by apply Hn in Hv].
Qed.

Lemma lw_Abort_spec w x r s' c :
  lw_done w = false → writes x (lw_f w) c → lw_Abort (w, x) = (r, s') →
  private (lw_f w) (set_done w, x) s' ∧ returns r.
Proof.
  intros Hd (_ & Hh & _). unfold lw_Abort, bind at 1, self. cbn [fst]. rewrite Hd.
  unfold bind at 1, modify at 1. cbn [fst snd]. set (w1 := set_done w).
  assert (lw_f w = lw_f w1) as Ef by done. rewrite Ef in *. unfold bind at 1, attempt.
  destruct (sys (fd_Close (lw_f w1)) (w1, x)) as [r1 s1] eqn:E1. apply private_close in E1 as (Hp1 & Hr1 & _).
  assert (∀ (e : option error) s1 r2 s2, private (lw_f w1) (w1, x) s1 →
    (let* _ := handle (sys (sys_Remove (fd_Name (lw_f w1)))) (λ e, if errors_Is e FsErrNotExist then ret tt else throw e) in
     match e with Some e => throw e | None => ret tt end) s1 = (r2, s2) → private (lw_f w1) (w1, x) s2 ∧ returns r2) as Hrest.
  { clear r1 s1 Hp1 Hr1. intros e [w2 x2] r2 s2 Hp H. pose proof Hp as [E2 _]. cbn in E2. subst w2.
    assert (∀ r3 s3, handle (sys (sys_Remove (fd_Name (lw_f w1)))) (λ e, if errors_Is e FsErrNotExist then ret tt else throw e) (w1, x2) = (r3, s3) →
      private (lw_f w1) (w1, x) s3 ∧ returns r3) as Hrm.
    { intros r3 s3. unfold handle. destruct (sys _ (w1, x2)) as [r4 s4] eqn:E4. apply private_remove in E4 as [Hp4 Hr4]; [|done].
      pose proof (private_trans _ _ _ _ Hp Hp4). destruct r4 as [u|e4| |]; [| |by destruct Hr4 as [[]|[]]..].
      - intros [= <- <-]. split; [done|by left; eexists].
      - destruct (errors_Is e4 FsErrNotExist); intros [= <- <-]; (split; [done|]); [by left; eexists|by right; eexists]. }
    apply bind_inv in H as [(u & s3 & [Hp3 _]%Hrm & H)|(r3 & [Hp3 Hr3]%Hrm & _ & _ & _ & Hf)].
    - destruct e; injection H as <- <-; (split; [done|]); [by right; eexists|by left; eexists].
    - split; [done|]. right. auto. }
  destruct r1 as [u|e| |]; [| |by destruct Hr1 as [[]|[]]..]; intros H;
    [exact (Hrest None _ _ _ Hp1 H)|exact (Hrest (Some e) _ _ _ Hp1 H)].
Qed.

(** A step of [Close] before the renaming, with its cleanup: the file is
    complete and private, or the call fails. *)
Definition complete (w : lwriter) (x x1 : os) : Prop :=
  private (lw_f w) (w, x) (w, x1) ∧ o_files x1 = o_files x.

Lemma close_step {A} (c : M os unit) h (k : unit → M (lwriter * os) A) w x x1 r s' :
  (∀ r1 s1, sys c (w, x1) = (r1, s1) → private (lw_f w) (w, x1) s1 ∧ returns r1 ∧ o_files s1.2 = o_files x1) →
  (∀ e x2 r s, h e (w, x2) = (r, s) → private (lw_f w) (w, x2) s ∧ fails (r : res unit)) →
  complete w x x1 → (let* u := handle (sys c) h in k u) (w, x1) = (r, s') →
  (private (lw_f w) (w, x) s' ∧ fails r) ∨ ∃ x2, complete w x x2 ∧ k tt (w, x2) = (r, s').
Proof.
  intros Hc Hh [Hp Hf] [([] & s1 & H1 & H)|(r1 & H1 & Hno & _ & Hfail & _)]%bind_inv; unfold handle in H1;
    destruct (sys c (w, x1)) as [r2 [w2 x2]] eqn:E2; destruct (Hc _ _ eq_refl) as (Hp2 & Hr2 & Hf2);
    pose proof Hp2 as [Ew _]; cbn in Ew, Hf2; subst w2; pose proof (private_trans _ _ _ _ Hp Hp2) as Hp12.
  - destruct r2 as [[]|e| |]; [|apply Hh in H1 as [_ [e' ?]]; done|done..]. injection H1 as <-. right. exists x2.
    split; [split; [done|congruence]|done].
  - left. destruct r2 as [[]|e| |]; [simplify_eq; by destruct (Hno tt)| |by destruct Hr2 as [[]|[]]..].
    apply Hh in H1 as [Hp3 Hf3]. split; [by eapply private_trans|auto].
Qed.

(** Until the renaming, everything is private; the renaming publishes. *)
Lemma lw_Close_spec p w x r s' c :
  relative p → lw_finalPath w = resolvePath rootDir p →
  lw_done w = false → writes x (lw_f w) c → lw_Close (w, x) = (r, s') →
  s'.1 = set_done w ∧ spares (Some (lw_f w)) x s'.2 ∧ returns r ∧
  (view_of s'.2 = <[p := c]> (view_of x) ∨ fails r ∧ view_of s'.2 = view_of x).
Proof.
  intros Hp Hfinal Hd (_ & Hh & Hc). unfold lw_Close, bind at 1, self. cbn [fst]. rewrite Hd.
  unfold bind at 1, modify at 1. cbn [fst snd]. set (w1 := set_done w).
  assert (lw_f w = lw_f w1) as Ef by done. rewrite Ef in *. change (lw_finalPath w) with (lw_finalPath w1) in *. clearbody w1. clear Hd Ef w.
  assert (∀ r s', private (lw_f w1) (w1, x) s' ∧ fails r → s'.1 = w1 ∧ spares (Some (lw_f w1)) x s'.2 ∧ returns r ∧
    (view_of s'.2 = <[p := c]> (view_of x) ∨ fails (r : res unit) ∧ view_of s'.2 = view_of x)) as Hfail.
  { intros r0 s0 [(E & S & V) Hr]. split_and!; [done|done|by right|by right]. }
  assert (∀ e x2 r s, close_remove e (w1, x2) = (r, s) → private (lw_f w1) (w1, x2) s ∧ fails (r : res unit)) as Hcr
    by (intros; by eapply close_remove_spec).
  assert (∀ e x2 r s, just_remove e (w1, x2) = (r, s) → private (lw_f w1) (w1, x2) s ∧ fails (r : res unit)) as Hjr
    by (intros; by eapply just_remove_spec).
  intros H. apply (close_step _ _ _ _ x) in H as [H|(x1 & Hx1 & H)]; [by apply Hfail| | |exact Hcr|split; [apply private_refl|done]].
  2:{ intros r1 [w2 x2] [(Ex & Hr & _)%check_ctx_spec E]%sys_inv. cbn in E, Ex. subst. split_and!; [apply private_refl|done|done]. }
  apply (close_step _ _ _ _ x) in H as [H|(x2 & Hx2 & H)]; [by apply Hfail| | |exact Hcr|exact Hx1].
  2:{ intros r1 [w2 x2] [[Hs Hr]%fd_Sync_law E]%sys_inv. cbn in E. subst. split_and!; [by apply private_steady|done|apply Hs]. }
  apply (close_step _ _ _ _ x) in H as [H|(x3 & [Hp3 Hf3] & H)]; [by apply Hfail| | |exact Hjr|exact Hx2].
  2:{ intros r1 s1. apply private_close. }
  apply bind_inv in H as [([] & s4 & H4 & H)|(r1 & H4 & Hno & _ & Hfl & _)]; unfold handle in H4;
    destruct (sys (sys_Rename _ _) (w1, x3)) as [r5 [w5 x5]] eqn:E5; apply sys_inv in E5 as [E5 Ew]; cbn in E5, Ew; subst w5;
    rewrite <- Hf3 in Hc; destruct (sys_Rename_law _ _ _ _ _ _ E5 Hc) as (Hr5 & Hv5 & Ho5); rewrite Hfinal in Hv5, Ho5;
    (assert (spares (Some (lw_f w1)) x x5) as Hs5;
      [eapply spares_trans; [apply Hp3|]; intros g Hg Hhg Hne; specialize (Hne _ eq_refl); split; [by apply Ho5; auto|];
       destruct Hv5 as [->|[_ ->]]; [|done]; rewrite lookup_insert_ne by (by apply not_eq_sym, Hhg); by rewrite lookup_delete_ne|]);
    (assert (view_of x5 = <[p := c]> (view_of x) ∨ fails r5 ∧ view_of x5 = view_of x) as Hv;
      [destruct Hv5 as [->|[? ->]]; rewrite Hf3; [left|by right]; rewrite objects_in_insert by done; by rewrite objects_in_delete_hidden|]).
  - destruct r5 as [[]|e| |]; [|apply Hjr in H4 as [_ [e' ?]]; done|done..]. injection H4 as <-.
    destruct Hv as [Hv|[[] _]]; [|done]. unfold ignore in H.
    destruct (sys _ (w1, x5)) as [r6 [w6 x6]] eqn:E6. apply sys_inv in E6 as [[Hs6 Hr6]%sys_syncDir_law Ew]. cbn in Ew, Hs6. subst w6.
    assert (r = Ok tt ∧ s' = (w1, x6)) as [-> ->] by (destruct Hr6 as [[u ->]|[e ->]]; by simplify_eq).
    split_and!; [done|eapply spares_trans; [exact Hs5|by apply steady_spares]|by left; eexists|]. left. cbn. by rewrite (proj1 Hs6).
  - destruct r5 as [[]|e| |]; [simplify_eq; by destruct (Hno tt)| |by destruct Hr5 as [[]|[]]..].
    apply Hjr in H4 as [(E & S & V) Hf]. specialize (Hfl Hf).
    split_and!; [done|by eapply spares_trans|by right|]. rewrite V. cbn. destruct Hv as [?|[_ ?]]; [by left|by right].
Qed.

(** What happens to a temporary file that did not exist is nobody's concern. *)
Lemma spares_fresh f x x1 x2 :
  o_files x !! fd_Name f = None → spares None x x1 → spares (Some f) x1 x2 → spares None x x2.
Proof.
  intros Hf H1 H2 g Ho Hh _. destruct (H1 g Ho Hh) as [Ho1 E]; [done|]. rewrite <- E. apply H2; [done|done|].
  intros f0 [= <-] En. destruct (o_open_file _ _ Ho) as [b Hb]. rewrite En, Hf in Hb. done.
Qed.

Lemma l_Write_spec p b x r x' : relative p → l_Write rootDir p b x = (r, x') →
  spares None x x' ∧ returns r ∧ (view_of x' = <[p := b]> (view_of x) ∨ fails r ∧ view_of x' = view_of x).
Proof.
  intros Hp [(-> & e & -> & He)|H]%after_ctx.
  { split_and!; [by apply steady_spares|by right; eexists|right; split; [by eexists|done]]. }
  apply bind_inv in H as [(w & x1 & H1 & H)|(r1 & H1 & Hno & _ & Hf & _)];
    destruct (openAtomicWriter_spec _ _ _ _ Hp H1) as (Hr1 & Hs1 & Hv1 & Hw).
  2:{ pose proof (Hf (returns_fails _ Hr1 Hno)). split_and!; [done|by right|by right]. }
  destruct (Hw _ eq_refl) as (Hd & Hfinal & Hwr & Hfresh). clear Hw Hr1.
  unfold with_writer in H. destruct (bind _ _ (w, x1)) as [r2 [w2 x2]] eqn:E2. injection H as <- <-.
  assert (spares (Some (lw_f w)) x1 x2 ∧ returns r2 ∧ (view_of x2 = <[p := b]> (view_of x1) ∨ fails r2 ∧ view_of x2 = view_of x1))
    as (Hs2 & Hr2 & Hv2); [|rewrite Hv1 in Hv2; split_and!; [by eapply spares_fresh|done|done]].
  apply bind_inv in E2 as [([] & [w3 x3] & H3 & H)|(r3 & H3 & Hno & _ & Hf & _)]; unfold handle in H3;
    destruct (sys (fd_Write _ _) (w, x1)) as [r4 [w4 x4]] eqn:E4; destruct (fd_Write_spec _ _ _ _ _ _ Hwr E4) as (Hp4 & Hr4 & c & Hc & Hok);
    pose proof Hp4 as (Ew & Hs4 & Hv4); cbn in Ew, Hs4, Hv4, Hc; subst w4.
  - destruct r4 as [[]|e| |]; [| |done..].
    2:{ apply bind_inv in H3 as [(? & ? & _ & [=])|(? & _ & _ & Hn & _)]. by destruct (Hn tt). }
    injection H3 as <- <-. rewrite (Hok _ eq_refl) in Hc.
    destruct (lw_Close_spec _ _ _ _ _ _ Hp Hfinal Hd Hc H) as (_ & Hs5 & Hr5 & Hv5). cbn in *. rewrite Hv4 in Hv5.
    split_and!; [by eapply spares_trans|done|done].
  - destruct r4 as [[]|e| |]; [simplify_eq; by destruct (Hno tt)| |by destruct Hr4 as [[]|[]]..].
    assert (private (lw_f w) (set_done w, x4) (w2, x2) ∧ fails r3) as [(_ & Hs5 & Hv5) Hf3].
    { apply bind_inv in H3 as [(u & s5 & (r5 & H5 & _)%ignore_inv & [= <- ->])|(r5 & (r6 & H5 & Hr6)%ignore_inv & Hn5 & _)];
        destruct (lw_Abort_spec _ _ _ _ _ Hd Hc H5) as [Hp5 Hr5]; [split; [done|by eexists]|].
      rewrite (Hr6 Hr5) in Hn5. by destruct (Hn5 tt). }
    specialize (Hf Hf3). cbn in Hs5, Hv5. split_and!; [by eapply spares_trans|by right|right; split; [done|congruence]].
Qed.

(** ** Listing *)

Lemma Rel_resolve ps p : Forall proper ps → relative p → Rel (abs ps) (abs (ps ++ Split p slash)) = Some p.
Proof.
  intros Hps Hp. pose proof (relative_proper _ Hp) as Hpp. unfold Rel. rewrite !cleaned_abs by (try apply Forall_app; auto).
  pose proof (Split_nonempty p slash) as Hne.
  rewrite bool_decide_false by (intros [= E]; symmetry in E; rewrite <- (app_nil_r ps) in E at 2; by apply app_inv_head in E).
  cbn [fst snd negb andb]. rewrite bool_decide_true by done. cbn [negb]. rewrite strip_common_app. by rewrite join_Split.
Qed.

Lemma Rel_relative ps ds p : Forall proper ps → Forall proper ds → Rel (abs ps) (abs ds) = Some p → relative p →
  ds = ps ++ Split p slash.
Proof.
  intros Hps Hds H Hp. unfold Rel in H. rewrite !cleaned_abs in H by done. cbn [fst snd negb andb] in H.
  case_bool_decide; [injection H as <-; by vm_compute in Hp|]. rewrite bool_decide_true in H by done. cbn [negb] in H.
  destruct (strip_common ps ds) as [bs ts] eqn:E. apply strip_common_spec in E as (c & -> & -> & _).
  assert (Forall (λ e, has_char slash e = false) ts) as Hts.
  { apply Forall_app in Hds as [_ Hds]. eapply Forall_impl; [exact Hds|]. by intros ? (_ & _ & _ & ?). }
  destruct bs as [|b bs].
  - injection H as <-. rewrite app_nil_r. destruct ts as [|t ts]; [by vm_compute in Hp|]. by rewrite Split_join.
  - exfalso. case_bool_decide; [done|]. apply (inj Some) in H. rewrite <- H in Hp. clear H. cbn [map app] in Hp.
    apply relative_proper in Hp. rewrite Split_join in Hp; [by apply Forall_cons in Hp as [(_ & _ & ? & _) _]|done|].
    constructor; [done|]. apply Forall_app. split; [|done]. clear. induction bs; simpl; constructor; done.
Qed.

(** The walked directory is above everything with the prefix. *)
Lemma removelast_prefix {A} (l k : list A) : l `prefix_of` k → removelast l `prefix_of` k.
Proof.
  destruct l as [|x l _] using rev_ind; [done|]. rewrite removelast_last. apply prefix_app_l.
Qed.

Lemma filepath_Dir_abs ps : Forall proper ps → filepath_Dir (abs ps) = abs (removelast ps) ∧ Forall proper (removelast ps).
Proof.
  intros H. split; [by apply filepath_Dir_render, canonical_proper|].
  destruct ps as [|x l _] using rev_ind; [done|]. rewrite removelast_last. by apply Forall_app in H as [? _].
Qed.

Lemma clean_parts_app r out l m : clean_parts r out (l ++ m) = clean_parts r (reverse (clean_parts r out l)) m.
Proof.
  revert out. induction l as [|x l IH]; intros out; simpl; [by rewrite reverse_involutive|]. by repeat case_match.
Qed.

Lemma Split_extend a k e t : Split a slash = k ++ [e] → Split (a +:+ t) slash = k ++ Split (e +:+ t) slash.
Proof.
  intros E. pose proof (join_Split a) as Ha. rewrite E in Ha. rewrite <- Ha. destruct k as [|x k]; [done|].
  rewrite join_slash_app by done.
  assert ((join_slash (x :: k) +:+ "/" +:+ join_slash [e]) +:+ t = join_slash (x :: k) +:+ "/" +:+ (e +:+ t)) as ->.
  { apply chars_inj. rewrite !chars_app. by rewrite <- !app_assoc. }
  rewrite Split_app. f_equal. apply Split_join; [done|]. pose proof (Split_no_slash a) as H. rewrite E in H.
  by apply Forall_app in H as [? _].
Qed.

(** One more element of any kind: where it leads. *)
Lemma clean_last l e : Forall proper l → has_char slash e = false →
  ∃ full, clean_parts true (reverse l) [e] = full ∧ Forall proper full ∧
    (full `prefix_of` l ∨ full = l ++ [e]) ∧ removelast full `prefix_of` l.
Proof.
  intros Hl He. eexists. split; [done|]. cbn [clean_parts].
  destruct (bool_decide (e = "") || bool_decide (e = ".")) eqn:E1.
  { rewrite reverse_involutive. split_and!; [done|by left|]. by apply removelast_prefix. }
  apply orb_false_iff in E1 as [E1%bool_decide_eq_false E2%bool_decide_eq_false].
  case_bool_decide as E3.
  - destruct l as [|x l _] using rev_ind.
    + cbn. split_and!; [done|by left|done].
    + rewrite reverse_snoc. apply Forall_app in Hl as [Hl [(_ & _ & Hx & _) _]%Forall_cons].
      rewrite bool_decide_false by done. rewrite reverse_involutive. split_and!; [done|left; by apply prefix_app_r|].
      etrans; [by apply removelast_prefix|by apply prefix_app_r].
  - rewrite reverse_cons, reverse_involutive. split_and!; [|by right|by rewrite removelast_last].
    apply Forall_app. split; [done|]. by apply Forall_singleton.
Qed.

Lemma searchDir_above prefix n :
  relative n → HasPrefix n prefix = true →
  ∃ ds, searchDir rootDir prefix = abs ds ∧ Forall proper ds ∧ ds `prefix_of` root ++ Split n slash.
Proof.
  intros Hn [t ->]%HasPrefix_spec. unfold searchDir, resolvePath. rewrite Join_clean by done.
  destruct (decide (prefix = "")) as [->|Hne].
  { rewrite bool_decide_true by done. rewrite andb_false_r. exists root. split_and!; [|done|by apply prefix_app_r].
    unfold Join. rewrite bool_decide_false, bool_decide_true by done. rewrite cleaned_Clean. by rewrite cleaned_abs. }
  rewrite (bool_decide_false (prefix = "")) by done. cbn [negb]. rewrite andb_true_r.
  pose proof (Split_nonempty prefix slash) as Hs. pose proof (Split_no_slash prefix) as Hsl.
  destruct (Split prefix slash) as [|e k _] eqn:Esp using rev_ind; [done|]. clear Hs.
  pose proof (relative_proper _ Hn) as Hpp. rewrite (Split_extend _ _ _ _ Esp) in Hpp |- *.
  apply Forall_app in Hpp as [Hk _]. apply Forall_app in Hsl as [_ [He _]%Forall_cons].
  assert (Forall proper (root ++ k)) as Hrk by (by apply Forall_app).
  destruct (clean_last (root ++ k) e Hrk He) as (full & Hfull & Hfp & Hcase & Hrm).
  assert (cleaned (Join rootDir prefix) = (true, full)) as Hc.
  { unfold Join. rewrite !bool_decide_false by done. rewrite cleaned_Clean. unfold cleaned. rewrite Split_app, Esp.
    change (HasPrefix (rootDir +:+ "/" +:+ prefix) "/") with true. cbv zeta. f_equal.
    rewrite clean_parts_app. change (clean_parts true [] (Split rootDir slash)) with (cleaned rootDir).2.
    rewrite cleaned_abs by done. cbn [snd]. rewrite clean_parts_proper by done. by rewrite <- reverse_app. }
  rewrite Hc. change (render (true, full)) with (abs full). rewrite app_assoc.
  destruct (HasSuffix prefix "/") eqn:Esuf; cbn [negb].
  - exists full. split_and!; [done|done|]. pose proof (HasSuffix_slash _ _ _ Esuf Esp) as ->.
    destruct Hcase as [?|E]; [by apply prefix_app_r|]. exfalso. rewrite E in Hfp.
    by apply Forall_app in Hfp as [_ [(? & _) _]%Forall_cons].
  - destruct (filepath_Dir_abs _ Hfp) as [-> ?]. exists (removelast full). split_and!; [done|done|by apply prefix_app_r].
Qed.

Lemma canonical_abs c : canonical c → c.1 = true → Forall proper c.2 ∧ render c = abs c.2.
Proof.
  intros (k & ns & E & Hn & Hk) H1. rewrite (Hk H1) in E. simpl in E. destruct c as [r ps]. cbn in *. by subst.
Qed.

Lemma searchDir_abs prefix : ∃ ds, searchDir rootDir prefix = abs ds ∧ Forall proper ds.
Proof.
  assert (∃ full, resolvePath rootDir prefix = abs full ∧ Forall proper full) as (full & Hf & Hp).
  { unfold resolvePath. rewrite Join_clean by done. pose proof (cleaned_canonical (Join rootDir prefix)) as Hc.
    destruct (canonical_abs _ Hc) as [? ->]; [|by eexists]. unfold Join.
    destruct (decide (prefix = "")) as [->|Hne]; [|rewrite !bool_decide_false by done; by rewrite cleaned_Clean].
    rewrite bool_decide_false, bool_decide_true by done. rewrite cleaned_Clean. by rewrite cleaned_abs. }
  unfold searchDir. rewrite Hf. destruct (_ && _); [|by exists full].
  destruct (filepath_Dir_abs _ Hp) as [-> ?]. by eexists.
Qed.

(** The walk lists the entries that its callback accepts, up to the first
    error. *)
Lemma list_entry_cases prefix it : (∃ x, list_entry rootDir prefix it = Ok x) ∨ ∃ e, list_entry rootDir prefix it = Err e.
Proof. unfold list_entry. repeat case_match; eauto. Qed.

Lemma list_walk_spec prefix items files e : list_walk rootDir prefix items = (files, e) →
  (∀ fi, fi ∈ files → ∃ it, it ∈ items ∧ list_entry rootDir prefix it = Ok (Some fi)) ∧
  (∀ e', e = Some e' → ∃ it, it ∈ items ∧ list_entry rootDir prefix it = Err e') ∧
  (e = None → ∀ it, it ∈ items → ∃ x, list_entry rootDir prefix it = Ok x ∧ ∀ fi, x = Some fi → fi ∈ files).
Proof.
  revert files. induction items as [|d items IH]; intros files; cbn [list_walk].
  { intros [= <- <-]. split_and!; [by intros ? ?%elem_of_nil|done|by intros _ ? ?%elem_of_nil]. }
  destruct (list_entry_cases prefix d) as [[x Hx]|[e1 Hx]]; rewrite Hx.
  - destruct (list_walk rootDir prefix items) as [fs e2]. intros [= <- <-]. destruct (IH _ eq_refl) as (Ha & Hb & Hc).
    split_and!.
    + intros fi [Hfi|(it & ? & ?)%Ha]%elem_of_app; [|exists it; set_solver]. exists d. split; [by left|].
      destruct x; [|by apply elem_of_nil in Hfi]. by apply list_elem_of_singleton in Hfi as ->.
    + intros e' (it & ? & ?)%Hb. exists it. set_solver.
    + intros He it [->|Hit]%elem_of_cons.
      * exists x. split; [done|]. intros fi ->. apply elem_of_app. left. by apply list_elem_of_singleton.
      * destruct (Hc He _ Hit) as (y & ? & Hy). exists y. split; [done|]. intros fi Hfi. apply elem_of_app. right. by apply Hy.
  - intros [= <- <-]. split_and!; [by intros ? ?%elem_of_nil| |done]. intros e' [= <-]. exists d. split; [by left|done].
Qed.

Lemma HasSuffix_relative n : relative (n +:+ "/") → False.
Proof.
  intros H%relative_proper. change (n +:+ "/") with (n +:+ "/" +:+ "") in H. rewrite Split_app in H.
  by apply Forall_app in H as [_ [(? & _) _]%Forall_cons].
Qed.

Lemma filepath_Base_abs ps e : proper e → Forall proper ps → filepath_Base (abs (ps ++ [e])) = e.
Proof.
  intros He Hps. unfold filepath_Base. rewrite bool_decide_false by done. unfold abs, render. cbn [fst snd].
  change ("/" +:+ join_slash (ps ++ [e])) with ("" +:+ "/" +:+ join_slash (ps ++ [e])).
  rewrite Split_app, Split_join; [|by destruct ps|].
  - rewrite !filter_app, app_assoc. rewrite (filter_cons_True _ e) by apply He. rewrite filter_nil. by rewrite last_snoc.
  - apply Forall_app. split; [|constructor; [apply He|done]]. eapply Forall_impl; [exact Hps|]. by intros ? (_ & _ & _ & ?).
Qed.

(** What the walk of a directory promises of its entries; a conjunct of
    [sys_WalkDir_law] each. *)
Section Walk.
Context (x : os) (ds : list string) (items : list walk_item) (Hds : Forall proper ds).
Context (Hpath : ∀ it, it ∈ items → wi_err it = None → ∃ ns, Forall proper ns ∧ wi_path it = abs (ds ++ ns)).
Context (Hreg : ∀ it, it ∈ items → wi_err it = None → wi_IsRegular it = true →
  wi_IsDir it = false ∧ is_Some (o_files x !! wi_path it) ∧ wi_Name it = filepath_Base (wi_path it)).
Context (Hmiss : ∀ it e, it ∈ items → wi_err it = Some e → errors_Is e FsErrNotExist = true →
  ∀ ns, Forall proper ns → o_files x !! abs (ds ++ ns) = None).
Context (Hquiet : ∀ it e, it ∈ items → wi_ctx it = Some e ∨ wi_Info it = inl e → errors_Is e FsErrNotExist = false).

(** A listed name is that of a file. *)
Lemma listed_is_file prefix it fi : it ∈ items → relative (fi_Name fi) → list_entry rootDir prefix it = Ok (Some fi) →
  is_Some (o_files x !! abs (root ++ Split (fi_Name fi) slash)) ∧ HasPrefix (fi_Name fi) prefix = true.
Proof using Hds Hpath Hreg root_proper.
  intros Hit Hn Hent. unfold list_entry in Hent.
  destruct (wi_err it) eqn:E1; [done|]. destruct (wi_ctx it); [done|]. destruct (Rel rootDir (wi_path it)) as [rel|] eqn:Erel; [|done].
  destruct (_ || _); [done|]. destruct (negb (wi_IsRegular it) && _) eqn:E2; [done|]. destruct (_ && HasPrefix _ _); [done|].
  destruct (HasPrefix (if wi_IsDir it then _ else _) prefix) eqn:E3; [|done].
  destruct (wi_Info it) as [|size]; [done|]. injection Hent as <-. cbn [fi_Name] in *.
  destruct (wi_IsDir it) eqn:E4; [by apply HasSuffix_relative in Hn|]. split; [|done].
  rewrite andb_true_r in E2. apply negb_false_iff in E2. destruct (Hreg _ Hit E1 E2) as (_ & Hex & _).
  destruct (Hpath _ Hit E1) as (ns & Hns & Ep). rewrite Ep in Erel, Hex.
  rewrite <- (Rel_relative root (ds ++ ns) rel); [done|done| |done|done]. by apply Forall_app.
Qed.

(** While there is a file below the directory, the walk does not end early. *)
Lemma error_of_missing prefix it e ns : it ∈ items → list_entry rootDir prefix it = Err e → errors_Is e FsErrNotExist = true →
  Forall proper ns → is_Some (o_files x !! abs (ds ++ ns)) → False.
Proof using Hmiss Hquiet.
  intros Hit Hent Hne Hns Hex. unfold list_entry in Hent. destruct (wi_err it) as [e1|] eqn:E1.
  { injection Hent as ->. rewrite (Hmiss _ _ Hit E1 Hne ns Hns) in Hex. by destruct Hex. }
  destruct (wi_ctx it) as [e1|] eqn:E2; [injection Hent as ->; rewrite (Hquiet _ _ Hit (or_introl E2)) in Hne; done|].
  destruct (Rel rootDir (wi_path it)); [|by injection Hent as <-]. repeat case_match; try done;
    (injection Hent as ->; rewrite (Hquiet it e Hit) in Hne; [done|by right]).
Qed.

Lemma relative_Base n : relative n → HasPrefix (filepath_Base (abs (root ++ Split n slash))) localTempPrefix = false.
Proof using root_proper.
  intros Hn. pose proof (relative_elems _ Hn) as Hel. pose proof (Split_nonempty n slash) as Hne.
  destruct (Split n slash) as [|e0 l0 _] using rev_ind; [done|]. rewrite app_assoc.
  apply Forall_app in Hel as [Hl0 [[He0 ?] _]%Forall_cons]. rewrite filepath_Base_abs; [done|done|].
  apply Forall_app. split; [done|]. eapply Forall_impl; [exact Hl0|]. by intros ? []. 
Qed.

(** A file is listed under its name, if the walk meets it. *)
Lemma file_is_listed prefix it n y : it ∈ items → relative n → HasPrefix n prefix = true → wi_err it = None →
  wi_IsRegular it = true → wi_path it = abs (root ++ Split n slash) → list_entry rootDir prefix it = Ok y →
  ∃ size, y = Some {| fi_Name := n; fi_Size := size |}.
Proof using Hreg root_proper.
  intros Hit Hn Hpre He Er Ep Hy. destruct (Hreg _ Hit He Er) as (Ed & _ & Ename).
  unfold list_entry in Hy. rewrite He, Ed, Er in Hy. cbn [negb andb] in Hy.
  destruct (wi_ctx it); [done|]. rewrite Ep, Rel_resolve in Hy by done.
  rewrite !bool_decide_false in Hy by (intros ->; by vm_compute in Hn). cbn [orb] in Hy.
  rewrite Ename, Ep, relative_Base, Hpre in Hy by done. destruct (wi_Info it) as [|size]; [done|]. injection Hy as <-. by eexists.
Qed.

End Walk.

Lemma l_List_spec prefix x r x' : l_List rootDir prefix x = (r, x') →
  steady x x' ∧ returns r ∧ (∀ l, r = Ok l → ∀ n, relative n →
    n ∈ fi_Name <$> l ↔ n ∈ dom (view_of x) ∧ HasPrefix n prefix = true).
Proof.
  intros [(-> & e & -> & He)|H]%after_ctx; [split_and!; [by split|by right; eexists|done]|].
  destruct (searchDir_abs prefix) as (ds & Eds & Hds). rewrite Eds in H.
  destruct (sys_WalkDir (abs ds) x) as [items x1] eqn:Ew.
  destruct (sys_WalkDir_law _ _ _ _ Ew Hds) as (Hs & Hpath & Hreg & Hall & Hmiss & Hquiet).
  destruct (list_walk rootDir prefix items) as [files err] eqn:El.
  destruct (list_walk_spec _ _ _ _ El) as (Hin & Herr & Hok).
  assert (x1 = x' ∧ returns r ∧ ∀ l, r = Ok l → l = files ∧ ∀ e, err = Some e → errors_Is e FsErrNotExist = true) as (-> & Hr & Hl).
  { destruct err as [e|]; [destruct (errors_Is e FsErrNotExist) eqn:E|]; injection H as <- <-;
      (split_and!; [done|first [by left; eexists|by right; eexists]|]); intros l Hl; simplify_eq; (split; [done|]); by intros ? [= <-]. }
  split_and!; [done|done|]. intros l Hl' n Hn. destruct (Hl _ Hl') as [-> Hne]. clear Hl Hl' H Hr r Hs Ew El x'.
  rewrite elem_of_dom, objects_in_lookup by done. rewrite resolve_abs by done. rewrite list_elem_of_fmap. split.
  - intros (fi & -> & (it & Hit & Hent)%Hin). by eapply listed_is_file.
  - intros [Hex Hpre]. destruct (searchDir_above prefix n Hn Hpre) as (ds' & E & Hds' & ns & Ens). rewrite Eds in E.
    apply abs_inj in E as <-; [|done..].
    assert (Forall proper ns) as Hns.
    { assert (Forall proper (ds ++ ns)) as H by (rewrite <- Ens; apply Forall_app; split; [done|by apply relative_proper]).
      by apply Forall_app in H as [_ ?]. }
    pose proof Hex as Hex'. rewrite Ens in Hex. assert (err = None) as ->.
    { destruct err as [e|]; [exfalso|done]. destruct (Herr _ eq_refl) as (it & Hit & Hent). by eapply error_of_missing; eauto. }
    assert (∀ it, it ∈ items → wi_err it = None) as Hnoerr.
    { intros it Hit. destruct (Hok eq_refl _ Hit) as (y & Hy & _). unfold list_entry in Hy. by destruct (wi_err it). }
    destruct (Hall ns Hnoerr Hns Hex) as (it & Hit & Ep & Er). destruct (Hok eq_refl _ Hit) as (y & Hy & Hlisted).
    rewrite <- Ens in Ep. destruct (file_is_listed x items Hreg prefix it n y) as [size ->]; [by auto..|].
    eexists. split; [|by apply Hlisted]. done.
Qed.

End Calls.
