(* ===== verification/LocalExample.v ===== *)
(** A file system in memory that keeps the contract of LocalLaws.v whatever
    its faults, and [LocalStorage] running on it. *)

From S2P Require Import Prelude Errors GoStrings Keys Digest Store Paths DiskSpace Local LocalLaws.
#[local] Open Scope Z_scope.

Module Sys.

(** Every call consumes one entry of the schedule: it succeeds, fails before
    taking effect, or takes effect and still reports an error. *)
Inductive fault := FNone | FBefore | FAfter.

Record state := {
  files : gmap string bytes;
  readers : list (bytes * Z);
  temps : nat;
  cancelled : bool;
  schedule : list fault;
}.

Inductive handle_of := HTemp (name : string) | HRead (i : nat).

Definition set_files (g : gmap string bytes) (s : state) : state :=
  {| files := g; readers := readers s; temps := temps s; cancelled := cancelled s; schedule := schedule s |}.
Definition set_readers (l : list (bytes * Z)) (s : state) : state :=
  {| files := files s; readers := l; temps := temps s; cancelled := cancelled s; schedule := schedule s |}.
Definition set_temps (n : nat) (s : state) : state :=
  {| files := files s; readers := readers s; temps := n; cancelled := cancelled s; schedule := schedule s |}.
Definition tick (s : state) : state :=
  {| files := files s; readers := readers s; temps := temps s; cancelled := cancelled s; schedule := tail (schedule s) |}.

Definition eio : error := ELeaf "input/output error" false.
Definition enoent (p : string) : error := Errorf p [ESentinel FsErrNotExist].

(** The state [g] a call leads to and its outcome, under the schedule. *)
Definition call {A} (f : state → res A * state) (s : state) : res A * state :=
  match head (schedule s) with
  | Some FBefore => (Err eio, tick s)
  | Some FAfter => (Err eio, (f (tick s)).2)
  | Some FNone | None => f (tick s)
  end.

Definition s_Stat (p : string) (s : state) : res Z * state :=
  match files s !! p with Some b => (Ok (blen b), s) | None => (Err (enoent p), s) end.
Definition s_ReadFile (p : string) (s : state) : res bytes * state :=
  match files s !! p with Some b => (Ok b, s) | None => (Err (enoent p), s) end.
Definition s_Remove (p : string) (s : state) : res unit * state :=
  match files s !! p with
  | Some _ => (Ok tt, set_files (delete p (files s)) s)
  | None => (Err (enoent p), s)
  end.
Definition temp_name (dir pattern : string) (n : nat) : string :=
  in_dir dir (of_chars (removelast (chars pattern) ++ replicate n "0"%char)).
Definition s_CreateTemp (dir pattern : string) (s : state) : res handle_of * state :=
  let s := tick s in
  let name := temp_name dir pattern (temps s) in
  match head (schedule s), files s !! name with
  | None, None | Some FNone, None => (Ok (HTemp name), set_temps (S (temps s)) (set_files (<[name := []]> (files s)) s))
  | _, _ => (Err eio, set_temps (S (temps s)) s)
  end.
Definition s_Open (p : string) (s : state) : res handle_of * state :=
  match files s !! p with
  | Some b => (Ok (HRead (length (readers s))), set_readers (readers s ++ [(b, 0)]) s)
  | None => (Err (enoent p), s)
  end.
Definition s_Rename (a b : string) (s : state) : res unit * state :=
  match files s !! a with
  | Some c => (Ok tt, set_files (<[b := c]> (delete a (files s))) s)
  | None => (Err (enoent a), s)
  end.

(** The walk of a directory: its own entry, and all files below it. *)
Definition below (p f : string) : bool :=
  bool_decide (Clean f = f) && (cleaned f).1 && bool_decide ((cleaned p).2 `prefix_of` (cleaned f).2).
Definition file_item (f : string) (b : bytes) : walk_item := {|
  wi_path := f; wi_err := None; wi_ctx := None; wi_Name := filepath_Base f; wi_IsRegular := true; wi_IsDir := false;
  wi_Info := inr (blen b) |}.
Definition dir_item (p : string) : walk_item := {|
  wi_path := p; wi_err := None; wi_ctx := None; wi_Name := filepath_Base p; wi_IsRegular := false; wi_IsDir := true;
  wi_Info := inr 0 |}.
Definition error_item (p : string) (e : error) : walk_item := {|
  wi_path := p; wi_err := Some e; wi_ctx := None; wi_Name := filepath_Base p; wi_IsRegular := false; wi_IsDir := false;
  wi_Info := inr 0 |}.
Definition s_WalkDir (p : string) (s : state) : list walk_item * state :=
  match head (schedule s), filter (λ kv, below p kv.1 = true) (map_to_list (files s)) with
  | Some FBefore, _ | Some FAfter, _ => ([dir_item p; error_item p eio], tick s)
  | _, [] => ([error_item p (enoent p)], tick s)
  | _, l => (dir_item p :: ((λ kv, file_item kv.1 kv.2) <$> l), tick s)
  end.

Definition h_Name (h : handle_of) : string := match h with HTemp n => n | HRead _ => "" end.
Definition h_Seek (h : handle_of) (n : Z) (s : state) : res unit * state :=
  match h with
  | HRead i => (Ok tt, set_readers (alter (λ x, (x.1, n)) i (readers s)) s)
  | HTemp _ => (Err eio, s)
  end.
Definition h_Reads (h : handle_of) (s : state) : reads :=
  match h with
  | HRead i =>
      match readers s !! i with
      | Some (b, n) => let rest := drop (Z.to_nat n) b in ([(None, take 2 rest); (None, drop 2 rest)], None)
      | None => ([], Some eio)
      end
  | HTemp _ => ([], Some eio)
  end.
Definition h_Write (h : handle_of) (b : bytes) (s : state) : res unit * state :=
  match h with
  | HTemp n => (Ok tt, set_files (alter (λ c, c ++ b) n (files s)) s)
  | HRead _ => (Err eio, s)
  end.

Definition system : OS := {|
  os := state;
  fd := handle_of;
  sys_ctx_Err s := if cancelled s then Some (ESentinel CtxCanceled) else None;
  fd_Name := h_Name;
  sys_Stat p := call (s_Stat p);
  sys_ReadFile p := call (s_ReadFile p);
  sys_Remove p := call (s_Remove p);
  sys_MkdirAll p := call (λ s, (Ok tt, s));
  sys_CreateTemp := s_CreateTemp;
  sys_Open p := call (s_Open p);
  sys_Rename a b := call (s_Rename a b);
  sys_WalkDir := s_WalkDir;
  fd_Seek h n := call (h_Seek h n);
  fd_Reads := h_Reads;
  fd_Write h b := call (h_Write h b);
  fd_Sync h := call (λ s, (Ok tt, s));
  fd_Close h := call (λ s, (Ok tt, s));
  sys_dirs := {|
    dirh := unit;
    dir_Open _ := call (λ s, (Ok tt, s));
    dir_Sync _ := call (λ s, (Ok tt, s));
    dir_Close _ := call (λ s, (Ok tt, s));
    sys_Statfs _ := call (λ s, (Ok (10 ^ 6, 4096), s));
  |};
|}.

(** ** The contract *)

Definition opened (s : state) (h : handle_of) : Prop := ∃ n, h = HTemp n ∧ is_Some (files s !! n).
Definition reading (s : state) (h : handle_of) (b : bytes) (n : Z) : Prop := ∃ i, h = HRead i ∧ readers s !! i = Some (b, n).

Definition still (s s' : state) : Prop := files s' = files s ∧ ∀ h, opened s h → opened s' h.

(** A call does nothing and fails, or it does what [f] does and returns or
    hides its outcome. *)
Lemma call_cases {A} (f : state → res A * state) s r s' : call f s = (r, s') →
  (r = Err eio ∧ s' = tick s) ∨ ∃ r0, f (tick s) = (r0, s') ∧ (r = r0 ∨ r = Err eio).
Proof.
  unfold call. destruct (head (schedule s)) as [[]|]; intros H; simplify_eq; eauto.
  right. eexists. by rewrite <- surjective_pairing; eauto.
Qed.

Lemma opened_ext s s' h : files s' = files s → opened s h → opened s' h.
Proof. unfold opened. by intros ->. Qed.

Lemma quiet_steady s s' : files s' = files s → still s s'.
Proof. intros E. split; [done|]. intros h. by apply opened_ext. Qed.

Ltac sys_call H := apply call_cases in H as [[-> ->]|(? & H & [->| ->])].
Ltac sys_done := unfold returns, fails in *; naive_solver.

Lemma noop_law s r s' : call (λ s, (Ok tt, s)) s = (r, s') → still s s' ∧ returns r.
Proof. intros H. sys_call H; simplify_eq; (split; [by apply quiet_steady|]); sys_done. Qed.

Lemma Stat_law p s r s' : call (s_Stat p) s = (r, s') → still s s' ∧ returns r ∧
  (∀ n b, r = Ok n → files s !! p = Some b → n = blen b) ∧
  (∀ e, r = Err e → errors_Is e FsErrNotExist = true → files s !! p = None).
Proof.
  intros H. sys_call H; unfold s_Stat in *; cbn [files tick] in *; repeat case_match; simplify_eq;
    (split_and!; [by apply quiet_steady|sys_done|sys_done|sys_done]).
Qed.

Lemma ReadFile_law p s r s' : call (s_ReadFile p) s = (r, s') → still s s' ∧ returns r ∧
  (∀ b, r = Ok b → files s !! p = Some b) ∧
  (∀ e, r = Err e → errors_Is e ErrNotFound = false ∧ (errors_Is e FsErrNotExist = true → files s !! p = None)).
Proof.
  intros H. sys_call H; unfold s_ReadFile in *; cbn [files tick] in *; repeat case_match; simplify_eq;
    (split_and!; [by apply quiet_steady|sys_done|sys_done|by intros e [= <-]]).
Qed.

Lemma Remove_law p s r s' : call (s_Remove p) s = (r, s') → returns r ∧
  (files s' = delete p (files s) ∨ fails r ∧ files s' = files s) ∧
  (∀ e, r = Err e → errors_Is e FsErrNotExist = true → files s !! p = None) ∧
  (∀ h, opened s h → h_Name h ≠ p → opened s' h).
Proof.
  intros H. sys_call H; unfold s_Remove in *; cbn [files tick] in *.
  - split_and!; [sys_done|sys_done|sys_done|by intros; eapply opened_ext].
  - destruct (files s !! p) eqn:E; simplify_eq; (split_and!; [sys_done|sys_done|sys_done|]).
    + intros h (n & -> & Hn) Hne. exists n. split; [done|]. cbn in *. by rewrite lookup_delete_ne.
    + by intros; eapply opened_ext.
  - destruct (files s !! p) eqn:E; simplify_eq; (split_and!; [sys_done|sys_done|sys_done|]).
    + intros h (n & -> & Hn) Hne. exists n. split; [done|]. cbn in *. by rewrite lookup_delete_ne.
    + by intros; eapply opened_ext.
Qed.

Lemma CreateTemp_law dir pre s r s' : s_CreateTemp dir (pre +:+ "*") s = (r, s') → returns r ∧
  (fails r → still s s') ∧
  ∀ f, r = Ok f → ∃ x, has_char slash x = false ∧ h_Name f = in_dir dir (pre +:+ x) ∧
    files s !! h_Name f = None ∧ files s' = <[h_Name f := []]> (files s) ∧
    opened s' f ∧ ∀ g, opened s g → opened s' g.
Proof.
  unfold s_CreateTemp. cbv zeta. set (name := temp_name _ _ _). intros H.
  assert (r = Err eio ∧ files s' = files s ∨ r = Ok (HTemp name) ∧ files s !! name = None ∧ files s' = <[name := []]> (files s)) as Hc.
  { destruct (head _) as [[]|], (files (tick s) !! name) eqn:E; simplify_eq; auto. }
  clear H. destruct Hc as [[-> E]|(-> & Hn & E)].
  - split_and!; [sys_done|by intros _; apply quiet_steady|done].
  - split_and!; [sys_done|by intros [? ?]|]. intros f [= <-].
    exists (of_chars (replicate (temps (tick s)) "0"%char)). split_and!.
    + apply has_char_false. rewrite chars_of_chars. by intros [? _]%elem_of_replicate.
    + unfold name, temp_name. cbn [h_Name]. f_equal. rewrite chars_app. change (chars "*") with ["*"%char]. rewrite removelast_last.
      apply chars_inj. by rewrite chars_app, !chars_of_chars.
    + done.
    + done.
    + exists name. split; [done|]. by rewrite E, lookup_insert_eq.
    + intros g (n & -> & Hg). exists n. split; [done|]. rewrite E. destruct (decide (name = n)) as [<-|];
        [by rewrite lookup_insert_eq|by rewrite lookup_insert_ne].
Qed.

Lemma Open_law p s r s' : call (s_Open p) s = (r, s') → still s s' ∧ returns r ∧
  (∀ f, r = Ok f → ∃ b, files s !! p = Some b ∧ reading s' f b 0) ∧
  (∀ e, r = Err e → errors_Is e FsErrNotExist = true → files s !! p = None).
Proof.
  intros H. sys_call H; unfold s_Open in *; cbn [files tick] in *; repeat case_match; simplify_eq;
    (split_and!; [by apply quiet_steady|sys_done|try sys_done|sys_done]).
  intros f [= <-]. eexists. split; [done|]. eexists. split; [done|]. cbn. by apply list_lookup_middle.
Qed.

Lemma Rename_law a b s r s' c : call (s_Rename a b) s = (r, s') → files s !! a = Some c → returns r ∧
  (files s' = <[b := c]> (delete a (files s)) ∨ fails r ∧ files s' = files s) ∧
  (∀ h, opened s h → h_Name h ≠ a → h_Name h ≠ b → opened s' h).
Proof.
  intros H Hc. sys_call H; unfold s_Rename in *; cbn [files tick] in *; try rewrite Hc in H; simplify_eq.
  - split_and!; [sys_done|sys_done|by intros; eapply opened_ext].
  - split_and!; [sys_done|by left|]. intros h (n & -> & Hn) Ha Hb. exists n. split; [done|]. cbn in *.
    by rewrite lookup_insert_ne, lookup_delete_ne.
  - split_and!; [sys_done|by left|]. intros h (n & -> & Hn) Ha Hb. exists n. split; [done|]. cbn in *.
    by rewrite lookup_insert_ne, lookup_delete_ne.
Qed.

Lemma below_spec ds f : Forall proper ds →
  below (abs ds) f = true ↔ ∃ ns, Forall proper ns ∧ f = abs (ds ++ ns).
Proof.
  intros Hds. unfold below. rewrite !andb_true_iff, !bool_decide_eq_true, cleaned_abs by done. cbn [snd]. split.
  - intros [[Hc Hr] [ns E]]. exists ns. destruct (canonical_abs _ (cleaned_canonical f) Hr) as [Hp Hf].
    rewrite E in Hp, Hf. split; [by apply Forall_app in Hp as [_ ?]|]. rewrite <- Hc at 1. exact Hf.
  - intros (ns & Hns & ->). assert (Forall proper (ds ++ ns)) by (by apply Forall_app).
    rewrite cleaned_abs by done. unfold Clean. rewrite cleaned_abs by done. split_and!; [done|done|by eexists].
Qed.


Lemma WalkDir_law ds s items s' : s_WalkDir (abs ds) s = (items, s') → Forall proper ds →
  still s s' ∧
  (∀ it, it ∈ items → wi_err it = None → ∃ ns, Forall proper ns ∧ wi_path it = abs (ds ++ ns)) ∧
  (∀ it, it ∈ items → wi_err it = None → wi_IsRegular it = true →
     wi_IsDir it = false ∧ is_Some (files s !! wi_path it) ∧ wi_Name it = filepath_Base (wi_path it)) ∧
  (∀ ns, (∀ it, it ∈ items → wi_err it = None) → Forall proper ns → is_Some (files s !! abs (ds ++ ns)) →
     ∃ it, it ∈ items ∧ wi_path it = abs (ds ++ ns) ∧ wi_IsRegular it = true) ∧
  (∀ it e, it ∈ items → wi_err it = Some e → errors_Is e FsErrNotExist = true →
     ∀ ns, Forall proper ns → files s !! abs (ds ++ ns) = None) ∧
  (∀ it e, it ∈ items → wi_ctx it = Some e ∨ wi_Info it = inl e → errors_Is e FsErrNotExist = false).
Proof.
  unfold s_WalkDir. set (l := filter _ _). intros H Hds.
  assert (∀ f b, (f, b) ∈ l ↔ below (abs ds) f = true ∧ files s !! f = Some b) as Hl.
  { intros f b. unfold l. rewrite list_elem_of_filter. by rewrite elem_of_map_to_list. }
  assert (∃ ns, Forall proper ns ∧ wi_path (dir_item (abs ds)) = abs (ds ++ ns)) as Hself by (exists []; by rewrite app_nil_r).
  assert (s' = tick s ∧ (items = [dir_item (abs ds); error_item (abs ds) eio] ∨
    items = [error_item (abs ds) (enoent (abs ds))] ∧ l = [] ∨
    items = dir_item (abs ds) :: ((λ kv, file_item kv.1 kv.2) <$> l))) as [-> Hc].
  { destruct (head _) as [[]|], l; simplify_eq; auto. }
  clear H. destruct Hc as [->|[[-> El]| ->]]; (split; [by apply quiet_steady|]).
  - split_and!.
    + by intros it [->|[->|[]%elem_of_nil]%elem_of_cons]%elem_of_cons.
    + by intros it [->|[->|[]%elem_of_nil]%elem_of_cons]%elem_of_cons.
    + intros ns Hno. specialize (Hno (error_item (abs ds) eio) ltac:(set_solver)). done.
    + by intros it e [->|[->|[]%elem_of_nil]%elem_of_cons]%elem_of_cons [= <-].
    + by intros it e [->|[->|[]%elem_of_nil]%elem_of_cons]%elem_of_cons [|].
  - split_and!.
    + by intros it ->%list_elem_of_singleton.
    + by intros it ->%list_elem_of_singleton.
    + intros ns Hno. specialize (Hno (error_item (abs ds) (enoent (abs ds))) ltac:(set_solver)). done.
    + intros it e _ _ _ ns Hns. destruct (files s !! abs (ds ++ ns)) as [b|] eqn:E; [|done].
      assert ((abs (ds ++ ns), b) ∈ l) as Hin by (apply Hl; split; [apply below_spec; eauto|done]).
      rewrite El in Hin. by apply elem_of_nil in Hin.
    + by intros it e ->%list_elem_of_singleton [|].
  - assert (∀ it, it ∈ dir_item (abs ds) :: ((λ kv, file_item kv.1 kv.2) <$> l) →
      it = dir_item (abs ds) ∨ ∃ ns b, it = file_item (abs (ds ++ ns)) b ∧ Forall proper ns ∧ files s !! abs (ds ++ ns) = Some b) as Hit.
    { intros it [->|([f b] & -> & [Hb Hf]%Hl)%list_elem_of_fmap]%elem_of_cons; [by left|right].
      apply below_spec in Hb as (ns & Hns & ->); [|done]. eauto. }
    split_and!.
    + intros it [->|(ns & b & -> & Hns & _)]%Hit _; [done|by exists ns].
    + intros it [->|(ns & b & -> & Hns & Hf)]%Hit _; [done|]. intros _. split_and!; [done|by eexists|done].
    + intros ns _ Hns [b Hb]. exists (file_item (abs (ds ++ ns)) b). split_and!; [|done..]. right.
      apply list_elem_of_fmap. exists (abs (ds ++ ns), b). split; [done|]. apply Hl. split; [apply below_spec; eauto|done].
    + by intros it e [->|(ns & b & -> & _)]%Hit.
    + by intros it e [->|(ns & b & -> & _)]%Hit [|].
Qed.

Lemma Seek_law h n b s r s' : call (h_Seek h n) s = (r, s') → reading s h b 0 → still s s' ∧ returns r ∧
  (∀ u, r = Ok u → reading s' h b n).
Proof.
  intros H (i & -> & Hi). sys_call H; unfold h_Seek in *; simplify_eq;
    (split_and!; [by apply quiet_steady|sys_done|]); intros u Hu; simplify_eq.
  exists i. split; [done|]. cbn. by rewrite list_lookup_alter_eq, Hi.
Qed.

Lemma Reads_law h b n s rs e : h_Reads h s = (rs, e) → reading s h b n →
  concat rs.*2 `prefix_of` drop (Z.to_nat n) b ∧ (e = None → concat rs.*2 = drop (Z.to_nat n) b).
Proof.
  intros H (i & -> & Hi). unfold h_Reads in H. rewrite Hi in H. simplify_eq.
  cbn [fmap list_fmap snd concat]. rewrite app_nil_r, take_drop. done.
Qed.

Lemma Write_law h b s r s' c : call (h_Write h b) s = (r, s') → opened s h → files s !! h_Name h = Some c → returns r ∧
  (∃ c', files s' = <[h_Name h := c']> (files s) ∧ ∀ u, r = Ok u → c' = c ++ b) ∧
  (∀ g, opened s g → opened s' g).
Proof.
  intros H (n & -> & _) Hc. cbn [h_Name] in *.
  assert (∀ s0, files s0 = files s → ∀ g, opened s g → opened (set_files (alter (λ c, c ++ b) n (files s0)) s0) g) as Hopen.
  { intros s0 E g (m & -> & Hm). exists m. split; [done|]. cbn. rewrite E. destruct (decide (n = m)) as [->|];
      [by rewrite lookup_alter_eq, Hc|by rewrite lookup_alter_ne]. }
  assert (alter (λ c, c ++ b) n (files s) = <[n := c ++ b]> (files s)) as E.
  { apply map_eq. intros m. destruct (decide (n = m)) as [->|];
      [by rewrite lookup_alter_eq, lookup_insert_eq, Hc|by rewrite lookup_alter_ne, lookup_insert_ne]. }
  sys_call H; unfold h_Write in *; simplify_eq.
  - split_and!; [sys_done| |by intros; eapply opened_ext]. exists c. split; [|done]. cbn. by rewrite insert_id.
  - split_and!; [sys_done| |by apply Hopen]. exists (c ++ b). split; [exact E|done].
  - split_and!; [sys_done| |by apply Hopen]. exists (c ++ b). split; [exact E|done].
Qed.

Lemma Close_law (h : handle_of) s r s' : call (λ s, (Ok tt, s)) s = (r, s') → returns r ∧ files s' = files s ∧
  (∀ g, opened s g → h_Name g ≠ h_Name h → opened s' g).
Proof. intros [[E Ho] Hr]%noop_law. split_and!; auto. Qed.

Definition laws : @OSLaws system.
Proof.
  refine {|
    o_files := files : @os system → gmap string bytes;
    o_open := opened : @os system → @fd system → Prop;
    o_at := reading : @os system → @fd system → bytes → Z → Prop;
    sys_Stat_law := Stat_law;
    sys_ReadFile_law := ReadFile_law;
    sys_Remove_law := Remove_law;
    sys_MkdirAll_law p := noop_law;
    sys_CreateTemp_law := CreateTemp_law;
    sys_Open_law := Open_law;
    sys_Rename_law := Rename_law;
    sys_dir_Open_law p := noop_law;
    sys_dir_Sync_law d := noop_law;
    sys_dir_Close_law d := noop_law;
    sys_WalkDir_law := WalkDir_law;
    fd_Seek_law := Seek_law;
    fd_Reads_law := Reads_law;
    fd_Write_law := Write_law;
    fd_Sync_law f := noop_law;
    fd_Close_law := Close_law;
  |}.
  - intros s h (n & -> & Hn). exact Hn.
  - intros s e. cbn. destruct (cancelled s); [by intros [= <-]|done].
Defined.


End Sys.
