(* ===== verification/LocalProps.v ===== *)
(** [LocalStorage] as an implementation of [Storage]: the state of the file
    system and of the open writers, the instance of the interface's laws, the
    ranges that its readers deliver, and the properties. *)

From S2P Require Import Prelude Errors GoStrings Keys Digest Store Paths Restore RestoreSpec Local LocalLaws LocalExample.
#[local] Open Scope Z_scope.

Section Store.
Context {SYS : OS} {OL : OSLaws} (root : list string) (root_proper : Forall proper root).
Abbreviation rootDir := (abs root).

(** ** The state of the storage *)

(** The objects of the storage: the regular files below the root, by their
    relative paths. *)
Definition l_view (s : lstate) : gmap string bytes := objects_in root (o_files s.1).

(** A writer that is not done. *)
Definition active (ws : list lwriter) (i : nat) (w : lwriter) : Prop := ws !! i = Some w ∧ lw_done w = false.

(** Every active writer has an open temporary file of its own. *)
Definition l_inv (s : lstate) : Prop :=
  (∀ i w, active s.2 i w → o_open s.1 (lw_f w) ∧ hidden root (fd_Name (lw_f w))) ∧
  (∀ i j w v, active s.2 i w → active s.2 j v → fd_Name (lw_f w) = fd_Name (lw_f v) → i = j).

Definition l_pending (s : lstate) (i : nat) (p : string) (c : bytes) : Prop :=
  relative p ∧ ∃ w, active s.2 i w ∧ lw_finalPath w = resolvePath rootDir p ∧ o_files s.1 !! fd_Name (lw_f w) = Some c.

Lemma initial_inv x : l_inv (x, []).
Proof. split; [intros i w [H _]|intros i j w v [H _]]; done. Qed.

Lemma pending_writes s i p c : l_inv s → l_pending s i p c →
  ∃ w, s.2 !! i = Some w ∧ lw_done w = false ∧ lw_finalPath w = resolvePath rootDir p ∧ relative p ∧
    writes root s.1 (lw_f w) c.
Proof.
  intros [Ho _] (Hp & w & [Hi Hd] & Hf & Hc). destruct (Ho i w) as [? ?]; [done|]. exists w. split_and!; done.
Qed.

(** A step of the system that spares every temporary file. *)
Lemma step_system s x : l_inv s → spares root None s.1 x →
  l_inv (x, s.2) ∧ preserved (l_pending s) (l_pending (x, s.2)).
Proof.
  intros [Ho Hd] Hs. split; [split|].
  - intros i w Hw. destruct (Ho _ _ Hw) as [H1 H2]. split; [|done]. by apply Hs.
  - exact Hd.
  - intros i p c (Hp & w & Hw & Hf & Hc). split; [done|]. exists w. split_and!; [done|done|].
    destruct (Ho _ _ Hw) as [H1 H2]. cbn. by destruct (Hs _ H1 H2) as [_ ->].
Qed.

(** A step of the writer [i] that spares the temporary files of the others. *)
Lemma step_writer s i w w' x : l_inv s → active s.2 i w → spares root (Some (lw_f w)) s.1 x →
  lw_f w' = lw_f w → (lw_done w' = false → o_open x (lw_f w)) →
  l_inv (x, <[i := w']> s.2) ∧
  ∀ j q d, j ≠ i → l_pending s j q d → l_pending (x, <[i := w']> s.2) j q d.
Proof.
  intros [Ho Hd] Hw Hs Ef Hopen. pose proof (lookup_lt_Some _ _ _ (proj1 Hw)) as Hlt.
  assert (∀ j v, active (<[i := w']> s.2) j v → j = i ∧ v = w' ∨ j ≠ i ∧ active s.2 j v) as Hcase.
  { intros j v [Hj Hv]. destruct (decide (j = i)) as [->|Hne].
    - rewrite list_lookup_insert_eq in Hj by done. left. by simplify_eq.
    - right. by rewrite list_lookup_insert_ne in Hj. }
  assert (∀ j v, j ≠ i → active s.2 j v → o_open x (lw_f v) ∧ o_files x !! fd_Name (lw_f v) = o_files s.1 !! fd_Name (lw_f v)) as Hother.
  { intros j v Hne Hv. destruct (Ho _ _ Hv) as [H1 H2]. apply Hs; [done|done|].
    intros f [= <-] E. by apply Hne, (Hd _ _ _ _ Hv Hw). }
  split; [split|].
  - intros j v Hv. destruct (Hcase _ _ Hv) as [[-> ->]|[Hne Hj]]; cbn.
    + rewrite Ef. split; [by apply Hopen, Hv|by apply (Ho _ _ Hw)].
    + split; [by apply (Hother _ _ Hne)|by apply (Ho _ _ Hj)].
  - intros j k v u Hv Hu E. destruct (Hcase _ _ Hv) as [[-> ->]|[Hne Hj]], (Hcase _ _ Hu) as [[-> ->]|[Hne2 Hk]];
      rewrite ?Ef in E; eauto.
  - intros j q d Hne (Hq & v & Hv & Hf & Hc). split; [done|]. exists v. split_and!; [|done|].
    + split; [|apply Hv]. cbn. rewrite list_lookup_insert_ne by done. apply Hv.
    + cbn. by rewrite (proj2 (Hother _ _ Hne Hv)).
Qed.

(** A new writer, on a file that did not exist. *)
Lemma step_open s w x : l_inv s → spares root None s.1 x → lw_done w = false →
  writes root x (lw_f w) [] → o_files s.1 !! fd_Name (lw_f w) = None →
  l_inv (x, s.2 ++ [w]) ∧ preserved (l_pending s) (l_pending (x, s.2 ++ [w])) ∧ active (s.2 ++ [w]) (length s.2) w.
Proof.
  intros [Ho Hd] Hs Hdone (Hop & Hhid & _) Hfresh.
  assert (active (s.2 ++ [w]) (length s.2) w) as Hnew by (split; [by apply list_lookup_middle|done]).
  assert (∀ j v, active (s.2 ++ [w]) j v → j = length s.2 ∧ v = w ∨ active s.2 j v) as Hcase.
  { intros j v [[Hj|[Hlen Hj]]%lookup_app_Some Hv]; [by right|left].
    apply list_lookup_singleton_Some in Hj as [? ->]. split; [lia|done]. }
  assert (∀ j v, active s.2 j v → fd_Name (lw_f v) ≠ fd_Name (lw_f w)) as Hne.
  { intros j v Hv E. destruct (Ho _ _ Hv) as [[b Hb]%o_open_file _]. by rewrite E, Hfresh in Hb. }
  split_and!; [split| |done].
  - intros j v Hv. destruct (Hcase _ _ Hv) as [[-> ->]|Hj]; [done|]. destruct (Ho _ _ Hj) as [H1 H2]. split; [|done]. by apply Hs.
  - intros j k v u Hv Hu E. destruct (Hcase _ _ Hv) as [[-> ->]|Hj], (Hcase _ _ Hu) as [[-> ->]|Hk]; [done| | |by eauto];
      [by destruct (Hne _ _ Hk)|by destruct (Hne _ _ Hj)].
  - intros j q d (Hq & v & Hv & Hf & Hc). split; [done|]. exists v. split_and!; [|done|].
    + split; [|apply Hv]. apply lookup_app_l_Some. apply Hv.
    + destruct (Ho _ _ Hv) as [H1 H2]. cbn. by destruct (Hs _ H1 H2) as [_ ->].
Qed.

(** ** The laws *)

Lemma on_sys_inv {A} (c : M os A) s r s' : on_sys c s = (r, s') → c s.1 = (r, s'.1) ∧ s' = (s'.1, s.2).
Proof. unfold on_sys. destruct (c s.1) as [r1 x]. by intros [= <- <-]. Qed.

Lemma on_lwriter_inv i c s r s' w : s.2 !! i = Some w → on_lwriter i c s = (r, s') →
  ∃ y, c (w, s.1) = (r, y) ∧ s' = (y.2, <[i := y.1]> s.2).
Proof. unfold on_lwriter. intros ->. destruct (c (w, s.1)) as [r1 [w1 x1]]. intros [= <- <-]. by eexists. Qed.

Lemma Read_law_ p s r s' : l_inv s → relative p → on_sys (l_Read rootDir p) s = (r, s') →
  l_inv s' ∧ l_view s' = l_view s ∧ preserved (l_pending s) (l_pending s') ∧ returns r ∧
  (∀ b, r = Ok b → l_view s !! p = Some b) ∧
  (∀ e, r = Err e → errors_Is e ErrNotFound = true → l_view s !! p = None).
Proof.
  intros Hi Hp [H ->]%on_sys_inv. apply l_Read_spec in H as (Hs & Hr & Hok & Herr); [|done..].
  destruct (step_system s s'.1 Hi) as [? ?]; [by apply steady_spares|].
  split_and!; try done. unfold l_view. cbn. by rewrite (proj1 Hs).
Qed.

Lemma Write_law_ p b s r s' : l_inv s → relative p → on_sys (l_Write rootDir p b) s = (r, s') →
  l_inv s' ∧ preserved (l_pending s) (l_pending s') ∧ returns r ∧
  (l_view s' = <[p := b]> (l_view s) ∨ fails r ∧ l_view s' = l_view s).
Proof.
  intros Hi Hp [H ->]%on_sys_inv. apply l_Write_spec in H as (Hs & Hr & Hv); [|done..].
  by destruct (step_system s s'.1 Hi Hs).
Qed.

Lemma Delete_law_ p s r s' : l_inv s → relative p → on_sys (l_Delete rootDir p) s = (r, s') →
  l_inv s' ∧ preserved (l_pending s) (l_pending s') ∧ returns r ∧
  (l_view s' = delete p (l_view s) ∨ fails r ∧ l_view s' = l_view s).
Proof.
  intros Hi Hp [H ->]%on_sys_inv. apply l_Delete_spec in H as (Hs & Hr & Hv); [|done..].
  by destruct (step_system s s'.1 Hi Hs).
Qed.

Lemma List_law_ p s r s' : l_inv s → unrooted p → on_sys (l_List rootDir p) s = (r, s') →
  l_inv s' ∧ l_view s' = l_view s ∧ preserved (l_pending s) (l_pending s') ∧ returns r ∧
  (∀ l, r = Ok l → ∀ n, relative n → n ∈ fi_Name <$> l ↔ n ∈ dom (l_view s) ∧ HasPrefix n p = true).
Proof.
  intros Hi _ [H ->]%on_sys_inv. apply l_List_spec in H as (Hs & Hr & Hl); [|done..].
  destruct (step_system s s'.1 Hi) as [? ?]; [by apply steady_spares|].
  split_and!; try done. unfold l_view. cbn. by rewrite (proj1 Hs).
Qed.

Lemma OpenWriter_law_ p s r s' : l_inv s → relative p → l_OpenWriter rootDir p s = (r, s') →
  l_inv s' ∧ l_view s' = l_view s ∧ returns r ∧ preserved (l_pending s) (l_pending s') ∧
  (∀ i, r = Ok i → (∀ q c, ¬ l_pending s i q c) ∧ l_pending s' i p []).
Proof.
  intros Hi Hp. unfold l_OpenWriter.
  destruct ((let* _ := check_ctx in openAtomicWriter rootDir p) s.1) as [r1 x] eqn:E.
  assert (returns r1 ∧ spares root None s.1 x ∧ l_view (x, s.2) = l_view s ∧
    ∀ w, r1 = Ok w → lw_done w = false ∧ lw_finalPath w = resolvePath rootDir p ∧ writes root x (lw_f w) [] ∧
      o_files s.1 !! fd_Name (lw_f w) = None) as (Hr & Hs & Hv & Hok).
  { apply after_ctx in E as [(-> & e & -> & _)|E]; [|by apply openAtomicWriter_spec].
    split_and!; [by right; eexists|by apply steady_spares|done|done]. }
  destruct (step_system s x Hi Hs) as [Hi' Hpre]. destruct r1 as [w|e| |]; [| |by destruct Hr as [[]|[]]..].
  - destruct (Hok w eq_refl) as (Hd & Hf & Hw & Hfresh). intros [= <- <-].
    destruct (step_open s w x Hi Hs Hd Hw Hfresh) as (Hi2 & Hp2 & Hnew). split_and!; [done|done|by left; eexists|done|].
    intros i [= <-]. split.
    + intros q c (_ & v & [Hv' _] & _). by rewrite lookup_ge_None_2 in Hv'.
    + split; [done|]. exists w. split_and!; [done..|apply Hw].
  - intros [= <- <-]. split_and!; [done|done|by right; eexists|done|done].
Qed.

Lemma w_Write_law_ i b s r s' p c : l_inv s → on_lwriter i (lw_Write b) s = (r, s') → l_pending s i p c →
  l_inv s' ∧ l_view s' = l_view s ∧ returns r ∧
  (∀ u, r = Ok u → l_pending s' i p (c ++ b)) ∧ (∃ c', l_pending s' i p c') ∧
  (∀ j q d, j ≠ i → l_pending s j q d → l_pending s' j q d).
Proof.
  intros Hi H Hpen. destruct (pending_writes _ _ _ _ Hi Hpen) as (w & Hw & Hd & Hf & Hp & Hwr).
  destruct (on_lwriter_inv _ _ _ _ _ _ Hw H) as ([w1 x1] & Hc & ->). cbn [fst snd].
  destruct (lw_Write_spec root root_proper b w s.1 r (w1, x1) c Hd Hwr Hc) as ((Ew & Hs & Hv) & Hr & c' & Hwr' & Hok). cbn in Ew, Hs, Hv, Hwr'. subst w1.
  destruct (step_writer s i w w x1 Hi) as [Hi' Hother]; [done|done|done|by intros _; apply Hwr'|].
  assert (l_pending (x1, <[i := w]> s.2) i p c') as Hpen'.
  { split; [done|]. exists w. split_and!; [|done|apply Hwr']. split; [|done]. apply list_lookup_insert_eq. by eapply lookup_lt_Some. }
  split_and!; [done|done|done| |by exists c'|done]. intros u Hu. by rewrite <- (Hok _ Hu).
Qed.

Lemma w_Close_law_ i s r s' p c : l_inv s → on_lwriter i lw_Close s = (r, s') → l_pending s i p c →
  l_inv s' ∧ returns r ∧ (∀ j q d, j ≠ i → l_pending s j q d → l_pending s' j q d) ∧
  (l_view s' = <[p := c]> (l_view s) ∨ fails r ∧ l_view s' = l_view s).
Proof.
  intros Hi H Hpen. destruct (pending_writes _ _ _ _ Hi Hpen) as (w & Hw & Hd & Hf & Hp & Hwr).
  destruct (on_lwriter_inv _ _ _ _ _ _ Hw H) as ([w1 x1] & Hc & ->). cbn [fst snd].
  apply lw_Close_spec with (p := p) (c := c) (root := root) in Hc as (Ew & Hs & Hr & Hv); [|done..]. cbn in Ew, Hs, Hv. subst w1.
  destruct (step_writer s i w (set_done w) x1 Hi) as [Hi' Hother]; done.
Qed.

Lemma w_Abort_law_ i s r s' p c : l_inv s → on_lwriter i lw_Abort s = (r, s') → l_pending s i p c →
  l_inv s' ∧ l_view s' = l_view s ∧ returns r ∧ (∀ j q d, j ≠ i → l_pending s j q d → l_pending s' j q d).
Proof.
  intros Hi H Hpen. destruct (pending_writes _ _ _ _ Hi Hpen) as (w & Hw & Hd & Hf & Hp & Hwr).
  destruct (on_lwriter_inv _ _ _ _ _ _ Hw H) as ([w1 x1] & Hc & ->). cbn [fst snd].
  destruct (lw_Abort_spec root root_proper w s.1 r (w1, x1) c Hd Hwr Hc) as ((Ew & Hs & Hv) & Hr). cbn in Ew, Hs, Hv. subst w1.
  destruct (step_writer s i w (set_done w) x1 Hi) as [Hi' Hother]; done.
Qed.

(** [LocalStorage] keeps the contract of [Storage]. *)
Definition laws : @StorageLaws (local rootDir) := {|
  inv := l_inv : @store (local rootDir) → Prop;
  view := l_view : @store (local rootDir) → gmap string bytes;
  pending := l_pending : @store (local rootDir) → @writer (local rootDir) → string → bytes → Prop;
  Read_law := Read_law_;
  Write_law := Write_law_;
  Delete_law := Delete_law_;
  List_law := List_law_;
  OpenWriter_law := OpenWriter_law_;
  w_Write_law := w_Write_law_;
  w_Close_law := w_Close_law_;
  pending_abortable _ _ _ _ _ := eq_refl;
  w_Abort_law := w_Abort_law_;
|}.

(** ** Readers *)

(** A reader with a context delivers what its handle does, or less and an
    error. *)
Lemma ctx_read_spec rs end_err b e : ctx_read rs end_err = (b, e) →
  b `prefix_of` concat rs.*2 ∧ (e = None → end_err = None ∧ b = concat rs.*2).
Proof.
  revert b e. induction rs as [|[[e0|] b0] rs IH]; intros b e; cbn [ctx_read fmap list_fmap snd concat].
  - by intros [= <- <-].
  - intros [= <- <-]. split; [apply prefix_nil|done].
  - destruct (ctx_read rs end_err) as [b1 e1]. destruct (IH _ _ eq_refl) as [Hpre Hall]. cbn [fst snd]. intros [= <- <-].
    split; [by apply prefix_app|]. intros He. destruct (Hall He) as [? ->]. done.
Qed.

Lemma limit_tail (rs : list (option error * bytes)) :
  concat (take 1 ((λ x : option error * bytes, (x.1, [] : bytes)) <$> rs)).*2 = [].
Proof. by destruct rs. Qed.

(** A limited reader delivers the beginning of what its handle does. *)
Lemma limit_reads_spec n rs end_err rs' e : 0 ≤ n → limit_reads n rs end_err = (rs', e) →
  concat rs'.*2 = take (Z.to_nat n) (concat rs.*2) ∧ (e = None → end_err = None ∨ n ≤ blen (concat rs.*2)).
Proof.
  revert n rs' e. induction rs as [|[c b] rs IH]; intros n rs' e Hn; cbn [limit_reads fmap list_fmap snd concat].
  { intros [= <- <-]. split; [by destruct (Z.to_nat n)|]. destruct (Z.leb_spec n 0); intros He; [right; change (n ≤ 0); lia|by left]. }
  destruct (Z.leb_spec n 0) as [H0|H0].
  { intros [= <- <-]. assert (n = 0) as -> by lia. split; [done|]. intros _. right. unfold blen. lia. }
  destruct (Z.leb_spec n (blen b)) as [Hb|Hb].
  { intros [= <- <-]. unfold blen in *. split; [|intros _; right; unfold blen; rewrite length_app; lia].
    trans (take (Z.to_nat n) b ++ concat (take 1 ((λ x : option error * bytes, (x.1, [] : bytes)) <$> rs)).*2); [done|].
    rewrite limit_tail, app_nil_r, take_app_le; [done|lia]. }
  destruct (limit_reads (n - blen b) rs end_err) as [rs1 e1] eqn:E. intros [= <- <-].
  apply IH in E as [Hc He]; [|lia]. unfold blen in *. split.
  - trans (b ++ concat rs1.*2); [done|]. rewrite Hc, take_app_ge by lia. do 2 f_equal. lia.
  - intros H. destruct (He H) as [|Hle]; [by left|right].
    change (n ≤ Z.of_nat (length (b ++ concat rs.*2))). rewrite length_app. lia.
Qed.

Lemma take_prefix {A} n (l k : list A) : l `prefix_of` k → take n l `prefix_of` take n k.
Proof. intros [t ->]. rewrite take_app. by apply prefix_app_r. Qed.

(** The part of an object that a range asks for. *)
Definition slice (off len : Z) (whole : bytes) : bytes :=
  if 0 <=? len then take (Z.to_nat len) (drop (Z.to_nat off) whole) else drop (Z.to_nat off) whole.

Lemma slice_reads off len whole f x rs e b err :
  o_at x f whole off → fd_Reads f x = (rs, e) →
  ctx_read (if 0 <=? len then limit_reads len rs e else (rs, e)).1 (if 0 <=? len then limit_reads len rs e else (rs, e)).2 = (b, err) →
  b `prefix_of` slice off len whole ∧ (err = None → b = slice off len whole).
Proof.
  intros Hat Hrs Hb. destruct (fd_Reads_law _ _ _ _ _ _ Hrs Hat) as [Hpre Hall]. unfold slice.
  destruct (Z.leb_spec 0 len) as [Hlen|Hlen]; apply ctx_read_spec in Hb as [Hbp Hb]; cbn [fst snd] in *.
  - destruct (limit_reads len rs e) as [rs' e'] eqn:El. destruct (limit_reads_spec _ _ _ _ _ Hlen El) as [Ec Hend].
    cbn [fst snd] in *. rewrite Ec in Hbp, Hb. split.
    + etrans; [exact Hbp|]. by apply take_prefix.
    + intros He. destruct (Hb He) as [He' ->]. destruct (Hend He') as [H|H]; [by rewrite Hall|].
      destruct Hpre as [k Hk]. rewrite Hk. unfold blen in H. rewrite take_app_le; [done|lia].
  - split; [by etrans|]. intros He. destruct (Hb He) as [He' ->]. by apply Hall.
Qed.

Lemma l_OpenReader_spec p x r x' : l_OpenReader rootDir p x = (r, x') →
  steady x x' ∧ (relative p → ∀ b e, r = Ok (b, e) →
    ∃ whole, objects_in root (o_files x) !! p = Some whole ∧ b `prefix_of` whole ∧ (e = None → b = whole)).
Proof.
  intros [(-> & e & -> & _)|H]%after_ctx; [split; [by split|done]|].
  apply bind_inv in H as [(f & x1 & [[H _]|(e & x2 & H & [= ? ?])]%handled & E)|(r1 & [[H _]|(e & x1 & H & [= <- <-])]%handled & Hno & Hn & _)];
    try done; destruct (sys_Open_law _ _ _ _ H) as (Hs & Hr & Hok & _).
  - destruct (fd_Reads f x1) as [rs e] eqn:Er. injection E as <- <-. split; [done|]. intros Hp b e' [= Hb].
    destruct (Hok _ eq_refl) as (whole & Hw & Hat). exists whole. split; [by rewrite objects_in_lookup|].
    by apply (slice_reads 0 (-1) whole f x1 rs e b e').
  - split; [done|]. intros _ b e' Hb. by destruct (Hn (b, e')).
  - split; [done|]. intros _ b e' Hb. by destruct (Hn (b, e')).
Qed.

(** Ranges of objects. *)
Lemma l_ReadRange_spec p off len x r x' : relative p → 0 ≤ off → l_ReadRange rootDir p off len x = (r, x') →
  ∀ b e, r = Ok (b, e) → ∃ whole, objects_in root (o_files x) !! p = Some whole ∧
    b `prefix_of` slice off len whole ∧ (e = None → b = slice off len whole).
Proof.
  intros Hp Hoff [(-> & e0 & -> & _)|H]%after_ctx b e Hr; [done|subst r].
  apply bind_Ok_inv in H as (f & x1 & [[H _]|(? & ? & _ & [= ? ?])]%handled & H2).
  destruct (sys_Open_law _ _ _ _ H) as (_ & _ & Hok & _). destruct (Hok _ eq_refl) as (whole & Hw & Hat).
  apply bind_Ok_inv in H2 as (u & x2 & Hseek & H3). exists whole. split; [by rewrite objects_in_lookup|].
  assert (o_at x2 f whole off) as Hat2.
  { destruct (Z.ltb_spec 0 off) as [Hpos|Hneg].
    - apply handled in Hseek as [[Hs _]|(e1 & x3 & _ & He)]; [by eapply fd_Seek_law|].
      apply bind_Ok_inv in He as (? & ? & _ & [=]).
    - injection Hseek as _ <-. by replace off with 0 by lia. }
  destruct (fd_Reads f x2) as [rs e1] eqn:Er. eapply slice_reads; [done|done|].
  destruct (0 <=? len); [destruct (limit_reads len rs e1)|]; cbn [fst snd] in *; congruence.
Qed.

(** [LocalStorage] gives the restore its readers. *)
#[local] Instance local_reader : @PartReader (local rootDir) := {|
  OpenReader p := on_sys (l_OpenReader rootDir p) : M (@store (local rootDir)) stream;
|}.

Lemma OpenReader_law_ (p : string) (s : lstate) r s' : l_inv s → on_sys (l_OpenReader rootDir p) s = (r, s') →
  l_inv s' ∧ l_view s' = l_view s ∧ (relative p → ∀ b e, r = Ok (b, e) →
    ∃ whole, l_view s !! p = Some whole ∧ b `prefix_of` whole ∧ (e = None → b = whole)).
Proof.
  intros Hi [H ->]%on_sys_inv. apply l_OpenReader_spec in H as [Hs Hok].
  destruct (step_system s s'.1 Hi) as [? _]; [by apply steady_spares|].
  split_and!; [done|unfold l_view; cbn; by rewrite (proj1 Hs)|exact Hok].
Qed.

Definition reader_laws : @PartReaderLaws (local rootDir) laws local_reader.
Proof. constructor. exact OpenReader_law_. Defined.

End Store.

(** ** A writer is used once *)

Section Once.
Context {SYS : OS}.

(** Calls that leave the writer as it is. *)
Definition same_writer (s s' : lwriter * os) : Prop := s'.1 = s.1.
#[export] Instance same_writer_preorder : PreOrder same_writer.
Proof. split; [done|]. intros s1 s2 s3. unfold same_writer. congruence. Qed.

Lemma keeps_sys {A} (c : M os A) : keeps same_writer (sys c).
Proof. intros s r s'. unfold sys. destruct (c s.2). by intros [= _ <-]. Qed.
Lemma keeps_self : keeps same_writer self.
Proof. by intros s r s' [= _ <-]. Qed.

End Once.

#[export] Hint Resolve keeps_sys keeps_self : keeps.

Section OnceProps.
Context {SYS : OS}.

Lemma set_done_step {A} (k : M (lwriter * os) A) w x : keeps same_writer k →
  lw_done ((let* _ := modify (λ s, (set_done s.1, s.2)) in k) (w, x)).2.1 = true.
Proof.
  intros Hk. unfold bind, modify. destruct (k _) as [r s] eqn:E. apply Hk in E. unfold same_writer in E. cbn [snd]. by rewrite E.
Qed.

Lemma close_done w x : lw_done (lw_Close (w, x)).2.1 = true.
Proof.
  unfold lw_Close, bind at 1, self. cbn [fst]. destruct (lw_done w) eqn:E; [exact E|].
  apply set_done_step. unfold close_remove, just_remove. eauto 30 with keeps typeclass_instances.
Qed.

Lemma abort_done w x : lw_done (lw_Abort (w, x)).2.1 = true.
Proof.
  unfold lw_Abort, bind at 1, self. cbn [fst]. destruct (lw_done w) eqn:E; [exact E|].
  apply set_done_step. apply keeps_bind; [apply _|auto with keeps|]. intros c.
  apply keeps_bind; [apply _| |intros _; case_match; auto with keeps typeclass_instances].
  apply keeps_handle; [apply _|auto with keeps|]. intros e. case_match; auto with keeps typeclass_instances.
Qed.

End OnceProps.

(** ** Properties *)

(** C20. On any operating system that keeps its contract, [LocalStorage] with an
    absolute root keeps the contract of [Storage]: its objects are the
    regular files below the root, writes and deletions are all or nothing,
    listings are exact, temporary files are never seen, and an opened writer
    publishes exactly the concatenation of what was written to it, at
    [Close] and not before, however the calls on several writers are
    interleaved; its readers keep the contract that a restore relies on. *)
Theorem LocalStorage_refines_Storage {SYS : OS} {OL : OSLaws} (root : list string) : Forall proper root →
  ∃ L : @StorageLaws (local (abs root)),
    (∀ (s : lstate) p, relative p → @view _ L s !! p = o_files s.1 !! resolvePath (abs root) p) ∧
    (∀ x : os, @inv _ L (x, []) ∧ ∀ i p c, ¬ @pending _ L (x, []) i p c) ∧
    inhabited (@PartReaderLaws (local (abs root)) L (local_reader root)).
Proof.
  intros Hroot. exists (laws root Hroot). split_and!; [| |constructor; apply reader_laws].
  - intros s p Hp. by apply objects_in_lookup.
  - intros x. split; [apply initial_inv|]. intros i p c (_ & w & [H _] & _). done.
Qed.

Lemma LocalStorage_refines_Storage_witness :
  let SYS := Sys.system in let OL := Sys.laws in
  ∃ L : @StorageLaws (local (abs ["data"; "store"])),
    (∀ (s : lstate) p, relative p → @view _ L s !! p = o_files s.1 !! resolvePath (abs ["data"; "store"]) p) ∧
    (∀ x : os, @inv _ L (x, []) ∧ ∀ i p c, ¬ @pending _ L (x, []) i p c) ∧
    inhabited (@PartReaderLaws (local (abs ["data"; "store"])) L (local_reader ["data"; "store"])).
Proof.
  intros SYS OL. apply (@LocalStorage_refines_Storage SYS OL ["data"; "store"]).
  repeat constructor; try (by vm_compute).
Defined.

(** A range of a local object is that slice of its content: what the
    reader delivers is a prefix of it, and all of it unless it ends with an
    error. *)
Theorem LocalStorage_ReadRange {SYS : OS} {OL : OSLaws} (root : list string) p off len x b e x' :
  Forall proper root → relative p → 0 ≤ off → l_ReadRange (abs root) p off len x = (Ok (b, e), x') →
  ∃ whole, o_files x !! resolvePath (abs root) p = Some whole ∧
    b `prefix_of` slice off len whole ∧ (e = None → b = slice off len whole).
Proof.
  intros Hroot Hp Hoff H. destruct (l_ReadRange_spec root Hroot p off len x _ x' Hp Hoff H b e eq_refl) as (whole & Hw & Hs).
  exists whole. split; [|exact Hs]. by rewrite <- (objects_in_lookup root Hroot).
Qed.

Lemma LocalStorage_ReadRange_witness :
  let SYS := Sys.system in let OL := Sys.laws in
  let object := bytes_of_string "hello" in
  let x := {| Sys.files := {["/data/a" := object]}; Sys.readers := []; Sys.temps := 0; Sys.cancelled := false; Sys.schedule := [] |} : os in
  ∃ whole, o_files x !! resolvePath (abs ["data"]) "a" = Some whole ∧
    bytes_of_string "ell" `prefix_of` slice 1 3 whole ∧ ((None : option error) = None → bytes_of_string "ell" = slice 1 3 whole).
Proof.
  intros SYS OL object x.
  apply (@LocalStorage_ReadRange SYS OL ["data"] "a" 1 3 x (bytes_of_string "ell") None (l_ReadRange (abs ["data"]) "a" 1 3 x).2);
    [repeat constructor; by vm_compute|reflexivity|lia|vm_compute; reflexivity].
Defined.

(** A local writer ends once: after [Close] or [Abort], whatever
    they reported, a write fails with [ErrWriterClosed] and further calls of
    [Close] and [Abort] succeed without touching the file system. *)
Theorem localAtomicWriter_once {SYS : OS} (w : lwriter) (x : os) (w1 : lwriter) :
  w1 = (lw_Close (w, x)).2.1 ∨ w1 = (lw_Abort (w, x)).2.1 →
  ∀ x1, (∀ b, lw_Write b (w1, x1) = (Err (ESentinel ErrWriterClosed), (w1, x1))) ∧
    lw_Close (w1, x1) = (Ok tt, (w1, x1)) ∧ lw_Abort (w1, x1) = (Ok tt, (w1, x1)).
Proof.
  intros H x1. assert (lw_done w1 = true) as Hd by (destruct H as [->| ->]; [apply close_done|apply abort_done]).
  unfold lw_Write, lw_Close, lw_Abort, bind, self. cbn [fst]. by rewrite Hd.
Qed.

Lemma localAtomicWriter_once_witness :
  let SYS := Sys.system in
  let x := {| Sys.files := {["/data/t" := []]}; Sys.readers := []; Sys.temps := 0; Sys.cancelled := false; Sys.schedule := [] |} : os in
  let w := {| lw_f := Sys.HTemp "/data/t" : fd; lw_finalPath := "/data/a"; lw_done := false |} in
  let w1 := (lw_Close (w, x)).2.1 in
  ∀ x1, (∀ b, lw_Write b (w1, x1) = (Err (ESentinel ErrWriterClosed), (w1, x1))) ∧
    lw_Close (w1, x1) = (Ok tt, (w1, x1)) ∧ lw_Abort (w1, x1) = (Ok tt, (w1, x1)).
Proof.
  intros SYS x w w1. apply (@localAtomicWriter_once SYS w x w1). by left.
Defined.

(** Five calls on a store in "/data": what a backup does to one object, and
    the temporary file it leaves behind. *)
Example local_run :
  let SYS := Sys.system in
  let s0 := ({| Sys.files := ∅; Sys.readers := []; Sys.temps := 0; Sys.cancelled := false; Sys.schedule := [] |} : os, []) : lstate in
  let s1 := (l_OpenWriter "/data" "k/a" s0).2 in
  let s2 := (on_lwriter 0 (lw_Write (bytes_of_string "xy")) s1).2 in
  let s3 := (on_lwriter 0 lw_Close s2).2 in
  let listed s := match on_sys (l_List "/data" "k/") s with (Ok l, _) => fi_Name <$> l | _ => ["error"] end in
  listed s1 = ["k/"] ∧ (on_sys (l_Read "/data" "k/a") s2).1 = Err (localErr "k/a" (Sys.enoent "/data/k/a")) ∧
  (on_sys (l_Read "/data" "k/a") s3).1 = Ok (bytes_of_string "xy") ∧ listed s3 = ["k/"; "k/a"].
Proof. vm_compute. done. Qed.
