(* ===== verification/Url.v ===== *)
(** URLs of the object store's REST interface: the escaping of [net/url], the
    joining of endpoint, bucket and key ([appendEscapedPath] and [buildURL] of
    [storage_clients/http/http.go]), and the functions of [strings],
    [strconv] and [net/http] that its requests use.

    A decoder of such URLs is the reference against which [buildURL] is shown
    to keep distinct keys and distinct queries apart. *)

From stdpp Require Import sorting.
From S2P Require Import Prelude GoStrings.
#[local] Open Scope Z_scope.

(** ** strings and strconv *)

(** [strings.Trim(s, "/")]. *)
Definition Trim_slash (s : string) : string :=
  of_chars (reverse (drop_slashes (reverse (drop_slashes (chars s))))).

(** [strings.Cut] at a one-byte separator. *)
Fixpoint cut_chars (sep : ascii) (l : list ascii) : option (list ascii * list ascii) :=
  match l with
  | [] => None
  | c :: l =>
      if bool_decide (c = sep) then Some ([], l)
      else (λ x, (c :: x.1, x.2)) <$> cut_chars sep l
  end.
Definition Cut (s : string) (sep : ascii) : option (string * string) :=
  (λ x, (of_chars x.1, of_chars x.2)) <$> cut_chars sep (chars s).

(** The UTF-8 encodings of the characters that [unicode.IsSpace] accepts. *)
Definition ascii_of (z : Z) : ascii := ascii_of_N (Z.to_N z).
Definition spaces : list (list ascii) :=
  map (map ascii_of)
    ([[9]; [10]; [11]; [12]; [13]; [32]; [194; 133]; [194; 160]; [225; 154; 128]] ++
     map (λ z, [226; 128; 128 + z]) (seqZ 0 11) ++
     [[226; 128; 168]; [226; 128; 169]; [226; 128; 175]; [226; 129; 159]; [227; 128; 128]]).

(** The cases of ASCII letters. *)
Definition to_upper (c : ascii) : ascii :=
  if (97 <=? byte_of c) && (byte_of c <=? 122) then ascii_of (byte_of c - 32) else c.
Definition to_lower (c : ascii) : ascii :=
  if (65 <=? byte_of c) && (byte_of c <=? 90) then ascii_of (byte_of c + 32) else c.

(** Strips the given words from the beginning, in as many steps as there are
    bytes at most. *)
Fixpoint strip (fuel : nat) (words : list (list ascii)) (l : list ascii) : list ascii :=
  match fuel with
  | O => l
  | S fuel =>
      match head (filter (λ w, is_prefix w l = true) words) with
      | Some w => strip fuel words (drop (length w) l)
      | None => l
      end
  end.

(** [strings.TrimSpace]. *)
Definition TrimSpace (s : string) : string :=
  let l := strip (String.length s) spaces (chars s) in
  of_chars (reverse (strip (length l) (map reverse spaces) (reverse l))).

(** The value of a sequence of decimal digits. *)
Definition digits_value (l : list ascii) : option Z :=
  match l with
  | [] => None
  | _ => if forallb is_digit l then Some (fold_left (λ n c, 10 * n + (byte_of c - 48)) l 0) else None
  end.

Definition signed_value (l : list ascii) : option Z :=
  match l with
  | c :: l => if bool_decide (c = "-"%char) then Z.opp <$> digits_value l
              else if bool_decide (c = "+"%char) then digits_value l
              else digits_value (c :: l)
  | [] => None
  end.

(** [strconv.ParseInt(s, 10, 64)]. *)
Definition ParseInt (s : string) : option Z :=
  match signed_value (chars s) with
  | Some n => if (min_int64 <=? n) && (n <=? max_int64) then Some n else None
  | None => None
  end.

(** ** Escaping *)

Definition is_alnum (c : ascii) : bool :=
  let b := byte_of c in
  ((97 <=? b) && (b <=? 122)) || ((65 <=? b) && (b <=? 90)) || ((48 <=? b) && (b <=? 57)).
Definition one_of (s : string) (c : ascii) : bool := has_char c s.
Definition unreserved (c : ascii) : bool := is_alnum c || one_of "-_.~" c.

Definition upper_hex (n : Z) : ascii := ascii_of (if n <? 10 then 48 + n else 55 + n).
Definition pct (c : ascii) : list ascii :=
  ["%"%char; upper_hex (Z.shiftr (byte_of c) 4); upper_hex (Z.land (byte_of c) 15)].

(** [url.PathEscape]. *)
Definition path_char (c : ascii) : list ascii :=
  if unreserved c || one_of "$&+:=@" c then [c] else pct c.
Definition PathEscape (s : string) : string := of_chars (flat_map path_char (chars s)).

(** [url.QueryEscape]. *)
Definition query_char (c : ascii) : list ascii :=
  if unreserved c then [c] else if bool_decide (c = " "%char) then ["+"%char] else pct c.
Definition QueryEscape (s : string) : string := of_chars (flat_map query_char (chars s)).

(** [url.Values] with one value per key, and [Encode]: sorted by key. *)
Abbreviation Values := (gmap string string).
Definition key_le (x y : string * string) : Prop := str_leb x.1 y.1 = true.
#[export] Instance key_le_dec x y : Decision (key_le x y) := decide (_ = true).

Fixpoint join_amp (l : list string) : string :=
  match l with
  | [] => ""
  | [x] => x
  | x :: l => x +:+ "&" +:+ join_amp l
  end.
Definition encode_pair (kv : string * string) : string := QueryEscape kv.1 +:+ "=" +:+ QueryEscape kv.2.
Definition Encode (q : Values) : string := join_amp (encode_pair <$> merge_sort key_le (map_to_list q)).

(** ** URLs *)

(** [appendEscapedPath]: what it appends. *)
Definition appendEscapedPath (p : string) : string :=
  foldr (λ seg rest, "/" +:+ PathEscape seg +:+ rest) "" (Split (Trim_slash p) slash).

(** [HTTPStorageClient.buildURL]. *)
Definition buildURL (endpoint bucket key query : string) : string :=
  TrimSuffix endpoint "/" +:+
  (if bool_decide (Trim_slash bucket = "") then "" else appendEscapedPath bucket) +:+
  (if bool_decide (Trim_slash key = "") then "" else appendEscapedPath key) +:+
  (if bool_decide (query = "") then "" else "?" +:+ query).

Example buildURL_example :
  buildURL "http://localhost:9000/" "b" "a/p 1" (Encode {["uploadId" := "x/y"; "partNumber" := "3"]}) =
  "http://localhost:9000/b/a/p%201?partNumber=3&uploadId=x%2Fy".
Proof. vm_compute. done. Qed.

(** ** Decoding *)

Definition unhex (c : ascii) : Z :=
  let b := byte_of c in if b <? 58 then b - 48 else b - 55.
Fixpoint unescape (plus : bool) (l : list ascii) : list ascii :=
  match l with
  | [] => []
  | c :: l =>
      let plain := (if plus && bool_decide (c = "+"%char) then " "%char else c) :: unescape plus l in
      match l with
      | a :: b :: l => if bool_decide (c = "%"%char) then ascii_of (16 * unhex a + unhex b) :: unescape plus l else plain
      | _ => plain
      end
  end.
Definition PathUnescape (s : string) : string := of_chars (unescape false (chars s)).
Definition QueryUnescape (s : string) : string := of_chars (unescape true (chars s)).

Definition parse_pair (s : string) : string * string :=
  match Cut s "=" with
  | Some (k, v) => (QueryUnescape k, QueryUnescape v)
  | None => (QueryUnescape s, "")
  end.
Definition ParseQuery (s : string) : Values :=
  if bool_decide (s = "") then ∅ else list_to_map (parse_pair <$> Split s "&").

(** The key and the query of a URL below [base]. *)
Definition decode_key (path : string) : string :=
  join_slash (PathUnescape <$> Split (TrimPrefix path "/") slash).
Definition decodeURL (base url : string) : string * Values :=
  let rest := TrimPrefix url base in
  match Cut rest "?" with
  | Some (path, q) => (decode_key path, ParseQuery q)
  | None => (decode_key rest, ∅)
  end.

(** What every URL of a bucket begins with. *)
Definition base_url (endpoint bucket : string) : string :=
  TrimSuffix endpoint "/" +:+ (if bool_decide (Trim_slash bucket = "") then "" else appendEscapedPath bucket).

(** The keys that [buildURL] keeps apart. *)
Definition object_key (k : string) : Prop := k ≠ "" ∧ HasPrefix k "/" = false ∧ HasSuffix k "/" = false.

(** ** Escaping is reversible *)

Ltac every_char c := destruct c as [[] [] [] [] [] [] [] []].

Lemma unescape_path_char c l : unescape false (path_char c ++ l) = c :: unescape false l.
Proof. every_char c; destruct l as [|? [|? ?]]; reflexivity. Qed.

Lemma unescape_query_char c l : unescape true (query_char c ++ l) = c :: unescape true l.
Proof. every_char c; destruct l as [|? [|? ?]]; reflexivity. Qed.

Lemma PathUnescape_escape s : PathUnescape (PathEscape s) = s.
Proof.
  unfold PathUnescape, PathEscape. rewrite chars_of_chars. rewrite <- (of_chars_chars s) at 2. f_equal.
  induction (chars s) as [|c l IH]; [done|]. cbn [flat_map]. by rewrite unescape_path_char, IH.
Qed.

Lemma QueryUnescape_escape s : QueryUnescape (QueryEscape s) = s.
Proof.
  unfold QueryUnescape, QueryEscape. rewrite chars_of_chars. rewrite <- (of_chars_chars s) at 2. f_equal.
  induction (chars s) as [|c l IH]; [done|]. cbn [flat_map]. by rewrite unescape_query_char, IH.
Qed.

Lemma path_char_plain c : forallb (λ a, negb (bool_decide (a = "/"%char) || bool_decide (a = "?"%char))) (path_char c) = true.
Proof. every_char c; reflexivity. Qed.

Lemma query_char_plain c : forallb (λ a, negb (bool_decide (a = "&"%char) || bool_decide (a = "="%char))) (query_char c) = true.
Proof. every_char c; reflexivity. Qed.

Lemma flat_map_plain (f : ascii → list ascii) a b l :
  (∀ c, forallb (λ x, negb (bool_decide (x = a) || bool_decide (x = b))) (f c) = true) →
  (a ∉ flat_map f l) ∧ (b ∉ flat_map f l).
Proof.
  intros Hf. induction l as [|c l [Ha Hb]]; cbn [flat_map]; [split; by intros ?%elem_of_nil|].
  specialize (Hf c). rewrite forallb_forall in Hf.
  rewrite !not_elem_of_app. split_and!; [|done| |done]; intros Hin%list_elem_of_In; apply Hf in Hin;
    rewrite negb_true_iff, orb_false_iff, !bool_decide_eq_false in Hin; naive_solver.
Qed.

Lemma PathEscape_plain s : has_char "/" (PathEscape s) = false ∧ has_char "?" (PathEscape s) = false.
Proof. rewrite !has_char_false. unfold PathEscape. rewrite chars_of_chars. apply flat_map_plain, path_char_plain. Qed.

Lemma QueryEscape_plain s : has_char "&" (QueryEscape s) = false ∧ has_char "=" (QueryEscape s) = false.
Proof. rewrite !has_char_false. unfold QueryEscape. rewrite chars_of_chars. apply flat_map_plain, query_char_plain. Qed.

(** ** Cutting *)

Lemma Cut_app s t sep : has_char sep s = false → Cut (s +:+ String sep t) sep = Some (s, t).
Proof.
  intros Hs%has_char_false. unfold Cut. rewrite chars_app. change (chars (String sep t)) with (sep :: chars t).
  assert (cut_chars sep (chars s ++ sep :: chars t) = Some (chars s, chars t)) as ->.
  { induction (chars s) as [|c l IH]; cbn; [by rewrite bool_decide_true|].
    apply not_elem_of_cons in Hs as [Hc Hl]. rewrite bool_decide_false by done. by rewrite IH. }
  cbn. by rewrite !of_chars_chars.
Qed.

Lemma Cut_none s sep : has_char sep s = false → Cut s sep = None.
Proof.
  intros Hs%has_char_false. unfold Cut. assert (cut_chars sep (chars s) = None) as ->; [|done].
  induction (chars s) as [|c l IH]; cbn; [done|]. apply not_elem_of_cons in Hs as [Hc Hl].
  rewrite bool_decide_false by done. by rewrite IH.
Qed.

(** ** Keys *)

Lemma drop_slashes_id l : (∀ c l', l = c :: l' → c ≠ slash) → drop_slashes l = l.
Proof. destruct l as [|c l]; [done|]. intros H. cbn. by rewrite bool_decide_false by (by eapply H). Qed.

Lemma Trim_slash_id k : HasPrefix k "/" = false → HasSuffix k "/" = false → Trim_slash k = k.
Proof.
  intros Hp Hs. unfold Trim_slash. rewrite (drop_slashes_id (chars k)), drop_slashes_id, reverse_involutive, of_chars_chars; [done| |].
  - intros c l E ->. unfold HasSuffix in Hs. rewrite E in Hs. done.
  - intros c l E ->. unfold HasPrefix in Hp. rewrite E in Hp. done.
Qed.

Lemma appended_join l : l ≠ [] →
  foldr (λ seg rest, "/" +:+ PathEscape seg +:+ rest) "" l = "/" +:+ join_slash (PathEscape <$> l).
Proof.
  induction l as [|x l IH]; [done|]. intros _. cbn [foldr]. destruct l as [|y l].
  - cbn. apply chars_inj. rewrite !chars_app. by rewrite app_nil_r.
  - rewrite IH by done. done.
Qed.

Lemma appendEscapedPath_key k : object_key k →
  appendEscapedPath k = "/" +:+ join_slash (PathEscape <$> Split k slash).
Proof.
  intros (Hne & Hp & Hs). unfold appendEscapedPath. rewrite Trim_slash_id by done.
  apply appended_join, Split_nonempty.
Qed.

Lemma decode_key_escaped k : decode_key ("/" +:+ join_slash (PathEscape <$> Split k slash)) = k.
Proof.
  unfold decode_key. rewrite TrimPrefix_app. rewrite Split_join.
  - rewrite <- list_fmap_compose. rewrite (list_fmap_ext _ id).
    + by rewrite list_fmap_id, join_Split.
    + intros i x _. cbn. apply PathUnescape_escape.
  - intros H%fmap_nil_inv. by apply Split_nonempty in H.
  - rewrite Forall_fmap. apply Forall_true. intros x. cbn. apply PathEscape_plain.
Qed.

Lemma joined_plain l : Forall (λ x, has_char "?" x = false) l → has_char "?" (join_slash l) = false.
Proof.
  setoid_rewrite has_char_false. induction 1 as [|x l Hx Hl IH]; [by intros ?%elem_of_nil|]. destruct l as [|y l]; [done|].
  change (join_slash (x :: y :: l)) with (x +:+ "/" +:+ join_slash (y :: l)). rewrite !chars_app, !not_elem_of_app.
  split_and!; [done| |done]. intros ?%list_elem_of_singleton. done.
Qed.

Lemma escaped_no_question k : has_char "?" ("/" +:+ join_slash (PathEscape <$> Split k slash)) = false.
Proof.
  assert (has_char "?" (join_slash (PathEscape <$> Split k slash)) = false) as H.
  { apply joined_plain. rewrite Forall_fmap. apply Forall_true. intros x. cbn. apply PathEscape_plain. }
  exact H.
Qed.

(** ** Queries *)

Lemma join_amp_split l : l ≠ [] → Forall (λ x, has_char "&" x = false) l → Split (join_amp l) "&" = l.
Proof.
  intros Hne Hall. unfold Split. induction Hall as [|x l Hx Hl IH]; [done|]. apply has_char_false in Hx.
  destruct l as [|y l].
  - cbn [join_amp]. rewrite split_chars_nosep by done. csimpl. by rewrite of_chars_chars.
  - change (join_amp (x :: y :: l)) with (x +:+ String "&" (join_amp (y :: l))). rewrite chars_app.
    change (chars (String "&" (join_amp (y :: l)))) with ("&"%char :: chars (join_amp (y :: l))).
    rewrite split_chars_app by done. rewrite fmap_cons, of_chars_chars. by rewrite IH.
Qed.

Lemma parse_encode_pair kv : parse_pair (encode_pair kv) = kv.
Proof.
  destruct kv as [k v]. unfold parse_pair, encode_pair. cbn [fst snd]. change ("=" +:+ QueryEscape v) with (String "=" (QueryEscape v)).
  rewrite Cut_app by apply QueryEscape_plain. by rewrite !QueryUnescape_escape.
Qed.

Lemma encode_pair_nonempty kv : encode_pair kv ≠ "".
Proof. unfold encode_pair. by destruct (QueryEscape kv.1). Qed.

Lemma encode_pair_plain kv : has_char "&" (encode_pair kv) = false.
Proof.
  unfold encode_pair. pose proof (QueryEscape_plain kv.1) as [H1 _]. pose proof (QueryEscape_plain kv.2) as [H2 _].
  rewrite has_char_false in *. rewrite !chars_app, !not_elem_of_app. split_and!; [done| |done].
  by intros ?%list_elem_of_singleton.
Qed.

Lemma join_amp_nonempty l : l ≠ [] → Forall (λ x, x ≠ "") l → join_amp l ≠ "".
Proof.
  intros Hne Hall. destruct Hall as [|x l Hx Hl]; [done|]. destruct l as [|y l]; [done|].
  intros E%(f_equal chars). change (join_amp (x :: y :: l)) with (x +:+ "&" +:+ join_amp (y :: l)) in E.
  rewrite chars_app in E. apply app_nil in E as [E _]. apply Hx. by apply chars_inj.
Qed.

(** A query is read back as it was encoded. *)
Lemma ParseQuery_Encode q : ParseQuery (Encode q) = q.
Proof.
  unfold ParseQuery, Encode. set (l := merge_sort key_le (map_to_list q)).
  assert (l ≡ₚ map_to_list q) as Hl by apply merge_sort_Permutation.
  destruct (decide (l = [])) as [E|Hne].
  { rewrite E in Hl |- *. symmetry in Hl. apply Permutation_nil_r in Hl. cbn. symmetry. by apply map_to_list_empty_iff. }
  rewrite bool_decide_false.
  - rewrite join_amp_split; [|by intros ?%fmap_nil_inv|rewrite Forall_fmap; apply Forall_true; intros; apply encode_pair_plain].
    rewrite <- list_fmap_compose. rewrite (list_fmap_ext _ id) by (intros; apply parse_encode_pair). rewrite list_fmap_id.
    rewrite <- (list_to_map_to_list q). apply list_to_map_proper; [|done].
    rewrite Hl. apply NoDup_fst_map_to_list.
  - apply join_amp_nonempty; [by intros ?%fmap_nil_inv|]. rewrite Forall_fmap. apply Forall_true. intros. apply encode_pair_nonempty.
Qed.

(** The URL of a key and a query is read back as it was built. *)
Lemma decode_buildURL endpoint bucket k q : object_key k →
  decodeURL (base_url endpoint bucket) (buildURL endpoint bucket k q) = (k, ParseQuery q).
Proof.
  intros Hk. unfold decodeURL, buildURL, base_url. set (a := TrimSuffix endpoint "/"). set (b := if bool_decide (Trim_slash bucket = "") then _ else _).
  assert (∀ x y, a +:+ b +:+ x +:+ y = (a +:+ b) +:+ (x +:+ y)) as E by (intros; apply chars_inj; by rewrite !chars_app, !app_assoc).
  rewrite E, TrimPrefix_app. clear E. destruct Hk as (Hne & Hp & Hs). rewrite (bool_decide_false (Trim_slash k = "")) by (by rewrite Trim_slash_id).
  rewrite appendEscapedPath_key by done. case_bool_decide as Eq.
  - subst q. assert (∀ x, x +:+ "" = x) as -> by (intros; apply chars_inj; by rewrite chars_app, app_nil_r).
    rewrite Cut_none by apply escaped_no_question. by rewrite decode_key_escaped.
  - change ("?" +:+ q) with (String "?" q). rewrite Cut_app by apply escaped_no_question. by rewrite decode_key_escaped.
Qed.

(** The URL of a bucket. *)
Lemma decode_bucketURL endpoint bucket q : q ≠ "" →
  decodeURL (base_url endpoint bucket) (buildURL endpoint bucket "" q) = ("", ParseQuery q).
Proof.
  intros Hq. unfold decodeURL, buildURL, base_url. set (a := TrimSuffix endpoint "/"). set (b := if bool_decide (Trim_slash bucket = "") then _ else _).
  assert (∀ x y, a +:+ b +:+ x +:+ y = (a +:+ b) +:+ (x +:+ y)) as E by (intros; apply chars_inj; by rewrite !chars_app, !app_assoc).
  rewrite E, TrimPrefix_app. clear E. rewrite (bool_decide_false (q = "")) by done. change (bool_decide (Trim_slash "" = "")) with true. cbv iota.
  change ("" +:+ "?" +:+ q) with ("" +:+ String "?" q). by rewrite Cut_app.
Qed.

(** ** Numbers *)

Definition push_digit (n : Z) (c : ascii) : Z := 10 * n + (byte_of c - 48).

Lemma pretty_N_char_digit x : (x < 10)%N → is_digit (pretty_N_char x) = true ∧ byte_of (pretty_N_char x) - 48 = Z.of_N x.
Proof.
  intros Hx. assert (x = 0 ∨ x = 1 ∨ x = 2 ∨ x = 3 ∨ x = 4 ∨ x = 5 ∨ x = 6 ∨ x = 7 ∨ x = 8 ∨ x = 9)%N as H by lia.
  destruct_or! H; subst; done.
Qed.

(** The digits of [x] in front of [s]. *)
Lemma pretty_N_go_value x s :
  fold_left push_digit (chars (pretty_N_go x s)) 0 = fold_left push_digit (chars s) (Z.of_N x) ∧
  forallb is_digit (chars (pretty_N_go x s)) = forallb is_digit (chars s) ∧ (x ≠ 0%N → chars (pretty_N_go x s) ≠ []).
Proof.
  revert s. induction (N.lt_wf_0 x) as [x _ IH]. intros s. destruct (decide (x = 0%N)) as [->|Hx].
  { rewrite pretty_N_go_0. by split_and!. }
  rewrite pretty_N_go_step by lia. assert (x `mod` 10 < 10)%N as Hm by (apply N.mod_lt; lia).
  assert (x `div` 10 < x)%N as Hd by (apply N.div_lt; lia).
  destruct (IH _ Hd (String (pretty_N_char (x `mod` 10)) s)) as (Hv & Hf & Hn). destruct (pretty_N_char_digit _ Hm) as [Hdig Hval].
  split_and!.
  - rewrite Hv. cbn [chars String.list_ascii_of_string fold_left]. fold (chars s). f_equal. unfold push_digit. rewrite Hval.
    pose proof (N.div_mod x 10 ltac:(lia)). lia.
  - rewrite Hf. cbn [chars String.list_ascii_of_string forallb]. by rewrite Hdig.
  - intros _. destruct (decide (x `div` 10 = 0)%N) as [E|E]; [|by apply Hn]. rewrite E, pretty_N_go_0. done.
Qed.

Lemma digits_value_fold l : l ≠ [] → forallb is_digit l = true → digits_value l = Some (fold_left push_digit l 0).
Proof. intros Hne Hd. unfold digits_value. destruct l; [done|]. by rewrite Hd. Qed.

Lemma digits_value_pretty x : digits_value (chars (pretty x)) = Some (Z.of_N x) ∧ forallb is_digit (chars (pretty x)) = true.
Proof.
  unfold pretty, pretty_N. destruct (decide (x = 0%N)) as [->|Hx]; [done|].
  destruct (pretty_N_go_value x "") as (Hv & Hf & Hn). split; [|by rewrite Hf].
  rewrite digits_value_fold by (rewrite ?Hf; auto). by rewrite Hv.
Qed.

Lemma digit_signs l : l ≠ [] → forallb is_digit l = true → signed_value l = digits_value l.
Proof.
  destruct l as [|c l]; [done|]. intros _ Hd. cbn [forallb] in Hd. apply andb_true_iff in Hd as [Hc _]. unfold signed_value.
  rewrite !bool_decide_false; [done|by intros ->..].
Qed.

Lemma fmt_d_pos p : fmt_d (Z.pos p) = pretty (N.pos p).
Proof. done. Qed.
Lemma fmt_d_minus p : fmt_d (Z.neg p) = "-" +:+ pretty (N.pos p).
Proof. done. Qed.

(** Numbers are read back as they were written. *)
Lemma signed_value_fmt_d n : signed_value (chars (fmt_d n)) = Some n.
Proof.
  destruct n as [|p|p]; [done|rewrite fmt_d_pos|rewrite fmt_d_minus]; destruct (digits_value_pretty (N.pos p)) as [Hv Hd].
  - rewrite digit_signs; [exact Hv| |exact Hd]. intros E. by rewrite E in Hv.
  - rewrite chars_app. change (chars "-") with ["-"%char]. cbn [app signed_value]. rewrite bool_decide_true by done. by rewrite Hv.
Qed.

Lemma ParseInt_fmt_d n : is_i64 n → ParseInt (fmt_d n) = Some n.
Proof.
  intros [H1 H2]. unfold ParseInt. rewrite signed_value_fmt_d.
  by rewrite (proj2 (Z.leb_le _ _) H1), (proj2 (Z.leb_le _ _) H2).
Qed.

Lemma fmt_d_chars n : 0 ≤ n → forallb is_digit (chars (fmt_d n)) = true ∧ chars (fmt_d n) ≠ [].
Proof.
  intros Hn. destruct n as [|p|p]; [done|rewrite fmt_d_pos|lia]. destruct (digits_value_pretty (N.pos p)) as [Hv Hd].
  split; [exact Hd|]. intros E. by rewrite E in Hv.
Qed.

(** Digits are not white space. *)
Lemma digit_no_space c l : is_digit c = true → filter (λ w, is_prefix w (c :: l) = true) spaces = [] ∧
  filter (λ w, is_prefix w (c :: l) = true) (map reverse spaces) = [].
Proof. every_char c; intros H; try discriminate H; split; reflexivity. Qed.

Lemma strip_digits fuel l : forallb is_digit l = true → strip fuel spaces l = l ∧ strip fuel (map reverse spaces) l = l.
Proof.
  intros Hd. destruct fuel as [|fuel]; [done|]. cbn [strip]. destruct l as [|c l]; [done|]. cbn [forallb] in Hd.
  apply andb_true_iff in Hd as [Hc _]. destruct (digit_no_space c l Hc) as [-> ->]. done.
Qed.

Lemma TrimSpace_digits s : forallb is_digit (chars s) = true → TrimSpace s = s.
Proof.
  intros Hd. unfold TrimSpace. cbv zeta. destruct (strip_digits (String.length s) (chars s) Hd) as [-> _].
  assert (forallb is_digit (reverse (chars s)) = true) as Hr.
  { rewrite forallb_forall in Hd |- *. intros x Hx. apply Hd. apply list_elem_of_In in Hx. rewrite elem_of_reverse in Hx. by apply list_elem_of_In. }
  destruct (strip_digits (length (chars s)) _ Hr) as [_ ->]. by rewrite reverse_involutive, of_chars_chars.
Qed.
