(* ===== verification/Attempts.v ===== *)
(** Attempts of a storage client: the contexts derived from the caller's and
    [RetryPolicy.Do] around a closure that leaves its result in a captured
    variable, as every operation of the clients uses it. *)

From S2P Require Import Prelude Errors Retry Store.
#[local] Open Scope Z_scope.

(** Where a client runs: the state of the world, the caller's context, the
    clock and the waiting of the retry loop.  A context is the caller's with
    the timeouts derived from it, innermost first, each with the state it
    began in. *)
Class Surroundings := {
  net : Type;
  caller_Err : net → option sentinel;
  net_expired : Z → net → net → bool;
  net_draw : net → Z → Z;
  net_sleep : list (Z * net) → Z → net → net * option sentinel;
}.

Section Attempts.
Context {SU : Surroundings}.
Abbreviation context := (list (Z * net)).

(** [ctx.Err()]. *)
Fixpoint ctx_Err (ctx : context) (w : net) : option sentinel :=
  match ctx with
  | [] => caller_Err w
  | (t, w0) :: ctx =>
      match ctx_Err ctx w with
      | Some c => Some c
      | None => if net_expired t w0 w then Some CtxDeadlineExceeded else None
      end
  end.

(** The surroundings of a retry loop whose attempts run [fn] and leave their
    result in a captured variable, the cell. *)
Definition attempt_env {A} (ctx : context) (t : Z) (fn : context → M net A) : RetryEnv (net * res A) := {|
  call s :=
    match fn (if t <=? 0 then ctx else (t, s.1) :: ctx) s.1 with
    | (Err e, w) => ((w, s.2), Some e)
    | (r, w) => ((w, r), None)
    end;
  ctx_err s := ctx_Err ctx s.1;
  expired t s s' := net_expired t s.1 s'.1;
  draw s := net_draw s.1;
  sleep d s := let '(w, r) := net_sleep ctx d s.1 in ((w, s.2), r);
|}.

(** [h.retry.Do] and the use of the captured variable, [zero] at first. *)
Definition retry_do {A} (p : RetryPolicy) (ctx : context) (op : string) (t : Z) (zero : A)
    (fn : context → M net A) : M net A := λ w,
  match @Do _ (attempt_env ctx t fn) p op t (w, Ok zero) with
  | ((w, cell), Ok _) => (cell, w)
  | ((w, _), Err e) => (Err e, w)
  | ((w, _), Panic) => (Panic, w)
  | ((w, _), OutOfFuel) => (OutOfFuel, w)
  end.

End Attempts.

(** ** What a retried call does *)

Section Spec.
Context {SU : Surroundings} (calm : net → net → Prop) (calm_refl : ∀ w, calm w w).
Context (caller_law : ∀ w c, caller_Err w = Some c → c = CtxCanceled ∨ c = CtxDeadlineExceeded).
Context (sleep_law : ∀ ctx d w w' r, net_sleep ctx d w = (w', r) →
  calm w w' ∧ ∀ c, r = Some c → c = CtxCanceled ∨ c = CtxDeadlineExceeded).
Abbreviation context := (list (Z * net)).

Lemma ctx_Err_sentinel ctx w c : ctx_Err ctx w = Some c → c = CtxCanceled ∨ c = CtxDeadlineExceeded.
Proof.
  induction ctx as [|[t w0] ctx IH]; cbn; [apply caller_law|].
  destruct (ctx_Err ctx w); [by intros [= ->]; apply IH|]. destruct (net_expired t w0 w); [|done]. intros [= <-]. by right.
Qed.

Lemma attempt_inv {A} ctx t (fn : context → M net A) s s' o :
  @runAttempt _ (attempt_env ctx t fn) t s = (s', o) →
  ∃ c r, fn c s.1 = (r, s'.1) ∧
    ((o = None ∧ (∀ e, r ≠ Err e) ∧ s'.2 = r) ∨
     ∃ e e', r = Err e ∧ o = Some e' ∧ errors_Is e' ErrNotFound = errors_Is e ErrNotFound).
Proof.
  unfold runAttempt. cbn [call ctx_err expired attempt_env].
  destruct (t <=? 0); destruct (fn _ s.1) as [[a|e| |] w1] eqn:E; try case_match; intros; simplify_eq; eexists _, _;
    (split; [exact E|]); first [left; by split_and!|right; eexists _, _; split_and!; [done|done|]]; try done.
  cbn. by rewrite orb_false_r.
Qed.

(** An invariant [I] of failing attempts and of the sleeps between them holds
    until the attempt that succeeds; a missing object is reported by the last
    attempt. *)
Lemma retry_do_spec {A} (I : net → Prop) p ctx op t (zero : A) (fn : context → M net A) w r w' :
  (∀ w1 w2, I w1 → calm w1 w2 → I w2) →
  (∀ c w1 r1 w2, I w1 → fn c w1 = (r1, w2) → returns r1 ∧ (fails r1 → I w2)) →
  I w → retry_do p ctx op t zero fn w = (r, w') →
  (∃ a c w1, r = Ok a ∧ I w1 ∧ fn c w1 = (Ok a, w')) ∨
  (∃ e, r = Err e ∧ I w' ∧ (errors_Is e ErrNotFound = true →
     ∃ c w1 w2 e0, I w1 ∧ fn c w1 = (Err e0, w2) ∧ errors_Is e0 ErrNotFound = true ∧ calm w2 w')).
Proof.
  intros Hun Hfn Hw. unfold retry_do. set (env := attempt_env ctx t fn).
  destruct (Do_run p op t ((w, Ok zero) : net * res A)) as (s' & rr & -> & Hrun).
  assert (∀ s : net * res A, s = (w, Ok zero) → I s.1) as Hs by (by intros ? ->). specialize (Hs _ eq_refl).
  assert (∀ s e s1, I s.1 → runAttempt t s = (s1, Some e) → I s1.1 ∧ (errors_Is e ErrNotFound = true →
    ∃ c w1 e0, I w1 ∧ fn c w1 = (Err e0, s1.1) ∧ errors_Is e0 ErrNotFound = true)) as Hfail.
  { intros s e s1 HI (c & r1 & Hc & [(? & _)|(e0 & e' & -> & [= <-] & He)])%attempt_inv; [done|].
    destruct (Hfn _ _ _ _ HI Hc) as [_ Hf]. split; [apply Hf; by eexists|]. rewrite He. intros. by exists c, s.1, e0. }
  assert (∀ s e s1 e1, I s.1 → runAttempt t s = (s1, Some e) → errors_Is e1 ErrNotFound = errors_Is e ErrNotFound →
    ∃ e, (Err e1 : res A) = Err e ∧ I s1.1 ∧ (errors_Is e ErrNotFound = true →
     ∃ c w1 w2 e0, I w1 ∧ fn c w1 = (Err e0, w2) ∧ errors_Is e0 ErrNotFound = true ∧ calm w2 s1.1)) as Hend.
  { intros s e s1 e1 HI Ha He. destruct (Hfail _ _ _ HI Ha) as [HI1 Hnf]. exists e1. split_and!; [done|done|].
    rewrite He. intros (c & w1 & e0 & ? & ? & ?)%Hnf. exists c, w1, s1.1, e0. split_and!; [done..|apply calm_refl]. }
  clear Hw. remember ((w, Ok zero) : net * res A) as s eqn:Es. clear Es w. revert r w'.
  induction Hrun as [a s s1 Ha|a s s1 err c e Ha Hc He|a s s1 err Ha Hc Hfin|a s s1 err Ha Hc Hfin Hlim|
    a s s1 s2 err c Ha Hc Hfin Hlim Hsl|a s s1 s2 s3 err r0 Ha Hc Hfin Hlim Hsl Hrun IH]; intros r w'.
  - destruct s1 as [w1 cell]. intros [= <- <-]. left. apply attempt_inv in Ha as (c & r1 & Hc & [(_ & Hne & Hcell)|(? & ? & _ & ? & _)]); [|done].
    cbn in Hc, Hcell. subst cell. destruct (Hfn _ _ _ _ Hs Hc) as [[[x ->]|[e ->]] _]; [|by destruct (Hne e)]. by exists x, c, s.1.
  - destruct s1 as [w1 cell]. intros [= <- <-]. right. eapply (Hend _ _ _ e Hs Ha). subst e.
    cbn in Hc. apply ctx_Err_sentinel in Hc. destruct (errors_Is err c); cbn; rewrite orb_false_r; [done|].
    by destruct Hc as [-> | ->].
  - destruct s1 as [w1 cell]. intros [= <- <-]. right. eapply (Hend _ _ _ _ Hs Ha). cbn. by rewrite orb_false_r.
  - destruct s1 as [w1 cell]. intros [= <- <-]. right. eapply (Hend _ _ _ _ Hs Ha). cbn. by rewrite orb_false_r.
  - destruct s2 as [w2 cell]. intros [= <- <-]. right. destruct (Hfail _ _ _ Hs Ha) as [HI1 Hnf].
    cbn [sleep env attempt_env] in Hsl. destruct (net_sleep ctx _ s1.1) as [w3 r3] eqn:E3. injection Hsl as -> <- ->.
    destruct (sleep_law _ _ _ _ _ E3) as [Hu Hsent]. eexists. split_and!; [done|by eapply Hun|].
    assert (errors_Is (Errorf op [ESentinel c; err]) ErrNotFound = errors_Is err ErrNotFound) as ->.
    { cbn. rewrite orb_false_r. by destruct (Hsent c eq_refl) as [-> | ->]. }
    intros (c0 & w1 & e0 & ? & ? & ?)%Hnf. by exists c0, w1, s1.1, e0.
  - apply IH. destruct (Hfail _ _ _ Hs Ha) as [HI1 _]. cbn [sleep env attempt_env] in Hsl.
    destruct (net_sleep ctx _ s1.1) as [w3 r3] eqn:E3. injection Hsl as <- ->. eapply Hun; [exact HI1|].
    by destruct (sleep_law _ _ _ _ _ E3).
Qed.

End Spec.
