(* ===== verification/Retried.v ===== *)
(** What a retried request does to an object store: the state of the store as
    the clients' contracts describe it, and for every kind of request the
    effect of the retry loop from the effect of one attempt. *)

From S2P Require Import Prelude Errors Retry GoStrings Digest Store Attempts ObjectStorage.
#[local] Open Scope Z_scope.

(** The objects of a bucket, the uploads in progress, the identifiers issued. *)
Class StoreView {SU : Surroundings} := {
  s_objects : net → gmap string bytes;
  s_uploads : net → string → option (string * gmap Z (string * bytes));
  s_issued : net → gset string;
}.

(** ** Bodies *)

(** A body that delivers [want], or less of it and an error. *)
Definition delivers (b : stream) (want : bytes) : Prop := b.1 `prefix_of` want ∧ (b.2 = None → b.1 = want).

(** The value of a [Range] header, [z] being -1 for the end of the object. *)
Definition range_value (a z : Z) : string := "bytes=" +:+ fmt_d a +:+ "-" +:+ (if z =? -1 then "" else fmt_d z).
Definition range_of (a z : Z) (whole : bytes) : bytes :=
  drop (Z.to_nat a) (if z =? -1 then whole else take (Z.to_nat (z + 1)) whole).

(** What a reader of a range promises. *)
Definition range_post (k : string) (a z : Z) (m : gmap string bytes) (s : stream) : Prop :=
  ∃ whole, m !! k = Some whole ∧ (s.2 = None → s.1 = range_of a z whole) ∧
    (∀ err, s.2 = Some err → s.1 `prefix_of` range_of a z whole ∧ errors_Is err ErrNotFound = false).

Lemma delivers_post k a z m body whole : m !! k = Some whole → delivers body (range_of a z whole) →
  (∀ e, body.2 = Some e → errors_Is e ErrNotFound = false) → range_post k a z m body.
Proof.
  intros Hk [Hp He] Herr. exists whole. split_and!; [done|exact He|]. intros err Ee. split; [done|]. by apply Herr.
Qed.

(** As the contract of a provider has it. *)
Lemma range_post_law k a z m (b : bytes) e : range_post k a z m (b, e) → z = -1 ∨ 0 ≤ z →
  ∃ whole, m !! k = Some whole ∧
    let want := drop (Z.to_nat a) (if z <? 0 then whole else take (Z.to_nat (z + 1)) whole) in
    (e = None → b = want) ∧ (∀ err, e = Some err → b `prefix_of` want ∧ errors_Is err ErrNotFound = false).
Proof.
  intros (whole & Hw & Hwant) Hz. exists whole. split; [done|]. cbv zeta. unfold range_of in Hwant.
  destruct Hz as [->|Hz0]; [exact Hwant|].
  rewrite (proj2 (Z.ltb_ge z 0)) by lia. rewrite (proj2 (Z.eqb_neq z (-1))) in Hwant by lia. exact Hwant.
Qed.

(** ** What a step of a client does to the store *)

Section Relations.
Context {SU : Surroundings} {SV : StoreView}.

Definition unchanged (w w' : net) : Prop :=
  s_objects w' = s_objects w ∧ (∀ id, s_uploads w' id = s_uploads w id) ∧ s_issued w ⊆ s_issued w'.

Lemma unchanged_refl w : unchanged w w.
Proof. by split_and!. Qed.
Lemma unchanged_trans w1 w2 w3 : unchanged w1 w2 → unchanged w2 w3 → unchanged w1 w3.
Proof. intros (O1 & U1 & I1) (O2 & U2 & I2). split_and!; [congruence|intros; by rewrite U2|set_solver]. Qed.

(** Uploads and identifiers stay as they are. *)
Definition same_uploads (w w' : net) : Prop := (∀ id, s_uploads w' id = s_uploads w id) ∧ s_issued w ⊆ s_issued w'.

Lemma same_uploads_refl w : same_uploads w w.
Proof. by split. Qed.
Lemma same_uploads_trans w1 w2 w3 : same_uploads w1 w2 → same_uploads w2 w3 → same_uploads w1 w3.
Proof. intros [U1 I1] [U2 I2]. split; [intros; by rewrite U2|set_solver]. Qed.
Lemma unchanged_same w w' : unchanged w w' → same_uploads w w'.
Proof. intros (_ & U & I). by split. Qed.

(** The objects are those of [w], or what [f] makes of them. *)
Definition maybe (f : gmap string bytes → gmap string bytes) (w w1 : net) : Prop :=
  same_uploads w w1 ∧ (s_objects w1 = f (s_objects w) ∨ s_objects w1 = s_objects w).

Lemma maybe_refl f w : maybe f w w.
Proof. split; [apply same_uploads_refl|by right]. Qed.
Lemma maybe_unchanged f w w1 w2 : maybe f w w1 → unchanged w1 w2 → maybe f w w2.
Proof. intros [Hs Ho] Hu. split; [eapply same_uploads_trans; [done|by apply unchanged_same]|]. by rewrite (proj1 Hu). Qed.

(** An attempt that applies the idempotent [f] or does nothing. *)
Lemma maybe_step f w w1 w2 : (∀ m, f (f m) = f m) → maybe f w w1 → maybe f w1 w2 → maybe f w w2.
Proof.
  intros Hf [Hs1 Ho1] [Hs2 Ho2]. split; [by eapply same_uploads_trans|].
  destruct Ho1 as [E1|E1], Ho2 as [E2|E2]; rewrite E2, E1, ?Hf; auto.
Qed.

Lemma insert_idem k (b : bytes) (m : gmap string bytes) : <[k := b]> (<[k := b]> m) = <[k := b]> m.
Proof. apply insert_insert_eq. Qed.
Lemma delete_idem_key k (m : gmap string bytes) : delete k (delete k m) = delete k m.
Proof. apply delete_delete_eq. Qed.

(** Uploads are only added. *)
Definition grows (w w' : net) : Prop :=
  s_objects w' = s_objects w ∧ keeps (s_uploads w) (s_uploads w') ∧ s_issued w ⊆ s_issued w'.

Lemma world_grows_refl w : grows w w.
Proof. split_and!; [done|by intros x y|done]. Qed.
Lemma world_grows_trans w1 w2 w3 : grows w1 w2 → grows w2 w3 → grows w1 w3.
Proof. intros (O1 & U1 & I1) (O2 & U2 & I2). split_and!; [congruence|intros x y ?; auto|set_solver]. Qed.
Lemma unchanged_grows w w' : unchanged w w' → grows w w'.
Proof. intros (O & U & I). split_and!; [done|intros x y; by rewrite U|done]. Qed.

(** One upload only is concerned. *)
Definition own (id : string) (w w' : net) : Prop :=
  s_objects w' = s_objects w ∧ s_issued w ⊆ s_issued w' ∧ ∀ id', id' ≠ id → s_uploads w' id' = s_uploads w id'.

Lemma own_refl id w : own id w w.
Proof. by split_and!. Qed.
Lemma own_trans id w1 w2 w3 : own id w1 w2 → own id w2 w3 → own id w1 w3.
Proof. intros (O1 & I1 & U1) (O2 & I2 & U2). split_and!; [congruence|set_solver|intros; by rewrite U2, U1]. Qed.
Lemma unchanged_own id w w' : unchanged w w' → own id w w'.
Proof. intros (O & U & I). split_and!; [done|done|auto]. Qed.

(** An upload with the parts [parts], and perhaps the part [n] with the
    content [b] in place of what it held. *)
Definition with_part (k id : string) (n : Z) (b : bytes) (parts : gmap Z (string * bytes)) (w w1 : net) : Prop :=
  own id w w1 ∧ (s_uploads w1 id = Some (k, parts) ∨ ∃ etag, s_uploads w1 id = Some (k, <[n := (etag, b)]> parts)).

Lemma with_part_unchanged k id n b parts w w1 w2 : with_part k id n b parts w w1 → unchanged w1 w2 → with_part k id n b parts w w2.
Proof. intros [Ho Hp] Hu. split; [eapply own_trans; [done|by apply unchanged_own]|]. by rewrite (proj1 (proj2 Hu)). Qed.

Lemma with_part_step k id n b parts w w1 w2 etag0 :
  own id w w1 → with_part k id n b (<[n := (etag0, b)]> parts) w1 w2 → with_part k id n b parts w w2.
Proof.
  intros Ho [Ho2 Hp]. split; [by eapply own_trans|]. right. destruct Hp as [E|[etag E]]; rewrite E; [by exists etag0|].
  exists etag. by rewrite insert_insert_eq.
Qed.

(** The upload is committed as the content [c] of [k], or still as it was. *)
Definition settled (k id : string) (parts : gmap Z (string * bytes)) (c : bytes) (w w1 : net) : Prop :=
  s_issued w ⊆ s_issued w1 ∧ (∀ id', id' ≠ id → s_uploads w1 id' = s_uploads w id') ∧
  (s_objects w1 = <[k := c]> (s_objects w) ∧ s_uploads w1 id = None ∨
   s_objects w1 = s_objects w ∧ s_uploads w1 id = Some (k, parts)).

Lemma settled_unchanged k id parts c w w1 w2 : settled k id parts c w w1 → unchanged w1 w2 → settled k id parts c w w2.
Proof.
  intros (Hi & Hu & Hc) (O & U & I). split_and!; [set_solver|intros; by rewrite U, Hu|]. by rewrite O, U.
Qed.

Lemma same_keeps_uploads w w' : (∀ id, s_uploads w' id = s_uploads w id) → keeps (s_uploads w) (s_uploads w').
Proof. intros H x y. by rewrite H. Qed.

End Relations.

(** ** The retry loop *)

(** What the waiting and the contexts promise: nothing happens to the store. *)
Class CalmLaws {SU : Surroundings} {SV : StoreView} := {
  caller_Err_law w c : caller_Err w = Some c → c = CtxCanceled ∨ c = CtxDeadlineExceeded;
  net_sleep_law ctx d w w' r : net_sleep ctx d w = (w', r) →
    unchanged w w' ∧ ∀ c, r = Some c → c = CtxCanceled ∨ c = CtxDeadlineExceeded;
}.

Section Retried.
Context {SU : Surroundings} {SV : StoreView} {CL : CalmLaws}.
Abbreviation context := (list (Z * net)).

Definition retried_spec {A} (I : net → Prop) p ctx op t (zero : A) (fn : context → M net A) w r w' :=
  Attempts.retry_do_spec unchanged unchanged_refl caller_Err_law net_sleep_law I p ctx op t zero fn w r w'.

(** A request that only reads: what holds of the answer of one attempt, and
    of a missing object, holds of the retried request. *)
Definition reads_as {A} (w : net) (r : res A) (w' : net) (POk : gmap string bytes → A → Prop) (PMissing : gmap string bytes → Prop) : Prop :=
  unchanged w w' ∧ returns r ∧ (∀ a, r = Ok a → POk (s_objects w) a) ∧
  (∀ e, r = Err e → errors_Is e ErrNotFound = true → PMissing (s_objects w)).

Lemma reads_err {A} w e w' POk PMissing : unchanged w w' → (errors_Is e ErrNotFound = true → PMissing (s_objects w)) →
  reads_as w (Err e : res A) w' POk PMissing.
Proof. intros Hu Hm. split_and!; [done|by right; eexists|done|by intros ? [= <-]]. Qed.
Lemma reads_ok {A} w (a : A) w' (POk : gmap string bytes → A → Prop) PMissing : unchanged w w' → POk (s_objects w) a →
  reads_as w (Ok a) w' POk PMissing.
Proof. intros Hu Hm. split_and!; [done|by left; eexists|by intros ? [= <-]|done]. Qed.

Lemma retried_read {A} POk PMissing p ctx op t (zero : A) fn w r w' :
  (∀ c w1 r1 w2, fn c w1 = (r1, w2) → reads_as w1 r1 w2 POk PMissing) →
  retry_do p ctx op t zero fn w = (r, w') → reads_as w r w' POk PMissing.
Proof.
  intros Hfn H. apply (retried_spec (unchanged w)) in H; [|by apply unchanged_trans| |apply unchanged_refl].
  2:{ intros c w1 r1 w2 Hw1 (Hu & Hr & _)%Hfn. split; [done|]. intros _. by eapply unchanged_trans. }
  destruct H as [(a & c & w1 & -> & Hw1 & Hf)|(e & -> & Hw' & Hnf)].
  - destruct (Hfn _ _ _ _ Hf) as (Hu & _ & Hok & _).
    split_and!; [by eapply unchanged_trans|by left; eexists| |done]. intros ? [= <-]. rewrite <- (proj1 Hw1). by apply Hok.
  - split_and!; [done|by right; eexists|done|]. intros ? [= <-] (c & w1 & w2 & e0 & Hw1 & Hf & He0 & _)%Hnf.
    destruct (Hfn _ _ _ _ Hf) as (_ & _ & _ & Herr). rewrite <- (proj1 Hw1). by eapply Herr.
Qed.

(** A request that applies an idempotent change. *)
Definition writes_as (w : net) (r : res unit) (w' : net) (f : gmap string bytes → gmap string bytes) (PMissing : gmap string bytes → Prop) : Prop :=
  maybe f w w' ∧ returns r ∧ (∀ u, r = Ok u → s_objects w' = f (s_objects w)) ∧
  (∀ e, r = Err e → errors_Is e ErrNotFound = true → PMissing (s_objects w')).

Lemma writes_err w e w' f PMissing : maybe f w w' → (errors_Is e ErrNotFound = true → PMissing (s_objects w')) →
  writes_as w (Err e) w' f PMissing.
Proof. intros Hm Hn. split_and!; [done|by right; eexists|done|by intros ? [= <-]]. Qed.
Lemma writes_ok w w' f PMissing : maybe f w w' → s_objects w' = f (s_objects w) → writes_as w (Ok tt) w' f PMissing.
Proof. intros Hm Ho. split_and!; [done|by left; eexists|done|done]. Qed.

Lemma retried_write f PMissing p ctx op t fn w r w' : (∀ m, f (f m) = f m) →
  (∀ c w1 r1 w2, fn c w1 = (r1, w2) → writes_as w1 r1 w2 f PMissing) →
  retry_do p ctx op t tt fn w = (r, w') → writes_as w r w' f PMissing.
Proof.
  intros Hid Hfn H. apply (retried_spec (maybe f w)) in H; [|by apply maybe_unchanged| |apply maybe_refl].
  2:{ intros c w1 r1 w2 Hw1 (Hm & Hr & _)%Hfn. split; [done|]. intros _. by eapply maybe_step. }
  destruct H as [(u & c & w1 & -> & [Hs1 Ho1] & Hf)|(e & -> & Hm & Hnf)].
  - destruct (Hfn _ _ _ _ Hf) as ([Hs2 _] & _ & Hok & _). specialize (Hok u eq_refl).
    assert (s_objects w' = f (s_objects w)) as Ho by (rewrite Hok; destruct Ho1 as [->| ->]; auto).
    split_and!; [split; [by eapply same_uploads_trans|by left]|by left; eexists|done|done].
  - split_and!; [done|by right; eexists|done|]. intros ? [= <-] (c & w1 & w2 & e0 & _ & Hf & He0 & Hu)%Hnf. rewrite (proj1 Hu).
    destruct (Hfn _ _ _ _ Hf) as (_ & _ & _ & Herr). by eapply Herr.
Qed.

(** The result as the provider's contract has it. *)
Lemma writes_result w r w' f PMissing : writes_as w r w' f PMissing →
  same_uploads w w' ∧ returns r ∧ (s_objects w' = f (s_objects w) ∨ fails r ∧ s_objects w' = s_objects w).
Proof.
  intros ([Hs Ho] & Hr & Hok & _). split_and!; [done|done|]. destruct Ho as [|Ho]; [by left|].
  destruct Hr as [[u ->]|Hf]; [left; by eapply Hok|by right].
Qed.

(** The initiation of an upload to [k]. *)
Definition initiates (k : string) (w : net) (r : res string) (w' : net) : Prop :=
  grows w w' ∧ returns r ∧ (∀ id, r = Ok id → id ≠ "" ∧ (id ∉ s_issued w) ∧ id ∈ s_issued w' ∧ s_uploads w' id = Some (k, ∅)).

Lemma initiates_err k w e w' : grows w w' → initiates k w (Err e) w'.
Proof. intros Hg. split_and!; [done|by right; eexists|done]. Qed.
Lemma initiates_unchanged k w r w1 w2 : initiates k w r w1 → unchanged w1 w2 → initiates k w r w2.
Proof.
  intros (Hg & Hr & Hok) Hu. split_and!; [eapply world_grows_trans; [done|by apply unchanged_grows]|done|].
  intros id (? & ? & ? & Hup)%Hok. destruct Hu as (_ & U & I). split_and!; [done|done|set_solver|by rewrite U].
Qed.

Lemma retried_initiate k p ctx op t fn w r w' :
  (∀ c w1 r1 w2, fn c w1 = (r1, w2) → initiates k w1 r1 w2) →
  retry_do p ctx op t "" fn w = (r, w') → initiates k w r w'.
Proof.
  intros Hfn H. apply (retried_spec (grows w)) in H; [| | |apply world_grows_refl].
  2:{ intros w1 w2 Hg Hu. eapply world_grows_trans; [done|by apply unchanged_grows]. }
  2:{ intros c w1 r1 w2 Hw1 (Hg & Hr & _)%Hfn. split; [done|]. intros _. by eapply world_grows_trans. }
  destruct H as [(id & c & w1 & -> & Hw1 & Hf)|(e & -> & Hw' & _)]; [|split_and!; [done|by right; eexists|done]].
  destruct (Hfn _ _ _ _ Hf) as (Hg & _ & Hok). destruct (Hok id eq_refl) as (? & ? & ? & ?).
  split_and!; [by eapply world_grows_trans|by left; eexists|]. intros ? [= <-]. split_and!; [done| |done|done].
  destruct Hw1 as (_ & _ & ?). set_solver.
Qed.

(** The upload of part [n] with the content [b]. *)
Definition uploads_part (k id : string) (n : Z) (b : bytes) (parts : gmap Z (string * bytes)) (w : net) (r : res string) (w' : net) : Prop :=
  with_part k id n b parts w w' ∧ returns r ∧ (∀ etag, r = Ok etag → s_uploads w' id = Some (k, <[n := (etag, b)]> parts)).

Lemma uploads_err k id n b parts w e w' : with_part k id n b parts w w' → uploads_part k id n b parts w (Err e) w'.
Proof. intros Hp. split_and!; [done|by right; eexists|done]. Qed.

Lemma retried_part k id n b parts p ctx op t fn w r w' : s_uploads w id = Some (k, parts) →
  (∀ c w1 r1 w2 parts1, s_uploads w1 id = Some (k, parts1) → fn c w1 = (r1, w2) → uploads_part k id n b parts1 w1 r1 w2) →
  retry_do p ctx op t "" fn w = (r, w') → uploads_part k id n b parts w r w'.
Proof.
  intros Hup Hfn H. apply (retried_spec (with_part k id n b parts w)) in H;
    [|by intros; eapply with_part_unchanged| |split; [apply own_refl|by left]].
  2:{ intros c w1 r1 w2 [Ho [E|[etag E]]] Hf.
      - destruct (Hfn _ _ _ _ _ E Hf) as ([Ho2 Hp] & Hr & _). split; [done|]. intros _. split; [by eapply own_trans|done].
      - destruct (Hfn _ _ _ _ _ E Hf) as (Hp & Hr & _). split; [done|]. intros _. by eapply with_part_step. }
  destruct H as [(etag & c & w1 & -> & [Ho E] & Hf)|(e & -> & Hp & _)]; [|split_and!; [done|by right; eexists|done]].
  destruct E as [E|[etag0 E]]; destruct (Hfn _ _ _ _ _ E Hf) as ([Ho2 Hp2] & _ & Hok); specialize (Hok _ eq_refl);
    (split_and!; [split; [by eapply own_trans|]|by left; eexists|]); rewrite ?insert_insert_eq in Hok.
  - right. by eexists.
  - by intros ? [= <-].
  - right. by eexists.
  - by intros ? [= <-].
Qed.

(** The abortion of an upload. *)
Lemma retried_own id p ctx op t fn w (r : res unit) w' :
  (∀ c w1 r1 w2, fn c w1 = (r1, w2) → own id w1 w2 ∧ returns r1) →
  retry_do p ctx op t tt fn w = (r, w') → own id w w' ∧ returns r.
Proof.
  intros Hfn H. apply (retried_spec (own id w)) in H; [| | |apply own_refl].
  2:{ intros w2 w3 Ho Hu. eapply own_trans; [done|by apply unchanged_own]. }
  2:{ intros c w2 r2 w3 Hw2 [Ho Hr]%Hfn. split; [done|]. intros _. by eapply own_trans. }
  destruct H as [(u & c & w2 & -> & Hw2 & Hf)|(e & -> & Hw1 & _)].
  - apply Hfn in Hf as [Ho _]. split; [by eapply own_trans|by left; eexists].
  - split; [done|by right; eexists].
Qed.

(** The completion of the upload of the content [c]. *)
Definition completes (k id : string) (c : bytes) (w : net) (r : res unit) (w' : net) : Prop :=
  s_issued w ⊆ s_issued w' ∧ returns r ∧ (s_objects w' = <[k := c]> (s_objects w) ∨ fails r ∧ s_objects w' = s_objects w) ∧
  (∀ id', id' ≠ id → s_uploads w' id' = s_uploads w id').

Lemma retried_complete k id parts c p ctx op t fn w r w' : s_uploads w id = Some (k, parts) →
  (∀ ctx1 w1 r1 w2, settled k id parts c w w1 → fn ctx1 w1 = (r1, w2) →
     settled k id parts c w w2 ∧ returns r1 ∧ (∀ u, r1 = Ok u → s_objects w2 = <[k := c]> (s_objects w))) →
  retry_do p ctx op t tt fn w = (r, w') → completes k id c w r w'.
Proof.
  intros Hup Hfn H. assert (settled k id parts c w w) as Hw by (split_and!; [done|done|by right]).
  apply (retried_spec (settled k id parts c w)) in H; [|by intros; eapply settled_unchanged| |done].
  2:{ intros c1 w1 r1 w2 Hs Hf. destruct (Hfn _ _ _ _ Hs Hf) as (? & ? & _). done. }
  destruct H as [(u & c1 & w1 & -> & Hs & Hf)|(e & -> & (Hi & Hu & Hc) & _)].
  - destruct (Hfn _ _ _ _ Hs Hf) as ((Hi & Hu & _) & Hr & Hok). split_and!; [done|done|left; by eapply Hok|done].
  - split_and!; [done|by right; eexists| |done]. destruct Hc as [[? _]|[? _]]; [by left|right; split; [by eexists|done]].
Qed.

End Retried.
