(* ===== verification/Parts.v ===== *)
(** The parts of a multipart upload as the clients list them when they
    complete it: the part numbers of the map of tags in ascending order, each with
    its tag. *)

From stdpp Require Import sorting.
From S2P Require Import Prelude.
#[local] Open Scope Z_scope.

Definition sorted_parts (etags : gmap Z string) : list (Z * string) :=
  (λ n, (n, default "" (etags !! n))) <$> merge_sort Z.le (map_to_list etags).*1.

#[local] Instance Z_le_total : Total Z.le.
Proof. intros x y. lia. Qed.

Lemma sorted_strict (l : list Z) : StronglySorted Z.le l → NoDup l → StronglySorted Z.lt l.
Proof.
  induction 1 as [|x l Hl IH Hx]; [constructor|]. intros [Hni Hnd]%NoDup_cons. constructor; [auto|].
  rewrite Forall_forall in Hx |- *. intros y Hy. specialize (Hx _ Hy). assert (y ≠ x) by (by intros ->). lia.
Qed.

Lemma sorted_parts_sorted etags : StronglySorted Z.lt (sorted_parts etags).*1.
Proof.
  unfold sorted_parts. rewrite <- list_fmap_compose, list_fmap_id. apply sorted_strict; [apply StronglySorted_merge_sort; apply _|].
  rewrite merge_sort_Permutation. apply NoDup_fst_map_to_list.
Qed.

Lemma sorted_parts_elem etags n t : (n, t) ∈ sorted_parts etags ↔ etags !! n = Some t.
Proof.
  unfold sorted_parts. rewrite list_elem_of_fmap. setoid_rewrite (merge_sort_Permutation Z.le). setoid_rewrite list_elem_of_fmap. split.
  - intros (m & [= -> ->] & [m' t'] & -> & Hm%elem_of_map_to_list). cbn in *. by rewrite Hm.
  - intros H. exists n. rewrite H. split; [done|]. exists (n, t). split; [done|]. by apply elem_of_map_to_list.
Qed.

(** The tags of parts that the store holds. *)
Lemma sorted_parts_of {B} (parts : gmap Z (string * B)) n t :
  (n, t) ∈ sorted_parts (fst <$> parts) ↔ ∃ b, parts !! n = Some (t, b).
Proof.
  rewrite sorted_parts_elem, lookup_fmap. destruct (parts !! n) as [[t' b]|]; cbn; [|split; [done|by intros [? ?]]].
  split; [intros [= ->]; by eexists|by intros [b' [= -> ->]]].
Qed.
