(* ===== verification/Http.v ===== *)
(** The HTTP client of an object store ([HTTPStorageClient] of
    [storage_clients/http/http.go]).

    The network is an interface: requests with their context, responses.  So is the XML codec of the documents that
    the store sends and receives. *)

From S2P Require Import Prelude Errors Retry GoStrings Url Digest Store Attempts ObjectStorage Parts.
#[local] Open Scope Z_scope.

(** ** Requests and responses *)

Record request := {
  Method : string;
  URL : string;
  ReqBody : option bytes;
  ReqHeader : gmap string string;
}.

Record response := {
  StatusCode : Z;
  Header : gmap string string;
  Body : stream;
}.

(** [Header.Get]. *)
Definition Header_Get (h : gmap string string) (k : string) : string := default "" (h !! k).

(** [ListBucketResult], without the element names. *)
Record ListBucketResult := {
  Contents : list FileInfo;
  IsTruncated : bool;
  NextContinuationToken : string;
  NextMarker : string;
}.
(** [s3Error]. *)
Record s3Error := { Code : string; Message : string }.
(** [CompleteMultipartPart]. *)
Record CompleteMultipartPart := { PartNumber : Z; ETag : string }.

(** [xml.Unmarshal] and [xml.Marshal] at the document types of the client. *)
Class Xml := {
  Unmarshal_ListBucketResult : bytes → error + ListBucketResult;
  Unmarshal_InitiateMultipartUploadResult : bytes → error + string;
  Unmarshal_s3Error : bytes → error + s3Error;
  Marshal_CompleteMultipartUpload : list CompleteMultipartPart → error + bytes;
}.

(** The network.  [list_fuel] bounds the pages of a listing. *)
Class Net {SU : Surroundings} := {
  NewRequest_error : string → string → option error;
  client_Do : list (Z * net) → request → M net response;
  closeBody : response → net → net;
  Body_Close : response → net → net;
  list_fuel : net → nat;
}.

(** ** Headers *)

(** [isToken]. *)
Definition is_token_char (c : ascii) : bool := is_alnum c || one_of "!#$%&'*+-.^_`|~" c.
Definition isToken (s : string) : bool := negb (bool_decide (s = "")) && forallb is_token_char (chars s).

(** [http.CanonicalHeaderKey]. *)
Fixpoint canonical_chars (upper : bool) (l : list ascii) : list ascii :=
  match l with
  | [] => []
  | c :: l => (if upper then to_upper c else to_lower c) :: canonical_chars (bool_decide (c = "-"%char)) l
  end.
Definition CanonicalHeaderKey (s : string) : string :=
  if isToken s then of_chars (canonical_chars true (chars s)) else s.

(** One segment of a header list: the headers and the last key so far. *)
Definition header_segment (st : gmap string string * string) (seg : string) : res (gmap string string * string) :=
  let '(headers, lastKey) := st in
  let continued :=
    if bool_decide (lastKey = "") then
      if bool_decide (TrimSpace seg = "") then Ok st
      else Err (Errorf "malformed header entry" [ESentinel ErrInvalidConfig])
    else Ok (<[lastKey := TrimSpace (Header_Get headers lastKey +:+ "," +:+ seg)]> headers, lastKey) in
  match Cut seg ":" with
  | Some (k, v) =>
      if isToken (TrimSpace k) then
        let lastKey := CanonicalHeaderKey (TrimSpace k) in Ok (<[lastKey := TrimSpace v]> headers, lastKey)
      else continued
  | None => continued
  end.

Fixpoint header_segments (st : gmap string string * string) (segs : list string) : res (gmap string string) :=
  match segs with
  | [] => Ok st.1
  | seg :: segs => match header_segment st seg with Ok st => header_segments st segs | Err e => Err e | Panic => Panic | OutOfFuel => OutOfFuel end
  end.

(** [parseHeaderAuth]. *)
Definition parseHeaderAuth (authType : string) : res (gmap string string) :=
  let authType := TrimSpace authType in
  if negb (HasPrefix authType "HEADER[") || negb (HasSuffix authType "]") then Ok ∅
  else
    let content := of_chars (take (String.length authType - 8) (drop 7 (chars authType))) in
    header_segments (∅, "") (Split content ",").

(** ** The client *)

Record HTTPStorageClient := {
  endpoint : string;
  headers : gmap string string;
  retry : RetryPolicy;
}.

Definition NewHTTPStorageClient (endpoint : string) (headers : gmap string string) : HTTPStorageClient :=
  {| endpoint := endpoint; headers := headers; retry := DefaultRetryPolicy |}.

(** [req.Header.Set] for every entry of a map. *)
Definition set_headers (hs m : gmap string string) : gmap string string :=
  map_fold (λ k v m, <[CanonicalHeaderKey k := v]> m) m hs.

(** [statusError]. *)
Definition statusError (op : string) (resp : response) (uploadOp : bool) : error :=
  let se := EStatus op (StatusCode resp) None 0 in
  if uploadOp && (StatusCode resp =? StatusNotFound) then Errorf "" [ESentinel ErrUploadNotFound; se] else se.

Definition invalid_response (m : string) (es : list error) : error := Errorf m (ESentinel ErrInvalidResponse :: es).

Section Client.
Context {SU : Surroundings} {NT : Net} {XML : Xml}.
Abbreviation context := (list (Z * net)).

Context (h : HTTPStorageClient).

(** [HTTPStorageClient.doRequest]. *)
Definition doRequest (ctx : context) (method url : string) (body : option bytes) (hdrs : gmap string string) : M net response :=
  match NewRequest_error method url with
  | Some e => throw (Errorf "" [ESentinel ErrInvalidConfig; e])
  | None => client_Do ctx {| Method := method; URL := url; ReqBody := body; ReqHeader := set_headers hdrs (set_headers (headers h) ∅) |}
  end.

Definition close (resp : response) : M net unit := modify (closeBody resp).

(** [defer closeBody(resp)]. *)
Definition deferred {A} (resp : response) (c : M net A) : M net A := λ w, let '(r, w) := c w in (r, closeBody resp w).

(** [HTTPStorageClient.ListBuckets] and [SetRegion]. *)
Definition ListBuckets : M net (list string) := ret [].
Definition SetRegion (region : string) : M net unit := ret tt.

(** ** Listing *)

Definition empty_page : ListBucketResult :=
  {| Contents := []; IsTruncated := false; NextContinuationToken := ""; NextMarker := "" |}.

Definition set_if (k v : string) (q : Values) : Values := if bool_decide (v = "") then q else <[k := v]> q.
Definition list_query (prefix token marker : string) : Values :=
  set_if "marker" marker (set_if "continuation-token" token (set_if "prefix" prefix {["list-type" := "2"]})).

(** One attempt at a page. *)
Definition list_attempt (u : string) (ctx : context) : M net ListBucketResult :=
  let* resp := doRequest ctx "GET" u None ∅ in
  deferred resp
    (if negb (StatusCode resp =? 200) then throw (statusError "ListObjects" resp false)
     else
       let* data := lift (ReadAll (Body resp)) in
       match Unmarshal_ListBucketResult data with
       | inl e => throw (EPermanent (invalid_response "listing is not an S3 ListBucketResult" [e]))
       | inr page => ret page
       end).

(** The loop of [ListObjects]. *)
Fixpoint list_loop (fuel : nat) (ctx : context) (bucket prefix token marker : string) (objects : list FileInfo) : M net (list FileInfo) :=
  match fuel with
  | O => lift OutOfFuel
  | S fuel =>
      let u := buildURL (endpoint h) bucket "" (Encode (list_query prefix token marker)) in
      let* page := retry_do (retry h) ctx "http list objects" MetadataAttemptTimeout empty_page (list_attempt u) in
      let objects := objects ++ Contents page in
      if negb (IsTruncated page) then ret objects
      else if negb (bool_decide (NextContinuationToken page = "")) then
        if bool_decide (NextContinuationToken page = token)
        then throw (invalid_response "listing continuation token did not advance" [])
        else list_loop fuel ctx bucket prefix (NextContinuationToken page) "" objects
      else
        let next := if bool_decide (NextMarker page = "")
                    then match last (Contents page) with Some c => fi_Name c | None => "" end
                    else NextMarker page in
        if bool_decide (next = "") || bool_decide (next = marker)
        then throw (invalid_response "truncated listing without a usable marker" [])
        else list_loop fuel ctx bucket prefix "" next objects
  end.

(** [HTTPStorageClient.ListObjects]. *)
Definition http_ListObjects (ctx : context) (bucket prefix : string) : M net (list FileInfo) := λ w,
  list_loop (list_fuel w) ctx bucket prefix "" "" [] w.

(** ** Objects *)

Definition size_attempt (u : string) (ctx : context) : M net Z :=
  let* resp := doRequest ctx "HEAD" u None ∅ in
  let* _ := close resp in
  if negb (StatusCode resp =? 200) then throw (statusError "HeadObject" resp false)
  else
    let cl := TrimSpace (Header_Get (Header resp) "Content-Length") in
    if bool_decide (cl = "") then throw (EPermanent (invalid_response "missing Content-Length header" []))
    else
      match ParseInt cl with
      | Some n => if n <? 0 then throw (EPermanent (invalid_response "invalid Content-Length" [])) else ret n
      | None => throw (EPermanent (invalid_response "invalid Content-Length" []))
      end.

(** [HTTPStorageClient.GetObjectSize]. *)
Definition http_GetObjectSize (ctx : context) (bucket key : string) : M net Z :=
  retry_do (retry h) ctx "http head object" MetadataAttemptTimeout 0 (size_attempt (buildURL (endpoint h) bucket key "")).

(** The [Range] header, if there is one. *)
Definition range_headers (startByte endByte : Z) : option (gmap string string) :=
  if negb (endByte =? -1) then Some {["Range" := "bytes=" +:+ fmt_d startByte +:+ "-" +:+ fmt_d endByte]}
  else if 0 <? startByte then Some {["Range" := "bytes=" +:+ fmt_d startByte +:+ "-"]}
  else None.

Definition range_attempt (u : string) (startByte endByte : Z) (ctx : context) : M net stream :=
  let hdrs := range_headers startByte endByte in
  let* resp := doRequest ctx "GET" u None (default ∅ hdrs) in
  if (StatusCode resp =? 206) && bool_decide (is_Some hdrs) then ret (Body resp)
  else if StatusCode resp =? 200 then
    let* body := (if 0 <? startByte then
                    match skip startByte (Body resp) with
                    | inl e => let* _ := modify (Body_Close resp) in throw (Errorf "failed to skip to range start" [e])
                    | inr rest => ret rest
                    end
                  else ret (Body resp)) in
    ret (if endByte =? -1 then body else limit (i64 (i64 (endByte - startByte) + 1)) body)
  else let* _ := close resp in throw (statusError "GetObject" resp false).

(** [HTTPStorageClient.GetObjectRange]. *)
Definition http_GetObjectRange (ctx : context) (bucket key : string) (startByte endByte : Z) : M net stream :=
  if startByte <? 0 then throw (Errorf "start byte must be non-negative" [ESentinel ErrInvalidRange])
  else if negb (endByte =? -1) && (endByte <? startByte) then throw (Errorf "end byte before start byte" [ESentinel ErrInvalidRange])
  else retry_do (retry h) ctx "http get object" 0 ([], None) (range_attempt (buildURL (endpoint h) bucket key "") startByte endByte).

Definition put_attempt (u : string) (data : bytes) (ctx : context) : M net unit :=
  let* resp := doRequest ctx "PUT" u (Some data) ∅ in
  let* _ := close resp in
  if (StatusCode resp =? 200) || (StatusCode resp =? 201) || (StatusCode resp =? 204) then ret tt
  else throw (statusError "PutObject" resp false).

(** [HTTPStorageClient.PutObject]. *)
Definition http_PutObject (ctx : context) (bucket key : string) (data : bytes) : M net unit :=
  retry_do (retry h) ctx "http put object" (UploadAttemptTimeout (blen data)) tt (put_attempt (buildURL (endpoint h) bucket key "") data).

Definition delete_attempt (u : string) (ctx : context) : M net unit :=
  let* resp := doRequest ctx "DELETE" u None ∅ in
  let* _ := close resp in
  if (StatusCode resp =? 200) || (StatusCode resp =? 204) || (StatusCode resp =? 202) then ret tt
  else throw (statusError "DeleteObject" resp false).

(** [HTTPStorageClient.DeleteObject]. *)
Definition http_DeleteObject (ctx : context) (bucket key : string) : M net unit :=
  retry_do (retry h) ctx "http delete object" MetadataAttemptTimeout tt (delete_attempt (buildURL (endpoint h) bucket key "")).

(** ** Multipart uploads *)

Definition initiate_attempt (u : string) (ctx : context) : M net string :=
  let* resp := doRequest ctx "POST" u None ∅ in
  deferred resp
    (if negb (StatusCode resp =? 200) then throw (statusError "CreateMultipartUpload" resp false)
     else
       let* data := lift (ReadAll (Body resp)) in
       match Unmarshal_InitiateMultipartUploadResult data with
       | inl e => throw (EPermanent (invalid_response "failed to parse initiate response" [e]))
       | inr id => if bool_decide (id = "") then throw (EPermanent (invalid_response "no upload ID returned" [])) else ret id
       end).

(** [HTTPStorageClient.Initiate]. *)
Definition http_Initiate (ctx : context) (bucket key : string) : M net string :=
  retry_do (retry h) ctx "http initiate upload" MetadataAttemptTimeout "" (initiate_attempt (buildURL (endpoint h) bucket key "uploads")).

Definition upload_attempt (u : string) (data : bytes) (ctx : context) : M net string :=
  let* resp := doRequest ctx "PUT" u (Some data) ∅ in
  deferred resp
    (if negb (StatusCode resp =? 200) then throw (statusError "UploadPart" resp true)
     else
       let etag := TrimSpace (Header_Get (Header resp) "Etag") in
       if bool_decide (etag = "") then throw (invalid_response "missing ETag in upload part response" []) else ret etag).

(** [HTTPStorageClient.UploadPart]. *)
Definition http_UploadPart (ctx : context) (bucket key uploadID : string) (partNumber : Z) (data : bytes) : M net string :=
  let q := <["uploadId" := uploadID]> {["partNumber" := fmt_d partNumber]} in
  retry_do (retry h) ctx "http upload part" (UploadAttemptTimeout (blen data)) "" (upload_attempt (buildURL (endpoint h) bucket key (Encode q)) data).

(** The parts of a completion, in ascending order. *)
Definition completed_parts (etags : gmap Z string) : list CompleteMultipartPart :=
  (λ p, {| PartNumber := p.1; ETag := p.2 |}) <$> sorted_parts etags.

Definition complete_attempt (bucket key u : string) (xmlData : bytes) (ctx : context) : M net unit :=
  let* resp := doRequest ctx "POST" u (Some xmlData) {["Content-Type" := "application/xml"]} in
  deferred resp
    (if negb (StatusCode resp =? 200) then throw (statusError "CompleteMultipartUpload" resp true)
     else
       let* data := lift (ReadAll (Body resp)) in
       match Unmarshal_s3Error data with
       | inl _ => ret tt
       | inr e =>
           let err := ELeaf ("CompleteMultipartUpload: error " +:+ Code e +:+ ": " +:+ Message e) false in
           if bool_decide (Code e = "NoSuchUpload") then
             handle (let* _ := http_GetObjectSize ctx bucket key in ret tt)
               (λ _, throw (Errorf "" [ESentinel ErrUploadNotFound; err]))
           else throw err
       end).

(** [HTTPStorageClient.Complete]. *)
Definition http_Complete (ctx : context) (bucket key uploadID : string) (etags : gmap Z string) : M net unit :=
  match Marshal_CompleteMultipartUpload (completed_parts etags) with
  | inl e => throw (Errorf "http complete upload" [e])
  | inr xmlData =>
      let u := buildURL (endpoint h) bucket key (Encode {["uploadId" := uploadID]}) in
      retry_do (retry h) ctx "http complete upload" CompleteAttemptTimeout tt (complete_attempt bucket key u xmlData)
  end.

Definition abort_attempt (u : string) (ctx : context) : M net unit :=
  let* resp := doRequest ctx "DELETE" u None ∅ in
  let* _ := close resp in
  if (StatusCode resp =? 200) || (StatusCode resp =? 204) then ret tt
  else throw (statusError "AbortMultipartUpload" resp true).

(** [HTTPStorageClient.Abort]. *)
Definition http_Abort (ctx : context) (bucket key uploadID : string) : M net unit :=
  let u := buildURL (endpoint h) bucket key (Encode {["uploadId" := uploadID]}) in
  handle (retry_do (retry h) ctx "http abort upload" MetadataAttemptTimeout tt (abort_attempt u))
    (λ e, if errors_Is e ErrUploadNotFound then ret tt else throw e).

(** A bucket as the program's provider, under the caller's context. *)
Definition http_bucket (bucket : string) : ObjectStorageClient := {|
  world := net;
  Initiate k := http_Initiate [] bucket k;
  UploadPart k id n b := http_UploadPart [] bucket k id n b;
  Complete k id tags := http_Complete [] bucket k id tags;
  Abort k id := http_Abort [] bucket k id;
  PutObject k b := http_PutObject [] bucket k b;
  DeleteObject k := http_DeleteObject [] bucket k;
  ListObjects p := http_ListObjects [] bucket p;
  GetObjectSize k := http_GetObjectSize [] bucket k;
  GetObjectRange k a z := http_GetObjectRange [] bucket k a z;
|}.

End Client.
