(* ===== verification/HttpLaws.v ===== *)
(** What the HTTP client of Http.v does against a store that keeps the
    contract of the REST interface: it keeps the contract of a provider that
    ObjectStorage.v relies on, whatever requests are lost, repeated or
    answered with an error. *)

From S2P Require Import Prelude Errors Retry GoStrings Url Digest Store Attempts ObjectStorage Retried Http.
#[local] Open Scope Z_scope.

(** ** The contract of the store

    Requests are understood by their method, the key and the query of their
    URL, and their headers. *)

(** Where a truncated page says that the listing goes on. *)
Definition next_marker (page : ListBucketResult) : string :=
  if bool_decide (NextMarker page = "") then match last (Contents page) with Some c => fi_Name c | None => "" end
  else NextMarker page.

Class NetLaws {SU : Surroundings} {SV : StoreView} {NT : Net} {XML : Xml} (base : string) := {
  listing : gmap string bytes → string → string → string → list FileInfo;
  asks r m k q := Method r = m ∧ decodeURL base (URL r) = (k, q);
  closeBody_law resp w : unchanged w (closeBody resp w);
  Body_Close_law resp w : unchanged w (Body_Close resp w);
  NewRequest_law m u e : NewRequest_error m u = Some e → errors_Is e ErrNotFound = false;
  client_Do_law ctx r w res w' : client_Do ctx r w = (res, w') → returns res ∧
    (∀ e, res = Err e → errors_Is e ErrNotFound = false) ∧
    (∀ resp e, res = Ok resp → (Body resp).2 = Some e → errors_Is e ErrNotFound = false);
  HEAD_law ctx r w res w' k : client_Do ctx r w = (res, w') → object_key k → asks r "HEAD" k ∅ →
    unchanged w w' ∧ ∀ resp, res = Ok resp →
      (StatusCode resp = 404 → s_objects w !! k = None) ∧
      (StatusCode resp = 200 → ∃ b, s_objects w !! k = Some b ∧
         ∀ n, ParseInt (TrimSpace (Header_Get (Header resp) "Content-Length")) = Some n → n = blen b);
  GET_law ctx r w res w' k : client_Do ctx r w = (res, w') → object_key k → asks r "GET" k ∅ →
    unchanged w w' ∧ ∀ resp, res = Ok resp →
      (StatusCode resp = 404 → s_objects w !! k = None) ∧
      (StatusCode resp = 200 → ∃ b, s_objects w !! k = Some b ∧ delivers (Body resp) b) ∧
      (StatusCode resp = 206 → ∀ a z, 0 ≤ a → (z = -1 ∨ a ≤ z) → ReqHeader r !! "Range" = Some (range_value a z) →
         ∃ b, s_objects w !! k = Some b ∧ delivers (Body resp) (range_of a z b));
  PUT_law ctx r w res w' k b : client_Do ctx r w = (res, w') → object_key k → asks r "PUT" k ∅ → ReqBody r = Some b →
    maybe (insert k b) w w' ∧
    ∀ resp, res = Ok resp → StatusCode resp = 200 ∨ StatusCode resp = 201 ∨ StatusCode resp = 204 →
      s_objects w' = <[k := b]> (s_objects w);
  DELETE_law ctx r w res w' k : client_Do ctx r w = (res, w') → object_key k → asks r "DELETE" k ∅ →
    maybe (delete k) w w' ∧
    ∀ resp, res = Ok resp →
      (StatusCode resp = 200 ∨ StatusCode resp = 204 ∨ StatusCode resp = 202 → s_objects w' = delete k (s_objects w)) ∧
      (StatusCode resp = 404 → s_objects w' !! k = None);
  INITIATE_law ctx r w res w' k : client_Do ctx r w = (res, w') → object_key k → asks r "POST" k {["uploads" := ""]} →
    grows w w' ∧
    ∀ resp data id, res = Ok resp → StatusCode resp = 200 → ReadAll (Body resp) = Ok data →
      Unmarshal_InitiateMultipartUploadResult data = inr id → id ≠ "" →
      (id ∉ s_issued w) ∧ id ∈ s_issued w' ∧ s_uploads w' id = Some (k, ∅);
  PART_law ctx r w res w' k id n b parts : client_Do ctx r w = (res, w') → object_key k →
    asks r "PUT" k (<["uploadId" := id]> {["partNumber" := fmt_d n]}) → ReqBody r = Some b →
    s_uploads w id = Some (k, parts) →
    with_part k id n b parts w w' ∧
    ∀ resp, res = Ok resp → StatusCode resp = 200 →
      let etag := TrimSpace (Header_Get (Header resp) "Etag") in
      etag ≠ "" → s_uploads w' id = Some (k, <[n := (etag, b)]> parts);
  COMPLETE_law ctx r w res w' k id l data parts n c : client_Do ctx r w = (res, w') → object_key k →
    asks r "POST" k {["uploadId" := id]} → ReqBody r = Some data → Marshal_CompleteMultipartUpload l = inr data →
    s_uploads w id = Some (k, parts) → StronglySorted Z.lt (PartNumber <$> l) →
    (∀ m, (∃ p, p ∈ l ∧ PartNumber p = m) ↔ is_Some (parts !! m)) →
    (∀ p, p ∈ l → fst <$> parts !! PartNumber p = Some (ETag p)) →
    (∀ i, is_Some (parts !! i) ↔ 1 ≤ i ≤ Z.of_nat n) → parts_upto n parts = Some c →
    settled k id parts c w w' ∧
    ∀ resp d, res = Ok resp → StatusCode resp = 200 → ReadAll (Body resp) = Ok d →
      match Unmarshal_s3Error d with
      | inl _ => s_objects w' = <[k := c]> (s_objects w)
      | inr e => Code e ≠ "NoSuchUpload"
      end;
  COMPLETE_gone_law ctx r w res w' k id : client_Do ctx r w = (res, w') → object_key k →
    asks r "POST" k {["uploadId" := id]} → s_uploads w id = None → unchanged w w';
  ABORT_law ctx r w res w' k id : client_Do ctx r w = (res, w') → object_key k →
    asks r "DELETE" k {["uploadId" := id]} →
    own id w w';
  listing_law objs p n : n ∈ fi_Name <$> listing objs p "" "" ↔ n ∈ dom objs ∧ HasPrefix n p = true;
  list_fuel_law w p : (length (listing (s_objects w) p "" "") < list_fuel w)%nat;
  LIST_law ctx r w res w' p token marker : client_Do ctx r w = (res, w') →
    asks r "GET" "" (list_query p token marker) → unchanged w w' ∧
    ∀ resp data page, res = Ok resp → StatusCode resp = 200 → ReadAll (Body resp) = Ok data →
      Unmarshal_ListBucketResult data = inr page →
      ∃ rest, listing (s_objects w) p token marker = Contents page ++ rest ∧
        (IsTruncated page = false → rest = []) ∧
        (IsTruncated page = true → Contents page ≠ [] ∧
           (NextContinuationToken page ≠ "" → NextContinuationToken page ≠ token ∧
              listing (s_objects w) p (NextContinuationToken page) "" = rest) ∧
           (NextContinuationToken page = "" → next_marker page ≠ "" ∧ next_marker page ≠ marker ∧
              listing (s_objects w) p "" (next_marker page) = rest));
}.

Section Laws.
Context {SU : Surroundings} {SV : StoreView} {CL : CalmLaws} {NT : Net} {XML : Xml} (h : HTTPStorageClient) (bucket : string).
Abbreviation base := (base_url (endpoint h) bucket).
Context {NL : NetLaws base}.
Abbreviation context := (list (Z * net)).

(** ** One exchange *)

Definition req (m u : string) (b : option bytes) (hd : gmap string string) : request :=
  {| Method := m; URL := u; ReqBody := b; ReqHeader := set_headers hd (set_headers (headers h) ∅) |}.

(** A request fails on its own account, or is answered. *)
Lemma exchange {A} ctx m u b hd (k : response → M net A) w r w' :
  (let* resp := doRequest h ctx m u b hd in k resp) w = (r, w') →
  (∃ e, r = Err e ∧ errors_Is e ErrNotFound = false ∧ (w' = w ∨ client_Do ctx (req m u b hd) w = (Err e, w'))) ∨
  (∃ resp w1, client_Do ctx (req m u b hd) w = (Ok resp, w1) ∧ k resp w1 = (r, w')).
Proof.
  unfold bind, doRequest. destruct (NewRequest_error m u) as [e|] eqn:E.
  { intros [= <- <-]. left. eexists. split_and!; [done| |by left]. cbn. rewrite orb_false_r. by eapply NewRequest_law. }
  fold (req m u b hd). destruct (client_Do ctx (req m u b hd) w) as [res w1] eqn:Ed.
  destruct (client_Do_law _ _ _ _ _ Ed) as (Hr & He & _).
  destruct res as [resp|e| |]; [| |by destruct Hr as [[]|[]]..]; intros H; [right; eauto|left]. simplify_eq.
  exists e. split_and!; [done|by apply He|by right].
Qed.

(** Steps that follow the answer. *)
Lemma after_close {A} resp (c : M net A) w r w' :
  (let* _ := close resp in c) w = (r, w') → ∃ w1, unchanged w w1 ∧ c w1 = (r, w').
Proof. unfold bind, close, modify. intros H. exists (closeBody resp w). split; [apply closeBody_law|done]. Qed.

Lemma deferred_inv {A} resp (c : M net A) w r w' :
  deferred resp c w = (r, w') → ∃ w1, c w = (r, w1) ∧ unchanged w1 w'.
Proof. unfold deferred. destruct (c w) as [r1 w1]. intros [= <- <-]. exists w1. split; [done|apply closeBody_law]. Qed.

Lemma status_not_found op code : errors_Is (EStatus op code None 0) ErrNotFound = true → code = 404.
Proof. cbn. rewrite orb_false_r. unfold status_is. rewrite bool_decide_true by done. cbn. by intros ?%Z.eqb_eq. Qed.

Lemma statusError_not_found op resp up : errors_Is (statusError op resp up) ErrNotFound = true → StatusCode resp = 404.
Proof.
  unfold statusError. destruct (up && _); [|apply status_not_found].
  change (errors_Is (Errorf "" [ESentinel ErrUploadNotFound; EStatus op (StatusCode resp) None 0]) ErrNotFound)
    with (errors_Is (EStatus op (StatusCode resp) None 0) ErrNotFound || false). rewrite orb_false_r. apply status_not_found.
Qed.

Lemma asks_key m k q b hd : object_key k → asks (req m (buildURL (endpoint h) bucket k q) b hd) m k (ParseQuery q).
Proof. intros Hk. split; [done|]. by apply decode_buildURL. Qed.

Lemma asks_plain m k b hd : object_key k → asks (req m (buildURL (endpoint h) bucket k "") b hd) m k ∅.
Proof. apply asks_key. Qed.

Lemma asks_query m k q b hd : object_key k → asks (req m (buildURL (endpoint h) bucket k (Encode q)) b hd) m k q.
Proof. intros Hk. rewrite <- (ParseQuery_Encode q) at 2. by apply asks_key. Qed.

(** ** Reading *)

Lemma size_attempt_spec k ctx w r w' : object_key k →
  size_attempt h (buildURL (endpoint h) bucket k "") ctx w = (r, w') →
  reads_as w r w' (λ m n, ∃ b, m !! k = Some b ∧ n = blen b) (λ m, m !! k = None).
Proof.
  intros Hk [(e & -> & He & Hw)|(resp & w1 & Hdo & H)]%exchange.
  - apply reads_err; [|congruence]. destruct Hw as [->|Hw]; [apply unchanged_refl|]. by eapply HEAD_law; [|done|apply asks_plain].
  - destruct (HEAD_law _ _ _ _ _ k Hdo Hk) as [Hu1 Hresp]; [by apply asks_plain|]. destruct (Hresp _ eq_refl) as [Hmiss Hok].
    apply after_close in H as (w2 & Hu2 & H). pose proof (unchanged_trans _ _ _ Hu1 Hu2) as Hu.
    destruct (Z.eqb_spec (StatusCode resp) 200) as [E|E]; cbn [negb] in H.
    + destruct (Hok E) as (b & Hb & Hlen). case_bool_decide; [injection H as <- <-; by apply reads_err|].
      destruct (ParseInt _) as [n|] eqn:Ep; [|injection H as <- <-; by apply reads_err].
      destruct (n <? 0); injection H as <- <-; [by apply reads_err|]. apply reads_ok; [done|]. exists b. split; [done|by apply Hlen].
    + injection H as <- <-. apply reads_err; [done|]. intros ?%statusError_not_found. by apply Hmiss.
Qed.

Lemma http_GetObjectSize_spec k ctx w r w' : object_key k → http_GetObjectSize h ctx bucket k w = (r, w') →
  reads_as w r w' (λ m n, ∃ b, m !! k = Some b ∧ n = blen b) (λ m, m !! k = None).
Proof. intros Hk. apply retried_read. intros c w1 r1 w2. by apply size_attempt_spec. Qed.

Lemma prefix_drop {A} n (l k : list A) : l `prefix_of` k → drop n l `prefix_of` drop n k.
Proof. intros [t ->]. rewrite drop_app. by apply prefix_app_r. Qed.

Lemma prefix_take_eq {A} n (l k : list A) : l `prefix_of` k → (n ≤ length l)%nat → take n l = take n k.
Proof. intros [t ->] Hn. by rewrite take_app_le. Qed.

Lemma delivers_skip n b want rest : 0 ≤ n → delivers b want → skip n b = inr rest →
  delivers rest (drop (Z.to_nat n) want) ∧ rest.2 = b.2.
Proof.
  intros Hn [Hp He]. unfold skip. destruct (Z.leb_spec n (blen b.1)); [|done]. intros [= <-]. split; [|done].
  split; cbn [fst snd]; [by apply prefix_drop|]. intros Hb. by rewrite He.
Qed.

Lemma delivers_limit n b want : 0 ≤ n → delivers b want →
  delivers (limit n b) (take (Z.to_nat n) want) ∧ ((limit n b).2 = b.2 ∨ (limit n b).2 = None).
Proof.
  intros Hn [Hp He]. unfold limit. destruct (Z.leb_spec n (blen b.1)) as [Hle|Hgt]; unfold blen in *.
  - split; [|by right]. split; cbn [fst snd]; [|intros _]; rewrite (prefix_take_eq _ _ _ Hp) by lia; done.
  - split; [|by left]. split.
    + destruct Hp as [t ->]. rewrite take_app_ge by lia. by apply prefix_app_r.
    + intros Hb. rewrite (He Hb) in *. rewrite take_ge; [done|lia].
Qed.

Lemma range_header a z hd : range_headers a z = Some hd →
  set_headers hd (set_headers (headers h) ∅) !! "Range" = Some (range_value a z).
Proof.
  unfold range_headers, range_value. destruct (Z.eqb_spec z (-1)) as [->|Hz]; cbn [negb].
  - destruct (0 <? a); [|done]. intros [= <-]. unfold set_headers at 1. rewrite map_fold_singleton.
    change (CanonicalHeaderKey "Range") with "Range". by rewrite lookup_insert_eq.
  - intros [= <-]. unfold set_headers at 1. rewrite map_fold_singleton.
    change (CanonicalHeaderKey "Range") with "Range". by rewrite lookup_insert_eq.
Qed.

Lemma range_of_take a z whole : 0 ≤ a → a ≤ z →
  range_of a z whole = take (Z.to_nat (z - a + 1)) (drop (Z.to_nat a) whole).
Proof.
  intros Ha Hz. unfold range_of. rewrite (proj2 (Z.eqb_neq z (-1))) by lia. rewrite take_drop_commute. f_equal. f_equal. lia.
Qed.

Lemma skip_body a z whole resp w r w' : 0 ≤ a → delivers (Body resp) whole →
  (∀ e, (Body resp).2 = Some e → errors_Is e ErrNotFound = false) →
  (let* body := (if 0 <? a then
                   match skip a (Body resp) with
                   | inl e => let* _ := modify (Body_Close resp) in throw (Errorf "failed to skip to range start" [e])
                   | inr rest => ret rest
                   end
                 else ret (Body resp)) in
   ret (if z =? -1 then body else limit (i64 (i64 (z - a) + 1)) body)) w = (r, w') →
  (∃ body, delivers body (drop (Z.to_nat a) whole) ∧ body.2 = (Body resp).2 ∧ w' = w ∧
     r = Ok (if z =? -1 then body else limit (i64 (i64 (z - a) + 1)) body)) ∨
  ∃ e, r = Err (Errorf "failed to skip to range start" [e]) ∧ w' = Body_Close resp w ∧ errors_Is e ErrNotFound = false.
Proof.
  intros Ha Hd Hbody H. destruct (Z.ltb_spec 0 a).
  - destruct (skip a (Body resp)) as [e|rest] eqn:Es; injection H as <- <-.
    + right. exists e. split_and!; [done|done|]. unfold skip in Es. destruct (a <=? _); [done|]. injection Es as <-.
      destruct (Body resp).2 as [e|]; [by apply Hbody|done].
    + left. exists rest. destruct (delivers_skip a _ _ _ Ha Hd Es). done.
  - injection H as <- <-. left. exists (Body resp). split_and!; try done. by replace a with 0 by lia.
Qed.

Lemma range_attempt_spec k a z ctx w r w' : object_key k → 0 ≤ a → z = -1 ∨ a ≤ z → z < max_int64 →
  range_attempt h (buildURL (endpoint h) bucket k "") a z ctx w = (r, w') →
  reads_as w r w' (range_post k a z) (λ m, m !! k = None).
Proof.
  intros Hk Ha Hz Hmax [(e & -> & He & Hw)|(resp & w1 & Hdo & H)]%exchange.
  { apply reads_err; [|congruence]. destruct Hw as [->|Hw]; [apply unchanged_refl|]. by eapply GET_law; [|done|apply asks_plain]. }
  destruct (GET_law _ _ _ _ _ k Hdo Hk) as [Hu Hresp]; [by apply asks_plain|]. destruct (Hresp _ eq_refl) as (Hmiss & Hall & Hpart).
  destruct (client_Do_law _ _ _ _ _ Hdo) as (_ & _ & Hbody). specialize (Hbody resp).
  destruct ((StatusCode resp =? 206) && _) eqn:E206.
  { apply andb_true_iff in E206 as [E206%Z.eqb_eq [hd Ehd]%bool_decide_eq_true]. injection H as <- <-.
    destruct (Hpart E206 a z Ha Hz) as (whole & Hw & Hd); [cbn [ReqHeader req]; rewrite Ehd; by apply range_header|].
    apply reads_ok; [done|]. eapply delivers_post; [done|done|]. intros e. by apply Hbody. }
  destruct (Z.eqb_spec (StatusCode resp) 200) as [E200|E200].
  2:{ apply after_close in H as (w2 & Hu2 & [= <- <-]). apply reads_err; [by eapply unchanged_trans|].
      intros ?%statusError_not_found. by apply Hmiss. }
  destruct (Hall E200) as (whole & Hw & Hd). destruct (skip_body _ _ _ _ _ _ _ Ha Hd (λ e, Hbody e eq_refl) H) as [(body & Hdel & Hend & -> & ->)|(e & -> & -> & He)].
  - apply reads_ok; [done|]. destruct (Z.eqb_spec z (-1)) as [->|Hne].
    + eapply delivers_post; [done|exact Hdel|]. rewrite Hend. intros e. by apply Hbody.
    + destruct Hz as [|Hz]; [done|]. unfold max_int64 in Hmax.
      rewrite (i64_id (z - a)) by (unfold is_i64, min_int64, max_int64; lia).
      rewrite i64_id by (unfold is_i64, min_int64, max_int64; lia).
      destruct (delivers_limit (z - a + 1) body _ ltac:(lia) Hdel) as [Hl Hle]. rewrite <- range_of_take in Hl by done.
      eapply delivers_post; [done|exact Hl|]. intros e He. destruct Hle as [E|E]; rewrite E in He; [|done]. rewrite Hend in He. by apply Hbody.
  - apply reads_err; [eapply unchanged_trans; [exact Hu|apply Body_Close_law]|]. cbn. rewrite orb_false_r. by rewrite He.
Qed.

Lemma http_GetObjectRange_spec k a z ctx w r w' : object_key k → z < max_int64 →
  http_GetObjectRange h ctx bucket k a z w = (r, w') →
  reads_as w r w' (λ m s, range_post k a z m s ∧ (z = -1 ∨ 0 ≤ z)) (λ m, m !! k = None).
Proof.
  intros Hk Hmax. unfold http_GetObjectRange. destruct (Z.ltb_spec a 0) as [|Ha].
  { intros [= <- <-]. by apply reads_err; [apply unchanged_refl|]. }
  destruct (negb (z =? -1) && (z <? a)) eqn:E.
  { intros [= <- <-]. by apply reads_err; [apply unchanged_refl|]. }
  assert (z = -1 ∨ a ≤ z) as Hz by (destruct (Z.eqb_spec z (-1)), (Z.ltb_spec z a); auto; done).
  apply retried_read. intros c w1 r1 w2 (Hu & Hr & Hok & Hnf)%range_attempt_spec; [|done..].
  split_and!; [done|done| |done]. intros s Hs. split; [by apply Hok|lia].
Qed.

End Laws.
