(* ===== verification/HttpWrites.v ===== *)
(** The calls of the HTTP client that change the store: objects, multipart
    uploads; and the paged listing.  With HttpLaws.v: the client keeps the
    contract of a provider. *)

From stdpp Require Import sorting.
From S2P Require Import Prelude Errors Retry GoStrings Url Digest Store Attempts ObjectStorage Parts Retried Http HttpLaws.
#[local] Open Scope Z_scope.

Section Writes.
Context {SU : Surroundings} {SV : StoreView} {CL : CalmLaws} {NT : Net} {XML : Xml} (h : HTTPStorageClient) (bucket : string).
Abbreviation base := (base_url (endpoint h) bucket).
Context {NL : NetLaws base}.
Abbreviation context := (list (Z * net)).

(** ** Objects *)

Lemma put_attempt_spec k b ctx w r w' : object_key k →
  put_attempt h (buildURL (endpoint h) bucket k "") b ctx w = (r, w') → writes_as w r w' (insert k b) (λ _, True).
Proof.
  intros Hk [(e & -> & _ & Hw)|(resp & w1 & Hdo & H)]%(exchange h bucket).
  - apply writes_err; [|done]. destruct Hw as [->|Hw]; [apply maybe_refl|]. by eapply PUT_law; [|done|apply asks_plain|].
  - destruct (PUT_law _ _ _ _ _ k b Hdo Hk) as (Hm & Hok); [by apply asks_plain|done|].
    apply (after_close h bucket) in H as (w2 & Hu2 & H). assert (maybe (insert k b) w w2) as Hm2 by (by eapply maybe_unchanged).
    destruct (_ || _) eqn:E; injection H as <- <-; [apply writes_ok|by apply writes_err]; [done|].
    rewrite (proj1 Hu2). eapply Hok; [done|]. rewrite !orb_true_iff, !Z.eqb_eq in E. tauto.
Qed.

Lemma http_PutObject_spec k b ctx w r w' : object_key k → http_PutObject h ctx bucket k b w = (r, w') →
  writes_as w r w' (insert k b) (λ _, True).
Proof. intros Hk. apply retried_write; [apply insert_idem|]. intros c w1 r1 w2. by apply put_attempt_spec. Qed.

Lemma delete_attempt_spec k ctx w r w' : object_key k →
  delete_attempt h (buildURL (endpoint h) bucket k "") ctx w = (r, w') → writes_as w r w' (delete k) (λ m, m !! k = None).
Proof.
  intros Hk [(e & -> & He & Hw)|(resp & w1 & Hdo & H)]%(exchange h bucket).
  - apply writes_err; [|congruence]. destruct Hw as [->|Hw]; [apply maybe_refl|]. by eapply DELETE_law; [|done|apply asks_plain].
  - destruct (DELETE_law _ _ _ _ _ k Hdo Hk) as (Hm & Hresp); [by apply asks_plain|]. destruct (Hresp _ eq_refl) as [Hok Hmiss].
    apply (after_close h bucket) in H as (w2 & Hu2 & H). assert (maybe (delete k) w w2) as Hm2 by (by eapply maybe_unchanged).
    rewrite <- (proj1 Hu2) in Hok, Hmiss. destruct (_ || _) eqn:E; injection H as <- <-.
    + apply writes_ok; [done|]. apply Hok. rewrite !orb_true_iff, !Z.eqb_eq in E. tauto.
    + apply writes_err; [done|]. intros ?%statusError_not_found. by apply Hmiss.
Qed.

Lemma http_DeleteObject_spec k ctx w r w' : object_key k → http_DeleteObject h ctx bucket k w = (r, w') →
  writes_as w r w' (delete k) (λ m, m !! k = None).
Proof. intros Hk. apply retried_write; [apply delete_idem_key|]. intros c w1 r1 w2. by apply delete_attempt_spec. Qed.

(** ** Multipart uploads *)

(** A body that is read to the end, or not. *)
Lemma read_body {A} b (k : bytes → M net A) w r w' :
  (let* data := lift (ReadAll b) in k data) w = (r, w') →
  (∃ data, ReadAll b = Ok data ∧ k data w = (r, w')) ∨ ∃ e, r = Err e ∧ w' = w.
Proof. destruct b as [d [e|]]; cbn; [intros [= <- <-]; eauto|eauto]. Qed.

Lemma initiate_attempt_spec k ctx w r w' : object_key k →
  initiate_attempt h (buildURL (endpoint h) bucket k "uploads") ctx w = (r, w') → initiates k w r w'.
Proof.
  intros Hk [(e & -> & _ & Hw)|(resp & w1 & Hdo & H)]%(exchange h bucket).
  - apply initiates_err. destruct Hw as [->|Hw]; [apply world_grows_refl|]. eapply INITIATE_law; [exact Hw|done|by apply asks_key].
  - destruct (INITIATE_law _ _ _ _ _ k Hdo Hk) as (Hg & Hok); [by apply asks_key|].
    apply (deferred_inv h bucket) in H as (w2 & H & Hu2). 
    enough (w2 = w1 ∧ initiates k w r w1) as [-> ?] by (by eapply initiates_unchanged).
    destruct (Z.eqb_spec (StatusCode resp) 200) as [E|E]; cbn [negb] in H; [|injection H as <- <-; split; [done|by apply initiates_err]].
    apply read_body in H as [(data & Hd & H)|(e & -> & ->)]; [|split; [done|by apply initiates_err]].
    destruct (Unmarshal_InitiateMultipartUploadResult data) as [e|id] eqn:Em; [injection H as <- <-; split; [done|by apply initiates_err]|].
    case_bool_decide; injection H as <- <-; (split; [done|]); [by apply initiates_err|].
    split_and!; [done|by left; eexists|]. intros ? [= <-]. split; [done|]. by eapply Hok.
Qed.

Lemma http_Initiate_spec k ctx w r w' : object_key k → http_Initiate h ctx bucket k w = (r, w') → initiates k w r w'.
Proof. intros Hk. apply retried_initiate. intros c w1 r1 w2. by apply initiate_attempt_spec. Qed.

Lemma upload_attempt_spec k id n b parts ctx w r w' : object_key k → s_uploads w id = Some (k, parts) →
  upload_attempt h (buildURL (endpoint h) bucket k (Encode (<["uploadId" := id]> {["partNumber" := fmt_d n]}))) b ctx w = (r, w') →
  uploads_part k id n b parts w r w'.
Proof.
  intros Hk Hup [(e & -> & _ & Hw)|(resp & w1 & Hdo & H)]%(exchange h bucket).
  - apply uploads_err. destruct Hw as [->|Hw]; [split; [apply own_refl|by left]|]. by eapply PART_law; [|done|apply asks_query| |].
  - destruct (PART_law _ _ _ _ _ k id n b parts Hdo Hk) as (Hp & Hok); [by apply asks_query|done|done|].
    apply (deferred_inv h bucket) in H as (w2 & H & Hu2). assert (with_part k id n b parts w w') as Hp2.
    { eapply with_part_unchanged; [exact Hp|]. replace w1 with w2; [done|]. cbv zeta in H. destruct (negb _); [|case_bool_decide]; by injection H. }
    destruct (Z.eqb_spec (StatusCode resp) 200) as [E|E]; cbn [negb] in H; [case_bool_decide as Ee|]; injection H as <- <-;
      [by apply uploads_err| |by apply uploads_err]. split_and!; [done|by left; eexists|].
    intros ? [= <-]. rewrite (proj1 (proj2 Hu2)). by apply (Hok _ eq_refl E).
Qed.

Lemma http_UploadPart_spec k id n b parts ctx w r w' : object_key k → s_uploads w id = Some (k, parts) →
  http_UploadPart h ctx bucket k id n b w = (r, w') → uploads_part k id n b parts w r w'.
Proof. intros Hk Hup. apply retried_part; [done|]. intros c w1 r1 w2 parts1. by apply upload_attempt_spec. Qed.

Lemma abort_attempt_spec k id ctx w r w' : object_key k →
  abort_attempt h (buildURL (endpoint h) bucket k (Encode {["uploadId" := id]})) ctx w = (r, w') → own id w w' ∧ returns r.
Proof.
  intros Hk [(e & -> & _ & Hw)|(resp & w1 & Hdo & H)]%(exchange h bucket).
  - split; [|by right; eexists]. destruct Hw as [->|Hw]; [apply own_refl|]. by eapply ABORT_law; [|done|apply asks_query].
  - assert (own id w w1) by (by eapply ABORT_law; [|done|apply asks_query]). apply (after_close h bucket) in H as (w2 & Hu2 & H).
    destruct (_ || _); injection H as <- <-; (split; [eapply own_trans; [done|by apply unchanged_own]|]); [by left; eexists|by right; eexists].
Qed.

Lemma http_Abort_spec k id ctx w r w' : object_key k → http_Abort h ctx bucket k id w = (r, w') → own id w w' ∧ returns r.
Proof.
  intros Hk. unfold http_Abort, handle. destruct (retry_do _ _ _ _ _ _ w) as [r1 w1] eqn:H.
  apply (retried_own id) in H as [Ho Hr]; [|intros c w2 r2 w3; by apply abort_attempt_spec].
  destruct r1 as [[]|e| |]; [intros [= <- <-]; done| |by destruct Hr as [[]|[]]..].
  destruct (errors_Is e ErrUploadNotFound); intros [= <- <-]; (split; [done|]); [by left; eexists|by right; eexists].
Qed.

(** ** Completion *)

(** The parts are listed once each, in ascending order, with their tags. *)
Lemma completed_parts_sorted etags : StronglySorted Z.lt (PartNumber <$> completed_parts etags).
Proof. unfold completed_parts. rewrite <- list_fmap_compose. apply sorted_parts_sorted. Qed.

Lemma completed_parts_elem etags p : p ∈ completed_parts etags ↔ etags !! PartNumber p = Some (ETag p).
Proof.
  unfold completed_parts. rewrite list_elem_of_fmap, <- sorted_parts_elem. split; [intros ([n t] & -> & H); exact H|].
  intros H. eexists. split; [|exact H]. by destruct p.
Qed.

Section Completion.
Context (k id : string) (k_valid : object_key k) (parts : gmap Z (string * bytes)) (n : nat) (c : bytes).
Context (parts_dom : ∀ i, is_Some (parts !! i) ↔ 1 ≤ i ≤ Z.of_nat n) (parts_content : parts_upto n parts = Some c).

Abbreviation settled := (settled k id parts c).

Lemma complete_exchange data ctx r w w1 res w2 :
  settled w w1 → Marshal_CompleteMultipartUpload (completed_parts (fst <$> parts)) = inr data →
  asks r "POST" k {["uploadId" := id]} → ReqBody r = Some data → client_Do ctx r w1 = (res, w2) →
  settled w w2 ∧ ∀ resp d, res = Ok resp → StatusCode resp = 200 → ReadAll (Body resp) = Ok d →
    match Unmarshal_s3Error d with
    | inl _ => s_objects w2 = <[k := c]> (s_objects w)
    | inr e => Code e = "NoSuchUpload" → s_objects w2 = <[k := c]> (s_objects w)
    end.
Proof.
  intros (Hi & Hu & [[Ho E]|[Ho E]]) Hm Hasks Hbody Hdo.
  - pose proof (COMPLETE_gone_law _ _ _ _ _ k id Hdo k_valid Hasks E) as Hun. split.
    + eapply settled_unchanged; [|done]. split_and!; [done|done|by left].
    + intros resp d _ _ _. rewrite (proj1 Hun). by destruct (Unmarshal_s3Error d).
  - destruct (COMPLETE_law _ _ _ _ _ k id (completed_parts (fst <$> parts)) data parts n c Hdo k_valid Hasks Hbody Hm E)
      as ((Hi2 & Hu2 & Hc2) & Hok); [apply completed_parts_sorted| | |done|done|].
    + intros m. split.
      * intros (p & Hp%completed_parts_elem & <-). rewrite lookup_fmap in Hp. destruct (parts !! PartNumber p); [by eexists|done].
      * intros [[t b] Hm']. exists {| PartNumber := m; ETag := t |}. split; [|done]. apply completed_parts_elem. cbn. by rewrite lookup_fmap, Hm'.
    + intros p Hp%completed_parts_elem. by rewrite lookup_fmap in Hp.
    + rewrite Ho in Hc2, Hok. split; [split_and!; [set_solver|intros; by rewrite Hu2, Hu|done]|].
      intros resp d Hres Hst Hd. specialize (Hok resp d Hres Hst Hd). by destruct (Unmarshal_s3Error d).
Qed.

Lemma complete_attempt_spec data ctx w w1 r w2 : settled w w1 →
  Marshal_CompleteMultipartUpload (completed_parts (fst <$> parts)) = inr data →
  complete_attempt h bucket k (buildURL (endpoint h) bucket k (Encode {["uploadId" := id]})) data ctx w1 = (r, w2) →
  settled w w2 ∧ returns r ∧ (∀ u, r = Ok u → s_objects w2 = <[k := c]> (s_objects w)).
Proof.
  intros Hs Hm [(e & -> & _ & Hw)|(resp & w3 & Hdo & H)]%(exchange h bucket).
  - split_and!; [|by right; eexists|done]. destruct Hw as [->|Hw]; [done|].
    by eapply complete_exchange; [exact Hs|exact Hm|apply asks_query| |exact Hw].
  - destruct (complete_exchange data ctx _ _ _ _ _ Hs Hm (asks_query h bucket _ _ _ _ _ k_valid) eq_refl Hdo) as [Hs3 Hok].
    apply (deferred_inv h bucket) in H as (w4 & H & Hu4).
    enough (settled w w4 ∧ returns r ∧ (∀ u, r = Ok u → s_objects w4 = <[k := c]> (s_objects w))) as (? & ? & ?).
    { split_and!; [by eapply settled_unchanged|done|]. rewrite (proj1 Hu4). done. }
    destruct (Z.eqb_spec (StatusCode resp) 200) as [E|E]; cbn [negb] in H; [|injection H as <- <-; split_and!; [done|by right; eexists|done]].
    apply read_body in H as [(d & Hd & H)|(e & -> & ->)]; [|split_and!; [done|by right; eexists|done]].
    specialize (Hok resp d eq_refl E Hd). destruct (Unmarshal_s3Error d) as [e|e]; [injection H as <- <-; split_and!; [done|by left; eexists|done]|].
    case_bool_decide as Ec; [|injection H as <- <-; split_and!; [done|by right; eexists|done]].
    specialize (Hok Ec). unfold handle, bind in H. destruct (http_GetObjectSize h ctx bucket k w3) as [r5 w5] eqn:E5.
    destruct (http_GetObjectSize_spec h bucket k ctx w3 r5 w5 k_valid E5) as (Hu5 & Hr5 & _).
    destruct r5 as [sz|e5| |]; [| |by destruct Hr5 as [[]|[]]..]; injection H as <- <-;
      (split_and!; [by eapply settled_unchanged| |]); [by left; eexists|by rewrite (proj1 Hu5)|by right; eexists|done].
Qed.

Lemma http_Complete_spec ctx w r w' : s_uploads w id = Some (k, parts) →
  http_Complete h ctx bucket k id (fst <$> parts) w = (r, w') → completes k id c w r w'.
Proof.
  intros Hup. unfold http_Complete. destruct (Marshal_CompleteMultipartUpload _) as [e|data] eqn:Em.
  { intros [= <- <-]. split_and!; [done|by right; eexists|right; split; [by eexists|done]|done]. }
  apply (retried_complete _ _ parts); [done|]. intros ctx1 w1 r1 w2 Hs Hf. by eapply complete_attempt_spec.
Qed.

End Completion.

(** ** Listing *)

Lemma list_query_nonempty p token marker : Encode (list_query p token marker) ≠ "".
Proof.
  intros E. pose proof (ParseQuery_Encode (list_query p token marker)) as H. rewrite E in H. change (ParseQuery "") with (∅ : Values) in H.
  assert (∀ k v q, q ≠ ∅ → set_if k v q ≠ ∅) as Hset by (intros k v q Hq; unfold set_if; case_bool_decide; [done|apply insert_non_empty]).
  symmetry in H. revert H. unfold list_query. do 3 apply Hset. apply map_non_empty_singleton.
Qed.

Lemma asks_list p token marker b hd :
  asks (req h "GET" (buildURL (endpoint h) bucket "" (Encode (list_query p token marker))) b hd) "GET" "" (list_query p token marker).
Proof.
  split; [done|]. cbn [URL req]. rewrite decode_bucketURL by apply list_query_nonempty. by rewrite ParseQuery_Encode.
Qed.

(** What a page says of the listing it belongs to. *)
Definition page_of (objs : gmap string bytes) (p token marker : string) (page : ListBucketResult) : Prop :=
  ∃ rest, listing objs p token marker = Contents page ++ rest ∧
    (IsTruncated page = false → rest = []) ∧
    (IsTruncated page = true → Contents page ≠ [] ∧
       (NextContinuationToken page ≠ "" → NextContinuationToken page ≠ token ∧
          listing objs p (NextContinuationToken page) "" = rest) ∧
       (NextContinuationToken page = "" → next_marker page ≠ "" ∧ next_marker page ≠ marker ∧
          listing objs p "" (next_marker page) = rest)).

Lemma list_attempt_spec p token marker ctx w r w' :
  list_attempt h (buildURL (endpoint h) bucket "" (Encode (list_query p token marker))) ctx w = (r, w') →
  reads_as w r w' (λ m, page_of m p token marker) (λ _, True).
Proof.
  intros [(e & -> & _ & Hw)|(resp & w1 & Hdo & H)]%(exchange h bucket).
  - apply reads_err; [|done]. destruct Hw as [->|Hw]; [apply unchanged_refl|]. by eapply LIST_law; [|apply asks_list].
  - destruct (LIST_law _ _ _ _ _ p token marker Hdo) as [Hu Hok]; [apply asks_list|].
    apply (deferred_inv h bucket) in H as (w2 & H & Hu2).
    destruct (Z.eqb_spec (StatusCode resp) 200) as [E|E]; cbn [negb] in H; [|injection H as <- <-; apply reads_err; [by eapply unchanged_trans|done]].
    apply read_body in H as [(d & Hd & H)|(e & -> & ->)]; [|apply reads_err; [by eapply unchanged_trans|done]].
    destruct (Unmarshal_ListBucketResult d) as [e|page] eqn:Ep; injection H as <- <-; [apply reads_err|apply reads_ok]; try done;
      [by eapply unchanged_trans..|]. by eapply Hok.
Qed.

Lemma page_spec p token marker ctx w r w' :
  retry_do (retry h) ctx "http list objects" MetadataAttemptTimeout empty_page
    (list_attempt h (buildURL (endpoint h) bucket "" (Encode (list_query p token marker)))) w = (r, w') →
  reads_as w r w' (λ m, page_of m p token marker) (λ _, True).
Proof. apply retried_read. intros c w1 r1 w2. apply list_attempt_spec. Qed.

(** The pages add up to the listing; every page but the last has an entry, so
    the fuel is enough. *)
Lemma list_loop_spec fuel p token marker acc ctx w r w' :
  (length (listing (s_objects w) p token marker) < fuel)%nat →
  list_loop h fuel ctx bucket p token marker acc w = (r, w') →
  unchanged w w' ∧ returns r ∧ (∀ l, r = Ok l → l = acc ++ listing (s_objects w) p token marker).
Proof.
  revert token marker acc w. induction fuel as [|fuel IH]; intros token marker acc w Hlen; [lia|]. cbn [list_loop].
  intros [(page & w1 & (Hu & _ & Hok & _)%page_spec & H)|(r1 & (Hu & Hr & _)%page_spec & _ & Hn & _ & Hf)]%bind_inv.
  2:{ split_and!; [done|right; by apply Hf|]. intros l Hl. by destruct (Hn l). }
  destruct (Hok page eq_refl) as (rest & Hlist & Hlast & Hmore). rewrite Hlist in Hlen |- *. rewrite length_app in Hlen.
  destruct (IsTruncated page); cbn [negb] in H.
  2:{ injection H as <- <-. rewrite Hlast by done. split_and!; [done|by left; eexists|]. intros l [= <-]. by rewrite app_nil_r. }
  destruct (Hmore eq_refl) as (Hne & Htok & Hmark). assert (0 < length (Contents page))%nat by (destruct (Contents page); [done|simpl; lia]).
  fold (next_marker page) in H.
  assert (∀ token' marker', listing (s_objects w) p token' marker' = rest →
    list_loop h fuel ctx bucket p token' marker' (acc ++ Contents page) w1 = (r, w') →
    unchanged w w' ∧ returns r ∧ (∀ l, r = Ok l → l = acc ++ Contents page ++ rest)) as Hnext.
  { intros token' marker' <- (Hu2 & Hr & Hl)%IH; [|rewrite (proj1 Hu); lia]. rewrite (proj1 Hu) in Hl.
    split_and!; [by eapply unchanged_trans|done|]. intros l ->%Hl. by rewrite app_assoc. }
  destruct (decide (NextContinuationToken page = "")) as [E|E].
  - rewrite bool_decide_true in H by done. cbn [negb] in H. destruct (Hmark E) as (H1 & H2 & H3).
    rewrite !bool_decide_false in H by done. by eapply Hnext.
  - rewrite bool_decide_false in H by done. cbn [negb] in H. destruct (Htok E) as (H1 & H2).
    rewrite bool_decide_false in H by done. by eapply Hnext.
Qed.

Lemma http_ListObjects_spec p ctx w r w' : http_ListObjects h ctx bucket p w = (r, w') →
  unchanged w w' ∧ returns r ∧ (∀ l, r = Ok l → l = listing (s_objects w) p "" "").
Proof. apply list_loop_spec, list_fuel_law. Qed.

(** ** The client as a provider *)

Definition laws : @ObjectStorageClientLaws (http_bucket h bucket).
Proof.
  refine {|
    valid_key := object_key;
    objects := s_objects : @world (http_bucket h bucket) → gmap string bytes;
    uploads := s_uploads : @world (http_bucket h bucket) → string → option (string * gmap Z (string * bytes));
    issued := s_issued : @world (http_bucket h bucket) → gset string;
  |}.
  - intros k w r w' Hk ((Ho & Hu & Hi) & Hr & Hok)%http_Initiate_spec; [|done]. by split_and!.
  - intros k id n b w r w' parts Hk _ H Hup. eapply http_UploadPart_spec in H as ([(Ho & Hi & Hu) _] & Hr & Hok); [|done..].
    split_and!; [done|done|done|done|]. intros id' x Hne. by rewrite Hu.
  - intros k id tags w r w' parts n c Hk H Hup -> Hdom _ Hc.
    destruct (http_Complete_spec k id Hk parts n c Hdom Hc _ _ _ _ Hup H) as (Hi & Hr & Ho & Hu).
    split_and!; [done|done|done|]. intros id' x Hne. by rewrite Hu.
  - intros k id w r w' Hk [(Ho & Hi & Hu) Hr]%http_Abort_spec; [|done]. split_and!; [done|done|done|]. intros id' x Hne. by rewrite Hu.
  - intros k b w r w' Hk ([Hu Hi] & Hr & Ho)%http_PutObject_spec%writes_result; [|done]. split_and!; [by apply same_keeps_uploads|done|done|done].
  - intros k w r w' Hk Hw%http_DeleteObject_spec; [|done]. destruct (writes_result _ _ _ _ _ Hw) as ([Hu Hi] & Hr & Ho).
    split_and!; [by apply same_keeps_uploads|done..|by apply Hw].
  - intros p w r w' ((Ho & Hu & Hi) & Hr & Hl)%http_ListObjects_spec. split_and!; [done|done|by apply same_keeps_uploads|done|].
    intros l ->%Hl n. apply listing_law.
  - intros k w r w' Hk H. destruct (http_GetObjectSize_spec h bucket k [] w r w' Hk H) as ((Ho & Hu & Hi) & Hr & Hok & Hnf). split_and!; [done|done|by apply same_keeps_uploads|done..].
  - intros k a z w r w' Hk Hz H.
    destruct (http_GetObjectRange_spec h bucket k a z [] w r w' Hk Hz H) as ((Ho & Hu & Hi) & Hr & Hok & Hnf).
    split_and!; [done|done|by apply same_keeps_uploads|done| |done]. intros b e ->. 
    destruct (Hok _ eq_refl) as [Hpost Hzz]. by apply range_post_law.
Defined.

End Writes.
