(* ===== verification/HttpExample.v ===== *)
(** An object store in memory behind the REST interface, and a document
    codec: they keep the contract of HttpLaws.v whatever requests get lost,
    are answered late or with an error, or have their answers cut short. *)

From stdpp Require Import sorting countable.
From S2P Require Import Prelude Errors Retry GoStrings Url Digest Store Attempts ObjectStorage Retried Http HttpLaws.
#[local] Open Scope Z_scope.

(** ** Documents

    Any value of a countable type as bytes. *)
Module Doc.

Fixpoint of_positive (p : positive) : bytes :=
  match p with
  | xH => []
  | xO p => Byte.x00 :: of_positive p
  | xI p => Byte.x01 :: of_positive p
  end.
Fixpoint to_positive (b : bytes) : positive :=
  match b with
  | [] => xH
  | Byte.x00 :: b => xO (to_positive b)
  | _ :: b => xI (to_positive b)
  end.

Lemma to_of_positive p : to_positive (of_positive p) = p.
Proof. induction p as [p IH|p IH|]; cbn; by rewrite ?IH. Qed.

(** A listing, an upload identifier, an error, or a list of parts. *)
Definition page : Type := (list (string * Z) * bool * (string * string))%type.
Definition doc : Type := (page + string) + ((string * string) + list (Z * string)).

Definition print (d : doc) : bytes := of_positive (encode d).
Definition parse (b : bytes) : option doc := decode (to_positive b).

Lemma parse_print d : parse (print d) = Some d.
Proof. unfold parse, print. by rewrite to_of_positive, decode_encode. Qed.

Definition page_doc (p : ListBucketResult) : doc :=
  inl (inl ((λ c, (fi_Name c, fi_Size c)) <$> Contents p, IsTruncated p, (NextContinuationToken p, NextMarker p))).
Definition unknown : error := ELeaf "unexpected document" false.

Definition codec : Xml := {|
  Unmarshal_ListBucketResult b :=
    match parse b with
    | Some (inl (inl (l, t, (c, m)))) =>
        inr {| Contents := (λ c, {| fi_Name := c.1; fi_Size := c.2 |}) <$> l; IsTruncated := t; NextContinuationToken := c; NextMarker := m |}
    | _ => inl unknown
    end;
  Unmarshal_InitiateMultipartUploadResult b := match parse b with Some (inl (inr id)) => inr id | _ => inl unknown end;
  Unmarshal_s3Error b := match parse b with Some (inr (inl (c, m))) => inr {| Code := c; Message := m |} | _ => inl unknown end;
  Marshal_CompleteMultipartUpload l := inr (print (inr (inr ((λ p, (PartNumber p, ETag p)) <$> l))));
|}.

Lemma page_read p : @Unmarshal_ListBucketResult codec (print (page_doc p)) = inr p.
Proof.
  cbn. rewrite parse_print. unfold page_doc. rewrite <- list_fmap_compose. destruct p as [l t c m]. cbn. do 2 f_equal.
  rewrite (list_fmap_ext _ id); [apply list_fmap_id|]. by intros _ [] _.
Qed.

End Doc.

(** ** The store *)

Module Server.

(** Every request consumes one entry of the schedule: it is served, it is
    lost, its answer is lost, it is answered with a status and not served, or
    its answer's body is cut.  [gone_404] says how the completion of an unknown
    upload is answered: with status 404, or with an error document. *)
Inductive fault := FNone | FLost | FLate | FStatus (code : Z) | FCut (n : nat).

Record srv := {
  objs : gmap string bytes;
  ups : gmap string (string * gmap Z (string * bytes));
  ids : gset string;
  cancelled : bool;
  gone_404 : bool;
  schedule : list fault;
}.

Definition set_objs (x : gmap string bytes) (s : srv) : srv :=
  {| objs := x; ups := ups s; ids := ids s; cancelled := cancelled s; gone_404 := gone_404 s; schedule := schedule s |}.
Definition set_ups (x : gmap string (string * gmap Z (string * bytes))) (s : srv) : srv :=
  {| objs := objs s; ups := x; ids := ids s; cancelled := cancelled s; gone_404 := gone_404 s; schedule := schedule s |}.
Definition set_ids (x : gset string) (s : srv) : srv :=
  {| objs := objs s; ups := ups s; ids := x; cancelled := cancelled s; gone_404 := gone_404 s; schedule := schedule s |}.
Definition tick (s : srv) : srv :=
  {| objs := objs s; ups := ups s; ids := ids s; cancelled := cancelled s; gone_404 := gone_404 s; schedule := tail (schedule s) |}.

Definition reset : error := ELeaf "connection reset" false.
Definition answer (code : Z) (hd : gmap string string) (b : bytes) : response := {| StatusCode := code; Header := hd; Body := (b, None) |}.
Definition plain (code : Z) : response := answer code ∅ [].
Definition failure (code m : string) : response := answer 200 ∅ (Doc.print (inr (inl (code, m)))).

(** Listings: a token is as long as the number of entries before it. *)
Definition entries (o : gmap string bytes) (p : string) : list FileInfo :=
  (λ kv : string * bytes, {| fi_Name := kv.1; fi_Size := blen kv.2 |}) <$> filter (λ kv, HasPrefix kv.1 p = true) (map_to_list o).
Definition s_listing (o : gmap string bytes) (p token marker : string) : list FileInfo := drop (String.length token) (entries o p).
Definition token_at (n : nat) : string := of_chars (replicate n "t"%char).
Definition page_at (o : gmap string bytes) (p token : string) : ListBucketResult :=
  let l := s_listing o p token "" in
  {| Contents := take 2 l; IsTruncated := negb (bool_decide (drop 2 l = []));
     NextContinuationToken := token_at (String.length token + 2); NextMarker := "" |}.

Definition parse_range (s : string) : Z * Z :=
  match Cut (TrimPrefix s "bytes=") "-" with
  | Some (a, z) => (default 0 (signed_value (chars a)), if bool_decide (z = "") then -1 else default 0 (signed_value (chars z)))
  | None => (0, -1)
  end.

Definition serve_get (r : request) (k : string) (s : srv) : response :=
  match objs s !! k with
  | None => plain 404
  | Some b =>
      match ReqHeader r !! "Range" with
      | Some v => let '(a, z) := parse_range v in answer 206 ∅ (range_of a z b)
      | None => answer 200 ∅ b
      end
  end.

Definition serve_upload (k id : string) (n : Z) (b : bytes) (s : srv) : response * srv :=
  match ups s !! id with
  | Some (k', parts) => (answer 200 {["Etag" := "e"]} [], set_ups (<[id := (k', <[n := ("e", b)]> parts)]> (ups s)) s)
  | None => (plain 404, s)
  end.

Definition serve_complete (k id : string) (b : bytes) (s : srv) : response * srv :=
  match ups s !! id, Doc.parse b with
  | None, _ => (if gone_404 s then plain 404 else failure "NoSuchUpload" "", s)
  | Some (k', parts), Some (inr (inr l)) =>
      if decide (StronglySorted Z.lt l.*1) then
        match parts_upto (size parts) parts with
        | Some c => (plain 200, set_ups (delete id (ups s)) (set_objs (<[k := c]> (objs s)) s))
        | None => (failure "InvalidPart" "", s)
        end
      else (failure "InvalidPartOrder" "", s)
  | Some _, _ => (failure "MalformedXML" "", s)
  end.

Definition serve (base : string) (r : request) (s : srv) : response * srv :=
  let '(k, q) := decodeURL base (URL r) in
  let body := default [] (ReqBody r) in
  if bool_decide (Method r = "HEAD") then
    (match objs s !! k with Some b => answer 200 {["Content-Length" := fmt_d (blen b)]} [] | None => plain 404 end, s)
  else if bool_decide (Method r = "GET") then
    (if bool_decide (k = "") then answer 200 ∅ (Doc.print (Doc.page_doc (page_at (objs s) (Header_Get q "prefix") (Header_Get q "continuation-token"))))
     else serve_get r k s, s)
  else if bool_decide (Method r = "PUT") then
    match q !! "uploadId" with
    | Some id => serve_upload k id (default 0 (signed_value (chars (Header_Get q "partNumber")))) body s
    | None => (plain 200, set_objs (<[k := body]> (objs s)) s)
    end
  else if bool_decide (Method r = "DELETE") then
    match q !! "uploadId" with
    | Some id => (plain (if bool_decide (is_Some (ups s !! id)) then 204 else 404), set_ups (delete id (ups s)) s)
    | None => (plain (if bool_decide (is_Some (objs s !! k)) then 204 else 404), set_objs (delete k (objs s)) s)
    end
  else
    match q !! "uploadId" with
    | Some id => serve_complete k id body s
    | None =>
        let id := fresh ({[""]} ∪ ids s ∪ dom (ups s)) in
        (answer 200 ∅ (Doc.print (inl (inr id))), set_ids ({[id]} ∪ ids s) (set_ups (<[id := (k, ∅)]> (ups s)) s))
    end.

Definition cut (n : nat) (resp : response) : response :=
  {| StatusCode := StatusCode resp; Header := Header resp; Body := (take n (Body resp).1, Some (ESentinel IoErrUnexpectedEOF)) |}.

Definition exchange (base : string) (r : request) (s : srv) : res response * srv :=
  let '(resp, s1) := serve base r (tick s) in
  match head (schedule s) with
  | Some FNone | None => (Ok resp, s1)
  | Some FLost => (Err reset, tick s)
  | Some FLate => (Err reset, s1)
  | Some (FStatus code) => if decide (500 ≤ code) then (Ok (plain code), tick s) else (Ok resp, s1)
  | Some (FCut n) => (Ok (cut n resp), s1)
  end.

Definition surroundings : Surroundings := {|
  Attempts.net := srv;
  caller_Err s := if cancelled s then Some CtxCanceled else None;
  net_expired _ _ _ := false;
  net_draw _ n := n / 2;
  net_sleep _ _ s := (s, if cancelled s then Some CtxCanceled else None);
|}.
Definition net (base : string) : @Net surroundings := {|
  NewRequest_error _ _ := None;
  client_Do _ := exchange base : request → @M (@Attempts.net surroundings) response;
  closeBody _ s := s;
  Body_Close _ s := s;
  list_fuel s := S (size (objs s));
|}.

(** ** The contract *)

Definition store : @StoreView surroundings :=
  {| s_objects := objs : @Attempts.net surroundings → _; s_uploads s id := ups s !! id; s_issued := ids |}.
Definition calm : @CalmLaws surroundings store.
Proof.
  split.
  - intros w c. cbn. destruct (cancelled w); [|done]. intros [= <-]. by left.
  - intros ctx d w w' r. cbn. intros [= <- <-]. split; [by split_and!|]. intros c. destruct (cancelled w); [|done]. intros [= <-]. by left.
Defined.

Section Contract.
Context (base : string).
Abbreviation asks r m k q := (Method r = m ∧ decodeURL base (URL r) = (k, q)).

(** What a served request did, whatever became of the answer. *)
Definition outcome_of (resp : response) (s1 : srv) (s : srv) (res : res response) (s' : srv) : Prop :=
  (res = Ok resp ∧ s' = s1) ∨ (∃ n, res = Ok (cut n resp) ∧ s' = s1) ∨ (res = Err reset ∧ s' = s1) ∨
  (s' = tick s ∧ (res = Err reset ∨ ∃ code, 500 ≤ code ∧ res = Ok (plain code))).

Lemma exchange_cases r s res s' resp s1 : exchange base r s = (res, s') → serve base r (tick s) = (resp, s1) →
  outcome_of resp s1 s res s'.
Proof.
  unfold exchange, outcome_of. intros H E. rewrite E in H. destruct (head (schedule s)) as [[]|]; try case_decide; simplify_eq; eauto 10.
Qed.

Lemma serve_body_ok r s resp s1 : serve base r s = (resp, s1) → (Body resp).2 = None.
Proof.
  unfold serve, serve_upload, serve_complete, serve_get, failure, answer, plain. destruct (decodeURL base (URL r)) as [k q].
  repeat case_match; intros; simplify_eq; reflexivity.
Qed.

Lemma cut_delivers n resp want : delivers (Body resp) want → delivers (Body (cut n resp)) want.
Proof. intros [Hp _]. split; cbn; [|done]. etrans; [apply prefix_take|done]. Qed.

Lemma full_delivers b : delivers (b, None) b.
Proof. split; done. Qed.

Lemma client_law r s res s' : exchange base r s = (res, s') → returns res ∧
  (∀ e, res = Err e → errors_Is e ErrNotFound = false) ∧
  (∀ resp e, res = Ok resp → (Body resp).2 = Some e → errors_Is e ErrNotFound = false).
Proof.
  destruct (serve base r (tick s)) as [resp s1] eqn:E. intros H. pose proof (serve_body_ok _ _ _ _ E) as Hb.
  destruct (exchange_cases _ _ _ _ _ _ H E) as [[-> ->]|[(n & -> & ->)|[[-> ->]|[-> [->|(code & _ & ->)]]]]]; unfold returns, fails;
    (split_and!; [eauto|by intros ? [= <-]|]); intros resp' e [= <-] He; try (by rewrite Hb in He); cbn in He; by simplify_eq.
Qed.

Definition still (s s' : srv) : Prop := objs s' = objs s ∧ (∀ id, ups s' !! id = ups s !! id) ∧ ids s ⊆ ids s'.

Lemma still_refl s : still s s.
Proof. by split_and!. Qed.
Lemma still_tick s : still s (tick s).
Proof. by split_and!. Qed.

(** A request that changes nothing: what holds of its answer holds of the
    answers that the client may see. *)
Lemma read_only r s res s' resp : exchange base r s = (res, s') → serve base r (tick s) = (resp, tick s) →
  still s s' ∧ ∀ resp', res = Ok resp' → resp' = resp ∨ (∃ n, resp' = cut n resp) ∨ 500 ≤ StatusCode resp'.
Proof.
  intros H E. destruct (exchange_cases _ _ _ _ _ _ H E) as [[-> ->]|[(n & -> & ->)|[[-> ->]|[-> [->|(code & Hc & ->)]]]]];
    (split; [apply still_tick|]); intros resp' [= <-]; eauto.
Qed.

Lemma HEAD_law_ r s res s' k : exchange base r s = (res, s') → object_key k → asks r "HEAD" k ∅ →
  still s s' ∧ ∀ resp, res = Ok resp →
    (StatusCode resp = 404 → objs s !! k = None) ∧
    (StatusCode resp = 200 → ∃ b, objs s !! k = Some b ∧
       ∀ n, ParseInt (TrimSpace (Header_Get (Header resp) "Content-Length")) = Some n → n = blen b).
Proof.
  intros H _ [Hm Hu]. destruct (read_only r s res s' (match objs s !! k with Some b => answer 200 {["Content-Length" := fmt_d (blen b)]} [] | None => plain 404 end) H) as [Hs Hresp].
  { unfold serve. rewrite Hu, Hm. done. }
  split; [done|]. intros resp Hr. destruct (Hresp _ Hr) as [->|[[n ->]|Hst]]; [| |split; intros; lia];
    (destruct (objs s !! k) as [b|]; [split; [done|]; intros _; exists b; split; [done|]|by split]);
    intros m; cbn [Header cut answer]; unfold Header_Get; rewrite lookup_singleton_eq; cbn [from_option Datatypes.id];
    (rewrite TrimSpace_digits by (apply fmt_d_chars; unfold blen; lia)); unfold ParseInt; rewrite signed_value_fmt_d;
    by case_match; intros [= <-].
Qed.

Lemma parse_range_value a z : 0 ≤ a → z = -1 ∨ a ≤ z → parse_range (range_value a z) = (a, z).
Proof.
  intros Ha Hz. unfold parse_range, range_value. rewrite TrimPrefix_app.
  change (fmt_d a +:+ "-" +:+ (if z =? -1 then "" else fmt_d z)) with (fmt_d a +:+ String "-" (if z =? -1 then "" else fmt_d z)).
  destruct (fmt_d_chars a Ha) as [Hd _]. rewrite Cut_app.
  2:{ apply has_char_false. intros Hin%list_elem_of_In. rewrite forallb_forall in Hd. specialize (Hd _ Hin). by vm_compute in Hd. }
  rewrite signed_value_fmt_d. destruct (Z.eqb_spec z (-1)) as [->|Hne]; [done|]. cbn [default].
  destruct (fmt_d_chars z ltac:(lia)) as [_ Hzne]. rewrite bool_decide_false by (intros E; by rewrite E in Hzne).
  by rewrite signed_value_fmt_d.
Qed.

Lemma GET_law_ r s res s' k : exchange base r s = (res, s') → object_key k → asks r "GET" k ∅ →
  still s s' ∧ ∀ resp, res = Ok resp →
    (StatusCode resp = 404 → objs s !! k = None) ∧
    (StatusCode resp = 200 → ∃ b, objs s !! k = Some b ∧ delivers (Body resp) b) ∧
    (StatusCode resp = 206 → ∀ a z, 0 ≤ a → (z = -1 ∨ a ≤ z) → ReqHeader r !! "Range" = Some (range_value a z) →
       ∃ b, objs s !! k = Some b ∧ delivers (Body resp) (range_of a z b)).
Proof.
  intros H (Hne & _ & _) [Hm Hu]. destruct (read_only r s res s' (serve_get r k s) H) as [Hs Hresp].
  { unfold serve. rewrite Hu, Hm. change (bool_decide ("GET" = "HEAD")) with false. change (bool_decide ("GET" = "GET")) with true.
    cbv iota. by rewrite bool_decide_false. }
  split; [done|]. intros resp Hr. specialize (Hresp _ Hr). unfold serve_get in Hresp.
  destruct (objs s !! k) as [b|]; [|destruct Hresp as [->|[[n ->]|Hst]]; cbn in *; split_and!; intros; done || lia].
  destruct (ReqHeader r !! "Range") as [v|]; [destruct (parse_range v) as [a0 z0] eqn:Er|]; destruct Hresp as [->|[[n ->]|Hst]];
    cbn [StatusCode answer cut]; (split_and!; [intros; try done; lia|intros; try done; try lia|intros; try done; try lia]).
  - simplify_eq. exists b. split; [done|]. rewrite parse_range_value in Er by done. simplify_eq. apply full_delivers.
  - simplify_eq. exists b. split; [done|]. rewrite parse_range_value in Er by done. simplify_eq. apply cut_delivers, full_delivers.
  - exists b. split; [done|]. apply full_delivers.
  - exists b. split; [done|]. apply cut_delivers, full_delivers.
Qed.

Lemma PUT_law_ r s res s' k b : exchange base r s = (res, s') → object_key k → asks r "PUT" k ∅ → ReqBody r = Some b →
  (∀ id, ups s' !! id = ups s !! id) ∧ ids s ⊆ ids s' ∧ (objs s' = <[k := b]> (objs s) ∨ objs s' = objs s) ∧
  ∀ resp, res = Ok resp → StatusCode resp = 200 ∨ StatusCode resp = 201 ∨ StatusCode resp = 204 → objs s' = <[k := b]> (objs s).
Proof.
  intros H _ [Hm Hu] Hb. assert (serve base r (tick s) = (plain 200, set_objs (<[k := b]> (objs s)) (tick s))) as E
    by (unfold serve; rewrite Hu, Hm, Hb; done).
  destruct (exchange_cases _ _ _ _ _ _ H E) as [[-> ->]|[(n & -> & ->)|[[-> ->]|[-> Hr]]]]; cbn;
    (split_and!; [done|done|auto|]); try done.
  intros resp -> Hst. destruct Hr as [|(code & Hc & [= ->])]; [done|]. cbn in Hst. lia.
Qed.

Lemma DELETE_law_ r s res s' k : exchange base r s = (res, s') → object_key k → asks r "DELETE" k ∅ →
  (∀ id, ups s' !! id = ups s !! id) ∧ ids s ⊆ ids s' ∧ (objs s' = delete k (objs s) ∨ objs s' = objs s) ∧
  ∀ resp, res = Ok resp →
    (StatusCode resp = 200 ∨ StatusCode resp = 204 ∨ StatusCode resp = 202 → objs s' = delete k (objs s)) ∧
    (StatusCode resp = 404 → objs s' !! k = None).
Proof.
  intros H _ [Hm Hu]. assert (serve base r (tick s) =
    (plain (if bool_decide (is_Some (objs s !! k)) then 204 else 404), set_objs (delete k (objs s)) (tick s))) as E
    by (unfold serve; rewrite Hu, Hm; done).
  destruct (exchange_cases _ _ _ _ _ _ H E) as [[-> ->]|[(n & -> & ->)|[[-> ->]|[-> Hr]]]]; cbn;
    (split_and!; [done|done|auto|]); try done; try (intros resp _; split; [done|]; intros _; apply lookup_delete_eq).
  intros resp ->. destruct Hr as [|(code & Hc & [= ->])]; [done|]. cbn. split; intros; lia.
Qed.

Lemma INITIATE_law_ r s res s' k : exchange base r s = (res, s') → object_key k → asks r "POST" k {["uploads" := ""]} →
  objs s' = objs s ∧ (∀ id x, ups s !! id = Some x → ups s' !! id = Some x) ∧ ids s ⊆ ids s' ∧
  ∀ resp data id, res = Ok resp → StatusCode resp = 200 → ReadAll (Body resp) = Ok data →
    @Unmarshal_InitiateMultipartUploadResult Doc.codec data = inr id → id ≠ "" →
    (id ∉ ids s) ∧ id ∈ ids s' ∧ ups s' !! id = Some (k, ∅).
Proof.
  intros H _ [Hm Hu]. set (new := fresh ({[""]} ∪ ids s ∪ dom (ups s))).
  assert (serve base r (tick s) = (answer 200 ∅ (Doc.print (inl (inr new))),
    set_ids ({[new]} ∪ ids s) (set_ups (<[new := (k, ∅)]> (ups s)) (tick s)))) as E by (unfold serve; rewrite Hu, Hm; done).
  pose proof (is_fresh ({[""]} ∪ ids s ∪ dom (ups s))) as Hfr. fold new in Hfr. rewrite !not_elem_of_union, not_elem_of_dom in Hfr.
  destruct Hfr as [[_ Hf2] Hf3].
  assert (∀ id x, ups s !! id = Some x → <[new := (k, ∅)]> (ups s) !! id = Some x) as Hkeep.
  { intros id x Hx. rewrite lookup_insert_ne; [done|]. intros <-. by rewrite Hf3 in Hx. }
  destruct (exchange_cases _ _ _ _ _ _ H E) as [[-> ->]|[(n & -> & ->)|[[-> ->]|[-> Hr]]]]; cbn [objs ups ids set_ids set_ups tick];
    (split_and!; [done|done|set_solver|]); try done.
  - intros resp data id [= <-] _ [= <-]. cbn. rewrite Doc.parse_print. intros [= <-] _. split_and!; [done|set_solver|by rewrite lookup_insert_eq].
  - intros resp data id [= <-] _. done.
  - intros resp data id -> Hst. destruct Hr as [|(code & Hc & [= ->])]; [done|]. cbn in Hst. lia.
Qed.

Lemma PART_law_ r s res s' k id n b parts : exchange base r s = (res, s') → object_key k →
  asks r "PUT" k (<["uploadId" := id]> {["partNumber" := fmt_d n]}) → ReqBody r = Some b → ups s !! id = Some (k, parts) →
  objs s' = objs s ∧ ids s ⊆ ids s' ∧ (∀ id', id' ≠ id → ups s' !! id' = ups s !! id') ∧
  (ups s' !! id = Some (k, parts) ∨ ∃ etag, ups s' !! id = Some (k, <[n := (etag, b)]> parts)) ∧
  ∀ resp, res = Ok resp → StatusCode resp = 200 →
    let etag := TrimSpace (Header_Get (Header resp) "Etag") in
    etag ≠ "" → ups s' !! id = Some (k, <[n := (etag, b)]> parts).
Proof.
  intros H _ [Hm Hu] Hb Hup. assert (serve base r (tick s) = serve_upload k id n b (tick s)) as E.
  { unfold serve. rewrite Hu, Hm, Hb. cbn [from_option Datatypes.id].
    change (bool_decide ("PUT" = "HEAD")) with false. change (bool_decide ("PUT" = "GET")) with false. change (bool_decide ("PUT" = "PUT")) with true.
    cbv beta zeta iota. rewrite lookup_insert_eq. unfold Header_Get. rewrite lookup_insert_ne, lookup_singleton_eq by done.
    cbn [from_option Datatypes.id]. by rewrite signed_value_fmt_d. }
  unfold serve_upload in E. cbn [ups tick] in E. rewrite Hup in E.
  destruct (exchange_cases _ _ _ _ _ _ H E) as [[-> ->]|[(m & -> & ->)|[[-> ->]|[-> Hr]]]]; cbn [objs ups ids set_ups tick];
    (split_and!; [done|done|try done; intros; by rewrite lookup_insert_ne|try (right; exists "e"; by rewrite lookup_insert_eq); by left|]).
  - intros resp [= <-] _. cbn. intros _. by rewrite lookup_insert_eq.
  - intros resp [= <-] _. cbn. intros _. by rewrite lookup_insert_eq.
  - done.
  - intros resp -> Hst. destruct Hr as [|(code & Hc & [= ->])]; [done|]. cbn in Hst. lia.
Qed.

Lemma serve_completes r k id data s : asks r "POST" k {["uploadId" := id]} → ReqBody r = Some data →
  serve base r s = serve_complete k id data s.
Proof. intros [Hm Hu] Hb. unfold serve. rewrite Hu, Hm, Hb. cbn [from_option Datatypes.id]. by rewrite lookup_singleton_eq. Qed.

Lemma COMPLETE_law_ r s res s' k id l data parts n c : exchange base r s = (res, s') → object_key k →
  asks r "POST" k {["uploadId" := id]} → ReqBody r = Some data → @Marshal_CompleteMultipartUpload Doc.codec l = inr data →
  ups s !! id = Some (k, parts) → StronglySorted Z.lt (PartNumber <$> l) →
  (∀ m, (∃ p, p ∈ l ∧ PartNumber p = m) ↔ is_Some (parts !! m)) →
  (∀ p, p ∈ l → fst <$> parts !! PartNumber p = Some (ETag p)) →
  (∀ i, is_Some (parts !! i) ↔ 1 ≤ i ≤ Z.of_nat n) → parts_upto n parts = Some c →
  ids s ⊆ ids s' ∧ (∀ id', id' ≠ id → ups s' !! id' = ups s !! id') ∧
  (objs s' = <[k := c]> (objs s) ∧ ups s' !! id = None ∨ objs s' = objs s ∧ ups s' !! id = Some (k, parts)) ∧
  ∀ resp d, res = Ok resp → StatusCode resp = 200 → ReadAll (Body resp) = Ok d →
    match @Unmarshal_s3Error Doc.codec d with
    | inl _ => objs s' = <[k := c]> (objs s)
    | inr e => Code e ≠ "NoSuchUpload"
    end.
Proof.
  intros H _ Ha Hb [= <-] Hup Hsort _ _ Hdom Hc. apply MemProvider.size_contiguous in Hdom.
  pose proof (serve_completes r k id _ (tick s) Ha Hb) as E. unfold serve_complete in E. cbn [ups tick] in E.
  rewrite Hup, Doc.parse_print in E. rewrite decide_True in E by (rewrite <- list_fmap_compose; exact Hsort). rewrite Hdom, Hc in E.
  destruct (exchange_cases _ _ _ _ _ _ H E) as [[-> ->]|[(m & -> & ->)|[[-> ->]|[-> Hr]]]]; cbn [objs ups ids set_ups set_objs tick];
    (split_and!; [done|try done; intros; by rewrite lookup_delete_ne|try (left; by rewrite lookup_delete_eq); by right|]).
  - intros resp d [= <-] _ [= <-]. done.
  - intros resp d [= <-] _ [=].
  - done.
  - intros resp d -> Hst. destruct Hr as [|(code & Hc' & [= ->])]; [done|]. cbn in Hst. lia.
Qed.

Lemma gone_answer r s s' k id res : exchange base r s = (res, s') → asks r "POST" k {["uploadId" := id]} → ups s !! id = None → still s s'.
Proof.
  intros H [Hm Hu] Hup. eapply read_only; [exact H|]. unfold serve. rewrite Hu, Hm. 
  change (bool_decide ("POST" = "HEAD")) with false. change (bool_decide ("POST" = "GET")) with false.
  change (bool_decide ("POST" = "PUT")) with false. change (bool_decide ("POST" = "DELETE")) with false. cbv beta zeta iota.
  rewrite lookup_singleton_eq. unfold serve_complete. cbn [ups tick]. by rewrite Hup.
Qed.

Lemma ABORT_law_ r s res s' k id : exchange base r s = (res, s') → object_key k → asks r "DELETE" k {["uploadId" := id]} →
  objs s' = objs s ∧ ids s ⊆ ids s' ∧ (∀ id', id' ≠ id → ups s' !! id' = ups s !! id').
Proof.
  intros H _ [Hm Hu]. assert (serve base r (tick s) =
    (plain (if bool_decide (is_Some (ups s !! id)) then 204 else 404), set_ups (delete id (ups s)) (tick s))) as E.
  { unfold serve. rewrite Hu, Hm. change (bool_decide ("DELETE" = "HEAD")) with false. change (bool_decide ("DELETE" = "GET")) with false.
    change (bool_decide ("DELETE" = "PUT")) with false. change (bool_decide ("DELETE" = "DELETE")) with true.
    cbv beta zeta iota. by rewrite lookup_singleton_eq. }
  destruct (exchange_cases _ _ _ _ _ _ H E) as [[-> ->]|[(m & -> & ->)|[[-> ->]|[-> Hr]]]]; cbn [objs ups ids set_ups tick];
    (split_and!; [done|done|try done; intros; by rewrite lookup_delete_ne]).
Qed.

Lemma listing_law_ o p n : n ∈ fi_Name <$> s_listing o p "" "" ↔ n ∈ dom o ∧ HasPrefix n p = true.
Proof.
  unfold s_listing. rewrite drop_0. unfold entries. rewrite <- list_fmap_compose, list_elem_of_fmap. setoid_rewrite list_elem_of_filter.
  rewrite elem_of_dom. split.
  - intros ([k b] & -> & Hp & Hk%elem_of_map_to_list). simpl in *. eauto.
  - intros [[b Hb] Hp]. exists (n, b). by rewrite elem_of_map_to_list.
Qed.

Lemma list_fuel_law_ o p : (length (s_listing o p "" "") < S (size o))%nat.
Proof.
  unfold s_listing. rewrite drop_0. unfold entries. rewrite length_fmap, <- length_map_to_list.
  pose proof (length_filter (λ kv : string * bytes, HasPrefix kv.1 p = true) (map_to_list o)). lia.
Qed.

Lemma query_prefix p token marker : Header_Get (list_query p token marker) "prefix" = p ∧
  Header_Get (list_query p token marker) "continuation-token" = token.
Proof.
  unfold Header_Get, list_query, set_if. split; repeat case_bool_decide; subst; by simplify_map_eq.
Qed.

Lemma length_token n : String.length (token_at n) = n.
Proof. unfold token_at. by rewrite <- length_chars, chars_of_chars, length_replicate. Qed.

Lemma LIST_law_ r s res s' p token marker : exchange base r s = (res, s') → asks r "GET" "" (list_query p token marker) →
  still s s' ∧ ∀ resp data page, res = Ok resp → StatusCode resp = 200 → ReadAll (Body resp) = Ok data →
    @Unmarshal_ListBucketResult Doc.codec data = inr page →
    ∃ rest, s_listing (objs s) p token marker = Contents page ++ rest ∧
      (IsTruncated page = false → rest = []) ∧
      (IsTruncated page = true → Contents page ≠ [] ∧
         (NextContinuationToken page ≠ "" → NextContinuationToken page ≠ token ∧
            s_listing (objs s) p (NextContinuationToken page) "" = rest) ∧
         (NextContinuationToken page = "" → next_marker page ≠ "" ∧ next_marker page ≠ marker ∧
            s_listing (objs s) p "" (next_marker page) = rest)).
Proof.
  intros H [Hm Hu]. destruct (query_prefix p token marker) as [Ep Et].
  destruct (read_only r s res s' (answer 200 ∅ (Doc.print (Doc.page_doc (page_at (objs s) p token)))) H) as [Hs Hresp].
  { unfold serve. rewrite Hu, Hm, Ep, Et. done. }
  split; [done|]. intros resp data page Hr Hst Hd Hpage. destruct (Hresp _ Hr) as [->|[[n ->]|Hst2]]; [|done|lia].
  injection Hd as <-. rewrite Doc.page_read in Hpage. injection Hpage as <-. unfold page_at.
  cbn [Contents IsTruncated NextContinuationToken]. exists (drop 2 (s_listing (objs s) p token "")). split_and!.
  - by rewrite take_drop.
  - intros E. apply negb_false_iff, bool_decide_eq_true in E. done.
  - intros E. apply negb_true_iff, bool_decide_eq_false in E. split_and!.
    + intros E2. apply E. apply nil_length_inv. rewrite length_drop. apply (f_equal length) in E2. rewrite length_take in E2. change (length (@nil FileInfo)) with 0%nat in E2. lia.
    + intros _. split.
      * intros E2%(f_equal String.length). rewrite length_token in E2. lia.
      * unfold s_listing. rewrite length_token, drop_drop. done.
    + intros E2%(f_equal String.length). rewrite length_token in E2. simpl in E2. lia.
Qed.

Definition laws : @NetLaws surroundings store (net base) Doc.codec base.
Proof.
  refine (@Build_NetLaws surroundings store (net base) Doc.codec base s_listing _ _ _ _ _ _ _ _ _ _ _ _ _ _ _ _).
  - intros. apply still_refl.
  - intros. apply still_refl.
  - done.
  - intros ctx. apply client_law.
  - intros ctx. apply HEAD_law_.
  - intros ctx. apply GET_law_.
  - intros ctx r w res w' k b H Hk Ha Hb. destruct (PUT_law_ _ _ _ _ _ _ H Hk Ha Hb) as (? & ? & ? & ?). by split; [split; [split|]|].
  - intros ctx r w res w' k H Hk Ha. destruct (DELETE_law_ _ _ _ _ _ H Hk Ha) as (? & ? & ? & ?). by split; [split; [split|]|].
  - intros ctx r w res w' k H Hk Ha. destruct (INITIATE_law_ _ _ _ _ _ H Hk Ha) as (? & ? & ? & ?). by split; [split; [|split]|].
  - intros ctx r w res w' k id n b parts H Hk Ha Hb Hup.
    destruct (PART_law_ _ _ _ _ _ _ _ _ _ H Hk Ha Hb Hup) as (? & ? & ? & ? & ?). by split; [split; [split; [|split]|]|].
  - intros ctx r w res w' k id l data parts n c H Hk Ha Hb Hm Hup Hs H1 H2 H3 H4.
    destruct (COMPLETE_law_ _ _ _ _ _ _ _ _ _ _ _ H Hk Ha Hb Hm Hup Hs H1 H2 H3 H4) as (? & ? & ? & ?). by split; [split; [|split]|].
  - intros ctx r w res w' k id H _ Ha Hup. exact (gone_answer r w w' k id res H Ha Hup).
  - intros ctx. apply ABORT_law_.
  - apply listing_law_.
  - intros w p. apply list_fuel_law_.
  - intros ctx. apply LIST_law_.
Defined.

End Contract.

End Server.
