(* ===== verification/HttpProps.v ===== *)
(** The properties of the HTTP client. *)

From stdpp Require Import sorting.
From S2P Require Import Prelude Errors Retry GoStrings Url Digest Store Paths Attempts ObjectStorage Retried Http HttpLaws HttpWrites HttpExample.
#[local] Open Scope Z_scope.

(** ** Keys below a prefix *)

Lemma unrooted_app prefix p : unrooted prefix → relative p → HasPrefix (prefix +:+ p) "/" = false.
Proof.
  intros Hp Hr. destruct prefix as [|c prefix]; [by apply relative_unrooted|]. unfold unrooted, HasPrefix in *. cbn in *. exact Hp.
Qed.

Lemma HasSuffix_app a p : p ≠ "" → HasSuffix (a +:+ p) "/" = HasSuffix p "/".
Proof.
  intros Hp. unfold HasSuffix. rewrite chars_app, reverse_app. assert (chars p ≠ []) as Hc by (intros E; apply Hp; by apply chars_inj).
  destruct (chars p) as [|c l _] using rev_ind; [done|]. by rewrite !reverse_snoc.
Qed.

Lemma relative_no_suffix p : relative p → p ≠ "" ∧ HasSuffix p "/" = false.
Proof.
  intros Hr. split; [by intros ->; vm_compute in Hr|]. apply not_true_is_false. intros Hs.
  pose proof (Split_nonempty p slash) as Hne. unfold relative in Hr. destruct (Split p slash) as [|e k _] eqn:E using rev_ind; [done|].
  pose proof (HasSuffix_slash _ _ _ Hs E) as ->. rewrite forallb_app in Hr. apply andb_true_iff in Hr as [_ Hr]. by vm_compute in Hr.
Qed.

Lemma prefixed_key prefix p : unrooted prefix → relative p → object_key (prefix +:+ p).
Proof.
  intros Hu Hr. destruct (relative_no_suffix p Hr) as [Hne Hs]. split_and!; [|by apply unrooted_app|by rewrite HasSuffix_app].
  intros E%(f_equal chars). rewrite chars_app in E. apply app_nil in E as [_ E]. apply Hne. by apply chars_inj.
Qed.

(** ** Properties *)

(** A bucket behind the REST interface, reached through
    [HTTPStorageClient], is a provider in the sense of ObjectStorage.v: against
    any store that keeps the contract of the interface, whatever requests
    and answers get lost, are repeated by the retry loop, time out, are
    answered with an error status or cut short, every operation returns, has
    taken effect completely or not at all, and what it reads is what the store
    holds; listings add up over any paging. *)
Theorem HTTPStorageClient_refines_provider {SU : Surroundings} {SV : StoreView} {CL : CalmLaws} {NT : Net} {XML : Xml} (h : HTTPStorageClient) (bucket : string)
    {NL : NetLaws (base_url (endpoint h) bucket)} :
  ∃ L : @ObjectStorageClientLaws (http_bucket h bucket),
    (∀ w : net, @objects _ L w = s_objects w) ∧ (∀ k, @valid_key _ L k ↔ object_key k).
Proof. exists (laws h bucket). by split. Qed.

Lemma HTTPStorageClient_refines_provider_witness :
  let SU := Server.surroundings in let SV := Server.store in let XML := Doc.codec in
  let h := NewHTTPStorageClient "https://store.example/" ∅ in let NT := Server.net (base_url (endpoint h) "b") in
  ∃ L : @ObjectStorageClientLaws (http_bucket h "b"),
    (∀ w : net, @objects _ L w = s_objects w) ∧ (∀ k, @valid_key _ L k ↔ object_key k).
Proof.
  intros SU SV XML h NT.
  exact (@HTTPStorageClient_refines_provider SU SV Server.calm NT XML h "b" (Server.laws (base_url (endpoint h) "b"))).
Defined.

(** C21. [ObjectStorage] over [HTTPStorageClient] keeps the contract of
    [Storage] that backups and restores rely on, for every prefix that does not
    begin with a slash. *)
Theorem HTTP_storage {SU : Surroundings} {SV : StoreView} {CL : CalmLaws} {NT : Net} {XML : Xml} (h : HTTPStorageClient) (bucket prefix : string)
    {NL : NetLaws (base_url (endpoint h) bucket)} :
  unrooted prefix →
  ∃ L : @StorageLaws (@storage (http_bucket h bucket) prefix),
    (∀ (w : net) (ws : list osw) p, @view _ L (w, ws) !! p = s_objects w !! (prefix +:+ p)) ∧
    (∀ w : net, @inv _ L (w, [])).
Proof.
  intros Hu. set (OL := laws h bucket).
  assert (∀ p, relative p → @valid_key _ OL (prefix +:+ p)) as Hvalid by (intros p Hp; by apply prefixed_key).
  exists (@ObjectStorage.laws _ OL prefix Hvalid). split; [intros w ws p; apply under_lookup|].
  intros w j x Hx. done.
Qed.

Lemma HTTP_storage_witness :
  let SU := Server.surroundings in let SV := Server.store in let XML := Doc.codec in
  let h := NewHTTPStorageClient "https://store.example/" ∅ in
  let NT := Server.net (base_url (endpoint h) "b") in let NL := Server.laws (base_url (endpoint h) "b") in
  ∃ L : @StorageLaws (@storage (http_bucket h "b") "backups/"),
    (∀ (w : net) (ws : list osw) p, @view _ L (w, ws) !! p = s_objects w !! ("backups/" +:+ p)) ∧
    (∀ w : net, @inv _ L (w, [])).
Proof.
  intros SU SV XML h NT NL. apply (@HTTP_storage SU SV Server.calm NT XML h "b" "backups/" NL). reflexivity.
Defined.

(** The URL of a request determines its key and its query: a server
    that splits the URL and undoes the escaping finds what the client meant, for
    every key without a slash at either end. *)
Theorem buildURL_roundtrip endpoint bucket k (q : gmap string string) : object_key k →
  decodeURL (base_url endpoint bucket) (buildURL endpoint bucket k (Encode q)) = (k, q).
Proof. intros Hk. rewrite decode_buildURL by done. by rewrite ParseQuery_Encode. Qed.

Lemma buildURL_roundtrip_witness :
  decodeURL (base_url "https://store.example/" "b/") (buildURL "https://store.example/" "b/" "a b/50%/x+y?" (Encode {["uploadId" := "i&d=/"; "partNumber" := "3"]})) =
    ("a b/50%/x+y?", {["uploadId" := "i&d=/"; "partNumber" := "3"]}).
Proof. apply (buildURL_roundtrip "https://store.example/" "b/" "a b/50%/x+y?"). repeat split; by vm_compute. Defined.

(** A completion lists every uploaded part once, with its tag, in
    strictly ascending order of part numbers, whatever the order of the map. *)
Theorem completed_parts_spec (etags : gmap Z string) :
  StronglySorted Z.lt (PartNumber <$> completed_parts etags) ∧
  ∀ n tag, {| PartNumber := n; ETag := tag |} ∈ completed_parts etags ↔ etags !! n = Some tag.
Proof. split; [apply completed_parts_sorted|]. intros n tag. apply completed_parts_elem. Qed.

(** A store with an object, and an upload of two parts to it. *)
Definition demo (uploads : gmap string (string * gmap Z (string * bytes))) (gone_404 : bool) (faults : list Server.fault) : Server.srv := {|
  Server.objs := {["k" := bytes_of_string "old"]}; Server.ups := uploads; Server.ids := {["u"]}; Server.cancelled := false;
  Server.gone_404 := gone_404; Server.schedule := faults |}.
Definition demo_upload : gmap string (string * gmap Z (string * bytes)) :=
  {["u" := ("k", {[1 := ("e", bytes_of_string "ne"); 2 := ("e", bytes_of_string "w")]})]}.
Definition demo_client : HTTPStorageClient := NewHTTPStorageClient "https://store.example" ∅.
Definition demo_complete : Server.srv → res unit * Server.srv :=
  @http_Complete Server.surroundings (Server.net (base_url "https://store.example" "b")) Doc.codec demo_client [] "b" "k" "u" {[1 := "e"; 2 := "e"]}.

(** When the answer to a completion is lost, the retry finds the upload
    gone.  If the store says so with status 404, as S3 does, [Complete]
    reports a failure although the object is committed: only the error
    document of a 200 answer leads to the check for the object. *)
Theorem Complete_lost_answer :
  (∃ e, (demo_complete (demo demo_upload true [Server.FLate])).1 = Err e ∧ errors_Is e ErrUploadNotFound = true) ∧
  Server.objs (demo_complete (demo demo_upload true [Server.FLate])).2 = {["k" := bytes_of_string "new"]} ∧
  (demo_complete (demo demo_upload false [Server.FLate])).1 = Ok tt.
Proof. split_and!; [eexists; split; vm_compute; reflexivity|vm_compute; reflexivity|vm_compute; reflexivity]. Qed.

(** The check accepts any object under the key: when the upload does
    not exist and the key holds an older object, [Complete] reports success and
    the object is still the old one. *)
Theorem Complete_accepts_old_object :
  demo_complete (demo ∅ false []) = (Ok tt, demo ∅ false []).
Proof. vm_compute. reflexivity. Qed.

(** Keys that differ in leading or trailing slashes share a URL,
    while listings are asked for by the prefix as it is. *)
Theorem buildURL_slashes endpoint bucket q :
  buildURL endpoint bucket "/a" q = buildURL endpoint bucket "a" q ∧ list_query "/a" "" "" ≠ list_query "a" "" "".
Proof.
  split; [done|]. intros E%(f_equal (λ m, m !! "prefix")). by vm_compute in E.
Qed.
