(* ===== verification/Sdk.v ===== *)
(** The calls that the S3 client ([storage_clients/s3/s3.go]) and the OCI
    client ([storage_clients/oci/oci.go]) make in the same way: a closure around
    one call of the provider's SDK, its error classified, inside the retry loop.

    The SDK is an interface.  What differs is a parameter: the name of the
    provider in messages, the name of the call that commits an upload, the type
    of part numbers, the classification of errors. *)

From S2P Require Import Prelude Errors Retry GoStrings Digest Store Attempts ObjectStorage Parts.
#[local] Open Scope Z_scope.

(** The calls of an SDK, with the pointers of its answers.  Its own retries are
    disabled. *)
Class Sdk {SU : Surroundings} := {
  HeadObject : list (Z * net) → string → string → M net (option Z);
  GetObject : list (Z * net) → string → string → option string → M net stream;
  sdk_PutObject : list (Z * net) → string → string → bytes → M net unit;
  sdk_DeleteObject : list (Z * net) → string → string → M net unit;
  CreateMultipartUpload : list (Z * net) → string → string → M net (option string);
  sdk_UploadPart : list (Z * net) → string → string → string → Z → bytes → M net (option string);
  CompleteMultipartUpload : list (Z * net) → string → string → string → list (Z * string) → M net unit;
  AbortMultipartUpload : list (Z * net) → string → string → string → M net unit;
}.

(** [rangeHeader]. *)
Definition rangeHeader (startByte endByte : Z) : res string :=
  if startByte <? 0 then Err (Errorf "start byte must be non-negative" [ESentinel ErrInvalidRange])
  else if endByte =? -1 then
    if startByte =? 0 then Ok "" else Ok ("bytes=" +:+ fmt_d startByte +:+ "-")
  else if endByte <? startByte then Err (Errorf "end byte before start byte" [ESentinel ErrInvalidRange])
  else Ok ("bytes=" +:+ fmt_d startByte +:+ "-" +:+ fmt_d endByte).

(** What differs between the clients. *)
Record dialect := {
  provider_name : string;
  complete_call : string;
  part_number : Z → Z;
  classifyError : string → error → bool → error;
}.

Section Calls.
Context {SU : Surroundings} {SDK : Sdk} (D : dialect) (retry : RetryPolicy).
Abbreviation context := (list (Z * net)).

(** A call of the SDK whose error is classified. *)
Definition classified {A} (op : string) (uploadOp : bool) (c : M net A) : M net A :=
  handle c (λ e, throw (classifyError D op e uploadOp)).

Definition retried {A} (ctx : context) (what : string) (t : Z) (zero : A) (fn : context → M net A) : M net A :=
  retry_do retry ctx (provider_name D +:+ what) t zero fn.

(** A value that the answer must hold. *)
Definition required (what : string) (x : option string) : M net string :=
  if bool_decide (default "" x = "") then throw (Errorf what [ESentinel ErrInvalidResponse]) else ret (default "" x).

Definition head_attempt (bucket key : string) (ctx : context) : M net Z :=
  let* len := classified "HeadObject" false (HeadObject ctx bucket key) in
  match len with
  | None => throw (Errorf "content length not returned" [ESentinel ErrInvalidResponse])
  | Some size => ret size
  end.

(** [GetObjectSize]. *)
Definition sdk_GetObjectSize (ctx : context) (bucket key : string) : M net Z :=
  retried ctx " head object" MetadataAttemptTimeout 0 (head_attempt bucket key).

(** [GetObjectRange]. *)
Definition sdk_GetObjectRange (ctx : context) (bucket key : string) (startByte endByte : Z) : M net stream :=
  let* rng := lift (rangeHeader startByte endByte) in
  let input := if bool_decide (rng = "") then None else Some rng in
  retried ctx " get object" 0 ([], None) (λ ctx, classified "GetObject" false (GetObject ctx bucket key input)).

(** [Initiate]. *)
Definition sdk_Initiate (ctx : context) (bucket key : string) : M net string :=
  retried ctx " initiate upload" MetadataAttemptTimeout ""
    (λ ctx, let* id := classified "CreateMultipartUpload" false (CreateMultipartUpload ctx bucket key) in
            required "no upload ID returned" id).

(** [UploadPart]. *)
Definition part_attempt (bucket key uploadID : string) (n : Z) (data : bytes) (ctx : context) : M net string :=
  let* etag := classified "UploadPart" true (sdk_UploadPart ctx bucket key uploadID (part_number D n) data) in
  required "no ETag returned" etag.
Definition client_UploadPart (ctx : context) (bucket key uploadID : string) (n : Z) (data : bytes) : M net string :=
  retried ctx " upload part" (UploadAttemptTimeout (blen data)) "" (part_attempt bucket key uploadID n data).

(** The parts of the request that completes an upload. *)
Definition parts_to_complete (etags : gmap Z string) : list (Z * string) :=
  (λ p, (part_number D p.1, p.2)) <$> sorted_parts etags.

(** One attempt at [Complete]: an upload that is gone may have been completed
    by an earlier attempt whose answer was lost. *)
Definition commit_attempt (bucket key uploadID : string) (parts : list (Z * string)) (ctx : context) : M net unit :=
  handle (classified (complete_call D) true (CompleteMultipartUpload ctx bucket key uploadID parts))
    (λ e, if errors_Is e ErrUploadNotFound
          then handle (let* _ := sdk_GetObjectSize ctx bucket key in ret tt) (λ _, throw e)
          else throw e).

(** [Complete]. *)
Definition sdk_Complete (ctx : context) (bucket key uploadID : string) (etags : gmap Z string) : M net unit :=
  retried ctx " complete upload" CompleteAttemptTimeout tt (commit_attempt bucket key uploadID (parts_to_complete etags)).

(** [PutObject]. *)
Definition client_PutObject (ctx : context) (bucket key : string) (data : bytes) : M net unit :=
  retried ctx " put object" (UploadAttemptTimeout (blen data)) tt (λ ctx, classified "PutObject" false (sdk_PutObject ctx bucket key data)).

(** [Abort]. *)
Definition sdk_Abort (ctx : context) (bucket key uploadID : string) : M net unit :=
  handle (retried ctx " abort upload" MetadataAttemptTimeout tt
            (λ ctx, classified "AbortMultipartUpload" true (AbortMultipartUpload ctx bucket key uploadID)))
    (λ e, if errors_Is e ErrUploadNotFound then ret tt else throw e).

(** [DeleteObject]. *)
Definition client_DeleteObject (ctx : context) (bucket key : string) : M net unit :=
  retried ctx " delete object" MetadataAttemptTimeout tt (λ ctx, classified "DeleteObject" false (sdk_DeleteObject ctx bucket key)).

(** Listings: pages are fetched until one says that it is the last; a page
    tells its items and the token of the next page. *)
Fixpoint paged {P A} (fuel : nat) (fetch : option string → M net P) (step : P → res (list A * option string))
    (token : option string) (items : list A) : M net (list A) :=
  match fuel with
  | O => lift OutOfFuel
  | S fuel =>
      let* page := fetch token in
      let* next := lift (step page) in
      let items := items ++ next.1 in
      match next.2 with
      | None => ret items
      | Some token => paged fuel fetch step (Some token) items
      end
  end.

End Calls.

(** A bucket as the program's provider, under the caller's context. *)
Definition sdk_bucket {SU : Surroundings} {SDK : Sdk} (D : dialect) (retry : RetryPolicy)
    (ListObjects : string → M net (list FileInfo)) (bucket : string) : ObjectStorageClient := {|
  world := net;
  Initiate k := sdk_Initiate D retry [] bucket k;
  UploadPart k id n b := client_UploadPart D retry [] bucket k id n b;
  Complete k id tags := sdk_Complete D retry [] bucket k id tags;
  Abort k id := sdk_Abort D retry [] bucket k id;
  PutObject k b := client_PutObject D retry [] bucket k b;
  DeleteObject k := client_DeleteObject D retry [] bucket k;
  ObjectStorage.ListObjects := ListObjects;
  GetObjectSize k := sdk_GetObjectSize D retry [] bucket k;
  GetObjectRange k a z := sdk_GetObjectRange D retry [] bucket k a z;
|}.
