(* ===== verification/SdkLaws.v ===== *)
(** What the S3 and OCI clients do against an SDK that behaves as documented:
    they keep the contract of a provider that ObjectStorage.v relies on.  What a
    client needs of its classification of errors is a class of its own
    ([DialectLaws]), discharged for each of them. *)

From stdpp Require Import sorting.
From S2P Require Import Prelude Errors Retry GoStrings Digest Store Attempts ObjectStorage Parts Retried Sdk.
#[local] Open Scope Z_scope.

(** An error of an SDK: none of the program's own. *)
Definition foreign (e : error) : Prop := errors_Is e ErrNotFound = false ∧ errors_Is e ErrUploadNotFound = false.

(** Errors that the classification takes for a missing object, or for an
    upload that is gone, say so. *)
Class DialectLaws (D : dialect) (missing gone : error → bool) := {
  classify_missing op e up : foreign e → errors_Is (classifyError D op e up) ErrNotFound = true → missing e = true;
  classify_gone op e : foreign e → errors_Is (classifyError D op e true) ErrUploadNotFound = true → gone e = true;
  part_number_law n : 1 ≤ n ≤ maxMultipartParts → part_number D n = n;
}.

(** The documented behaviour of the calls on a bucket. *)
Class SdkLaws {SU : Surroundings} {SV : StoreView} {SDK : Sdk} (bucket : string) (missing gone : error → bool) := {
  Head_law ctx k w r w' : k ≠ "" → HeadObject ctx bucket k w = (r, w') →
    unchanged w w' ∧ returns r ∧
    (∀ n, r = Ok (Some n) → ∃ b, s_objects w !! k = Some b ∧ n = blen b) ∧
    (∀ e, r = Err e → foreign e ∧ (missing e = true → s_objects w !! k = None));
  Get_law ctx k rng w r w' : k ≠ "" → GetObject ctx bucket k rng w = (r, w') →
    unchanged w w' ∧ returns r ∧
    (∀ body, r = Ok body →
       (∀ e, body.2 = Some e → errors_Is e ErrNotFound = false) ∧
       (rng = None → ∃ b, s_objects w !! k = Some b ∧ delivers body b) ∧
       (∀ a z, 0 ≤ a → z = -1 ∨ a ≤ z → rng = Some (range_value a z) → ∃ b, s_objects w !! k = Some b ∧ delivers body (range_of a z b))) ∧
    (∀ e, r = Err e → foreign e ∧ (missing e = true → s_objects w !! k = None));
  Put_law ctx k b w r w' : k ≠ "" → sdk_PutObject ctx bucket k b w = (r, w') →
    maybe (insert k b) w w' ∧ returns r ∧ (∀ u, r = Ok u → s_objects w' = <[k := b]> (s_objects w));
  Delete_law ctx k w r w' : k ≠ "" → sdk_DeleteObject ctx bucket k w = (r, w') →
    maybe (delete k) w w' ∧ returns r ∧ (∀ u, r = Ok u → s_objects w' = delete k (s_objects w)) ∧
    (∀ e, r = Err e → foreign e ∧ (missing e = true → s_objects w' !! k = None));
  Create_law ctx k w r w' : k ≠ "" → CreateMultipartUpload ctx bucket k w = (r, w') →
    grows w w' ∧ returns r ∧
    (∀ id, r = Ok (Some id) → id ≠ "" → (id ∉ s_issued w) ∧ id ∈ s_issued w' ∧ s_uploads w' id = Some (k, ∅));
  Part_law ctx k id n b w r w' parts : k ≠ "" → 1 ≤ n ≤ maxMultipartParts → sdk_UploadPart ctx bucket k id n b w = (r, w') →
    s_uploads w id = Some (k, parts) →
    with_part k id n b parts w w' ∧ returns r ∧
    (∀ etag, r = Ok (Some etag) → etag ≠ "" → s_uploads w' id = Some (k, <[n := (etag, b)]> parts));
  Commit_law ctx k id l w r w' parts n c : k ≠ "" → CompleteMultipartUpload ctx bucket k id l w = (r, w') →
    s_uploads w id = Some (k, parts) → StronglySorted Z.lt l.*1 →
    (∀ m t, (m, t) ∈ l ↔ ∃ b, parts !! m = Some (t, b)) →
    (∀ i, is_Some (parts !! i) ↔ 1 ≤ i ≤ Z.of_nat n) → parts_upto n parts = Some c →
    settled k id parts c w w' ∧ returns r ∧
    (∀ u, r = Ok u → s_objects w' = <[k := c]> (s_objects w)) ∧ (∀ e, r = Err e → foreign e ∧ gone e = false);
  Commit_gone_law ctx k id l w r w' : k ≠ "" → CompleteMultipartUpload ctx bucket k id l w = (r, w') →
    s_uploads w id = None → unchanged w w' ∧ returns r ∧ (∀ e, r = Err e → foreign e);
  Cancel_law ctx k id w r w' : k ≠ "" → AbortMultipartUpload ctx bucket k id w = (r, w') → own id w w' ∧ returns r;
}.

Section Laws.
Context {SU : Surroundings} {SV : StoreView} {CL : CalmLaws} {SDK : Sdk} (D : dialect) (retry : RetryPolicy) (bucket : string).
Context (missing gone : error → bool) {DL : DialectLaws D missing gone} {KL : SdkLaws bucket missing gone}.
Abbreviation context := (list (Z * net)).

(** A classified call: the answer, or the error in its class. *)
Lemma classified_inv {A} op up (c : M net A) w r w' : classified D op up c w = (r, w') →
  ∃ r0, c w = (r0, w') ∧
    ((∀ e, r0 ≠ Err e) ∧ r = r0 ∨ ∃ e, r0 = Err e ∧ r = Err (classifyError D op e up)).
Proof.
  unfold classified, handle. destruct (c w) as [[a|e| |] w1]; intros [= <- <-]; eexists; (split; [done|]); [by left|right; eauto|by left|by left].
Qed.

Lemma required_inv what x (w : net) r w' : required what x w = (r, w') →
  w' = w ∧ ((∃ y, x = Some y ∧ y ≠ "" ∧ r = Ok y) ∨ ∃ e, r = Err e).
Proof.
  unfold required. case_bool_decide as E; intros [= <- <-]; (split; [done|]); [by right; eexists|left].
  destruct x as [y|]; [by exists y|done].
Qed.

(** ** Reading *)

Lemma head_attempt_spec k ctx w r w' : k ≠ "" → head_attempt D bucket k ctx w = (r, w') →
  reads_as w r w' (λ m n, ∃ b, m !! k = Some b ∧ n = blen b) (λ m, m !! k = None).
Proof.
  intros Hk. unfold head_attempt, bind. destruct (classified D "HeadObject" false (HeadObject ctx bucket k) w) as [r1 w1] eqn:E.
  apply classified_inv in E as (r0 & H & Hc). destruct (Head_law _ _ _ _ _ Hk H) as (Hu & Hr & Hok & Herr).
  destruct Hc as [[Hne ->]|(e & -> & ->)].
  - destruct r0 as [[n|]|e| |]; [| |by destruct (Hne e)|by destruct Hr as [[]|[]]..]; intros [= <- <-]; [|by apply reads_err].
    apply reads_ok; [done|]. by apply Hok.
  - intros [= <- <-]. destruct (Herr e eq_refl) as [Hf Hm]. apply reads_err; [done|]. intros Hn. by eapply Hm, classify_missing.
Qed.

Lemma sdk_GetObjectSize_spec k ctx w r w' : k ≠ "" → sdk_GetObjectSize D retry ctx bucket k w = (r, w') →
  reads_as w r w' (λ m n, ∃ b, m !! k = Some b ∧ n = blen b) (λ m, m !! k = None).
Proof. intros Hk. apply retried_read. intros c w1 r1 w2. by apply head_attempt_spec. Qed.

Lemma rangeHeader_spec a z rng : rangeHeader a z = Ok rng →
  0 ≤ a ∧ (z = -1 ∨ a ≤ z) ∧ (if bool_decide (rng = "") then a = 0 ∧ z = -1 else rng = range_value a z).
Proof.
  unfold rangeHeader, range_value. destruct (Z.ltb_spec a 0); [done|].
  destruct (Z.eqb_spec z (-1)) as [->|]; [destruct (Z.eqb_spec a 0) as [->|]|destruct (Z.ltb_spec z a); [done|]];
    intros [= <-]; (split; [done|]); (split; [by auto|]); [by rewrite bool_decide_true|by rewrite bool_decide_false..].
Qed.

Lemma get_attempt_spec k rng a z ctx w r w' : k ≠ "" → rangeHeader a z = Ok rng →
  classified D "GetObject" false (GetObject ctx bucket k (if bool_decide (rng = "") then None else Some rng)) w = (r, w') →
  reads_as w r w' (range_post k a z) (λ m, m !! k = None).
Proof.
  intros Hk (Ha & Hz & Hrng)%rangeHeader_spec (r0 & H & Hc)%classified_inv.
  destruct (Get_law _ _ _ _ _ _ Hk H) as (Hu & Hr & Hok & Herr). destruct Hc as [[Hne ->]|(e & -> & ->)].
  - destruct r0 as [body|e| |]; [|by destruct (Hne e)|by destruct Hr as [[]|[]]..]. apply reads_ok; [done|].
    destruct (Hok body eq_refl) as (Hb & Hall & Hpart). case_bool_decide.
    + destruct Hrng as [-> ->]. destruct (Hall eq_refl) as (b & Hkb & Hd). by eapply delivers_post.
    + destruct (Hpart a z Ha Hz) as (b & Hkb & Hd); [by f_equal|]. by eapply delivers_post.
  - destruct (Herr e eq_refl) as [Hf Hm]. apply reads_err; [done|]. intros Hn. by eapply Hm, classify_missing.
Qed.

Lemma sdk_GetObjectRange_spec k a z ctx w r w' : k ≠ "" → sdk_GetObjectRange D retry ctx bucket k a z w = (r, w') →
  reads_as w r w' (λ m s, range_post k a z m s ∧ (z = -1 ∨ 0 ≤ z)) (λ m, m !! k = None).
Proof.
  intros Hk. unfold sdk_GetObjectRange, bind at 1, lift. destruct (rangeHeader a z) as [rng|e| |] eqn:E.
  - apply retried_read. intros c w1 r1 w2 H. destruct (get_attempt_spec k rng a z _ _ _ _ Hk E H) as (Hu & Hr & Hok & Hnf).
    apply rangeHeader_spec in E as (Ha & Hz & _). split_and!; [done|done| |done]. intros s Hs. split; [by apply Hok|lia].
  - intros [= <- <-]. apply reads_err; [apply unchanged_refl|]. unfold rangeHeader in E. repeat case_match; simplify_eq; done.
  - unfold rangeHeader in E. by repeat case_match.
  - unfold rangeHeader in E. by repeat case_match.
Qed.

(** ** Objects *)

Lemma put_call_spec k b ctx w r w' : k ≠ "" → classified D "PutObject" false (sdk_PutObject ctx bucket k b) w = (r, w') →
  writes_as w r w' (insert k b) (λ _, True).
Proof.
  intros Hk (r0 & H & Hc)%classified_inv. destruct (Put_law _ _ _ _ _ _ Hk H) as (Hm & Hr & Hok).
  destruct Hc as [[Hne ->]|(e & -> & ->)]; [|by apply writes_err].
  destruct r0 as [[]|e| |]; [|by destruct (Hne e)|by destruct Hr as [[]|[]]..]. apply writes_ok; [done|by eapply Hok].
Qed.

Lemma client_PutObject_spec k b ctx w r w' : k ≠ "" → client_PutObject D retry ctx bucket k b w = (r, w') →
  writes_as w r w' (insert k b) (λ _, True).
Proof. intros Hk. apply retried_write; [apply insert_idem|]. intros c w1 r1 w2. by apply put_call_spec. Qed.

Lemma delete_call_spec k ctx w r w' : k ≠ "" → classified D "DeleteObject" false (sdk_DeleteObject ctx bucket k) w = (r, w') →
  writes_as w r w' (delete k) (λ m, m !! k = None).
Proof.
  intros Hk (r0 & H & Hc)%classified_inv. destruct (Delete_law _ _ _ _ _ Hk H) as (Hm & Hr & Hok & Herr).
  destruct Hc as [[Hne ->]|(e & -> & ->)].
  - destruct r0 as [[]|e| |]; [|by destruct (Hne e)|by destruct Hr as [[]|[]]..]. apply writes_ok; [done|by eapply Hok].
  - destruct (Herr e eq_refl) as [Hf Hmiss]. apply writes_err; [done|]. intros Hn. by eapply Hmiss, classify_missing.
Qed.

Lemma client_DeleteObject_spec k ctx w r w' : k ≠ "" → client_DeleteObject D retry ctx bucket k w = (r, w') →
  writes_as w r w' (delete k) (λ m, m !! k = None).
Proof. intros Hk. apply retried_write; [apply delete_idem_key|]. intros c w1 r1 w2. by apply delete_call_spec. Qed.

(** ** Multipart uploads *)

Lemma sdk_Initiate_spec k ctx w r w' : k ≠ "" → sdk_Initiate D retry ctx bucket k w = (r, w') → initiates k w r w'.
Proof.
  intros Hk. apply retried_initiate. intros c w1 r1 w2. unfold bind.
  destruct (classified D _ false (CreateMultipartUpload c bucket k) w1) as [r0 w0] eqn:E.
  apply classified_inv in E as (r3 & H & Hc). destruct (Create_law _ _ _ _ _ Hk H) as (Hg & Hr & Hok).
  destruct Hc as [[Hne ->]|(e & -> & ->)]; [|intros [= <- <-]; by apply initiates_err].
  destruct r3 as [id|e| |]; [|by destruct (Hne e)|by destruct Hr as [[]|[]]..].
  intros (-> & [(y & -> & Hy & ->)|[e ->]])%required_inv; [|by apply initiates_err].
  split_and!; [done|by left; eexists|]. intros ? [= <-]. split; [done|by apply Hok].
Qed.

Lemma part_attempt_spec k id n b parts ctx w r w' : k ≠ "" → 1 ≤ n ≤ maxMultipartParts → s_uploads w id = Some (k, parts) →
  part_attempt D bucket k id n b ctx w = (r, w') → uploads_part k id n b parts w r w'.
Proof.
  intros Hk Hn Hup. unfold part_attempt, bind. rewrite part_number_law by done.
  destruct (classified D _ true (sdk_UploadPart ctx bucket k id n b) w) as [r0 w0] eqn:E.
  apply classified_inv in E as (r3 & H & Hc). destruct (Part_law _ _ _ _ _ _ _ _ _ Hk Hn H Hup) as (Hp & Hr & Hok).
  destruct Hc as [[Hne ->]|(e & -> & ->)]; [|intros [= <- <-]; by apply uploads_err].
  destruct r3 as [etag|e| |]; [|by destruct (Hne e)|by destruct Hr as [[]|[]]..].
  intros (-> & [(y & -> & Hy & ->)|[e ->]])%required_inv; [|by apply uploads_err].
  split_and!; [done|by left; eexists|]. intros ? [= <-]. by apply Hok.
Qed.

Lemma client_UploadPart_spec k id n b parts ctx w r w' : k ≠ "" → 1 ≤ n ≤ maxMultipartParts → s_uploads w id = Some (k, parts) →
  client_UploadPart D retry ctx bucket k id n b w = (r, w') → uploads_part k id n b parts w r w'.
Proof. intros Hk Hn Hup. apply retried_part; [done|]. intros c w1 r1 w2 parts1. by apply part_attempt_spec. Qed.

Lemma sdk_Abort_spec k id ctx w r w' : k ≠ "" → sdk_Abort D retry ctx bucket k id w = (r, w') → own id w w' ∧ returns r.
Proof.
  intros Hk. unfold sdk_Abort, handle. destruct (retried _ _ _ _ _ _ _ w) as [r1 w1] eqn:H.
  apply (retried_own id) in H as [Ho Hr].
  - destruct r1 as [[]|e| |]; [intros [= <- <-]; done| |by destruct Hr as [[]|[]]..].
    destruct (errors_Is e ErrUploadNotFound); intros [= <- <-]; (split; [done|]); [by left; eexists|by right; eexists].
  - intros c w2 r2 w3 (r3 & E & Hc)%classified_inv. destruct (Cancel_law _ _ _ _ _ _ Hk E) as [Ho Hr].
    split; [done|]. destruct Hc as [[_ ->]|(e & _ & ->)]; [done|by right; eexists].
Qed.

(** ** Completion *)

Section Completion.
Context (k id : string) (k_valid : k ≠ "") (parts : gmap Z (string * bytes)) (n : nat) (c : bytes).
Context (parts_dom : ∀ i, is_Some (parts !! i) ↔ 1 ≤ i ≤ Z.of_nat n) (n_max : Z.of_nat n ≤ maxMultipartParts) (parts_content : parts_upto n parts = Some c).

(** The request lists the parts of the upload. *)
Lemma parts_to_complete_eq : parts_to_complete D (fst <$> parts) = sorted_parts (fst <$> parts).
Proof.
  unfold parts_to_complete. rewrite <- (list_fmap_id (sorted_parts (fst <$> parts))) at 2. apply list_fmap_ext.
  intros i [m t] Hi%list_elem_of_lookup_2. apply sorted_parts_of in Hi as [b Hb]. cbn.
  rewrite part_number_law; [done|]. assert (1 ≤ m ≤ Z.of_nat n) by (apply parts_dom; by eexists). lia.
Qed.

Lemma commit_call ctx w w1 r w2 : settled k id parts c w w1 →
  CompleteMultipartUpload ctx bucket k id (parts_to_complete D (fst <$> parts)) w1 = (r, w2) →
  settled k id parts c w w2 ∧ returns r ∧ (∀ u, r = Ok u → s_objects w2 = <[k := c]> (s_objects w)) ∧
  (∀ e, r = Err e → foreign e ∧ (gone e = true → s_objects w2 = <[k := c]> (s_objects w))).
Proof.
  rewrite parts_to_complete_eq. intros (Hi & Hu & [[Ho E]|[Ho E]]) H.
  - destruct (Commit_gone_law _ _ _ _ _ _ _ k_valid H E) as (Hun & Hr & Herr).
    assert (s_objects w2 = <[k := c]> (s_objects w)) as Ho2 by (by rewrite (proj1 Hun)).
    split_and!; [|done|done|intros e He; split; [by apply Herr|done]].
    eapply settled_unchanged; [|done]. split_and!; [done|done|by left].
  - destruct (Commit_law _ _ _ _ _ _ _ parts n c k_valid H E) as ((Hi2 & Hu2 & Hc2) & Hr & Hok & Herr);
      [apply sorted_parts_sorted|intros m t; apply sorted_parts_of|done|done|]. rewrite Ho in Hc2, Hok.
    split_and!; [split_and!; [set_solver|intros; by rewrite Hu2, Hu|done]|done|done|].
    intros e He. destruct (Herr e He) as [Hf Hg]. split; [done|congruence].
Qed.

Lemma commit_attempt_spec ctx w w1 r w2 : settled k id parts c w w1 →
  commit_attempt D retry bucket k id (parts_to_complete D (fst <$> parts)) ctx w1 = (r, w2) →
  settled k id parts c w w2 ∧ returns r ∧ (∀ u, r = Ok u → s_objects w2 = <[k := c]> (s_objects w)).
Proof.
  intros Hs. unfold commit_attempt, handle at 1.
  destruct (classified D _ true _ w1) as [r1 w3] eqn:E. apply classified_inv in E as (r0 & H & Hc).
  destruct (commit_call _ _ _ _ _ Hs H) as (Hs3 & Hr & Hok & Herr). destruct Hc as [[Hne ->]|(e & -> & ->)].
  { destruct r0 as [[]|e| |]; [intros [= <- <-]; done|by destruct (Hne e)|by destruct Hr as [[]|[]]..]. }
  destruct (Herr e eq_refl) as [Hf Hg]. destruct (errors_Is _ _) eqn:Eg; [|intros [= <- <-]; split_and!; [done|by right; eexists|done]].
  apply classify_gone in Eg; [|done]. specialize (Hg Eg). unfold handle, bind.
  destruct (sdk_GetObjectSize D retry ctx bucket k w3) as [r5 w5] eqn:E5.
  destruct (sdk_GetObjectSize_spec _ _ _ _ _ k_valid E5) as (Hu5 & Hr5 & _).
  destruct r5 as [sz|e5| |]; [| |by destruct Hr5 as [[]|[]]..]; intros [= <- <-];
    (split_and!; [by eapply settled_unchanged| |]); [by left; eexists|by rewrite (proj1 Hu5)|by right; eexists|done].
Qed.

Lemma sdk_Complete_spec ctx w r w' : s_uploads w id = Some (k, parts) →
  sdk_Complete D retry ctx bucket k id (fst <$> parts) w = (r, w') → completes k id c w r w'.
Proof. intros Hup. apply (retried_complete _ _ parts); [done|]. intros ctx1 w1 r1 w2 Hs Hf. by eapply commit_attempt_spec. Qed.

End Completion.

(** ** Listings *)

(** What a page says of the list it belongs to, [after token] being what
    follows [token] and [left token] the number of pages left. *)
Definition page_of {A} (after : option string → list A) (left : option string → nat) (token : option string)
    (page : res (list A * option string)) : Prop :=
  fails page ∨ ∃ items next, page = Ok (items, next) ∧
    match next with
    | None => after token = items
    | Some t => after token = items ++ after (Some t) ∧ (left (Some t) < left token)%nat
    end.

(** The pages add up, and the fuel is enough. *)
Lemma paged_spec {P A} (fetch : option string → M net P) step (after : gmap string bytes → option string → list A) left
    fuel token acc w r w' :
  (∀ t w1 r1 w2, fetch t w1 = (r1, w2) → reads_as w1 r1 w2 (λ m page, page_of (after m) (left m) t (step page)) (λ _, True)) →
  (left (s_objects w) token < fuel)%nat → paged fuel fetch step token acc w = (r, w') →
  unchanged w w' ∧ returns r ∧ (∀ l, r = Ok l → l = acc ++ after (s_objects w) token).
Proof.
  intros Hfetch. revert token acc w. induction fuel as [|fuel IH]; intros token acc w Hlen; [lia|]. cbn [paged].
  intros [(page & w1 & (Hu & _ & Hok & _)%Hfetch & H)|(r1 & (Hu & Hr & _)%Hfetch & _ & Hn & _ & Hf)]%bind_inv.
  2:{ split_and!; [done|right; by apply Hf|]. intros l Hl. by destruct (Hn l). }
  destruct (Hok page eq_refl) as [[e E]|(items & next & E & Hnext)]; rewrite E in H; cbn in H.
  { injection H as <- <-. split_and!; [done|by right; eexists|done]. }
  destruct next as [t|]; cbn in H.
  - destruct Hnext as [Ha Hl]. rewrite <- (proj1 Hu) in Ha, Hl, Hlen. destruct (IH (Some t) (acc ++ items) w1) as (Hu2 & Hr & Hres); [lia|done|].
    rewrite <- (proj1 Hu), Ha. split_and!; [by eapply unchanged_trans|done|]. intros l ->%Hres. by rewrite app_assoc.
  - injection H as <- <-. rewrite Hnext. split_and!; [done|by left; eexists|]. by intros l [= <-].
Qed.

(** A page that is fetched in the retry loop. *)
Lemma fetched {P A} op what t (zero : P) (call : context → M net P) (step : P → res (list A * option string)) after left token ctx w r w' :
  (∀ c w1 r1 w2, call c w1 = (r1, w2) → unchanged w1 w2 ∧ returns r1 ∧
     ∀ page, r1 = Ok page → page_of (after (s_objects w1)) (left (s_objects w1)) token (step page)) →
  retried D retry ctx what t zero (λ ctx, classified D op false (call ctx)) w = (r, w') →
  reads_as w r w' (λ m page, page_of (after m) (left m) token (step page)) (λ _, True).
Proof.
  intros Hcall. apply retried_read. intros c w1 r1 w2 (r0 & (Hu & Hr & Hok)%Hcall & Hc)%classified_inv.
  destruct Hc as [[Hne ->]|(e & -> & ->)]; [|by apply reads_err]. by split_and!.
Qed.

(** ** The client as a provider *)

(** For any listing of the bucket that reads the keys under a prefix. *)
Definition sdk_laws (list_objects : string → M net (list FileInfo))
    (list_law : ∀ p w r w', list_objects p w = (r, w') → unchanged w w' ∧ returns r ∧
       ∀ l, r = Ok l → ∀ n, n ∈ fi_Name <$> l ↔ n ∈ dom (s_objects w) ∧ HasPrefix n p = true) :
  @ObjectStorageClientLaws (sdk_bucket D retry list_objects bucket).
Proof.
  refine {|
    valid_key k := k ≠ "";
    objects := s_objects : @world (sdk_bucket D retry list_objects bucket) → gmap string bytes;
    uploads := s_uploads : @world (sdk_bucket D retry list_objects bucket) → string → option (string * gmap Z (string * bytes));
    issued := s_issued : @world (sdk_bucket D retry list_objects bucket) → gset string;
  |}.
  - intros k w r w' Hk ((Ho & Hu & Hi) & Hr & Hok)%sdk_Initiate_spec; [|done]. by split_and!.
  - intros k id n b w r w' parts Hk Hn H Hup. eapply client_UploadPart_spec in H as ([(Ho & Hi & Hu) _] & Hr & Hok); [|done..].
    split_and!; [done|done|done|done|]. intros id' x Hne. by rewrite Hu.
  - intros k id tags w r w' parts n c Hk H Hup -> Hdom Hn Hc.
    destruct (sdk_Complete_spec k id Hk parts n c Hdom Hn Hc _ _ _ _ Hup H) as (Hi & Hr & Ho & Hu).
    split_and!; [done|done|done|]. intros id' x Hne. by rewrite Hu.
  - intros k id w r w' Hk [(Ho & Hi & Hu) Hr]%sdk_Abort_spec; [|done]. split_and!; [done|done|done|]. intros id' x Hne. by rewrite Hu.
  - intros k b w r w' Hk ([Hu Hi] & Hr & Ho)%client_PutObject_spec%writes_result; [|done]. split_and!; [by apply same_keeps_uploads|done|done|done].
  - intros k w r w' Hk Hw%client_DeleteObject_spec; [|done]. destruct (writes_result _ _ _ _ _ Hw) as ([Hu Hi] & Hr & Ho).
    split_and!; [by apply same_keeps_uploads|done..|by apply Hw].
  - intros p w r w' ((Ho & Hu & Hi) & Hr & Hl)%list_law. split_and!; [done|done|by apply same_keeps_uploads|done|done].
  - intros k w r w' Hk H. destruct (sdk_GetObjectSize_spec k [] w r w' Hk H) as ((Ho & Hu & Hi) & Hr & Hok & Hnf).
    split_and!; [done|done|by apply same_keeps_uploads|done..].
  - intros k a z w r w' Hk _ H. destruct (sdk_GetObjectRange_spec k a z [] w r w' Hk H) as ((Ho & Hu & Hi) & Hr & Hok & Hnf).
    split_and!; [done|done|by apply same_keeps_uploads|done| |done]. intros b e ->.
    destruct (Hok _ eq_refl) as [Hpost Hzz]. by apply range_post_law.
Defined.

End Laws.
