(* ===== verification/S3.v ===== *)
(** The S3 client ([storage_clients/s3/s3.go]): its classification of errors, its
    listings, and the calls of Sdk.v in its dialect. *)

From S2P Require Import Prelude Errors Retry GoStrings Digest Store Attempts ObjectStorage Parts Sdk.
#[local] Open Scope Z_scope.

(** ** Errors *)

(** What [errors.As] finds in an error of the AWS SDK: the status of the
    response, the code of the API error, the typed errors. *)
Class S3Errors := {
  ResponseError : error → option Z;
  APIError : error → option string;
  As_NoSuchKey : error → bool;
  As_NotFound : error → bool;
  As_NoSuchBucket : error → bool;
  As_NoSuchUpload : error → bool;
}.

Section Errors.
Context {SE : S3Errors}.

Definition s3_status (err : error) : Z := default 0 (ResponseError err).
Definition s3_code (err : error) : string := default "" (APIError err).

(** [isNotFound]. *)
Definition isNotFound (err : error) : bool :=
  As_NoSuchKey err || As_NotFound err || As_NoSuchBucket err ||
  bool_decide (s3_code err = "NoSuchKey") || bool_decide (s3_code err = "NotFound") || bool_decide (s3_code err = "NoSuchBucket").
(** [isUploadGone]. *)
Definition isUploadGone (err : error) (uploadOp : bool) : bool :=
  As_NoSuchUpload err || bool_decide (s3_code err = "NoSuchUpload") || uploadOp && (s3_status err =? StatusNotFound).

(** The error with its status. *)
Definition s3_with_status (op : string) (err : error) : error :=
  if negb (s3_status err =? 0) && negb (bool_decide (s3_code err = "RequestTimeout"))
  then EStatus op (s3_status err) (Some err) 0 else Errorf op [err].

(** [classifyError] of an error. *)
Definition s3_classifyError (op : string) (err : error) (uploadOp : bool) : error :=
  let out := s3_with_status op err in
  let out :=
    if isNotFound err && negb (errors_Is out ErrNotFound) then Errorf "" [ESentinel ErrNotFound; out] else out in
  if isUploadGone err uploadOp then Errorf "" [ESentinel ErrUploadNotFound; out] else out.

End Errors.

Definition s3_dialect {SE : S3Errors} : dialect := {|
  provider_name := "s3"; complete_call := "CompleteMultipartUpload"; part_number := i32; classifyError := s3_classifyError |}.

(** ** Listings *)

(** [s3.ListObjectsV2Output], as far as the client reads it: keys and sizes
    of the objects are pointers. *)
Record ListObjectsV2Output := {
  s3_Contents : list (option string * option Z);
  s3_IsTruncated : option bool;
  s3_NextContinuationToken : option string;
}.

Class S3Lists {SU : Surroundings} := {
  ListObjectsV2 : list (Z * net) → string → string → option string → M net ListObjectsV2Output;
  sdk_ListBuckets : list (Z * net) → option string → M net (list (option string) * option string);
  s3_list_fuel : net → nat;
}.

Section Client.
Context {SU : Surroundings} {SE : S3Errors} {SL : S3Lists} (retry : RetryPolicy).
Abbreviation context := (list (Z * net)).

(** A page of objects and where the listing goes on. *)
Definition s3_infos (resp : ListObjectsV2Output) : list FileInfo :=
  (λ o : option string * option Z, {| fi_Name := default "" o.1; fi_Size := default 0 o.2 |}) <$> s3_Contents resp.
Definition s3_objects (resp : ListObjectsV2Output) : res (list FileInfo * option string) :=
  let objects := s3_infos resp in
  if negb (default false (s3_IsTruncated resp)) then Ok (objects, None)
  else if bool_decide (default "" (s3_NextContinuationToken resp) = "")
  then Err (Errorf "truncated listing without continuation token" [ESentinel ErrInvalidResponse])
  else Ok (objects, s3_NextContinuationToken resp).

Definition s3_page (ctx : context) (bucket prefix : string) (token : option string) : M net ListObjectsV2Output :=
  retried s3_dialect retry ctx " list objects" MetadataAttemptTimeout
    {| s3_Contents := []; s3_IsTruncated := None; s3_NextContinuationToken := None |}
    (λ ctx, classified s3_dialect "ListObjectsV2" false (ListObjectsV2 ctx bucket prefix token)).

(** [S3Client.ListObjects]. *)
Definition s3_ListObjects (ctx : context) (bucket prefix : string) : M net (list FileInfo) := λ w,
  paged (s3_list_fuel w) (s3_page ctx bucket prefix) s3_objects None [] w.

(** A page of bucket names. *)
Definition s3_bucket_names (resp : list (option string) * option string) : res (list string * option string) :=
  let names := default "" <$> resp.1 in
  if bool_decide (default "" resp.2 = "") then Ok (names, None) else Ok (names, resp.2).

(** [S3Client.ListBuckets]. *)
Definition s3_ListBuckets (ctx : context) : M net (list string) := λ w,
  paged (s3_list_fuel w)
    (λ token, retried s3_dialect retry ctx " list buckets" MetadataAttemptTimeout ([], None)
                (λ ctx, classified s3_dialect "ListBuckets" false (sdk_ListBuckets ctx token)))
    s3_bucket_names None [] w.

End Client.

(** ** The client *)

Definition s3_bucket {SU : Surroundings} {SDK : Sdk} {SE : S3Errors} {SL : S3Lists} (bucket : string) : ObjectStorageClient :=
  sdk_bucket s3_dialect DefaultRetryPolicy (s3_ListObjects DefaultRetryPolicy [] bucket) bucket.
