(* ===== verification/S3Laws.v ===== *)
(** The S3 client keeps the contract of a provider: its classification of
    errors and its listings. *)

From stdpp Require Import sorting.
From S2P Require Import Prelude Errors Retry GoStrings Digest Store Attempts ObjectStorage Parts Retried Sdk SdkLaws S3.
#[local] Open Scope Z_scope.

(** ** Errors *)

Section Errors.
Context {SE : S3Errors}.

(** The errors of the SDK that say that an object is missing, or an upload. *)
Definition s3_missing (err : error) : bool :=
  isNotFound err || (s3_status err =? StatusNotFound) && negb (bool_decide (s3_code err = "RequestTimeout")).
Definition s3_gone (err : error) : bool := isUploadGone err true.

Lemma Is_status op code err t :
  errors_Is (EStatus op code (Some err) 0) t = bool_decide (t = ErrNotFound) && (code =? StatusNotFound) || errors_Is err t.
Proof. done. Qed.

(** What the classification adds to an error. *)
Lemma s3_classify_Is op err up t :
  errors_Is (s3_classifyError op err up) t =
    errors_Is err t || bool_decide (t = ErrNotFound) && s3_missing err || bool_decide (t = ErrUploadNotFound) && isUploadGone err up.
Proof.
  unfold s3_classifyError, s3_missing. set (out := s3_with_status op err).
  assert (∀ t, errors_Is out t = errors_Is err t || bool_decide (t = ErrNotFound) &&
    ((s3_status err =? StatusNotFound) && negb (bool_decide (s3_code err = "RequestTimeout")))) as Hout.
  { intros t'. subst out. unfold s3_with_status. destruct (Z.eqb_spec (s3_status err) 0) as [E|E]; cbn [negb andb].
    - rewrite E. cbn. by rewrite andb_false_r, !orb_false_r.
    - destruct (bool_decide (s3_code err = _)); cbn [negb andb]; [cbn; by rewrite !andb_false_r, !orb_false_r|].
      rewrite Is_status, andb_true_r. apply orb_comm. }
  clearbody out.
  assert (∀ t, errors_Is (if isNotFound err && negb (errors_Is out ErrNotFound) then Errorf "" [ESentinel ErrNotFound; out] else out) t =
    errors_Is out t || bool_decide (t = ErrNotFound) && isNotFound err) as Hout2.
  { intros t'. destruct (isNotFound err); cbn [andb]; [|by rewrite andb_false_r, orb_false_r]. rewrite andb_true_r.
    destruct (errors_Is out ErrNotFound) eqn:E; cbn.
    - destruct (decide (t' = ErrNotFound)) as [->|Hne]; [by rewrite E|by rewrite bool_decide_false, orb_false_r by done].
    - rewrite orb_false_r, orb_comm. f_equal. apply bool_decide_ext. naive_solver. }
  destruct (isUploadGone err up).
  - cbn [Errorf errors_Is existsb]. rewrite Hout2, Hout. rewrite (bool_decide_ext (ErrUploadNotFound = t) (t = ErrUploadNotFound)) by naive_solver.
    destruct (errors_Is err t), (bool_decide (t = ErrNotFound)), (bool_decide (t = ErrUploadNotFound)), (isNotFound err), (_ && negb _); reflexivity.
  - rewrite Hout2, Hout. destruct (errors_Is err t), (bool_decide (t = ErrNotFound)), (bool_decide (t = ErrUploadNotFound)), (isNotFound err), (_ && negb _); reflexivity.
Qed.

(** The status that the retry loop sees. *)
Lemma s3_classify_status op err up :
  as_status (s3_classifyError op err up) =
    if negb (s3_status err =? 0) && negb (bool_decide (s3_code err = "RequestTimeout")) then Some (s3_status err, 0) else as_status err.
Proof.
  unfold s3_classifyError, s3_with_status. destruct (negb (s3_status err =? 0) && _).
  - destruct (isNotFound err && _), (isUploadGone err up); done.
  - assert (as_status (Errorf op [err]) = as_status err) as Hs by (cbn; by destruct (as_status err)).
    rewrite <- Hs. destruct (isNotFound err && _), (isUploadGone err up); cbn; by destruct (as_status err).
Qed.

#[export] Instance s3_dialect_laws : DialectLaws s3_dialect s3_missing s3_gone.
Proof.
  split; cbn [classifyError part_number s3_dialect].
  - intros op e up [Hn _]. rewrite s3_classify_Is, Hn. cbn. by rewrite orb_false_r.
  - intros op e [_ Hn]. rewrite s3_classify_Is, Hn. cbn. done.
  - intros n. unfold i32, maxMultipartParts. intros Hn. rewrite Z.mod_small; lia.
Qed.

End Errors.

(** ** Listings *)

(** The documented behaviour of listings: pages of the keys under a prefix,
    and of the buckets of the account. *)
Class S3ListLaws {SU : Surroundings} {SV : StoreView} {SL : S3Lists} (bucket : string) := {
  s3_listing : gmap string bytes → string → option string → list FileInfo;
  s3_pages_left : gmap string bytes → string → option string → nat;
  s3_names : option string → list string;
  s3_name_pages_left : option string → nat;
  ListObjectsV2_law ctx p token w r w' : ListObjectsV2 ctx bucket p token w = (r, w') →
    unchanged w w' ∧ returns r ∧ ∀ resp, r = Ok resp →
      ∃ rest, s3_listing (s_objects w) p token = s3_infos resp ++ rest ∧
        (s3_IsTruncated resp ≠ Some true → rest = []) ∧
        (∀ t, s3_IsTruncated resp = Some true → s3_NextContinuationToken resp = Some t → t ≠ "" →
           s3_listing (s_objects w) p (Some t) = rest ∧
           (s3_pages_left (s_objects w) p (Some t) < s3_pages_left (s_objects w) p token)%nat);
  s3_ListBuckets_law ctx token w r w' : sdk_ListBuckets ctx token w = (r, w') →
    unchanged w w' ∧ returns r ∧ ∀ names next, r = Ok (names, next) →
      ∃ rest, s3_names token = (default "" <$> names) ++ rest ∧
        (default "" next = "" → rest = []) ∧
        (∀ t, next = Some t → t ≠ "" → s3_names next = rest ∧ (s3_name_pages_left next < s3_name_pages_left token)%nat);
  s3_listing_law objs p n : n ∈ fi_Name <$> s3_listing objs p None ↔ n ∈ dom objs ∧ HasPrefix n p = true;
  s3_fuel_law w p : (s3_pages_left (s_objects w) p None < s3_list_fuel w)%nat;
  s3_names_fuel_law w : (s3_name_pages_left None < s3_list_fuel w)%nat;
}.

Section Lists.
Context {SU : Surroundings} {SV : StoreView} {CL : CalmLaws} {SE : S3Errors} {SL : S3Lists} (retry : RetryPolicy) (bucket : string).
Context {LL : S3ListLaws bucket}.

Lemma s3_ListObjects_spec ctx p w r w' : s3_ListObjects retry ctx bucket p w = (r, w') →
  unchanged w w' ∧ returns r ∧ (∀ l, r = Ok l → l = s3_listing (s_objects w) p None).
Proof.
  unfold s3_ListObjects. intros H.
  apply (paged_spec _ _ (λ m, s3_listing m p) (λ m, s3_pages_left m p)) in H; [done| |apply s3_fuel_law].
  intros t w1 r1 w2. apply (fetched _ _ _ _ _ _ _ _ (λ m, s3_listing m p) (λ m, s3_pages_left m p)).
  intros c w3 r3 w4 (Hu & Hr & Hok)%ListObjectsV2_law. split_and!; [done|done|]. intros resp ->.
  destruct (Hok resp eq_refl) as (rest & Hl & Hlast & Hmore). unfold page_of, s3_objects.
  destruct (s3_IsTruncated resp) as [[]|]; cbn [from_option Datatypes.id negb];
    [|right; eexists _, _; split; [done|]; rewrite Hl, Hlast by done; by rewrite app_nil_r..].
  case_bool_decide as E; [left; by eexists|right]. destruct (s3_NextContinuationToken resp) as [t1|]; [|done].
  destruct (Hmore t1 eq_refl eq_refl E) as [Ht Hp]. eexists _, _. split; [done|]. by rewrite Hl, Ht.
Qed.

Lemma s3_ListBuckets_spec ctx w r w' : s3_ListBuckets retry ctx w = (r, w') →
  unchanged w w' ∧ returns r ∧ (∀ l, r = Ok l → l = s3_names None).
Proof.
  unfold s3_ListBuckets. intros H.
  apply (paged_spec _ _ (λ _, s3_names) (λ _, s3_name_pages_left)) in H; [done| |apply s3_names_fuel_law].
  intros t w1 r1 w2. apply (fetched _ _ _ _ _ _ _ _ (λ _, s3_names) (λ _, s3_name_pages_left)).
  intros c w3 r3 w4 (Hu & Hr & Hok)%s3_ListBuckets_law. split_and!; [done|done|]. intros [names next] ->.
  destruct (Hok names next eq_refl) as (rest & Hl & Hlast & Hmore). unfold page_of, s3_bucket_names. cbn [fst snd]. right.
  case_bool_decide as E; eexists _, _; (split; [done|]); [rewrite Hl, Hlast by done; by rewrite app_nil_r|].
  destruct next as [t1|]; [|done]. destruct (Hmore t1 eq_refl E) as [Ht Hp]. by rewrite Hl, Ht.
Qed.

End Lists.

(** ** The client as a provider *)

Definition s3_laws {SU : Surroundings} {SV : StoreView} {CL : CalmLaws} {SDK : Sdk} {SE : S3Errors} {SL : S3Lists} (bucket : string)
    {KL : SdkLaws bucket s3_missing s3_gone} {LL : S3ListLaws bucket} : @ObjectStorageClientLaws (s3_bucket bucket).
Proof.
  refine (sdk_laws s3_dialect DefaultRetryPolicy bucket s3_missing s3_gone _ _).
  intros p w r w' H. destruct (s3_ListObjects_spec DefaultRetryPolicy bucket [] p w r w' H) as (Hu & Hr & Hl).
  split; [done|]. split; [done|]. intros l ->%Hl n. apply s3_listing_law.
Defined.
