(* ===== verification/Oci.v ===== *)
(** The OCI client ([storage_clients/oci/oci.go]): its classification of errors,
    its listings, and the calls of Sdk.v in its dialect. *)

From S2P Require Import Prelude Errors Retry GoStrings Digest Store Attempts ObjectStorage Parts Sdk.
#[local] Open Scope Z_scope.

(** ** Errors *)

(** The status of the [common.ServiceError] that [errors.As] finds in an
    error of the OCI SDK. *)
Class OciErrors := {
  ServiceError : error → option Z;
}.

(** [classifyError] of an error. *)
Definition oci_classifyError {OE : OciErrors} (op : string) (err : error) (uploadOp : bool) : error :=
  match ServiceError err with
  | Some code =>
      let status := EStatus op code (Some err) 0 in
      if uploadOp && (code =? StatusNotFound) then Errorf "" [ESentinel ErrUploadNotFound; status] else status
  | None => Errorf op [err]
  end.

Definition oci_dialect {OE : OciErrors} : dialect := {|
  provider_name := "oci"; complete_call := "CommitMultipartUpload"; part_number n := n; classifyError := oci_classifyError |}.

(** ** Listings *)

(** Pages: names and sizes are pointers; a pointer says where the listing
    goes on. *)
Class OciLists {SU : Surroundings} := {
  sdk_ListObjects : list (Z * net) → string → string → option string → M net (list (option string * option Z) * option string);
  oci_sdk_ListBuckets : list (Z * net) → string → option string → M net (list (option string) * option string);
  oci_list_fuel : net → nat;
}.

(** [*p]. *)
Definition deref {A} (p : option A) : res A := match p with Some a => Ok a | None => Panic end.

Section Client.
Context {SU : Surroundings} {OE : OciErrors} {OL : OciLists} (retry : RetryPolicy).
Abbreviation context := (list (Z * net)).

(** A page of objects. *)
Fixpoint oci_objects (l : list (option string * option Z)) : res (list FileInfo) :=
  match l with
  | [] => Ok []
  | o :: l =>
      let! name := deref o.1 in
      let! rest := oci_objects l in
      Ok ({| fi_Name := name; fi_Size := default 0 o.2 |} :: rest)
  end.

Definition oci_page (resp : list (option string * option Z) * option string) : res (list FileInfo * option string) :=
  let! objects := oci_objects resp.1 in Ok (objects, resp.2).

(** [OCIClient.ListObjects]. *)
Definition oci_ListObjects (ctx : context) (bucket prefix : string) : M net (list FileInfo) := λ w,
  paged (oci_list_fuel w)
    (λ start, retried oci_dialect retry ctx " list objects" MetadataAttemptTimeout ([], None)
                (λ ctx, classified oci_dialect "ListObjects" false (sdk_ListObjects ctx bucket prefix start)))
    oci_page None [] w.

(** A page of bucket names. *)
Fixpoint oci_names (l : list (option string)) : res (list string) :=
  match l with
  | [] => Ok []
  | b :: l =>
      let! name := deref b in
      let! rest := oci_names l in
      Ok (name :: rest)
  end.

(** [OCIClient.ListBuckets]. *)
Definition oci_ListBuckets (ctx : context) (compartmentID : string) : M net (list string) := λ w,
  paged (oci_list_fuel w)
    (λ page, retried oci_dialect retry ctx " list buckets" MetadataAttemptTimeout ([], None)
               (λ ctx, classified oci_dialect "ListBuckets" false (oci_sdk_ListBuckets ctx compartmentID page)))
    (λ resp, let! names := oci_names resp.1 in Ok (names, resp.2)) None [] w.

End Client.

(** ** The client *)

(** The operations of [OCIClient] on objects and uploads. *)
Section Operations.
Context {SU : Surroundings} {SDK : Sdk} {OE : OciErrors} (retry : RetryPolicy).
Abbreviation context := (list (Z * net)).

Definition oci_GetObjectSize (ctx : context) (bucket key : string) : M net Z := sdk_GetObjectSize oci_dialect retry ctx bucket key.
Definition oci_GetObjectRange (ctx : context) (bucket key : string) (startByte endByte : Z) : M net stream :=
  sdk_GetObjectRange oci_dialect retry ctx bucket key startByte endByte.
Definition oci_Initiate (ctx : context) (bucket key : string) : M net string := sdk_Initiate oci_dialect retry ctx bucket key.
Definition oci_UploadPart (ctx : context) (bucket key uploadID : string) (partNumber : Z) (data : bytes) : M net string :=
  client_UploadPart oci_dialect retry ctx bucket key uploadID partNumber data.
Definition oci_Complete (ctx : context) (bucket key uploadID : string) (etags : gmap Z string) : M net unit :=
  sdk_Complete oci_dialect retry ctx bucket key uploadID etags.
Definition oci_PutObject (ctx : context) (bucket key : string) (data : bytes) : M net unit :=
  client_PutObject oci_dialect retry ctx bucket key data.
Definition oci_Abort (ctx : context) (bucket key uploadID : string) : M net unit := sdk_Abort oci_dialect retry ctx bucket key uploadID.
Definition oci_DeleteObject (ctx : context) (bucket key : string) : M net unit := client_DeleteObject oci_dialect retry ctx bucket key.

End Operations.

(** A bucket as the program's provider, under the caller's context. *)
Definition oci_bucket {SU : Surroundings} {SDK : Sdk} {OE : OciErrors} {OL : OciLists} (bucket : string) : ObjectStorageClient :=
  let retry := DefaultRetryPolicy in {|
  world := net;
  Initiate k := oci_Initiate retry [] bucket k;
  UploadPart k id n b := oci_UploadPart retry [] bucket k id n b;
  Complete k id tags := oci_Complete retry [] bucket k id tags;
  Abort k id := oci_Abort retry [] bucket k id;
  PutObject k b := oci_PutObject retry [] bucket k b;
  DeleteObject k := oci_DeleteObject retry [] bucket k;
  ObjectStorage.ListObjects := oci_ListObjects retry [] bucket;
  GetObjectSize k := oci_GetObjectSize retry [] bucket k;
  GetObjectRange k a z := oci_GetObjectRange retry [] bucket k a z;
|}.
