(* ===== verification/OciLaws.v ===== *)
(** The OCI client keeps the contract of a provider: its classification of
    errors and its listings. *)

From S2P Require Import Prelude Errors Retry GoStrings Digest Store Attempts ObjectStorage Parts Retried Sdk SdkLaws Oci.
#[local] Open Scope Z_scope.

(** ** Errors *)

Section Errors.
Context {OE : OciErrors}.

(** A service error with status 404 says that what was asked for is missing. *)
Definition oci_missing (err : error) : bool := bool_decide (ServiceError err = Some StatusNotFound).

Lemma oci_classify_Is op err up t :
  errors_Is (oci_classifyError op err up) t =
    errors_Is err t || oci_missing err && (bool_decide (t = ErrNotFound) || up && bool_decide (t = ErrUploadNotFound)).
Proof.
  unfold oci_classifyError, oci_missing. destruct (ServiceError err) as [code|].
  2:{ rewrite bool_decide_false by done. cbn. by rewrite !orb_false_r. }
  assert (bool_decide (Some code = Some StatusNotFound) = (code =? StatusNotFound)) as ->.
  { destruct (Z.eqb_spec code StatusNotFound) as [->|]; [by apply bool_decide_true|apply bool_decide_false; congruence]. }
  assert (errors_Is (EStatus op code (Some err) 0) t = bool_decide (t = ErrNotFound) && (code =? StatusNotFound) || errors_Is err t) as Hs by done.
  destruct up; cbn [andb].
  - destruct (code =? StatusNotFound) eqn:E.
    + cbn [Errorf errors_Is existsb]. cbn [errors_Is] in Hs. rewrite Hs.
      rewrite (bool_decide_ext (ErrUploadNotFound = t) (t = ErrUploadNotFound)) by naive_solver.
      destruct (bool_decide (t = ErrNotFound)), (bool_decide (t = ErrUploadNotFound)), (errors_Is err t); reflexivity.
    + rewrite Hs, andb_false_r. by destruct (errors_Is err t).
  - rewrite Hs. destruct (bool_decide _), (code =? StatusNotFound), (errors_Is err t); reflexivity.
Qed.

(** The status that the retry loop sees. *)
Lemma oci_classify_status op err up :
  as_status (oci_classifyError op err up) = match ServiceError err with Some code => Some (code, 0) | None => as_status err end.
Proof.
  unfold oci_classifyError. destruct (ServiceError err) as [code|]; [by destruct (up && _)|]. cbn. by destruct (as_status err).
Qed.

#[export] Instance oci_dialect_laws : DialectLaws oci_dialect oci_missing oci_missing.
Proof.
  split; cbn [classifyError part_number oci_dialect].
  - intros op e up [Hn _]. rewrite oci_classify_Is, Hn. cbn. by intros [? _]%andb_true_iff.
  - intros op e [_ Hn]. rewrite oci_classify_Is, Hn. cbn. by intros [? _]%andb_true_iff.
  - done.
Qed.

End Errors.

(** ** Listings *)

(** The documented behaviour of listings: every entry has a name. *)
Class OciListLaws {SU : Surroundings} {SV : StoreView} {OL : OciLists} (bucket : string) := {
  oci_listing : gmap string bytes → string → option string → list FileInfo;
  oci_pages_left : gmap string bytes → string → option string → nat;
  oci_buckets : string → option string → list string;
  oci_bucket_pages_left : string → option string → nat;
  ListObjects_page_law ctx p start w r w' : sdk_ListObjects ctx bucket p start w = (r, w') →
    unchanged w w' ∧ returns r ∧ ∀ objects next, r = Ok (objects, next) →
      ∃ infos rest, oci_objects objects = Ok infos ∧ oci_listing (s_objects w) p start = infos ++ rest ∧
        match next with
        | None => rest = []
        | Some t => oci_listing (s_objects w) p (Some t) = rest ∧ (oci_pages_left (s_objects w) p (Some t) < oci_pages_left (s_objects w) p start)%nat
        end;
  ListBuckets_page_law ctx comp page w r w' : oci_sdk_ListBuckets ctx comp page w = (r, w') →
    unchanged w w' ∧ returns r ∧ ∀ items next, r = Ok (items, next) →
      ∃ names rest, oci_names items = Ok names ∧ oci_buckets comp page = names ++ rest ∧
        match next with
        | None => rest = []
        | Some t => oci_buckets comp (Some t) = rest ∧ (oci_bucket_pages_left comp (Some t) < oci_bucket_pages_left comp page)%nat
        end;
  oci_listing_law objs p n : n ∈ fi_Name <$> oci_listing objs p None ↔ n ∈ dom objs ∧ HasPrefix n p = true;
  oci_fuel_law w p : (oci_pages_left (s_objects w) p None < oci_list_fuel w)%nat;
  oci_buckets_fuel_law w comp : (oci_bucket_pages_left comp None < oci_list_fuel w)%nat;
}.

Section Lists.
Context {SU : Surroundings} {SV : StoreView} {CL : CalmLaws} {OE : OciErrors} {OL : OciLists} (retry : RetryPolicy) (bucket : string).
Context {LL : OciListLaws bucket}.

Lemma oci_ListObjects_spec ctx p w r w' : oci_ListObjects retry ctx bucket p w = (r, w') →
  unchanged w w' ∧ returns r ∧ (∀ l, r = Ok l → l = oci_listing (s_objects w) p None).
Proof.
  unfold oci_ListObjects. intros H.
  apply (paged_spec _ _ (λ m, oci_listing m p) (λ m, oci_pages_left m p)) in H; [done| |apply oci_fuel_law].
  intros t w1 r1 w2. apply (fetched _ _ _ _ _ _ _ _ (λ m, oci_listing m p) (λ m, oci_pages_left m p)).
  intros c w3 r3 w4 (Hu & Hr & Hok)%ListObjects_page_law. split_and!; [done|done|]. intros [objects next] ->.
  destruct (Hok _ _ eq_refl) as (infos & rest & Ho & Hl & Hnext). right. unfold oci_page. cbn [fst snd]. rewrite Ho.
  eexists _, _. split; [done|]. destruct next as [t1|]; [destruct Hnext as [Ht Hp]; by rewrite Hl, Ht|]. by rewrite Hl, Hnext, app_nil_r.
Qed.

Lemma oci_ListBuckets_spec ctx comp w r w' : oci_ListBuckets retry ctx comp w = (r, w') →
  unchanged w w' ∧ returns r ∧ (∀ l, r = Ok l → l = oci_buckets comp None).
Proof.
  unfold oci_ListBuckets. intros H.
  apply (paged_spec _ _ (λ _, oci_buckets comp) (λ _, oci_bucket_pages_left comp)) in H; [done| |apply oci_buckets_fuel_law].
  intros t w1 r1 w2. apply (fetched _ _ _ _ _ _ _ _ (λ _, oci_buckets comp) (λ _, oci_bucket_pages_left comp)).
  intros c w3 r3 w4 (Hu & Hr & Hok)%ListBuckets_page_law. split_and!; [done|done|]. intros [items next] ->.
  destruct (Hok _ _ eq_refl) as (names & rest & Ho & Hl & Hnext). right. cbn [fst snd]. rewrite Ho.
  eexists _, _. split; [done|]. destruct next as [t1|]; [destruct Hnext as [Ht Hp]; by rewrite Hl, Ht|]. by rewrite Hl, Hnext, app_nil_r.
Qed.

End Lists.

(** ** The client as a provider *)

Definition oci_laws {SU : Surroundings} {SV : StoreView} {CL : CalmLaws} {SDK : Sdk} {OE : OciErrors} {OL : OciLists} (bucket : string)
    {KL : SdkLaws bucket oci_missing oci_missing} {LL : OciListLaws bucket} : @ObjectStorageClientLaws (oci_bucket bucket).
Proof.
  refine (sdk_laws oci_dialect DefaultRetryPolicy bucket oci_missing oci_missing _ _).
  intros p w r w' H. destruct (oci_ListObjects_spec DefaultRetryPolicy bucket [] p w r w' H) as (Hu & Hr & Hl).
  split; [done|]. split; [done|]. intros l ->%Hl n. apply oci_listing_law.
Defined.
