(* ===== verification/SdkExample.v ===== *)
(** SDKs of the in-memory store of HttpExample.v: they behave as SdkLaws.v,
    S3Laws.v and OciLaws.v say, whatever calls get lost, are answered late or
    with an error, or have their bodies cut short. *)

From stdpp Require Import sorting countable.
From S2P Require Import Prelude Errors Retry GoStrings Digest Store Attempts ObjectStorage Parts Retried Sdk SdkLaws S3 S3Laws Oci OciLaws HttpExample.
#[local] Open Scope Z_scope.

Module Sdks.
Import Server.

(** ** The calls *)

Definition not_found : error := ELeaf "404" false.
Definition bad_request : error := ELeaf "400" false.
Definition unavailable : error := ELeaf "503" false.

(** One entry of the schedule is consumed: the call is served, it is lost,
    its answer is lost, or it is answered with a status and not served. *)
Definition served {A} (f : srv → res A * srv) (s : srv) : res A * srv :=
  match head (schedule s) with
  | Some FLost => (Err reset, tick s)
  | Some FLate => (Err reset, (f (tick s)).2)
  | Some (FStatus _) => (Err unavailable, tick s)
  | _ => f (tick s)
  end.

Definition head_ (k : string) (s : srv) : res (option Z) * srv :=
  (match objs s !! k with Some b => Ok (Some (blen b)) | None => Err not_found end, s).
Definition get (k : string) (rng : option string) (s : srv) : res stream * srv :=
  (match objs s !! k with
   | None => Err not_found
   | Some b => match rng with None => Ok (b, None) | Some v => let '(a, z) := parse_range v in Ok (range_of a z b, None) end
   end, s).
Definition cut_body (s : srv) (r : res stream) : res stream :=
  match head (schedule s), r with
  | Some (FCut n), Ok (b, _) => Ok (take n b, Some (ESentinel IoErrUnexpectedEOF))
  | _, _ => r
  end.
Definition put (k : string) (b : bytes) (s : srv) : res unit * srv := (Ok tt, set_objs (<[k := b]> (objs s)) s).
Definition del (k : string) (s : srv) : res unit * srv :=
  (if bool_decide (is_Some (objs s !! k)) then Ok tt else Err not_found, set_objs (delete k (objs s)) s).
Definition create (k : string) (s : srv) : res (option string) * srv :=
  let id := fresh ({[""]} ∪ ids s ∪ dom (ups s)) in (Ok (Some id), set_ids ({[id]} ∪ ids s) (set_ups (<[id := (k, ∅)]> (ups s)) s)).
Definition part (k id : string) (n : Z) (b : bytes) (s : srv) : res (option string) * srv :=
  match ups s !! id with
  | Some (k', parts) => (Ok (Some "e"), set_ups (<[id := (k', <[n := ("e", b)]> parts)]> (ups s)) s)
  | None => (Err not_found, s)
  end.
Definition commit (k id : string) (l : list (Z * string)) (s : srv) : res unit * srv :=
  match ups s !! id with
  | None => (Err not_found, s)
  | Some (k', parts) =>
      if decide (StronglySorted Z.lt l.*1) then
        match parts_upto (size parts) parts with
        | Some c => (Ok tt, set_ups (delete id (ups s)) (set_objs (<[k := c]> (objs s)) s))
        | None => (Err bad_request, s)
        end
      else (Err bad_request, s)
  end.
Definition abort (id : string) (s : srv) : res unit * srv :=
  (if bool_decide (is_Some (ups s !! id)) then Ok tt else Err not_found, set_ups (delete id (ups s)) s).

(** Pages of two entries: a token is as long as the number of entries before it. *)
Definition after {A} (l : list A) (token : option string) : list A := drop (String.length (default "" token)) l.
Definition next {A} (l : list A) (token : option string) : option string :=
  if bool_decide (drop 2 (after l token) = []) then None else Some (token_at (String.length (default "" token) + 2)).
Definition page {A} (l : list A) (token : option string) : list A := take 2 (after l token).

Definition names : list string := ["a"; "b"; "c"].

#[export] Instance sdk : @Sdk surroundings := {|
  HeadObject _ _ k := served (head_ k) : @M (@Attempts.net surroundings) _;
  GetObject _ _ k rng s := (cut_body s (served (get k rng) s).1, (served (get k rng) s).2);
  sdk_PutObject _ _ k b := served (put k b) : @M (@Attempts.net surroundings) _;
  sdk_DeleteObject _ _ k := served (del k) : @M (@Attempts.net surroundings) _;
  CreateMultipartUpload _ _ k := served (create k) : @M (@Attempts.net surroundings) _;
  sdk_UploadPart _ _ k id n b := served (part k id n b) : @M (@Attempts.net surroundings) _;
  CompleteMultipartUpload _ _ k id l := served (commit k id l) : @M (@Attempts.net surroundings) _;
  AbortMultipartUpload _ _ k id := served (abort id) : @M (@Attempts.net surroundings) _;
|}.

(** The status of an error. *)
Definition status_of (e : error) : option Z :=
  match e with
  | ELeaf m _ => if bool_decide (m = "404") then Some 404 else if bool_decide (m = "400") then Some 400 else if bool_decide (m = "503") then Some 503 else None
  | _ => None
  end.

#[export] Instance s3_errors : S3Errors := {|
  ResponseError := status_of; APIError _ := None;
  As_NoSuchKey _ := false; As_NotFound _ := false; As_NoSuchBucket _ := false; As_NoSuchUpload _ := false |}.
#[export] Instance s3_lists : @S3Lists surroundings := {|
  ListObjectsV2 _ _ p t := served (λ s : srv,
    (Ok {| s3_Contents := (λ i, (Some (fi_Name i), Some (fi_Size i))) <$> page (entries (objs s) p) t;
           s3_IsTruncated := Some (bool_decide (is_Some (next (entries (objs s) p) t)));
           s3_NextContinuationToken := next (entries (objs s) p) t |}, s)) : @M (@Attempts.net surroundings) _;
  sdk_ListBuckets _ t := served (λ s : srv, (Ok (Some <$> page names t, next names t), s)) : @M (@Attempts.net surroundings) _;
  s3_list_fuel s := S (3 + size (objs s));
|}.

#[export] Instance oci_errors : OciErrors := {| ServiceError := status_of |}.
#[export] Instance oci_lists : @OciLists surroundings := {|
  sdk_ListObjects _ _ p t := served (λ s : srv,
    (Ok ((λ i, (Some (fi_Name i), Some (fi_Size i))) <$> page (entries (objs s) p) t, next (entries (objs s) p) t), s)) : @M (@Attempts.net surroundings) _;
  oci_sdk_ListBuckets _ _ t := served (λ s : srv, (Ok (Some <$> page names t, next names t), s)) : @M (@Attempts.net surroundings) _;
  oci_list_fuel s := S (3 + size (objs s));
|}.

(** ** The contract *)

Definition is_missing (e : error) : bool := bool_decide (status_of e = Some 404).

Lemma served_cases {A} (f : srv → res A * srv) s r s' : served f s = (r, s') →
  (r, s') = f (tick s) ∨
  ((s' = (f (tick s)).2 ∨ s' = tick s) ∧ ∃ e, r = Err e ∧ foreign e ∧ is_missing e = false).
Proof.
  unfold served. destruct (head (schedule s)) as [[]|]; intros E; try (left; congruence); right;
    injection E as <- <-; (split; [auto|]); eexists; split_and!; done.
Qed.

Lemma foreign_not_found : foreign not_found.
Proof. done. Qed.

(** A call that reads. *)
Lemma reading {A} (f : srv → res A * srv) s r s' : (∀ s, (f s).2 = s) → (∀ s, returns (f s).1) → served f s = (r, s') →
  still s s' ∧ returns r ∧ ((r = (f (tick s)).1) ∨ ∃ e, r = Err e ∧ foreign e ∧ is_missing e = false).
Proof.
  intros Hf Hr [E|[Hs (e & -> & He)]]%served_cases.
  - pose proof (Hf (tick s)) as H2. pose proof (Hr (tick s)) as H1. rewrite <- E in H1, H2 |- *. cbn in H1, H2 |- *.
    subst s'. split; [apply still_tick|]. split; [done|by left].
  - assert (s' = tick s) as -> by (destruct Hs as [->| ->]; [apply Hf|done]).
    split; [apply still_tick|]. split; [by right; eexists|right; eauto].
Qed.

Lemma after_page {A} (l : list A) t : after l t = page l t ++ match next l t with None => [] | Some t' => after l (Some t') end.
Proof.
  unfold page, next. rewrite <- (take_drop 2 (after l t)) at 1. f_equal. case_bool_decide as E; [done|].
  unfold after at 2. cbn. rewrite length_token. unfold after. by rewrite drop_drop.
Qed.

Lemma next_shorter {A} (l : list A) t t' : next l t = Some t' → t' ≠ "" ∧ (length (after l (Some t')) < length (after l t))%nat.
Proof.
  unfold next. case_bool_decide as E; [done|]. intros [= <-]. split.
  - intros H%(f_equal String.length). rewrite length_token in H. simpl in H. lia.
  - assert (after l (Some (token_at (String.length (default "" t) + 2))) = drop 2 (after l t)) as ->.
    { unfold after at 1. cbn. rewrite length_token. unfold after. by rewrite drop_drop. }
    rewrite length_drop. destruct (after l t) as [|x [|y k]]; simpl in *; [done..|lia].
Qed.

Lemma after_length {A} (l : list A) : length (after l None) = length l.
Proof. done. Qed.

Lemma entries_length o p : (length (entries o p) < S (3 + size o))%nat.
Proof.
  unfold entries. rewrite length_fmap, <- length_map_to_list.
  pose proof (length_filter (λ kv : string * bytes, HasPrefix kv.1 p = true) (map_to_list o)). lia.
Qed.

(** Every call of the example keeps its law. *)
Section Calls.
Context (bucket : string) (missing gone : error → bool).
Context (Hmissing : ∀ e, missing e = is_missing e) (Hgone : ∀ e, gone e = is_missing e).
#[local] Existing Instances surroundings store sdk.
Implicit Types w : @Attempts.net surroundings.

Lemma srv_head ctx k w r w' : k ≠ "" → HeadObject ctx bucket k w = (r, w') →
    unchanged w w' ∧ returns r ∧
    (∀ n, r = Ok (Some n) → ∃ b, s_objects w !! k = Some b ∧ n = blen b) ∧
    (∀ e, r = Err e → foreign e ∧ (missing e = true → s_objects w !! k = None)).
Proof using Hmissing.
  intros _ H. apply reading in H as (Hs & Hr & Hres); [|done|intros s; unfold head_; destruct (objs s !! k); [by left; eexists|by right; eexists]].
  split; [done|]. split; [done|]. unfold head_ in Hres. cbn [objs tick fst] in Hres.
  split; [intros n ->|intros e ->]; (destruct Hres as [Hres|(e' & Hres & Hf & Hm)]).
  + destruct (objs w !! k) as [b|] eqn:E; [|done]. injection Hres as ->. by exists b.
  + done.
  + destruct (objs w !! k) as [b|] eqn:E; [done|]. injection Hres as ->. split; [done|]. by intros.
  + injection Hres as <-. split; [done|]. rewrite Hmissing. congruence.
Qed.

Lemma srv_get ctx k rng w r w' : k ≠ "" → GetObject ctx bucket k rng w = (r, w') →
    unchanged w w' ∧ returns r ∧
    (∀ body, r = Ok body →
       (∀ e, body.2 = Some e → errors_Is e ErrNotFound = false) ∧
       (rng = None → ∃ b, s_objects w !! k = Some b ∧ delivers body b) ∧
       (∀ a z, 0 ≤ a → z = -1 ∨ a ≤ z → rng = Some (range_value a z) → ∃ b, s_objects w !! k = Some b ∧ delivers body (range_of a z b))) ∧
    (∀ e, r = Err e → foreign e ∧ (missing e = true → s_objects w !! k = None)).
Proof using Hmissing.
  intros _ H. cbn in H. destruct (served (get k rng) w) as [r0 w0] eqn:E. cbn in H. injection H as <- <-.
  apply reading in E as (Hs & Hr & Hres); [|done|]. 2:{ intros s. unfold get. repeat case_match; [by left; eexists..|by right; eexists]. }
  assert (returns (cut_body w r0) ∧ (∀ e, cut_body w r0 = Err e → r0 = Err e) ∧
    ∀ b e, cut_body w r0 = Ok (b, e) → ∃ b0 e0, r0 = Ok (b0, e0) ∧ b `prefix_of` b0 ∧ ((b = b0 ∧ e = e0) ∨ e = Some (ESentinel IoErrUnexpectedEOF))) as (Hr' & He' & Hc').
  { unfold cut_body. destruct (head (schedule w)) as [[]|]; try (split; [done|split; [done|]]; intros b e ->; exists b, e; split_and!; auto; done).
    destruct r0 as [[b0 e0]|e| |]; [|split; [done|split; [done|by intros]]|by destruct Hr as [[]|[]]..].
    split; [by left; eexists|]. split; [done|]. intros b e [= <- <-]. exists b0, e0. split_and!; [done|apply prefix_take|by right]. }
  split; [done|]. split; [done|]. unfold get in Hres. cbn [objs tick fst] in Hres. split.
  + intros [b e] (b0 & e0 & -> & Hp & He)%Hc'. destruct Hres as [Hres|(e' & Hres & _)]; [|done]. cbn [fst snd].
    destruct (objs w !! k) as [whole|] eqn:Ek; [|done].
    assert (e0 = None ∧ b0 = match rng with None => whole | Some v => let '(a, z) := parse_range v in range_of a z whole end) as [-> ->].
    { destruct rng as [v|]; [destruct (parse_range v) as [a z]|]; by injection Hres as -> ->. }
    assert (∀ e1, e = Some e1 → errors_Is e1 ErrNotFound = false) as He1.
    { intros e1 ->. destruct He as [[_ [=]]|[= ->]]. done. }
    assert (∀ want, b `prefix_of` want → (e = None → b = want) → delivers (b, e) want) as Hd by (intros want ? ?; by split).
    split; [done|]. split.
    * intros ->. exists whole. split; [done|]. apply Hd; [done|]. intros ->. by destruct He as [[-> _]|].
    * intros a z Ha Hz ->. rewrite parse_range_value in Hp, He by done. exists whole. split; [done|]. apply Hd; [done|]. intros ->. by destruct He as [[-> _]|].
  + intros e He%He'. subst r0. destruct Hres as [Hres|(e' & [= <-] & Hf & Hm)]; [|split; [done|]; rewrite Hmissing; congruence].
    destruct (objs w !! k) as [b|] eqn:Ek.
    * destruct rng as [v|]; [by destruct (parse_range v)|done].
    * injection Hres as ->. split; [done|by intros].
Qed.

Lemma srv_put ctx k b w r w' : k ≠ "" → sdk_PutObject ctx bucket k b w = (r, w') →
    maybe (insert k b) w w' ∧ returns r ∧ (∀ u, r = Ok u → s_objects w' = <[k := b]> (s_objects w)).
Proof.
  intros _ [E|[Hs (e & -> & _)]]%served_cases.
  + injection E as -> ->. split; [split; [by split|by left]|]. split; [by left; eexists|done].
  + split; [|split; [by right; eexists|done]]. destruct Hs as [->| ->]; (split; [by split|]); [by left|by right].
Qed.

Lemma srv_delete ctx k w r w' : k ≠ "" → sdk_DeleteObject ctx bucket k w = (r, w') →
    maybe (delete k) w w' ∧ returns r ∧ (∀ u, r = Ok u → s_objects w' = delete k (s_objects w)) ∧
    (∀ e, r = Err e → foreign e ∧ (missing e = true → s_objects w' !! k = None)).
Proof using Hmissing.
  intros _ [E|[Hs (e & -> & Hf & Hm)]]%served_cases.
  + injection E as -> ->. cbn [objs tick]. split; [split; [by split|by left]|].
    case_bool_decide; (split; [first [by left; eexists|by right; eexists]|]); (split; [done|]); [done|].
    intros e [= <-]. split; [done|]. intros _. apply lookup_delete_eq.
  + split; [|split; [by right; eexists|]]; [destruct Hs as [->| ->]; (split; [by split|]); [by left|by right]|].
    split; [done|]. intros ? [= <-]. split; [done|]. rewrite Hmissing. congruence.
Qed.

Lemma srv_create ctx k w r w' : k ≠ "" → CreateMultipartUpload ctx bucket k w = (r, w') →
    grows w w' ∧ returns r ∧
    (∀ id, r = Ok (Some id) → id ≠ "" → (id ∉ s_issued w) ∧ id ∈ s_issued w' ∧ s_uploads w' id = Some (k, ∅)).
Proof.
  intros _ H. set (new := fresh ({[""]} ∪ ids w ∪ dom (ups w))).
  pose proof (is_fresh ({[""]} ∪ ids w ∪ dom (ups w))) as Hfr. fold new in Hfr. rewrite !not_elem_of_union, not_elem_of_dom in Hfr.
  destruct Hfr as [[_ Hf2] Hf3]. assert (grows (SV := store) w (create k (tick w)).2) as Hg.
  { split; [done|]. split; [|cbn; set_solver]. intros id x Hx. cbn in Hx |- *. fold new. rewrite lookup_insert_ne; [done|]. intros <-. by rewrite Hf3 in Hx. }
  apply served_cases in H as [E|[Hs (e & -> & _)]].
  + replace w' with (create k (tick w)).2 by (by rewrite <- E). split; [done|]. injection E as -> _. split; [by left; eexists|].
    intros id [= <-] _. cbn. fold new. split_and!; [done|set_solver|by rewrite lookup_insert_eq].
  + split; [|split; [by right; eexists|done]]. destruct Hs as [->| ->]; [done|]. split; [done|]. split; [by intros id x|done].
Qed.

Lemma srv_part ctx k id n b w r w' parts : k ≠ "" → 1 ≤ n ≤ maxMultipartParts → sdk_UploadPart ctx bucket k id n b w = (r, w') →
    s_uploads w id = Some (k, parts) →
    with_part k id n b parts w w' ∧ returns r ∧
    (∀ etag, r = Ok (Some etag) → etag ≠ "" → s_uploads w' id = Some (k, <[n := (etag, b)]> parts)).
Proof.
  intros _ _ H Hup. cbn in Hup.
  assert (part k id n b (tick w) = (Ok (Some "e"), set_ups (<[id := (k, <[n := ("e", b)]> parts)]> (ups w)) (tick w))) as Ep
    by (unfold part; cbn [ups tick]; by rewrite Hup).
  assert (with_part (SV := store) k id n b parts w (part k id n b (tick w)).2) as Hw.
  { rewrite Ep. split; [split_and!; [done|done|]; intros id' Hne; cbn; by rewrite lookup_insert_ne|].
    right. exists "e". cbn. by rewrite lookup_insert_eq. }
  apply served_cases in H as [E|[Hs (e & -> & _)]].
  + replace w' with (part k id n b (tick w)).2 by (by rewrite <- E). split; [done|]. rewrite Ep in E |- *. injection E as -> _.
    split; [by left; eexists|]. intros etag [= <-] _. cbn. by rewrite lookup_insert_eq.
  + split; [|split; [by right; eexists|done]]. destruct Hs as [->| ->]; [done|]. split; [by split_and!|by left].
Qed.

Lemma srv_commit ctx k id l w r w' parts n c : k ≠ "" → CompleteMultipartUpload ctx bucket k id l w = (r, w') →
    s_uploads w id = Some (k, parts) → StronglySorted Z.lt l.*1 →
    (∀ m t, (m, t) ∈ l ↔ ∃ b, parts !! m = Some (t, b)) →
    (∀ i, is_Some (parts !! i) ↔ 1 ≤ i ≤ Z.of_nat n) → parts_upto n parts = Some c →
    settled k id parts c w w' ∧ returns r ∧
    (∀ u, r = Ok u → s_objects w' = <[k := c]> (s_objects w)) ∧ (∀ e, r = Err e → foreign e ∧ gone e = false).
Proof using Hgone.
  intros _ H Hup Hsort _ Hdom Hc. cbn in Hup. apply MemProvider.size_contiguous in Hdom.
  assert (commit k id l (tick w) = (Ok tt, set_ups (delete id (ups w)) (set_objs (<[k := c]> (objs w)) (tick w)))) as Ep.
  { unfold commit. cbn [ups tick]. rewrite Hup. rewrite decide_True by done. by rewrite Hdom, Hc. }
  assert (settled (SV := store) k id parts c w (commit k id l (tick w)).2) as Hw.
  { rewrite Ep. split_and!; [done|intros id' Hne; cbn; by rewrite lookup_delete_ne|left]. cbn. by rewrite lookup_delete_eq. }
  apply served_cases in H as [E|[Hs (e & -> & Hf & Hm)]].
  + replace w' with (commit k id l (tick w)).2 by (by rewrite <- E). split; [done|]. rewrite Ep in E |- *. injection E as -> _.
    split; [by left; eexists|done].
  + split; [|split; [by right; eexists|]]; [destruct Hs as [->| ->]; [done|]; split_and!; [done|done|by right]|].
    split; [done|]. intros ? [= <-]. by rewrite Hgone.
Qed.

Lemma srv_commit_gone ctx k id l w r w' : k ≠ "" → CompleteMultipartUpload ctx bucket k id l w = (r, w') →
    s_uploads w id = None → unchanged w w' ∧ returns r ∧ (∀ e, r = Err e → foreign e).
Proof.
  intros _ H Hup. cbn in Hup. assert (commit k id l (tick w) = (Err not_found, tick w)) as Ep by (unfold commit; cbn [ups tick]; by rewrite Hup).
  apply served_cases in H as [E|[Hs (e & -> & Hf & Hm)]].
  + rewrite Ep in E. injection E as -> ->. split; [apply still_tick|]. split; [by right; eexists|by intros e [= <-]].
  + rewrite Ep in Hs. assert (w' = tick w) as -> by (by destruct Hs). split; [apply still_tick|]. split; [by right; eexists|by intros ? [= <-]].
Qed.

Lemma srv_cancel ctx k id w r w' : k ≠ "" → AbortMultipartUpload ctx bucket k id w = (r, w') → own id w w' ∧ returns r.
Proof.
  intros _ H. assert (own (SV := store) id w (abort id (tick w)).2) as Ho.
  { split_and!; [done|done|]. intros id' Hne. cbn. by rewrite lookup_delete_ne. }
  apply served_cases in H as [E|[Hs (e & -> & _)]].
  + replace w' with (abort id (tick w)).2 by (by rewrite <- E). split; [done|]. unfold abort in E. injection E as -> _.
    case_bool_decide; [by left; eexists|by right; eexists].
  + split; [|by right; eexists]. destruct Hs as [->| ->]; [done|]. by split_and!.
Qed.

Definition sdk_laws_ : @SdkLaws surroundings store sdk bucket missing gone.
Proof using Hmissing Hgone.
  split; [apply srv_head|apply srv_get|apply srv_put|apply srv_delete|apply srv_create|apply srv_part|apply srv_commit|apply srv_commit_gone|apply srv_cancel].
Qed.

End Calls.

Definition s3_sdk_laws bucket : @SdkLaws surroundings store sdk bucket s3_missing s3_gone.
Proof.
  assert (∀ e, (s3_status e =? StatusNotFound) = is_missing e) as H.
  { intros e. unfold s3_status, is_missing. cbn [ResponseError s3_errors]. destruct (status_of e) as [c|]; cbn [from_option Datatypes.id].
    - destruct (Z.eqb_spec c StatusNotFound) as [->|]; [done|]. symmetry. apply bool_decide_false. by intros [= ->].
    - done. }
  apply sdk_laws_; intros e; [unfold s3_missing|unfold s3_gone, isUploadGone]; rewrite H; cbn; [by rewrite andb_true_r|done].
Defined.
Definition oci_sdk_laws bucket : @SdkLaws surroundings store sdk bucket oci_missing oci_missing.
Proof. by apply sdk_laws_. Defined.

Lemma infos_back (l : list FileInfo) :
  (λ o : option string * option Z, {| fi_Name := default "" o.1; fi_Size := default 0 o.2 |}) <$> ((λ i, (Some (fi_Name i), Some (fi_Size i))) <$> l) = l.
Proof. rewrite <- list_fmap_compose. rewrite (list_fmap_ext _ id); [apply list_fmap_id|]. by intros _ [] _. Qed.

Lemma names_back (l : list string) : default "" <$> (Some <$> l) = l.
Proof. rewrite <- list_fmap_compose. rewrite (list_fmap_ext _ id); [apply list_fmap_id|done]. Qed.

Definition s3_list_laws bucket : @S3ListLaws surroundings store s3_lists bucket.
Proof.
  refine (@Build_S3ListLaws surroundings store s3_lists bucket (λ o p, after (entries o p)) (λ o p t, length (after (entries o p) t))
    (after names) (λ t, length (after names t)) _ _ _ _ _).
  - intros ctx p t w r w' H. apply reading in H as (Hs & Hr & Hres); [|done|by left; eexists].
    split; [done|]. split; [done|]. intros resp ->. destruct Hres as [[= ->]|(e & [=] & _)].
    eexists. split; [unfold s3_infos; cbn [s3_Contents]; rewrite infos_back; apply after_page|]. cbn [objs tick s3_IsTruncated s3_NextContinuationToken].
    split.
    + case_bool_decide as E; [done|]. intros _. destruct (next _ t); [by destruct E|done].
    + intros t1 _ Ht _. rewrite Ht. split; [done|by apply next_shorter].
  - intros ctx t w r w' H. apply reading in H as (Hs & Hr & Hres); [|done|by left; eexists].
    split; [done|]. split; [done|]. intros ns nx ->. destruct Hres as [[= -> ->]|(e & [=] & _)].
    eexists. split; [rewrite names_back; apply after_page|]. split.
    + intros E. destruct (next names t) as [t1|] eqn:Et; [|done]. apply next_shorter in Et as [Hne _]. done.
    + intros t1 Ht _. rewrite Ht. split; [done|by apply next_shorter].
  - intros o p n. apply (listing_law_ o p n).
  - intros w p. apply entries_length.
  - intros w. simpl. lia.
Defined.

Lemma oci_infos_back (l : list FileInfo) : oci_objects ((λ i, (Some (fi_Name i), Some (fi_Size i))) <$> l) = Ok l.
Proof. induction l as [|[] l IH]; [done|]. rewrite fmap_cons. cbn [oci_objects fst deref obind]. by rewrite IH. Qed.
Lemma oci_names_back (l : list string) : oci_names (Some <$> l) = Ok l.
Proof. induction l as [|b l IH]; [done|]. rewrite fmap_cons. cbn [oci_names deref obind]. by rewrite IH. Qed.

Definition oci_list_laws bucket : @OciListLaws surroundings store oci_lists bucket.
Proof.
  refine (@Build_OciListLaws surroundings store oci_lists bucket (λ o p, after (entries o p)) (λ o p t, length (after (entries o p) t))
    (λ _, after names) (λ _ t, length (after names t)) _ _ _ _ _).
  - intros ctx p t w r w' H. apply reading in H as (Hs & Hr & Hres); [|done|by left; eexists].
    split; [done|]. split; [done|]. intros os nx ->. destruct Hres as [[= -> ->]|(e & [=] & _)].
    eexists _, _. split; [|split; [apply after_page|]].
    + apply oci_infos_back.
    + cbn [objs tick]. destruct (next _ t) as [t1|] eqn:E; [|done]. split; [done|by apply next_shorter].
  - intros ctx comp t w r w' H. apply reading in H as (Hs & Hr & Hres); [|done|by left; eexists].
    split; [done|]. split; [done|]. intros ns nx ->. destruct Hres as [[= -> ->]|(e & [=] & _)].
    eexists _, _. split; [|split; [apply after_page|]].
    + apply oci_names_back.
    + destruct (next names t) as [t1|] eqn:E; [|done]. split; [done|by apply next_shorter].
  - intros o p n. apply (listing_law_ o p n).
  - intros w p. apply entries_length.
  - intros w. simpl. lia.
Defined.

End Sdks.
