(* ===== verification/SdkProps.v ===== *)
(** The properties of the S3 and OCI clients. *)

From S2P Require Import Prelude Errors Retry GoStrings Digest Store Paths Attempts ObjectStorage Parts Retried Sdk SdkLaws S3 S3Laws Oci OciLaws HttpExample SdkExample.
#[local] Open Scope Z_scope.

(** ** Errors *)

(** An error that an SDK made: none of the program's, no context error. *)
Definition sdk_error (err : error) : Prop :=
  chainHasContextSentinel err = false ∧ as_status err = None ∧
  Forall (λ t, errors_Is err t = false) [ErrNotFound; ErrUploadNotFound; ErrInvalidRange; ErrInvalidConfig].

Lemma s3_classify_chain {SE : S3Errors} op err up : chainHasContextSentinel (s3_classifyError op err up) = chainHasContextSentinel err.
Proof.
  unfold s3_classifyError, s3_with_status. destruct (_ && negb (bool_decide (_ = "RequestTimeout"))), (isNotFound err && _), (isUploadGone err up);
    cbn; by rewrite ?orb_false_r.
Qed.

Lemma oci_classify_chain {OE : OciErrors} op err up : chainHasContextSentinel (oci_classifyError op err up) = chainHasContextSentinel err.
Proof. unfold oci_classifyError. destruct (ServiceError err); [destruct (_ && _)|]; cbn; by rewrite ?orb_false_r. Qed.

Lemma classified_Retryable (e : error) nf gone status :
  chainHasContextSentinel e = false → errors_Is e ErrNotFound = nf → errors_Is e ErrUploadNotFound = gone →
  errors_Is e ErrInvalidRange = false → errors_Is e ErrInvalidConfig = false → as_status e = status →
  IsRetryable e = negb (nf || gone) && match status with Some (code, _) => Retryable code | None => true end.
Proof. intros H1 H2 H3 H4 H5 H6. unfold IsRetryable. rewrite H1, H2, H3, H4, H5, H6. by destruct nf, gone. Qed.

(** [classifyError] of the S3 client turns an error of the SDK into one that
    the program understands: it matches [ErrNotFound] exactly if the SDK said that
    the object or the bucket is missing, by a typed error, a code or a status
    404; it matches [ErrUploadNotFound] exactly if the upload is gone; and it is
    retried unless one of the two holds or the status rules it out, the status 400
    of a [RequestTimeout] being set aside. *)
Theorem s3_classifyError_spec {SE : S3Errors} op err up :
  sdk_error err →
  errors_Is (s3_classifyError op err up) ErrNotFound = s3_missing err ∧
  errors_Is (s3_classifyError op err up) ErrUploadNotFound = isUploadGone err up ∧
  IsRetryable (s3_classifyError op err up) = negb (s3_missing err || isUploadGone err up) &&
    (if negb (s3_status err =? 0) && negb (bool_decide (s3_code err = "RequestTimeout")) then Retryable (s3_status err) else true).
Proof.
  intros (Hc & Hs & [H1 [H2 [H3 [H4 _]%Forall_cons]%Forall_cons]%Forall_cons]%Forall_cons).
  assert (errors_Is (s3_classifyError op err up) ErrNotFound = s3_missing err) as E1 by (rewrite s3_classify_Is, H1; cbn; by rewrite orb_false_r).
  assert (errors_Is (s3_classifyError op err up) ErrUploadNotFound = isUploadGone err up) as E2 by (by rewrite s3_classify_Is, H2).
  split_and!; [done|done|]. rewrite (classified_Retryable _ _ _ _ (eq_trans (s3_classify_chain op err up) Hc) E1 E2) by
    (try reflexivity; rewrite s3_classify_Is; rewrite ?H3, ?H4; done).
  f_equal. rewrite s3_classify_status, Hs. by destruct (_ && negb _).
Qed.

Lemma s3_classifyError_spec_witness :
  let SE := Sdks.s3_errors in
  sdk_error Sdks.not_found ∧
  errors_Is (s3_classifyError "HeadObject" Sdks.not_found true) ErrNotFound = true ∧
  errors_Is (s3_classifyError "HeadObject" Sdks.not_found true) ErrUploadNotFound = true ∧
  IsRetryable (s3_classifyError "HeadObject" Sdks.not_found true) = false.
Proof.
  intros SE. assert (sdk_error Sdks.not_found) as H by (split_and!; repeat constructor). split; [exact H|].
  exact (s3_classifyError_spec "HeadObject" Sdks.not_found true H).
Defined.

(** The same of the OCI client: an object is missing, or an upload
    gone, exactly if the service answered with status 404, and the status alone
    decides about retries. *)
Theorem oci_classifyError_spec {OE : OciErrors} op err up :
  sdk_error err →
  errors_Is (oci_classifyError op err up) ErrNotFound = oci_missing err ∧
  errors_Is (oci_classifyError op err up) ErrUploadNotFound = oci_missing err && up ∧
  IsRetryable (oci_classifyError op err up) = match ServiceError err with Some code => Retryable code | None => true end.
Proof.
  intros (Hc & Hs & [H1 [H2 [H3 [H4 _]%Forall_cons]%Forall_cons]%Forall_cons]%Forall_cons).
  assert (errors_Is (oci_classifyError op err up) ErrNotFound = oci_missing err) as E1 by (rewrite oci_classify_Is, H1; cbn; by rewrite andb_true_r).
  assert (errors_Is (oci_classifyError op err up) ErrUploadNotFound = oci_missing err && up) as E2 by (rewrite oci_classify_Is, H2; cbn; by rewrite andb_true_r).
  split_and!; [done|done|]. rewrite (classified_Retryable _ _ _ _ (eq_trans (oci_classify_chain op err up) Hc) E1 E2) by
    (try reflexivity; rewrite oci_classify_Is; rewrite ?H3, ?H4; cbn; by rewrite !andb_false_r).
  rewrite oci_classify_status, Hs. unfold oci_missing. destruct (ServiceError err) as [code|]; [|by rewrite bool_decide_false].
  case_bool_decide as E; [injection E as ->; by destruct up|by destruct up].
Qed.

Lemma oci_classifyError_spec_witness :
  let OE := Sdks.oci_errors in
  sdk_error Sdks.unavailable ∧
  errors_Is (oci_classifyError "UploadPart" Sdks.unavailable true) ErrNotFound = false ∧
  errors_Is (oci_classifyError "UploadPart" Sdks.unavailable true) ErrUploadNotFound = false ∧
  IsRetryable (oci_classifyError "UploadPart" Sdks.unavailable true) = true.
Proof.
  intros OE. assert (sdk_error Sdks.unavailable) as H by (split_and!; repeat constructor). split; [exact H|].
  exact (oci_classifyError_spec "UploadPart" Sdks.unavailable true H).
Defined.

(** ** Storage *)

Lemma prefixed_nonempty prefix p : relative p → prefix +:+ p ≠ "".
Proof.
  intros Hr E%(f_equal chars). rewrite chars_app in E. apply app_nil in E as [_ E]. apply (chars_inj p "") in E as ->. by vm_compute in Hr.
Qed.

(** C22. [ObjectStorage] over the S3 client keeps the contract of [Storage]
    that backups and restores rely on, for every prefix: against an SDK that
    behaves as documented, whatever calls get lost, are repeated by the retry loop,
    time out, fail or deliver less than announced. *)
Theorem S3_storage {SU : Surroundings} {SV : StoreView} {CL : CalmLaws} {SDK : Sdk} {SE : S3Errors} {SL : S3Lists} (bucket prefix : string)
    {KL : SdkLaws bucket s3_missing s3_gone} {LL : S3ListLaws bucket} :
  ∃ L : @StorageLaws (@storage (s3_bucket bucket) prefix),
    (∀ (w : net) (ws : list osw) p, @view _ L (w, ws) !! p = s_objects w !! (prefix +:+ p)) ∧
    (∀ w : net, @inv _ L (w, [])).
Proof.
  assert (∀ p, relative p → @valid_key _ (s3_laws bucket) (prefix +:+ p)) as Hvalid by (intros p Hp; by apply prefixed_nonempty).
  exists (@ObjectStorage.laws _ (s3_laws bucket) prefix Hvalid). split; [intros w ws p; apply under_lookup|]. intros w j x Hx. done.
Qed.

Lemma S3_storage_witness :
  let SU := Server.surroundings in let SV := Server.store in let SDK := Sdks.sdk in let SE := Sdks.s3_errors in let SL := Sdks.s3_lists in
  ∃ L : @StorageLaws (@storage (s3_bucket "b") "backups/"),
    (∀ (w : net) (ws : list osw) p, @view _ L (w, ws) !! p = s_objects w !! ("backups/" +:+ p)) ∧
    (∀ w : net, @inv _ L (w, [])).
Proof.
  intros SU SV SDK SE SL.
  exact (@S3_storage SU SV Server.calm SDK SE SL "b" "backups/" (Sdks.s3_sdk_laws "b") (Sdks.s3_list_laws "b")).
Defined.

(** C23. [ObjectStorage] over the OCI client keeps the contract of [Storage]
    likewise. *)
Theorem OCI_storage {SU : Surroundings} {SV : StoreView} {CL : CalmLaws} {SDK : Sdk} {OE : OciErrors} {OL : OciLists} (bucket prefix : string)
    {KL : SdkLaws bucket oci_missing oci_missing} {LL : OciListLaws bucket} :
  ∃ L : @StorageLaws (@storage (oci_bucket bucket) prefix),
    (∀ (w : net) (ws : list osw) p, @view _ L (w, ws) !! p = s_objects w !! (prefix +:+ p)) ∧
    (∀ w : net, @inv _ L (w, [])).
Proof.
  assert (∀ p, relative p → @valid_key _ (oci_laws bucket) (prefix +:+ p)) as Hvalid by (intros p Hp; by apply prefixed_nonempty).
  exists (@ObjectStorage.laws _ (oci_laws bucket) prefix Hvalid). split; [intros w ws p; apply under_lookup|]. intros w j x Hx. done.
Qed.

Lemma OCI_storage_witness :
  let SU := Server.surroundings in let SV := Server.store in let SDK := Sdks.sdk in let OE := Sdks.oci_errors in let OL := Sdks.oci_lists in
  ∃ L : @StorageLaws (@storage (oci_bucket "b") "backups/"),
    (∀ (w : net) (ws : list osw) p, @view _ L (w, ws) !! p = s_objects w !! ("backups/" +:+ p)) ∧
    (∀ w : net, @inv _ L (w, [])).
Proof.
  intros SU SV SDK OE OL.
  exact (@OCI_storage SU SV Server.calm SDK OE OL "b" "backups/" (Sdks.oci_sdk_laws "b") (Sdks.oci_list_laws "b")).
Defined.

(** Listing the buckets of an account returns the whole list
    in its order over any paging, with either client, and changes nothing. *)
Theorem ListBuckets_complete {SU : Surroundings} {SV : StoreView} {CL : CalmLaws}
    {SE : S3Errors} {SL : S3Lists} {OE : OciErrors} {OL : OciLists} (bucket : string) {L1 : S3ListLaws bucket} {L2 : OciListLaws bucket} policy ctx comp w r w' :
  (s3_ListBuckets policy ctx w = (r, w') →
     unchanged w w' ∧ returns r ∧ ∀ l, r = Ok l → l = s3_names None) ∧
  (oci_ListBuckets policy ctx comp w = (r, w') →
     unchanged w w' ∧ returns r ∧ ∀ l, r = Ok l → l = oci_buckets comp None).
Proof. split; intros H; [by eapply (s3_ListBuckets_spec policy bucket)|by eapply (oci_ListBuckets_spec policy bucket)]. Qed.

Definition busy : Server.srv := {|
  Server.objs := ∅; Server.ups := ∅; Server.ids := ∅; Server.cancelled := false; Server.gone_404 := false;
  Server.schedule := [Server.FLost; Server.FNone; Server.FStatus 503] |}.
Definition busy_buckets : res (list string) * Server.srv :=
  @s3_ListBuckets Server.surroundings Sdks.s3_errors Sdks.s3_lists DefaultRetryPolicy [] busy.

Lemma ListBuckets_complete_witness :
  let SU := Server.surroundings in let SV := Server.store in
  busy_buckets.1 = Ok ["a"; "b"; "c"] ∧ unchanged (busy : net) (busy_buckets.2 : net).
Proof.
  intros SU SV. split; [vm_compute; reflexivity|].
  exact (proj1 (proj1 (@ListBuckets_complete SU SV Server.calm Sdks.s3_errors Sdks.s3_lists Sdks.oci_errors Sdks.oci_lists "b"
    (Sdks.s3_list_laws "b") (Sdks.oci_list_laws "b") DefaultRetryPolicy [] "" busy _ _) (surjective_pairing _))).
Defined.

(** When the answer to a completion is lost, both clients find the object and
    report success, where the HTTP client may not. *)
Example Complete_lost_answer_sdk :
  let w : Server.srv := {|
    Server.objs := {["k" := bytes_of_string "old"]}; Server.ups := {["u" := ("k", {[1 := ("e", bytes_of_string "new")]})]};
    Server.ids := {["u"]}; Server.cancelled := false; Server.gone_404 := true; Server.schedule := [Server.FLate] |} in
  (@sdk_Complete Server.surroundings Sdks.sdk (@s3_dialect Sdks.s3_errors) DefaultRetryPolicy [] "b" "k" "u" {[1 := "e"]} w).1 = Ok tt ∧
  (@sdk_Complete Server.surroundings Sdks.sdk (@oci_dialect Sdks.oci_errors) DefaultRetryPolicy [] "b" "k" "u" {[1 := "e"]} w).1 = Ok tt.
Proof. vm_compute. split; reflexivity. Qed.
