(* ===== verification/Auth.v ===== *)
(** Choosing and configuring a storage client: the registry of providers
    ([storage_clients/registry.go]), auth strings ([storage_clients/auth.go]), and
    how the S3 and OCI clients read their credentials and region from one
    ([NewS3Client], [NewOCIClient]).  The vendors' configuration code and the
    environment are interfaces. *)

From S2P Require Import Prelude Errors GoStrings Url.
#[local] Open Scope Z_scope.

(** ** The registry *)

Section Registry.
Context {Client : Type}.

Definition ClientFactory : Type := string → string → res Client.
Definition registry : Type := gmap string ClientFactory.

Definition RegisterClient (provider : string) (factory : ClientFactory) (reg : registry) : registry := <[provider := factory]> reg.

Definition GetClient (reg : registry) (provider authType namespace : string) : res Client :=
  match reg !! provider with
  | Some factory => factory authType namespace
  | None => Err (Errorf "provider is not supported in this build" [ESentinel ErrUnsupportedProvider])
  end.

End Registry.

(** ** Auth strings *)

(** The case tables of package unicode, for strings that are not ASCII. *)
Class Unicode := { unicode_ToLower : string → string }.

Definition is_ascii (s : string) : bool := forallb (λ c, byte_of c <? 128) (chars s).
(** [strings.ToLower]. *)
Definition ToLower {U : Unicode} (s : string) : string :=
  if is_ascii s then of_chars (to_lower <$> chars s) else unicode_ToLower s.

(** The scan for the first [;] outside brackets: what is before it and after
    it. *)
Fixpoint scan_base (depth : Z) (l : list ascii) : option (list ascii * list ascii) :=
  match l with
  | [] => None
  | c :: l =>
      if bool_decide (c = ";"%char) && (depth =? 0) then Some ([], l)
      else
        let depth :=
          if bool_decide (c = "["%char) then depth + 1
          else if bool_decide (c = "]"%char) then (if 0 <? depth then depth - 1 else depth)
          else depth in
        (λ x, (c :: x.1, x.2)) <$> scan_base depth l
  end.

Definition invalid_config (m : string) : error := Errorf m [ESentinel ErrInvalidConfig].

Section ParseAuth.
Context {U : Unicode} (allowed : list string).

(** One option. *)
Definition auth_option (opts : gmap string string) (seg : string) : res (gmap string string) :=
  let seg := TrimSpace seg in
  if bool_decide (seg = "") then Ok opts
  else
    let '(k, v, ok) := match Cut seg "=" with Some (k, v) => (k, v, true) | None => (seg, "", false) end in
    let k := ToLower (TrimSpace k) in
    let v := TrimSpace v in
    if negb ok || bool_decide (k = "") then Err (invalid_config "malformed auth option (want key=value)")
    else if negb (bool_decide (k ∈ allowed)) then Err (invalid_config "unknown auth option")
    else if bool_decide (is_Some (opts !! k)) then Err (invalid_config "duplicate auth option")
    else Ok (<[k := v]> opts).

Fixpoint auth_options (opts : gmap string string) (segs : list string) : res (gmap string string) :=
  match segs with
  | [] => Ok opts
  | seg :: segs => let! opts := auth_option opts seg in auth_options opts segs
  end.

(** [ParseAuthString]. *)
Definition ParseAuthString (auth : string) : res (string * gmap string string) :=
  match scan_base 0 (chars auth) with
  | None => Ok (TrimSpace auth, ∅)
  | Some (base, rest) =>
      let! opts := auth_options ∅ (Split (of_chars rest) ";") in
      Ok (TrimSpace (of_chars base), opts)
  end.

End ParseAuth.

(** [s[len(p) : len(s)-1]] of a string that begins with [p] and ends with a
    bracket. *)
Definition argument (s p : string) : string :=
  of_chars (take (String.length s - String.length p - 1) (drop (String.length p) (chars s))).

(** The environment, and the vendors' configuration code: what fails in it. *)
Class Vendor := {
  Getenv : string → string;
  LoadDefaultConfig : string → option error;
}.

(** ** S3 *)

Inductive s3_credentials :=
| StaticCredentials (key secret token : string)
| DefaultCredentials
| AssumeRole (roleARN : string).

Record s3_config := { s3_Region : string; s3_Credentials : s3_credentials }.

Section S3.
Context {U : Unicode} {V : Vendor}.

(** The first that is set. *)
Definition first_nonempty (l : list string) : string := default "" (head (filter (λ s, s ≠ "") l)).

(** [S3_ACCESS_KEYS[...]]. *)
Definition access_keys (keysStr : string) : res s3_credentials :=
  let bad := Err (invalid_config "invalid S3_ACCESS_KEYS format (want S3_ACCESS_KEYS[KEY:SECRET[:TOKEN]])") in
  match Split keysStr ":" with
  | [k; s] => if bool_decide (k = "") || bool_decide (s = "") then bad else Ok (StaticCredentials k s "")
  | [k; s; t] => if bool_decide (k = "") || bool_decide (s = "") then bad else Ok (StaticCredentials k s t)
  | _ => bad
  end.

(** [NewS3Client]: the configuration of the client. *)
Definition NewS3Client (authType : string) : res s3_config :=
  let! parsed := ParseAuthString ["region"] authType in
  let '(baseAuth, opts) := parsed in
  let region := first_nonempty [default "" (opts !! "region"); Getenv "AWS_REGION"; Getenv "AWS_DEFAULT_REGION"; "ap-south-1"] in
  if HasPrefix baseAuth "S3_ACCESS_KEYS[" && HasSuffix baseAuth "]" then
    let! c := access_keys (argument baseAuth "S3_ACCESS_KEYS[") in
    Ok {| s3_Region := region; s3_Credentials := c |}
  else if bool_decide (baseAuth = "DEFAULT") || HasPrefix baseAuth "DEFAULT[" && HasSuffix baseAuth "]" then
    match LoadDefaultConfig region with
    | Some e => Err (Errorf "failed to load default AWS config" [e])
    | None =>
        if HasPrefix baseAuth "DEFAULT[" then
          let roleARN := TrimSpace (argument baseAuth "DEFAULT[") in
          if bool_decide (roleARN = "") then Err (invalid_config "empty role ARN provided in DEFAULT[...] authType")
          else Ok {| s3_Region := region; s3_Credentials := AssumeRole roleARN |}
        else Ok {| s3_Region := region; s3_Credentials := DefaultCredentials |}
    end
  else Err (invalid_config "unsupported authType for S3 client").

End S3.

(** ** OCI *)

Inductive oci_provider :=
| DefaultConfigProvider
| CustomProfileConfigProvider (path profile : string)
| OkeWorkloadIdentity
| InstancePrincipal
| ResourcePrincipal.

Record oci_config := { oci_Provider : oci_provider; oci_Namespace : string; oci_Region : option string }.

(** What fails when the OCI SDK makes a provider, or a client from it. *)
Class OciVendor := {
  provider_error : oci_provider → option error;
  client_error : oci_provider → option error;
}.

Section OCI.
Context {U : Unicode} {V : OciVendor}.

(** A provider that may fail to be made. *)
Definition make_provider (m : string) (p : oci_provider) : res oci_provider :=
  match provider_error p with Some e => Err (Errorf m [e]) | None => Ok p end.

(** [newConfigProvider]. *)
Definition newConfigProvider (baseAuth : string) : res oci_provider :=
  if bool_decide (baseAuth = "") || bool_decide (baseAuth = "DEFAULT") then Ok DefaultConfigProvider
  else if bool_decide (baseAuth = "OCI_CONFIG_FILE") then Ok (CustomProfileConfigProvider "~/.oci/config" "DEFAULT")
  else if HasPrefix baseAuth "OCI_CONFIG_FILE[" && HasSuffix baseAuth "]" then
    let profile := TrimSpace (argument baseAuth "OCI_CONFIG_FILE[") in
    Ok (CustomProfileConfigProvider "~/.oci/config" (if bool_decide (profile = "") then "DEFAULT" else profile))
  else if bool_decide (baseAuth = "OKE_WORKLOAD_IDENTITY") then make_provider "failed to create OKE workload identity provider" OkeWorkloadIdentity
  else if bool_decide (baseAuth = "INSTANCE_PRINCIPAL") then make_provider "failed to create instance principal provider" InstancePrincipal
  else if bool_decide (baseAuth = "RESOURCE_PRINCIPAL") then make_provider "failed to create resource principal provider" ResourcePrincipal
  else Err (invalid_config "unsupported OCI auth type").

(** [NewOCIClient]: the configuration of the client. *)
Definition NewOCIClient (namespace authType : string) : res oci_config :=
  if bool_decide (namespace = "") then Err (invalid_config "namespace is required")
  else
    let! parsed := ParseAuthString ["region"] authType in
    let '(baseAuth, opts) := parsed in
    let! provider := newConfigProvider baseAuth in
    match client_error provider with
    | Some e => Err (Errorf "failed to create OCI object storage client" [e])
    | None =>
        let region := default "" (opts !! "region") in
        Ok {| oci_Provider := provider; oci_Namespace := namespace; oci_Region := if bool_decide (region = "") then None else Some region |}
    end.

End OCI.
