(* ===== verification/AuthProps.v ===== *)
(** What auth strings mean: printing the documented form and parsing it gives
    back the parts; what is accepted and what is refused. *)

From S2P Require Import Prelude Errors GoStrings Url Auth Digest Retry Store Attempts ObjectStorage Parts Http.
#[local] Open Scope Z_scope.

(** ** Joined strings *)

Fixpoint join_with (sep : ascii) (parts : list string) : string :=
  match parts with
  | [] => ""
  | [p] => p
  | p :: ps => p +:+ String sep (join_with sep ps)
  end.

Lemma Split_join_with sep parts : parts ≠ [] → Forall (λ p, has_char sep p = false) parts → Split (join_with sep parts) sep = parts.
Proof.
  intros Hne Hall. induction Hall as [|p ps Hp Hps IH]; [done|]. apply has_char_false in Hp. unfold Split in *. destruct ps as [|q ps].
  - cbn [join_with]. rewrite split_chars_nosep by done. csimpl. by rewrite of_chars_chars.
  - change (join_with sep (p :: q :: ps)) with (p +:+ String sep (join_with sep (q :: ps))). rewrite chars_app.
    change (chars (String sep ?s)) with (sep :: chars s). rewrite split_chars_app by done. rewrite fmap_cons, of_chars_chars. by rewrite IH.
Qed.

(** ** White space *)

(** No word of [words] begins [l]. *)
Definition no_word (words : list (list ascii)) (l : list ascii) : Prop := Forall (λ w, is_prefix w l = false) words.

Lemma no_word_filter words l : no_word words l → filter (λ w, is_prefix w l = true) words = [].
Proof. induction 1 as [|w words Hw _ IH]; [done|]. rewrite filter_cons, decide_False by congruence. done. Qed.

Lemma strip_no_word fuel words l : no_word words l → strip fuel words l = l.
Proof. intros H. destruct fuel; [done|]. cbn [strip]. by rewrite no_word_filter. Qed.

Lemma strip_length fuel words l : (length (strip fuel words l) ≤ length l)%nat.
Proof.
  revert l. induction fuel as [|fuel IH]; intros l; [done|]. cbn [strip]. destruct (head _) as [w|]; [|done].
  etrans; [apply IH|]. rewrite length_drop. lia.
Qed.

(** If nothing was stripped, there was nothing to strip. *)
Lemma strip_same fuel words l : Forall (λ w, w ≠ []) words → length (strip (S fuel) words l) = length l → no_word words l.
Proof.
  intros Hw. cbn [strip]. destruct (filter (λ w, is_prefix w l = true) words) as [|w ws] eqn:E; cbn [head].
  - intros _. unfold no_word. rewrite Forall_forall. intros w Hin. destruct (is_prefix w l) eqn:Ep; [|done]. exfalso.
    assert (w ∈ filter (λ w, is_prefix w l = true) words) as Hf by (by apply list_elem_of_filter). rewrite E in Hf. by apply not_elem_of_nil in Hf.
  - intros Hlen. exfalso. pose proof (strip_length fuel words (drop (length w) l)) as Hs. rewrite Hlen, length_drop in Hs.
    assert (w ∈ filter (λ w, is_prefix w l = true) words) as [Hp Hin]%list_elem_of_filter by (rewrite E; left).
    rewrite Forall_forall in Hw. specialize (Hw w Hin). destruct w as [|c w]; [done|]. destruct l as [|d l]; [done|]. simpl in Hs. lia.
Qed.

Lemma spaces_nonempty : Forall (λ w, w ≠ []) spaces ∧ Forall (λ w, w ≠ []) (map reverse spaces).
Proof. split; (eapply bool_decide_eq_true_1; vm_compute; reflexivity). Qed.

(** A string without white space at its ends. *)
Definition clean (s : string) : Prop := TrimSpace s = s.

Lemma clean_spec s : clean s ↔ no_word spaces (chars s) ∧ no_word (map reverse spaces) (reverse (chars s)).
Proof.
  destruct spaces_nonempty as [H1 H2]. unfold clean, TrimSpace. rewrite <- (length_chars s). split.
  - intros E%(f_equal (λ x, length (chars x))). rewrite chars_of_chars, length_reverse in E.
    set (l := strip (length (chars s)) spaces (chars s)) in *.
    pose proof (strip_length (length l) (map reverse spaces) (reverse l)) as L1. pose proof (strip_length (length (chars s)) spaces (chars s)) as L2. fold l in L2.
    rewrite length_reverse in L1. assert (length l = length (chars s)) as El by lia.
    destruct (chars s) as [|c t] eqn:Es.
    { split; [eapply Forall_impl; [exact H1|]|eapply Forall_impl; [exact H2|]]; by intros [|]. }
    assert (no_word spaces (c :: t)) as Hn by (apply (strip_same (length t)); [done|exact El]).
    assert (l = c :: t) as El2 by (subst l; rewrite ?Es; by apply strip_no_word). clearbody l. subst l.
    split; [done|]. apply (strip_same (length t)); [done|]. rewrite length_reverse. exact E.
  - intros [Hf Hb]. cbv zeta. rewrite (strip_no_word _ _ _ Hf), (strip_no_word _ _ _ Hb). by rewrite reverse_involutive, of_chars_chars.
Qed.

(** White space that ends at a byte which no white space contains. *)
Lemma is_prefix_stop w l c k : c ∉ w → is_prefix w l = false → is_prefix w (l ++ c :: k) = false.
Proof.
  revert l. induction w as [|a w IH]; intros l; [done|]. rewrite not_elem_of_cons. intros [Hca Hcw]. destruct l as [|b l]; cbn.
  - intros _. by rewrite bool_decide_false.
  - case_bool_decide; [|done]. cbn. by apply IH.
Qed.

Lemma no_word_stop words l c k : Forall (λ w, c ∉ w) words → no_word words l → no_word words (l ++ c :: k).
Proof. intros Hc Hl. unfold no_word in *. rewrite Forall_forall in *. intros w Hw. apply is_prefix_stop; auto. Qed.

Lemma no_space_stop c : bool_decide (Forall (λ w, c ∉ w) spaces) = true →
  Forall (λ w, c ∉ w) spaces ∧ Forall (λ w, c ∉ w) (map reverse spaces).
Proof.
  intros H%bool_decide_eq_true_1. split; [done|]. rewrite Forall_forall in *. intros w (v & -> & Hv)%list_elem_of_fmap.
  rewrite elem_of_reverse. auto.
Qed.

Lemma clean_join k v c : bool_decide (Forall (λ w, c ∉ w) spaces) = true → clean k → clean v → clean (k +:+ String c v).
Proof.
  rewrite !clean_spec. intros [H1 H2]%no_space_stop [Hk _] [_ Hv]. rewrite chars_app. change (chars (String c v)) with (c :: chars v).
  split; [by apply no_word_stop|]. rewrite reverse_app, reverse_cons, <- app_assoc. by apply no_word_stop.
Qed.

Lemma TrimSpace_space s : clean s → TrimSpace (String " " s) = s.
Proof.
  rewrite clean_spec. intros [Hf Hb]. unfold TrimSpace. change (chars (String " " s)) with (" "%char :: chars s).
  change (String.length (String " " s)) with (S (String.length s)).
  assert (strip (S (String.length s)) spaces (" "%char :: chars s) = chars s) as ->.
  { cbn [strip]. change (head (filter (λ w, is_prefix w (" "%char :: chars s) = true) spaces)) with (Some [" "%char]).
    cbn [length drop]. by apply strip_no_word. }
  cbv zeta. rewrite strip_no_word by done. by rewrite reverse_involutive, of_chars_chars.
Qed.

(** ** Auth strings *)

(** The [;] after a base is the first one outside its brackets. *)
Definition base_closed (base : string) : Prop := scan_base 0 (chars base ++ [";"%char]) = Some (chars base, []).

Lemma scan_base_app d l k : scan_base d (l ++ [";"%char]) = Some (l, []) → scan_base d (l ++ ";"%char :: k) = Some (l, k).
Proof.
  revert d. induction l as [|c l IH]; intros d.
  - cbn. destruct (d =? 0); [by intros _|done].
  - cbn [app scan_base]. destruct (bool_decide (c = ";"%char) && (d =? 0)); [done|].
    destruct (scan_base _ (l ++ [_])) as [[x y]|] eqn:E; [|done]. cbn. intros [= -> ->]. by rewrite (IH _ E).
Qed.

Lemma scan_base_none d l : scan_base d (l ++ [";"%char]) = Some (l, []) → scan_base d l = None.
Proof.
  revert d. induction l as [|c l IH]; intros d; [done|].
  cbn [app scan_base]. destruct (bool_decide (c = ";"%char) && (d =? 0)); [done|].
  destruct (scan_base _ (l ++ [_])) as [[x y]|] eqn:E; [|done]. cbn. intros [= -> ->]. by rewrite (IH _ E).
Qed.

(** The documented form. *)
Definition print_option (kv : string * string) : string := kv.1 +:+ String "=" kv.2.
Definition print_auth (base : string) (opts : list (string * string)) : string :=
  match opts with
  | [] => base
  | _ => base +:+ String ";" (join_with ";" (print_option <$> opts))
  end.

Section Options.
Context {U : Unicode} (allowed : list string).

Record option_ok (kv : string * string) : Prop := {
  ok_allowed : kv.1 ∈ allowed;
  ok_lower : ToLower kv.1 = kv.1;
  ok_key : kv.1 ≠ "" ∧ clean kv.1 ∧ has_char "=" kv.1 = false ∧ has_char ";" kv.1 = false;
  ok_value : clean kv.2 ∧ has_char ";" kv.2 = false;
}.

Lemma auth_option_print m kv : option_ok kv → m !! kv.1 = None → auth_option allowed m (print_option kv) = Ok (<[kv.1 := kv.2]> m).
Proof.
  intros [Ha Hl (Hne & Hk & Heq & _) [Hv _]] Hm. unfold auth_option, print_option.
  assert (clean (kv.1 +:+ String "=" kv.2)) as -> by (by apply clean_join). cbv zeta.
  rewrite bool_decide_false by (destruct kv.1; [done|by intros]). rewrite Cut_app by done.
  rewrite Hk, Hv, Hl. cbn [negb orb]. rewrite bool_decide_false by done. rewrite bool_decide_true by done. cbn [negb].
  rewrite bool_decide_false; [done|]. rewrite Hm. by intros [].
Qed.

Lemma auth_options_print m opts : Forall option_ok opts → NoDup opts.*1 → (∀ k, k ∈ opts.*1 → m !! k = None) →
  auth_options allowed m (print_option <$> opts) = Ok (list_to_map opts ∪ m).
Proof.
  intros Hok. revert m. induction Hok as [|kv opts Hkv _ IH]; intros m Hnd Hm; cbn [fmap list_fmap auth_options list_to_map foldr].
  { by rewrite (left_id_L ∅ (∪)). }
  apply NoDup_cons in Hnd as [Hni Hnd]. rewrite auth_option_print; [|done|apply Hm; left]. cbn [obind]. rewrite IH; [|done|].
  - f_equal. cbn [uncurry]. destruct kv as [k v]. cbn [fst snd] in *. rewrite <- insert_union_r, insert_union_l; [done|].
    by apply not_elem_of_list_to_map_1.
  - intros k Hk. rewrite lookup_insert_ne by (intros <-; done). apply Hm. by right.
Qed.

Lemma ParseAuthString_print base opts : clean base → base_closed base → Forall option_ok opts → NoDup opts.*1 →
  ParseAuthString allowed (print_auth base opts) = Ok (base, list_to_map opts).
Proof.
  intros Hb Hc Hok Hnd. unfold ParseAuthString, print_auth. destruct opts as [|kv opts].
  - rewrite (scan_base_none _ _ Hc). by rewrite Hb.
  - rewrite chars_app. change (chars (String ";" ?s)) with (";"%char :: chars s). rewrite (scan_base_app _ _ _ Hc).
    rewrite !of_chars_chars, Hb, Split_join_with; [|done|].
    + rewrite auth_options_print; [|done|done|by intros; apply lookup_empty]. cbn [obind]. by rewrite (right_id_L ∅ (∪)).
    + rewrite Forall_fmap. eapply Forall_impl; [exact Hok|]. intros [k v] [_ _ (_ & _ & _ & Hk) [_ Hv]]. cbn in *.
      apply has_char_false. unfold print_option. cbn [fst snd]. rewrite chars_app. rewrite not_elem_of_app. apply has_char_false in Hk, Hv.
      split; [done|]. change (chars (String "=" v)) with ("="%char :: chars v). rewrite not_elem_of_cons. done.
Qed.

(** Every failure of the parser is a configuration error, every option it
    returns is an allowed one. *)
Definition parsed (r : res (gmap string string)) : Prop :=
  match r with
  | Ok opts => ∀ k, is_Some (opts !! k) → k ∈ allowed ∧ k ≠ ""
  | Err e => errors_Is e ErrInvalidConfig = true
  | _ => False
  end.

Lemma auth_option_parsed m seg : parsed (Ok m) → parsed (auth_option allowed m seg).
Proof.
  intros Hm. unfold auth_option. cbv zeta. case_bool_decide; [done|]. destruct (match Cut _ _ with Some _ => _ | None => _ end) as [[k v] ok].
  destruct (negb ok || _) eqn:E; [done|]. apply orb_false_iff in E as [_ E%bool_decide_eq_false].
  destruct (bool_decide (_ ∈ allowed)) eqn:Ea; cbn [negb]; [|done]. apply bool_decide_eq_true in Ea.
  case_bool_decide; [done|]. intros k'. destruct (decide (k' = ToLower (TrimSpace k))) as [->|Hne]; [done|].
  rewrite lookup_insert_ne by done. apply Hm.
Qed.

Lemma auth_options_parsed segs m : parsed (Ok m) → parsed (auth_options allowed m segs).
Proof.
  revert m. induction segs as [|seg segs IH]; intros m Hm; [done|]. cbn [auth_options].
  pose proof (auth_option_parsed m seg Hm) as H. destruct (auth_option allowed m seg) as [m1|e| |]; [by apply IH|done..].
Qed.

End Options.

(** ** Properties *)

(** Printing the documented form of an auth string and parsing it gives
    the parts back: for a base without white space at its ends, whatever is in its
    brackets, and options with distinct, allowed, lower-case keys. *)
Theorem ParseAuthString_roundtrip {U : Unicode} allowed base opts :
  clean base → base_closed base → Forall (option_ok allowed) opts → NoDup opts.*1 →
  ParseAuthString allowed (print_auth base opts) = Ok (base, list_to_map opts).
Proof. apply ParseAuthString_print. Qed.

Definition ascii_only : Unicode := {| unicode_ToLower s := s |}.

Lemma ParseAuthString_roundtrip_witness :
  let U := ascii_only in
  ParseAuthString ["region"] (print_auth "DEFAULT[arn;x]" [("region", "eu west=1")]) = Ok ("DEFAULT[arn;x]", {["region" := "eu west=1"]}).
Proof.
  intros U. apply (ParseAuthString_roundtrip ["region"] "DEFAULT[arn;x]" [("region", "eu west=1")]); [reflexivity|reflexivity| |].
  - constructor; [|constructor]. constructor; [left|reflexivity|split_and!; try reflexivity; discriminate|by split].
  - apply NoDup_singleton.
Defined.

(** An auth string is either taken apart, with options from the allowed
    keys only, or refused with [ErrInvalidConfig]; no string makes the parser
    panic. *)
Theorem ParseAuthString_result {U : Unicode} allowed auth :
  match ParseAuthString allowed auth with
  | Ok (_, opts) => ∀ k, is_Some (opts !! k) → k ∈ allowed ∧ k ≠ ""
  | Err e => errors_Is e ErrInvalidConfig = true
  | _ => False
  end.
Proof.
  unfold ParseAuthString. destruct (scan_base 0 (chars auth)) as [[base rest]|]; [|intros k; rewrite lookup_empty; by intros []].
  assert (parsed allowed (Ok ∅)) as H0 by (intros k; rewrite lookup_empty; by intros []).
  pose proof (auth_options_parsed allowed (Split (of_chars rest) ";") ∅ H0) as H.
  destruct (auth_options allowed ∅ _); done.
Qed.

(** ** Credentials *)

Lemma bracketed_clean p s : no_word spaces (chars p) → clean (p +:+ String "[" (s +:+ "]")).
Proof.
  intros Hp. rewrite clean_spec, chars_app. change (chars (String "[" ?s)) with ("["%char :: chars s). split.
  - apply no_word_stop; [|done]. eapply bool_decide_eq_true_1; vm_compute; reflexivity.
  - rewrite reverse_app, reverse_cons, chars_app, reverse_app. change (reverse (chars "]")) with ["]"%char].
    rewrite <- !app_assoc. apply (no_word_stop _ [] "]"%char); eapply bool_decide_eq_true_1; vm_compute; reflexivity.
Qed.

Lemma bracketed_argument p s :
  HasPrefix (p +:+ s +:+ "]") p = true ∧ HasSuffix (p +:+ s +:+ "]") "]" = true ∧ argument (p +:+ s +:+ "]") p = s.
Proof.
  split_and!.
  - apply HasPrefix_spec. by eexists.
  - unfold HasSuffix. rewrite !chars_app, !reverse_app. change (reverse (chars "]")) with ["]"%char]. by rewrite <- !app_assoc.
  - unfold argument. rewrite <- !length_chars, !chars_app, drop_app_length, !length_app. change (length (chars "]")) with 1%nat.
    replace (length (chars p) + (length (chars s) + 1) - length (chars p) - 1)%nat with (length (chars s)) by lia.
    by rewrite take_app_length, of_chars_chars.
Qed.

(** Static credentials and a region are read from an auth string as they
    were put there: for a key, a secret and a token without colons, in brackets
    that close. *)
Theorem NewS3Client_keys {U : Unicode} {V : Vendor} key secret token region :
  let keys := key +:+ String ":" (secret +:+ String ":" token) in
  key ≠ "" → secret ≠ "" → Forall (λ s, has_char ":" s = false) [key; secret; token] →
  base_closed ("S3_ACCESS_KEYS[" +:+ keys +:+ "]") → option_ok ["region"] ("region", region) → region ≠ "" →
  NewS3Client (print_auth ("S3_ACCESS_KEYS[" +:+ keys +:+ "]") [("region", region)]) =
    Ok {| s3_Region := region; s3_Credentials := StaticCredentials key secret token |}.
Proof.
  intros keys Hk Hs [Hck [Hcs [Hct _]%Forall_cons]%Forall_cons]%Forall_cons Hb Ho Hr. unfold NewS3Client.
  destruct (bracketed_argument "S3_ACCESS_KEYS[" keys) as (H1 & H2 & H3).
  rewrite ParseAuthString_print; [|by apply (bracketed_clean "S3_ACCESS_KEYS"); eapply bool_decide_eq_true_1; vm_compute|done|by constructor|apply NoDup_singleton].
  cbn [obind]. rewrite H1, H2, H3. cbn [andb]. unfold access_keys.
  assert (Split keys ":" = [key; secret; token]) as ->.
  { change keys with (join_with ":" [key; secret; token]). apply Split_join_with; [done|by repeat constructor]. }
  rewrite !bool_decide_false by done. cbn [orb obind]. do 2 f_equal. cbn [list_to_map foldr uncurry fst snd]. rewrite lookup_insert_eq. unfold first_nonempty. cbn [from_option Datatypes.id].
  by rewrite filter_cons, decide_True by done.
Qed.

Definition no_vendor : Vendor := {| Getenv _ := ""; LoadDefaultConfig _ := None |}.

Lemma NewS3Client_keys_witness :
  let U := ascii_only in let V := no_vendor in
  NewS3Client (print_auth "S3_ACCESS_KEYS[AK:s/e+c;r=:]" [("region", "eu-west-1")]) =
    Ok {| s3_Region := "eu-west-1"; s3_Credentials := StaticCredentials "AK" "s/e+c;r=" "" |}.
Proof.
  intros U V. apply (NewS3Client_keys "AK" "s/e+c;r=" "" "eu-west-1"); try discriminate; try reflexivity; [by repeat constructor|].
  constructor; [left|reflexivity|split_and!; try reflexivity; discriminate|by split].
Defined.

(** ** Headers *)

Lemma token_no_space c l : is_token_char c = true → filter (λ w, is_prefix w (c :: l) = true) spaces = [] ∧
  filter (λ w, is_prefix w (c :: l) = true) (map reverse spaces) = [].
Proof. every_char c; intros H; try discriminate H; split; reflexivity. Qed.

Lemma filter_no_word words l : filter (λ w, is_prefix w l = true) words = [] → no_word words l.
Proof.
  intros E. unfold no_word. rewrite Forall_forall. intros w Hw. destruct (is_prefix w l) eqn:Ep; [|done]. exfalso.
  assert (w ∈ filter (λ w, is_prefix w l = true) words) as Hf by (by apply list_elem_of_filter). rewrite E in Hf. by apply not_elem_of_nil in Hf.
Qed.

Lemma isToken_spec s : isToken s = true ↔ s ≠ "" ∧ Forall (λ c, is_token_char c = true) (chars s).
Proof. unfold isToken. rewrite andb_true_iff, negb_true_iff, bool_decide_eq_false, forallb_forall, Forall_forall. by setoid_rewrite list_elem_of_In. Qed.

Lemma token_clean s : isToken s = true → clean s.
Proof.
  rewrite isToken_spec, clean_spec. intros [Hne Hall]. split.
  - destruct (chars s) as [|c l] eqn:E; [by apply (chars_inj s "") in E|]. apply Forall_cons in Hall as [Hc _]. by apply filter_no_word, token_no_space.
  - destruct (reverse (chars s)) as [|c l] eqn:E; [by apply (f_equal reverse) in E; rewrite reverse_involutive in E; apply (chars_inj s "") in E|].
    apply filter_no_word, token_no_space. rewrite Forall_forall in Hall. apply Hall. rewrite <- elem_of_reverse, E. left.
Qed.

Lemma token_without c s : is_token_char c = false → isToken s = true → has_char c s = false.
Proof.
  rewrite isToken_spec. intros Hc [_ Hall]. apply has_char_false. intros Hin. rewrite Forall_forall in Hall. apply Hall in Hin. congruence.
Qed.

(** The documented form [HEADER[Key1: Val1, Key2: Val2]]. *)
Definition print_header (kv : string * string) : string := kv.1 +:+ String ":" (String " " kv.2).
Definition print_headers (hs : list (string * string)) : string :=
  "HEADER[" +:+ join_with "," (match print_header <$> hs with [] => [] | s :: l => s :: (String " " <$> l) end) +:+ "]".

Record header_ok (kv : string * string) : Prop := {
  ok_name : isToken kv.1 = true ∧ CanonicalHeaderKey kv.1 = kv.1;
  ok_content : clean kv.2 ∧ has_char "," kv.2 = false;
}.

Lemma header_segment_print st kv s : header_ok kv → s = print_header kv ∨ s = String " " (print_header kv) →
  header_segment st s = Ok (<[kv.1 := kv.2]> st.1, kv.1).
Proof.
  intros [[Ht Hc] [Hv _]] Hs. pose proof (token_clean _ Ht) as Hk. pose proof (token_without ":" _ eq_refl Ht) as Hcol.
  destruct st as [m last]. unfold header_segment, print_header in *. destruct Hs as [->| ->].
  - rewrite Cut_app by done. cbv beta iota zeta. unfold clean in Hk. rewrite Hk, Ht. cbv beta iota zeta. by rewrite Hc, TrimSpace_space by done.
  - change (String " " (kv.1 +:+ String ":" (String " " kv.2))) with (String " " kv.1 +:+ String ":" (String " " kv.2)).
    rewrite Cut_app by exact Hcol. cbv beta iota zeta. by rewrite !TrimSpace_space, Ht, Hc by done.
Qed.

Lemma header_segments_print m last hs segs : Forall header_ok hs → NoDup hs.*1 → (∀ k, k ∈ hs.*1 → m !! k = None) →
  Forall2 (λ kv s, s = print_header kv ∨ s = String " " (print_header kv)) hs segs →
  header_segments (m, last) segs = Ok (list_to_map hs ∪ m).
Proof.
  intros Hok Hnd Hm Hseg. revert m last Hok Hnd Hm. induction Hseg as [|kv s hs segs Hs _ IH]; intros m last Hok Hnd Hm.
  { cbn. by rewrite (left_id_L ∅ (∪)). }
  apply Forall_cons in Hok as [Hkv Hok]. cbn [header_segments]. rewrite (header_segment_print _ kv) by done.
  apply NoDup_cons in Hnd as [Hni Hnd]. cbn [fst snd]. rewrite IH; [|done|done|].
  - f_equal. destruct kv as [k v]. cbn [list_to_map foldr fst snd uncurry] in *. rewrite <- insert_union_r, insert_union_l; [done|].
    by apply not_elem_of_list_to_map_1.
  - intros k Hk. rewrite lookup_insert_ne by (intros <-; done). apply Hm. by right.
Qed.

(** The headers of an HTTP store are read from an auth string as they were
    put there, for names in canonical form and values without commas. *)
Theorem parseHeaderAuth_roundtrip hs : Forall header_ok hs → NoDup hs.*1 →
  parseHeaderAuth (print_headers hs) = Ok (list_to_map hs).
Proof.
  intros Hok Hnd. unfold parseHeaderAuth, print_headers. set (segs := match print_header <$> hs with [] => [] | s :: l => s :: (String " " <$> l) end).
  assert (clean ("HEADER[" +:+ join_with "," segs +:+ "]")) as -> by (by apply (bracketed_clean "HEADER"); eapply bool_decide_eq_true_1; vm_compute).
  cbv zeta. destruct (bracketed_argument "HEADER[" (join_with "," segs)) as (H1 & H2 & H3). rewrite H1, H2. cbn [negb orb].
  unfold argument in H3. set (X := "HEADER[" +:+ join_with "," segs +:+ "]") in *.
  replace (String.length X - 8)%nat with (String.length X - String.length "HEADER[" - 1)%nat by (change (String.length "HEADER[") with 7%nat; lia).
  change 7%nat with (String.length "HEADER["). rewrite H3. clear H1 H2 H3 X.
  destruct hs as [|kv hs]; [done|].
  assert (Forall2 (λ kv s, s = print_header kv ∨ s = String " " (print_header kv)) (kv :: hs) segs) as Hsegs.
  { subst segs. constructor; [by left|]. clear. induction hs as [|kv hs IH]; cbn; constructor; [by right|exact IH]. }
  rewrite Split_join_with; [|done|].
  - rewrite (header_segments_print _ _ (kv :: hs)) by (try done; intros; apply lookup_empty). by rewrite (right_id_L ∅ (∪)).
  - rewrite Forall_forall. intros s Hs. apply list_elem_of_lookup in Hs as [i Hi].
    destruct (Forall2_lookup_r _ _ _ _ _ Hsegs Hi) as (x & Hx & Hsx). apply list_elem_of_lookup_2 in Hx.
    rewrite Forall_forall in Hok. destruct (Hok x Hx) as [[Ht _] [_ Hv]]. pose proof (token_without "," _ eq_refl Ht) as Hc.
    assert (has_char "," (print_header x) = false) as Hp.
    { apply has_char_false. apply has_char_false in Hc, Hv. unfold print_header. rewrite chars_app, not_elem_of_app. split; [done|].
      change (chars (String ":" (String " " x.2))) with (":"%char :: " "%char :: chars x.2). rewrite !not_elem_of_cons. done. }
    destruct Hsx as [->| ->]; exact Hp.
Qed.

Lemma parseHeaderAuth_roundtrip_witness :
  parseHeaderAuth "HEADER[Authorization: Bearer a:b, X-Tenant: t 1]" = Ok {["Authorization" := "Bearer a:b"; "X-Tenant" := "t 1"]}.
Proof.
  apply (parseHeaderAuth_roundtrip [("Authorization", "Bearer a:b"); ("X-Tenant", "t 1")]).
  - repeat constructor; vm_compute; reflexivity.
  - eapply bool_decide_eq_true_1; vm_compute; reflexivity.
Defined.
