(* ===== verification/Transport.v ===== *)
(** The HTTP transports below the storage clients ([storage_clients/transport.go]),
    and the parts of the S3 and OCI clients that hold and exchange an SDK
    client ([newHTTPClient], [newS3], [NewS3Client], [SetRegion] of
    [storage_clients/s3/s3.go]; [configureClient], [NewOCIClient], [SetRegion] of
    [storage_clients/oci/oci.go]).

    The constructors of the vendors' clients are interfaces; the options
    that this code sets on them are values of the model. *)

From S2P Require Import Prelude Errors GoStrings Url Retry Auth.
#[local] Open Scope Z_scope.

(** ** Transports *)

(** [net.Dialer] and [http.Transport], as far as they are set here; [tr_rest]
    stands for the other fields. *)
Record Dialer := { dial_Timeout : Z; dial_KeepAlive : Z }.
Record HttpTransport {rest : Type} := {
  tr_Dialer : option Dialer;
  TLSHandshakeTimeout : Z;
  tr_ResponseHeaderTimeout : Z;
  MaxIdleConnsPerHost : Z;
  IdleConnTimeout : Z;
  tr_rest : rest;
}.
Arguments HttpTransport : clear implicits.

Definition ResponseHeaderTimeout : Z := CompleteAttemptTimeout.
Definition GetHeaderTimeout : Z := 2 * Minute.
Definition dialTimeout : Z := 30 * Second.
Definition tlsHandshakeTimeout : Z := 15 * Second.
Definition maxIdleConnsPerHost : Z := 64.

Section Tune.
Context {rest : Type}.
Implicit Types tr : HttpTransport rest.

(** [TuneTransport]. *)
Definition TuneTransport tr : HttpTransport rest := {|
  tr_Dialer := Some {| dial_Timeout := dialTimeout; dial_KeepAlive := 30 * Second |};
  TLSHandshakeTimeout := tlsHandshakeTimeout;
  tr_ResponseHeaderTimeout := ResponseHeaderTimeout;
  MaxIdleConnsPerHost := if MaxIdleConnsPerHost tr <? maxIdleConnsPerHost then maxIdleConnsPerHost else MaxIdleConnsPerHost tr;
  IdleConnTimeout := if IdleConnTimeout tr =? 0 then 90 * Second else IdleConnTimeout tr;
  tr_rest := tr_rest tr;
|}.

(** [http.Client], and [NewHTTPClient] with a clone of
    [http.DefaultTransport]; a timeout of zero is none. *)
Record HttpClient := { hc_Transport : HttpTransport rest; hc_Timeout : Z }.
Definition NewHTTPClient (DefaultTransport : HttpTransport rest) : HttpClient :=
  {| hc_Transport := TuneTransport DefaultTransport; hc_Timeout := 0 |}.

(** The phases of a request that are bounded, and that none of them cuts
    off an attempt that the retry layer still allows. *)
Definition stall_protected tr : Prop :=
  (∃ d, tr_Dialer tr = Some d ∧ 0 < dial_Timeout d) ∧ 0 < TLSHandshakeTimeout tr ∧
  CompleteAttemptTimeout ≤ tr_ResponseHeaderTimeout tr ∧ MetadataAttemptTimeout ≤ tr_ResponseHeaderTimeout tr ∧
  GetHeaderTimeout ≤ tr_ResponseHeaderTimeout tr ∧ maxIdleConnsPerHost ≤ MaxIdleConnsPerHost tr ∧ IdleConnTimeout tr ≠ 0.

Lemma TuneTransport_protects tr : stall_protected (TuneTransport tr).
Proof.
  unfold stall_protected, TuneTransport, ResponseHeaderTimeout, CompleteAttemptTimeout, MetadataAttemptTimeout, GetHeaderTimeout,
    dialTimeout, tlsHandshakeTimeout, Minute, Second. cbn.
  split_and!; try lia; [eexists; split; [done|cbn; lia]|destruct (Z.ltb_spec (MaxIdleConnsPerHost tr) maxIdleConnsPerHost); lia|].
  destruct (Z.eqb_spec (IdleConnTimeout tr) 0); [unfold Second|]; lia.
Qed.

(** Tuning twice is tuning once. *)
Lemma TuneTransport_idem tr : TuneTransport (TuneTransport tr) = TuneTransport tr.
Proof.
  unfold TuneTransport. cbn. f_equal.
  - destruct (Z.ltb_spec (MaxIdleConnsPerHost tr) maxIdleConnsPerHost) as [H|H]; [done|]. by rewrite (proj2 (Z.ltb_ge _ _)).
  - destruct (Z.eqb_spec (IdleConnTimeout tr) 0) as [H|H]; [done|]. by rewrite (proj2 (Z.eqb_neq _ _)).
Qed.

(** What the user of the transport has chosen stays: a larger pool, a limit
    for idle connections, and every other field. *)
Lemma TuneTransport_keeps tr :
  MaxIdleConnsPerHost tr ≤ MaxIdleConnsPerHost (TuneTransport tr) ∧
  (maxIdleConnsPerHost ≤ MaxIdleConnsPerHost tr → MaxIdleConnsPerHost (TuneTransport tr) = MaxIdleConnsPerHost tr) ∧
  (IdleConnTimeout tr ≠ 0 → IdleConnTimeout (TuneTransport tr) = IdleConnTimeout tr) ∧
  tr_rest (TuneTransport tr) = tr_rest tr.
Proof.
  cbn. split_and!; [| | |done].
  - destruct (Z.ltb_spec (MaxIdleConnsPerHost tr) maxIdleConnsPerHost); lia.
  - intros H. by rewrite (proj2 (Z.ltb_ge _ _)).
  - intros H. by rewrite (proj2 (Z.eqb_neq _ _)).
Qed.

End Tune.

Arguments HttpClient : clear implicits.

(** ** The S3 client and its SDK client *)

(** The HTTP client of the AWS SDK: [awshttp.BuildableClient], which is
    configured by copies, or another one. *)
Class AwsSdk := {
  transport_rest : Type;
  buildable : Type;
  NewBuildableClient : buildable;
  WithTimeout : Z → buildable → buildable;
  WithTransportOptions : (HttpTransport transport_rest → HttpTransport transport_rest) → buildable → buildable;
  other_client : Type;
  s3_sdk : Type;
  s3_retryer : Type;
  NopRetryer : s3_retryer;
}.

(** [aws.Config] and [s3.Options], as far as this code looks at them. *)
Inductive aws_http `{AwsSdk} := NoHTTPClient | Buildable (b : buildable) | OtherHTTPClient (c : other_client).
Record aws_Config `{AwsSdk} := { cfg_base : s3_config; cfg_HTTPClient : aws_http }.
Record s3_Options `{AwsSdk} := { o_Retryer : option s3_retryer; o_RetryMaxAttempts : Z }.

Class AwsClient `{AwsSdk} := {
  NewFromConfig : aws_Config → list (s3_Options → s3_Options) → s3_sdk;
  LoadedHTTPClient : string → aws_http;
}.

Section S3.
Context {AS : AwsSdk} {AC : AwsClient} {U : Unicode} {V : Vendor}.

(** [newHTTPClient]. *)
Definition s3_newHTTPClient : aws_http :=
  Buildable (WithTransportOptions TuneTransport (WithTimeout 0 NewBuildableClient)).

(** The options that [newS3] sets first, and [newS3]. *)
Definition no_retries (o : s3_Options) : s3_Options := {| o_Retryer := Some NopRetryer; o_RetryMaxAttempts := 0 |}.
Definition newS3 (cfg : aws_Config) (optFns : list (s3_Options → s3_Options)) : s3_sdk :=
  NewFromConfig cfg (no_retries :: optFns).

(** [S3Client], without its mutex: [SetRegion] and [getClient] hold it. *)
Record S3Client := { s3_client : s3_sdk; s3_cfg : aws_Config; s3_retry : RetryPolicy }.

(** The HTTP client of the configuration after [NewS3Client] has looked at
    it; static keys come without one. *)
Definition tuned_http (h : aws_http) : aws_http :=
  match h with
  | Buildable b => Buildable (WithTransportOptions TuneTransport (WithTimeout 0 b))
  | NoHTTPClient => s3_newHTTPClient
  | h => h
  end.
Definition loaded_http (c : s3_config) : aws_http :=
  match s3_Credentials c with StaticCredentials _ _ _ => NoHTTPClient | _ => LoadedHTTPClient (s3_Region c) end.

(** [NewS3Client], from the configuration that [Auth.NewS3Client] reads. *)
Definition open_S3Client (authType : string) : res S3Client :=
  let! c := NewS3Client authType in
  let cfg := {| cfg_base := c; cfg_HTTPClient := tuned_http (loaded_http c) |} in
  Ok {| s3_client := newS3 cfg []; s3_cfg := cfg; s3_retry := DefaultRetryPolicy |}.

(** [getClient] and [SetRegion]. *)
Definition getClient (u : S3Client) : s3_sdk := s3_client u.
Definition with_region (region : string) (cfg : aws_Config) : aws_Config :=
  {| cfg_base := {| s3_Region := region; s3_Credentials := s3_Credentials (cfg_base cfg) |}; cfg_HTTPClient := cfg_HTTPClient cfg |}.
Definition s3_SetRegion (region : string) (u : S3Client) : S3Client :=
  let cfg := with_region region (s3_cfg u) in
  {| s3_client := newS3 cfg []; s3_cfg := cfg; s3_retry := s3_retry u |}.

(** The SDK client is always the one that the configuration describes. *)
Definition s3_inv (u : S3Client) : Prop := s3_client u = newS3 (s3_cfg u) [].

Lemma open_S3Client_inv authType u : open_S3Client authType = Ok u → s3_inv u.
Proof. unfold open_S3Client. by intros (c & _ & [= <-])%obind_Ok. Qed.

Lemma s3_SetRegion_inv region u : s3_inv (s3_SetRegion region u).
Proof. done. Qed.

(** After any sequence of changes of the region, requests go out with the
    credentials and the HTTP client of the start, to the region that was set
    last, and without retries of the SDK's own. *)
Lemma set_regions u regions :
  s3_inv u →
  let u' := fold_left (λ u r, s3_SetRegion r u) regions u in
  getClient u' = newS3 (with_region (default (s3_Region (cfg_base (s3_cfg u))) (last regions)) (s3_cfg u)) [] ∧
  s3_retry u' = s3_retry u.
Proof.
  assert (∀ u, with_region (s3_Region (cfg_base (s3_cfg u))) (s3_cfg u) = s3_cfg u) as Hsame by by intros [? [[? ?] ?] ?].
  revert u. induction regions as [|r regions IH]; intros u Hu; cbn [fold_left].
  - cbn. by rewrite Hsame.
  - destruct (IH (s3_SetRegion r u) (s3_SetRegion_inv _ _)) as [Hc Hr]. split; [|done]. cbv zeta. rewrite Hc, last_cons.
    destruct (last regions); done.
Qed.

End S3.

(** ** The OCI client and its SDK client *)

(** The HTTP client of the OCI SDK: an [http.Client] whose transport may be
    the SDK's wrapper around a template, or another dispatcher. *)
Class OciSdk := {
  oci_rest : Type;
  tls_config : Type;
  oci_transport : Type;
  oci_dispatcher : Type;
  oci_retry : Type;
  NoRetryPolicy : oci_retry;
  oci_DefaultTransport : tls_config → res (HttpTransport oci_rest);
  CUSTOM_TIMEOUT_VAR : string;
}.
Inductive oci_round_tripper `{OciSdk} :=
| OciTemplate (template : tls_config → res (HttpTransport oci_rest))
| OtherRoundTripper (t : oci_transport).
Inductive oci_http `{OciSdk} :=
| StdClient (transport : oci_round_tripper) (timeout : Z)
| OtherDispatcher (d : oci_dispatcher).

(** [objectstorage.ObjectStorageClient]: the fields that are set here, and
    its host, which [SetRegion] of the SDK changes. *)
Record oci_sdk `{OciSdk} := { oci_HTTPClient : oci_http; oci_RetryPolicy : option oci_retry; oci_Host : option string }.
Class OciClientSdk `{OciSdk} := {
  NewObjectStorageClient : oci_provider → oci_sdk;
  region_host : string → string;
}.

Section OCI.
Context {OS : OciSdk} {OCS : OciClientSdk} {U : Unicode} {V : Vendor} {OV : OciVendor}.

(** The template of [configureClient]. *)
Definition tuned_template (tlsCfg : tls_config) : res (HttpTransport oci_rest) :=
  let! tr := oci_DefaultTransport tlsCfg in Ok (TuneTransport tr).

(** [configureClient]. *)
Definition configureClient (client : oci_sdk) : oci_sdk := {|
  oci_HTTPClient :=
    match oci_HTTPClient client with
    | StdClient transport timeout =>
        StdClient (match transport with OciTemplate _ => OciTemplate tuned_template | t => t end)
          (if bool_decide (Getenv CUSTOM_TIMEOUT_VAR = "") then 0 else timeout)
    | d => d
    end;
  oci_RetryPolicy := Some NoRetryPolicy;
  oci_Host := oci_Host client;
|}.

(** [client.SetRegion]. *)
Definition sdk_SetRegion (region : string) (client : oci_sdk) : oci_sdk :=
  {| oci_HTTPClient := oci_HTTPClient client; oci_RetryPolicy := oci_RetryPolicy client; oci_Host := Some (region_host region) |}.

(** [OCIClient], [NewOCIClient] and [SetRegion]. *)
Record OCIClient := { oci_client : oci_sdk; oci_namespace : string; oci_policy : RetryPolicy }.
Definition oci_SetRegion (region : string) (u : OCIClient) : OCIClient :=
  {| oci_client := sdk_SetRegion region (oci_client u); oci_namespace := oci_namespace u; oci_policy := oci_policy u |}.
Definition open_OCIClient (namespace authType : string) : res OCIClient :=
  let! c := NewOCIClient namespace authType in
  let client := configureClient (NewObjectStorageClient (oci_Provider c)) in
  let client := match oci_Region c with Some r => sdk_SetRegion r client | None => client end in
  Ok {| oci_client := client; oci_namespace := oci_Namespace c; oci_policy := DefaultRetryPolicy |}.

(** The only retries are those of the policy, and there is no timeout for
    whole requests unless the user has asked for one. *)
Definition oci_ready (c : oci_sdk) : Prop :=
  oci_RetryPolicy c = Some NoRetryPolicy ∧
  ∀ t timeout, oci_HTTPClient c = StdClient t timeout →
    (Getenv CUSTOM_TIMEOUT_VAR = "" → timeout = 0) ∧
    ∀ f tlsCfg tr, t = OciTemplate f → f tlsCfg = Ok tr → stall_protected tr.

Lemma configureClient_ready c : oci_ready (configureClient c).
Proof.
  split; [done|]. intros t timeout. cbn. destruct (oci_HTTPClient c) as [t0 n|]; [|done]. intros [= <- <-]. split.
  - intros E. by rewrite bool_decide_eq_true_2.
  - intros f tlsCfg tr E. destruct t0; simplify_eq. intros (tr0 & _ & [= <-])%obind_Ok. apply TuneTransport_protects.
Qed.

Lemma open_OCIClient_ready namespace authType u regions :
  open_OCIClient namespace authType = Ok u →
  oci_ready (oci_client (fold_left (λ u r, oci_SetRegion r u) regions u)) ∧
  (∀ r, last regions = Some r → oci_Host (oci_client (fold_left (λ u r, oci_SetRegion r u) regions u)) = Some (region_host r)).
Proof.
  intros (c & _ & [= <-])%obind_Ok.
  assert (∀ regions u, oci_ready (oci_client u) → oci_ready (oci_client (fold_left (λ u r, oci_SetRegion r u) regions u)) ∧
    (∀ r, last regions = Some r → oci_Host (oci_client (fold_left (λ u r, oci_SetRegion r u) regions u)) = Some (region_host r))) as H.
  { clear. induction regions as [|r regions IH]; intros u Hu; [done|]. cbn [fold_left].
    destruct (IH (oci_SetRegion r u) Hu) as [H1 H2]. split; [done|]. intros r'. rewrite last_cons.
    destruct (last regions) as [r1|] eqn:E; [by apply H2|]. intros [= <-]. by apply last_None in E as ->. }
  apply H. cbn. destruct (oci_Region c); apply configureClient_ready.
Qed.

End OCI.

(** A tuned transport bounds every phase in which a request can stall
    without an end: dialling, the TLS handshake, and the wait for the response
    headers, the last by no less than the longest attempt that the retry layer
    allows.  It keeps enough idle connections for concurrent workers, never
    lowers what its user has configured, leaves every other field alone, and
    tuning it again changes nothing. *)
Theorem TuneTransport_spec {rest : Type} (tr : HttpTransport rest) :
  stall_protected (TuneTransport tr) ∧ TuneTransport (TuneTransport tr) = TuneTransport tr ∧
  MaxIdleConnsPerHost tr ≤ MaxIdleConnsPerHost (TuneTransport tr) ∧
  (maxIdleConnsPerHost ≤ MaxIdleConnsPerHost tr → MaxIdleConnsPerHost (TuneTransport tr) = MaxIdleConnsPerHost tr) ∧
  (IdleConnTimeout tr ≠ 0 → IdleConnTimeout (TuneTransport tr) = IdleConnTimeout tr) ∧
  tr_rest (TuneTransport tr) = tr_rest tr.
Proof. split; [apply TuneTransport_protects|]. split; [apply TuneTransport_idem|apply TuneTransport_keeps]. Qed.
