(* ===== verification/Providers.v ===== *)
(** The providers of this build: what the [init] functions of the client
    packages register, and what a provider's name, namespace and auth string
    then give ([storage_clients/registry.go], and the [init] functions of
    [storage_clients/http/http.go], [s3/s3.go] and [oci/oci.go]). *)

From S2P Require Import Prelude Errors GoStrings Url Retry Auth Transport Http.
#[local] Open Scope Z_scope.

Section Providers.
Context {U : Unicode} {V : Vendor} {AS : AwsSdk} {AC : AwsClient} {OS : OciSdk} {OCS : OciClientSdk} {OV : OciVendor}.
Context {rest : Type} (DefaultTransport : HttpTransport rest).

(** A client of the registry; the HTTP client comes with its [http.Client]. *)
Inductive provider_client :=
| ClientHTTP (h : HTTPStorageClient) (c : HttpClient rest)
| ClientS3 (u : S3Client)
| ClientOCI (u : OCIClient).

(** The three factories. *)
Definition http_factory : @ClientFactory provider_client := λ authType namespace,
  let! headers := parseHeaderAuth authType in
  Ok (ClientHTTP (NewHTTPStorageClient namespace headers) (NewHTTPClient DefaultTransport)).
Definition s3_factory : @ClientFactory provider_client := λ authType namespace,
  let! u := open_S3Client authType in Ok (ClientS3 u).
Definition oci_factory : @ClientFactory provider_client := λ authType namespace,
  let! u := open_OCIClient namespace authType in Ok (ClientOCI u).

(** The [init] functions of a program, which run in the order of its
    imports. *)
Inductive package := PkgHTTP | PkgS3 | PkgOCI.
#[export] Instance package_eq_dec : EqDecision package.
Proof. solve_decision. Defined.
Definition provider_of (p : package) : string := match p with PkgHTTP => "http" | PkgS3 => "s3" | PkgOCI => "oci" end.
Definition factory_of (p : package) : ClientFactory :=
  match p with PkgHTTP => http_factory | PkgS3 => s3_factory | PkgOCI => oci_factory end.
Definition run_init (reg : registry) (p : package) : registry := RegisterClient (provider_of p) (factory_of p) reg.
Definition built_registry (imports : list package) : registry := fold_left run_init imports ∅.

Lemma run_init_comm p q reg : run_init (run_init reg p) q = run_init (run_init reg q) p.
Proof.
  unfold run_init, RegisterClient. destruct (decide (p = q)) as [->|Hne]; [done|].
  apply (insert_insert_ne (M := gmap string)). by destruct p, q.
Qed.

Lemma lookup_init reg p : run_init reg p !! provider_of p = Some (factory_of p).
Proof. apply (lookup_insert_eq (M := gmap string)). Qed.
Lemma lookup_init_ne reg p name : provider_of p ≠ name → run_init reg p !! name = reg !! name.
Proof. apply (lookup_insert_ne (M := gmap string)). Qed.

Lemma lookup_built imports p :
  built_registry imports !! provider_of p = (if bool_decide (p ∈ imports) then Some (factory_of p) else None) ∧
  ∀ name, (∀ q, provider_of q ≠ name) → built_registry imports !! name = None.
Proof.
  unfold built_registry.
  assert (∀ reg, (∀ name, (∀ q, provider_of q ≠ name) → reg !! name = None) →
    fold_left run_init imports reg !! provider_of p = (if bool_decide (p ∈ imports) then Some (factory_of p) else reg !! provider_of p) ∧
    ∀ name, (∀ q, provider_of q ≠ name) → fold_left run_init imports reg !! name = None) as H.
  { induction imports as [|q imports IH]; intros reg Hreg; [by split|]. cbn [fold_left].
    destruct (IH (run_init reg q)) as [H1 H2].
    { intros name Hn. rewrite lookup_init_ne by (apply Hn). by apply Hreg. }
    split; [|done]. rewrite H1. destruct (decide (p = q)) as [->|Hne].
    - rewrite (bool_decide_eq_true_2 (q ∈ q :: imports)) by left. case_bool_decide; [done|apply lookup_init].
    - rewrite (bool_decide_ext (p ∈ q :: imports) (p ∈ imports)) by (rewrite elem_of_cons; naive_solver).
      case_bool_decide; [done|]. apply lookup_init_ne. by destruct p, q. }
  destruct (H ∅) as [H1 H2]; [by intros; apply (lookup_empty (M := gmap string))|]. split; [|done]. rewrite H1.
  case_bool_decide; [done|apply (lookup_empty (M := gmap string))].
Qed.

Definition not_built : error := Errorf "provider is not supported in this build" [ESentinel ErrUnsupportedProvider].

Lemma GetClient_lookup (reg : @registry provider_client) provider authType namespace o :
  reg !! provider = o →
  GetClient reg provider authType namespace = match o with Some f => f authType namespace | None => Err not_built end.
Proof. by intros <-. Qed.

(** What a program that imports some of the packages gets for a provider: the
    client of the package, built from the auth string and the namespace, or
    the error that names an unsupported provider; whatever the order of the
    imports. *)
Lemma GetClient_built imports provider authType namespace :
  GetClient (built_registry imports) provider authType namespace =
  match filter (λ p, provider_of p = provider) imports with
  | p :: _ => factory_of p authType namespace
  | [] => Err not_built
  end.
Proof.
  assert (∀ p q, provider_of p = provider_of q → p = q) as Hinj by by intros [] [].
  destruct (filter (λ p, provider_of p = provider) imports) as [|p l] eqn:E.
  - assert (∀ q, q ∈ imports → provider_of q ≠ provider) as Hno.
    { intros q Hq Eq. assert (q ∈ filter (λ p, provider_of p = provider) imports) as Hf by (by apply list_elem_of_filter).
      rewrite E in Hf. by apply elem_of_nil in Hf. }
    assert ((∃ q, provider_of q = provider) ∨ ∀ q, provider_of q ≠ provider) as [[q <-]|Hn].
    { destruct (decide (provider ∈ provider_of <$> [PkgHTTP; PkgS3; PkgOCI])) as [(q & -> & _)%list_elem_of_fmap|Hni]; [by left; exists q|right].
      intros q <-. apply Hni. apply list_elem_of_fmap. exists q. split; [done|]. destruct q; set_solver. }
    + rewrite (GetClient_lookup _ _ _ _ _ (proj1 (lookup_built imports q))), bool_decide_eq_false_2; [done|]. intros Hq. by apply (Hno q).
    + by rewrite (GetClient_lookup _ _ _ _ _ (proj2 (lookup_built imports PkgHTTP) provider Hn)).
  - assert (p ∈ filter (λ p, provider_of p = provider) imports) as [<- Hin]%list_elem_of_filter by (rewrite E; left).
    by rewrite (GetClient_lookup _ _ _ _ _ (proj1 (lookup_built imports p))), bool_decide_eq_true_2.
Qed.

End Providers.
