(* ===== verification/Source.v ===== *)
(** The sources of a backup ([tsync/source.go]): the entries of a folder in a
    storage, and of a zip archive in a storage, with what opening them gives.

    The storage of the source, the zip library, and the decompressor are
    interfaces. *)

From S2P Require Import Prelude Errors GoStrings Keys Digest Store Upload ZipDir.
#[local] Open Scope Z_scope.

(** The storage behind a source.  [s_reader] stands for the reads of a
    [StorageReaderAt] while an archive is parsed: their answers, and the state they
    leave. *)
Class SourceStorage := {
  source_world :: SourceWorld;
  s_List : string → M src (list (FileInfo * Z));
  s_OpenReader : string → M src stream;
  s_ReadRange : string → Z → Z → M src stream;
  s_Size : string → M src Z;
  s_reader : string → src → ReaderAt * src;
}.

(** [zip.NewReader], [zip.File.Open], and [flate.NewReader] reading to its
    end. *)
Class ZipLibrary {SS : SourceStorage} := {
  zip_NewReader : (Z → Z → res (bytes * option error)) → Z → res (list zipFile);
  zip_Open : zipFile → M src stream;
  flate_NewReader : stream → stream;
}.

(** ** Folders *)

Section Folder.
Context {SS : SourceStorage}.

(** The entry of a listed file. *)
Definition folder_entry (f : FileInfo * Z) : SourceEntry :=
  let name := fi_Name f.1 in
  let isDir := HasSuffix name "/" in
  {| Path := name; Size := fi_Size f.1; se_CompressedSize := 0; se_LastModified := f.2; se_CRC32 := 0; IsDir := isDir;
     Open := if isDir then None else Some (s_OpenReader name);
     IsEncryptedRaw := false; OpenRaw := None; CompressionMethod := 0; OpenRawCompressed := None |}.

(** [FolderSource.ListEntries]. *)
Definition FolderSource_ListEntries (prefix : string) : M src (list SourceEntry) :=
  let* files := wrap_err "failed to list files in source folder" (s_List prefix) in
  ret (folder_entry <$> files).

End Folder.

(** ** Reading an entry of an archive *)

(** The answers of a reader to successive reads. *)
Abbreviation reads := (list (bytes * option error)).

(** [zipEntryStream]: the reads to come of the reader under it, what the hash
    has seen, the count of bytes, the entry, and the error it is stuck with. *)
Record zipEntryStream := {
  z_r : reads;
  z_hash : bytes;
  z_n : Z;
  z_f : zipFile;
  z_err : option error;
}.

Definition corrupt (m : string) (es : list error) : error := Errorf m (ESentinel ErrCorruptZip :: es).

(** The error of a read, at the end of the entry's data. *)
Definition end_of_entry (f : zipFile) (n : Z) (seen : bytes) : error :=
  if negb (n =? f_UncompressedSize64 f) then corrupt "size differs from the central directory" [ESentinel IoErrUnexpectedEOF]
  else if negb (CRC32.Sum32 seen =? f_CRC32 f) then corrupt "checksum" [ESentinel ZipErrChecksum]
  else ESentinel IoEOF.

(** [zipEntryStream.Read]. *)
Definition z_Read (z : zipEntryStream) : (bytes * option error) * zipEntryStream :=
  match z_err z with
  | Some e => (([], Some e), z)
  | None =>
      let '((p, err), rest) := match z_r z with [] => (([], Some (ESentinel IoEOF)), []) | x :: rest => (x, rest) end in
      let seen := z_hash z ++ p in
      let n := u64 (z_n z + blen p) in
      let stuck e := {| z_r := rest; z_hash := seen; z_n := n; z_f := z_f z; z_err := e |} in
      if f_UncompressedSize64 (z_f z) <? n then
        let e := corrupt "decompresses beyond its declared size" [] in ((p, Some e), stuck (Some e))
      else
        let err := match err with
                   | Some e => Some (if is_EOF e then end_of_entry (z_f z) n seen else e)
                   | None => None
                   end in
        ((p, err), stuck err)
  end.

(** Reading to the end: what all the reads deliver.  Every read consumes an
    answer of the reader below, whose last answer is the end or an error. *)
Fixpoint z_drain (fuel : nat) (z : zipEntryStream) : res stream :=
  match fuel with
  | O => OutOfFuel
  | S fuel =>
      let '((p, err), z) := z_Read z in
      match err with
      | Some e => Ok (p, if is_EOF e then None else Some e)
      | None => let! rest := z_drain fuel z in Ok (p ++ rest.1, rest.2)
      end
  end.

Section Archive.
Context {SS : SourceStorage} {ZB : ZipLibrary} {CK : Chunking}.

(** How a stream answers reads. *)
Definition reads_of (s : stream) : reads :=
  ((λ c, (c, None)) <$> chunks s.1) ++ [([], Some (default (ESentinel IoEOF) s.2))].

Definition localFileHeaderLen : Z := 30.
Definition localFileHeaderSig : Z := 0x04034b50.
Definition winzipAESExtraID : Z := 0x9901.

(** [io.ReadFull] of [n] bytes. *)
Definition read_full (n : Z) (s : stream) : res (bytes * stream) :=
  if n <=? blen s.1 then Ok (take (Z.to_nat n) s.1, (drop (Z.to_nat n) s.1, s.2))
  else Err (match s.2 with
            | Some e => e
            | None => ESentinel (if bool_decide (s.1 = []) then IoEOF else IoErrUnexpectedEOF)
            end).

(** [openZipEntryStream], and the stream read to its end. *)
Definition openZipEntryStream (zipPath : string) (pr : ZipPartRange) : M src stream :=
  let f := pr_File pr in
  let* rc := s_ReadRange zipPath (StartOffset pr) (i64 (EndOffset pr - StartOffset pr)) in
  match read_full localFileHeaderLen rc with
  | Err e => throw (corrupt "reading local header" [e])
  | Panic => lift Panic
  | OutOfFuel => lift OutOfFuel
  | Ok (lfh, br) =>
      let* sig := lift (Uint32 lfh) in
      if negb (sig =? localFileHeaderSig) then throw (corrupt "bad local header signature" [])
      else
        let* n := lift (Uint16 (drop 26 lfh)) in
        let* x := lift (Uint16 (drop 28 lfh)) in
        match skip (n + x) br with
        | inl e => throw (corrupt "reading local header" [e])
        | inr br =>
            let body := limit (i64 (f_CompressedSize64 f)) br in
            let r := if f_Method f =? zip_Deflate then flate_NewReader body else body in
            let z := {| z_r := reads_of r; z_hash := []; z_n := 0; z_f := f; z_err := None |} in
            lift (z_drain (length (z_r z)) z)
        end
  end.

(** ** Archives *)

(** [isWinZipAE2]: a walk over the extra fields; every step shortens the
    rest. *)
Fixpoint ae2_fields (fuel : nat) (b : bytes) : bool :=
  match fuel with
  | O => false
  | S fuel =>
      if len b <? 4 then false
      else
        let tag := le_value (take 2 b) in
        let size := le_value (take 2 (drop 2 b)) in
        let b := drop 4 b in
        if len b <? size then false
        else if (tag =? winzipAESExtraID) && (2 <=? size) then le_value (take 2 b) =? 2
        else ae2_fields fuel (drop (Z.to_nat size) b)
  end.
Definition isWinZipAE2 (f : zipFile) : bool := ae2_fields (S (length (f_Extra f))) (f_Extra f).

(** One entry of [ZipFileSource.ListEntries]. *)
Definition zip_entry (zipPath : string) (isEncrypted : bool) (pr : ZipPartRange) : res SourceEntry :=
  let f := pr_File pr in
  let isDir := HasSuffix (pr_Name pr) "/" in
  let entry method open raw := {|
    Path := pr_Name pr; Size := i64 (f_UncompressedSize64 f); se_CompressedSize := i64 (f_CompressedSize64 f);
    se_LastModified := MSDosTimeToTime (f_ModifiedDate f) (f_ModifiedTime f); se_CRC32 := f_CRC32 f; IsDir := isDir;
    Open := open; IsEncryptedRaw := if raw is Some _ then true else false; OpenRaw := raw;
    CompressionMethod := method; OpenRawCompressed := None |} in
  if isDir then Ok (entry 0 None None)
  else if isEncrypted then
    if isWinZipAE2 f then Err (Errorf "WinZip AE-2 encrypted" [ESentinel ErrUnsupportedEncryption])
    else Ok (entry 0 None (Some (s_ReadRange zipPath (StartOffset pr) (i64 (EndOffset pr - StartOffset pr)))))
  else if (Z.land (f_Flags f) 1 =? 0) && ((f_Method f =? zip_Store) || (f_Method f =? zip_Deflate))
  then Ok (entry (f_Method f) (Some (openZipEntryStream zipPath pr)) None)
  else Ok (entry (f_Method f) (Some (zip_Open f)) None).

Fixpoint zip_entries (zipPath : string) (isEncrypted : bool) (ranges : list ZipPartRange) : res (list SourceEntry) :=
  match ranges with
  | [] => Ok []
  | pr :: ranges =>
      let! e := zip_entry zipPath isEncrypted pr in
      let! es := zip_entries zipPath isEncrypted ranges in
      Ok (e :: es)
  end.

(** [ZipFileSource.ListEntries]. *)
Definition ZipFileSource_ListEntries (zipPath : string) (isEncrypted : bool) : M src (list SourceEntry) :=
  let* size := wrap_err "failed to get source zip size" (s_Size zipPath) in
  let* ranges := wrap_err "failed to parse zip parts"
    (λ s, let '(readerAt, s) := s_reader zipPath s in (GetZipPartRanges zip_NewReader readerAt size, s)) in
  lift (zip_entries zipPath isEncrypted ranges).

End Archive.
