(* ===== verification/SourceProps.v ===== *)
(** The properties of the sources: an entry of an archive that is read to its
    end without an error is what its directory declares; the key under which a
    backup files a listed entry is that of its content. *)

From S2P Require Import Prelude Errors GoStrings Keys Digest Store Upload ZipDir BackupSpec Source.
#[local] Open Scope Z_scope.

(** ** Reading to the end *)

(** What a full read of an entry reports, [e] being how the reader below
    ended. *)
Definition entry_complete (f : zipFile) (b : bytes) (e : error) : Prop :=
  is_EOF e = true ∧ blen b = f_UncompressedSize64 f ∧ CRC32.Sum32 b = f_CRC32 f.

Lemma end_of_entry_EOF f n seen : is_EOF (end_of_entry f n seen) = true ↔ n = f_UncompressedSize64 f ∧ CRC32.Sum32 seen = f_CRC32 f.
Proof.
  unfold end_of_entry. destruct (Z.eqb_spec n (f_UncompressedSize64 f)); cbn [negb]; [|split; [done|by intros []]].
  destruct (Z.eqb_spec (CRC32.Sum32 seen) (f_CRC32 f)); cbn [negb]; split; [done|done|done|by intros []].
Qed.

Lemma drain_chunks cs e0 f seen :
  blen (seen ++ concat cs) < 2 ^ 64 → blen seen ≤ f_UncompressedSize64 f →
  let script := ((λ c, (c, None)) <$> cs) ++ [([], Some e0)] in
  ∃ out err,
    z_drain (length script) {| z_r := script; z_hash := seen; z_n := blen seen; z_f := f; z_err := None |} = Ok (out, err) ∧
    out `prefix_of` concat cs ∧ (err = None → out = concat cs) ∧ (err = None ↔ entry_complete f (seen ++ concat cs) e0).
Proof.
  revert seen. induction cs as [|c cs IH]; intros seen Hb Hs; cbn [fmap list_fmap app length concat z_drain].
  - unfold z_Read. cbn [z_err z_r z_hash z_n z_f]. rewrite !app_nil_r in *. rewrite (u64_id (blen seen + blen [])) by
      (unfold is_u64; change (blen []) with 0; unfold blen in *; lia). change (blen []) with 0. rewrite Z.add_0_r.
    rewrite (proj2 (Z.ltb_ge _ _)) by done. eexists _, _. split; [done|]. split; [done|]. split; [done|].
    unfold entry_complete. destruct (is_EOF e0) eqn:E; [|rewrite E; split; [done|by intros []]].
    pose proof (end_of_entry_EOF f (blen seen) seen) as H. destruct (is_EOF (end_of_entry _ _ _)).
    + split; [intros _; split; [done|by apply H]|done].
    + split; [done|]. intros (_ & H1 & H2). destruct H as [_ H]. specialize (H (conj H1 H2)). done.
  - unfold z_Read. cbn [z_err z_r z_hash z_n z_f]. cbn [concat] in Hb. rewrite app_assoc in Hb. pose proof (blen_app seen c) as Hsc.
    assert (0 ≤ blen c ∧ 0 ≤ blen seen ∧ blen (seen ++ c) ≤ blen ((seen ++ c) ++ concat cs)) as (Hc0 & Hs0 & Hle)
      by (rewrite (blen_app (seen ++ c)); unfold blen; lia).
    rewrite (u64_id (blen seen + blen c)) by (unfold is_u64; lia). rewrite <- Hsc.
    destruct (Z.ltb_spec (f_UncompressedSize64 f) (blen (seen ++ c))) as [Hlt|Hge].
    + eexists _, _. split; [done|]. split; [by exists (concat cs)|]. split; [done|]. split; [done|].
      intros (_ & H & _). rewrite app_assoc in H. lia.
    + destruct (IH (seen ++ c) Hb Hge) as (out & err & Hd & Hp & Ho & Hiff). cbn in Hd. rewrite Hd. cbn [obind fst snd].
      eexists _, _. split; [done|]. split; [by apply prefix_app|]. split; [by intros ->%Ho|]. by rewrite app_assoc.
Qed.

Section Props.
Context {SS : SourceStorage} {ZB : ZipLibrary} {CK : Chunking}.

Lemma drain_stream f s : blen s.1 < 2 ^ 64 → 0 ≤ f_UncompressedSize64 f →
  ∃ out err,
    z_drain (length (reads_of s)) {| z_r := reads_of s; z_hash := []; z_n := 0; z_f := f; z_err := None |} = Ok (out, err) ∧
    (err = None → out = s.1) ∧ (err = None ↔ entry_complete f s.1 (default (ESentinel IoEOF) s.2)).
Proof.
  intros Hs Hu. unfold reads_of.
  destruct (drain_chunks (chunks s.1) (default (ESentinel IoEOF) s.2) f []) as (out & err & Hd & _ & Ho & Hiff);
    cbn [app]; rewrite ?chunks_concat in *; [done|done|]. by exists out, err.
Qed.

(** The data of an entry behind its header is never longer than an [int64]. *)
Lemma limit_bound n s : n ≤ max_int64 → blen (limit n s).1 ≤ max_int64.
Proof.
  intros Hn. unfold limit. destruct (Z.leb_spec n (blen s.1)); [|lia]. cbn [fst]. unfold blen in *. rewrite length_take. unfold max_int64 in *. lia.
Qed.

(** The data that an entry is read from. *)
Definition entry_data (f : zipFile) (br : stream) : stream :=
  let body := limit (i64 (f_CompressedSize64 f)) br in
  if f_Method f =? zip_Deflate then flate_NewReader body else body.

Lemma entry_data_bound f br : (∀ s, blen (flate_NewReader s).1 < 2 ^ 64) → blen (entry_data f br).1 < 2 ^ 64.
Proof.
  intros Hf. unfold entry_data. cbv zeta. destruct (_ =? _); [apply Hf|].
  pose proof (limit_bound (i64 (f_CompressedSize64 f)) br (proj2 (i64_bounds _))). unfold max_int64 in *. lia.
Qed.

(** Opening an entry: it fails, or the header has been passed and the data is
    read to its end. *)
Lemma openZipEntryStream_inv zipPath pr x r x' : openZipEntryStream zipPath pr x = (r, x') →
  (∃ rc, s_ReadRange zipPath (StartOffset pr) (i64 (EndOffset pr - StartOffset pr)) x = (rc, x')) ∧
  ∀ s, r = Ok s → ∃ br, let d := entry_data (pr_File pr) br in
    z_drain (length (reads_of d)) {| z_r := reads_of d; z_hash := []; z_n := 0; z_f := pr_File pr; z_err := None |} = Ok s.
Proof.
  unfold openZipEntryStream. cbv zeta. intros [(rc & s1 & H1 & H)|(r1 & H1 & _ & Hn & _)]%bind_inv.
  2:{ split; [by eexists|]. intros s Hs. by destruct (Hn s). }
  destruct (read_full localFileHeaderLen rc) as [[lfh br]|e| |]; try (injection H as <- <-; split; [by eexists|done]).
  apply bind_inv in H as [(sig & s2 & [= _ <-] & H)|(r2 & [= _ <-] & _ & Hn & _)]; [|split; [by eexists|intros s Hs; by destruct (Hn s)]].
  destruct (negb _); [injection H as <- <-; split; [by eexists|done]|].
  apply bind_inv in H as [(n & s2 & [= _ <-] & H)|(r2 & [= _ <-] & _ & Hn & _)]; [|split; [by eexists|intros s Hs; by destruct (Hn s)]].
  apply bind_inv in H as [(m & s2 & [= _ <-] & H)|(r2 & [= _ <-] & _ & Hn & _)]; [|split; [by eexists|intros s Hs; by destruct (Hn s)]].
  destruct (skip (n + m) br) as [e|br2]; injection H as <- <-; (split; [by eexists|]); [done|]. intros s Hs. by exists br2.
Qed.

Lemma openZipEntryStream_content zipPath pr x b x' :
  (∀ s, blen (flate_NewReader s).1 < 2 ^ 64) → 0 ≤ f_UncompressedSize64 (pr_File pr) →
  openZipEntryStream zipPath pr x = (Ok (b, None), x') →
  blen b = f_UncompressedSize64 (pr_File pr) ∧ CRC32.Sum32 b = f_CRC32 (pr_File pr).
Proof.
  intros Hf Hu [_ H]%openZipEntryStream_inv. destruct (H _ eq_refl) as (br & Hd). cbv zeta in Hd.
  destruct (drain_stream (pr_File pr) (entry_data (pr_File pr) br)) as (out & err & Hd2 & Ho & Hiff); [by apply entry_data_bound|done|].
  rewrite Hd in Hd2. injection Hd2 as <- <-. rewrite (Ho eq_refl). by apply Hiff.
Qed.

(** C24. An entry of an archive that is read to its end without an error has the
    size and the checksum of the central directory, whatever the storage and the
    decompressor deliver. *)
Theorem openZipEntryStream_sound zipPath pr x b x' :
  (∀ s, blen (flate_NewReader s).1 < 2 ^ 64) → 0 ≤ f_UncompressedSize64 (pr_File pr) →
  openZipEntryStream zipPath pr x = (Ok (b, None), x') →
  blen b = f_UncompressedSize64 (pr_File pr) ∧ CRC32.Sum32 b = f_CRC32 (pr_File pr).
Proof. apply openZipEntryStream_content. Qed.

(** The bytes of an archive at an entry: header, name, extra fields, data. *)
Definition local_header (mid name extra : bytes) : bytes :=
  le_bytes 4 localFileHeaderSig ++ mid ++ le_bytes 2 (blen name) ++ le_bytes 2 (blen extra).

(** C25. An entry is read back as it was archived: when the storage delivers the
    range of a stored or deflated entry, opening it gives its content. *)
Theorem openZipEntryStream_roundtrip zipPath pr mid name extra payload rest content x x' :
  let f := pr_File pr in
  length mid = 22%nat → blen name < 2 ^ 16 → blen extra < 2 ^ 16 →
  s_ReadRange zipPath (StartOffset pr) (i64 (EndOffset pr - StartOffset pr)) x =
    (Ok (local_header mid name extra ++ name ++ extra ++ payload ++ rest, None), x') →
  f_CompressedSize64 f = blen payload → blen payload ≤ max_int64 →
  (if f_Method f =? zip_Deflate then flate_NewReader (payload, None) = (content, None) else content = payload) →
  f_UncompressedSize64 f = blen content → f_CRC32 f = CRC32.Sum32 content → blen content < 2 ^ 64 →
  openZipEntryStream zipPath pr x = (Ok (content, None), x').
Proof.
  intros f Hmid Hname Hextra Hread Hc Hcmax Hm Hu Hcrc Hb. unfold openZipEntryStream, bind at 1. rewrite Hread.
  assert (length (local_header mid name extra) = 30%nat) as Hlen by (unfold local_header; rewrite !length_app, !length_le_bytes, Hmid; done).
  unfold read_full. cbn [fst snd]. rewrite (proj2 (Z.leb_le _ _)) by (unfold blen; rewrite length_app, Hlen; unfold localFileHeaderLen; lia).
  change (Z.to_nat localFileHeaderLen) with 30%nat. rewrite <- Hlen, take_app_length, drop_app_length.
  assert (Uint32 (local_header mid name extra) = Ok localFileHeaderSig) as E1 by (apply (le_read_app 4); vm_compute; split; [discriminate|done]).
  assert (Uint16 (drop 26 (local_header mid name extra)) = Ok (blen name)) as E2.
  { unfold local_header. rewrite app_assoc, drop_app_length' by (rewrite length_app, length_le_bytes, Hmid; done).
    apply (le_read_app 2). split; [unfold blen; lia|done]. }
  assert (Uint16 (drop 28 (local_header mid name extra)) = Ok (blen extra)) as E3.
  { unfold local_header. rewrite !app_assoc, drop_app_length' by (rewrite !length_app, !length_le_bytes, Hmid; done).
    rewrite <- (app_nil_r (le_bytes 2 (blen extra))). apply (le_read_app 2). split; [unfold blen; lia|done]. }
  unfold lift, bind. rewrite E1. cbn [negb]. rewrite Z.eqb_refl. cbn [negb]. rewrite E2, E3.
  unfold skip. cbn [fst snd]. rewrite (proj2 (Z.leb_le _ _)) by (unfold blen; rewrite !length_app; lia).
  replace (drop (Z.to_nat (blen name + blen extra)) (name ++ extra ++ payload ++ rest)) with (payload ++ rest).
  2:{ rewrite app_assoc, drop_app_length'; [done|]. rewrite length_app. unfold blen. lia. }
  fold f. rewrite Hc, i64_id by (unfold is_i64, min_int64; unfold blen in *; lia).
  assert (limit (blen payload) (payload ++ rest, None) = (payload, None)) as ->.
  { unfold limit. cbn [fst]. rewrite (proj2 (Z.leb_le _ _)) by (unfold blen; rewrite length_app; lia).
    unfold blen. by rewrite Nat2Z.id, take_app_length. }
  assert ((if f_Method f =? zip_Deflate then flate_NewReader (payload, None) else (payload, None)) = (content, None)) as ->
    by (destruct (f_Method f =? zip_Deflate); [done|by rewrite Hm]).
  destruct (drain_stream f (content, None)) as (out & err & Hd & Ho & Hiff); [done|rewrite Hu; unfold blen; lia|].
  cbn [z_r]. rewrite Hd. assert (err = None) as -> by (apply Hiff; split_and!; done). by rewrite (Ho eq_refl).
Qed.

(** ** Listings *)

(** What an entry of an archive says of its range, and how it can be opened. *)
Record describes (isEncrypted : bool) (pr : ZipPartRange) (e : SourceEntry) : Prop := {
  de_path : Path e = pr_Name pr;
  de_size : Size e = i64 (f_UncompressedSize64 (pr_File pr));
  de_crc : se_CRC32 e = f_CRC32 (pr_File pr);
  de_dir : IsDir e = HasSuffix (pr_Name pr) "/";
  de_compressed : OpenRawCompressed e = None;
  de_open : is_Some (Open e) ↔ IsDir e = false ∧ isEncrypted = false;
  de_raw : is_Some (OpenRaw e) ↔ IsDir e = false ∧ isEncrypted = true;
  de_encrypted : IsEncryptedRaw e = true → is_Some (OpenRaw e) ∧ isWinZipAE2 (pr_File pr) = false;
}.

Lemma zip_entry_spec zipPath isEncrypted pr :
  match zip_entry zipPath isEncrypted pr with
  | Ok e => describes isEncrypted pr e ∧ se_CompressedSize e = i64 (f_CompressedSize64 (pr_File pr))
  | Err e => errors_Is e ErrUnsupportedEncryption = true ∧ isEncrypted = true ∧
      HasSuffix (pr_Name pr) "/" = false ∧ isWinZipAE2 (pr_File pr) = true
  | _ => False
  end.
Proof.
  unfold zip_entry. cbv zeta. destruct (HasSuffix (pr_Name pr) "/") eqn:Ed; [|destruct isEncrypted; [destruct (isWinZipAE2 (pr_File pr)) eqn:Ea|destruct (_ && _)]];
    try (split; [done|by split_and!]); (split; [|done]); constructor; cbn; try done; (split; [by intros []|by intros []]) || (split; [done|by eexists]).
Qed.

(** Listing an archive gives one entry for every range, in their order:
    its name, size and checksum, and a way to open it, raw if the archive is
    encrypted, unless it is a directory. The only error is an encrypted
    file that carries no checksum to key it by. *)
Theorem zip_entries_spec zipPath isEncrypted ranges :
  match zip_entries zipPath isEncrypted ranges with
  | Ok es => Forall2 (describes isEncrypted) ranges es
  | Err e => errors_Is e ErrUnsupportedEncryption = true ∧ isEncrypted = true ∧
      Exists (λ pr, HasSuffix (pr_Name pr) "/" = false ∧ isWinZipAE2 (pr_File pr) = true) ranges
  | _ => False
  end.
Proof.
  induction ranges as [|pr ranges IH]; cbn [zip_entries]; [constructor|].
  pose proof (zip_entry_spec zipPath isEncrypted pr) as H. destruct (zip_entry zipPath isEncrypted pr) as [e|e| |]; cbn [obind]; try done.
  - destruct (zip_entries zipPath isEncrypted ranges) as [es|e1| |]; cbn [obind]; try done; [by constructor; [apply H|]|].
    destruct IH as (? & ? & ?). split_and!; [done|done|by right].
  - destruct H as (? & ? & ? & ?). split_and!; [done|done|by left].
Qed.

Lemma zip_entries_typed zipPath isEncrypted ranges es :
  zip_entries zipPath isEncrypted ranges = Ok es → Forall (λ pr, is_u32 (f_CRC32 (pr_File pr))) ranges → Forall entry_typed es.
Proof.
  revert es. induction ranges as [|pr ranges IH]; intros es; cbn [zip_entries]; [intros [= <-] _; constructor|].
  intros (e & He & (es' & Hes & [= <-])%obind_Ok)%obind_Ok [Hu Hall]%Forall_cons. constructor; [|by apply IH].
  pose proof (zip_entry_spec zipPath isEncrypted pr) as H. rewrite He in H. destruct H as [[_ Hs Hc _ _ _ _ _] Hz].
  split_and!; rewrite ?Hc, ?Hs, ?Hz; [done|apply i64_bounds..].
Qed.

(** The entries that the sources list have the widths of their types, if the
    storage and the zip library return values of theirs. *)
Lemma ListEntries_typed prefix zipPath isEncrypted :
  (∀ p x l x', s_List p x = (Ok l, x') → Forall (λ f, is_i64 (fi_Size f.1)) l) →
  (∀ read n files, zip_NewReader read n = Ok files → Forall (λ f, is_u32 (f_CRC32 f)) files) →
  (∀ x l x', FolderSource_ListEntries prefix x = (Ok l, x') → Forall entry_typed l) ∧
  (∀ x l x', ZipFileSource_ListEntries zipPath isEncrypted x = (Ok l, x') → Forall entry_typed l).
Proof.
  intros HL HZ. split; intros x l x'.
  - unfold FolderSource_ListEntries. intros [(files & s1 & H1%wrap_err_Ok & [= <- <-])|(r1 & _ & _ & Hn & _)]%bind_inv; [|by destruct (Hn l)].
    apply HL in H1. rewrite Forall_fmap. eapply Forall_impl; [exact H1|]. intros f Hf. unfold entry_typed. cbn. split; [by split|]. split; [exact Hf|].
    unfold is_i64, min_int64, max_int64. lia.
  - unfold ZipFileSource_ListEntries. intros [(size & s1 & H1%wrap_err_Ok & H)|(r1 & _ & _ & Hn & _)]%bind_inv; [|by destruct (Hn l)].
    apply bind_inv in H as [(ranges & s2 & H2%wrap_err_Ok & H)|(r1 & _ & _ & Hn & _)]; [|by destruct (Hn l)].
    destruct (s_reader zipPath s1) as [rd s3]. injection H2 as H2 _. injection H as H _.
    destruct (GetZipPartRanges_files _ _ _ _ H2) as (read & endo & files & Hz & Hperm). apply HZ in Hz.
    eapply zip_entries_typed; [exact H|]. rewrite Forall_forall in Hz. rewrite Forall_forall. intros pr Hpr. apply Hz. rewrite <- Hperm.
    apply list_elem_of_In, in_map, list_elem_of_In. exact Hpr.
Qed.

(** ** What an entry is filed under *)

Context {ST : Storage}.

(** The key of an entry is made of what it lists, or of what it reads. *)
Lemma has_key_inv e k : IsEncryptedRaw e = false → has_key e k →
  (se_CRC32 e ≠ 0 ∨ Size e = 0) ∧ k = fileKeyFor (se_CRC32 e) (Size e) ∨
  ∃ open y b y', Open e = Some open ∧ open y = (Ok (b, None), y') ∧ k = fileKeyFor (CRC32.Sum32 b) (blen b).
Proof.
  intros Hraw (s & s' & H). unfold entry_key in H. rewrite Hraw in H.
  destruct (negb (se_CRC32 e =? 0) || (Size e =? 0)) eqn:E.
  - left. injection H as <- _. split; [|done]. apply orb_true_iff in E as [E%negb_true_iff%Z.eqb_neq|E%Z.eqb_eq]; auto.
  - right. destruct (Open e) as [open|]; [|done].
    apply bind_inv in H as [([b err] & s1 & (Hs & _)%wrap_err_Ok%on_src_inv & H)|(r1 & _ & _ & Hn & _)]; [|by destruct (Hn k)].
    destruct err; [done|]. cbn [fst snd] in H. injection H as <- _. by exists open, (b_src s), b, (b_src s1).
Qed.

(** The entry [e] of an archive, for its range: raw bytes are those of the
    range, and all that reading it to the end can give is the content that its size
    and checksum, and so its key, speak of. *)
Record zip_entry_ok (zipPath : string) (pr : ZipPartRange) (e : SourceEntry) : Prop := {
  ze_raw open : OpenRaw e = Some open → open = s_ReadRange zipPath (StartOffset pr) (i64 (EndOffset pr - StartOffset pr));
  ze_open open : Open e = Some open → open = openZipEntryStream zipPath pr ∨
    (Z.land (f_Flags (pr_File pr)) 1 ≠ 0 ∨ f_Method (pr_File pr) ∉ [zip_Store; zip_Deflate]) ∧ open = zip_Open (pr_File pr);
  ze_content y b y' : Open e = Some (openZipEntryStream zipPath pr) → openZipEntryStream zipPath pr y = (Ok (b, None), y') →
    blen b ≤ max_int64 → Size e = blen b ∧ se_CRC32 e = CRC32.Sum32 b ∧
      ∀ k, has_key e k → k = fileKeyFor (CRC32.Sum32 b) (blen b);
}.

Lemma zip_entry_opens zipPath isEncrypted pr e : zip_entry zipPath isEncrypted pr = Ok e →
  (∀ open, OpenRaw e = Some open → open = s_ReadRange zipPath (StartOffset pr) (i64 (EndOffset pr - StartOffset pr))) ∧
  (∀ open, Open e = Some open → IsEncryptedRaw e = false ∧ (open = openZipEntryStream zipPath pr ∨
    (Z.land (f_Flags (pr_File pr)) 1 ≠ 0 ∨ f_Method (pr_File pr) ∉ [zip_Store; zip_Deflate]) ∧ open = zip_Open (pr_File pr))).
Proof.
  unfold zip_entry. cbv zeta. destruct (HasSuffix _ _); [by intros [= <-]|]. destruct isEncrypted.
  { destruct (isWinZipAE2 _); intros [= <-]. split; [by intros open [= <-]|done]. }
  destruct (Z.eqb_spec (Z.land (f_Flags (pr_File pr)) 1) 0) as [E1|E1]; cbn [andb].
  2:{ intros [= <-]. split; [done|]. intros open [= <-]. auto. }
  destruct ((f_Method (pr_File pr) =? zip_Store) || (f_Method (pr_File pr) =? zip_Deflate)) eqn:E2;
    intros [= <-]; (split; [done|]); intros open [= <-]; (split; [done|]); [by left|right]. split; [right|done].
  apply orb_false_iff in E2 as [E2%Z.eqb_neq E3%Z.eqb_neq]. rewrite !elem_of_cons, elem_of_nil. intuition congruence.
Qed.

Lemma zip_entry_truthful zipPath isEncrypted pr e :
  (∀ s, blen (flate_NewReader s).1 < 2 ^ 64) → 0 ≤ f_UncompressedSize64 (pr_File pr) →
  zip_entry zipPath isEncrypted pr = Ok e → zip_entry_ok zipPath pr e.
Proof.
  intros Hf Hu He. destruct (zip_entry_opens _ _ _ _ He) as [Hraw Hopen].
  pose proof (zip_entry_spec zipPath isEncrypted pr) as Hd. rewrite He in Hd. destruct Hd as [[_ Hsize Hcrc _ _ _ _ _] _].
  split; [done|by intros open [_ ?]%Hopen|]. intros y b y' Ho Hy Hmax. destruct (Hopen _ Ho) as [Henc _].
  destruct (openZipEntryStream_content _ _ _ _ _ Hf Hu Hy) as [Hl Hc].
  rewrite <- Hl, i64_id in Hsize by (unfold is_i64, min_int64, blen in *; lia). rewrite <- Hc in Hcrc.
  split_and!; [done..|]. intros k [[_ ->]|(open & z & b' & z' & Ho' & Hz & ->)]%has_key_inv; [congruence| |done].
  assert (open = openZipEntryStream zipPath pr) as -> by congruence.
  destruct (openZipEntryStream_content _ _ _ _ _ Hf Hu Hz) as [Hl' Hc']. congruence.
Qed.

(** C27. A backup files what the sources list under the key of its content. An
    archive is listed with one entry for each range of its directory, in their
    order, with the name, size, checksum and kind that the directory gives (only an
    encrypted archive is opened raw, and then at exactly the bytes of the range);
    and whatever content reading a plain entry to its end delivers, at any time,
    its length and CRC-32 are those listed, and its key is the one the backup
    computes for the entry. A folder is listed with one entry for each object
    below the prefix; the key of a file is that of a content that reading this
    object to the end has delivered, or the one of an empty file if its listed size
    is zero. *)
Theorem ListEntries_keys prefix zipPath isEncrypted :
  (∀ s, blen (flate_NewReader s).1 < 2 ^ 64) →
  (∀ read n files, zip_NewReader read n = Ok files → Forall (λ f, 0 ≤ f_UncompressedSize64 f) files) →
  (∀ x l x', ZipFileSource_ListEntries zipPath isEncrypted x = (Ok l, x') →
     ∃ size x1 rd rs, s_Size zipPath x = (Ok size, x1) ∧ s_reader zipPath x1 = (rd, x') ∧
       GetZipPartRanges zip_NewReader rd size = Ok rs ∧
       Forall2 (λ pr e, describes isEncrypted pr e ∧ zip_entry_ok zipPath pr e) rs l) ∧
  (∀ x l x', FolderSource_ListEntries prefix x = (Ok l, x') →
     ∃ files, s_List prefix x = (Ok files, x') ∧
       Forall2 (λ f e, Path e = fi_Name f.1 ∧ Size e = fi_Size f.1 ∧ (is_Some (Open e) ↔ HasSuffix (fi_Name f.1) "/" = false) ∧
         ∀ k, has_key e k → fi_Size f.1 = 0 ∧ k = fileKeyFor 0 0 ∨
           ∃ y b y', s_OpenReader (fi_Name f.1) y = (Ok (b, None), y') ∧ k = fileKeyFor (CRC32.Sum32 b) (blen b)) files l).
Proof.
  intros Hf HZ. split; intros x l x'.
  - unfold ZipFileSource_ListEntries. intros [(size & s1 & H1%wrap_err_Ok & H)|(r1 & _ & _ & Hn & _)]%bind_inv; [|by destruct (Hn l)].
    apply bind_inv in H as [(rs & s2 & H2%wrap_err_Ok & H)|(r1 & _ & _ & Hn & _)]; [|by destruct (Hn l)].
    destruct (s_reader zipPath s1) as [rd s3] eqn:Er. injection H2 as H2 <-. injection H as H <-.
    exists size, s1, rd, rs. split_and!; [done..|]. destruct (GetZipPartRanges_files _ _ _ _ H2) as (read & endo & files & Hz & Hperm).
    apply HZ in Hz. rewrite <- Hperm in Hz. change (map pr_File rs) with (pr_File <$> rs) in Hz. rewrite Forall_fmap in Hz. clear -H Hz Hf. revert l H Hz.
    induction rs as [|pr rs IH]; intros l; cbn [zip_entries]; [intros [= <-] _; constructor|].
    intros (e & He & (es & Hes & [= <-])%obind_Ok)%obind_Ok [Hu Hall]%Forall_cons. constructor; [|by apply IH].
    split; [|by eapply zip_entry_truthful]. pose proof (zip_entry_spec zipPath isEncrypted pr) as Hd. rewrite He in Hd. apply Hd.
  - unfold FolderSource_ListEntries. intros [(files & s1 & H1%wrap_err_Ok & [= <- <-])|(r1 & _ & _ & Hn & _)]%bind_inv; [|by destruct (Hn l)].
    exists files. split; [done|]. apply Forall2_fmap_r, Forall_Forall2_diag, Forall_true. intros f.
    split; [done|]. split; [done|]. split.
    + cbn -[HasSuffix]. destruct (HasSuffix (fi_Name f.1) "/"); (split; [by intros []|]); [done|by eexists].
    + intros k [[[H|H] ->]|(open & y & b & y' & Ho & Hy & ->)]%has_key_inv; [done|left; cbn in *; by rewrite H|right|done].
      cbn -[HasSuffix] in Ho. destruct (HasSuffix (fi_Name f.1) "/"); [done|]. injection Ho as <-. by exists y, b, y'.
Qed.

End Props.

(** ** Extra fields *)

(** Extra fields as an archive holds them. *)
Fixpoint put_fields (l : list (Z * bytes)) : bytes :=
  match l with
  | [] => []
  | (tag, data) :: l => le_bytes 2 tag ++ le_bytes 2 (blen data) ++ data ++ put_fields l
  end.

(** The first field that describes AES encryption. *)
Definition aes_field (l : list (Z * bytes)) : option (Z * bytes) :=
  find (λ x, (x.1 =? winzipAESExtraID) && (2 <=? blen x.2)) l.

Definition field_ok (x : Z * bytes) : Prop := 0 ≤ x.1 < 2 ^ 16 ∧ blen x.2 < 2 ^ 16.

Lemma ae2_fields_put fuel l : Forall field_ok l → (length (put_fields l) < fuel)%nat →
  ae2_fields fuel (put_fields l) = match aes_field l with Some (_, data) => le_value (take 2 data) =? 2 | None => false end.
Proof.
  intros Hok. revert fuel. induction Hok as [|[tag data] l [Ht Hd] _ IH]; intros fuel Hf; (destruct fuel as [|fuel]; [simpl in Hf; lia|]); [done|].
  cbn [put_fields ae2_fields aes_field find fst snd] in *. rewrite !length_app, !length_le_bytes in Hf.
  assert (0 ≤ blen data) as Hd0 by (unfold blen; lia).
  rewrite (proj2 (Z.ltb_ge _ _)) by (unfold len; rewrite !length_app, !length_le_bytes; lia).
  rewrite (take_app_length' (le_bytes 2 tag)) by done. rewrite (drop_app_length' (le_bytes 2 tag) _ 2) by done.
  rewrite (take_app_length' (le_bytes 2 (blen data))) by done.
  assert (drop 4 (le_bytes 2 tag ++ le_bytes 2 (blen data) ++ data ++ put_fields l) = data ++ put_fields l) as ->
    by (rewrite app_assoc; apply drop_app_length'; by rewrite length_app, !length_le_bytes).
  rewrite !le_value_bytes, !Z.mod_small by (change (256 ^ Z.of_nat 2) with (2 ^ 16); lia).
  rewrite (proj2 (Z.ltb_ge _ _)) by (unfold len, blen; rewrite length_app; lia).
  destruct ((tag =? winzipAESExtraID) && (2 <=? blen data)) eqn:E.
  - apply andb_true_iff in E as [_ E%Z.leb_le]. unfold blen in E. rewrite take_app_le by lia. done.
  - rewrite drop_app_length' by (unfold blen; lia). apply IH. lia.
Qed.

(** [isWinZipAE2] finds the vendor version in the first AES field of the
    entry's extra fields, wherever among them it is. *)
Theorem isWinZipAE2_spec f l : Forall field_ok l → f_Extra f = put_fields l →
  isWinZipAE2 f = match aes_field l with Some (_, data) => le_value (take 2 data) =? 2 | None => false end.
Proof. intros Hok E. unfold isWinZipAE2. rewrite E. apply ae2_fields_put; [done|lia]. Qed.

(** ** A storage with one archive *)

Module SourceExample.

Definition hello : bytes := bytes_of_string "hello".
Definition header : bytes := local_header (replicate 22 Byte.x00) (bytes_of_string "a") [].
Definition data : bytes := header ++ bytes_of_string "a" ++ [] ++ hello.
Definition archive : bytes :=
  put_archive {| l_data := data; l_cd := replicate 3 Byte.x01; l_records := 1; l_zip64 := false; l_comment := [] |}.

#[export] Instance world : SourceWorld := {| src := unit; ctx_Err _ := None |}.
#[export] Instance storage : SourceStorage := {|
  s_List _ x := (Ok [({| fi_Name := "d/"; fi_Size := 0 |}, 0); ({| fi_Name := "d/f"; fi_Size := 5 |}, 7)], x);
  s_OpenReader _ x := (Ok (hello, None), x);
  s_ReadRange _ a n x := (Ok (take (Z.to_nat n) (drop (Z.to_nat a) archive), None), x);
  s_Size _ x := (Ok (blen archive), x);
  s_reader _ x := (bytes_ReaderAt archive, x);
|}.

Definition file (extra : bytes) : zipFile := {|
  f_Name := "a"; f_HeaderOffset := 0; f_CRC32 := CRC32.Sum32 hello; f_CompressedSize64 := 5; f_UncompressedSize64 := 5; f_Method := zip_Store;
  f_Flags := 0; f_Extra := extra; f_ModifiedDate := 0; f_ModifiedTime := 0 |}.
Definition range : ZipPartRange := {| pr_Name := "a"; StartOffset := 0; EndOffset := blen data; pr_File := file [] |}.

(** A directory with that entry, and a decompressor of nothing. *)
#[export] Instance library : ZipLibrary := {|
  zip_NewReader _ _ := Ok [file []]; zip_Open _ x := (Ok ([], None), x); flate_NewReader _ := ([], None) |}.
#[export] Instance chunking : Chunking.
Proof. refine {| chunks b := [b] |}. intros b. cbn. apply app_nil_r. Defined.

End SourceExample.
Import SourceExample.

Lemma openZipEntryStream_roundtrip_witness :
  openZipEntryStream "z" range tt = (Ok (bytes_of_string "hello", None), tt).
Proof.
  apply (openZipEntryStream_roundtrip (SS := storage) "z" range (replicate 22 Byte.x00) (bytes_of_string "a") [] hello [] hello tt tt);
    vm_compute; try reflexivity; discriminate.
Defined.

Lemma openZipEntryStream_sound_witness :
  openZipEntryStream "z" range tt = (Ok (bytes_of_string "hello", None), tt) ∧
  blen (bytes_of_string "hello") = 5 ∧ CRC32.Sum32 (bytes_of_string "hello") = 0x3610a686.
Proof.
  assert (openZipEntryStream "z" range tt = (Ok (bytes_of_string "hello", None), tt)) as E by (vm_compute; reflexivity).
  split; [exact E|]. apply (openZipEntryStream_sound (SS := storage) "z" range tt _ tt); [|vm_compute; discriminate|exact E].
  intros s. vm_compute. reflexivity.
Defined.

Lemma ListEntries_typed_witness :
  (∀ x l x', FolderSource_ListEntries "d" x = (Ok l, x') → Forall entry_typed l) ∧
  (∀ x l x', ZipFileSource_ListEntries "z" true x = (Ok l, x') → Forall entry_typed l).
Proof.
  apply (ListEntries_typed (SS := storage) "d" "z" true).
  - intros p x l x' [= <- <-]. repeat constructor; vm_compute; discriminate.
  - intros read n files [= <-]. repeat constructor; vm_compute; (reflexivity || discriminate).
Defined.

Lemma ListEntries_keys_witness :
  ∃ e, (ZipFileSource_ListEntries "z" false tt).1 = Ok [e] ∧ Path e = "a" ∧ Size e = 5 ∧
    ∀ k, @has_key Mem.storage _ e k → k = fileKeyFor 0x3610a686 5.
Proof.
  assert (GetZipPartRanges zip_NewReader (bytes_ReaderAt archive) (blen archive) = Ok [range]) as Hrs by (vm_compute; reflexivity).
  destruct (zip_entry "z" false range) as [e|e| |] eqn:He; try discriminate He.
  assert (ZipFileSource_ListEntries "z" false tt = (Ok [e], tt)) as Hl.
  { injection He as <-. vm_compute. reflexivity. }
  exists e. split; [by rewrite Hl|].
  destruct (ListEntries_keys (ST := Mem.storage) "d" "z" false) as [Hzip _].
  - intros s. vm_compute. reflexivity.
  - intros read n files [= <-]. repeat constructor. vm_compute. discriminate.
  - destruct (Hzip _ _ _ Hl) as (size & x1 & rd & rs & [= <- <-] & [= <-] & Hrs' & Hall).
    rewrite Hrs in Hrs'. injection Hrs' as <-. apply Forall2_cons in Hall as [[Hd Hok] _].
    destruct (ze_content _ _ _ Hok tt hello tt) as (Hs & _ & Hk).
    + injection He as <-. reflexivity.
    + vm_compute. reflexivity.
    + vm_compute. discriminate.
    + split; [exact (de_path _ _ _ Hd)|]. split; [exact Hs|]. intros k Hkey. rewrite (Hk k Hkey). f_equal; vm_compute; reflexivity.
Defined.

Lemma isWinZipAE2_spec_witness :
  isWinZipAE2 (file (put_fields [(1, hello); (0x9901, le_bytes 2 2 ++ hello)])) = true.
Proof.
  apply (isWinZipAE2_spec (file (put_fields [(1, hello); (0x9901, le_bytes 2 2 ++ hello)])) [(1, hello); (0x9901, le_bytes 2 2 ++ hello)]); [|reflexivity].
  repeat constructor; vm_compute; (reflexivity || discriminate).
Defined.
