(* ===== verification/Timeouts.v ===== *)
(** Limits of time that stand beside the retry loop: the hint of a server
    ([ParseRetryAfter] of [storage_clients/retry.go]) and the limit on the header
    phase of a request whose body outlives it ([OpenWithHeaderTimeout] of
    [storage_clients/headertimeout.go]), with the interleavings of its timer. *)

From S2P Require Import Prelude Errors GoStrings Url.
#[local] Open Scope Z_scope.

(** ** Retry-After *)

(** [http.ParseTime]. *)
Class ParseTime := { http_ParseTime : string → option Z }.

(** [ParseRetryAfter], times and durations in nanoseconds; [t.Sub(now)] stays
    within an [int64]. *)
Definition day_seconds : Z := 24 * 3600.
Definition time_Sub (t now : Z) : Z := Z.max min_int64 (Z.min max_int64 (t - now)).
Definition ParseRetryAfter {PT : ParseTime} (v : string) (now : Z) : Z :=
  let v := TrimSpace v in
  if bool_decide (v = "") then 0
  else
    match ParseInt v with
    | Some secs => if secs <=? 0 then 0 else (if day_seconds <? secs then day_seconds else secs) * 10 ^ 9
    | None =>
        match http_ParseTime v with
        | Some t => let d := time_Sub t now in if 0 <? d then d else 0
        | None => 0
        end
    end.

(** ** The header phase *)

Section HeaderTimeout.
Context {Body : Type}.

(** What [open] returns. *)
Definition opened : Type := option Body * option error.

(** The timer and its function, which runs in a goroutine of its own: it
    stores [fired], then cancels. There is none when [d <= 0]. *)
Inductive timer := NoTimer | Armed | Stopped | Started | Stored | Finished.

(** The caller of [open], with what [open] returned: in [open] without a timer,
    and returned from it; in [open], about to stop the timer, about to close the
    body and to cancel, about to look at [fired]; returned; and done with the
    body that was returned. *)
Inductive progress :=
| Direct
| Passed (r : opened)
| Opening
| Stopping (r : opened)
| Closing (r : opened)
| Loading (r : opened)
| Returned (r : opened)
| BodyClosed (b : Body).

(** [cancelled] is of the context that [open] was given: [hctx], or [ctx] itself
    when there is no timer; [caller_err] is [ctx.Err()]. *)
Record state := {
  tm : timer;
  fired : bool;
  cancelled : bool;
  caller_err : option error;
  pc : progress;
}.

Definition init (d : Z) : state :=
  if d <=? 0 then {| tm := NoTimer; fired := false; cancelled := false; caller_err := None; pc := Direct |}
  else {| tm := Armed; fired := false; cancelled := false; caller_err := None; pc := Opening |}.

(** The result after the failure. *)
Definition after_failure (r : opened) (fired : bool) (ctx_err : option error) : opened :=
  if fired && bool_decide (ctx_err = None) then (None, Some (Errorf "no response headers" [ESentinel ErrAttemptTimeout]))
  else (None, r.2).

(** One step of the timer's goroutine, of the caller, or of the outside world.
    The end of the caller's context ends the context derived from it. *)
Inductive step : state → state → Prop :=
| timer_starts s : tm s = Armed →
    step s {| tm := Started; fired := fired s; cancelled := cancelled s; caller_err := caller_err s; pc := pc s |}
| timer_stores s : tm s = Started →
    step s {| tm := Stored; fired := true; cancelled := cancelled s; caller_err := caller_err s; pc := pc s |}
| timer_cancels s : tm s = Stored →
    step s {| tm := Finished; fired := fired s; cancelled := true; caller_err := caller_err s; pc := pc s |}
| caller_cancelled s e : caller_err s = None →
    step s {| tm := tm s; fired := fired s; cancelled := true; caller_err := Some e; pc := pc s |}
| open_passes s r : pc s = Direct → is_Some r.1 ∨ is_Some r.2 →
    step s {| tm := tm s; fired := fired s; cancelled := cancelled s; caller_err := caller_err s; pc := Passed r |}
| open_returns s r : pc s = Opening → is_Some r.1 ∨ is_Some r.2 →
    step s {| tm := tm s; fired := fired s; cancelled := cancelled s; caller_err := caller_err s; pc := Stopping r |}
| timer_stopped s r : pc s = Stopping r → tm s = Armed →
    step s {| tm := Stopped; fired := fired s; cancelled := cancelled s; caller_err := caller_err s;
              pc := match r.2 with None => Returned r | Some _ => Closing r end |}
| timer_not_stopped s r : pc s = Stopping r → tm s ≠ Armed →
    step s {| tm := tm s; fired := fired s; cancelled := cancelled s; caller_err := caller_err s; pc := Closing r |}
| body_closed s r : pc s = Closing r →
    step s {| tm := tm s; fired := fired s; cancelled := true; caller_err := caller_err s; pc := Loading r |}
| fired_loaded s r : pc s = Loading r →
    step s {| tm := tm s; fired := fired s; cancelled := cancelled s; caller_err := caller_err s;
              pc := Returned (after_failure r (fired s) (caller_err s)) |}
| body_done s b : pc s = Returned (Some b, None) → (* [cancelOnClose.Close] *)
    step s {| tm := tm s; fired := fired s; cancelled := true; caller_err := caller_err s; pc := BodyClosed b |}.

Definition reachable (d : Z) : state → Prop := rtc step (init d).

(** The timer has gone off. *)
Definition expired (t : timer) : bool := match t with Started | Stored | Finished => true | _ => false end.

(** What holds in every state: the context was cancelled by the caller's own,
    by the timer, or by the caller of [open] on its way out. *)
Record invariant (s : state) : Prop := {
  i_fired : fired s = true → expired (tm s) = true;
  i_cancelled : cancelled s = true →
    is_Some (caller_err s) ∨ tm s = Finished ∨ match pc s with Loading _ | Returned (None, _) | BodyClosed _ => True | _ => False end;
  i_pc :
    match pc s with
    | Direct | Passed _ => tm s = NoTimer
    | Opening => tm s ≠ Stopped ∧ tm s ≠ NoTimer
    | Stopping r => (tm s ≠ Stopped ∧ tm s ≠ NoTimer) ∧ (is_Some r.1 ∨ is_Some r.2)
    | Closing r => is_Some r.2 ∨ expired (tm s) = true
    | Loading r => cancelled s = true ∧ (is_Some r.2 ∨ expired (tm s) = true)
    | Returned (Some _, e) => e = None ∧ tm s = Stopped
    | Returned (None, Some _) => cancelled s = true
    | Returned (None, None) => cancelled s = true ∧ expired (tm s) = true
    | BodyClosed _ => cancelled s = true ∧ tm s = Stopped
    end;
}.

Lemma init_invariant d : invariant (init d).
Proof. unfold init. by destruct (d <=? 0); constructor. Qed.

Lemma step_invariant s s' : invariant s → step s s' → invariant s'.
Proof.
  intros [Hf Hc Hp] H. destruct H as [s E|s E|s E|s e E|s r E Hr|s r E Hr|s r E Et|s r E Et|s r E|s r E|s b E];
    constructor; cbn [tm fired cancelled caller_err pc expired] in *; try rewrite E in *; try done; try tauto; eauto;
    try (destruct (pc s) as [|r|  |r|r|r|[[b|] [e'|]]|b]; naive_solver).
  - rewrite Et in Hf. by destruct (fired s).
  - rewrite Et in Hc. intros H. destruct (Hc H) as [?|[?|[]]]; [by left|done].
  - destruct r as [[b|] [e|]]; cbn; [by left; eexists|done|by left; eexists|]. by destruct Hp as [_ [[]|[]]].
  - right. destruct Hp as [[Hp Hn] _]. by destruct (tm s).
  - unfold after_failure. destruct (_ && _); cbn; auto.
  - unfold after_failure. destruct Hp as [Hp1 Hp2]. destruct (_ && _); cbn; [done|]. destruct r as [b [e|]]; cbn in *; [done|].
    split; [done|]. by destruct Hp2 as [[]|].
Qed.

Lemma reachable_invariant d s : reachable d s → invariant s.
Proof.
  pose proof (init_invariant d) as H0. intros H. unfold reachable in H. revert H0. induction H as [s|s1 s2 s3 Hs _ IH]; [done|].
  intros H0. apply IH. by eapply step_invariant.
Qed.

(** Whether there is a timer is settled by [d]. *)
Definition undisturbed (p : progress) : bool := match p with Direct | Passed _ => true | _ => false end.

Lemma reachable_direct d s : reachable d s → undisturbed (pc s) = (d <=? 0).
Proof.
  assert (undisturbed (pc (init d)) = (d <=? 0)) as H0 by (unfold init; by destruct (d <=? 0)).
  intros H. unfold reachable in H. revert H0. induction H as [s|s1 s2 s3 Hs _ IH]; [done|]. intros H0. apply IH. clear IH.
  destruct Hs; cbn [pc] in *; repeat match goal with E : pc _ = _ |- _ => rewrite E in H0; clear E end; try done. by destruct (r.2).
Qed.

End HeaderTimeout.
Arguments state : clear implicits.
Arguments opened : clear implicits.

(** ** Properties *)

(** The hint of a server as whole seconds is waited for exactly, up to a
    day; no hint gives a negative wait. *)
Theorem ParseRetryAfter_spec {PT : ParseTime} v now n :
  0 ≤ ParseRetryAfter v now ≤ Z.max (day_seconds * 10 ^ 9) max_int64 ∧
  (0 < n ≤ max_int64 → ParseRetryAfter (fmt_d n) now = Z.min n day_seconds * 10 ^ 9).
Proof.
  split.
  - unfold ParseRetryAfter, time_Sub, day_seconds, max_int64. cbv zeta. case_bool_decide; [lia|]. destruct (ParseInt _) as [secs|].
    + destruct (Z.leb_spec secs 0); [lia|]. destruct (Z.ltb_spec (24 * 3600) secs); lia.
    + destruct (http_ParseTime _); [|lia]. destruct (Z.ltb_spec 0 (Z.max min_int64 (Z.min (2 ^ 63 - 1) (z - now)))); [|lia].
      unfold min_int64 in *. lia.
  - intros [Hn Hmax]. destruct (fmt_d_chars n) as [Hd Hne]; [lia|]. unfold ParseRetryAfter. rewrite TrimSpace_digits by done. cbv zeta.
    rewrite bool_decide_false by (intros E; by rewrite E in Hne).
    rewrite ParseInt_fmt_d by (unfold is_i64, min_int64; lia). rewrite (proj2 (Z.leb_gt _ _)) by lia.
    destruct (Z.ltb_spec day_seconds n); [rewrite Z.min_r by lia|rewrite Z.min_l by lia]; done.
Qed.

Lemma ParseRetryAfter_spec_witness :
  let PT := {| http_ParseTime _ := None |} in ParseRetryAfter (fmt_d 120) 5 = 120 * 10 ^ 9.
Proof. intros PT. apply (proj2 (ParseRetryAfter_spec (fmt_d 120) 5 120)). vm_compute. split; [reflexivity|discriminate]. Defined.

(** C26. However the timer's goroutine, the caller of [open] and the outside
    interleave: a body that is returned comes without an error, its timer has been
    stopped without going off, and its context has ended only if the caller's own
    context has, never by the timer; the context is released when that body is
    closed, and in every other case it has been released on return. Nothing at all
    is returned only if the timer has gone off. With [d <= 0] there is no timer, and
    the context of [open] ends with the caller's only. *)
Theorem OpenWithHeaderTimeout_safe {Body : Type} (d : Z) (s : state Body) :
  reachable d s →
  match pc s with
  | Returned (Some _, e) => e = None ∧ fired s = false ∧ tm s = Stopped ∧ (cancelled s = true → is_Some (caller_err s))
  | Returned (None, Some _) => cancelled s = true
  | Returned (None, None) => cancelled s = true ∧ expired (tm s) = true
  | BodyClosed _ => fired s = false ∧ cancelled s = true ∧ tm s = Stopped
  | Direct | Passed _ => d ≤ 0 ∧ fired s = false ∧ tm s = NoTimer ∧ (cancelled s = true → is_Some (caller_err s))
  | _ => 0 < d
  end.
Proof.
  intros H. pose proof (reachable_direct d s H) as Hd. apply reachable_invariant in H as [Hf Hc Hp].
  assert (expired (tm s) = false → fired s = false) as Hff.
  { intros E. rewrite E in Hf. destruct (fired s); [by specialize (Hf eq_refl)|done]. }
  revert Hd Hc Hp. destruct (pc s) as [|r0| |r0|r0|r0|r|b]; cbn [undisturbed]; intros Hd Hc Hp; symmetry in Hd;
    try (by apply Z.leb_gt in Hd).
  1, 2: apply Z.leb_le in Hd; rewrite Hp in *; split_and!; try done; [by apply Hff|]; intros H; destruct (Hc H) as [?|[?|[]]]; done.
  2:{ destruct Hp as [Hp Ht]. rewrite Ht in *. split_and!; [by apply Hff|done|done]. }
  destruct r as [[b|] [e|]]; try done; destruct Hp as [Hp Ht]; try done.
  rewrite Ht in *. split_and!; [done|by apply Hff|done|]. intros H. by destruct (Hc H) as [?|[?|[]]].
Qed.

Lemma OpenWithHeaderTimeout_safe_witness :
  let s : state nat := {| tm := Stopped; fired := false; cancelled := true; caller_err := Some (ESentinel CtxCanceled); pc := Returned (Some 5%nat, None) |} in
  reachable 7 s ∧ fired s = false ∧ tm s = Stopped ∧ is_Some (caller_err s).
Proof.
  intros s. assert (reachable 7 s) as H.
  { eapply rtc_l; [apply (open_returns (init 7) (Some 5%nat, None)); [reflexivity|by left; eexists]|].
    eapply rtc_l; [apply (timer_stopped _ (Some 5%nat, None)); reflexivity|].
    eapply rtc_l; [apply (caller_cancelled _ (ESentinel CtxCanceled)); reflexivity|]. constructor. }
  split; [exact H|]. pose proof (OpenWithHeaderTimeout_safe 7 s H) as [_ [Hf [Ht Hc]]]. split; [exact Hf|]. split; [exact Ht|]. exact (Hc eq_refl).
Defined.

(** A defect: the timer's function may have started without having
    stored [fired] when [open] returns a body. The body is then closed, and the
    caller, whose own context is live, gets neither a body nor an error. *)
Theorem OpenWithHeaderTimeout_nothing {Body : Type} (d : Z) (b : Body) :
  0 < d → ∃ s : state Body, reachable d s ∧ pc s = Returned (None, None) ∧ caller_err s = None.
Proof.
  intros Hd. assert (init d = {| tm := Armed; fired := false; cancelled := false; caller_err := None; pc := Opening (Body := Body) |}) as E
    by (unfold init; by rewrite (proj2 (Z.leb_gt _ _)) by lia).
  eexists. split.
  - unfold reachable. rewrite E. eapply rtc_l; [apply timer_starts; reflexivity|].
    eapply rtc_l; [apply (open_returns _ (Some b, None)); [reflexivity|by left; eexists]|].
    eapply rtc_l; [apply (timer_not_stopped _ (Some b, None)); [reflexivity|discriminate]|].
    eapply rtc_l; [apply (body_closed _ (Some b, None)); reflexivity|].
    eapply rtc_l; [apply (fired_loaded _ (Some b, None)); reflexivity|]. constructor.
  - split; reflexivity.
Qed.
